(* ===== verification/_CoqProject ===== *)
-Q . S2P
Prelude.v
Bytes.v
Config.v
Watch.v
Reload.v
Socket.v
Feed.v
Queue.v
Wire.v
Protobuf.v
Client.v
Consumer.v
Stream.v
Projection.v
Reth.v
Cache.v
CacheInv.v
Metrics.v
Publisher.v
Sample.v
PublisherInv.v
Service.v
Codec.v
Recovery.v
Fidelity.v
Loop.v
MetricsInv.v
Typed.v
Server.v
Live.v
System.v
Reconfig.v
Lifecycle.v
Delivery.v
Anomalies.v
