(* ===== verification/Prelude.v ===== *)
(** * reth-statefeed: a verification development

    reth-statefeed runs inside a Reth node and streams the values of a configured
    set of storage slots to local consumers over a Unix socket.  An engine
    wrapper observes executed, validated, rejected and applied blocks and queues
    compact events without ever waiting; a publisher thread turns them into a
    sequence of protobuf frames, keeping a bounded cache of candidate blocks and
    re-anchoring from the node's database after a loss or an error; a server
    gives each consumer a handshake and then the live frames.

    ** The parts and their models (sources under src/src)

    - [Prelude]: machine integers, record update, outcomes ([Ok], [Err],
      [Diverge]), the state-passing monad with weakest preconditions, the order
      of hash-map iteration as the class [HashIter].
    - [Bytes]: big-endian words, slices, bitmaps.
    - [Config] (config.rs): the settings, every check of [Config::validate] in
      order, [Config::load] over an abstract file and TOML decoder.
    - [Watch] (watch.rs): [WatchSet::compile], the lookups, [matches_config].
    - [Reload] (publisher.rs [run_config_reloader], feed.rs
      [request_activation]): the reload task from its set-up to its return, the
      control channel and the publisher's answer as interleaved steps.
    - [Socket] (publisher.rs [bind_socket], [SocketCleanup], [run_server]): the
      socket file, and the accept loop with its permits, its consumer tasks and
      the gauge of connected consumers.
    - [Feed] (feed.rs): events, [extract_changes] with both scan directions, the
      events the producer builds.
    - [Queue] (feed.rs [try_send], [record_drop], [take_pending_loss]): the lossy
      queue; each atomic operation of any number of producers and of the
      publisher is one step of [queue_step], the producer's metrics included, with
      a ghost log.
    - [Wire] (wire.rs): the messages and [encode_frame].
    - [Protobuf] (wire.rs, the [prost] attributes): the protobuf encoding of
      every message from its field numbers and types, one instance of the class
      [Message] each, with its round-trip laws.
    - [Client] (client.rs): [FrameReader::read] and [PackedValues].
    - [Consumer] (bin/statefeed-dump.rs): the stream cursor, every branch of the
      read loop, the candidate tracker.
    - [Stream]: the abstract specification of the stream, an automaton over
      envelopes, and its agreement with the consumer.
    - [Projection] (publisher.rs): projections, deltas, the canonical bitmap, the
      validators, the interface [SnapshotSource].
    - [Reth] (reth_integration.rs): the forkchoice tracker, the engine wrapper's
      callbacks as sequences of effects, the snapshot source reading a node that
      keeps moving.
    - [Cache] and [CacheInv] (publisher.rs): the candidate maps, order queues,
      tombstones, trimming and finality sweep, and their invariant.
    - [Metrics] (publisher.rs [PublisherMetrics]): the counters, the gauges and the
      frame sizes, and the specification [tally] of what they should say.
    - [Publisher] and [PublisherInv] (publisher.rs): [Shared], every handler,
      recovery, the passes of the thread and [start_service]; the invariant of each
      operation as a weakest-precondition lemma.
    - [Codec]: the size of every encoded message, and the frame requirement of a
      configuration.
    - [Loop] (publisher.rs [run_publisher]): the same thread one operation at a
      time, with its channels, its spinning and its [select!], interleaved with
      the threads that send to it.
    - [MetricsInv]: the gauges and counters along every step of the thread.
    - [Typed]: that what the publisher holds and sends stays within the integer,
      hash and string types of the source when its inputs do.
    - [Server], [Live] (publisher.rs [serve_consumer]): the handshake and its race
      with publication, the live part over the broadcast ring.
    - [Reconfig]: the reload task and the publisher thread side by side over the
      control channel.
    - [Lifecycle] (main.rs [run_node]; publisher.rs [start_service],
      [ServiceHandle::shutdown]): the process from its arguments to a running
      service, and its shutdown, over the pair of [Reconfig] and the accept loop
      and guard of [Socket].
    - [Service], [Recovery], [Fidelity], [System], [Delivery]: the theorems about
      the running service (below).
    - [Sample], [Anomalies]: a concrete world in which statements are evaluated,
      and two behaviours of the cache that cost consumers something.

    Components meet through type classes: [SnapshotSource] (implemented by
    [System.reth_source]), [Prost] with [ProstLaws] and [ProstInverse]
    (implemented by [Protobuf.protobuf]), [HashIter], [RethWorld], [Broadcast]
    with [BroadcastLaws], collected for the publisher in [Env].

    ** What the theorems show

    - [Delivery.consumer_reads_truth]: end to end.  What a consumer has been sent
      at any moment is a byte stream that the client library decodes without an
      error, that the diagnostic consumer accepts, and whose every value is the
      storage of the block it is attributed to.  Assumed are the ranges of the
      types of Reth's answers, of the engine's calls and of the reloads, that the
      engine reports blocks truthfully, a client limit no smaller than the
      service's frame limit, and the horizon below; that the envelopes are then
      encodable is proved ([Typed.loop_typed]).
    - [System.node_stream_true]: the whole node.  Whatever is executed,
      reorganised, dropped, recovered or reloaded, in any interleaving of the
      thread with its senders, what it broadcasts is a stream of the protocol, and
      each frame carries exactly the storage of the block it names, at the keys of
      the one dictionary its generation has had.  The hypotheses are about Reth
      and the operator's configuration only.
    - [Reconfig.reloads_reach_consumers]: with the reload task beside the thread,
      each behaves as its own model says, generations are consecutive, and the
      dictionaries of the stream are exactly the sets the task compiled.
    - [Server.served_consumer_accepts], [Stream.consumer_accepts_stream],
      [Stream.consumer_detects_loss], [Live.connection_contiguous]: a served
      consumer accepts what it is sent, with nothing missing or repeated, lag and
      failed writes end a connection for good, and a consumer that misses
      something notices.
    - [Service.publisher_refines_protocol], [Service.publisher_memory_bounded],
      [Fidelity.published_values_true]: refinement of the protocol, memory bounded
      by the configuration, truth of values and bitmaps, for any provider.
    - [Loop]: the thread with its channels computes what [run_publisher] computes,
      handles data in order, does not starve configuration requests and stops
      promptly.  [Lifecycle]: [run_node] sets everything up or fails with an error
      that tells how far it got and what is left at the path;
      [ServiceHandle::shutdown] waits for everything and for nothing that does not
      come, and returns every permit.
    - [MetricsInv.metrics_exact]: the counters are at every moment those of the
      frames broadcast, and the gauges those of the cache unless the thread is in
      the middle of a recovery.  [Queue.drops_accounted] and
      [Socket.server_capacity] do the same for the queue's counters and the
      server's gauge.
    - [Codec], [Protobuf]: the encoding is invertible, a validated configuration
      is never refused for the size of a frame, and every event fits.
    - [Queue]: what is reserved after a drop is handled only after a recovery, no
      wake-up is lost, exclusion, order and capacity, accounting of drops.
    - [Reth]: a snapshot is read within one stretch without any forkchoice update
      and covers every forkchoice lost or skipped before it.
    - [Recovery]: recovery ends once the provider answers, forkchoices fence and
      broadcast exactly their view, activations are atomic.  [Reload]: generations are consecutive and a valid
      configuration is not lost.
    - [CacheInv], [Feed], [Client], [Consumer], [Watch], [Config], [Socket]:
      functional correctness, termination and bounds of the routines.
    - [Anomalies]: when exactly an eviction is reported as a failure, and what
      exactly a rejection leaves with a consumer; runs of the service reach both.

    ** Bounds and fuel

    Loops of the cache take fuel computed from the sizes of its queues, and the
    theorems say the loops return within it.  The retry loop of
    [recover_until_success] is unbounded in the source: it takes fuel, the safety
    theorems hold for every fuel, and [Recovery.recovery_ends] gives the fuel
    that suffices.  In [Loop] there is no fuel: a run is a list of steps of any
    length.  [load_latest] has four attempts, as the source does.  The
    publisher counts its interactions with the world (clock readings, provider
    calls, shutdown polls) in a tick; theorems about the stream assume fewer than
    2^64 of them ([PublisherInv.within]), so that sequence numbers and
    incarnations do not wrap.

    ** Not modelled

    Histograms of durations (they depend on the wall clock alone), logging, thread pinning, command-line parsing,
    launching the Reth node (an argument of [Lifecycle.run_node]), delegation to
    the inner validator, the file-system watcher (a step of the environment), the
    code that [prost] generates (the class [Prost]; [Protobuf] writes out the
    encoding its attributes declare and shows that it satisfies what the other
    files assume of the class), Reth itself (the class [RethWorld]).  Channels and
    atomics behave as documented: atomics are sequentially consistent in [Queue],
    and the ring of the broadcast channel is constrained by [BroadcastLaws]
    only.  Instants are natural numbers without an upper bound (an expiry beyond
    the range of [Instant], where Rust panics, is out of reach of the clock in
    the model as it is in practice) and may repeat:
    [Reth.forkchoice_covered] has the equal instant as its one exception.
    Gauges and samples are exact natural numbers; the source hands them to the
    recorder as [f64], which is exact below 2^53.  The decoder of [Protobuf]
    refuses the deprecated group wire types, which no message of wire.rs uses. *)

From Stdlib Require Export NArith Lia.
From stdpp Require Export sorting.
From stdpp Require Export prelude gmap sets list strings numbers.

(** ** Fixed-width unsigned integers

    [u32], [u64] and [usize] values are [N]; the operations the source spells
    [wrapping_*], [saturating_*] and [checked_*] are written out. *)

Declare Scope feed_scope.
Delimit Scope feed_scope with feed.

Definition u8_max : N := 255.
Definition u32_max : N := 4294967295.
Definition u64_max : N := 18446744073709551615.
Definition usize_max : N := u64_max.

Definition wrapping_add (a b : N) : N := (a + b) mod (u64_max + 1).
Definition saturating_add (a b : N) : N := N.min (a + b) u64_max.
Definition saturating_mul (a b : N) : N := N.min (a * b) u64_max.
Definition saturating_sub (a b : N) : N := a - b.
Definition checked_add (a b : N) : option N :=
  if (a + b <=? u64_max)%N then Some (a + b)%N else None.
Definition checked_sub (a b : N) : option N :=
  if (b <=? a)%N then Some (a - b)%N else None.
Definition checked_mul (a b : N) : option N :=
  if (a * b <=? u64_max)%N then Some (a * b)%N else None.
Definition div_ceil (a b : N) : N :=
  let q := (a / b)%N in if (0 <? a mod b)%N then (q + 1)%N else q.

(** The length of a list as a [usize]. *)
Definition len {A} (l : list A) : N := N.of_nat (length l).

(** ** Field update

    A record type registers its eta expansion; the update of a field is that expansion with
    the field's projection replaced. *)

Class Eta (R : Type) := eta : R → R.
Class Update {R T : Type} (field : R → T) := update : (T → T) → R → R.
Arguments update {R T} field {_} f r /.

Ltac solve_update :=
  lazymatch goal with
  | |- @Update ?R ?T ?field =>
      let body := eval hnf in (eta : R → R) in
      lazymatch (eval pattern field in body) with
      | ?with_field _ => exact (λ (f : T → T) (r : R), with_field (λ x, f (field x)) r)
      end
  end.
#[export] Hint Extern 0 (Update _) => solve_update : typeclass_instances.

Notation "r <| field ::= f |>" := (update field f r)
  (at level 8, left associativity, format "r <|  field  ::=  f  |>") : feed_scope.
Notation "r <| field := v |>" := (update field (λ _, v) r)
  (at level 8, left associativity, format "r <|  field  :=  v  |>") : feed_scope.
Open Scope feed_scope.

(** Iteration over a hash map: some permutation of its entries, chosen by the map's
    hasher and so unknown to the program. *)
Class HashIter := {
  hash_iter : ∀ {A}, gmap N A → list (N * A);
  hash_iter_perm : ∀ A (m : gmap N A), hash_iter m ≡ₚ map_to_list m;
}.

(** The order used when a definition is evaluated. *)
Definition in_key_order : HashIter :=
  {| hash_iter := λ A m, map_to_list m; hash_iter_perm := λ A m, reflexivity _ |}.

Lemma elem_of_hash_iter `{HashIter} {A} (m : gmap N A) k x :
  (k, x) ∈ hash_iter m ↔ m !! k = Some x.
Proof. by rewrite hash_iter_perm, elem_of_map_to_list. Qed.

Lemma NoDup_hash_iter `{HashIter} {A} (m : gmap N A) : NoDup (hash_iter m).*1.
Proof. rewrite hash_iter_perm. apply NoDup_fst_map_to_list. Qed.

(** How many entries of a map satisfy [f]. *)
Section count.
Context {A : Type}.

Definition count (f : A → bool) (m : gmap N A) : nat :=
  size (filter (λ entry : N * A, f entry.2 = true) m).

Lemma count_delete f (m : gmap N A) i x :
  m !! i = Some x → (count f (delete i m) + Nat.b2n (f x) = count f m)%nat.
Proof.
  intros Hi. unfold count. rewrite <- (insert_delete_id m i x) at 2 by done.
  destruct (f x) eqn:E.
  - rewrite map_filter_insert_True by done.
    rewrite map_size_insert_None; [simpl; lia|]. apply map_lookup_filter_None. left. apply lookup_delete_eq.
  - rewrite map_filter_insert_False by (simpl; congruence). rewrite delete_delete_eq. simpl. lia.
Qed.

Lemma count_empty f : count f ∅ = 0%nat.
Proof. done. Qed.

Lemma count_insert_new f (m : gmap N A) i x :
  m !! i = None → (count f (<[i := x]> m) = count f m + Nat.b2n (f x))%nat.
Proof.
  intros Hi. rewrite <- (count_delete f (<[i := x]> m) i x) by apply lookup_insert_eq.
  by rewrite delete_insert_id.
Qed.

Lemma count_insert f (m : gmap N A) i old x :
  m !! i = Some old → (count f (<[i := x]> m) + Nat.b2n (f old) = count f m + Nat.b2n (f x))%nat.
Proof.
  intros Hi. rewrite <- (count_delete f (<[i := x]> m) i x) by apply lookup_insert_eq.
  rewrite delete_insert_eq, <- (count_delete f m i old) by done. lia.
Qed.

Lemma count_pos f (m : gmap N A) i x :
  m !! i = Some x → f x = true → (0 < count f m)%nat.
Proof. intros Hi Hf. rewrite <- (count_delete f m i x), Hf by done. simpl. lia. Qed.

Lemma count_le f g (m : gmap N A) : (∀ x, f x = true → g x = true) → (count f m ≤ count g m)%nat.
Proof. intros Hfg. unfold count. apply map_subseteq_size. apply map_filter_subseteq_ext. intros i x _. apply Hfg. Qed.

Lemma count_unique f (m : gmap N A) i j x x' :
  (count f m ≤ 1)%nat → m !! i = Some x → f x = true → m !! j = Some x' → f x' = true → i = j.
Proof.
  intros Hc Hi Hf Hj Hf'. destruct (decide (i = j)); [done|].
  pose proof (count_delete f m i x Hi) as Hd. rewrite Hf in Hd. simpl in Hd.
  assert (0 < count f (delete i m))%nat; [|lia].
  apply (count_pos _ _ j x'); [by rewrite lookup_delete_ne|done].
Qed.
End count.

(** ** Lists *)

Lemma filter_all {A} (P : A → Prop) `{∀ x, Decision (P x)} (l : list A) :
  (∀ x, x ∈ l → P x) → filter P l = l.
Proof.
  induction l as [|x l IH]; intros Hall; [done|].
  rewrite filter_cons_True by (apply Hall; left). f_equal. apply IH. intros y Hy. apply Hall. by right.
Qed.

Lemma filter_none {A} (P : A → Prop) `{∀ x, Decision (P x)} (l : list A) :
  (∀ x, x ∈ l → ~ P x) → filter P l = [].
Proof.
  induction l as [|x l IH]; intros Hall; [done|].
  rewrite filter_cons_False by (apply Hall; left). apply IH. intros y Hy. apply Hall. by right.
Qed.

Lemma list_filter_ext_in {A} (P Q : A → Prop) `{∀ x, Decision (P x)} `{∀ x, Decision (Q x)} (l : list A) :
  (∀ x, x ∈ l → P x ↔ Q x) → filter P l = filter Q l.
Proof.
  induction l as [|x l IH]; intros Hall; [done|]. rewrite !filter_cons.
  rewrite (IH (λ y Hy, Hall y (list_elem_of_further _ _ _ Hy))).
  destruct (decide (P x)) as [HP|HP], (decide (Q x)) as [HQ|HQ]; try done; exfalso;
    [apply HQ, (Hall x); [left|done]|apply HP, (Hall x); [left|done]].
Qed.

Lemma elem_of_rev {A} (x : A) l : x ∈ rev l ↔ x ∈ l.
Proof. by rewrite !list_elem_of_In, <- in_rev. Qed.

(** The number of list entries of a map to lists. *)
Definition map_total `{Countable K} {A} (m : gmap K (list A)) : nat :=
  map_fold (λ _ l n, (length l + n)%nat) 0%nat m.

Lemma map_total_delete `{Countable K} {A} (m : gmap K (list A)) k :
  map_total m = (length (default [] (m !! k)) + map_total (delete k m))%nat.
Proof.
  unfold map_total. destruct (m !! k) as [l|] eqn:E; simpl.
  - by rewrite (map_fold_delete_L (λ _ (l : list A) n, (length l + n)%nat) 0%nat k l m)
      by (done || intros; lia).
  - by rewrite (delete_id m k E).
Qed.

Lemma map_total_insert `{Countable K} {A} (m : gmap K (list A)) k l :
  map_total (<[k := l]> m) = (length l + map_total (delete k m))%nat.
Proof. rewrite (map_total_delete _ k), lookup_insert, decide_True by done. simpl. by rewrite delete_insert_eq. Qed.

(** ** Outcomes

    A call of the source returns a value, returns an error, or (for the model
    of an unbounded loop) does not return. *)

Inductive outcome (E A : Type) :=
| Ok (a : A)
| Err (e : E)
| Diverge.
Arguments Ok {E A} a.
Arguments Err {E A} e.
Arguments Diverge {E A}.

Definition is_Ok {E A} (o : outcome E A) : bool :=
  match o with Ok _ => true | _ => false end.

#[export] Instance outcome_ret E : MRet (outcome E) := λ A a, Ok a.
#[export] Instance outcome_bind E : MBind (outcome E) := λ A B k o,
  match o with Ok a => k a | Err e => Err e | Diverge => Diverge end.

Definition ok_or {E A} (o : option A) (e : E) : outcome E A :=
  match o with Some a => Ok a | None => Err e end.

Definition ensure {E} (b : bool) (e : E) : outcome E () :=
  if b then Ok () else Err e.

(** ** State passing

    A method with [&mut self]: an error leaves the mutations made before it in
    place, as it does in Rust. *)

Definition M (S E A : Type) : Type := S → outcome E A * S.

#[export] Instance M_ret S E : MRet (M S E) := λ A a s, (Ok a, s).
#[export] Instance M_bind S E : MBind (M S E) := λ A B k m s,
  match m s with
  | (Ok a, s') => k a s'
  | (Err e, s') => (Err e, s')
  | (Diverge, s') => (Diverge, s')
  end.

Definition throw {S E A} (e : E) : M S E A := λ s, (Err e, s).
Definition diverge {S E A} : M S E A := λ s, (Diverge, s).
Definition gets {S E A} (f : S → A) : M S E A := λ s, (Ok (f s), s).
Definition modify {S E} (f : S → S) : M S E () := λ s, (Ok (), f s).
Definition lift {S E A} (o : outcome E A) : M S E A := λ s, (o, s).

(** Weakest preconditions over all three outcomes. *)
Definition wp {S E A} (m : M S E A) (Q : outcome E A → S → Prop) (s : S) : Prop :=
  Q (m s).1 (m s).2.

(** A postcondition that forbids divergence: [Qo] after a value, [Qe] after an error. *)
Definition returns {S E A} (Qo : A → S → Prop) (Qe : S → Prop) : outcome E A → S → Prop :=
  λ o s, match o with Ok a => Qo a s | Err _ => Qe s | Diverge => False end.

(** [R] relates the states before and after [m], whatever its outcome. *)
Definition Along {S E} (R : relation S) {A} (m : M S E A) : Prop := ∀ s, R s (m s).2.

Section along.
Context {S E : Type} (R : relation S) `{!PreOrder R}.

Lemma along_ret {A} (a : A) : Along R (mret a : M S E A).
Proof. intros s. reflexivity. Qed.
Lemma along_throw {A} e : Along R (throw e : M S E A).
Proof. intros s. reflexivity. Qed.
Lemma along_diverge {A} : Along R (diverge : M S E A).
Proof. intros s. reflexivity. Qed.
Lemma along_gets {A} (f : S → A) : Along R (gets f : M S E A).
Proof. intros s. reflexivity. Qed.
Lemma along_lift {A} (o : outcome E A) : Along R (lift o : M S E A).
Proof. intros s. reflexivity. Qed.
Lemma along_modify (f : S → S) : (∀ s, R s (f s)) → Along R (modify f : M S E ()).
Proof. intros Hf s. apply Hf. Qed.
Lemma along_bind {A B} (m : M S E A) (k : A → M S E B) :
  Along R m → (∀ a, Along R (k a)) → Along R (m ≫= k).
Proof.
  intros Hm Hk s. unfold mbind, M_bind. specialize (Hm s).
  destruct (m s) as [[a|e|] s1]; simpl in *; [|done..]. specialize (Hk a s1). by etrans.
Qed.
End along.

Section wp_rules.
Context {S E : Type}.
Implicit Types s : S.

Lemma wp_ret {A} (a : A) (Q : outcome E A → S → Prop) s :
  Q (Ok a) s → wp (mret a) Q s.
Proof. done. Qed.

Lemma wp_bind {A B} (m : M S E A) (k : A → M S E B) Q s :
  wp m (λ o s', match o with
                | Ok a => wp (k a) Q s'
                | Err e => Q (Err e) s'
                | Diverge => Q Diverge s'
                end) s →
  wp (m ≫= k) Q s.
Proof. unfold wp, mbind, M_bind. by destruct (m s) as [[a|e|] s']. Qed.

Lemma wp_mono {A} (m : M S E A) (Q Q' : outcome E A → S → Prop) s :
  wp m Q s → (∀ o s', Q o s' → Q' o s') → wp m Q' s.
Proof. unfold wp. eauto. Qed.

Lemma wp_throw {A} e (Q : outcome E A → S → Prop) s : Q (Err e) s → wp (throw e) Q s.
Proof. done. Qed.

Lemma wp_gets {A} (f : S → A) (Q : outcome E A → S → Prop) s :
  Q (Ok (f s)) s → wp (gets f) Q s.
Proof. done. Qed.

Lemma wp_modify (f : S → S) (Q : outcome E () → S → Prop) s :
  Q (Ok tt) (f s) → wp (modify f) Q s.
Proof. done. Qed.

Lemma wp_lift {A} (o : outcome E A) (Q : outcome E A → S → Prop) s :
  Q o s → wp (lift o) Q s.
Proof. done. Qed.

(** The rule used at every call: the callee's returns triple, then the rest. *)
Lemma wp_call {A B} (m : M S E A) (k : A → M S E B) (P : A → S → Prop) (Pe : S → Prop)
    (Qo : B → S → Prop) (Qe : S → Prop) s :
  wp m (returns P Pe) s →
  (∀ a s', P a s' → wp (k a) (returns Qo Qe) s') →
  (∀ s', Pe s' → Qe s') →
  wp (m ≫= k) (returns Qo Qe) s.
Proof.
  intros Hm Hk He. apply wp_bind. eapply wp_mono; [exact Hm|].
  intros [a|e|] s'; simpl; auto.
Qed.

Lemma wp_total_mono {A} (m : M S E A) (P Q : A → S → Prop) (Pe Qe : S → Prop) s :
  wp m (returns P Pe) s →
  (∀ a s', P a s' → Q a s') → (∀ s', Pe s' → Qe s') →
  wp m (returns Q Qe) s.
Proof. intros Hm HQ He. eapply wp_mono; [exact Hm|]. intros [a|e|]; simpl; auto. Qed.

Lemma wp_total_and {A} (m : M S E A) (P Q : A → S → Prop) (Pe Qe : S → Prop) s :
  wp m (returns P Pe) s → wp m (returns Q Qe) s →
  wp m (returns (λ a s', P a s' ∧ Q a s') (λ s', Pe s' ∧ Qe s')) s.
Proof. unfold wp. destruct (m s) as [[a|e|] s']; simpl; auto. Qed.

Lemma wp_total_inv {A} (m : M S E A) (Q : A → S → Prop) (Qe : S → Prop) s :
  wp m (returns Q Qe) s →
  (∃ a s', m s = (Ok a, s') ∧ Q a s') ∨ (∃ e s', m s = (Err e, s') ∧ Qe s').
Proof. unfold wp. destruct (m s) as [[a|e|] s']; simpl; naive_solver. Qed.
End wp_rules.

(** Symbolic execution of the primitive steps of a method body. *)
Ltac wp_step :=
  lazymatch goal with
  | |- wp (mbind _ (gets _)) _ _ => apply wp_bind, wp_gets
  | |- wp (mbind _ (modify _)) _ _ => apply wp_bind, wp_modify
  | |- wp (mbind _ (lift _)) _ _ => apply wp_bind, wp_lift
  | |- wp (mbind _ (mret _)) _ _ => apply wp_bind, wp_ret
  | |- wp (mbind _ (throw _)) _ _ => apply wp_bind, wp_throw
  | |- wp (mbind _ (mbind _ _)) _ _ => apply wp_bind
  | |- wp (gets _) _ _ => apply wp_gets
  | |- wp (modify _) _ _ => apply wp_modify
  | |- wp (lift _) _ _ => apply wp_lift
  | |- wp (mret _) _ _ => apply wp_ret
  | |- wp (throw _) _ _ => apply wp_throw
  end; cbv beta iota.
Ltac wp_steps := repeat (wp_step; cbn [returns]).
