(* ===== verification/Bytes.v ===== *)
(** * Byte buffers

    Big-endian words, slices with Rust's bounds rules, packed 32-byte words and
    little-endian bitmaps.  [U256], [B256] and [Address] values are [N]; their
    byte forms are the big-endian strings of 32, 32 and 20 bytes. *)

From S2P Require Import Prelude.

Abbreviation B256 := N (only parsing).
Abbreviation U256 := N (only parsing).
Abbreviation Address := N (only parsing).
Abbreviation bytes := (list N) (only parsing).

(** ** Big-endian words *)

Fixpoint le_bytes (n : nat) (v : N) : bytes :=
  match n with
  | O => []
  | S n => (v mod 256)%N :: le_bytes n (v / 256)%N
  end.

Definition be_bytes (n : nat) (v : N) : bytes := rev (le_bytes n v).

Definition from_be_slice (bs : bytes) : N :=
  fold_left (λ acc b, acc * 256 + b)%N bs 0%N.

Definition is_byte (b : N) : Prop := (b < 256)%N.

Definition to_vec (h : B256) : bytes := be_bytes 32 h.
Definition address_to_vec (a : Address) : bytes := be_bytes 20 a.

(** ** Slices *)

(** [bytes.get(start..end)]: out of range gives [None], never a truncated slice. *)
Definition get_range (bs : bytes) (a b : N) : option bytes :=
  if (a <=? b)%N && (b <=? len bs)%N
  then Some (take (N.to_nat (b - a)) (drop (N.to_nat a) bs))
  else None.

(** Writing [new] over the slice that starts at [a] ([copy_from_slice]). *)
Definition put_range (bs : bytes) (a : N) (new : bytes) : bytes :=
  take (N.to_nat a) bs ++ new ++ drop (N.to_nat a + length new) bs.

(** [chunks_exact(n)]: a shorter tail is dropped.  The fuel is the length of the buffer. *)
Fixpoint chunks_exact_aux (fuel n : nat) (bs : bytes) : list bytes :=
  match fuel with
  | O => []
  | S fuel =>
      if (length bs <? n)%nat then []
      else take n bs :: chunks_exact_aux fuel n (drop n bs)
  end.
Definition chunks_exact (n : nat) (bs : bytes) : list bytes :=
  chunks_exact_aux (length bs) n bs.

(** The [i]-th packed word. *)
Definition word (bs : bytes) (i : nat) : bytes := take 32 (drop (32 * i) bs).

(** ** Bitmaps *)

(** [bitmap[index / 8] |= 1 << (index % 8)]; an index past the buffer is a panic. *)
Definition set_bit (bm : bytes) (i : N) : option bytes :=
  match bm !! N.to_nat (i / 8) with
  | Some b => Some (<[N.to_nat (i / 8) := N.lor b (N.shiftl 1 (i mod 8))]> bm)
  | None => None
  end.

Definition test_bit (bm : bytes) (i : N) : bool :=
  match bm !! N.to_nat (i / 8) with
  | Some b => N.testbit b (i mod 8)
  | None => false
  end.

(** ** Lemmas: big-endian words *)

Lemma length_le_bytes n v : length (le_bytes n v) = n.
Proof. revert v; induction n as [|n IH]; intros v; cbn [le_bytes length]; [done|]. by rewrite IH. Qed.

Lemma length_be_bytes n v : length (be_bytes n v) = n.
Proof. unfold be_bytes. by rewrite length_rev, length_le_bytes. Qed.

Lemma le_bytes_byte n v : Forall is_byte (le_bytes n v).
Proof.
  revert v; induction n; intros v; cbn [le_bytes]; constructor; auto.
  apply N.mod_lt. done.
Qed.

Lemma be_bytes_byte n v : Forall is_byte (be_bytes n v).
Proof. unfold be_bytes. apply Forall_rev, le_bytes_byte. Qed.

Lemma from_be_slice_snoc bs b : from_be_slice (bs ++ [b]) = (from_be_slice bs * 256 + b)%N.
Proof. unfold from_be_slice. by rewrite fold_left_app. Qed.

Lemma from_be_rev_le n v : from_be_slice (rev (le_bytes n v)) = (v mod 256 ^ N.of_nat n)%N.
Proof.
  revert v; induction n as [|n IH]; intros v; cbn [le_bytes].
  - by rewrite N.mod_1_r.
  - cbn [rev]. rewrite from_be_slice_snoc, IH.
    replace (N.of_nat (S n)) with (N.succ (N.of_nat n)) by lia.
    rewrite N.pow_succ_r'.
    rewrite (N.Div0.mod_mul_r v 256). lia.
Qed.

(** Big-endian encoding of an in-range value is invertible. *)
Lemma from_be_be_bytes n v :
  (v < 256 ^ N.of_nat n)%N → from_be_slice (be_bytes n v) = v.
Proof. intros. unfold be_bytes. rewrite from_be_rev_le. by apply N.mod_small. Qed.

Lemma be_bytes_inj n v w :
  (v < 256 ^ N.of_nat n)%N → (w < 256 ^ N.of_nat n)%N →
  be_bytes n v = be_bytes n w → v = w.
Proof. intros Hv Hw E. rewrite <- (from_be_be_bytes n v), E by done. by apply from_be_be_bytes. Qed.

Lemma length_to_vec h : length (to_vec h) = 32%nat.
Proof. apply length_be_bytes. Qed.

Lemma length_address_to_vec a : length (address_to_vec a) = 20%nat.
Proof. apply length_be_bytes. Qed.

(** ** Lemmas: packed words *)

Lemma get_range_Some bs a b w :
  get_range bs a b = Some w ↔
  (a ≤ b)%N ∧ (b ≤ len bs)%N ∧ w = take (N.to_nat (b - a)) (drop (N.to_nat a) bs).
Proof.
  unfold get_range. destruct ((a <=? b)%N && (b <=? len bs)%N) eqn:E.
  - apply andb_true_iff in E as [?%N.leb_le ?%N.leb_le].
    split; [intros [= <-]; auto|by intros (_ & _ & ->)].
  - apply andb_false_iff in E as [?%N.leb_gt|?%N.leb_gt]; (split; [done|lia]).
Qed.

Lemma get_range_None bs a b :
  get_range bs a b = None ↔ (b < a)%N ∨ (len bs < b)%N.
Proof.
  unfold get_range. destruct ((a <=? b)%N && (b <=? len bs)%N) eqn:E.
  - apply andb_true_iff in E as [?%N.leb_le ?%N.leb_le]. split; [done|lia].
  - apply andb_false_iff in E as [?%N.leb_gt|?%N.leb_gt]; split; auto.
Qed.

(** Slot [i] of a packed buffer, read through [get_range]. *)
Lemma get_range_word bs (i : nat) :
  (32 * S i ≤ length bs)%nat →
  get_range bs (N.of_nat i * 32) (N.of_nat i * 32 + 32) = Some (word bs i).
Proof.
  intros. apply get_range_Some. unfold len, word. split_and!; [lia..|].
  f_equal; [lia|]. f_equal. lia.
Qed.

Lemma length_word bs i : (32 * S i ≤ length bs)%nat → length (word bs i) = 32%nat.
Proof. intros. unfold word. rewrite length_take, length_drop. lia. Qed.

Lemma length_put_range bs a new :
  (N.to_nat a + length new ≤ length bs)%nat → length (put_range bs a new) = length bs.
Proof. intros. unfold put_range. rewrite !length_app, length_take, length_drop. lia. Qed.

Lemma word_put_eq bs i new :
  length new = 32%nat → (32 * S i ≤ length bs)%nat →
  word (put_range bs (N.of_nat i * 32) new) i = new.
Proof.
  intros Hn Hi. unfold word, put_range.
  replace (N.to_nat (N.of_nat i * 32)) with (32 * i)%nat by lia.
  rewrite drop_app_length' by (rewrite length_take; lia).
  rewrite take_app_length' by lia. done.
Qed.

Lemma word_put_ne bs i j new :
  i ≠ j → length new = 32%nat → (32 * S i ≤ length bs)%nat →
  word (put_range bs (N.of_nat i * 32) new) j = word bs j.
Proof.
  intros Hij Hn Hi. unfold word, put_range.
  replace (N.to_nat (N.of_nat i * 32)) with (32 * i)%nat by lia.
  apply list_eq. intros k.
  destruct (decide (k < 32)%nat); [|by rewrite !lookup_take_ge by lia].
  rewrite !lookup_take_lt, !lookup_drop by lia.
  destruct (decide (j < i)%nat).
  - rewrite lookup_app_l by (rewrite length_take; lia). by rewrite lookup_take_lt by lia.
  - rewrite lookup_app_r by (rewrite length_take; lia).
    rewrite lookup_app_r by (rewrite length_take; lia).
    rewrite lookup_drop, length_take. f_equal. lia.
Qed.

(** Two buffers of [n] words are equal when their words are. *)
Lemma words_ext n bs bs' :
  length bs = (32 * n)%nat → length bs' = (32 * n)%nat →
  (∀ i, (i < n)%nat → word bs i = word bs' i) → bs = bs'.
Proof.
  intros Hl Hl' Hw. apply list_eq. intros k.
  destruct (decide (k < 32 * n)%nat).
  - pose proof (Nat.div_mod_eq k 32) as Hk.
    pose proof (Nat.mod_upper_bound k 32).
    specialize (Hw (k / 32)%nat ltac:(lia)).
    apply (f_equal (λ l : list N, l !! (k mod 32)%nat)) in Hw. unfold word in Hw.
    rewrite !lookup_take_lt, !lookup_drop in Hw by lia.
    by rewrite <- Hk in Hw.
  - by rewrite !lookup_ge_None_2 by lia.
Qed.

Lemma word_concat (ws : list bytes) i w :
  Forall (λ w, length w = 32%nat) ws → ws !! i = Some w → word (concat ws) i = w.
Proof.
  unfold word. revert i; induction ws as [|x ws IH]; intros i Hf Hi; [done|].
  apply Forall_cons_1 in Hf as [Hx Hf]. destruct i as [|i]; simpl in Hi.
  - simplify_eq. change (32 * 0)%nat with 0%nat. rewrite drop_0. cbn [concat].
    by rewrite take_app_length'.
  - simpl concat. rewrite drop_app_ge by lia.
    replace (32 * S i - length x)%nat with (32 * i)%nat by lia. by apply IH.
Qed.

Lemma length_concat_words (ws : list bytes) :
  Forall (λ w, length w = 32%nat) ws → length (concat ws) = (32 * length ws)%nat.
Proof.
  induction 1 as [|w ws Hw _ IH]; [done|]. simpl. rewrite length_app, IH, Hw. lia.
Qed.

Lemma chunks_exact_aux_lookup fuel bs i :
  (length bs ≤ fuel)%nat →
  chunks_exact_aux fuel 32 bs !! i =
    if decide (32 * S i ≤ length bs)%nat then Some (word bs i) else None.
Proof.
  unfold word. revert bs i; induction fuel as [|fuel IH]; intros bs i Hf.
  - simpl. case_decide; [lia|done].
  - cbn [chunks_exact_aux]. destruct (Nat.ltb_spec (length bs) 32).
    + rewrite lookup_nil. case_decide; [lia|done].
    + destruct i as [|i]; cbn [lookup list_lookup].
      * change (32 * 0)%nat with 0%nat. rewrite drop_0. case_decide; [done|lia].
      * rewrite IH by (rewrite length_drop; lia). rewrite length_drop, drop_drop.
        replace (32 + 32 * i)%nat with (32 * S i)%nat by lia.
        repeat case_decide; done || lia.
Qed.

Lemma chunks_exact_lookup bs i :
  chunks_exact 32 bs !! i =
    if decide (32 * S i ≤ length bs)%nat then Some (word bs i) else None.
Proof. by apply chunks_exact_aux_lookup. Qed.

(** ** Lemmas: bitmaps *)

Lemma set_bit_is_Some bm i : (i / 8 < len bm)%N → is_Some (set_bit bm i).
Proof.
  intros H. unfold set_bit. destruct (bm !! N.to_nat (i / 8)) eqn:E; [eauto|].
  apply lookup_ge_None in E. unfold len in H. lia.
Qed.

Lemma length_set_bit bm i bm' : set_bit bm i = Some bm' → length bm' = length bm.
Proof. unfold set_bit. intros. case_match; simplify_eq. apply length_insert. Qed.

Lemma test_set_bit bm i j bm' :
  set_bit bm i = Some bm' → test_bit bm' j = bool_decide (i = j) || test_bit bm j.
Proof.
  unfold set_bit, test_bit. intros H. case_match eqn:E; [|done]. simplify_eq.
  pose proof (N.div_mod i 8 ltac:(done)). pose proof (N.div_mod j 8 ltac:(done)).
  destruct (decide (i / 8 = j / 8)%N) as [Hd|Hd].
  - rewrite <- Hd, list_lookup_insert_eq by (by eapply lookup_lt_Some).
    rewrite E, N.lor_spec, N.shiftl_1_l.
    destruct (decide (i mod 8 = j mod 8)%N) as [Hm|Hm].
    + rewrite <- Hm, N.pow2_bits_true, orb_true_r.
      by rewrite bool_decide_eq_true_2 by lia.
    + rewrite N.pow2_bits_false by done. rewrite orb_false_r.
      by rewrite bool_decide_eq_false_2 by (intros ->; done).
  - rewrite list_lookup_insert_ne by lia.
    by rewrite bool_decide_eq_false_2 by (intros ->; done).
Qed.

Lemma test_bit_replicate_0 n i : test_bit (replicate n 0%N) i = false.
Proof.
  unfold test_bit. case_match eqn:E; [|done].
  apply lookup_replicate in E as [-> _]. apply N.bits_0.
Qed.

(** The index of a key fits its bitmap. *)
Lemma bitmap_index_lt i k : (i < k)%N → (i / 8 < div_ceil k 8)%N.
Proof.
  intros. unfold div_ceil. cbv zeta.
  pose proof (N.div_mod i 8 ltac:(done)). pose proof (N.div_mod k 8 ltac:(done)).
  pose proof (N.mod_lt i 8 ltac:(done)). pose proof (N.mod_lt k 8 ltac:(done)).
  destruct (N.ltb_spec 0 (k mod 8));
    generalize dependent (i / 8)%N; generalize dependent (k / 8)%N;
    generalize dependent (i mod 8)%N; generalize dependent (k mod 8)%N; intros; lia.
Qed.

Arguments le_bytes : simpl never.
Arguments be_bytes : simpl never.
Arguments word : simpl never.
Arguments get_range : simpl never.
Arguments put_range : simpl never.
