(* ===== verification/Config.v ===== *)
(** * Configuration loading and validation (src/src/config.rs)

    The stream settings, the watched coordinates, and the semantic checks that
    run before the node is launched and on every reload.  Reading the file and
    decoding TOML are arguments of [load]. *)

From S2P Require Import Prelude Bytes.
From stdpp Require Import list.
Local Open Scope N_scope.

(** A Rust [String] as its Unicode scalar values. *)
Abbreviation rust_string := (list N) (only parsing).

(** [char::len_utf8]. *)
Definition len_utf8 (c : N) : N :=
  if c <? 128 then 1 else if c <? 2048 then 2 else if c <? 65536 then 3 else 4.

(** [String::len]: the length in bytes. *)
Definition string_len (s : rust_string) : N := foldr (λ c n, len_utf8 c + n) 0 s.

(** [char::is_whitespace]: the Unicode White_Space property. *)
Definition is_whitespace (c : N) : bool :=
  ((9 <=? c) && (c <=? 13)) || (c =? 32) || (c =? 133) || (c =? 160) || (c =? 5760)
  || ((8192 <=? c) && (c <=? 8202)) || (c =? 8232) || (c =? 8233) || (c =? 8239)
  || (c =? 8287) || (c =? 12288).

(** [str::trim]: white space removed at both ends. *)
Fixpoint trim_start (s : rust_string) : rust_string :=
  match s with
  | [] => []
  | c :: s' => if is_whitespace c then trim_start s' else s
  end.
Definition trim (s : rust_string) : rust_string := rev (trim_start (rev (trim_start s))).

Record StreamConfig := {
  publish_executed : bool;
  socket : string;
  socket_mode : N;
  queue_capacity : N;
  candidate_cache_blocks : N;
  candidate_metadata_entries : N;
  candidate_retention : N;
  retirement_work_budget : N;
  consumer_buffer : N;
  max_consumers : N;
  max_frame_bytes : N;
  publisher_cpu : option N;
  publisher_spin_us : N;
}.

#[export] Instance StreamConfig_eq_dec : EqDecision StreamConfig.
Proof. solve_decision. Defined.

(** Durations are counted in nanoseconds. *)
Definition from_secs (s : N) : N := s * 1000000000.
Definition from_millis (ms : N) : N := ms * 1000000.

Definition StreamConfig_default : StreamConfig := {|
  publish_executed := false;
  socket := "/run/reth-statefeed/statefeed.sock";
  socket_mode := 432;
  queue_capacity := 8192;
  candidate_cache_blocks := 128;
  candidate_metadata_entries := 1024;
  candidate_retention := from_secs 120;
  retirement_work_budget := 256;
  consumer_buffer := 256;
  max_consumers := 64;
  max_frame_bytes := 4 * 1024 * 1024;
  publisher_cpu := None;
  publisher_spin_us := 0;
|}.

Record WatchConfig := {
  wc_id : rust_string;
  wc_address : Address;
  wc_slot : B256;
}.

#[export] Instance WatchConfig_eq_dec : EqDecision WatchConfig.
Proof. solve_decision. Defined.

Record Config := {
  stream : StreamConfig;
  watch : list WatchConfig;
}.

(** One constructor per message of [ConfigError::Invalid]. *)
Inductive InvalidConfig :=
| WatchEmpty
| WatchTooLong
| IdEmpty
| DuplicateId (id : rust_string)
| DuplicateCoordinate (address : Address) (slot : B256)
| FrameRequirement (required_frame_bytes : N)
| QueueCapacity
| ConsumerBuffer
| MaxConsumers
| CacheBlocks
| MetadataEntries
| Retention
| WorkBudget
| MaxFrameBytes
| SpinUs
| SocketNotAbsolute
| SocketMode.

Inductive ConfigError (IoError TomlError : Type) :=
| Read (source : IoError)
| Parse (source : TomlError)
| Invalid (issue : InvalidConfig).
Arguments Read {IoError TomlError} source.
Arguments Parse {IoError TomlError} source.
Arguments Invalid {IoError TomlError} issue.

(** [Path::is_absolute] on Unix. *)
Definition is_absolute (path : string) : bool := String.prefix "/" path.

(** [StreamConfig::validate]. *)
Definition validate_stream (s : StreamConfig) : outcome InvalidConfig () :=
  if queue_capacity s <? 2 then Err QueueCapacity else
  if consumer_buffer s =? 0 then Err ConsumerBuffer else
  if max_consumers s =? 0 then Err MaxConsumers else
  if candidate_cache_blocks s <? 2 then Err CacheBlocks else
  if candidate_metadata_entries s <? candidate_cache_blocks s then Err MetadataEntries else
  if candidate_retention s =? 0 then Err Retention else
  if retirement_work_budget s =? 0 then Err WorkBudget else
  if max_frame_bytes s <? 1024 then Err MaxFrameBytes else
  if 1000000 <? publisher_spin_us s then Err SpinUs else
  if negb (is_absolute (socket s)) then Err SocketNotAbsolute else
  if 511 <? socket_mode s then Err SocketMode else
  Ok ().

(** The loop of [Config::validate] over the watched keys, with its two hash sets. *)
Fixpoint validate_keys (ids : gset (list N)) (coordinates : gset (N * N))
    (ks : list WatchConfig) : outcome InvalidConfig () :=
  match ks with
  | [] => Ok ()
  | key :: ks =>
      if decide (trim (wc_id key) = []) then Err IdEmpty else
      if decide (wc_id key ∈ ids) then Err (DuplicateId (wc_id key)) else
      if decide ((wc_address key, wc_slot key) ∈ coordinates)
      then Err (DuplicateCoordinate (wc_address key) (wc_slot key)) else
      validate_keys ({[wc_id key]} ∪ ids) ({[(wc_address key, wc_slot key)]} ∪ coordinates) ks
  end.

Definition projection_bytes (keys : N) : N :=
  saturating_add (saturating_add (saturating_mul keys 32) (div_ceil keys 8)) 512.
Definition dictionary_bytes (ks : list WatchConfig) : N :=
  fold_left (λ size key, saturating_add (saturating_add size 80) (string_len (wc_id key))) ks 512.

(** [Config::validate]. *)
Definition validate (c : Config) : outcome InvalidConfig () :=
  if decide (watch c = []) then Err WatchEmpty else
  if u32_max <? len (watch c) then Err WatchTooLong else
  validate_stream (stream c) ;;
  validate_keys ∅ ∅ (watch c) ;;
  let required_frame_bytes :=
    N.max (projection_bytes (len (watch c))) (dictionary_bytes (watch c)) in
  if max_frame_bytes (stream c) <? required_frame_bytes
  then Err (FrameRequirement required_frame_bytes) else
  Ok ().

Section load.
Context {IoError TomlError : Type}.
Variable read_to_string : string → outcome IoError string.
Variable toml_from_str : string → outcome TomlError Config.

(** [Config::load]. *)
Definition load (path : string) : outcome (ConfigError IoError TomlError) Config :=
  match read_to_string path with
  | Err source => Err (Read source)
  | Diverge => Diverge
  | Ok contents =>
      match toml_from_str contents with
      | Err source => Err (Parse source)
      | Diverge => Diverge
      | Ok config =>
          match validate config with
          | Err issue => Err (Invalid issue)
          | Diverge => Diverge
          | Ok _ => Ok config
          end
      end
  end.

Lemma load_valid path config : load path = Ok config → validate config = Ok ().
Proof. unfold load. intros Hl. repeat case_match; simplify_eq. by match goal with H : _ = Ok ?u |- _ => destruct u end. Qed.
End load.

(** ** What a valid configuration guarantees *)

Record stream_ok (s : StreamConfig) : Prop := {
  so_queue : 2 ≤ queue_capacity s;
  so_buffer : 0 < consumer_buffer s;
  so_consumers : 0 < max_consumers s;
  so_cache : 2 ≤ candidate_cache_blocks s;
  so_metadata : candidate_cache_blocks s ≤ candidate_metadata_entries s;
  so_retention : 0 < candidate_retention s;
  so_budget : 0 < retirement_work_budget s;
  so_frame : 1024 ≤ max_frame_bytes s;
  so_spin : publisher_spin_us s ≤ 1000000;
  so_socket : is_absolute (socket s) = true;
  so_mode : socket_mode s ≤ 511;
}.

Definition coordinate (k : WatchConfig) : N * N := (wc_address k, wc_slot k).

Record config_ok (c : Config) : Prop := {
  co_nonempty : watch c ≠ [];
  co_u32 : len (watch c) ≤ u32_max;
  co_stream : stream_ok (stream c);
  co_named : Forall (λ k, trim (wc_id k) ≠ []) (watch c);
  co_ids : NoDup (wc_id <$> watch c);
  co_coordinates : NoDup (coordinate <$> watch c);
  co_projection : projection_bytes (len (watch c)) ≤ max_frame_bytes (stream c);
  co_dictionary : dictionary_bytes (watch c) ≤ max_frame_bytes (stream c);
}.

(** Splits the [if]s of a validation function into ordered comparisons. *)
Ltac split_checks :=
  repeat match goal with
  | |- context [if ?a <? ?b then _ else _] => destruct (N.ltb_spec a b)
  | |- context [if ?a =? ?b then _ else _] => destruct (N.eqb_spec a b)
  end.

Lemma validate_stream_ok s : validate_stream s = Ok () ↔ stream_ok s.
Proof.
  unfold validate_stream. split.
  - destruct (is_absolute (socket s)) eqn:E; cbn [negb]; split_checks; try done.
    intros _. split; try lia. exact E.
  - intros []. rewrite so_socket0. cbn [negb]. split_checks; done || lia.
Qed.

Lemma Forall_not_elem_union {A B} `{Countable B} (f : A → B) (x : B) (X : gset B) l :
  Forall (λ k, f k ∉ {[x]} ∪ X) l ↔ ¬ (x ∈ f <$> l) ∧ Forall (λ k, f k ∉ X) l.
Proof.
  rewrite list_elem_of_fmap, !Forall_forall. split.
  - intros Hl. split; [intros (k & -> & Hk)|intros k Hk]; specialize (Hl k Hk); set_solver.
  - intros [Hx Hl] k Hk. specialize (Hl k Hk).
    assert (f k ≠ x) by naive_solver. set_solver.
Qed.

Lemma validate_keys_ok ids coords ks :
  validate_keys ids coords ks = Ok () ↔
  Forall (λ k, trim (wc_id k) ≠ []) ks ∧
  NoDup (wc_id <$> ks) ∧ Forall (λ k, wc_id k ∉ ids) ks ∧
  NoDup (coordinate <$> ks) ∧ Forall (λ k, coordinate k ∉ coords) ks.
Proof.
  revert ids coords; induction ks as [|k ks IH]; intros ids coords; cbn [validate_keys fmap list_fmap].
  { split; [intros _; split_and!; constructor|done]. }
  rewrite !Forall_cons, !NoDup_cons.
  fold (coordinate k).
  repeat case_decide; [naive_solver..|].
  rewrite IH, !Forall_not_elem_union. naive_solver.
Qed.

Lemma validate_ok c : validate c = Ok () ↔ config_ok c.
Proof.
  unfold validate. split.
  - case_decide; [done|]. destruct (N.ltb_spec u32_max (len (watch c))); [done|].
    destruct (validate_stream (stream c)) as [[]|?|] eqn:Es; simpl; [|done..].
    destruct (validate_keys ∅ ∅ (watch c)) as [[]|?|] eqn:Ek; simpl; [|done..].
    destruct (N.ltb_spec (max_frame_bytes (stream c))
      (N.max (projection_bytes (len (watch c))) (dictionary_bytes (watch c)))); [done|].
    intros _. apply validate_stream_ok in Es. apply validate_keys_ok in Ek. destruct_and!.
    split; done || lia.
  - intros []. rewrite decide_False by done.
    destruct (N.ltb_spec u32_max (len (watch c))); [lia|].
    rewrite (proj2 (validate_stream_ok _)) by done. simpl.
    rewrite (proj2 (validate_keys_ok _ _ _)) by (split_and!; try done; apply Forall_true; set_solver).
    simpl. destruct (N.ltb_spec (max_frame_bytes (stream c))
      (N.max (projection_bytes (len (watch c))) (dictionary_bytes (watch c)))); [lia|done].
Qed.

(** C38: [Config::validate] accepts exactly the configurations in which every stream limit is in
    range, the dictionary is non-empty and fits [u32], every key is named, names and coordinates
    are unique, and the largest projection and dictionary fit one frame. *)
Theorem validate_exact c : validate c = Ok () ↔ config_ok c.
Proof. apply validate_ok. Qed.

(** ** A small configuration, used where a statement is evaluated *)

Definition sample_watch : list WatchConfig :=
  [{| wc_id := [112; 48]; wc_address := 7; wc_slot := 1 |};
   {| wc_id := [112; 49]; wc_address := 5; wc_slot := 9 |};
   {| wc_id := [112; 50]; wc_address := 7; wc_slot := 0 |}].

Definition sample_config : Config := {| stream := StreamConfig_default; watch := sample_watch |}.

Lemma sample_config_valid : validate sample_config = Ok ().
Proof. vm_compute. reflexivity. Qed.
