(* ===== verification/Watch.v ===== *)
(** * The compiled watch set (src/src/watch.rs)

    The immutable dictionary advertised to consumers and the address-grouped
    lookup table used by block validation, with the well-formedness that
    [compile] establishes and every client relies on. *)

From S2P Require Import Prelude Bytes Config.
From stdpp Require Import list.
Local Open Scope N_scope.

Definition SLOT_HASH_INDEX_THRESHOLD : N := 8.

Record WatchKey := {
  wk_key_id : N;
  wk_id : rust_string;
  wk_address : Address;
  wk_slot : B256;
}.

Record SlotWatch := {
  sw_slot : U256;
  sw_key_id : N;
}.

Record AddressWatch := {
  aw_address : Address;
  aw_slots : list SlotWatch;
  aw_slot_to_key : gmap N N;
}.

Record WatchSet := {
  ws_generation : N;
  ws_keys : list WatchKey;
  ws_addresses : list AddressWatch;
  ws_address_to_index : gmap N N;
}.

#[export] Instance WatchKey_eq_dec : EqDecision WatchKey.
Proof. solve_decision. Defined.
#[export] Instance SlotWatch_eq_dec : EqDecision SlotWatch.
Proof. solve_decision. Defined.
#[export] Instance AddressWatch_eq_dec : EqDecision AddressWatch.
Proof. solve_decision. Defined.
#[export] Instance WatchSet_eq_dec : EqDecision WatchSet.
Proof. solve_decision. Defined.

(** [BTreeMap::entry(address).or_default().push(slot)] on the map's entries in key order. *)
Fixpoint entry_push (a : Address) (sw : SlotWatch) (m : list (N * list SlotWatch))
    : list (N * list SlotWatch) :=
  match m with
  | [] => [(a, [sw])]
  | (b, l) :: m' =>
      if a <? b then (a, [sw]) :: m
      else if a =? b then (b, l ++ [sw]) :: m'
      else (b, l) :: entry_push a sw m'
  end.

Definition slot_le (x y : SlotWatch) : Prop := sw_slot x ≤ sw_slot y.
#[export] Instance slot_le_dec : RelDecision slot_le := λ x y, N.le_dec (sw_slot x) (sw_slot y).

(** [sort_unstable_by_key(|slot| slot.slot)]; configured slots of one account are distinct,
    so every sort returns the same list. *)
Definition sort_by_slot (l : list SlotWatch) : list SlotWatch := merge_sort slot_le l.

(** [iter().collect()] into a hash map: a later entry replaces an earlier one. *)
Definition collect_map (l : list (N * N)) : gmap N N :=
  fold_left (λ m kv, <[kv.1 := kv.2]> m) l ∅.

Definition watch_key (index : nat) (key : WatchConfig) : WatchKey := {|
  wk_key_id := N.of_nat index mod (u32_max + 1);
  wk_id := wc_id key;
  wk_address := wc_address key;
  wk_slot := wc_slot key;
|}.

Definition slot_watch (key : WatchKey) : SlotWatch :=
  {| sw_slot := wk_slot key; sw_key_id := wk_key_id key |}.

Definition group_keys (keys : list WatchKey) : list (N * list SlotWatch) :=
  fold_left (λ m key, entry_push (wk_address key) (slot_watch key) m) keys [].

Definition address_watch (entry : N * list SlotWatch) : AddressWatch :=
  let slots := sort_by_slot entry.2 in
  {| aw_address := entry.1;
     aw_slots := slots;
     aw_slot_to_key :=
       if SLOT_HASH_INDEX_THRESHOLD <? len slots
       then collect_map ((λ s, (sw_slot s, sw_key_id s)) <$> slots)
       else ∅ |}.

(** [WatchSet::compile]. *)
Definition compile (generation : N) (configured : list WatchConfig) : WatchSet :=
  let keys := imap watch_key configured in
  let addresses := address_watch <$> group_keys keys in
  {| ws_generation := generation;
     ws_keys := keys;
     ws_addresses := addresses;
     ws_address_to_index :=
       collect_map (imap (λ index w, (aw_address w, N.of_nat index)) addresses) |}.

(** [WatchSet::address]. *)
Definition ws_address (ws : WatchSet) (address : Address) : option AddressWatch :=
  match ws_address_to_index ws !! address with
  | Some index => ws_addresses ws !! N.to_nat index
  | None => None
  end.

(** [WatchSet::len] and [WatchSet::is_empty]. *)
Definition ws_len (ws : WatchSet) : N := len (ws_keys ws).
Definition ws_is_empty (ws : WatchSet) : bool := ws_len ws =? 0.

Fixpoint forallb2 {A B} (f : A → B → bool) (l : list A) (k : list B) : bool :=
  match l, k with
  | x :: l, y :: k => f x y && forallb2 f l k
  | _, _ => true
  end.

(** [WatchSet::matches_config]. *)
Definition matches_config (ws : WatchSet) (configured : list WatchConfig) : bool :=
  (len (ws_keys ws) =? len configured)
  && forallb2 (λ active key,
       bool_decide (wk_id active = wc_id key)
       && (wk_address active =? wc_address key)
       && (wk_slot active =? wc_slot key)) (ws_keys ws) configured.

Record SlotChange := {
  sc_key_id : N;
  sc_new_value : U256;
}.
Abbreviation BlockChanges := (list SlotChange) (only parsing).

#[export] Instance SlotChange_eq_dec : EqDecision SlotChange.
Proof. solve_decision. Defined.

(** ** Binary search

    [slice::binary_search_by_key] of the standard library: the window [base, base+size)
    is halved while it holds more than one element.  The fuel is the slice length. *)
Fixpoint bs_loop (fuel : nat) (l : list SlotWatch) (key : N) (base size : nat) : nat :=
  match fuel with
  | O => base
  | S fuel =>
      if (1 <? size)%nat then
        let half := (size / 2)%nat in
        let mid := (base + half)%nat in
        match l !! mid with
        | Some w => bs_loop fuel l key (if key <? sw_slot w then base else mid) (size - half)
        | None => base
        end
      else base
  end.

Definition binary_search_by_slot (l : list SlotWatch) (key : N) : option nat :=
  match l with
  | [] => None
  | _ =>
      let base := bs_loop (length l) l key 0 (length l) in
      match l !! base with
      | Some w => if sw_slot w =? key then Some base else None
      | None => None
      end
  end.

(** ** Well-formed watch sets *)

Definition key_coordinate (k : WatchKey) : N * N := (wk_address k, wk_slot k).

Record address_watch_wf (keys : list WatchKey) (aw : AddressWatch) : Prop := {
  aww_sorted : StronglySorted slot_le (aw_slots aw);
  aww_slots : ∀ sw, sw ∈ aw_slots aw ↔
    ∃ k, k ∈ keys ∧ wk_address k = aw_address aw ∧ sw = slot_watch k;
  aww_nonempty : aw_slots aw ≠ [];
  aww_nodup : NoDup (sw_slot <$> aw_slots aw);
  aww_ids : NoDup (sw_key_id <$> aw_slots aw);
  aww_index : aw_slot_to_key aw =
    if SLOT_HASH_INDEX_THRESHOLD <? len (aw_slots aw)
    then collect_map ((λ s, (sw_slot s, sw_key_id s)) <$> aw_slots aw) else ∅;
}.

Record watch_set_wf (ws : WatchSet) : Prop := {
  wsw_u32 : len (ws_keys ws) ≤ u32_max;
  wsw_dense : ∀ i k, ws_keys ws !! i = Some k → wk_key_id k = N.of_nat i;
  wsw_coordinates : NoDup (key_coordinate <$> ws_keys ws);
  wsw_addresses : Forall (address_watch_wf (ws_keys ws)) (ws_addresses ws);
  wsw_distinct : NoDup (aw_address <$> ws_addresses ws);
  wsw_complete : ∀ k, k ∈ ws_keys ws → wk_address k ∈ aw_address <$> ws_addresses ws;
  wsw_lookup : ∀ a aw, ws_address ws a = Some aw ↔ aw ∈ ws_addresses ws ∧ aw_address aw = a;
}.

(** ** Grouping by address *)

Definition group_of (keys : list WatchKey) (a : N) : list SlotWatch :=
  slot_watch <$> filter (λ k, wk_address k = a) keys.

Lemma group_of_snoc keys k a :
  group_of (keys ++ [k]) a =
    group_of keys a ++ (if decide (wk_address k = a) then [slot_watch k] else []).
Proof.
  unfold group_of. rewrite filter_app, fmap_app. f_equal.
  rewrite filter_cons. by case_decide.
Qed.

Lemma entry_push_keys a sw m b :
  b ∈ (entry_push a sw m).*1 ↔ b = a ∨ b ∈ m.*1.
Proof.
  induction m as [|[c l] m IH]; simpl; [set_solver|].
  destruct (N.ltb_spec a c); [set_solver|].
  destruct (N.eqb_spec a c); simpl; set_solver.
Qed.

Lemma entry_push_sorted a sw m :
  StronglySorted N.lt m.*1 → StronglySorted N.lt (entry_push a sw m).*1.
Proof.
  induction m as [|[c l] m IH]; simpl; intros Hs; [repeat constructor|].
  inversion Hs as [|? ? Hs' Hf]; subst.
  destruct (N.ltb_spec a c).
  - simpl. constructor; [done|]. constructor; [done|].
    eapply Forall_impl; [exact Hf|]. intros; lia.
  - destruct (N.eqb_spec a c); simpl; [by constructor|]. constructor; [by apply IH|].
    apply Forall_forall. intros b [->|Hb]%entry_push_keys; [lia|].
    by eapply Forall_forall in Hf.
Qed.

Lemma entry_push_elem a sw m b l :
  StronglySorted N.lt m.*1 →
  (b, l) ∈ entry_push a sw m ↔
    (b ≠ a ∧ (b, l) ∈ m) ∨
    (b = a ∧ ((∃ l0, (a, l0) ∈ m ∧ l = l0 ++ [sw]) ∨ (a ∉ m.*1 ∧ l = [sw]))).
Proof.
  induction m as [|[c k] m IH]; simpl; intros Hs; [set_solver|].
  inversion Hs as [|? ? Hs' Hf]; subst. rewrite Forall_forall in Hf.
  assert (Hm : ∀ x y, (x, y) ∈ m → c < x).
  { intros x y Hx. apply Hf. apply list_elem_of_fmap. by exists (x, y). }
  assert (Hlt : ∀ x y, x ≤ c → (x, y) ∉ m) by (intros x y ? Hy%Hm; lia).
  destruct (N.ltb_spec a c); [|destruct (N.eqb_spec a c) as [->|]].
  - assert (a ∉ m.*1) by (intros Ha; specialize (Hf _ Ha); lia).
    set_unfold. naive_solver lia.
  - set_unfold. naive_solver lia.
  - rewrite elem_of_cons, IH by done. set_unfold. naive_solver.
Qed.

Lemma group_keys_sorted keys : StronglySorted N.lt (group_keys keys).*1.
Proof.
  unfold group_keys. induction keys as [|k keys IH] using rev_ind; [constructor|].
  rewrite fold_left_app. by apply entry_push_sorted.
Qed.

Lemma group_keys_elem keys a l :
  (a, l) ∈ group_keys keys ↔ l = group_of keys a ∧ l ≠ [].
Proof.
  revert a l. induction keys as [|k keys IH] using rev_ind; intros a l.
  { unfold group_keys, group_of. simpl. set_solver. }
  unfold group_keys. rewrite fold_left_app. fold (group_keys keys). simpl.
  rewrite entry_push_elem by apply group_keys_sorted.
  rewrite group_of_snoc. case_decide as Ha.
  - subst a. split.
    + intros [[? _]|[_ [(l0 & [-> _]%IH & ->)|[Hn ->]]]]; [done|by destruct (group_of _ _)|].
      split; [|done]. destruct (group_of keys (wk_address k)) eqn:E; [done|].
      destruct Hn. apply list_elem_of_fmap.
      exists (wk_address k, group_of keys (wk_address k)). split; [done|].
      apply IH. by rewrite E.
    + intros [-> _]. right. split; [done|].
      destruct (group_of keys (wk_address k)) eqn:E; [right|left].
      * split; [|done]. intros ([b y] & Hb & Hy)%list_elem_of_fmap. simpl in Hb. subst b.
        apply IH in Hy as [-> ?]. by rewrite E in *.
      * rewrite <- E. exists (group_of keys (wk_address k)). rewrite IH, E. done.
  - rewrite IH, app_nil_r. naive_solver.
Qed.

(** ** Lookup tables *)

Lemma collect_map_lookup (l : list (N * N)) k v :
  NoDup l.*1 → collect_map l !! k = Some v ↔ (k, v) ∈ l.
Proof.
  unfold collect_map. intros Hnd.
  induction l as [|[a b] l IH] using rev_ind; [simpl; set_solver|].
  rewrite fmap_app, NoDup_app in Hnd. destruct Hnd as (Hnd & Hdis & _).
  rewrite fold_left_app. simpl. rewrite elem_of_app, list_elem_of_singleton, <- IH by done.
  destruct (decide (a = k)) as [->|].
  - rewrite lookup_insert_eq. split; [naive_solver|].
    intros [H%IH|[= ->]]; [|done|done]. exfalso. apply (Hdis k); [|set_solver].
    apply list_elem_of_fmap. by exists (k, v).
  - rewrite lookup_insert_ne by done. naive_solver.
Qed.

Lemma imap_lookup_fst {A} (f : A → N) (l : list A) :
  (imap (λ i w, (f w, N.of_nat i)) l).*1 = f <$> l.
Proof.
  generalize 0%nat. assert (∀ n, (imap (λ i w, (f w, N.of_nat (n + i))) l).*1 = f <$> l) as H.
  { induction l as [|x l IH]; intros n; [done|]. cbn [imap fmap list_fmap]. simpl. f_equal.
    rewrite <- (IH (S n)). f_equal. apply imap_ext. intros. simpl. do 2 f_equal. lia. }
  intros _. apply (H 0%nat).
Qed.

Lemma index_map_lookup {A} (f : A → N) (l : list A) a (x : A) :
  NoDup (f <$> l) →
  (match collect_map (imap (λ i w, (f w, N.of_nat i)) l) !! a with
   | Some i => l !! N.to_nat i | None => None end) = Some x
  ↔ x ∈ l ∧ f x = a.
Proof.
  intros Hnd.
  assert (Hl : ∀ v, collect_map (imap (λ i w, (f w, N.of_nat i)) l) !! a = Some v ↔
     ∃ w i, l !! i = Some w ∧ f w = a ∧ v = N.of_nat i).
  { intros v. rewrite collect_map_lookup by by rewrite imap_lookup_fst.
    rewrite elem_of_lookup_imap. naive_solver. }
  destruct (collect_map _ !! a) as [v|] eqn:E.
  - destruct (proj1 (Hl v) eq_refl) as (w & i & Hi & <- & ->). rewrite Nat2N.id, Hi. split.
    + intros [= <-]. split; [by eapply list_elem_of_lookup_2|done].
    + intros [[j Hj]%list_elem_of_lookup Hf].
      assert (i = j) as ->; [|congruence].
      eapply NoDup_lookup; [exact Hnd|rewrite list_lookup_fmap, Hi; done|].
      by rewrite list_lookup_fmap, Hj, <- Hf.
  - split; [done|]. intros [[j Hj]%list_elem_of_lookup Hf].
    assert (None = Some (N.of_nat j)) as ?; [|done]. apply Hl. eauto.
Qed.

(** ** [compile] establishes well-formedness *)

Lemma sort_by_slot_perm l : sort_by_slot l ≡ₚ l.
Proof. apply merge_sort_Permutation. Qed.

#[export] Instance slot_le_trans : Transitive slot_le.
Proof. intros x y z. unfold slot_le. lia. Qed.
#[export] Instance slot_le_total : Total slot_le.
Proof. intros x y. unfold slot_le. lia. Qed.

Lemma sort_by_slot_sorted l : StronglySorted slot_le (sort_by_slot l).
Proof. apply (StronglySorted_merge_sort slot_le). Qed.

Lemma StronglySorted_lt_NoDup (l : list N) : StronglySorted N.lt l → NoDup l.
Proof.
  induction 1 as [|x l _ IH Hf]; constructor; [|done].
  intros Hx. rewrite Forall_forall in Hf. specialize (Hf x Hx). lia.
Qed.

Lemma compile_keys_lookup g cfg i k :
  len cfg ≤ u32_max →
  ws_keys (compile g cfg) !! i = Some k ↔
  ∃ c, cfg !! i = Some c ∧
    k = {| wk_key_id := N.of_nat i; wk_id := wc_id c; wk_address := wc_address c; wk_slot := wc_slot c |}.
Proof.
  intros Hlen. simpl. rewrite list_lookup_imap.
  destruct (cfg !! i) as [c|] eqn:E; simpl; [|naive_solver].
  assert (N.of_nat i < u32_max + 1).
  { apply lookup_lt_Some in E. unfold len in Hlen. lia. }
  unfold watch_key. rewrite N.mod_small by done. naive_solver.
Qed.

Lemma compile_coordinates g cfg :
  key_coordinate <$> ws_keys (compile g cfg) = coordinate <$> cfg.
Proof.
  simpl. apply list_eq. intros i. rewrite !list_lookup_fmap, list_lookup_imap.
  by destruct (cfg !! i).
Qed.

Lemma group_of_slots_nodup keys a :
  NoDup (key_coordinate <$> keys) → NoDup (sw_slot <$> group_of keys a).
Proof.
  intros Hnd. unfold group_of. rewrite <- list_fmap_compose.
  induction keys as [|k keys IH]; [constructor|].
  cbn in Hnd. apply NoDup_cons in Hnd as [Hk Hnd]. rewrite filter_cons.
  case_decide as Ha; [|by apply IH]. simpl. constructor; [|by apply IH].
  intros (k' & Hs & [Ha' Hk']%list_elem_of_filter)%list_elem_of_fmap. apply Hk.
  apply list_elem_of_fmap. exists k'. split; [|done]. unfold key_coordinate.
  simpl in Hs. congruence.
Qed.

Lemma group_of_ids_nodup keys a :
  NoDup (wk_key_id <$> keys) → NoDup (sw_key_id <$> group_of keys a).
Proof.
  intros Hnd. unfold group_of. rewrite <- list_fmap_compose.
  induction keys as [|k keys IH]; [constructor|].
  cbn in Hnd. apply NoDup_cons in Hnd as [Hk Hnd]. rewrite filter_cons.
  case_decide; [|by apply IH]. simpl. constructor; [|by apply IH].
  intros (k' & Hs & [_ Hk']%list_elem_of_filter)%list_elem_of_fmap. apply Hk.
  apply list_elem_of_fmap. by exists k'.
Qed.

Lemma address_watch_ok keys a l :
  NoDup (key_coordinate <$> keys) → NoDup (wk_key_id <$> keys) → (a, l) ∈ group_keys keys →
  address_watch_wf keys (address_watch (a, l)).
Proof.
  intros Hnd Hids [-> Hne]%group_keys_elem. split; simpl.
  - apply sort_by_slot_sorted.
  - intros sw. rewrite sort_by_slot_perm. unfold group_of.
    rewrite list_elem_of_fmap. setoid_rewrite list_elem_of_filter. naive_solver.
  - intros E. pose proof (sort_by_slot_perm (group_of keys a)) as Hp. rewrite E in Hp.
    by apply Permutation_nil in Hp.
  - rewrite sort_by_slot_perm. by apply group_of_slots_nodup.
  - rewrite sort_by_slot_perm. by apply group_of_ids_nodup.
  - done.
Qed.

Lemma compile_ids_nodup g cfg :
  len cfg ≤ u32_max → NoDup (wk_key_id <$> ws_keys (compile g cfg)).
Proof.
  intros Hlen. apply NoDup_alt. intros i j x.
  rewrite !list_lookup_fmap. intros (k & Hk & ->)%fmap_Some (k' & Hk' & Hx)%fmap_Some.
  apply compile_keys_lookup in Hk as (c & _ & ->); [|done].
  apply compile_keys_lookup in Hk' as (c' & _ & ->); [|done]. simpl in Hx. lia.
Qed.

Lemma compile_wf g cfg :
  len cfg ≤ u32_max → NoDup (coordinate <$> cfg) → watch_set_wf (compile g cfg).
Proof.
  intros Hlen Hnd. pose proof (compile_coordinates g cfg) as Hc.
  assert (Hnd' : NoDup (key_coordinate <$> ws_keys (compile g cfg))) by by rewrite Hc.
  assert (Ha : aw_address <$> ws_addresses (compile g cfg) = (group_keys (ws_keys (compile g cfg))).*1).
  { simpl. rewrite <- list_fmap_compose. by apply list_fmap_ext. }
  assert (Hd : NoDup (aw_address <$> ws_addresses (compile g cfg))).
  { rewrite Ha. apply StronglySorted_lt_NoDup, group_keys_sorted. }
  split; try done.
  - simpl. unfold len. by rewrite length_imap.
  - intros i k Hk. apply compile_keys_lookup in Hk as (c & _ & ->); done.
  - apply Forall_fmap, Forall_forall. intros [a l] Hin. apply address_watch_ok; [done|by apply compile_ids_nodup|done].
  - intros k Hk. rewrite Ha. apply list_elem_of_fmap.
    exists (wk_address k, group_of (ws_keys (compile g cfg)) (wk_address k)). split; [done|].
    apply group_keys_elem. split; [done|]. intros E.
    assert (slot_watch k ∈ group_of (ws_keys (compile g cfg)) (wk_address k)) as Hin; [|rewrite E in Hin; set_solver].
    apply list_elem_of_fmap. exists k. split; [done|]. by apply list_elem_of_filter.
  - intros a aw. by apply index_map_lookup.
Qed.

Lemma compile_key_lookup g cfg i : 
  ws_keys (compile g cfg) !! i = watch_key i <$> cfg !! i.
Proof. simpl. by rewrite list_lookup_imap. Qed.

Lemma forallb2_lookup {A B} (f : A → B → bool) l k :
  length l = length k →
  forallb2 f l k = true ↔ (∀ i x y, l !! i = Some x → k !! i = Some y → f x y = true).
Proof.
  revert k; induction l as [|x l IH]; intros [|y k] Hlen; try done. simpl.
  rewrite andb_true_iff, IH by (simpl in Hlen; lia). split.
  - intros [Hxy Hr] [|i] a b; simpl; [naive_solver|apply Hr].
  - intros H. split; [by apply (H 0%nat)|]. intros i. apply (H (S i)).
Qed.

(** [WatchSet::matches_config] accepts exactly the configuration the set was compiled from,
    whatever the generation: a reload is suppressed if and only if names, coordinates and order
    are all unchanged. *)
Theorem matches_config_iff g cfg cfg' :
  matches_config (compile g cfg) cfg' = true ↔ cfg' = cfg.
Proof.
  unfold matches_config. rewrite andb_true_iff, N.eqb_eq.
  assert (Hl : length (ws_keys (compile g cfg)) = length cfg) by (simpl; by rewrite length_imap).
  unfold len. split.
  - intros [Hlen Hall]. apply list_eq. intros i.
    rewrite forallb2_lookup in Hall by lia.
    destruct (cfg !! i) as [c|] eqn:E.
    + assert (is_Some (cfg' !! i)) as [c' E'].
      { apply lookup_lt_is_Some. apply lookup_lt_Some in E. lia. }
      specialize (Hall i (watch_key i c) c'). rewrite compile_key_lookup, E in Hall.
      specialize (Hall eq_refl E'). rewrite E'. f_equal. destruct c, c'; simpl in *.
      rewrite !andb_true_iff, bool_decide_eq_true, !N.eqb_eq in Hall. naive_solver.
    + apply lookup_ge_None. apply lookup_ge_None in E. lia.
  - intros ->. split; [lia|]. apply forallb2_lookup; [lia|].
    intros i k c Hk Hc. rewrite compile_key_lookup, Hc in Hk. simplify_eq/=.
    by rewrite bool_decide_eq_true_2, !N.eqb_refl.
Qed.

(** C37: [WatchSet::compile] of a configuration that passed validation is well formed: keys are
    dense and distinct, every key is listed exactly under its own account, the accounts are
    distinct, and the address index finds exactly the compiled accounts. *)
Theorem compile_valid_config_wf g c :
  validate c = Ok () → watch_set_wf (compile g (watch c)).
Proof. intros []%validate_ok. by apply compile_wf. Qed.

Lemma compile_valid_config_wf_witness :
  validate sample_config = Ok () ∧ watch_set_wf (compile 3 (watch sample_config)).
Proof. split; [vm_compute; reflexivity|apply compile_valid_config_wf; vm_compute; reflexivity]. Defined.

(** ** Binary search finds what the slice holds *)

Lemma sorted_lookup_le l i j wi wj :
  StronglySorted slot_le l → (i ≤ j)%nat → l !! i = Some wi → l !! j = Some wj →
  sw_slot wi ≤ sw_slot wj.
Proof.
  intros Hs. revert i j; induction Hs as [|x l _ IH Hf]; intros i j Hij Hi Hj; [done|].
  destruct i as [|i], j as [|j]; simplify_eq/=; try lia.
  - rewrite Forall_forall in Hf. apply Hf. by eapply list_elem_of_lookup_2.
  - apply (IH i j); done || lia.
Qed.

Lemma bs_loop_finds l key fuel base size :
  StronglySorted slot_le l → (1 ≤ size ≤ S fuel)%nat → (base + size ≤ length l)%nat →
  (∃ j w, (base ≤ j < base + size)%nat ∧ l !! j = Some w ∧ sw_slot w = key) →
  ∃ w, l !! bs_loop fuel l key base size = Some w ∧ sw_slot w = key.
Proof.
  intros Hs. revert base size; induction fuel as [|fuel IH]; intros base size Hsz Hb (j & w & Hj & Hw & Hk).
  { simpl. assert (j = base) as -> by lia. eauto. }
  cbn [bs_loop]. destruct (Nat.ltb_spec 1 size); [|assert (j = base) as -> by lia; by eauto].
  pose proof (Nat.div_mod_eq size 2). pose proof (Nat.mod_upper_bound size 2 ltac:(done)).
  set (half := (size / 2)%nat) in *.
  assert (is_Some (l !! (base + half)%nat)) as [m Hm] by (apply lookup_lt_is_Some; lia).
  cbv zeta. rewrite Hm. destruct (N.ltb_spec key (sw_slot m)).
  - apply IH; [lia..|]. exists j, w. split_and!; try done; try lia.
    destruct (decide (j < base + half)%nat); [lia|].
    pose proof (sorted_lookup_le l (base + half) j m w Hs ltac:(lia) Hm Hw). lia.
  - apply IH; [lia..|]. destruct (decide (base + half ≤ j)%nat).
    + exists j, w. split_and!; done || lia.
    + pose proof (sorted_lookup_le l j (base + half) w m Hs ltac:(lia) Hw Hm).
      exists (base + half)%nat, m. split_and!; done || lia.
Qed.

(** The search finds a slot exactly when the sorted slice holds it. *)
Lemma binary_search_Some l key :
  StronglySorted slot_le l →
  (∃ i, binary_search_by_slot l key = Some i) ↔ key ∈ sw_slot <$> l.
Proof.
  intros Hs. rewrite list_elem_of_fmap. unfold binary_search_by_slot. split.
  - intros [i Hi]. destruct l as [|x l]; [done|].
    destruct ((x :: l) !! _) as [w|] eqn:E; [|done].
    destruct (N.eqb_spec (sw_slot w) key); [|done].
    exists w. split; [done|]. by eapply list_elem_of_lookup_2.
  - intros (w & -> & [j Hj]%list_elem_of_lookup). destruct l as [|x l]; [done|].
    destruct (bs_loop_finds (x :: l) (sw_slot w) (length (x :: l)) 0 (length (x :: l)) Hs)
      as (w' & Hw' & Hk); [simpl; lia|simpl; lia| |].
    { exists j, w. split_and!; try done; [lia|]. apply lookup_lt_Some in Hj. lia. }
    rewrite Hw', Hk, N.eqb_refl. eauto.
Qed.

Lemma binary_search_key l key i :
  binary_search_by_slot l key = Some i → ∃ w, l !! i = Some w ∧ sw_slot w = key.
Proof.
  unfold binary_search_by_slot. destruct l as [|x l]; [done|].
  destruct ((x :: l) !! _) as [w|] eqn:E; [|done].
  destruct (N.eqb_spec (sw_slot w) key); [|done]. naive_solver.
Qed.
