(* ===== verification/Reload.v ===== *)
(** * Configuration reloads (src/src/publisher.rs: run_config_reloader; src/src/feed.rs: the control channel)

    The reload task, the control channel of capacity one and the publisher's
    answer to a request, as steps that interleave freely.  A request carries a
    compiled watch set; the publisher activates it or fails, and says so on the
    request's completion channel.  The shutdown channel only ever carries
    [true]. *)

From S2P Require Import Prelude Bytes Config Watch.
From stdpp Require Import list.
Local Open Scope N_scope.

(** Where the task stands: setting up its watcher and its signal handler, or in one of the places of
    its loop. *)
Inductive ReloaderPc :=
| Starting
| Listening
| Coalescing
| Requesting (ws : WatchSet) (retry_delay : N)
| Awaiting (ws : WatchSet) (retry_delay : N)
| BackingOff (ws : WatchSet) (retry_delay : N)
| Returned.

(** The result of [FeedProducer::request_activation]. *)
Inductive ActivationRequest := Queued | Full | Disconnected.

Record Reload := mkReload {
  rd_pc : ReloaderPc;
  rd_next_generation : N;
  rd_event : bool;
  rd_sighup : bool;
  rd_control : option WatchSet;
  rd_connected : bool;
  rd_completion : option bool;
  rd_active : WatchSet;
  rd_activated : list WatchSet;
}.
#[export] Instance eta_Reload : Eta Reload := λ r,
  mkReload (rd_pc r) (rd_next_generation r) (rd_event r) (rd_sighup r) (rd_control r) (rd_connected r)
    (rd_completion r) (rd_active r) (rd_activated r).

(** The task as it is spawned; [next_generation] is read when it enters its loop. *)
Definition reloader (active : WatchSet) : Reload :=
  mkReload Starting 0 false false None true None active [].

(** [FeedProducer::request_activation]: a [try_send] on the control channel. *)
Definition request_activation (ws : WatchSet) (r : Reload) : ActivationRequest * Reload :=
  if negb (rd_connected r) then (Disconnected, r)
  else match rd_control r with
       | Some _ => (Full, r)
       | None => (Queued, r <| rd_control := Some ws |> <| rd_completion := None |>)
       end.

Section reload.
Context {IoError TomlError : Type}.
Context (toml_from_str : string → outcome TomlError Config) (config_path : string).
Context (immutable_stream_config : StreamConfig).

(** [SetUp] is the outcome of creating the watcher, watching the directory and installing the signal
    handler; [InputClosed] is a signal or event stream that has ended; [ShutDown] is the watch channel
    telling the task to stop. *)
Inductive ReloadAction :=
| SetUp (ready : bool)
| FileChanged
| Sighup
| Wake
| LoadFile (read_to_string : string → outcome IoError string)
| Request
| PublisherTakes (activated : bool)
| PublisherStops
| Complete
| RetryElapsed
| InputClosed
| ShutDown.

(** Reading the file after the burst: what to request, if anything. *)
Definition reload_config (read_to_string : string → outcome IoError string) (r : Reload) : ReloaderPc :=
  match load read_to_string toml_from_str config_path with
  | Ok config =>
      if negb (bool_decide (stream config = immutable_stream_config)) then Listening
      else if matches_config (rd_active r) (watch config) then Listening
      else Requesting (compile (rd_next_generation r) (watch config)) (from_millis 25)
  | _ => Listening
  end.

(** The publisher takes a request: an activation replaces the producer's watch set unless its
    generation is not newer. *)
Definition publisher_takes (activated : bool) (r : Reload) : option Reload :=
  match rd_control r with
  | None => None
  | Some ws =>
      let r := r <| rd_control := None |> <| rd_completion := Some activated |> in
      Some (if activated && negb (ws_generation ws <=? ws_generation (rd_active r))
            then r <| rd_active := ws |> <| rd_activated ::= λ l, l ++ [ws] |> else r)
  end.

Definition reload_step (action : ReloadAction) (r : Reload) : option Reload :=
  match action with
  | SetUp ready =>
      match rd_pc r with
      | Starting =>
          Some (if ready : bool
                then r <| rd_next_generation := saturating_add (ws_generation (rd_active r)) 1 |> <| rd_pc := Listening |>
                else r <| rd_pc := Returned |>)
      | _ => None
      end
  | FileChanged => Some (r <| rd_event := true |>)
  | Sighup => Some (r <| rd_sighup := true |>)
  | Wake =>
      match rd_pc r with
      | Listening | BackingOff _ _ =>
          if rd_sighup r then Some (r <| rd_sighup := false |> <| rd_pc := Coalescing |>)
          else if rd_event r then Some (r <| rd_event := false |> <| rd_pc := Coalescing |>)
          else None
      | _ => None
      end
  | LoadFile read_to_string =>
      match rd_pc r with
      | Coalescing => Some (r <| rd_event := false |> <| rd_pc := reload_config read_to_string r |>)
      | _ => None
      end
  | Request =>
      match rd_pc r with
      | Requesting ws retry_delay =>
          match request_activation ws r with
          | (Queued, r) => Some (r <| rd_pc := Awaiting ws retry_delay |>)
          | (Full, r) => Some (r <| rd_pc := BackingOff ws retry_delay |>)
          | (Disconnected, r) => Some (r <| rd_pc := Returned |>)
          end
      | _ => None
      end
  | PublisherTakes activated => if rd_connected r then publisher_takes activated r else None
  | PublisherStops => Some (r <| rd_connected := false |> <| rd_control := None |>)
  | Complete =>
      match rd_pc r with
      | Awaiting ws retry_delay =>
          match rd_completion r with
          | Some true =>
              Some (r <| rd_next_generation ::= λ g, saturating_add g 1 |> <| rd_pc := Listening |>)
          | Some false => Some (r <| rd_pc := BackingOff ws retry_delay |>)
          | None => if rd_connected r then None else Some (r <| rd_pc := Returned |>)
          end
      | _ => None
      end
  | RetryElapsed =>
      match rd_pc r with
      | BackingOff ws retry_delay =>
          Some (r <| rd_pc := Requesting ws (N.min (saturating_mul retry_delay 2) (from_secs 1)) |>)
      | _ => None
      end
  | InputClosed =>
      match rd_pc r with Listening | BackingOff _ _ => Some (r <| rd_pc := Returned |>) | _ => None end
  | ShutDown =>
      match rd_pc r with
      | Listening | Coalescing | Awaiting _ _ | BackingOff _ _ => Some (r <| rd_pc := Returned |>)
      | _ => None
      end
  end.

Fixpoint reload_run (actions : list ReloadAction) (r : Reload) : option Reload :=
  match actions with
  | [] => Some r
  | action :: actions => r ← reload_step action r; reload_run actions r
  end.

(** ** Invariant *)

(** A set compiled from a valid configuration that keeps the stream settings. *)
Definition from_config (ws : WatchSet) : Prop :=
  ∃ c, validate c = Ok () ∧ stream c = immutable_stream_config ∧ ws = compile (ws_generation ws) (watch c).

(** A set the task may ask for: the next generation. *)
Definition requested (r : Reload) (ws : WatchSet) : Prop :=
  from_config ws ∧ ws_generation ws = rd_next_generation r.

(** The next generation has not been activated. *)
Definition fresh (r : Reload) : Prop := rd_next_generation r = ws_generation (rd_active r) + 1.

Definition pc_ok (r : Reload) : Prop :=
  match rd_pc r with
  | Starting => rd_control r = None
  | Listening | Coalescing => rd_control r = None ∧ fresh r
  | Requesting ws d | BackingOff ws d => rd_control r = None ∧ fresh r ∧ requested r ws ∧ d ≤ from_secs 1
  | Awaiting ws d =>
      requested r ws ∧ d ≤ from_secs 1 ∧
      match rd_completion r with
      | None => (rd_control r = Some ws ∨ rd_control r = None ∧ rd_connected r = false) ∧ fresh r
      | Some true => rd_control r = None ∧ rd_active r = ws
      | Some false => rd_control r = None ∧ fresh r
      end
  | Returned => ∀ ws, rd_control r = Some ws → requested r ws ∧ fresh r
  end.

Record reload_ok (first : WatchSet) (r : Reload) : Prop := {
  ro_pc : pc_ok r;
  ro_active : rd_active r = default first (last (rd_activated r));
  ro_generation : ws_generation (rd_active r) = ws_generation first + len (rd_activated r);
  ro_activated : ∀ i ws, rd_activated r !! i = Some ws →
    ws_generation ws = ws_generation first + 1 + N.of_nat i ∧ from_config ws;
}.

Lemma reload_step_grows action r r' :
  reload_step action r = Some r' → rd_activated r `prefix_of` rd_activated r'.
Proof.
  intros Hs. destruct action; simpl in Hs; unfold publisher_takes, request_activation in Hs;
    repeat case_match; simplify_eq/=; try done; by apply prefix_app_r.
Qed.

Lemma load_requested (read_to_string : string → outcome IoError string) r config :
  load read_to_string toml_from_str config_path = Ok config → stream config = immutable_stream_config →
  requested r (compile (rd_next_generation r) (watch config)).
Proof.
  intros Hl%load_valid Hst. split; [|done]. by exists config.
Qed.

(** The set the task is busy with, if any. *)
Definition pc_set (pc : ReloaderPc) : option WatchSet :=
  match pc with Requesting ws _ | Awaiting ws _ | BackingOff ws _ => Some ws | _ => None end.

(** It was compiled from a valid file. *)
Lemma reload_step_set action r r' :
  (∀ ws, pc_set (rd_pc r) = Some ws → from_config ws) → reload_step action r = Some r' →
  ∀ ws, pc_set (rd_pc r') = Some ws → from_config ws.
Proof.
  intros Hset Hs. destruct action; simpl in Hs; unfold publisher_takes, request_activation in Hs.
  5: { destruct (rd_pc r); simplify_eq/=. unfold reload_config. destruct (load _ _ _) as [config| |] eqn:El; try done.
    case_bool_decide as Hst; simpl; [|done]. destruct (matches_config _ _); [done|].
    intros ws [= <-]. by destruct (load_requested _ r config El Hst). }
  all: repeat case_match; simplify_eq/=; auto; congruence.
Qed.

(** The publisher's side of a request. *)
Lemma publisher_takes_ok first activated r r' :
  reload_ok first r → publisher_takes activated r = Some r' → reload_ok first r'.
Proof.
  intros [Hpc Ha Hg Hall]. unfold publisher_takes. destruct (rd_control r) as [ws|] eqn:Ec; [|done].
  intros [= <-].
  assert (Hreq : requested r ws ∧ fresh r ∧ ((∃ d, rd_pc r = Awaiting ws d ∧ d ≤ from_secs 1) ∨ rd_pc r = Returned)).
  { unfold pc_ok in Hpc. destruct (rd_pc r) eqn:Ep; try congruence; try by destruct Hpc as [? _]; congruence.
    - destruct Hpc as (Hr & Hd & Hc). destruct (rd_completion r) as [[]|]; [by destruct Hc; congruence..|].
      destruct Hc as [[Hc|[Hc _]] Hf]; [|congruence]. rewrite Hc in Ec. simplify_eq. eauto 10.
    - destruct (Hpc ws Ec). eauto. }
  destruct Hreq as ([Hfrom Hgen] & Hf & Hp). unfold fresh in Hf.
  destruct (N.leb_spec (ws_generation ws) (ws_generation (rd_active r))) as [Hle|Hgt]; [lia|].
  destruct activated; simpl.
  - split; simpl.
    + unfold pc_ok. simpl. destruct Hp as [(d & -> & Hd)| ->]; simpl; by repeat split.
    + by rewrite last_snoc.
    + unfold len in *. rewrite length_app. simpl. lia.
    + intros i w [Hi|[Hi Hw]]%lookup_app_Some; [by apply Hall|].
      apply list_lookup_singleton_Some in Hw as [Hi0 ->]. unfold len in *. split; [lia|done].
  - split; simpl; try done. unfold pc_ok. simpl. destruct Hp as [(d & -> & Hd)| ->]; simpl; by repeat split.
Qed.

Lemma reload_step_ok first action r r' :
  ws_generation first + len (rd_activated r') < u64_max →
  reload_ok first r → reload_step action r = Some r' → reload_ok first r'.
Proof.
  intros Hmax Hok Hs. pose proof (reload_step_grows _ _ _ Hs) as Hgrow. pose proof Hok as [Hpc Ha Hg Hall].
  assert (Hb : ws_generation (rd_active r) < u64_max).
  { apply prefix_length in Hgrow. unfold len in *. lia. }
  unfold pc_ok, fresh, requested in Hpc.
  destruct action; simpl in Hs.
  - destruct (rd_pc r) eqn:Ep; try done. simplify_eq. destruct ready; split; try done; unfold pc_ok, fresh; simpl.
    + split; [done|]. unfold saturating_add. lia.
    + by rewrite Hpc.
  - simplify_eq. by split.
  - simplify_eq. by split.
  - destruct (rd_pc r) eqn:Ep; try done; repeat case_match; simplify_eq; split; try done; unfold pc_ok, fresh; simpl; naive_solver.
  - destruct (rd_pc r) eqn:Ep; try done. simplify_eq. split; try done. unfold pc_ok, fresh. simpl.
    unfold reload_config. destruct (load _ _ _) as [config| |] eqn:El; try done.
    case_bool_decide as Hst; simpl; [|done]. destruct (matches_config _ _); [done|].
    destruct Hpc. split_and!; [done|done|by eapply (load_requested _ r)|done].
  - destruct (rd_pc r) eqn:Ep; try done. unfold request_activation in Hs. destruct Hpc as (Hc & Hf & Hr & Hd).
    rewrite Hc in Hs. destruct (rd_connected r); simplify_eq/=; split; try done; unfold pc_ok, fresh; simpl.
    + split_and!; [done|done|by left|done].
    + by rewrite Hc.
  - destruct (rd_connected r); [|done]. by eapply publisher_takes_ok.
  - simplify_eq. split; try done. unfold pc_ok, fresh, requested. simpl.
    destruct (rd_pc r) as [| | |ws d|ws d|ws d|]; [naive_solver..| |naive_solver|done]. destruct Hpc as (Hr & Hd & Hc). split; [done|]. split; [done|].
    destruct (rd_completion r) as [[]|]; [naive_solver..|]. split; [by right|apply Hc].
  - destruct (rd_pc r) eqn:Ep; try done. destruct Hpc as ([Hfrom Hgen] & Hd & Hc).
    destruct (rd_completion r) as [[]|]; [| |destruct (rd_connected r); [done|]]; simplify_eq/=; split; try done; unfold pc_ok, fresh; simpl.
    + destruct Hc as [Hc Hact]. split; [done|]. unfold saturating_add. rewrite Hact in *. lia.
    + destruct Hc. by repeat split.
    + destruct Hc as [[Hc|[Hc _]] Hf]; rewrite Hc; intros w [= <-]. by repeat split.
  - destruct (rd_pc r) eqn:Ep; try done. simplify_eq. split; try done. unfold pc_ok, fresh. simpl.
    destruct Hpc as (Hc & Hf & Hr & _). split_and!; [done|done|exact Hr|lia].
  - destruct (rd_pc r) eqn:Ep; try done; simplify_eq; split; try done; unfold pc_ok; simpl; destruct Hpc as [-> _]; done.
  - assert (Er : r' = r <| rd_pc := Returned |>) by (destruct (rd_pc r); by simplify_eq). rewrite Er.
    split; try done. unfold pc_ok, requested, fresh. simpl.
    destruct (rd_pc r); try naive_solver. destruct Hpc as (? & ? & Hc). intros w Hw.
    destruct (rd_completion r) as [[]|]; [naive_solver..|]. naive_solver.
Qed.

Lemma reloader_ok active : ws_generation active < u64_max → reload_ok active (reloader active).
Proof.
  intros Hb. split; [|done| |done].
  - done.
  - cbn [rd_active rd_activated reloader]. unfold len. simpl length. lia.
Qed.

Lemma reload_run_grows actions r r' :
  reload_run actions r = Some r' → rd_activated r `prefix_of` rd_activated r'.
Proof.
  revert r; induction actions as [|a actions IH]; intros r; simpl; [by intros [= <-]|].
  destruct (reload_step a r) as [r1|] eqn:E; [|done]. simpl. intros Hr.
  etrans; [by eapply reload_step_grows|by apply IH].
Qed.

Lemma reload_run_ok first actions r r' :
  ws_generation first + len (rd_activated r') < u64_max →
  reload_ok first r → reload_run actions r = Some r' → reload_ok first r'.
Proof.
  intros Hmax. revert r; induction actions as [|a actions IH]; intros r Hok; simpl; [by intros [= <-]|].
  destruct (reload_step a r) as [r1|] eqn:E; [|done]. simpl. intros Hr. eapply IH; [|exact Hr].
  eapply reload_step_ok; [|done|exact E]. apply reload_run_grows, prefix_length in Hr. unfold len in *. lia.
Qed.

(** However file events, signals, activation failures and shutdown interleave, the activated
    watch sets are numbered consecutively from the initial one, so a generation names one
    dictionary; each is the compilation of a configuration that passed validation and left the
    stream settings alone; the producer holds the one activated last; and the control channel is
    never found full. *)
Theorem reload_generations actions active r :
  reload_run actions (reloader active) = Some r →
  ws_generation active + len (rd_activated r) < u64_max →
  (∀ i ws, rd_activated r !! i = Some ws →
     ws_generation ws = ws_generation active + 1 + N.of_nat i ∧ watch_set_wf ws ∧ from_config ws) ∧
  rd_active r = default active (last (rd_activated r)) ∧
  ∀ ws d, rd_pc r = Requesting ws d → (request_activation ws r).1 ≠ Full.
Proof.
  intros Hrun Hmax. assert (reload_ok active r) as [Hpc Ha Hg Hall].
  { eapply reload_run_ok; [done|apply reloader_ok; lia|exact Hrun]. }
  split_and!; [|done|].
  - intros i ws Hi. destruct (Hall i ws Hi) as [Hgen (c & Hv & Hst & E)]. split_and!; [done| |by exists c].
    rewrite E. apply validate_ok in Hv as []. by apply compile_wf.
  - intros ws d Ep. unfold pc_ok in Hpc. rewrite Ep in Hpc. destruct Hpc as [Hc _].
    unfold request_activation. rewrite Hc. by destruct (negb _).
Qed.

(** The steps of a failed and of a successful request. *)
Definition failed_request : list ReloadAction := [Request; PublisherTakes false; Complete; RetryElapsed].
Definition granted_request : list ReloadAction := [Request; PublisherTakes true; Complete].

Lemma reload_run_app l1 l2 r : reload_run (l1 ++ l2) r = r ← reload_run l1 r; reload_run l2 r.
Proof. revert r; induction l1 as [|a l1 IH]; intros r; simpl; [done|]. destruct (reload_step a r); simpl; auto. Qed.

Lemma failed_request_run ws d r :
  rd_pc r = Requesting ws d → rd_connected r = true → rd_control r = None →
  reload_run failed_request r = Some (r <| rd_control := None |> <| rd_completion := Some false |>
    <| rd_pc := Requesting ws (N.min (saturating_mul d 2) (from_secs 1)) |>).
Proof.
  intros Hp Hc Hn. simpl. rewrite Hp. unfold request_activation. rewrite Hc, Hn. simpl. rewrite Hc. by destruct r.
Qed.

Lemma failed_requests_run n ws d r :
  rd_pc r = Requesting ws d → rd_connected r = true → rd_control r = None → d ≤ from_secs 1 →
  ∃ r' d', reload_run (concat (replicate n failed_request)) r = Some r' ∧ rd_pc r' = Requesting ws d' ∧
    d' ≤ from_secs 1 ∧ rd_connected r' = true ∧ rd_control r' = None ∧ rd_active r' = rd_active r ∧
    rd_next_generation r' = rd_next_generation r.
Proof.
  revert d r; induction n as [|n IH]; intros d r Hp Hc Hn Hd; [by exists r, d|].
  cbn [replicate concat]. rewrite reload_run_app, (failed_request_run ws d r) by done. cbn [mbind option_bind].
  edestruct IH as (r' & d' & Hrun & Hrest); [| | | |exists r', d'; split; [exact Hrun|exact Hrest]]; simpl; [done|done|done|lia].
Qed.

(** C28: A valid configuration is not lost to transient failures: whatever number of activations
    the publisher refuses, the task asks again for the same set, waiting at most a second, and the
    first activation that succeeds installs it and frees the next generation. *)
Theorem reload_not_lost actions active r n ws d :
  reload_run actions (reloader active) = Some r →
  ws_generation active + len (rd_activated r) < u64_max →
  rd_pc r = Requesting ws d → rd_connected r = true →
  ∃ r1 d1 r2, reload_run (concat (replicate n failed_request)) r = Some r1 ∧
    rd_pc r1 = Requesting ws d1 ∧ d1 ≤ from_secs 1 ∧
    reload_run granted_request r1 = Some r2 ∧ rd_active r2 = ws ∧
    rd_next_generation r2 = saturating_add (rd_next_generation r) 1.
Proof.
  intros Hrun Hmax Hp Hc. assert (reload_ok active r) as [Hpc Ha Hg Hall].
  { eapply reload_run_ok; [done|apply reloader_ok; lia|exact Hrun]. }
  unfold pc_ok in Hpc. rewrite Hp in Hpc. destruct Hpc as (Hn & Hf & [_ Hgen] & Hd).
  destruct (failed_requests_run n ws d r Hp Hc Hn Hd) as (r1 & d1 & Hr1 & Hp1 & Hd1 & Hc1 & Hn1 & Ha1 & Hg1).
  exists r1, d1. eexists. split_and!; [exact Hr1|done|done|..].
  { simpl. rewrite Hp1. unfold request_activation. rewrite Hc1, Hn1. simpl. rewrite Hc1. simpl.
    rewrite Ha1. unfold fresh in Hf. rewrite (proj2 (N.leb_gt _ _)) by lia. reflexivity. }
  all: simpl; congruence.
Qed.
End reload.

(** A file that first fails to parse and then drops the last key. *)
Definition sample_toml (contents : string) : outcome () Config :=
  if bool_decide (contents = "short"%string)
  then Ok {| stream := StreamConfig_default; watch := take 2 sample_watch |} else Err ().
Definition sample_file (contents : string) : string → outcome () string := λ _, Ok contents.
Definition sample_reload : list (@ReloadAction ()) :=
  [SetUp true; FileChanged; Wake; LoadFile (sample_file "broken"); Sighup; Wake; LoadFile (sample_file "short");
   Request; PublisherTakes false; Complete; RetryElapsed].
Definition sample_first : WatchSet := compile 1 sample_watch.
Definition sample_reloaded : Reload := Eval vm_compute in
  default (reloader sample_first)
    (reload_run sample_toml "statefeed.toml" StreamConfig_default sample_reload (reloader sample_first)).
Lemma reload_not_lost_witness :
  ∃ ws d r1 d1 r2, rd_pc sample_reloaded = Requesting ws d ∧ d = from_millis 50 ∧
    reload_run sample_toml "statefeed.toml" StreamConfig_default (concat (replicate 9 (@failed_request ()))) sample_reloaded = Some r1 ∧
    rd_pc r1 = Requesting ws d1 ∧ reload_run sample_toml "statefeed.toml" StreamConfig_default (@granted_request ()) r1 = Some r2 ∧
    rd_active r2 = ws.
Proof.
  eexists _, _.
  destruct (reload_not_lost sample_toml "statefeed.toml" StreamConfig_default sample_reload sample_first sample_reloaded 9
    _ _ ltac:(vm_compute; reflexivity) ltac:(vm_compute; reflexivity) eq_refl eq_refl) as (r1 & d1 & r2 & H1 & H2 & _ & H3 & H4 & _).
  exists r1, d1, r2. split; [reflexivity|]. split; [reflexivity|]. split; [exact H1|]. split; [exact H2|]. split; [exact H3|exact H4].
Defined.
