(* ===== verification/Socket.v ===== *)
(** * The listening socket (src/src/publisher.rs: bind_socket, SocketCleanup, run_server)

    One path of the file system, the system calls on it and the accept loop.
    A system call either fails, with a kind chosen by the environment, or has
    its documented effect. *)

From S2P Require Import Prelude Config.
From stdpp Require Import list.
Local Open Scope N_scope.

Inductive ErrorKind := NotFound | ConnectionRefused | ConnectionReset | OtherKind.

(** What the path names: a socket has a peer that accepts or refuses connections. *)
Inductive FileType := SocketFile (connect : option ErrorKind) | OtherFile.
Record Metadata := mkMetadata {
  md_file_type : FileType;
  md_dev : N;
  md_ino : N;
  md_mode : N;
}.
Definition is_socket (m : Metadata) : bool :=
  match md_file_type m with SocketFile _ => true | OtherFile => false end.

(** The entry at the path, if any, and the identities given to entries so far. *)
Record Path := mkPath {
  pa_entry : option Metadata;
  pa_next_inode : N;
}.

(** Which calls the environment makes fail (an inspection that finds nothing is not a failure), those of
    the cleanup guard's destructor included, and the device and mode it gives a new socket. *)
Record Faults := {
  ft_create_dir_all : option ErrorKind;
  ft_symlink_metadata : bool;
  ft_remove_file : option ErrorKind;
  ft_bind : option ErrorKind;
  ft_bound_metadata : option ErrorKind;
  ft_set_permissions : option ErrorKind;
  ft_drop_metadata : option ErrorKind;
  ft_drop_remove : option ErrorKind;
  ft_device : N;
  ft_initial_mode : N;
}.
Inductive BindError :=
| CreateDirectory (e : ErrorKind)
| InspectPath (e : ErrorKind)
| ActiveSocket
| NotProvablyStale (e : ErrorKind)
| RemoveStale (e : ErrorKind)
| NonSocket
| BindFailed (e : ErrorKind)
| InspectBound (e : ErrorKind)
| SetPermissions (e : ErrorKind).

Record SocketCleanup := { sc_device : N; sc_inode : N }.

Abbreviation F := (M Path BindError).

Definition sys (fault : option ErrorKind) (e : ErrorKind → BindError) : F () :=
  match fault with Some kind => throw (e kind) | None => mret () end.

(** [fs::symlink_metadata]. *)
Definition symlink_metadata (fault : option ErrorKind) (p : Path) : Metadata + ErrorKind :=
  match fault, pa_entry p with
  | Some kind, _ => inr kind
  | None, Some m => inl m
  | None, None => inr NotFound
  end.

Definition stale (e : ErrorKind) : bool :=
  match e with ConnectionRefused | ConnectionReset | NotFound => true | OtherKind => false end.

(** [SocketCleanup::drop]. *)
Definition cleanup_drop (metadata_fault remove_fault : option ErrorKind) (c : SocketCleanup) (p : Path) : Path :=
  match symlink_metadata metadata_fault p with
  | inl m =>
      if is_socket m && (md_dev m =? sc_device c) && (md_ino m =? sc_inode c)
      then match remove_fault with
           | None => mkPath None (pa_next_inode p)
           | Some _ => p
           end
      else p
  | inr _ => p
  end.

(** Closing the listener: the socket it was bound to, if it is still there, refuses connections. *)
Definition close_listener (device inode : N) (p : Path) : Path :=
  match pa_entry p with
  | Some m =>
      if is_socket m && (md_dev m =? device) && (md_ino m =? inode)
      then mkPath (Some (mkMetadata (SocketFile (Some ConnectionRefused)) (md_dev m) (md_ino m) (md_mode m))) (pa_next_inode p)
      else p
  | None => p
  end.

(** The guard and the listener are dropped: by the server at its end, and on the way out of a call
    that fails. *)
Definition drop_socket (metadata_fault remove_fault : option ErrorKind) (c : SocketCleanup) (p : Path) : Path :=
  close_listener (sc_device c) (sc_inode c) (cleanup_drop metadata_fault remove_fault c p).
Definition unwind (ft : Faults) : SocketCleanup → Path → Path := drop_socket (ft_drop_metadata ft) (ft_drop_remove ft).

(** [UnixListener::bind] on a free path: a fresh socket that accepts connections. *)
Definition os_bind (ft : Faults) (p : Path) : Path :=
  mkPath (Some (mkMetadata (SocketFile None) (ft_device ft) (pa_next_inode p) (ft_initial_mode ft)))
    (pa_next_inode p + 1).

(** The check of what is already at the path. *)
Definition clear_path (ft : Faults) : F () :=
  found ← gets (symlink_metadata (if ft_symlink_metadata ft then Some OtherKind else None));
  match found with
  | inl m =>
      match md_file_type m with
      | SocketFile None => throw ActiveSocket
      | SocketFile (Some kind) =>
          if stale kind then
            sys (ft_remove_file ft) RemoveStale ;;
            modify (λ p, mkPath None (pa_next_inode p))
          else throw (NotProvablyStale kind)
      | OtherFile => throw NonSocket
      end
  | inr NotFound => mret ()
  | inr kind => throw (InspectPath kind)
  end.

(** [bind_socket]; the listener is dropped when the bound socket cannot be inspected, the cleanup guard
    too when setting the permissions fails. *)
Definition bind_socket (ft : Faults) (socket_mode : N) : F SocketCleanup :=
  sys (ft_create_dir_all ft) CreateDirectory ;;
  clear_path ft ;;
  sys (ft_bind ft) BindFailed ;;
  inode ← gets pa_next_inode;
  modify (os_bind ft) ;;
  found ← gets (symlink_metadata (ft_bound_metadata ft));
  match found with
  | inr kind => modify (close_listener (ft_device ft) inode) ;; throw (InspectBound kind)
  | inl m =>
      let cleanup := {| sc_device := md_dev m; sc_inode := md_ino m |} in
      match ft_set_permissions ft with
      | Some kind => modify (unwind ft cleanup) ;; throw (SetPermissions kind)
      | None =>
          modify (λ p, mkPath (Some (mkMetadata (md_file_type m) (md_dev m) (md_ino m) socket_mode)) (pa_next_inode p)) ;;
          mret cleanup
      end
  end.

(** ** The accept loop *)

(** A consumer task of the [JoinSet]: spawned but not polled yet, inside [serve_consumer], or ended
    and not joined. *)
Inductive ConsumerTask := Spawned | Serving | Ended.

(** [sl_connected] and [sl_gaps] are the gauge [connected_consumers] and the counter
    [consumer_gaps]. *)
Record ServerLoop := mkServerLoop {
  sl_permits : N;
  sl_consumers : gmap N ConsumerTask;
  sl_connected : N;
  sl_gaps : N;
  sl_running : bool;
}.
#[export] Instance eta_ServerLoop : Eta ServerLoop := λ r,
  mkServerLoop (sl_permits r) (sl_consumers r) (sl_connected r) (sl_gaps r) (sl_running r).

(** What the accept loop and the consumer tasks do; a task may end because it lagged. *)
Inductive ServerAction :=
| Accept (id : N)
| AcceptFailed
| Serve (id : N)
| Finish (id : N) (lagged : bool)
| Joined (id : N)
| ServerShutDown.

(** A task that holds its permit, and one whose [ConsumerGuard] is alive. *)
Definition holds_permit (t : ConsumerTask) : bool := match t with Ended => false | _ => true end.
Definition is_serving (t : ConsumerTask) : bool := match t with Serving => true | _ => false end.

(** One step of [run_server] or of a task it spawned: a permit per task, given back when it ends;
    [serve_consumer] counts itself in and its guard counts it out; leaving the loop aborts and
    joins every task. *)
Definition server_step (a : ServerAction) (s : ServerLoop) : option ServerLoop :=
  if negb (sl_running s) then None
  else match a with
  | Accept id =>
      if sl_permits s =? 0 then Some s
      else match sl_consumers s !! id with
      | Some _ => None
      | None => Some (s <| sl_permits ::= λ n, n - 1 |> <| sl_consumers ::= insert id Spawned |>)
      end
  | AcceptFailed => Some s
  | Serve id =>
      match sl_consumers s !! id with
      | Some Spawned => Some (s <| sl_consumers ::= insert id Serving |> <| sl_connected ::= N.add 1 |>)
      | _ => None
      end
  | Finish id lagged =>
      match sl_consumers s !! id with
      | Some Serving =>
          Some (s <| sl_permits ::= N.add 1 |> <| sl_consumers ::= insert id Ended |>
                  <| sl_connected ::= λ n, n - 1 |> <| sl_gaps ::= N.add (if lagged : bool then 1 else 0) |>)
      | _ => None
      end
  | Joined id =>
      match sl_consumers s !! id with
      | Some Ended => Some (s <| sl_consumers ::= delete id |>)
      | _ => None
      end
  | ServerShutDown =>
      Some (s <| sl_permits ::= N.add (N.of_nat (count holds_permit (sl_consumers s))) |>
              <| sl_connected ::= λ n, n - N.of_nat (count is_serving (sl_consumers s)) |>
              <| sl_consumers := ∅ |> <| sl_running := false |>)
  end.

Fixpoint server_run (actions : list ServerAction) (s : ServerLoop) : option ServerLoop :=
  match actions with
  | [] => Some s
  | a :: actions => s ← server_step a s; server_run actions s
  end.

Definition run_server (max_consumers : N) : ServerLoop :=
  mkServerLoop max_consumers ∅ 0 0 true.

(** ** Lemmas *)

(** What may be taken over: nothing, or a socket whose peer is provably gone. *)
Definition replaceable (p : Path) : bool :=
  match pa_entry p with
  | None => true
  | Some m => match md_file_type m with SocketFile (Some kind) => stale kind | _ => false end
  end.

Lemma clear_path_spec ft p :
  match clear_path ft p with
  | (Ok _, p') => pa_entry p' = None ∧ replaceable p = true ∧ pa_next_inode p' = pa_next_inode p
  | (Err (CreateDirectory _ | BindFailed _ | InspectBound _ | SetPermissions _), _) => False
  | (Err _, p') => p' = p
  | (Diverge, _) => False
  end.
Proof.
  unfold clear_path, mbind, M_bind, gets, symlink_metadata, throw, modify, sys, replaceable.
  destruct (ft_symlink_metadata ft); [done|].
  destruct p as [[[[[kind|]|] ? ? ?]|] ?]; simpl; try done.
  destruct (stale kind) eqn:E; simpl; [|done]. by destruct (ft_remove_file ft).
Qed.

(** Whether the destructor of the guard gets its work done. *)
Definition drop_faults (ft : Faults) : bool :=
  bool_decide (is_Some (ft_drop_metadata ft)) || bool_decide (is_Some (ft_drop_remove ft)).

(** A socket nobody listens on. *)
Definition dead_socket (device inode mode : N) : Metadata := mkMetadata (SocketFile (Some ConnectionRefused)) device inode mode.

(** Dropping guard and listener on the path they were made for removes the socket, unless the
    destructor's own calls fail, and then a socket nobody listens on stays. *)
Lemma unwind_bound ft c mode p :
  pa_entry p = Some (mkMetadata (SocketFile None) (sc_device c) (sc_inode c) mode) →
  pa_entry (unwind ft c p) = if drop_faults ft then Some (dead_socket (sc_device c) (sc_inode c) mode) else None.
Proof.
  intros Hp. unfold unwind, drop_socket, close_listener, cleanup_drop, symlink_metadata, drop_faults. rewrite Hp.
  destruct (ft_drop_metadata ft), (ft_drop_remove ft); simpl; rewrite ?Hp; simpl; rewrite ?N.eqb_refl; simpl; rewrite ?Hp; simpl;
    by rewrite ?N.eqb_refl.
Qed.

(** [bind_socket] only takes over a free path or a socket whose peer is provably gone: anything
    else, and any failure before the bind, is reported with the path as it was. On success the path
    is a fresh socket with the configured mode, identified by the cleanup guard; dropping the guard
    removes exactly that socket and never a file that has replaced it. When the permissions cannot
    be set the guard is dropped, and the socket is removed again unless that fails too; a socket that
    stays behind refuses connections, so that the next start may take it over. *)
Lemma bind_socket_spec ft mode p :
  match bind_socket ft mode p with
  | (Ok c, p') =>
      replaceable p = true ∧
      pa_entry p' = Some (mkMetadata (SocketFile None) (sc_device c) (sc_inode c) mode) ∧
      sc_inode c < pa_next_inode p' ∧
      ∀ mf rf q m, pa_entry q = Some m → is_socket m = false ∨ md_dev m ≠ sc_device c ∨ md_ino m ≠ sc_inode c →
        cleanup_drop mf rf c q = q
  | (Err (BindFailed _), p') => replaceable p = true ∧ pa_entry p' = None
  | (Err (SetPermissions _), p') => replaceable p = true ∧
      pa_entry p' = if drop_faults ft then Some (dead_socket (ft_device ft) (pa_next_inode p) (ft_initial_mode ft)) else None
  | (Err (InspectBound _), p') => replaceable p = true ∧
      pa_entry p' = Some (dead_socket (ft_device ft) (pa_next_inode p) (ft_initial_mode ft))
  | (Err _, p') => p' = p
  | (Diverge, _) => False
  end.
Proof.
  pose proof (clear_path_spec ft p) as Hc. unfold bind_socket, mbind, M_bind, sys, throw, gets, modify, mret, M_ret.
  destruct (ft_create_dir_all ft); [done|].
  destruct (clear_path ft p) as [[[]|e|] p1]; [|by destruct e|done]. destruct Hc as (He1 & Hr & Hn).
  destruct (ft_bind ft); [done|]. unfold symlink_metadata. cbn [os_bind pa_entry].
  destruct (ft_bound_metadata ft).
  { split; [done|]. unfold close_listener. simpl. rewrite !N.eqb_refl. simpl. by rewrite Hn. }
  destruct (ft_set_permissions ft); cbv iota beta.
  - split; [done|]. rewrite <- Hn.
    by apply (unwind_bound ft {| sc_device := ft_device ft; sc_inode := pa_next_inode p1 |} (ft_initial_mode ft)).
  - split_and!; [done|done|simpl; lia|].
    intros mf rf q m Hq Hdiff. unfold cleanup_drop, symlink_metadata. rewrite Hq. destruct mf; [done|]. simpl in *.
    destruct (is_socket m) eqn:Es; [|done]. destruct (N.eqb_spec (md_dev m) (ft_device ft)); [|done].
    destruct (N.eqb_spec (md_ino m) (pa_next_inode p1)); [naive_solver|done].
Qed.

(** A permit per place: taken ones and free ones add up; and the gauge is the number of consumers
    being served. *)
Record server_ok (n : N) (s : ServerLoop) : Prop := {
  so_permits : sl_permits s + N.of_nat (count holds_permit (sl_consumers s)) = n;
  so_connected : sl_connected s = N.of_nat (count is_serving (sl_consumers s));
  so_ended : sl_running s = false → sl_consumers s = ∅;
}.

Lemma run_server_ok n : server_ok n (run_server n).
Proof. split; simpl; rewrite ?count_empty; [lia|done|done]. Qed.

Lemma server_step_ok n a s s' : server_ok n s → server_step a s = Some s' → server_ok n s'.
Proof.
  intros [Hp Hc He]. unfold server_step. destruct (sl_running s) eqn:Er; [|done]. simpl.
  destruct a as [id| |id|id lagged|id|]; simpl.
  - destruct (N.eqb_spec (sl_permits s) 0); [intros [= <-]; by split; [..|rewrite Er]|].
    destruct (sl_consumers s !! id) eqn:Hi; [done|]. intros [= <-].
    split; simpl; [..|by rewrite Er]; rewrite count_insert_new by done; simpl; lia.
  - intros [= <-]. by split; [..|rewrite Er].
  - destruct (sl_consumers s !! id) as [[]|] eqn:Hi; try done. intros [= <-].
    pose proof (count_insert holds_permit _ _ _ Serving Hi). pose proof (count_insert is_serving _ _ _ Serving Hi).
    simpl in *. split; simpl; [lia|lia|by rewrite Er].
  - destruct (sl_consumers s !! id) as [[]|] eqn:Hi; try done. intros [= <-].
    pose proof (count_insert holds_permit _ _ _ Ended Hi). pose proof (count_insert is_serving _ _ _ Ended Hi).
    simpl in *. split; simpl; [lia|lia|by rewrite Er].
  - destruct (sl_consumers s !! id) as [[]|] eqn:Hi; try done. intros [= <-].
    pose proof (count_delete holds_permit _ _ _ Hi). pose proof (count_delete is_serving _ _ _ Hi).
    simpl in *. split; simpl; [lia|lia|by rewrite Er].
  - intros [= <-]. split; simpl; rewrite ?count_empty; [lia|lia|done].
Qed.

Lemma server_run_ok n actions s s' : server_ok n s → server_run actions s = Some s' → server_ok n s'.
Proof.
  revert s; induction actions as [|a actions IH]; intros s Hok; simpl; [by intros [= <-]|].
  destruct (server_step a s) as [s1|] eqn:E; [|done]. simpl. apply IH. by eapply server_step_ok.
Qed.

(** The server never serves more consumers than configured, it turns a new connection away
    exactly when all places are taken, the gauge counts the consumers being served, and shutting down
    leaves no consumer behind. *)
Lemma server_capacity actions n s id :
  server_run actions (run_server n) = Some s → sl_consumers s !! id = None →
  sl_connected s = N.of_nat (count is_serving (sl_consumers s)) ∧ sl_connected s ≤ n ∧
  (sl_running s = true →
     ∃ s', server_step (Accept id) s = Some s' ∧
       (is_Some (sl_consumers s' !! id) ↔ N.of_nat (count holds_permit (sl_consumers s)) < n)) ∧
  (sl_running s = false → sl_consumers s = ∅).
Proof.
  intros Hrun Hid. pose proof (server_run_ok n actions _ _ (run_server_ok n) Hrun) as [Hp Hc He].
  assert (count is_serving (sl_consumers s) ≤ count holds_permit (sl_consumers s))%nat.
  { apply count_le. by intros []. }
  split_and!; [done|lia| |done]. intros Er. unfold server_step. rewrite Er. simpl.
  destruct (N.eqb_spec (sl_permits s) 0) as [E|E].
  - exists s. split; [done|]. rewrite Hid. split; [by intros [? [=]]|lia].
  - rewrite Hid. eexists. split; [done|]. simpl. rewrite lookup_insert_eq. split; [lia|eauto].
Qed.
