(* ===== verification/Feed.v ===== *)
(** * The producer's events and change extraction (src/src/feed.rs)

    The compact events handed from Reth's validation thread to the publisher,
    the resolution of an applied forkchoice, and the filter that projects an
    execution bundle onto the watched keys.  The lossy queue between the two
    threads is in [Queue]. *)

From S2P Require Import Prelude Bytes Config Watch.
From stdpp Require Import list.
Local Open Scope N_scope.

Record BlockMeta := {
  bm_number : N;
  bm_hash : B256;
  bm_parent_hash : B256;
  bm_timestamp : N;
}.

Record CheckpointMeta := {
  cp_number : N;
  cp_hash : B256;
}.

Record ForkchoiceMeta := {
  fc_head : CheckpointMeta;
  fc_safe : option CheckpointMeta;
  fc_finalized : option CheckpointMeta;
}.

Record AppliedForkchoiceMeta := {
  af_head_hash : B256;
  af_safe : option CheckpointMeta;
  af_finalized : option CheckpointMeta;
}.

#[export] Instance BlockMeta_eq_dec : EqDecision BlockMeta.
Proof. solve_decision. Defined.
#[export] Instance CheckpointMeta_eq_dec : EqDecision CheckpointMeta.
Proof. solve_decision. Defined.
#[export] Instance ForkchoiceMeta_eq_dec : EqDecision ForkchoiceMeta.
Proof. solve_decision. Defined.
#[export] Instance AppliedForkchoiceMeta_eq_dec : EqDecision AppliedForkchoiceMeta.
Proof. solve_decision. Defined.

(** [AppliedForkchoiceMeta::resolve]. *)
Definition resolve (a : AppliedForkchoiceMeta) (head_number : N) : ForkchoiceMeta :=
  let coherent (checkpoint : CheckpointMeta) :=
    if cp_number checkpoint <=? head_number then Some checkpoint else None in
  {| fc_head := {| cp_number := head_number; cp_hash := af_head_hash a |};
     fc_safe := af_safe a ≫= coherent;
     fc_finalized := af_finalized a ≫= coherent |}.

(** Instants are nanoseconds on the process's monotonic clock. *)
Inductive FeedEvent :=
| Executed (observed_at generation : N) (block : BlockMeta) (changes : BlockChanges)
| Validated (observed_at generation : N) (block_hash : B256)
| ValidatedFallback (observed_at generation : N) (block : BlockMeta) (changes : BlockChanges)
| CanonicalStateReset (observed_at generation : N) (head : CheckpointMeta)
| ForkchoiceApplied (observed_at generation : N) (view : AppliedForkchoiceMeta)
| Rejected (observed_at generation : N) (block_hash : B256) (reason : string).

Inductive ControlEvent :=
| ActivateConfig (watch_set : WatchSet).

(** ** Execution output, as far as extraction observes it

    [StorageSlot::is_changed]/[present_value] and [BundleAccount::was_destroyed] are Reth's;
    a slot and an account are the values those methods return. *)
Record StorageSlot := {
  is_changed : bool;
  present_value : U256;
}.

Record BundleAccount := {
  was_destroyed : bool;
  storage : gmap N StorageSlot;
}.

Record BundleState := {
  bundle_state : gmap N BundleAccount;
}.

(** The key lookup inside [extract_account_changes]: the hash index when there is one,
    binary search otherwise. *)
Definition watched_key_id (aw : AddressWatch) (slot_key : U256) : option N :=
  if decide (aw_slot_to_key aw = ∅) then
    match binary_search_by_slot (aw_slots aw) slot_key with
    | Some index => sw_key_id <$> aw_slots aw !! index
    | None => None
    end
  else aw_slot_to_key aw !! slot_key.

Section extract.
Context `{HashIter}.

(** The branch that scans the watched slots of the account. *)
Definition scan_watched (destroyed : bool) (account : BundleAccount) (watched : SlotWatch)
    : BlockChanges :=
  match storage account !! sw_slot watched with
  | Some slot =>
      if is_changed slot || destroyed
      then [{| sc_key_id := sw_key_id watched; sc_new_value := present_value slot |}]
      else []
  | None =>
      if destroyed then [{| sc_key_id := sw_key_id watched; sc_new_value := 0 |}] else []
  end.

(** The branch that scans the account's storage diff. *)
Definition scan_storage (aw : AddressWatch) (entry : N * StorageSlot) : BlockChanges :=
  if negb (is_changed entry.2) then []
  else match watched_key_id aw entry.1 with
       | Some key_id => [{| sc_key_id := key_id; sc_new_value := present_value entry.2 |}]
       | None => []
       end.

Definition extract_account_changes (aw : AddressWatch) (account : BundleAccount)
    (changes : BlockChanges) : BlockChanges :=
  let destroyed := was_destroyed account in
  if destroyed || (len (aw_slots aw) <=? N.of_nat (size (storage account)))
  then fold_left (λ acc watched, acc ++ scan_watched destroyed account watched) (aw_slots aw) changes
  else fold_left (λ acc entry, acc ++ scan_storage aw entry) (hash_iter (storage account)) changes.

Definition extract_changes (ws : WatchSet) (bundle : BundleState) : BlockChanges :=
  let state := bundle_state bundle in
  if len (ws_addresses ws) <=? N.of_nat (size state)
  then fold_left (λ changes aw,
         match state !! aw_address aw with
         | Some account => extract_account_changes aw account changes
         | None => changes
         end) (ws_addresses ws) []
  else fold_left (λ changes (entry : N * BundleAccount),
         match ws_address ws entry.1 with
         | Some aw => extract_account_changes aw entry.2 changes
         | None => changes
         end) (hash_iter state) [].
End extract.

(** ** What the producer queues

    The event each [publish_*] method builds: the instant it was called, the generation of the
    watch set loaded once at that point, and, for a bundle, the changes extracted with that same
    set. *)
Module FeedProducer.
Section events.
Context `{HashIter} (observed_at : N) (ws : WatchSet).

Definition publish_executed (block : BlockMeta) (bundle : BundleState) : FeedEvent :=
  Executed observed_at (ws_generation ws) block (extract_changes ws bundle).
Definition publish_validated (block_hash : B256) : FeedEvent :=
  Validated observed_at (ws_generation ws) block_hash.
Definition publish_validated_fallback (block : BlockMeta) (bundle : BundleState) : FeedEvent :=
  ValidatedFallback observed_at (ws_generation ws) block (extract_changes ws bundle).
Definition publish_canonical_state_reset (head : CheckpointMeta) : FeedEvent :=
  CanonicalStateReset observed_at (ws_generation ws) head.
Definition publish_forkchoice_applied (view : AppliedForkchoiceMeta) : FeedEvent :=
  ForkchoiceApplied observed_at (ws_generation ws) view.
Definition publish_rejected (block_hash : B256) (reason : string) : FeedEvent :=
  Rejected observed_at (ws_generation ws) block_hash reason.
End events.
End FeedProducer.

(** ** Reference: the change of one watched key *)

(** The post-state value a block writes to a storage coordinate, if it touches it. *)
Definition block_write (bundle : BundleState) (a : Address) (s : U256) : option U256 :=
  match bundle_state bundle !! a with
  | None => None
  | Some account =>
      match storage account !! s with
      | Some slot =>
          if is_changed slot || was_destroyed account then Some (present_value slot) else None
      | None => if was_destroyed account then Some 0 else None
      end
  end.

Definition key_change (bundle : BundleState) (k : WatchKey) : BlockChanges :=
  match block_write bundle (wk_address k) (wk_slot k) with
  | Some v => [{| sc_key_id := wk_key_id k; sc_new_value := v |}]
  | None => []
  end.

(** One scan of the dictionary, in key order. *)
Definition reference_changes (ws : WatchSet) (bundle : BundleState) : BlockChanges :=
  ws_keys ws ≫= key_change bundle.

(** ** Lemmas *)

Lemma coherent_Some (o : option CheckpointMeta) n c :
  (o ≫= λ checkpoint, if cp_number checkpoint <=? n then Some checkpoint else None) = Some c
  ↔ o = Some c ∧ cp_number c ≤ n.
Proof.
  destruct o as [d|]; simpl; [|by split; [|intros [? _]]].
  destruct (N.leb_spec (cp_number d) n); split.
  - by intros [= ->].
  - by intros [[= ->] _].
  - done.
  - intros [[= ->] ?]. lia.
Qed.

Lemma resolve_spec a n :
  fc_head (resolve a n) = {| cp_number := n; cp_hash := af_head_hash a |} ∧
  (∀ c, fc_safe (resolve a n) = Some c ↔ af_safe a = Some c ∧ cp_number c ≤ n) ∧
  (∀ c, fc_finalized (resolve a n) = Some c ↔ af_finalized a = Some c ∧ cp_number c ≤ n).
Proof. unfold resolve; simpl. split_and!; [done|intros c; apply coherent_Some..]. Qed.

Lemma fold_left_app_concat {A B} (f : A → list B) l acc :
  fold_left (λ acc x, acc ++ f x) l acc = acc ++ (l ≫= f).
Proof.
  revert acc; induction l as [|x l IH]; intros acc; simpl; [by rewrite app_nil_r|].
  by rewrite IH, <- app_assoc.
Qed.

(** Elements with equal images are equal when the image list has no duplicates. *)
Lemma fmap_inj_elem {A B} (f : A → B) l x y :
  NoDup (f <$> l) → x ∈ l → y ∈ l → f x = f y → x = y.
Proof.
  intros Hnd [i Hi]%list_elem_of_lookup [j Hj]%list_elem_of_lookup E.
  assert (i = j) as ->; [|congruence].
  eapply NoDup_lookup; [exact Hnd|by rewrite list_lookup_fmap, Hi|].
  by rewrite list_lookup_fmap, Hj, E.
Qed.

Lemma watched_key_id_Some keys aw s k :
  address_watch_wf keys aw →
  watched_key_id aw s = Some k ↔ {| sw_slot := s; sw_key_id := k |} ∈ aw_slots aw.
Proof.
  intros Hwf. pose proof (aww_nodup _ _ Hwf) as Hnd.
  assert (Hfst : NoDup ((λ w, (sw_slot w, sw_key_id w)) <$> aw_slots aw).*1).
  { by rewrite <- list_fmap_compose. }
  unfold watched_key_id. case_decide as Hd.
  - split.
    + intros Hs. destruct (binary_search_by_slot _ _) as [i|] eqn:E; [|done].
      apply binary_search_key in E as (w & Hw & <-). rewrite Hw in Hs. simplify_eq/=.
      destruct w. by eapply list_elem_of_lookup_2.
    + intros Hin. destruct (proj2 (binary_search_Some (aw_slots aw) s (aww_sorted _ _ Hwf))) as [i Hi].
      { apply list_elem_of_fmap. by exists {| sw_slot := s; sw_key_id := k |}. }
      rewrite Hi. apply binary_search_key in Hi as (w & Hw & Hs). rewrite Hw. simpl. f_equal.
      by rewrite (fmap_inj_elem sw_slot _ w _ Hnd (list_elem_of_lookup_2 _ _ _ Hw) Hin Hs).
  - rewrite (aww_index _ _ Hwf) in Hd |- *. case_match; [|done].
    rewrite collect_map_lookup by done. rewrite list_elem_of_fmap. split.
    + intros ([] & [= -> ->] & ?). done.
    + intros ?. exists {| sw_slot := s; sw_key_id := k |}. done.
Qed.

(** The change an account makes to one watched slot. *)
Definition slot_change (account : BundleAccount) (w : SlotWatch) : BlockChanges :=
  scan_watched (was_destroyed account) account w.

Lemma key_change_slot bundle account k :
  bundle_state bundle !! wk_address k = Some account →
  key_change bundle k = slot_change account (slot_watch k).
Proof.
  intros Ha. unfold key_change, block_write, slot_change, scan_watched. rewrite Ha. simpl.
  destruct (storage account !! wk_slot k) as [slot|]; [destruct (is_changed slot || _)|destruct (was_destroyed account)]; done.
Qed.

Lemma fold_left_perm_bind {A B} (g : list B → A → list B) (f : A → list B) l acc :
  (∀ acc x, x ∈ l → g acc x ≡ₚ acc ++ f x) → fold_left g l acc ≡ₚ acc ++ (l ≫= f).
Proof.
  revert acc; induction l as [|x l IH]; intros acc Hg; simpl; [by rewrite app_nil_r|].
  rewrite IH by set_solver. rewrite Hg by set_solver. by rewrite <- app_assoc.
Qed.

Lemma elem_of_slot_change_alive account w c :
  was_destroyed account = false →
  c ∈ slot_change account w ↔
    ∃ sl, storage account !! sw_slot w = Some sl ∧ is_changed sl = true ∧
      c = {| sc_key_id := sw_key_id w; sc_new_value := present_value sl |}.
Proof.
  intros Hd. unfold slot_change, scan_watched. rewrite Hd.
  destruct (storage account !! sw_slot w) as [sl|]; [rewrite orb_false_r; destruct (is_changed sl) eqn:Hc|];
    rewrite ?list_elem_of_singleton, ?elem_of_nil; split; try done.
  - intros ->. eauto.
  - by intros (? & [= <-] & _ & ->).
  - intros (? & [= <-] & ? & _). congruence.
  - by intros (? & ? & _).
Qed.

Lemma elem_of_scan_storage aw e c :
  c ∈ scan_storage aw e ↔ is_changed e.2 = true ∧
    ∃ k, watched_key_id aw e.1 = Some k ∧
      c = {| sc_key_id := k; sc_new_value := present_value e.2 |}.
Proof.
  unfold scan_storage.
  destruct (is_changed e.2); simpl; [destruct (watched_key_id aw e.1)|];
    rewrite ?list_elem_of_singleton, ?elem_of_nil; split; try done.
  - intros ->. eauto.
  - by intros (_ & ? & [= <-] & ->).
  - by intros (_ & ? & ? & _).
  - by intros [? _].
Qed.

Lemma NoDup_bind_elem {A B} (f : A → list B) l x :
  NoDup (l ≫= f) → x ∈ l → NoDup (f x).
Proof.
  induction l as [|y l IH]; simpl; [set_solver|].
  intros (Hy & _ & Hl)%NoDup_app [->|?]%elem_of_cons; auto.
Qed.

Section extract_correct.
Context `{HashIter}.

(** Both scans of one account return the same changes, up to order. *)
Lemma extract_account_changes_perm keys aw account changes :
  address_watch_wf keys aw →
  extract_account_changes aw account changes ≡ₚ changes ++ (aw_slots aw ≫= slot_change account).
Proof.
  intros Hwf. unfold extract_account_changes. case_match eqn:E.
  { by rewrite fold_left_app_concat. }
  apply orb_false_iff in E as [Hd _]. rewrite fold_left_app_concat. f_equiv.
  pose proof (elem_of_slot_change_alive account) as Hslot.
  pose proof (elem_of_scan_storage aw) as Hst.
  assert (Hinj : ∀ s s' k, watched_key_id aw s = Some k → watched_key_id aw s' = Some k → s = s').
  { intros s s' k Hs Hs'. apply (watched_key_id_Some keys) in Hs, Hs'; [|done..].
    by pose proof (fmap_inj_elem sw_key_id _ _ _ (aww_ids _ _ Hwf) Hs Hs' eq_refl) as [= ->]. }
  apply NoDup_Permutation.
  - apply NoDup_bind.
    + intros [s sl] [s' sl'] c Hin Hin' (_ & k & Hk & ->)%Hst (_ & k' & Hk' & [= <- _])%Hst. simpl in *.
      assert (s = s') as -> by eauto. apply elem_of_hash_iter in Hin, Hin'. congruence.
    + intros e _. unfold scan_storage. repeat case_match; repeat constructor; set_solver.
    + eapply NoDup_fmap_1, NoDup_hash_iter.
  - apply NoDup_bind.
    + intros w w' c Hw Hw' (? & _ & _ & ->)%(Hslot _ _ Hd) (? & _ & _ & [= E _])%(Hslot _ _ Hd).
      by apply (fmap_inj_elem sw_key_id _ _ _ (aww_ids _ _ Hwf)).
    + intros w _. unfold slot_change, scan_watched. repeat case_match; repeat constructor; set_solver.
    + eapply NoDup_fmap_1, (aww_ids _ _ Hwf).
  - intros c. rewrite !list_elem_of_bind. setoid_rewrite Hst. setoid_rewrite (λ w c, Hslot w c Hd). split.
    + intros ([s sl] & (Hc & k & Hk & ->) & Hin%elem_of_hash_iter). simpl in *.
      apply (watched_key_id_Some keys) in Hk; [|done].
      exists {| sw_slot := s; sw_key_id := k |}. split; [|done]. naive_solver.
    + intros (w & (sl & Hs & Hc & ->) & Hin).
      exists (sw_slot w, sl). simpl. rewrite elem_of_hash_iter. split; [|done]. split; [done|].
      exists (sw_key_id w). split; [|done]. apply (watched_key_id_Some keys); [done|]. by destruct w.
Qed.

(** The changes of all watched accounts present in a bundle. *)
Definition account_changes (bundle : BundleState) (aw : AddressWatch) : BlockChanges :=
  match bundle_state bundle !! aw_address aw with
  | Some account => aw_slots aw ≫= slot_change account
  | None => []
  end.

Lemma elem_of_slot_change account w c :
  c ∈ slot_change account w → sc_key_id c = sw_key_id w.
Proof. unfold slot_change, scan_watched. repeat case_match; set_solver. Qed.

Lemma elem_of_account_changes ws bundle aw c :
  watch_set_wf ws → aw ∈ ws_addresses ws →
  c ∈ account_changes bundle aw ↔
    ∃ k, k ∈ ws_keys ws ∧ wk_address k = aw_address aw ∧ c ∈ key_change bundle k.
Proof.
  intros Hwf Haw. pose proof (wsw_addresses _ Hwf) as Hf. rewrite Forall_forall in Hf.
  specialize (Hf aw Haw). unfold account_changes.
  destruct (bundle_state bundle !! aw_address aw) as [account|] eqn:E.
  - rewrite list_elem_of_bind. setoid_rewrite (aww_slots _ _ Hf). split.
    + intros (w & Hc & k & Hk & Ha & ->). exists k. split_and!; [done..|].
      rewrite (key_change_slot _ account) by congruence. done.
    + intros (k & Hk & Ha & Hc). rewrite (key_change_slot _ account) in Hc by congruence. eauto 10.
  - split; [set_solver|]. intros (k & Hk & Ha & Hc). unfold key_change, block_write in Hc.
    rewrite Ha, E in Hc. set_solver.
Qed.

Lemma key_change_id bundle k c : c ∈ key_change bundle k → sc_key_id c = wk_key_id k.
Proof. unfold key_change. case_match; set_solver. Qed.

Lemma NoDup_account_changes ws bundle :
  watch_set_wf ws → NoDup (ws_addresses ws ≫= account_changes bundle).
Proof.
  intros Hwf. apply NoDup_bind.
  - intros aw aw' c Haw Haw' Hc Hc'.
    apply (elem_of_account_changes ws) in Hc as (k & Hk & Ha & Hc); [|done..].
    apply (elem_of_account_changes ws) in Hc' as (k' & Hk' & Ha' & Hc'); [|done..].
    apply key_change_id in Hc, Hc'.
    apply list_elem_of_lookup in Hk as [i Hi]. apply list_elem_of_lookup in Hk' as [j Hj].
    pose proof (wsw_dense _ Hwf _ _ Hi). pose proof (wsw_dense _ Hwf _ _ Hj).
    assert (i = j) as -> by lia.
    apply (fmap_inj_elem aw_address _ _ _ (wsw_distinct _ Hwf)); [done..|congruence].
  - intros aw Haw. unfold account_changes. case_match; [|constructor].
    pose proof (wsw_addresses _ Hwf) as Hf. rewrite Forall_forall in Hf. specialize (Hf aw Haw).
    apply NoDup_bind; [|intros w _; unfold slot_change, scan_watched; repeat case_match; repeat constructor; set_solver|
      eapply NoDup_fmap_1, (aww_ids _ _ Hf)].
    intros w w' c Hw Hw' Hc%elem_of_slot_change Hc'%elem_of_slot_change.
    apply (fmap_inj_elem sw_key_id _ _ _ (aww_ids _ _ Hf)); congruence.
  - eapply NoDup_fmap_1, (wsw_distinct _ Hwf).
Qed.

Lemma wsw_ids_nodup ws : watch_set_wf ws → NoDup (wk_key_id <$> ws_keys ws).
Proof.
  intros Hwf. apply NoDup_alt. intros i j x. rewrite !list_lookup_fmap.
  intros (k & Hk & ->)%fmap_Some (k' & Hk' & E)%fmap_Some.
  apply (wsw_dense _ Hwf) in Hk, Hk'. lia.
Qed.

Lemma NoDup_reference_ids ws bundle :
  watch_set_wf ws → NoDup (sc_key_id <$> reference_changes ws bundle).
Proof.
  intros Hids%wsw_ids_nodup. unfold reference_changes.
  induction (ws_keys ws) as [|k keys IH]; [constructor|].
  cbn in Hids. apply NoDup_cons in Hids as [Hk Hids]. cbn [mbind list_bind]. rewrite fmap_app.
  apply NoDup_app. split_and!; [unfold key_change; case_match; repeat constructor; set_solver| |by apply IH].
  intros x (c & -> & Hc)%list_elem_of_fmap (c' & E & Hc')%list_elem_of_fmap.
  apply list_elem_of_bind in Hc' as (k' & Hc' & Hk'). apply key_change_id in Hc, Hc'.
  apply Hk, list_elem_of_fmap. exists k'. split; [congruence|done].
Qed.

Lemma account_changes_reference ws bundle :
  watch_set_wf ws →
  (ws_addresses ws ≫= account_changes bundle) ≡ₚ reference_changes ws bundle.
Proof.
  intros Hwf. apply NoDup_Permutation; [by apply NoDup_account_changes| |].
  { by eapply NoDup_fmap_1, NoDup_reference_ids. }
  intros c. unfold reference_changes. rewrite !list_elem_of_bind. split.
  - intros (aw & Hc & Haw). apply (elem_of_account_changes ws) in Hc as (k & Hk & _ & Hc); eauto.
  - intros (k & Hc & Hk). pose proof (wsw_complete _ Hwf k Hk) as (aw & Ha & Haw)%list_elem_of_fmap.
    exists aw. split; [|done]. apply (elem_of_account_changes ws); eauto.
Qed.

Lemma bind_watched_accounts ws bundle :
  watch_set_wf ws →
  (hash_iter (bundle_state bundle) ≫= λ entry : N * BundleAccount,
     match ws_address ws entry.1 with Some aw => account_changes bundle aw | None => [] end)
  ≡ₚ (ws_addresses ws ≫= account_changes bundle).
Proof.
  intros Hwf. apply NoDup_Permutation; [|by apply NoDup_account_changes|].
  - pose proof (NoDup_account_changes ws bundle Hwf) as Hnd.
    apply NoDup_bind.
    + intros [a acc] [a' acc'] c Hin Hin' Hc Hc'. simpl in *.
      destruct (ws_address ws a) as [aw|] eqn:E; [|set_solver].
      destruct (ws_address ws a') as [aw'|] eqn:E'; [|set_solver].
      apply (wsw_lookup _ Hwf) in E as [Haw <-], E' as [Haw' <-].
      apply (elem_of_account_changes ws) in Hc as (k & Hk & Ha & Hc); [|done..].
      apply (elem_of_account_changes ws) in Hc' as (k' & Hk' & Ha' & Hc'); [|done..].
      apply key_change_id in Hc, Hc'.
      assert (k = k') as <-.
      { apply (fmap_inj_elem wk_key_id _ _ _ (wsw_ids_nodup _ Hwf)); congruence. }
      rewrite <- Ha in *. rewrite <- Ha' in *. apply elem_of_hash_iter in Hin, Hin'. congruence.
    + intros [a acc] Hin. simpl. case_match eqn:E; [|constructor].
      apply (wsw_lookup _ Hwf) in E as [Haw _]. by apply (NoDup_bind_elem _ _ _ Hnd).
    + eapply NoDup_fmap_1, NoDup_hash_iter.
  - intros c. rewrite !list_elem_of_bind. split.
    + intros ([a acc] & Hc & Hin). simpl in Hc. destruct (ws_address ws a) as [aw|] eqn:E; [|set_solver].
      apply (wsw_lookup _ Hwf) in E as [Haw _]. eauto.
    + intros (aw & Hc & Haw). destruct (bundle_state bundle !! aw_address aw) as [acc|] eqn:E.
      * exists (aw_address aw, acc). rewrite elem_of_hash_iter. split; [|done]. simpl.
        by rewrite (proj2 (wsw_lookup _ Hwf _ aw)).
      * unfold account_changes in Hc. rewrite E in Hc. set_solver.
Qed.

Lemma extract_changes_perm ws bundle :
  watch_set_wf ws → extract_changes ws bundle ≡ₚ reference_changes ws bundle.
Proof.
  intros Hwf. rewrite <- account_changes_reference by done.
  pose proof (wsw_addresses _ Hwf) as Hf. rewrite Forall_forall in Hf.
  assert (Hacc : ∀ aw acc changes, aw ∈ ws_addresses ws → bundle_state bundle !! aw_address aw = Some acc →
    extract_account_changes aw acc changes ≡ₚ changes ++ account_changes bundle aw).
  { intros aw acc changes Haw Hacc. unfold account_changes. rewrite Hacc.
    by eapply extract_account_changes_perm, Hf. }
  unfold extract_changes. case_match.
  - rewrite (fold_left_perm_bind _ (account_changes bundle)); [done|].
    intros changes aw Haw. case_match eqn:E; [by apply Hacc|].
    unfold account_changes. by rewrite E, app_nil_r.
  - rewrite (fold_left_perm_bind _ (λ entry : N * BundleAccount,
      match ws_address ws entry.1 with Some aw => account_changes bundle aw | None => [] end)).
    { by apply bind_watched_accounts. }
    intros changes [a acc] Hin%elem_of_hash_iter. simpl. case_match eqn:E; [|by rewrite app_nil_r].
    apply (wsw_lookup _ Hwf) in E as [Haw <-]. by apply Hacc.
Qed.

Lemma extract_changes_ids_nodup ws bundle :
  watch_set_wf ws → NoDup (sc_key_id <$> extract_changes ws bundle).
Proof. intros Hwf. rewrite extract_changes_perm by done. by apply NoDup_reference_ids. Qed.
(** C29: [extract_changes] returns, in some order, exactly the changes of one scan of
    the dictionary of a validated configuration,
    whichever side it iterates (watched accounts or bundle accounts, watched slots or the storage
    diff) and whichever index it uses (binary search or hash map): every watched key a block writes
    or clears is reported once with its post-state value, and no other key is. *)
Theorem extract_changes_reference g c bundle :
  validate c = Ok () →
  let ws := compile g (watch c) in
  extract_changes ws bundle ≡ₚ reference_changes ws bundle ∧
  NoDup (sc_key_id <$> extract_changes ws bundle).
Proof.
  intros []%validate_ok ws. assert (watch_set_wf ws) by by apply compile_wf.
  split; [by apply extract_changes_perm|by apply extract_changes_ids_nodup].
Qed.
End extract_correct.

(** An account whose slot 1 is written and an account destroyed by the block. *)
Definition sample_bundle : BundleState := {| bundle_state :=
  {[ 7 := {| was_destroyed := false; storage := {[ 1 := {| is_changed := true; present_value := 4 |} ]} |};
     5 := {| was_destroyed := true; storage := ∅ |} ]} |}.

Lemma extract_changes_reference_witness :
  validate sample_config = Ok () ∧
  @extract_changes in_key_order (compile 1 (watch sample_config)) sample_bundle ≡ₚ
    [{| sc_key_id := 0; sc_new_value := 4 |}; {| sc_key_id := 1; sc_new_value := 0 |}].
Proof.
  assert (Hv : validate sample_config = Ok ()) by (vm_compute; reflexivity). split; [exact Hv|].
  exact (proj1 (@extract_changes_reference in_key_order 1 sample_config sample_bundle Hv)).
Defined.
