(* ===== verification/Queue.v ===== *)
(** * The lossy queue between validation and the publisher (src/src/feed.rs)

    Any number of producers call [try_send] without ever waiting; one publisher
    takes events and losses.  Every atomic operation of either side is one
    step, and the steps of the threads interleave freely.  Atomic operations
    are sequentially consistent in the model; [fetch_update] is one step, its
    inner retries being invisible.

    A ghost log records what happened in the order of those steps. *)

From S2P Require Import Prelude Bytes Config Watch Feed.
From stdpp Require Import list.
Local Open Scope N_scope.

Definition ENQUEUE_LOCKED : N := N.shiftl 1 63.
Definition DROP_COUNT_MASK : N := ENQUEUE_LOCKED - 1.

(** [record_drop]'s update of the state word. *)
Definition record_drop (state : N) : N :=
  N.lor (N.land state ENQUEUE_LOCKED)
    (N.min (saturating_add (N.land state DROP_COUNT_MASK) 1) DROP_COUNT_MASK).

(** What the log remembers. *)
Inductive LogEntry :=
| LReserved (event : FeedEvent)
| LPushed (event : FeedEvent)
| LDropped
| LTaken (loss : N)
| LRecovered
| LHandled (event : FeedEvent).

(** Where a call of [try_send] stands, named after the operation it does next. *)
Inductive ProducerPc :=
| CompareExchange (event : FeedEvent)
| CountContended
| MeterContended
| RecordContended
| NotifyLoss
| Push (event : FeedEvent)
| MeterPushed
| CountFull
| MeterFull
| RecordFull
| Release.

(** Where the publisher stands; [hand] is the event it has received and not yet handled. *)
Inductive PublisherPc :=
| SampleDepth (hand : option FeedEvent)
| LoadState (hand : option FeedEvent)
| TakeState (hand : option FeedEvent) (state : N)
| Recover (hand : option FeedEvent)
| Handle (event : FeedEvent)
| Wait
| Stopped.

(** [q_depth], [q_queued] and [q_dropped] are the producer's metrics [queue_depth], [queued_events]
    and [dropped_events]. *)
Record Queue := mkQueue {
  q_enqueue_state : N;
  q_events : list FeedEvent;
  q_capacity : N;
  q_connected : bool;
  q_loss : bool;
  q_total_dropped : N;
  q_depth : N;
  q_queued : N;
  q_dropped : N;
  q_producers : gmap N ProducerPc;
  q_publisher : PublisherPc;
  q_log : list LogEntry;
}.
#[export] Instance eta_Queue : Eta Queue := λ r,
  mkQueue (q_enqueue_state r) (q_events r) (q_capacity r) (q_connected r) (q_loss r)
    (q_total_dropped r) (q_depth r) (q_queued r) (q_dropped r) (q_producers r) (q_publisher r) (q_log r).

(** [FeedProducer::channel]. *)
Definition channel (capacity : N) : Queue :=
  mkQueue 0 [] capacity true false 0 0 0 0 ∅ (SampleDepth None) [].

Definition log (entry : LogEntry) (q : Queue) : Queue := q <| q_log ::= λ l, l ++ [entry] |>.
Definition at_pc (i : N) (pc : ProducerPc) (q : Queue) : Queue := q <| q_producers ::= insert i pc |>.
Definition leave (i : N) (q : Queue) : Queue := q <| q_producers ::= delete i |>.

(** The next operation of producer [i] inside [try_send]. *)
Definition producer_step (i : N) (q : Queue) : option Queue :=
  match q_producers q !! i with
  | None => None
  | Some (CompareExchange event) =>
      Some (if q_enqueue_state q =? 0
            then at_pc i (Push event) (log (LReserved event) (q <| q_enqueue_state := ENQUEUE_LOCKED |>))
            else at_pc i CountContended q)
  | Some CountContended =>
      Some (at_pc i MeterContended (log LDropped (q <| q_enqueue_state ::= record_drop |>)))
  | Some MeterContended =>
      Some (at_pc i RecordContended (q <| q_total_dropped ::= λ n, wrapping_add n 1 |>))
  | Some RecordContended => Some (at_pc i NotifyLoss (q <| q_dropped ::= N.add 1 |>))
  | Some NotifyLoss => Some (leave i (q <| q_loss := true |>))
  | Some (Push event) =>
      Some (if negb (q_connected q) then at_pc i Release q
            else if q_capacity q <=? len (q_events q) then at_pc i CountFull q
            else at_pc i MeterPushed (log (LPushed event) (q <| q_events ::= λ l, l ++ [event] |>)))
  | Some MeterPushed => Some (at_pc i Release (q <| q_queued ::= N.add 1 |>))
  | Some CountFull =>
      Some (at_pc i MeterFull (log LDropped (q <| q_enqueue_state ::= record_drop |>)))
  | Some MeterFull =>
      Some (at_pc i RecordFull (q <| q_total_dropped ::= λ n, wrapping_add n 1 |>))
  | Some RecordFull => Some (at_pc i Release (q <| q_dropped ::= N.add 1 |>))
  | Some Release =>
      let previous := q_enqueue_state q in
      let q := q <| q_enqueue_state ::= λ n, N.land n DROP_COUNT_MASK |> in
      Some (if N.land previous DROP_COUNT_MASK =? 0 then leave i q else at_pc i NotifyLoss q)
  end.

(** The publisher's next operation: [take_pending_loss] at the top of the loop and again with an
    event in hand, recovery while it reports a loss, then the event.  [spurious] is a failure of
    [compare_exchange_weak] without a reason. *)
Definition publisher_step (spurious : bool) (q : Queue) : option Queue :=
  match q_publisher q with
  | SampleDepth hand => Some (q <| q_depth := len (q_events q) |> <| q_publisher := LoadState hand |>)
  | LoadState hand => Some (q <| q_publisher := TakeState hand (q_enqueue_state q) |>)
  | TakeState hand state =>
      Some (if negb (N.land state ENQUEUE_LOCKED =? 0) || (state =? 0)
            then q <| q_publisher := match hand with Some event => Handle event | None => Wait end |>
            else if (q_enqueue_state q =? state) && negb spurious
            then log (LTaken state) (q <| q_enqueue_state := 0 |> <| q_publisher := Recover hand |>)
            else q <| q_publisher := TakeState hand (q_enqueue_state q) |>)
  | Recover hand => Some (log LRecovered (q <| q_publisher := SampleDepth hand |>))
  | Handle event => Some (log (LHandled event) (q <| q_publisher := SampleDepth None |>))
  | Wait | Stopped => None
  end.

Inductive Action :=
| Call (i : N) (event : FeedEvent)
| Produce (i : N)
| Publish (spurious : bool)
| Receive
| WakeOnLoss
| WakeOnTimer
| Stop.

(** One step of the system.  A waiting publisher is woken by an event, by the loss channel, or by
    its timer or a control request; when it stops, the receiver and what it holds are gone. *)
Definition queue_step (a : Action) (q : Queue) : option Queue :=
  match a with
  | Call i event =>
      match q_producers q !! i with
      | None => Some (at_pc i (CompareExchange event) q)
      | Some _ => None
      end
  | Produce i => producer_step i q
  | Publish spurious => publisher_step spurious q
  | Receive =>
      match q_publisher q, q_events q with
      | Wait, event :: rest => Some (q <| q_events := rest |> <| q_publisher := SampleDepth (Some event) |>)
      | _, _ => None
      end
  | WakeOnLoss =>
      match q_publisher q with
      | Wait => if q_loss q then Some (q <| q_loss := false |> <| q_publisher := SampleDepth None |>) else None
      | _ => None
      end
  | WakeOnTimer =>
      match q_publisher q with
      | Wait => Some (q <| q_publisher := SampleDepth None |>)
      | _ => None
      end
  | Stop =>
      if q_connected q
      then Some (q <| q_connected := false |> <| q_events := [] |> <| q_publisher := Stopped |>)
      else None
  end.

Fixpoint queue_run (actions : list Action) (q : Queue) : option Queue :=
  match actions with
  | [] => Some q
  | a :: actions => q ← queue_step a q; queue_run actions q
  end.

(** ** The state word *)

(** A word with the lock bit and [n] drops. *)
Definition word (locked : bool) (n : N) : N := (if locked then ENQUEUE_LOCKED else 0) + n.

Lemma word_count locked n : n ≤ DROP_COUNT_MASK → N.land (word locked n) DROP_COUNT_MASK = n.
Proof.
  intros Hn. change DROP_COUNT_MASK with (N.ones 63) in *. rewrite N.land_ones.
  change (N.ones 63) with (2 ^ 63 - 1) in Hn. unfold word. destruct locked.
  - change ENQUEUE_LOCKED with (1 * 2 ^ 63). rewrite N.add_comm, N.Div0.mod_add. apply N.mod_small. lia.
  - apply N.mod_small. lia.
Qed.

Lemma word_lock locked n :
  n ≤ DROP_COUNT_MASK → N.land (word locked n) ENQUEUE_LOCKED = if locked then ENQUEUE_LOCKED else 0.
Proof.
  intros Hn. change ENQUEUE_LOCKED with (2 ^ 63) in *. change DROP_COUNT_MASK with (2 ^ 63 - 1) in Hn.
  apply N.bits_inj. intros k. rewrite N.land_spec, N.pow2_bits_eqb.
  destruct (N.eqb_spec 63 k) as [<-|Hk].
  - rewrite andb_true_r. apply N.b2n_inj. rewrite N.testbit_spec'. unfold word. destruct locked.
    + rewrite N.pow2_bits_eqb, N.eqb_refl. change ENQUEUE_LOCKED with (1 * 2 ^ 63).
      rewrite N.add_comm, N.div_add, (N.div_small n) by lia. done.
    + rewrite N.div_small by lia. done.
  - rewrite andb_false_r. destruct locked; [|by rewrite N.bits_0]. rewrite N.pow2_bits_eqb.
    by destruct (N.eqb_spec 63 k).
Qed.

Lemma word_zero locked n : word locked n = 0 ↔ locked = false ∧ n = 0.
Proof.
  unfold word. assert (ENQUEUE_LOCKED ≠ 0) by done. destruct locked; [|naive_solver lia].
  split; [lia|naive_solver].
Qed.

Lemma record_drop_word locked n :
  n ≤ DROP_COUNT_MASK → record_drop (word locked n) = word locked (N.min (n + 1) DROP_COUNT_MASK).
Proof.
  intros Hn. unfold record_drop. rewrite word_lock, word_count by done.
  unfold saturating_add. assert (n + 1 ≤ u64_max) by (unfold u64_max; change DROP_COUNT_MASK with (2 ^ 63 - 1) in Hn; lia).
  rewrite (N.min_l (n + 1) u64_max) by done. set (m := N.min (n + 1) DROP_COUNT_MASK).
  assert (m ≤ DROP_COUNT_MASK) by (unfold m; lia).
  unfold word. destruct locked; [|done]. rewrite N.lor_comm, <- N.lxor_lor, N.add_comm, N.add_nocarry_lxor; [done|..];
    rewrite <- (word_lock false m) by done; change (word false m) with m; apply N.bits_inj; intros k;
    rewrite ?N.bits_0, !N.land_spec; pose proof (word_lock false m ltac:(done)) as E; apply N.bits_inj_iff in E;
    specialize (E k); rewrite N.bits_0, N.land_spec in E; change (word false m) with m in E; by rewrite ?E.
Qed.

(** ** What the log promises *)

(** Where a log leaves the queue: the drops since the last take, and whether a taken loss is still
    being recovered from. *)
Record LogState := mkLogState { ls_pending : N; ls_recovering : bool }.

Definition log_step (s : LogState) (entry : LogEntry) : option LogState :=
  match entry with
  | LReserved _ => if ls_pending s =? 0 then Some s else None
  | LPushed _ => Some s
  | LDropped => Some (mkLogState (ls_pending s + 1) (ls_recovering s))
  | LTaken loss =>
      if (0 <? ls_pending s) && (loss =? N.min (ls_pending s) DROP_COUNT_MASK) && negb (ls_recovering s)
      then Some (mkLogState 0 true) else None
  | LRecovered => Some (mkLogState (ls_pending s) false)
  | LHandled _ => if ls_recovering s then None else Some s
  end.

(** A log in which nothing is reserved while a drop is pending, every take reports the drops since
    the previous one, and nothing is handled during a recovery. *)
Fixpoint log_scan (l : list LogEntry) (s : LogState) : option LogState :=
  match l with
  | [] => Some s
  | entry :: l => s ← log_step s entry; log_scan l s
  end.

Lemma log_scan_app l l' s : log_scan (l ++ l') s = log_scan l s ≫= log_scan l'.
Proof.
  revert s; induction l as [|entry l IH]; intros s; [done|]. simpl.
  destruct (log_step s entry); simpl; [apply IH|done].
Qed.

Lemma log_scan_pending l s s' :
  log_scan l s = Some s' → 0 < ls_pending s → (∀ n, LTaken n ∉ l) → 0 < ls_pending s'.
Proof.
  revert s; induction l as [|entry l IH]; intros s; simpl; [by intros [= <-]|].
  destruct (log_step s entry) as [s1|] eqn:E; [|done]. simpl. intros Hs Hp Hn.
  apply (IH s1); [done| |set_solver].
  destruct entry; simpl in E; repeat case_match; simplify_eq/=; try done; [lia|]. destruct (Hn loss). left.
Qed.

Lemma log_scan_recovering l s s' :
  log_scan l s = Some s' → ls_recovering s = true → LRecovered ∉ l → ls_recovering s' = true.
Proof.
  revert s; induction l as [|entry l IH]; intros s; simpl; [by intros [= <-]|].
  destruct (log_step s entry) as [s1|] eqn:E; [|done]. simpl. intros Hs Hp Hn.
  apply (IH s1); [done| |set_solver].
  destruct entry; simpl in E; repeat case_match; simplify_eq; try done. destruct Hn. left.
Qed.

Definition initial_log : LogState := mkLogState 0 false.

(** Splits a scanned log at an entry. *)
Lemma log_scan_split l1 entry l2 s s' :
  log_scan (l1 ++ entry :: l2) s = Some s' →
  ∃ s1 s2, log_scan l1 s = Some s1 ∧ log_step s1 entry = Some s2 ∧ log_scan l2 s2 = Some s'.
Proof.
  rewrite log_scan_app. destruct (log_scan l1 s) as [s1|]; [|done]. simpl.
  destruct (log_step s1 entry) as [s2|] eqn:E; [|done]. eauto.
Qed.

Lemma scan_reserve_after_drop l1 l2 event l3 s :
  log_scan (l1 ++ LDropped :: l2 ++ LReserved event :: l3) initial_log = Some s → ∃ n, LTaken n ∈ l2.
Proof.
  intros (s1 & s2 & _ & [= <-] & Hl)%log_scan_split.
  apply log_scan_split in Hl as (s3 & s4 & H2 & H3 & _).
  destruct (existsb (λ e, if e is LTaken _ then true else false) l2) eqn:Hx.
  - apply existsb_exists in Hx as ([] & Hin & ?); try done. exists loss. by apply list_elem_of_In.
  - assert (0 < ls_pending s3) as Hp.
    { eapply log_scan_pending; [done|simpl; lia|]. intros n Hn. apply not_true_iff_false in Hx. apply Hx.
      apply existsb_exists. exists (LTaken n). split; [by apply list_elem_of_In|done]. }
    simpl in H3. destruct (N.eqb_spec (ls_pending s3) 0); [lia|done].
Qed.

Lemma scan_handle_after_take l1 n l2 event l3 s :
  log_scan (l1 ++ LTaken n :: l2 ++ LHandled event :: l3) initial_log = Some s → LRecovered ∈ l2.
Proof.
  intros (s1 & s2 & _ & Ht & Hl)%log_scan_split. simpl in Ht. case_match; [|done]. injection Ht as <-.
  apply log_scan_split in Hl as (s3 & s4 & H2 & H3 & _).
  destruct (existsb (λ e, if e is LRecovered then true else false) l2) eqn:Hx.
  - apply existsb_exists in Hx as ([] & Hin & ?); try done. by apply list_elem_of_In.
  - assert (ls_recovering s3 = true) as Hp.
    { eapply log_scan_recovering; [done|done|]. intros Hn. apply not_true_iff_false in Hx. apply Hx.
      apply existsb_exists. exists LRecovered. split; [by apply list_elem_of_In|done]. }
    simpl in H3. by rewrite Hp in H3.
Qed.

(** ** Counting producers *)

Definition holds (pc : ProducerPc) : bool :=
  match pc with Push _ | MeterPushed | CountFull | MeterFull | RecordFull | Release => true | _ => false end.
(** Producers that still reach [notify_loss] if a drop is pending when they release. *)
Definition notifies (pc : ProducerPc) : bool :=
  match pc with MeterContended | RecordContended | NotifyLoss => true | _ => holds pc end.
Definition meters (pc : ProducerPc) : bool :=
  match pc with MeterContended | MeterFull => true | _ => false end.
(** Producers that have dropped or queued their event and not yet counted it in the metrics. *)
Definition unrecorded (pc : ProducerPc) : bool :=
  match pc with RecordContended | RecordFull => true | _ => meters pc end.
Definition unqueued (pc : ProducerPc) : bool := match pc with MeterPushed => true | _ => false end.

(** ** The invariant *)

Definition pushed (l : list LogEntry) : list FeedEvent := omap (λ e, if e is LPushed x then Some x else None) l.
Definition handled (l : list LogEntry) : list FeedEvent := omap (λ e, if e is LHandled x then Some x else None) l.
Definition drops (l : list LogEntry) : N := len (omap (λ e, if e is LDropped then Some () else None) l).

Definition hand (pc : PublisherPc) : list FeedEvent :=
  match pc with
  | SampleDepth h | LoadState h | TakeState h _ | Recover h => option_list h
  | Handle event => [event]
  | Wait | Stopped => []
  end.

(** The publisher will look at the state word again without being woken. *)
Definition awake (pc : PublisherPc) : bool :=
  match pc with
  | SampleDepth _ | LoadState _ | Recover _ | Handle _ | Stopped => true
  | TakeState hand state =>
      bool_decide (is_Some hand) || ((N.land state ENQUEUE_LOCKED =? 0) && negb (state =? 0))
  | Wait => false
  end.

Record queue_inv (q : Queue) (pending : N) (recovering locked : bool) : Prop := {
  qi_scan : log_scan (q_log q) initial_log = Some (mkLogState pending recovering);
  qi_word : q_enqueue_state q = word locked (N.min pending DROP_COUNT_MASK);
  qi_holder : count holds (q_producers q) = Nat.b2n locked;
  qi_recovering : recovering = true → match q_publisher q with Recover _ | Stopped => True | _ => False end;
  qi_wake : 0 < pending → q_loss q = true ∨ (0 < count notifies (q_producers q))%nat ∨ awake (q_publisher q) = true;
  qi_capacity : len (q_events q) ≤ q_capacity q;
  qi_connected : q_connected q = negb (if q_publisher q is Stopped then true else false);
  qi_handled : handled (q_log q) `prefix_of` pushed (q_log q);
  qi_fifo : q_connected q = true →
    pushed (q_log q) = handled (q_log q) ++ hand (q_publisher q) ++ q_events q;
  qi_total : (q_total_dropped q + N.of_nat (count meters (q_producers q))) mod (u64_max + 1) =
    drops (q_log q) mod (u64_max + 1);
  qi_dropped : q_dropped q + N.of_nat (count unrecorded (q_producers q)) = drops (q_log q);
  qi_queued : q_queued q + N.of_nat (count unqueued (q_producers q)) = len (pushed (q_log q));
  qi_depth : q_depth q ≤ q_capacity q;
}.

Definition queue_ok (q : Queue) : Prop := ∃ pending recovering locked, queue_inv q pending recovering locked.

Lemma channel_ok capacity : queue_ok (channel capacity).
Proof. exists 0, false, false. split; try done; unfold len; simpl; lia. Qed.

Lemma pushed_snoc l e : pushed (l ++ [e]) = pushed l ++ (if e is LPushed x then [x] else []).
Proof. unfold pushed. rewrite omap_app. by destruct e. Qed.
Lemma handled_snoc l e : handled (l ++ [e]) = handled l ++ (if e is LHandled x then [x] else []).
Proof. unfold handled. rewrite omap_app. by destruct e. Qed.
Lemma drops_snoc l e : drops (l ++ [e]) = drops l + (if e is LDropped then 1 else 0).
Proof. unfold drops, len. rewrite omap_app, length_app. destruct e; simpl; lia. Qed.
Lemma log_scan_snoc l e s s' :
  log_scan l s = Some s' → log_scan (l ++ [e]) s = log_step s' e.
Proof. intros Hl. rewrite log_scan_app, Hl. simpl. by destruct (log_step s' e). Qed.

Lemma wrapping_add_mod a b c m :
  (a + b) mod (u64_max + 1) = c mod (u64_max + 1) → b = m + 1 →
  (wrapping_add a 1 + m) mod (u64_max + 1) = c mod (u64_max + 1).
Proof.
  intros <- ->. unfold wrapping_add. rewrite N.Div0.add_mod_idemp_l. f_equal. lia.
Qed.

Lemma total_same a b b' c :
  (a + b) mod (u64_max + 1) = c mod (u64_max + 1) → b' = b → (a + b') mod (u64_max + 1) = c mod (u64_max + 1).
Proof. by intros ? ->. Qed.

Lemma total_drop a b b' c :
  (a + b) mod (u64_max + 1) = c mod (u64_max + 1) → b' = b + 1 →
  (a + b') mod (u64_max + 1) = (c + 1) mod (u64_max + 1).
Proof. intros E ->. by rewrite N.add_assoc, <- N.Div0.add_mod_idemp_l, E, N.Div0.add_mod_idemp_l. Qed.

(** The counts after producer [i] moves from a known operation to [new], or returns. *)
Ltac moves Hi new :=
  pose proof (count_insert holds _ _ _ new Hi); pose proof (count_insert notifies _ _ _ new Hi);
  pose proof (count_insert meters _ _ _ new Hi); pose proof (count_insert unrecorded _ _ _ new Hi);
  pose proof (count_insert unqueued _ _ _ new Hi);
  match type of Hi with ?m !! ?i = _ =>
    pose proof (λ E, count_pos notifies (<[i := new]> m) i new (lookup_insert_eq _ _ _) E)
  end; cbn [holds notifies meters unrecorded unqueued Nat.b2n] in *.
Ltac returns_from Hi :=
  pose proof (count_delete holds _ _ _ Hi); pose proof (count_delete notifies _ _ _ Hi);
  pose proof (count_delete meters _ _ _ Hi); pose proof (count_delete unrecorded _ _ _ Hi);
  pose proof (count_delete unqueued _ _ _ Hi); cbn [holds notifies meters unrecorded unqueued Nat.b2n] in *.
(** The state, scan and list goals of a step that appends one entry to the log. *)
Ltac log_goals :=
  repeat match goal with H : true = true → _ |- _ => specialize (H eq_refl) end;
  rewrite ?pushed_snoc, ?handled_snoc, ?drops_snoc, ?app_nil_r, ?N.add_0_r; try done; try lia;
  try match goal with H : log_scan _ _ = Some _ |- _ => by rewrite (log_scan_snoc _ _ _ _ H) end;
  try (unfold len in *; rewrite length_app; simpl; lia);
  try (eapply total_same; [eassumption|lia]); try (eapply total_drop; [eassumption|lia]);
  try (eapply wrapping_add_mod; [eassumption|lia]).
(** The invariant after a step, from the facts about the state before it. *)
Ltac settle pending recovering locked := exists pending, recovering, locked; split; simpl; log_goals.

Lemma mask_pos : 0 < DROP_COUNT_MASK.
Proof. done. Qed.

Lemma release_ok i q q' :
  queue_ok q → q_producers q !! i = Some Release → producer_step i q = Some q' → queue_ok q'.
Proof.
  intros (pending & recovering & locked & [Hscan Hword Hhold Hrec Hwake Hcap Hconn Hpre Hfifo Htot Hdro Hque Hdep]) Hi.
  pose proof mask_pos as Hmask. unfold producer_step. rewrite Hi, Hword, word_count by lia. intros [= <-].
  assert (locked = true) as -> by (destruct locked; [done|simpl in Hhold; pose proof (count_pos holds _ _ _ Hi eq_refl); lia]).
  assert (Hrel : N.land (q_enqueue_state q) DROP_COUNT_MASK = word false (N.min pending DROP_COUNT_MASK))
    by (rewrite Hword, word_count by lia; done).
  destruct (N.eqb_spec (N.min pending DROP_COUNT_MASK) 0).
  - assert (pending = 0) as -> by lia. returns_from Hi. settle 0 recovering false.
  - moves Hi NotifyLoss. settle pending recovering false.
Qed.

Lemma producer_step_ok i q q' : queue_ok q → producer_step i q = Some q' → queue_ok q'.
Proof.
  intros Hok Hstep. destruct (q_producers q !! i) as [pc|] eqn:Hi; [|by unfold producer_step in Hstep; rewrite Hi in Hstep].
  assert (Hrel : pc = Release → queue_ok q') by (intros ->; by eapply release_ok).
  destruct Hok as (pending & recovering & locked & [Hscan Hword Hhold Hrec Hwake Hcap Hconn Hpre Hfifo Htot Hdro Hque Hdep]).
  pose proof mask_pos as Hmask. unfold producer_step in Hstep. rewrite Hi in Hstep.
  assert (Hdrop : record_drop (q_enqueue_state q) = word locked (N.min (pending + 1) DROP_COUNT_MASK)).
  { rewrite Hword, record_drop_word by lia. f_equal. lia. }
  destruct pc; simplify_eq.
  - destruct (N.eqb_spec (q_enqueue_state q) 0) as [E|E].
    + rewrite Hword in E. apply word_zero in E as [-> Hp]. assert (pending = 0) as -> by lia.
      moves Hi (Push event). settle 0 recovering true.
    + moves Hi CountContended. settle pending recovering locked.
      intros Hp. destruct (Hwake Hp) as [?|[?|?]]; [by left|right; left; lia|by right; right].
  - moves Hi MeterContended. settle (pending + 1) recovering locked.
  - moves Hi RecordContended. settle pending recovering locked.
  - moves Hi NotifyLoss. settle pending recovering locked.
  - returns_from Hi. settle pending recovering locked.
  - destruct (q_connected q) eqn:Ec; cbn [negb]; [destruct (N.leb_spec (q_capacity q) (len (q_events q)))|].
    + moves Hi CountFull. settle pending recovering locked. by rewrite Ec.
    + moves Hi MeterPushed. settle pending recovering locked; [by rewrite Ec|by apply prefix_app_r|].
      intros _. rewrite Hfifo by done. by rewrite !app_assoc.
    + moves Hi Release. settle pending recovering locked; by rewrite Ec.
  - moves Hi Release. settle pending recovering locked.
  - moves Hi MeterFull. settle (pending + 1) recovering locked.
  - moves Hi RecordFull. settle pending recovering locked.
  - moves Hi Release. settle pending recovering locked.
  - by apply Hrel.
Qed.

Lemma locked_notifier (q : Queue) pending recovering :
  queue_inv q pending recovering true → (0 < count notifies (q_producers q))%nat.
Proof.
  intros Hq. pose proof (qi_holder _ _ _ _ Hq) as Hh. simpl in Hh.
  assert (count holds (q_producers q) ≤ count notifies (q_producers q))%nat; [|lia].
  apply count_le. by intros [].
Qed.

(** A publisher that has just read the word sees a drop that is pending, unless a producer holds
    the word and will notify. *)
Lemma read_awake q h pending recovering locked :
  queue_inv q pending recovering locked → 0 < pending →
  (0 < count notifies (q_producers q))%nat ∨ awake (TakeState h (q_enqueue_state q)) = true.
Proof.
  intros Hq Hp. destruct locked; [left; by eapply locked_notifier|]. right. pose proof mask_pos.
  pose proof (qi_word _ _ _ _ Hq) as Hword. simpl. rewrite Hword, word_lock by lia. simpl.
  destruct (N.eqb_spec (word false (N.min pending DROP_COUNT_MASK)) 0) as [E|]; [|apply orb_true_r].
  apply word_zero in E as [_ ?]. lia.
Qed.

Lemma publisher_step_ok spurious q q' : queue_ok q → publisher_step spurious q = Some q' → queue_ok q'.
Proof.
  intros (pending & recovering & locked & Hq) Hstep. pose proof mask_pos as Hmask.
  pose proof Hq as [Hscan Hword Hhold Hrec Hwake Hcap Hconn Hpre Hfifo Htot Hdro Hque Hdep].
  unfold publisher_step in Hstep. destruct (q_publisher q) as [h|h|h s|h|event| |] eqn:Ep; simplify_eq/=.
  - exists pending, recovering, locked. by split; simpl; auto.
  - exists pending, recovering, locked. split; simpl; try done. intros Hp.
    right. by eapply read_awake.
  - destruct (negb (N.land s ENQUEUE_LOCKED =? 0) || (s =? 0)) eqn:Es.
    + exists pending, recovering, locked. destruct h as [event|]; split; simpl; try done.
      intros Hp. destruct (Hwake Hp) as [?|[?|Ha]]; [by left|by right; left|].
        rewrite orb_true_iff, negb_true_iff in Es. simpl in Ha. rewrite andb_true_iff, negb_true_iff in Ha.
        destruct Es, Ha; congruence.
    + apply orb_false_iff in Es as [Hl Hz]. apply negb_false_iff, N.eqb_eq in Hl. apply N.eqb_neq in Hz.
      destruct ((q_enqueue_state q =? s) && negb spurious) eqn:Ec.
      * apply andb_true_iff in Ec as [Ec _]. apply N.eqb_eq in Ec. subst s.
        rewrite Hword, word_lock in Hl by lia. destruct locked; [done|].
        assert (Hp : 0 < pending). { rewrite Hword in Hz. unfold word in Hz. lia. }
        settle 0 true false.
        rewrite (log_scan_snoc _ _ _ _ Hscan). simpl. destruct recovering; [by destruct (Hrec eq_refl)|].
        rewrite Hword. unfold word. rewrite N.add_0_l, N.eqb_refl. destruct (N.ltb_spec 0 pending); [done|lia].
      * exists pending, recovering, locked. split; simpl; try done. intros Hp.
        right. by eapply read_awake.
  - settle pending false locked.
  - destruct recovering; [by destruct (Hrec eq_refl)|].
    settle pending false locked.
    + rewrite Hfifo by done. exists (q_events q). by rewrite <- app_assoc.
    + intros _. rewrite Hfifo by done. by rewrite <- app_assoc.
Qed.

Lemma queue_step_ok a q q' : queue_ok q → queue_step a q = Some q' → queue_ok q'.
Proof.
  intros Hok Hstep. destruct a; cbn [queue_step] in Hstep;
    [|by eapply producer_step_ok|by eapply publisher_step_ok|..];
    destruct Hok as (pending & recovering & locked & Hq);
    pose proof Hq as [Hscan Hword Hhold Hrec Hwake Hcap Hconn Hpre Hfifo Htot Hdro Hque Hdep].
  - destruct (q_producers q !! i) eqn:Hi; simplify_eq. exists pending, recovering, locked.
    pose proof (count_insert_new holds _ _ (CompareExchange event) Hi).
    pose proof (count_insert_new notifies _ _ (CompareExchange event) Hi).
    pose proof (count_insert_new meters _ _ (CompareExchange event) Hi).
    pose proof (count_insert_new unrecorded _ _ (CompareExchange event) Hi).
    pose proof (count_insert_new unqueued _ _ (CompareExchange event) Hi). simpl in *.
    split; simpl; try done; try lia.
    + intros Hp. destruct (Hwake Hp) as [?|[?|?]]; [by left|right; left; lia|by right; right].
    + eapply total_same; [eassumption|lia].
  - destruct (q_publisher q) eqn:Ep; try done. destruct (q_events q) as [|event rest] eqn:Ee; simplify_eq.
    exists pending, recovering, locked. split; simpl; try done; unfold len in *; simpl in *; lia.
  - destruct (q_publisher q) eqn:Ep; try done. destruct (q_loss q) eqn:El; simplify_eq.
    exists pending, recovering, locked. split; simpl; try done; lia.
  - destruct (q_publisher q) eqn:Ep; simplify_eq. exists pending, recovering, locked.
    split; simpl; try done; lia.
  - destruct (q_connected q) eqn:Ec; simplify_eq. exists pending, recovering, locked.
    split; simpl; try done; unfold len; simpl; lia.
Qed.

Lemma queue_run_ok actions q q' : queue_ok q → queue_run actions q = Some q' → queue_ok q'.
Proof.
  revert q; induction actions as [|a actions IH]; intros q Hok; simpl; [by intros [= <-]|].
  destruct (queue_step a q) as [q1|] eqn:E; [|done]. simpl. apply IH. by eapply queue_step_ok.
Qed.

(** ** Reservations *)

Definition reserved (l : list LogEntry) : list FeedEvent := omap (λ e, if e is LReserved x then Some x else None) l.

Lemma reserved_snoc l e : reserved (l ++ [e]) = reserved l ++ (if e is LReserved x then [x] else []).
Proof. unfold reserved. rewrite omap_app. by destruct e. Qed.

(** At every moment so far, what was handled is the beginning of what was pushed, and what was pushed
    had been reserved; and a producer about to push holds the last reservation. *)
Definition ordered (l : list LogEntry) : Prop :=
  handled l `prefix_of` pushed l ∧ pushed l `sublist_of` reserved l.
Record reservations_ok (q : Queue) : Prop := {
  rv_log : ∀ l, l `prefix_of` q_log q → ordered l;
  rv_push : ∀ i event, q_producers q !! i = Some (Push event) →
    ∃ l, reserved (q_log q) = l ++ [event] ∧ pushed (q_log q) `sublist_of` l;
}.

Lemma prefix_snoc_inv {A} (l l' : list A) x : l `prefix_of` l' ++ [x] → l `prefix_of` l' ∨ l = l' ++ [x].
Proof.
  intros [k E]. destruct k as [|y k _] using rev_ind; [right; by rewrite app_nil_r in E|left].
  rewrite app_assoc in E. apply app_inj_tail in E as [-> _]. by exists k.
Qed.

(** What a step does to the log and to the producers that are about to push. *)
Definition pushing (q : Queue) (i : N) (event : FeedEvent) : Prop := q_producers q !! i = Some (Push event).
Lemma queue_step_log a q q' :
  queue_step a q = Some q' →
  match q_log q' with l' =>
    l' = q_log q ∧ (∀ i event, pushing q' i event → pushing q i event) ∨
    (∃ i event, l' = q_log q ++ [LReserved event] ∧ q_enqueue_state q = 0 ∧
       ∀ j event', pushing q' j event' → (j = i ∧ event' = event) ∨ pushing q j event') ∨
    (∃ i event, l' = q_log q ++ [LPushed event] ∧ pushing q i event ∧
       ∀ j event', pushing q' j event' → j ≠ i ∧ pushing q j event') ∨
    (∃ entry, l' = q_log q ++ [entry] ∧ (∀ event, entry ≠ LReserved event ∧ entry ≠ LPushed event) ∧
       ∀ i event, pushing q' i event → pushing q i event)
  end.
Proof.
  unfold pushing. intros Hstep. destruct a as [i event|i|spurious| | | |]; simpl in Hstep.
  - destruct (q_producers q !! i); simplify_eq/=. left. split; [done|]. intros j e.
    rewrite lookup_insert_Some. naive_solver.
  - unfold producer_step in Hstep. destruct (q_producers q !! i) as [pc|] eqn:Hi; [|done].
    destruct pc; simplify_eq/=.
    all: try (left; split; [done|]; intros j e; rewrite ?lookup_insert_Some, ?lookup_delete_Some; naive_solver).
    all: try (right; right; right; eexists; split; [done|]; split; [done|]; intros j e; rewrite lookup_insert_Some; naive_solver).
    + destruct (N.eqb_spec (q_enqueue_state q) 0) as [E|E]; simpl.
      * right. left. exists i, event. split_and!; [done..|]. intros j e. rewrite lookup_insert_Some. naive_solver.
      * left. split; [done|]. intros j e. rewrite lookup_insert_Some. naive_solver.
    + destruct (negb (q_connected q)); [|destruct (q_capacity q <=? len (q_events q))]; simpl.
      1,2: left; split; [done|]; intros j e; rewrite lookup_insert_Some; naive_solver.
      right. right. left. exists i, event. split_and!; [done..|]. intros j e. rewrite lookup_insert_Some. naive_solver.
    + left. case_match; simpl; (split; [done|]); intros j e; rewrite ?lookup_insert_Some, ?lookup_delete_Some; naive_solver.
  - unfold publisher_step in Hstep. destruct (q_publisher q); simplify_eq/=; try (by left);
      try (by right; right; right; eexists).
    repeat case_match; try (by left). right; right; right; by eexists.
  - repeat case_match; simplify_eq/=; by left.
  - repeat case_match; simplify_eq/=; by left.
  - repeat case_match; simplify_eq/=; by left.
  - repeat case_match; simplify_eq/=; by left.
Qed.

Lemma queue_step_reservations a q q' :
  queue_ok q → reservations_ok q → queue_step a q = Some q' → reservations_ok q'.
Proof.
  intros Hok [Hlog Hpush] Hstep. pose proof (queue_step_ok _ _ _ Hok Hstep) as (? & ? & ? & Hq').
  pose proof (qi_handled _ _ _ _ Hq') as Hh. destruct Hok as (pending & ? & locked & Hq).
  assert (Hsub : pushed (q_log q) `sublist_of` reserved (q_log q)) by by apply Hlog.
  assert (Hgrow : ∀ entry, q_log q' = q_log q ++ [entry] → pushed (q_log q') `sublist_of` reserved (q_log q') →
    ∀ l, l `prefix_of` q_log q' → ordered l).
  { intros entry E Hs l Hl. rewrite E in Hl. apply prefix_snoc_inv in Hl as [Hl| ->]; [by apply Hlog|]. rewrite <- E. by split. }
  destruct (queue_step_log _ _ _ Hstep) as [[E Hp]|[(i & e & E & Hz & Hp)|[(i & e & E & Hi & Hp)|(entry & E & Hne & Hp)]]].
  - split; [by rewrite E|]. rewrite E. intros i e Hi. by apply (Hpush i e), Hp.
  - assert (Es : pushed (q_log q') = pushed (q_log q)) by by rewrite E, pushed_snoc, app_nil_r.
    assert (Er : reserved (q_log q') = reserved (q_log q) ++ [e]) by by rewrite E, reserved_snoc.
    split; [eapply Hgrow; [done|]; rewrite Es, Er; by apply sublist_inserts_r|].
    intros j e' [[-> ->]|Hj]%Hp; [by exists (reserved (q_log q)); rewrite Es|]. exfalso.
    pose proof (qi_holder _ _ _ _ Hq) as Hcount. rewrite (qi_word _ _ _ _ Hq) in Hz. apply word_zero in Hz as [-> _].
    pose proof (count_pos holds _ _ _ Hj eq_refl). simpl in Hcount. lia.
  - destruct (Hpush _ _ Hi) as (l & El & Hl).
    assert (Es : pushed (q_log q') = pushed (q_log q) ++ [e]) by by rewrite E, pushed_snoc.
    assert (Er : reserved (q_log q') = reserved (q_log q)) by by rewrite E, reserved_snoc, app_nil_r.
    split; [eapply Hgrow; [done|]; rewrite Es, Er, El; by apply sublist_app|].
    intros j e' [Hne Hj]%Hp. destruct Hne. eapply (count_unique holds); [|done|done|done|done].
    rewrite (qi_holder _ _ _ _ Hq). destruct locked; simpl; lia.
  - assert (Es : pushed (q_log q') = pushed (q_log q)) by (rewrite E, pushed_snoc; destruct entry; rewrite ?app_nil_r; naive_solver).
    assert (Er : reserved (q_log q') = reserved (q_log q)) by (rewrite E, reserved_snoc; destruct entry; rewrite ?app_nil_r; naive_solver).
    split; [eapply Hgrow; [done|]; by rewrite Es, Er|]. rewrite Es, Er. intros i e Hi. by apply (Hpush i e), Hp.
Qed.

Lemma queue_run_reservations actions : ∀ q q',
  queue_ok q → reservations_ok q → queue_run actions q = Some q' → reservations_ok q'.
Proof.
  induction actions as [|a actions IH]; intros q q' Hok Hr; simpl; [by intros [= <-]|].
  destruct (queue_step a q) as [q1|] eqn:E; [|done]. simpl. apply IH; [by eapply queue_step_ok|by eapply queue_step_reservations].
Qed.

Lemma channel_reservations capacity : reservations_ok (channel capacity).
Proof. split; [|done]. intros l ->%prefix_nil_inv. by split. Qed.

(** Whatever is handled after a drop while the loss has not been taken was reserved before the drop. *)
Lemma handled_before_take l1 l2 event l3 s :
  log_scan (l1 ++ LDropped :: l2 ++ LHandled event :: l3) initial_log = Some s → (∀ n, LTaken n ∉ l2) →
  ordered (l1 ++ LDropped :: l2 ++ [LHandled event]) →
  handled (l1 ++ LDropped :: l2 ++ [LHandled event]) `sublist_of` reserved l1.
Proof.
  intros Hs Hn [[k Hh] Hsub].
  assert (Hnone : reserved l2 = []).
  { destruct (reserved l2) as [|e r] eqn:E; [done|].
    assert (He : e ∈ reserved l2) by (rewrite E; left). apply list_elem_of_omap in He as ([] & Hin & Hx); simplify_eq.
    apply list_elem_of_split in Hin as (a & b & ->). rewrite <- app_assoc in Hs. simpl in Hs.
    apply scan_reserve_after_drop in Hs as [n Ht]. destruct (Hn n). set_solver. }
  assert (Hr : reserved (l1 ++ LDropped :: l2 ++ [LHandled event]) = reserved l1).
  { unfold reserved in *. rewrite omap_app. cbn. rewrite omap_app, Hnone. simpl. by rewrite app_nil_r. }
  rewrite Hr, Hh in Hsub. etrans; [|exact Hsub]. by apply sublist_inserts_r.
Qed.

(** ** The queue's contract *)

(** C16: A loss is never hidden.  In every interleaving of the producers with the publisher: no event
    obtains the enqueue reservation after a drop until the publisher has taken the loss; nothing is
    handled between taking a loss and the end of the recovery it starts; and so an event that is
    handled after a drop either had its reservation before the drop, together with everything handled
    so far, or is handled after the publisher has taken the loss and recovered from it.  (An event
    that was reserved before the drop may still be pushed and handled after it: see
    [reserved_overtakes].) *)
Theorem loss_recovered_first actions capacity q :
  queue_run actions (channel capacity) = Some q →
  (∀ l1 l2 event l3, q_log q = l1 ++ LDropped :: l2 ++ LReserved event :: l3 → ∃ n, LTaken n ∈ l2) ∧
  (∀ l1 n l2 event l3, q_log q = l1 ++ LTaken n :: l2 ++ LHandled event :: l3 → LRecovered ∈ l2) ∧
  (∀ l1 l2 event l3, q_log q = l1 ++ LDropped :: l2 ++ LHandled event :: l3 →
     handled (l1 ++ LDropped :: l2 ++ [LHandled event]) `sublist_of` reserved l1 ∨
     ∃ a n b c, l2 = a ++ LTaken n :: b ++ LRecovered :: c).
Proof.
  intros Hrun. destruct (queue_run_ok _ _ _ (channel_ok capacity) Hrun) as (? & ? & ? & Hq).
  destruct (queue_run_reservations _ _ _ (channel_ok capacity) (channel_reservations capacity) Hrun) as [Hlog _].
  pose proof (qi_scan _ _ _ _ Hq) as Hs. split_and!.
  - intros * E. rewrite E in Hs. by eapply scan_reserve_after_drop.
  - intros * E. rewrite E in Hs. by eapply scan_handle_after_take.
  - intros * E. rewrite E in Hs, Hlog.
    destruct (existsb (λ e, if e is LTaken _ then true else false) l2) eqn:Hx; [right|left].
    + apply existsb_exists in Hx as ([] & Hin%list_elem_of_In & ?); try done.
      apply list_elem_of_split in Hin as (a & b & ->). rewrite <- app_assoc, app_comm_cons, app_assoc in Hs.
      apply scan_handle_after_take in Hs as Hb. apply list_elem_of_split in Hb as (b1 & c & ->). eauto.
    + eapply handled_before_take; [exact Hs| |].
      * intros n Hn. apply not_true_iff_false in Hx. apply Hx. apply existsb_exists. exists (LTaken n). by rewrite <- list_elem_of_In.
      * apply Hlog. exists l3. rewrite <- app_assoc. simpl. by rewrite <- app_assoc.
Qed.

(** C17: No wake-up is lost: when every producer has returned, the publisher is blocked and a loss
    is pending, the loss channel holds a token, so the publisher is woken and its next operations
    take exactly the pending loss, recover and clear the state word. *)
Theorem no_lost_wakeup actions capacity q :
  queue_run actions (channel capacity) = Some q →
  q_producers q = ∅ → q_publisher q = Wait → q_enqueue_state q ≠ 0 →
  q_loss q = true ∧
  ∃ q', queue_run [WakeOnLoss; Publish false; Publish false; Publish false; Publish false] q = Some q' ∧
    q_enqueue_state q' = 0 ∧ q_log q' = q_log q ++ [LTaken (q_enqueue_state q); LRecovered].
Proof.
  intros Hrun Hnone Hpub Hne. destruct (queue_run_ok _ _ _ (channel_ok capacity) Hrun) as (pending & rec & locked & Hq).
  pose proof (qi_holder _ _ _ _ Hq) as Hh. pose proof (qi_word _ _ _ _ Hq) as Hword. pose proof mask_pos.
  rewrite Hnone, count_empty in Hh. destruct locked; [done|].
  assert (Hp : 0 < pending). { rewrite Hword in Hne. unfold word in Hne. lia. }
  assert (Hl : q_loss q = true).
  { destruct (qi_wake _ _ _ _ Hq Hp) as [?|[Hc|Ha]]; [done|rewrite Hnone, count_empty in Hc; lia|by rewrite Hpub in Ha]. }
  split; [done|].
  cbn [queue_run queue_step mbind option_bind]. rewrite Hpub, Hl. cbn.
  rewrite Hword, word_lock by lia. rewrite <- Hword, (proj2 (N.eqb_neq _ _) Hne), !N.eqb_refl. cbn.
  eexists. split; [done|]. simpl. by rewrite <- app_assoc.
Qed.

(** C18: At most one producer is between its reservation and its release; the queue never exceeds
    its capacity; and events are handled in the order they were queued, each once: while the
    publisher runs, the queued ones are the handled ones, the one in hand and the waiting ones. *)
Theorem queue_exclusive_fifo actions capacity q :
  queue_run actions (channel capacity) = Some q →
  (∀ i j pc pc', q_producers q !! i = Some pc → holds pc = true →
     q_producers q !! j = Some pc' → holds pc' = true → i = j) ∧
  len (q_events q) ≤ q_capacity q ∧ handled (q_log q) `prefix_of` pushed (q_log q) ∧
  (q_connected q = true → pushed (q_log q) = handled (q_log q) ++ hand (q_publisher q) ++ q_events q).
Proof.
  intros Hrun. destruct (queue_run_ok _ _ _ (channel_ok capacity) Hrun) as (? & ? & locked & Hq).
  split_and!; [|by eapply qi_capacity|by eapply qi_handled|by eapply qi_fifo].
  intros *. apply count_unique. rewrite (qi_holder _ _ _ _ Hq). destruct locked; simpl; lia.
Qed.

(** When every producer has returned, [dropped_events] is the number of events dropped so far
    (modulo 2^64), its metric and that of the queued events are exact, the depth last sampled was
    within the capacity, and the state word is the number dropped since the last take, saturated
    below the lock bit, which is clear. *)
Theorem drops_accounted actions capacity q :
  queue_run actions (channel capacity) = Some q → q_producers q = ∅ →
  q_total_dropped q mod (u64_max + 1) = drops (q_log q) mod (u64_max + 1) ∧
  q_dropped q = drops (q_log q) ∧ q_queued q = len (pushed (q_log q)) ∧ q_depth q ≤ q_capacity q ∧
  ∃ pending recovering, log_scan (q_log q) initial_log = Some (mkLogState pending recovering) ∧
    q_enqueue_state q = N.min pending DROP_COUNT_MASK.
Proof.
  intros Hrun Hnone. destruct (queue_run_ok _ _ _ (channel_ok capacity) Hrun) as (pending & rec & locked & Hq).
  pose proof (qi_holder _ _ _ _ Hq) as Hh. pose proof (qi_total _ _ _ _ Hq) as Ht.
  pose proof (qi_dropped _ _ _ _ Hq) as Hd. pose proof (qi_queued _ _ _ _ Hq) as Hu.
  rewrite Hnone, count_empty in Hh, Ht, Hd, Hu. rewrite N.add_0_r in Ht, Hd, Hu. destruct locked; [done|].
  split_and!; [done..|by eapply qi_depth|].
  exists pending, rec. split; [by eapply qi_scan|by rewrite (qi_word _ _ _ _ Hq)].
Qed.

(** A queue of two: two events fit, the third overflows, a fourth finds the loss pending; the
    publisher recovers and handles what was queued. *)
Definition sample_event (n : N) : FeedEvent := Validated n 1 n.
Definition send (i n : N) (steps : nat) : list Action := Call i (sample_event n) :: replicate steps (Produce i).
Definition sample_overflow : list Action :=
  [Publish false; Publish false; Publish false] ++ send 1 10 4 ++ send 2 11 4 ++ send 1 12 7 ++ send 2 13 5.
Definition sample_recovery : list Action :=
  [WakeOnLoss; Publish false; Publish false; Publish false; Publish false; Publish false; Publish false; Publish false;
   Receive; Publish false; Publish false; Publish false; Publish false] ++ send 1 14 4.

Definition sample_queue (actions : list Action) : Queue := default (channel 0) (queue_run actions (channel 2)).

Lemma loss_recovered_first_witness :
  q_log (sample_queue (sample_overflow ++ sample_recovery)) =
    [LReserved (sample_event 10); LPushed (sample_event 10); LReserved (sample_event 11); LPushed (sample_event 11);
     LReserved (sample_event 12); LDropped; LDropped; LTaken 2; LRecovered; LHandled (sample_event 10);
     LReserved (sample_event 14); LPushed (sample_event 14)] ∧
  ∃ n, LTaken n ∈ [LDropped; LTaken 2; LRecovered; LHandled (sample_event 10)].
Proof.
  assert (E : q_log (sample_queue (sample_overflow ++ sample_recovery)) =
    [LReserved (sample_event 10); LPushed (sample_event 10); LReserved (sample_event 11); LPushed (sample_event 11);
     LReserved (sample_event 12); LDropped; LDropped; LTaken 2; LRecovered; LHandled (sample_event 10);
     LReserved (sample_event 14); LPushed (sample_event 14)]) by (vm_compute; reflexivity).
  split; [exact E|].
  exact (proj1 (loss_recovered_first (sample_overflow ++ sample_recovery) 2 (sample_queue (sample_overflow ++ sample_recovery))
    ltac:(vm_compute; reflexivity))
    [LReserved (sample_event 10); LPushed (sample_event 10); LReserved (sample_event 11); LPushed (sample_event 11);
     LReserved (sample_event 12)] [LDropped; LTaken 2; LRecovered; LHandled (sample_event 10)]
    (sample_event 14) [LPushed (sample_event 14)] E).
Defined.

Lemma no_lost_wakeup_witness : q_loss (sample_queue sample_overflow) = true.
Proof.
  exact (proj1 (no_lost_wakeup sample_overflow 2 (sample_queue sample_overflow)
    ltac:(vm_compute; reflexivity) ltac:(vm_compute; reflexivity) ltac:(vm_compute; reflexivity)
    ltac:(vm_compute; discriminate))).
Defined.

Lemma queue_exclusive_fifo_witness : len (q_events (sample_queue sample_overflow)) ≤ 2.
Proof.
  exact (proj1 (proj2 (queue_exclusive_fifo sample_overflow 2 (sample_queue sample_overflow)
    ltac:(vm_compute; reflexivity)))).
Defined.

(** An event that holds the reservation while another producer drops: it is pushed and handled after
    the drop, because [take_pending_loss] reports nothing while the word is locked. *)
Definition sample_contention : list Action :=
  [Publish false; Publish false; Publish false] ++ send 1 10 1 ++ send 2 11 2 ++
  [Produce 1; Receive; Publish false; Publish false; Publish false; Publish false].
Example reserved_overtakes :
  q_log (sample_queue sample_contention) =
    [LReserved (sample_event 10); LDropped; LPushed (sample_event 10); LHandled (sample_event 10)].
Proof. vm_compute. reflexivity. Qed.
