(* ===== verification/Wire.v ===== *)
(** * Wire protocol (src/src/wire.rs)

    The protobuf messages with the source's fields, the capability bits and
    the length-prefixed framing.  The protobuf codec itself is generated by
    [prost] and is a parameter: the class [Prost]. *)

From S2P Require Import Prelude Bytes Config.
From stdpp Require Import list.
Local Open Scope N_scope.

Module wire.

Definition PROTOCOL_VERSION : N := 2.
Definition CAP_FULL_PROJECTIONS : N := N.shiftl 1 0.
Definition CAP_VALIDATED : N := N.shiftl 1 1.
Definition CAP_CANONICAL : N := N.shiftl 1 2.
Definition CAP_REJECTED : N := N.shiftl 1 3.
Definition CAP_EXECUTED : N := N.shiftl 1 4.
Definition CAP_FORKCHOICE_APPLIED : N := N.shiftl 1 5.
Definition CAP_CANDIDATE_RETIREMENT : N := N.shiftl 1 6.

Record Hello := {
  service_version : string;
  chain_id : N;
  genesis_hash : bytes;
  capabilities : N;
}.

Record WatchKey := {
  key_id : N;
  id : rust_string;
  address : bytes;
  slot : bytes;
}.

Record ConfigActivated := {
  keys : list WatchKey;
}.

Record BlockRef := {
  br_number : N;
  br_hash : bytes;
  br_parent_hash : bytes;
  br_timestamp : N;
}.

Record CheckpointRef := {
  cr_number : N;
  cr_hash : bytes;
}.

Record ForkchoiceView := {
  fv_head : option CheckpointRef;
  fv_safe : option CheckpointRef;
  fv_finalized : option CheckpointRef;
}.

Record Snapshot := {
  sn_block : option BlockRef;
  sn_values : bytes;
  sn_forkchoice : option ForkchoiceView;
}.

Inductive BlockStage := StageUnspecified | StageExecuted | StageValidated.

(** The [repr(i32)] discriminants and [BlockStage::try_from]. *)
Definition stage_i32 (s : BlockStage) : N :=
  match s with StageUnspecified => 0 | StageExecuted => 1 | StageValidated => 2 end.
Definition stage_try_from (n : N) : option BlockStage :=
  if n =? 0 then Some StageUnspecified else if n =? 1 then Some StageExecuted
  else if n =? 2 then Some StageValidated else None.

Record BlockState := {
  bs_stage : N;
  bs_block : option BlockRef;
  bs_values : bytes;
  bs_changed_bitmap : bytes;
}.

Record BlockValidated := {
  bv_block_hash : bytes;
}.

Record BlockRejected := {
  rj_block_hash : bytes;
  rj_reason : string;
}.

Record CanonicalHead := {
  ch_previous_block_hash : bytes;
  ch_block : option BlockRef;
  ch_values : bytes;
  ch_changed_bitmap : bytes;
}.

Record ForkchoiceApplied := {
  fa_view : option ForkchoiceView;
}.

Inductive RetirementReason :=
| ReasonUnspecified | FinalizedConflict | CacheEvicted | RetentionExpired | SourcePruned.

Definition reason_i32 (r : RetirementReason) : N :=
  match r with
  | ReasonUnspecified => 0 | FinalizedConflict => 1 | CacheEvicted => 2
  | RetentionExpired => 3 | SourcePruned => 4
  end.
Definition reason_try_from (n : N) : option RetirementReason :=
  if n =? 0 then Some ReasonUnspecified else if n =? 1 then Some FinalizedConflict
  else if n =? 2 then Some CacheEvicted else if n =? 3 then Some RetentionExpired
  else if n =? 4 then Some SourcePruned else None.

Record CandidatesRetired := {
  rt_block_hashes : list bytes;
  rt_reason : N;
}.

Record Gap := {
  gap_last_contiguous_sequence : N;
  gap_reason : string;
}.

Inductive Event :=
| EvHello (e : Hello)
| EvConfigActivated (e : ConfigActivated)
| EvSnapshot (e : Snapshot)
| EvBlockState (e : BlockState)
| EvBlockValidated (e : BlockValidated)
| EvBlockRejected (e : BlockRejected)
| EvCanonicalHead (e : CanonicalHead)
| EvGap (e : Gap)
| EvForkchoiceApplied (e : ForkchoiceApplied)
| EvCandidatesRetired (e : CandidatesRetired).

Record Envelope := {
  protocol_version : N;
  boot_id : bytes;
  sequence : N;
  config_generation : N;
  emitted_at_monotonic_ns : N;
  event : option Event;
}.

Lemma stage_round_trip s : stage_try_from (stage_i32 s) = Some s.
Proof. by destruct s. Qed.

Lemma reason_round_trip r : reason_try_from (reason_i32 r) = Some r.
Proof. by destruct r. Qed.

End wire.

#[export] Instance stage_eq_dec : EqDecision wire.BlockStage.
Proof. solve_decision. Defined.
#[export] Instance reason_eq_dec : EqDecision wire.RetirementReason.
Proof. solve_decision. Defined.

(** The generated protobuf codec. *)
Class Prost := {
  prost_encode : wire.Envelope → bytes;
  prost_decode : bytes → option wire.Envelope;
}.

Inductive EncodeError :=
| FrameTooLarge (actual limit : N)
| LengthOverflow.

Section framing.
Context `{Prost}.

Definition encoded_len (e : wire.Envelope) : N := len (prost_encode e).

(** [encode_frame]: four big-endian length bytes, then the payload. *)
Definition encode_frame (envelope : wire.Envelope) (max_frame_bytes : N)
    : outcome EncodeError bytes :=
  let payload_len := encoded_len envelope in
  if max_frame_bytes <? payload_len
  then Err (FrameTooLarge payload_len max_frame_bytes)
  else if u32_max <? payload_len then Err LengthOverflow
  else match checked_add payload_len 4 with
       | None => Err LengthOverflow
       | Some _ => Ok (be_bytes 4 payload_len ++ prost_encode envelope)
       end.

Lemma encode_frame_Ok e limit frame :
  encode_frame e limit = Ok frame ↔
  encoded_len e ≤ limit ∧ encoded_len e ≤ u32_max ∧
  frame = be_bytes 4 (encoded_len e) ++ prost_encode e.
Proof.
  unfold encode_frame, checked_add. cbv zeta.
  destruct (N.ltb_spec limit (encoded_len e)); [split; [done|lia]|].
  destruct (N.ltb_spec u32_max (encoded_len e)); [split; [done|lia]|].
  destruct (N.leb_spec (encoded_len e + 4) u64_max); [|unfold u32_max, u64_max in *; lia].
  split; [intros [= <-]; done|by intros (_ & _ & ->)].
Qed.

Lemma encode_frame_not_diverge e limit : encode_frame e limit ≠ Diverge.
Proof. unfold encode_frame. by repeat case_match. Qed.

(** An envelope no longer than one that fits also fits. *)
Lemma encode_frame_mono e e' limit frame :
  encode_frame e limit = Ok frame → encoded_len e' ≤ encoded_len e →
  ∃ frame', encode_frame e' limit = Ok frame'.
Proof. intros (? & ? & _)%encode_frame_Ok ?. eexists. apply encode_frame_Ok. split_and!; [lia..|done]. Qed.
End framing.

(** ** A codec for one kind of envelope, used where a statement is evaluated *)

Definition sample_envelope (sequence : N) : wire.Envelope :=
  {| wire.protocol_version := wire.PROTOCOL_VERSION; wire.boot_id := replicate 16 0;
     wire.sequence := sequence; wire.config_generation := 1; wire.emitted_at_monotonic_ns := 0;
     wire.event := Some (wire.EvBlockValidated {| wire.bv_block_hash := to_vec 9 |}) |}.

Definition sample_prost : Prost :=
  {| prost_encode := λ e, be_bytes 8 (wire.sequence e);
     prost_decode := λ bs, if (length bs =? 8)%nat then Some (sample_envelope (from_be_slice bs)) else None |}.
