(* ===== verification/Protobuf.v ===== *)
(** * The protobuf encoding of the messages (src/src/wire.rs: the [#[prost(...)]] attributes)

    [prost] derives the codec of a message from the field numbers and types
    that wire.rs declares.  This file writes that codec out for the protobuf
    wire format: varints, length-delimited fields, defaults left out, unknown
    fields skipped, later occurrences merged into earlier ones.  It is the
    codec with which the class [Prost] and its laws are inhabited. *)

From S2P Require Import Prelude Bytes Config Wire.
From stdpp Require Import list.
Local Open Scope N_scope.

(** ** Varints *)

(** Seven bits a byte, least significant first; a 64-bit value takes at most ten bytes. *)
Fixpoint encode_varint_aux (fuel : nat) (n : N) : bytes :=
  match fuel with
  | O => []
  | S fuel => if n <? 128 then [n] else (n mod 128 + 128) :: encode_varint_aux fuel (n / 128)
  end.
Definition encode_varint (n : N) : bytes := encode_varint_aux 10 n.

Fixpoint decode_varint_aux (fuel : nat) (bs : bytes) : option (N * bytes) :=
  match fuel, bs with
  | S fuel, b :: bs =>
      if b <? 128 then Some (b, bs)
      else if b <? 256 then '(n, bs) ← decode_varint_aux fuel bs; Some (b - 128 + 128 * n, bs)
      else None
  | _, _ => None
  end.
Definition decode_varint (bs : bytes) : option (N * bytes) :=
  '(n, bs) ← decode_varint_aux 10 bs;
  if n <=? u64_max then Some (n, bs) else None.

(** ** Fields *)

Inductive FieldValue := Varint (n : N) | Fixed64 (bs : bytes) | LengthDelimited (bs : bytes) | Fixed32 (bs : bytes).
Definition Field : Type := N * FieldValue.

Definition wire_type (v : FieldValue) : N :=
  match v with Varint _ => 0 | Fixed64 _ => 1 | LengthDelimited _ => 2 | Fixed32 _ => 5 end.

Definition encode_field (f : Field) : bytes :=
  encode_varint (f.1 * 8 + wire_type f.2) ++
  match f.2 with
  | Varint n => encode_varint n
  | Fixed64 bs | Fixed32 bs => bs
  | LengthDelimited bs => encode_varint (len bs) ++ bs
  end.
Definition encode_fields (fs : list Field) : bytes := concat (encode_field <$> fs).

(** Takes [n] bytes, if there are as many. *)
Definition split_bytes (n : N) (bs : bytes) : option (bytes * bytes) :=
  if n <=? len bs then Some (take (N.to_nat n) bs, drop (N.to_nat n) bs) else None.

(** One field; groups (wire types 3 and 4), which no proto3 message uses, are refused. *)
Definition decode_field (bs : bytes) : option (Field * bytes) :=
  '(key, bs) ← decode_varint bs;
  if (u32_max <? key) || (key / 8 =? 0) then None
  else
    let ty := key mod 8 in
    if ty =? 0 then '(n, bs) ← decode_varint bs; Some ((key / 8, Varint n), bs)
    else if ty =? 1 then '(v, bs) ← split_bytes 8 bs; Some ((key / 8, Fixed64 v), bs)
    else if ty =? 2 then
      '(n, bs) ← decode_varint bs;
      '(v, bs) ← split_bytes n bs; Some ((key / 8, LengthDelimited v), bs)
    else if ty =? 5 then '(v, bs) ← split_bytes 4 bs; Some ((key / 8, Fixed32 v), bs)
    else None.

Fixpoint decode_fields_aux (fuel : nat) (bs : bytes) : option (list Field) :=
  match bs, fuel with
  | [], _ => Some []
  | _ :: _, S fuel => '(f, bs) ← decode_field bs; fs ← decode_fields_aux fuel bs; Some (f :: fs)
  | _ :: _, O => None
  end.
(** Every field takes at least a byte. *)
Definition decode_fields (bs : bytes) : option (list Field) := decode_fields_aux (length bs) bs.

(** ** Strings *)

Definition encode_char (c : N) : bytes :=
  if c <? 128 then [c]
  else if c <? 2048 then [192 + c / 64; 128 + c mod 64]
  else if c <? 65536 then [224 + c / 4096; 128 + c / 64 mod 64; 128 + c mod 64]
  else [240 + c / 262144; 128 + c / 4096 mod 64; 128 + c / 64 mod 64; 128 + c mod 64].
Definition utf8_encode (s : rust_string) : bytes := s ≫= encode_char.

(** A Unicode scalar value. *)
Definition scalar (c : N) : bool := (c <? 55296) || (57344 <=? c) && (c <=? 1114111).

Definition continuation (b : N) : bool := (128 <=? b) && (b <? 192).

(** [str::from_utf8], a character at a time: overlong forms and surrogates are refused. *)
Definition decode_char (bs : bytes) : option (N * bytes) :=
  match bs with
  | b0 :: bs =>
      if b0 <? 128 then Some (b0, bs)
      else if b0 <? 192 then None
      else if b0 <? 224 then
        match bs with
        | b1 :: bs =>
            let c := (b0 - 192) * 64 + (b1 - 128) in
            if continuation b1 && (128 <=? c) then Some (c, bs) else None
        | _ => None
        end
      else if b0 <? 240 then
        match bs with
        | b1 :: b2 :: bs =>
            let c := (b0 - 224) * 4096 + (b1 - 128) * 64 + (b2 - 128) in
            if continuation b1 && continuation b2 && (2048 <=? c) && scalar c then Some (c, bs) else None
        | _ => None
        end
      else
        match bs with
        | b1 :: b2 :: b3 :: bs =>
            let c := (b0 - 240) * 262144 + (b1 - 128) * 4096 + (b2 - 128) * 64 + (b3 - 128) in
            if continuation b1 && continuation b2 && continuation b3 && (65536 <=? c) && scalar c
            then Some (c, bs) else None
        | _ => None
        end
  | [] => None
  end.

Fixpoint utf8_decode_aux (fuel : nat) (bs : bytes) : option rust_string :=
  match bs, fuel with
  | [], _ => Some []
  | _ :: _, S fuel => '(c, bs) ← decode_char bs; s ← utf8_decode_aux fuel bs; Some (c :: s)
  | _ :: _, O => None
  end.
Definition utf8_decode (bs : bytes) : option rust_string := utf8_decode_aux (length bs) bs.

(** Rocq strings stand for their bytes. *)
Definition string_bytes (s : string) : bytes := Ascii.N_of_ascii <$> String.list_ascii_of_string s.
Definition bytes_string (bs : bytes) : string := String.string_of_list_ascii (Ascii.ascii_of_N <$> bs).

(** ** Round trips of the pieces *)

(** Quotient and remainder as variables, for linear arithmetic. *)
Lemma div_mod_ex n d : d ≠ 0 → ∃ q r, n / d = q ∧ n mod d = r ∧ n = d * q + r ∧ r < d.
Proof. intros Hd. exists (n / d), (n mod d). split_and!; [done|done|by apply N.div_mod|by apply N.mod_lt]. Qed.

Lemma decode_encode_varint_aux fuel rest : ∀ n,
  n < 128 ^ N.of_nat (S fuel) → decode_varint_aux (S fuel) (encode_varint_aux (S fuel) n ++ rest) = Some (n, rest).
Proof.
  induction fuel as [|fuel IH]; intros n Hn.
  - simpl in Hn |- *. rewrite (proj2 (N.ltb_lt n 128)) by lia. simpl. by rewrite (proj2 (N.ltb_lt n 128)) by lia.
  - replace (N.of_nat (S (S fuel))) with (N.succ (N.of_nat (S fuel))) in Hn by lia. rewrite N.pow_succ_r' in Hn.
    set (k := S fuel) in *. cbn [encode_varint_aux]. destruct (N.ltb_spec n 128) as [Hlt|Hge]; cbn [app decode_varint_aux].
    + by rewrite (proj2 (N.ltb_lt _ _) Hlt).
    + destruct (div_mod_ex n 128 ltac:(done)) as (q & r & -> & -> & Hqr & Hr).
      rewrite (proj2 (N.ltb_ge _ _)) by lia. rewrite (proj2 (N.ltb_lt (r + 128) 256)) by lia.
      rewrite IH; [simpl; f_equal; f_equal; lia|]. lia.
Qed.

Lemma decode_encode_varint n rest : n ≤ u64_max → decode_varint (encode_varint n ++ rest) = Some (n, rest).
Proof.
  intros Hn. unfold decode_varint, encode_varint. rewrite decode_encode_varint_aux.
  - cbn [mbind option_bind]. by rewrite (proj2 (N.leb_le _ _) Hn).
  - unfold u64_max in Hn. change (128 ^ N.of_nat 10) with 1180591620717411303424. lia.
Qed.

Lemma length_varint_aux fuel : ∀ n, (length (encode_varint_aux fuel n) ≤ fuel)%nat.
Proof.
  induction fuel as [|fuel IH]; intros n; [simpl; lia|]. cbn [encode_varint_aux].
  destruct (n <? 128); simpl; [lia|]. specialize (IH (n / 128)). lia.
Qed.

Lemma length_varint n : 1 ≤ len (encode_varint n) ≤ 10.
Proof.
  unfold len. pose proof (length_varint_aux 10 n). unfold encode_varint in *. split; [|lia].
  cbn [encode_varint_aux]. destruct (n <? 128); simpl; lia.
Qed.

Lemma length_varint_mono_aux fuel : ∀ n m, n ≤ m →
  (length (encode_varint_aux fuel n) ≤ length (encode_varint_aux fuel m))%nat.
Proof.
  induction fuel as [|fuel IH]; intros n m Hnm; [done|]. cbn [encode_varint_aux].
  destruct (N.ltb_spec n 128), (N.ltb_spec m 128); simpl; [lia|lia|lia|].
  apply le_n_S, IH. by apply N.Div0.div_le_mono.
Qed.

Lemma length_varint_mono n m : n ≤ m → len (encode_varint n) ≤ len (encode_varint m).
Proof. intros Hnm. unfold len. pose proof (length_varint_mono_aux 10 n m Hnm). unfold encode_varint. lia. Qed.

Lemma split_bytes_app bs rest : split_bytes (len bs) (bs ++ rest) = Some (bs, rest).
Proof.
  unfold split_bytes, len. rewrite length_app. rewrite (proj2 (N.leb_le _ _)) by lia.
  by rewrite Nat2N.id, take_app_length, drop_app_length.
Qed.

(** A field number protobuf allows, and a value of its type. *)
Definition field_ok (f : Field) : Prop :=
  1 ≤ f.1 ≤ 536870911 ∧
  match f.2 with
  | Varint n => n ≤ u64_max
  | Fixed64 bs => len bs = 8
  | LengthDelimited bs => len bs ≤ u64_max
  | Fixed32 bs => len bs = 4
  end.

Lemma wire_type_lt v : wire_type v < 8.
Proof. destruct v; simpl; lia. Qed.

Lemma decode_encode_field f rest : field_ok f → decode_field (encode_field f ++ rest) = Some (f, rest).
Proof.
  destruct f as [tag v]. intros [Ht Hv]. simpl in Ht, Hv. unfold decode_field, encode_field. simpl fst. simpl snd.
  pose proof (wire_type_lt v) as Hw. rewrite <- app_assoc, decode_encode_varint by (unfold u64_max; lia). simpl.
  replace ((tag * 8 + wire_type v) / 8) with tag by (rewrite N.div_add_l, N.div_small by lia; lia).
  replace ((tag * 8 + wire_type v) mod 8) with (wire_type v)
    by (rewrite N.add_comm, N.Div0.mod_add; symmetry; by apply N.mod_small).
  rewrite (proj2 (N.ltb_ge _ _)) by (unfold u32_max; lia). rewrite (proj2 (N.eqb_neq tag 0)) by lia. cbn [orb].
  destruct v as [n|bs|bs|bs]; simpl wire_type; cbn [N.eqb Pos.eqb].
  - by rewrite decode_encode_varint.
  - rewrite <- Hv, split_bytes_app. done.
  - rewrite <- app_assoc, decode_encode_varint by done. simpl. by rewrite split_bytes_app.
  - rewrite <- Hv, split_bytes_app. done.
Qed.

Lemma encode_field_nonempty f : (1 ≤ length (encode_field f))%nat.
Proof. unfold encode_field. rewrite length_app. pose proof (length_varint (f.1 * 8 + wire_type f.2)). unfold len in *. lia. Qed.

Lemma decode_encode_fields_aux fs : ∀ fuel,
  Forall field_ok fs → (length (encode_fields fs) ≤ fuel)%nat → decode_fields_aux fuel (encode_fields fs) = Some fs.
Proof.
  induction fs as [|f fs IH]; intros fuel Hok Hf; [by destruct fuel|].
  apply Forall_cons in Hok as [Hf1 Hok]. unfold encode_fields in *. cbn [fmap list_fmap concat] in *.
  rewrite length_app in Hf. pose proof (encode_field_nonempty f). destruct fuel as [|fuel]; [lia|].
  destruct (encode_field f ++ concat (encode_field <$> fs)) as [|b bs] eqn:E.
  { apply (f_equal length) in E. rewrite length_app in E. simpl in E. lia. }
  cbn [decode_fields_aux]. rewrite <- E, decode_encode_field by done. simpl. rewrite IH by (done || lia). done.
Qed.

Lemma decode_encode_fields fs : Forall field_ok fs → decode_fields (encode_fields fs) = Some fs.
Proof. intros Hok. by apply decode_encode_fields_aux. Qed.

Lemma encode_fields_app fs fs' : encode_fields (fs ++ fs') = encode_fields fs ++ encode_fields fs'.
Proof. unfold encode_fields. by rewrite fmap_app, concat_app. Qed.

(** The contents of a field are no longer than the message. *)
Lemma field_length fs tag bs :
  (tag, LengthDelimited bs) ∈ fs → len bs ≤ len (encode_fields fs).
Proof.
  intros [i Hi]%list_elem_of_lookup. apply list_elem_of_split_length in Hi as (fs1 & fs2 & -> & _).
  rewrite encode_fields_app. unfold len. rewrite length_app. unfold encode_fields at 2. cbn [fmap list_fmap concat].
  rewrite length_app. unfold encode_field. simpl. rewrite !length_app. lia.
Qed.

Lemma decode_encode_char c rest : scalar c = true → decode_char (encode_char c ++ rest) = Some (c, rest).
Proof.
  intros Hc. assert (Hmax : c ≤ 1114111).
  { unfold scalar in Hc. apply orb_true_iff in Hc as [?%N.ltb_lt|[_ ?%N.leb_le]%andb_true_iff]; lia. }
  destruct (div_mod_ex c 64 ltac:(done)) as (q1 & r1 & E1 & E2 & H1 & Hr1).
  destruct (div_mod_ex q1 64 ltac:(done)) as (q2 & r2 & E3 & E4 & H2 & Hr2).
  destruct (div_mod_ex q2 64 ltac:(done)) as (q3 & r3 & E5 & E6 & H3 & Hr3).
  assert (E7 : c / 4096 = q2) by (by rewrite <- E3, <- E1, N.Div0.div_div).
  assert (E8 : c / 262144 = q3) by (by rewrite <- E5, <- E3, <- E1, !N.Div0.div_div).
  unfold encode_char. rewrite E8, E7, E1, E2, E4, E6.
  assert (Hcont : ∀ r, r < 64 → continuation (128 + r) = true).
  { intros r Hr. apply andb_true_iff. split; [apply N.leb_le|apply N.ltb_lt]; lia. }
  destruct (N.ltb_spec c 128); [simpl; by rewrite (proj2 (N.ltb_lt _ _))|].
  destruct (N.ltb_spec c 2048); [|destruct (N.ltb_spec c 65536)]; cbn [app decode_char]; cbv zeta.
  - rewrite (proj2 (N.ltb_ge (192 + q1) 128)), (proj2 (N.ltb_ge (192 + q1) 192)), (proj2 (N.ltb_lt (192 + q1) 224)) by lia.
    rewrite Hcont by done. replace ((192 + q1 - 192) * 64 + (128 + r1 - 128)) with c by lia.
    by rewrite (proj2 (N.leb_le _ _)).
  - rewrite (proj2 (N.ltb_ge (224 + q2) 128)), (proj2 (N.ltb_ge (224 + q2) 192)), (proj2 (N.ltb_ge (224 + q2) 224)),
      (proj2 (N.ltb_lt (224 + q2) 240)) by lia.
    rewrite !Hcont by done. replace ((224 + q2 - 224) * 4096 + (128 + r2 - 128) * 64 + (128 + r1 - 128)) with c by lia.
    by rewrite (proj2 (N.leb_le _ _)), Hc.
  - rewrite (proj2 (N.ltb_ge (240 + q3) 128)), (proj2 (N.ltb_ge (240 + q3) 192)), (proj2 (N.ltb_ge (240 + q3) 224)),
      (proj2 (N.ltb_ge (240 + q3) 240)) by lia.
    rewrite !Hcont by done.
    replace ((240 + q3 - 240) * 262144 + (128 + r3 - 128) * 4096 + (128 + r2 - 128) * 64 + (128 + r1 - 128)) with c by lia.
    by rewrite (proj2 (N.leb_le _ _)), Hc.
Qed.

Lemma length_encode_char c : len (encode_char c) = len_utf8 c.
Proof. unfold encode_char, len_utf8. by repeat case_match. Qed.

Lemma length_utf8_encode s : len (utf8_encode s) = string_len s.
Proof.
  induction s as [|c s IH]; [done|]. change (string_len (c :: s)) with (len_utf8 c + string_len s).
  change (utf8_encode (c :: s)) with (encode_char c ++ utf8_encode s).
  rewrite <- IH, <- length_encode_char. unfold len. rewrite length_app. lia.
Qed.

Lemma utf8_round_trip_aux s : ∀ fuel,
  Forall (λ c, scalar c = true) s → (length (utf8_encode s) ≤ fuel)%nat → utf8_decode_aux fuel (utf8_encode s) = Some s.
Proof.
  induction s as [|c s IH]; intros fuel Hs Hf; [by destruct fuel|].
  apply Forall_cons in Hs as [Hc Hs].
  change (utf8_encode (c :: s)) with (encode_char c ++ utf8_encode s) in *. rewrite length_app in Hf.
  assert (1 ≤ length (encode_char c))%nat by (unfold encode_char; repeat case_match; simpl; lia).
  destruct fuel as [|fuel]; [lia|].
  destruct (encode_char c ++ utf8_encode s) as [|b bs] eqn:E.
  { apply (f_equal length) in E. rewrite length_app in E. simpl in E. lia. }
  cbn [utf8_decode_aux]. rewrite <- E, decode_encode_char by done. simpl. rewrite IH by (done || lia). done.
Qed.

Lemma utf8_round_trip s : Forall (λ c, scalar c = true) s → utf8_decode (utf8_encode s) = Some s.
Proof. intros Hs. by apply utf8_round_trip_aux. Qed.

Lemma string_bytes_round_trip s : bytes_string (string_bytes s) = s.
Proof.
  unfold bytes_string, string_bytes. rewrite <- list_fmap_compose.
  rewrite (list_fmap_ext _ id), list_fmap_id; [apply String.string_of_list_ascii_of_string|].
  intros i a _. simpl. apply Ascii.ascii_N_embedding.
Qed.

Arguments encode_varint : simpl never.
Arguments encode_field : simpl never.
Arguments encode_fields : simpl never.
Arguments decode_fields : simpl never.

(** ** Messages *)

(** A message type: the fields of a value in tag order, the default value, and the effect of one
    decoded field. *)
Class Message (A : Type) := {
  msg_fields : A → list Field;
  msg_default : A;
  msg_merge : Field → A → option A;
}.

Section message.
Context `{Message A}.

Definition encode_message (a : A) : bytes := encode_fields (msg_fields a).

Fixpoint merge_fields (fs : list Field) (a : A) : option A :=
  match fs with
  | [] => Some a
  | f :: fs => a ← msg_merge f a; merge_fields fs a
  end.

(** [Message::merge] and [Message::decode]. *)
Definition merge_message (bs : bytes) (a : A) : option A := fs ← decode_fields bs; merge_fields fs a.
Definition decode_message (bs : bytes) : option A := merge_message bs msg_default.
End message.

(** The kinds of fields wire.rs uses; defaults are left out. *)
Definition uint_field (tag n : N) : list Field := if decide (n = 0) then [] else [(tag, Varint n)].
Definition bytes_field (tag : N) (bs : bytes) : list Field :=
  match bs with [] => [] | _ => [(tag, LengthDelimited bs)] end.
Definition message_field `{Message A} (tag : N) (o : option A) : list Field :=
  match o with None => [] | Some a => [(tag, LengthDelimited (encode_message a))] end.

(** [value as u32]. *)
Definition as_u32 (n : N) : N := n mod (u32_max + 1).

(** A string field must be UTF-8. *)
Definition merge_string (bs : bytes) : option string := s ← utf8_decode bs; Some (bytes_string bs).

#[export] Instance hello_message : Message wire.Hello := {|
  msg_fields m := bytes_field 1 (string_bytes (wire.service_version m)) ++ uint_field 2 (wire.chain_id m) ++
    bytes_field 3 (wire.genesis_hash m) ++ uint_field 4 (wire.capabilities m);
  msg_default := {| wire.service_version := ""; wire.chain_id := 0; wire.genesis_hash := []; wire.capabilities := 0 |};
  msg_merge f m :=
    let '{| wire.service_version := v; wire.chain_id := c; wire.genesis_hash := g; wire.capabilities := k |} := m in
    match f with
    | (1, LengthDelimited bs) => v ← merge_string bs; Some {| wire.service_version := v; wire.chain_id := c; wire.genesis_hash := g; wire.capabilities := k |}
    | (2, Varint c) => Some {| wire.service_version := v; wire.chain_id := c; wire.genesis_hash := g; wire.capabilities := k |}
    | (3, LengthDelimited g) => Some {| wire.service_version := v; wire.chain_id := c; wire.genesis_hash := g; wire.capabilities := k |}
    | (4, Varint k) => Some {| wire.service_version := v; wire.chain_id := c; wire.genesis_hash := g; wire.capabilities := k |}
    | (1, _) | (2, _) | (3, _) | (4, _) => None
    | _ => Some m
    end |}.

#[export] Instance watch_key_message : Message wire.WatchKey := {|
  msg_fields m := uint_field 1 (wire.key_id m) ++ bytes_field 2 (utf8_encode (wire.id m)) ++
    bytes_field 3 (wire.address m) ++ bytes_field 4 (wire.slot m);
  msg_default := {| wire.key_id := 0; wire.id := []; wire.address := []; wire.slot := [] |};
  msg_merge f m :=
    let '{| wire.key_id := k; wire.id := i; wire.address := a; wire.slot := s |} := m in
    match f with
    | (1, Varint n) => Some {| wire.key_id := as_u32 n; wire.id := i; wire.address := a; wire.slot := s |}
    | (2, LengthDelimited bs) => i ← utf8_decode bs; Some {| wire.key_id := k; wire.id := i; wire.address := a; wire.slot := s |}
    | (3, LengthDelimited a) => Some {| wire.key_id := k; wire.id := i; wire.address := a; wire.slot := s |}
    | (4, LengthDelimited s) => Some {| wire.key_id := k; wire.id := i; wire.address := a; wire.slot := s |}
    | (1, _) | (2, _) | (3, _) | (4, _) => None
    | _ => Some m
    end |}.

#[export] Instance config_message : Message wire.ConfigActivated := {|
  msg_fields m := (λ k, (1, LengthDelimited (encode_message k))) <$> wire.keys m;
  msg_default := {| wire.keys := [] |};
  msg_merge f m :=
    match f with
    | (1, LengthDelimited bs) => k ← decode_message bs; Some {| wire.keys := wire.keys m ++ [k] |}
    | (1, _) => None
    | _ => Some m
    end |}.

#[export] Instance block_ref_message : Message wire.BlockRef := {|
  msg_fields m := uint_field 1 (wire.br_number m) ++ bytes_field 2 (wire.br_hash m) ++
    bytes_field 3 (wire.br_parent_hash m) ++ uint_field 4 (wire.br_timestamp m);
  msg_default := {| wire.br_number := 0; wire.br_hash := []; wire.br_parent_hash := []; wire.br_timestamp := 0 |};
  msg_merge f m :=
    let '{| wire.br_number := n; wire.br_hash := h; wire.br_parent_hash := p; wire.br_timestamp := t |} := m in
    match f with
    | (1, Varint n) => Some {| wire.br_number := n; wire.br_hash := h; wire.br_parent_hash := p; wire.br_timestamp := t |}
    | (2, LengthDelimited h) => Some {| wire.br_number := n; wire.br_hash := h; wire.br_parent_hash := p; wire.br_timestamp := t |}
    | (3, LengthDelimited p) => Some {| wire.br_number := n; wire.br_hash := h; wire.br_parent_hash := p; wire.br_timestamp := t |}
    | (4, Varint t) => Some {| wire.br_number := n; wire.br_hash := h; wire.br_parent_hash := p; wire.br_timestamp := t |}
    | (1, _) | (2, _) | (3, _) | (4, _) => None
    | _ => Some m
    end |}.

#[export] Instance checkpoint_message : Message wire.CheckpointRef := {|
  msg_fields m := uint_field 1 (wire.cr_number m) ++ bytes_field 2 (wire.cr_hash m);
  msg_default := {| wire.cr_number := 0; wire.cr_hash := [] |};
  msg_merge f m :=
    let '{| wire.cr_number := n; wire.cr_hash := h |} := m in
    match f with
    | (1, Varint n) => Some {| wire.cr_number := n; wire.cr_hash := h |}
    | (2, LengthDelimited h) => Some {| wire.cr_number := n; wire.cr_hash := h |}
    | (1, _) | (2, _) => None
    | _ => Some m
    end |}.

(** A repeated occurrence of an embedded message is merged into the earlier one. *)
Definition merge_embedded `{Message A} (bs : bytes) (o : option A) : option (option A) :=
  a ← merge_message bs (default msg_default o); Some (Some a).

#[export] Instance view_message : Message wire.ForkchoiceView := {|
  msg_fields m := message_field 1 (wire.fv_head m) ++ message_field 2 (wire.fv_safe m) ++ message_field 3 (wire.fv_finalized m);
  msg_default := {| wire.fv_head := None; wire.fv_safe := None; wire.fv_finalized := None |};
  msg_merge f m :=
    let '{| wire.fv_head := h; wire.fv_safe := s; wire.fv_finalized := z |} := m in
    match f with
    | (1, LengthDelimited bs) => h ← merge_embedded bs h; Some {| wire.fv_head := h; wire.fv_safe := s; wire.fv_finalized := z |}
    | (2, LengthDelimited bs) => s ← merge_embedded bs s; Some {| wire.fv_head := h; wire.fv_safe := s; wire.fv_finalized := z |}
    | (3, LengthDelimited bs) => z ← merge_embedded bs z; Some {| wire.fv_head := h; wire.fv_safe := s; wire.fv_finalized := z |}
    | (1, _) | (2, _) | (3, _) => None
    | _ => Some m
    end |}.

#[export] Instance snapshot_message : Message wire.Snapshot := {|
  msg_fields m := message_field 1 (wire.sn_block m) ++ bytes_field 2 (wire.sn_values m) ++ message_field 3 (wire.sn_forkchoice m);
  msg_default := {| wire.sn_block := None; wire.sn_values := []; wire.sn_forkchoice := None |};
  msg_merge f m :=
    let '{| wire.sn_block := b; wire.sn_values := v; wire.sn_forkchoice := c |} := m in
    match f with
    | (1, LengthDelimited bs) => b ← merge_embedded bs b; Some {| wire.sn_block := b; wire.sn_values := v; wire.sn_forkchoice := c |}
    | (2, LengthDelimited v) => Some {| wire.sn_block := b; wire.sn_values := v; wire.sn_forkchoice := c |}
    | (3, LengthDelimited bs) => c ← merge_embedded bs c; Some {| wire.sn_block := b; wire.sn_values := v; wire.sn_forkchoice := c |}
    | (1, _) | (2, _) | (3, _) => None
    | _ => Some m
    end |}.

#[export] Instance block_state_message : Message wire.BlockState := {|
  msg_fields m := uint_field 1 (wire.bs_stage m) ++ message_field 2 (wire.bs_block m) ++
    bytes_field 3 (wire.bs_values m) ++ bytes_field 4 (wire.bs_changed_bitmap m);
  msg_default := {| wire.bs_stage := 0; wire.bs_block := None; wire.bs_values := []; wire.bs_changed_bitmap := [] |};
  msg_merge f m :=
    let '{| wire.bs_stage := s; wire.bs_block := b; wire.bs_values := v; wire.bs_changed_bitmap := c |} := m in
    match f with
    | (1, Varint n) => Some {| wire.bs_stage := as_u32 n; wire.bs_block := b; wire.bs_values := v; wire.bs_changed_bitmap := c |}
    | (2, LengthDelimited bs) => b ← merge_embedded bs b; Some {| wire.bs_stage := s; wire.bs_block := b; wire.bs_values := v; wire.bs_changed_bitmap := c |}
    | (3, LengthDelimited v) => Some {| wire.bs_stage := s; wire.bs_block := b; wire.bs_values := v; wire.bs_changed_bitmap := c |}
    | (4, LengthDelimited c) => Some {| wire.bs_stage := s; wire.bs_block := b; wire.bs_values := v; wire.bs_changed_bitmap := c |}
    | (1, _) | (2, _) | (3, _) | (4, _) => None
    | _ => Some m
    end |}.

#[export] Instance block_validated_message : Message wire.BlockValidated := {|
  msg_fields m := bytes_field 1 (wire.bv_block_hash m);
  msg_default := {| wire.bv_block_hash := [] |};
  msg_merge f m :=
    match f with
    | (1, LengthDelimited h) => Some {| wire.bv_block_hash := h |}
    | (1, _) => None
    | _ => Some m
    end |}.

#[export] Instance block_rejected_message : Message wire.BlockRejected := {|
  msg_fields m := bytes_field 1 (wire.rj_block_hash m) ++ bytes_field 2 (string_bytes (wire.rj_reason m));
  msg_default := {| wire.rj_block_hash := []; wire.rj_reason := "" |};
  msg_merge f m :=
    let '{| wire.rj_block_hash := h; wire.rj_reason := r |} := m in
    match f with
    | (1, LengthDelimited h) => Some {| wire.rj_block_hash := h; wire.rj_reason := r |}
    | (2, LengthDelimited bs) => r ← merge_string bs; Some {| wire.rj_block_hash := h; wire.rj_reason := r |}
    | (1, _) | (2, _) => None
    | _ => Some m
    end |}.

(** Field 1 is not used. *)
#[export] Instance canonical_head_message : Message wire.CanonicalHead := {|
  msg_fields m := bytes_field 2 (wire.ch_previous_block_hash m) ++ message_field 3 (wire.ch_block m) ++
    bytes_field 4 (wire.ch_values m) ++ bytes_field 5 (wire.ch_changed_bitmap m);
  msg_default := {| wire.ch_previous_block_hash := []; wire.ch_block := None; wire.ch_values := []; wire.ch_changed_bitmap := [] |};
  msg_merge f m :=
    let '{| wire.ch_previous_block_hash := p; wire.ch_block := b; wire.ch_values := v; wire.ch_changed_bitmap := c |} := m in
    match f with
    | (2, LengthDelimited p) => Some {| wire.ch_previous_block_hash := p; wire.ch_block := b; wire.ch_values := v; wire.ch_changed_bitmap := c |}
    | (3, LengthDelimited bs) => b ← merge_embedded bs b; Some {| wire.ch_previous_block_hash := p; wire.ch_block := b; wire.ch_values := v; wire.ch_changed_bitmap := c |}
    | (4, LengthDelimited v) => Some {| wire.ch_previous_block_hash := p; wire.ch_block := b; wire.ch_values := v; wire.ch_changed_bitmap := c |}
    | (5, LengthDelimited c) => Some {| wire.ch_previous_block_hash := p; wire.ch_block := b; wire.ch_values := v; wire.ch_changed_bitmap := c |}
    | (2, _) | (3, _) | (4, _) | (5, _) => None
    | _ => Some m
    end |}.

#[export] Instance forkchoice_applied_message : Message wire.ForkchoiceApplied := {|
  msg_fields m := message_field 1 (wire.fa_view m);
  msg_default := {| wire.fa_view := None |};
  msg_merge f m :=
    match f with
    | (1, LengthDelimited bs) => v ← merge_embedded bs (wire.fa_view m); Some {| wire.fa_view := v |}
    | (1, _) => None
    | _ => Some m
    end |}.

#[export] Instance retired_message : Message wire.CandidatesRetired := {|
  msg_fields m := ((λ h, (1, LengthDelimited h)) <$> wire.rt_block_hashes m) ++ uint_field 2 (wire.rt_reason m);
  msg_default := {| wire.rt_block_hashes := []; wire.rt_reason := 0 |};
  msg_merge f m :=
    let '{| wire.rt_block_hashes := hs; wire.rt_reason := r |} := m in
    match f with
    | (1, LengthDelimited h) => Some {| wire.rt_block_hashes := hs ++ [h]; wire.rt_reason := r |}
    | (2, Varint n) => Some {| wire.rt_block_hashes := hs; wire.rt_reason := as_u32 n |}
    | (1, _) | (2, _) => None
    | _ => Some m
    end |}.

#[export] Instance gap_message : Message wire.Gap := {|
  msg_fields m := uint_field 1 (wire.gap_last_contiguous_sequence m) ++ bytes_field 2 (string_bytes (wire.gap_reason m));
  msg_default := {| wire.gap_last_contiguous_sequence := 0; wire.gap_reason := "" |};
  msg_merge f m :=
    let '{| wire.gap_last_contiguous_sequence := n; wire.gap_reason := r |} := m in
    match f with
    | (1, Varint n) => Some {| wire.gap_last_contiguous_sequence := n; wire.gap_reason := r |}
    | (2, LengthDelimited bs) => r ← merge_string bs; Some {| wire.gap_last_contiguous_sequence := n; wire.gap_reason := r |}
    | (1, _) | (2, _) => None
    | _ => Some m
    end |}.

(** The [oneof]: a chosen variant is always encoded, even when it is empty. *)
Definition event_fields (e : wire.Event) : Field :=
  match e with
  | wire.EvHello e => (10, LengthDelimited (encode_message e))
  | wire.EvConfigActivated e => (11, LengthDelimited (encode_message e))
  | wire.EvSnapshot e => (12, LengthDelimited (encode_message e))
  | wire.EvBlockState e => (13, LengthDelimited (encode_message e))
  | wire.EvBlockValidated e => (14, LengthDelimited (encode_message e))
  | wire.EvBlockRejected e => (15, LengthDelimited (encode_message e))
  | wire.EvCanonicalHead e => (16, LengthDelimited (encode_message e))
  | wire.EvGap e => (17, LengthDelimited (encode_message e))
  | wire.EvForkchoiceApplied e => (18, LengthDelimited (encode_message e))
  | wire.EvCandidatesRetired e => (19, LengthDelimited (encode_message e))
  end.

(** Another occurrence of the variant at hand is merged, one of a different variant replaces it. *)
Definition merge_event (tag : N) (bs : bytes) (e : option wire.Event) : option wire.Event :=
  match tag with
  | 10 => m ← merge_message bs (match e with Some (wire.EvHello m) => m | _ => msg_default end); Some (wire.EvHello m)
  | 11 => m ← merge_message bs (match e with Some (wire.EvConfigActivated m) => m | _ => msg_default end); Some (wire.EvConfigActivated m)
  | 12 => m ← merge_message bs (match e with Some (wire.EvSnapshot m) => m | _ => msg_default end); Some (wire.EvSnapshot m)
  | 13 => m ← merge_message bs (match e with Some (wire.EvBlockState m) => m | _ => msg_default end); Some (wire.EvBlockState m)
  | 14 => m ← merge_message bs (match e with Some (wire.EvBlockValidated m) => m | _ => msg_default end); Some (wire.EvBlockValidated m)
  | 15 => m ← merge_message bs (match e with Some (wire.EvBlockRejected m) => m | _ => msg_default end); Some (wire.EvBlockRejected m)
  | 16 => m ← merge_message bs (match e with Some (wire.EvCanonicalHead m) => m | _ => msg_default end); Some (wire.EvCanonicalHead m)
  | 17 => m ← merge_message bs (match e with Some (wire.EvGap m) => m | _ => msg_default end); Some (wire.EvGap m)
  | 18 => m ← merge_message bs (match e with Some (wire.EvForkchoiceApplied m) => m | _ => msg_default end); Some (wire.EvForkchoiceApplied m)
  | 19 => m ← merge_message bs (match e with Some (wire.EvCandidatesRetired m) => m | _ => msg_default end); Some (wire.EvCandidatesRetired m)
  | _ => None
  end.

Definition with_event (m : wire.Envelope) (e : wire.Event) : wire.Envelope :=
  {| wire.protocol_version := wire.protocol_version m; wire.boot_id := wire.boot_id m; wire.sequence := wire.sequence m;
     wire.config_generation := wire.config_generation m;
     wire.emitted_at_monotonic_ns := wire.emitted_at_monotonic_ns m; wire.event := Some e |}.

#[export] Instance envelope_message : Message wire.Envelope := {|
  msg_fields m := uint_field 1 (wire.protocol_version m) ++ bytes_field 2 (wire.boot_id m) ++ uint_field 3 (wire.sequence m) ++
    uint_field 4 (wire.config_generation m) ++ uint_field 5 (wire.emitted_at_monotonic_ns m) ++
    match wire.event m with None => [] | Some e => [event_fields e] end;
  msg_default := {| wire.protocol_version := 0; wire.boot_id := []; wire.sequence := 0; wire.config_generation := 0;
                    wire.emitted_at_monotonic_ns := 0; wire.event := None |};
  msg_merge f m :=
    let '{| wire.protocol_version := v; wire.boot_id := b; wire.sequence := s; wire.config_generation := g;
            wire.emitted_at_monotonic_ns := t; wire.event := e |} := m in
    match f with
    | (1, Varint n) => Some {| wire.protocol_version := as_u32 n; wire.boot_id := b; wire.sequence := s; wire.config_generation := g; wire.emitted_at_monotonic_ns := t; wire.event := e |}
    | (2, LengthDelimited b) => Some {| wire.protocol_version := v; wire.boot_id := b; wire.sequence := s; wire.config_generation := g; wire.emitted_at_monotonic_ns := t; wire.event := e |}
    | (3, Varint s) => Some {| wire.protocol_version := v; wire.boot_id := b; wire.sequence := s; wire.config_generation := g; wire.emitted_at_monotonic_ns := t; wire.event := e |}
    | (4, Varint g) => Some {| wire.protocol_version := v; wire.boot_id := b; wire.sequence := s; wire.config_generation := g; wire.emitted_at_monotonic_ns := t; wire.event := e |}
    | (5, Varint t) => Some {| wire.protocol_version := v; wire.boot_id := b; wire.sequence := s; wire.config_generation := g; wire.emitted_at_monotonic_ns := t; wire.event := e |}
    | (1, _) | (2, _) | (3, _) | (4, _) | (5, _) => None
    | (tag, v) =>
        if (10 <=? tag) && (tag <=? 19)
        then match v with LengthDelimited bs => e ← merge_event tag bs e; Some (with_event m e) | _ => None end
        else Some m
    end |}.

(** The codec of the messages as wire.rs declares them. *)
Definition protobuf : Prost := {| prost_encode := encode_message; prost_decode := decode_message |}.

Example protobuf_sample :
  @prost_encode protobuf (sample_envelope 300) =
    [8; 2; 18; 16] ++ replicate 16 0 ++ [24; 172; 2; 32; 1; 114; 34; 10; 32] ++ to_vec 9 ∧
  @prost_decode protobuf (@prost_encode protobuf (sample_envelope 300)) = Some (sample_envelope 300).
Proof. split; vm_compute; reflexivity. Qed.

(** ** Round trips of the messages *)

(** What the field types of wire.rs say: 32- and 64-bit integers, Unicode strings, [i32] enumerations
    with non-negative values. *)
Definition on_option {A} (P : A → Prop) (o : option A) : Prop := match o with Some a => P a | None => True end.
Definition utf8 (s : string) : Prop := is_Some (utf8_decode (string_bytes s)).

Definition typed_checkpoint (m : wire.CheckpointRef) : Prop := wire.cr_number m ≤ u64_max.
Definition typed_block (m : wire.BlockRef) : Prop := wire.br_number m ≤ u64_max ∧ wire.br_timestamp m ≤ u64_max.
Definition typed_view (m : wire.ForkchoiceView) : Prop :=
  on_option typed_checkpoint (wire.fv_head m) ∧ on_option typed_checkpoint (wire.fv_safe m) ∧
  on_option typed_checkpoint (wire.fv_finalized m).
Definition typed_key (m : wire.WatchKey) : Prop :=
  wire.key_id m ≤ u32_max ∧ Forall (λ c, scalar c = true) (wire.id m).
Definition typed_event (e : wire.Event) : Prop :=
  match e with
  | wire.EvHello m => utf8 (wire.service_version m) ∧ wire.chain_id m ≤ u64_max ∧ wire.capabilities m ≤ u64_max
  | wire.EvConfigActivated m => Forall typed_key (wire.keys m)
  | wire.EvSnapshot m => on_option typed_block (wire.sn_block m) ∧ on_option typed_view (wire.sn_forkchoice m)
  | wire.EvBlockState m => wire.bs_stage m ≤ u32_max / 2 ∧ on_option typed_block (wire.bs_block m)
  | wire.EvBlockValidated _ => True
  | wire.EvBlockRejected m => utf8 (wire.rj_reason m)
  | wire.EvCanonicalHead m => on_option typed_block (wire.ch_block m)
  | wire.EvGap m => wire.gap_last_contiguous_sequence m ≤ u64_max ∧ utf8 (wire.gap_reason m)
  | wire.EvForkchoiceApplied m => on_option typed_view (wire.fa_view m)
  | wire.EvCandidatesRetired m => wire.rt_reason m ≤ u32_max / 2
  end.
Definition typed_envelope (e : wire.Envelope) : Prop :=
  wire.protocol_version e ≤ u32_max ∧ wire.sequence e ≤ u64_max ∧ wire.config_generation e ≤ u64_max ∧
  wire.emitted_at_monotonic_ns e ≤ u64_max ∧ on_option typed_event (wire.event e).

#[export] Instance on_option_dec {A} (P : A → Prop) `{∀ a, Decision (P a)} o : Decision (on_option P o).
Proof. destruct o; simpl; apply _. Defined.
#[export] Instance utf8_dec s : Decision (utf8 s).
Proof. unfold utf8. apply _. Defined.
#[export] Instance typed_event_dec e : Decision (typed_event e).
Proof. destruct e; unfold typed_event, typed_key, typed_block, typed_view, typed_checkpoint; apply _. Defined.
#[export] Instance typed_envelope_dec e : Decision (typed_envelope e).
Proof. unfold typed_envelope. apply _. Defined.

(** The fields of a value: allowed numbers and 64-bit varints. *)
Definition field_typed (f : Field) : Prop :=
  1 ≤ f.1 ≤ 536870911 ∧ match f.2 with Varint n => n ≤ u64_max | LengthDelimited _ => True | _ => False end.

(** A message whose typed values survive encoding. *)
Class MessageLaws `{Message A} (typed : A → Prop) : Prop := {
  ml_fields : ∀ a, typed a → Forall field_typed (msg_fields a);
  ml_merge : ∀ a, typed a → len (encode_message a) ≤ u64_max → merge_fields (msg_fields a) msg_default = Some a;
}.

Lemma fields_ok fs : Forall field_typed fs → len (encode_fields fs) ≤ u64_max → Forall field_ok fs.
Proof.
  intros Hf Hlen. apply Forall_forall. intros [tag v] Hin. rewrite Forall_forall in Hf. specialize (Hf _ Hin).
  destruct Hf as [Ht Hv]. split; [done|]. destruct v; try done. simpl. etrans; [|exact Hlen]. by eapply field_length.
Qed.

Lemma message_round_trip `{MessageLaws A typed} a :
  typed a → len (encode_message a) ≤ u64_max → decode_message (encode_message a) = Some a.
Proof.
  intros Ha Hlen. unfold decode_message, merge_message, encode_message.
  rewrite decode_encode_fields by (apply fields_ok; [by apply ml_fields|done]). simpl. by apply ml_merge.
Qed.

Lemma uint_field_typed tag n : 1 ≤ tag ≤ 536870911 → n ≤ u64_max → Forall field_typed (uint_field tag n).
Proof. intros. unfold uint_field. case_decide; [by apply Forall_nil|by apply Forall_singleton]. Qed.
Lemma bytes_field_typed tag bs : 1 ≤ tag ≤ 536870911 → Forall field_typed (bytes_field tag bs).
Proof. intros. unfold bytes_field. destruct bs; [by apply Forall_nil|by apply Forall_singleton]. Qed.
Lemma message_field_typed `{Message A} tag o : 1 ≤ tag ≤ 536870911 → Forall field_typed (message_field tag o).
Proof. intros. unfold message_field. destruct o; [by apply Forall_singleton|by apply Forall_nil]. Qed.

Ltac typed_fields :=
  repeat (apply Forall_app; split);
  first [ apply uint_field_typed | apply bytes_field_typed | apply message_field_typed ]; try (unfold u64_max, u32_max in *; lia).

Lemma as_u32_small n : n ≤ u32_max → as_u32 n = n.
Proof. intros Hn. unfold as_u32. apply N.mod_small. lia. Qed.

Lemma merge_string_round s : utf8 s → merge_string (string_bytes s) = Some s.
Proof. intros [x Hx]. unfold merge_string. rewrite Hx. simpl. by rewrite string_bytes_round_trip. Qed.

(** An embedded message of a value that fits. *)
Lemma merge_embedded_round `{MessageLaws A typed} tag a fs :
  typed a → (tag, LengthDelimited (encode_message a)) ∈ fs → len (encode_fields fs) ≤ u64_max →
  merge_message (encode_message a) msg_default = Some a.
Proof. intros Ha Hin Hlen. apply message_round_trip; [done|]. etrans; [by eapply field_length|done]. Qed.

#[export] Instance checkpoint_laws : MessageLaws typed_checkpoint.
Proof.
  split; intros [n h] Hn; [unfold typed_checkpoint in Hn; simpl in *; typed_fields|].
  intros _. simpl. unfold uint_field, bytes_field. case_decide; subst; destruct h; done.
Qed.

#[export] Instance block_laws : MessageLaws typed_block.
Proof.
  split; intros [n h p t] [Hn Ht]; [simpl in *; typed_fields|].
  intros _. simpl. unfold uint_field, bytes_field. repeat case_decide; subst; destruct h, p; done.
Qed.

Arguments encode_message : simpl never.
Arguments merge_message : simpl never.
Arguments decode_message : simpl never.
Arguments merge_embedded : simpl never.

(** An embedded field of a value that fits. *)
Lemma merge_embedded_field `{MessageLaws A typed} tag (o : option A) fs a :
  len (encode_fields fs) ≤ u64_max → on_option typed o → message_field tag o ⊆ fs → o = Some a →
  merge_embedded (encode_message a) None = Some (Some a).
Proof.
  intros Hlen Ha Hin ->. unfold merge_embedded. simpl.
  erewrite merge_embedded_round; [done|exact Ha| |exact Hlen]. apply Hin. simpl. by left.
Qed.

#[export] Instance view_laws : MessageLaws typed_view.
Proof.
  split; intros [h s z] (Hh & Hs & Hz); [simpl in *; typed_fields|]. unfold encode_message. intros Hlen.
  pose proof (λ a, merge_embedded_field 1 h _ a Hlen Hh ltac:(simpl; set_solver)) as Eh.
  pose proof (λ a, merge_embedded_field 2 s _ a Hlen Hs ltac:(simpl; set_solver)) as Es.
  pose proof (λ a, merge_embedded_field 3 z _ a Hlen Hz ltac:(simpl; set_solver)) as Ez.
  destruct h as [h|], s as [s|], z as [z|]; simpl;
    rewrite ?(Eh _ eq_refl); simpl; rewrite ?(Es _ eq_refl); simpl; rewrite ?(Ez _ eq_refl); done.
Qed.

#[export] Instance snapshot_laws : MessageLaws (λ m, typed_event (wire.EvSnapshot m)).
Proof.
  split; intros [b v c] [Hb Hc]; [simpl in *; typed_fields|]. unfold encode_message. intros Hlen.
  pose proof (λ a, merge_embedded_field 1 b _ a Hlen Hb ltac:(simpl; set_solver)) as Eb.
  pose proof (λ a, merge_embedded_field 3 c _ a Hlen Hc ltac:(simpl; set_solver)) as Ec.
  destruct b as [b|], v as [|x v], c as [c|]; simpl; rewrite ?(Eb _ eq_refl); simpl; rewrite ?(Ec _ eq_refl); done.
Qed.

Lemma half_u32 n : n ≤ u32_max / 2 → n ≤ u32_max ∧ n ≤ u64_max.
Proof. change (u32_max / 2) with 2147483647. unfold u32_max, u64_max. lia. Qed.

#[export] Instance block_state_laws : MessageLaws (λ m, typed_event (wire.EvBlockState m)).
Proof.
  split; intros [st b v c] [[Hs Hs']%half_u32 Hb]; [simpl in *; typed_fields; done|]. unfold encode_message. intros Hlen.
  pose proof (λ a, merge_embedded_field 2 b _ a Hlen Hb ltac:(simpl; set_solver)) as Eb. simpl in Hs.
  simpl. unfold uint_field. case_decide; subst; destruct b as [b|], v as [|x v], c as [|y c]; simpl;
    rewrite ?(Eb _ eq_refl); simpl; by rewrite ?as_u32_small.
Qed.

#[export] Instance block_validated_laws : MessageLaws (λ m, typed_event (wire.EvBlockValidated m)).
Proof. split; intros [h] _; [simpl; typed_fields|]. intros _. by destruct h. Qed.

Lemma string_bytes_nil s : string_bytes s = [] → s = ""%string.
Proof. intros E. by rewrite <- (string_bytes_round_trip s), E. Qed.

Arguments merge_string : simpl never.
Arguments string_bytes : simpl never.
Arguments utf8_decode : simpl never.
Arguments utf8_encode : simpl never.

#[export] Instance block_rejected_laws : MessageLaws (λ m, typed_event (wire.EvBlockRejected m)).
Proof.
  split; intros [h r] Hr; [simpl in *; typed_fields|]. intros _. apply merge_string_round in Hr. simpl in *.
  destruct (string_bytes r) eqn:E; destruct h; simpl; rewrite ?Hr; try done; by rewrite (string_bytes_nil _ E).
Qed.

#[export] Instance gap_laws : MessageLaws (λ m, typed_event (wire.EvGap m)).
Proof.
  split; intros [n r] [Hn Hr]; [simpl in *; typed_fields|]. intros _. apply merge_string_round in Hr. simpl in *.
  unfold uint_field. case_decide; subst; destruct (string_bytes r) eqn:E; simpl; rewrite ?Hr; try done;
    by rewrite (string_bytes_nil _ E).
Qed.

#[export] Instance hello_laws : MessageLaws (λ m, typed_event (wire.EvHello m)).
Proof.
  split; intros [v c g k] (Hv & Hc & Hk); [simpl in *; typed_fields|]. intros _. apply merge_string_round in Hv. simpl in *.
  unfold uint_field. destruct (string_bytes v) eqn:E; repeat case_decide; subst; destruct g; simpl; rewrite ?Hv; try done;
    by rewrite (string_bytes_nil _ E).
Qed.

#[export] Instance canonical_head_laws : MessageLaws (λ m, typed_event (wire.EvCanonicalHead m)).
Proof.
  split; intros [p b v c] Hb; [simpl in *; typed_fields|]. unfold encode_message. intros Hlen.
  pose proof (λ a, merge_embedded_field 3 b _ a Hlen Hb ltac:(simpl; set_solver)) as Eb.
  destruct p as [|x p], b as [b|], v as [|y v], c as [|z c]; simpl; rewrite ?(Eb _ eq_refl); done.
Qed.

#[export] Instance forkchoice_applied_laws : MessageLaws (λ m, typed_event (wire.EvForkchoiceApplied m)).
Proof.
  split; intros [v] Hv; [simpl in *; typed_fields|]. unfold encode_message. intros Hlen.
  pose proof (λ a, merge_embedded_field 1 v _ a Hlen Hv ltac:(simpl; set_solver)) as Ev.
  destruct v as [v|]; simpl; rewrite ?(Ev _ eq_refl); done.
Qed.

Lemma merge_fields_app `{Message A} fs fs' a : merge_fields (fs ++ fs') a = merge_fields fs a ≫= merge_fields fs'.
Proof.
  revert a; induction fs as [|f fs IH]; intros a; [done|]. simpl. destruct (msg_merge f a); simpl; [apply IH|done].
Qed.

Lemma repeated_hashes hs r acc :
  merge_fields ((λ h, (1, LengthDelimited h)) <$> hs) {| wire.rt_block_hashes := acc; wire.rt_reason := r |} =
  Some {| wire.rt_block_hashes := acc ++ hs; wire.rt_reason := r |}.
Proof.
  revert acc; induction hs as [|h hs IH]; intros acc; simpl; [by rewrite app_nil_r|].
  rewrite IH, <- app_assoc. done.
Qed.

#[export] Instance retired_laws : MessageLaws (λ m, typed_event (wire.EvCandidatesRetired m)).
Proof.
  split; intros [hs r] [Hr Hr']%half_u32.
  - simpl in *. apply Forall_app. split; [|typed_fields; done]. apply Forall_fmap, Forall_true. intros h. done.
  - intros _. cbn [msg_fields retired_message wire.rt_block_hashes wire.rt_reason] in *.
    rewrite merge_fields_app. change msg_default with {| wire.rt_block_hashes := []; wire.rt_reason := 0 |}.
    rewrite repeated_hashes. simpl. unfold uint_field. case_decide; subst; simpl; [done|]. by rewrite as_u32_small.
Qed.

#[export] Instance watch_key_laws : MessageLaws typed_key.
Proof.
  split; intros [k i a s] [Hk Hi]; [simpl in *; typed_fields|]. intros _. apply utf8_round_trip in Hi. simpl in *.
  assert (Hnil : utf8_encode i = [] → i = []).
  { intros E. rewrite E in Hi. by injection Hi. }
  unfold uint_field. case_decide; subst; destruct (utf8_encode i) eqn:E, a, s; simpl; rewrite ?Hi; simpl;
    rewrite ?as_u32_small by done; try done; by rewrite Hnil.
Qed.

Lemma repeated_keys (ks acc : list wire.WatchKey) :
  (∀ k, k ∈ ks → decode_message (encode_message k) = Some k) →
  merge_fields ((λ k, (1, LengthDelimited (encode_message k))) <$> ks) {| wire.keys := acc |} = Some {| wire.keys := acc ++ ks |}.
Proof.
  revert acc; induction ks as [|k ks IH]; intros acc Hk; simpl; [by rewrite app_nil_r|].
  rewrite Hk by (by left). simpl. rewrite IH by (intros k' ?; apply Hk; by right). by rewrite <- app_assoc.
Qed.

#[export] Instance config_laws : MessageLaws (λ m, typed_event (wire.EvConfigActivated m)).
Proof.
  split; intros [ks] Hks; simpl in Hks.
  - simpl. apply Forall_fmap, Forall_true. intros k. done.
  - unfold encode_message. intros Hlen. apply (repeated_keys ks []). intros k Hk. rewrite Forall_forall in Hks.
    apply message_round_trip; [by apply Hks|]. etrans; [|exact Hlen]. apply (field_length _ 1).
    apply list_elem_of_fmap. by exists k.
Qed.

Lemma event_field_typed e : field_typed (event_fields e).
Proof. destruct e; by split. Qed.

(** The variant of a typed event survives. *)
Lemma merge_event_round e fs :
  typed_event e → event_fields e ∈ fs → len (encode_fields fs) ≤ u64_max →
  ∃ bs, event_fields e = ((event_fields e).1, LengthDelimited bs) ∧
    10 ≤ (event_fields e).1 ≤ 19 ∧ merge_event (event_fields e).1 bs None = Some e.
Proof.
  intros He Hin Hlen. destruct e as [m|m|m|m|m|m|m|m|m|m]; cbn [event_fields fst] in *; eexists;
    (split_and!; [reflexivity|lia|lia|]); cbn [merge_event];
    (erewrite (merge_embedded_round _ m); [done| |exact Hin|exact Hlen]); exact He.
Qed.

(** Tags 10 to 19 are those of the [oneof]. *)
Lemma merge_event_field tag bs (m : wire.Envelope) :
  10 ≤ tag ≤ 19 →
  msg_merge (tag, LengthDelimited bs) m = (e ← merge_event tag bs (wire.event m); Some (with_event m e)).
Proof.
  intros Htag. assert (Hcases : tag ∈ [10; 11; 12; 13; 14; 15; 16; 17; 18; 19]) by (rewrite !elem_of_cons; lia).
  destruct m. repeat (apply elem_of_cons in Hcases as [->|Hcases]; [reflexivity|]). by apply elem_of_nil in Hcases.
Qed.

#[export] Instance envelope_laws : MessageLaws typed_envelope.
Proof.
  split; intros [v b s g t e] (Hv & Hs & Hg & Ht & He); simpl in Hv, Hs, Hg, Ht, He.
  - simpl. repeat (apply Forall_app; split); try (apply uint_field_typed; unfold u64_max, u32_max in *; lia);
      [by apply bytes_field_typed|]. destruct e; [apply Forall_singleton, event_field_typed|by apply Forall_nil].
  - unfold encode_message. intros Hlen.
    assert (Hev : ∀ ev, e = Some ev → ∃ tag bs, event_fields ev = (tag, LengthDelimited bs) ∧ 10 ≤ tag ≤ 19 ∧
      merge_event tag bs None = Some ev).
    { intros ev ->. edestruct (λ Hin, merge_event_round ev _ He Hin Hlen) as (bs & E & Htag & Hm); [simpl; set_solver|]. eauto. }
    cbn [msg_fields envelope_message wire.protocol_version wire.boot_id wire.sequence wire.config_generation
      wire.emitted_at_monotonic_ns wire.event] in *.
    rewrite !app_assoc, merge_fields_app. rewrite <- !app_assoc.
    assert (Hhead : merge_fields (uint_field 1 v ++ bytes_field 2 b ++ uint_field 3 s ++ uint_field 4 g ++ uint_field 5 t) msg_default =
      Some {| wire.protocol_version := v; wire.boot_id := b; wire.sequence := s; wire.config_generation := g;
              wire.emitted_at_monotonic_ns := t; wire.event := None |}).
    { unfold uint_field. repeat case_decide; subst; destruct b; simpl; rewrite ?as_u32_small by done; done. }
    rewrite Hhead. destruct e as [ev|]; [|done]. destruct (Hev ev eq_refl) as (tag & bs & -> & Htag & Hm).
    cbn [mbind option_bind merge_fields]. rewrite merge_event_field by done. cbn [wire.event]. by rewrite Hm.
Qed.

(** What a reader relies on: an envelope whose fields are within their types is decoded again. *)
Class ProstInverse `{Prost} : Prop := {
  decode_encode : ∀ e, typed_envelope e → encoded_len e ≤ u64_max → prost_decode (prost_encode e) = Some e;
}.

#[export] Instance protobuf_inverse : @ProstInverse protobuf.
Proof. split. apply message_round_trip. Qed.

(** C15: The encoding that wire.rs declares is invertible. Encoding an envelope with the field numbers
    and types of its messages, for any event, with optional parts absent or present, defaults left
    out, lists of any length and strings of any Unicode scalars, and decoding the bytes gives the same
    envelope, as long as its integers are within their types and its reasons are UTF-8; in particular
    no two such envelopes share an encoding. *)
Theorem envelope_round_trip e e' :
  typed_envelope e → typed_envelope e' →
  len (@prost_encode protobuf e) ≤ u64_max → len (@prost_encode protobuf e') ≤ u64_max →
  @prost_decode protobuf (@prost_encode protobuf e) = Some e ∧
  (@prost_encode protobuf e = @prost_encode protobuf e' → e = e').
Proof.
  intros He He' Hl Hl'. pose proof (@decode_encode protobuf protobuf_inverse e He Hl) as Hd.
  pose proof (@decode_encode protobuf protobuf_inverse e' He' Hl') as Hd'. split; [done|]. intros E. congruence.
Qed.

(** A dictionary with a non-ASCII name, a missing slot and a zero key id. *)
Definition round_trip_sample : wire.Envelope :=
  {| wire.protocol_version := 2; wire.boot_id := replicate 16 7; wire.sequence := u64_max; wire.config_generation := 3;
     wire.emitted_at_monotonic_ns := 0;
     wire.event := Some (wire.EvConfigActivated {| wire.keys :=
       [{| wire.key_id := 0; wire.id := [955; 120; 8364; 128512]; wire.address := replicate 20 1; wire.slot := [] |};
        {| wire.key_id := 1; wire.id := [112]; wire.address := []; wire.slot := replicate 32 2 |}] |}) |}.

Lemma envelope_round_trip_witness :
  @prost_decode protobuf (@prost_encode protobuf round_trip_sample) = Some round_trip_sample ∧
  (@prost_encode protobuf round_trip_sample = @prost_encode protobuf (sample_envelope 5) →
   round_trip_sample = sample_envelope 5).
Proof.
  apply (envelope_round_trip round_trip_sample (sample_envelope 5)).
  - repeat split; repeat constructor; vm_compute; discriminate.
  - repeat split; vm_compute; discriminate.
  - vm_compute. discriminate.
  - vm_compute. discriminate.
Defined.
