(* ===== verification/Client.v ===== *)
(** * Consumer building blocks (src/src/client.rs)

    The length-prefixed reader over a byte stream and the packed-value
    accessor.  A stream is the list of bytes still to arrive before end of
    file. *)

From S2P Require Import Prelude Bytes Config Wire.
From stdpp Require Import list.
Local Open Scope N_scope.

Inductive ClientError :=
| Io
| Decode
| ClientFrameTooLarge (actual limit : N)
| ProjectionLengthOverflow
| InvalidProjectionLength (actual expected : N).

(** [read] into a one-byte buffer: the byte, or nothing at end of file. *)
Definition read_one : M bytes ClientError (option N) := λ s,
  match s with
  | [] => (Ok None, [])
  | b :: s => (Ok (Some b), s)
  end.

(** [read_exact]: an early end of file is an I/O error. *)
Definition read_exact (n : N) : M bytes ClientError bytes := λ s,
  if n <=? len s then (Ok (take (N.to_nat n) s), drop (N.to_nat n) s) else (Err Io, []).

Section reader.
Context `{Prost}.

(** [FrameReader::read]. *)
Definition read (max_frame_bytes : N) : M bytes ClientError (option wire.Envelope) :=
  first ← read_one;
  match first with
  | None => mret None
  | Some b0 =>
      tail ← read_exact 3;
      let length := from_be_slice (b0 :: tail) in
      if max_frame_bytes <? length
      then throw (ClientFrameTooLarge length max_frame_bytes)
      else
        payload ← read_exact length;
        match prost_decode payload with
        | Some envelope => mret (Some envelope)
        | None => throw Decode
        end
  end.

(** The consumer's read loop: envelopes until a clean end of file.  Every envelope takes at
    least four bytes, so the stream's length bounds the iterations. *)
Fixpoint read_all_aux (fuel : nat) (limit : N) : M bytes ClientError (list wire.Envelope) :=
  match fuel with
  | O => diverge
  | S fuel =>
      next ← read limit;
      match next with
      | None => mret []
      | Some e => rest ← read_all_aux fuel limit; mret (e :: rest)
      end
  end.
Definition read_all (limit : N) : M bytes ClientError (list wire.Envelope) :=
  λ s, read_all_aux (S (length s)) limit s.
End reader.

(** ** Packed values *)

Record PackedValues := { pv_bytes : bytes }.

(** [PackedValues::new]. *)
Definition packed_new (bs : bytes) (key_count : N) : outcome ClientError PackedValues :=
  match checked_mul key_count 32 with
  | None => Err ProjectionLengthOverflow
  | Some expected =>
      if negb (len bs =? expected) then Err (InvalidProjectionLength (len bs) expected)
      else Ok {| pv_bytes := bs |}
  end.

Definition packed_len (p : PackedValues) : N := len (pv_bytes p) / 32.

(** [PackedValues::get]. *)
Definition packed_get (p : PackedValues) (key_id : N) : option U256 :=
  start ← checked_mul key_id 32;
  stop ← checked_add start 32;
  value ← get_range (pv_bytes p) start stop;
  Some (from_be_slice value).

(** The projection of a list of values, as the publisher and the snapshot source pack it. *)
Definition encode_values (values : list U256) : bytes := concat (be_bytes 32 <$> values).

(** ** Theorems *)

Lemma length_encode_values vs : length (encode_values vs) = (32 * length vs)%nat.
Proof.
  unfold encode_values. rewrite length_concat_words, length_fmap; [done|].
  apply Forall_fmap, Forall_true. intros. apply length_be_bytes.
Qed.

Lemma word_encode_values vs i v :
  vs !! i = Some v → word (encode_values vs) i = be_bytes 32 v.
Proof.
  intros Hi. apply word_concat; [|by rewrite list_lookup_fmap, Hi].
  apply Forall_fmap, Forall_true. intros. apply length_be_bytes.
Qed.

(** A packed projection round-trips: a consumer that knows the key count accepts the buffer and
    [get] returns exactly the value of every dense key, and [None] for every other index, even where
    the byte offset would overflow [usize]. *)
Theorem packed_values_round_trip (vs : list U256) :
  Forall (λ v, v < 2 ^ 256) vs → 32 * len vs ≤ u64_max →
  ∃ p, packed_new (encode_values vs) (len vs) = Ok p ∧
    packed_len p = len vs ∧
    ∀ k : N, packed_get p k = vs !! N.to_nat k.
Proof.
  intros Hvs Hlen. exists {| pv_bytes := encode_values vs |}.
  assert (Hl : len (encode_values vs) = 32 * len vs).
  { unfold len. rewrite length_encode_values. lia. }
  unfold packed_new, packed_len, checked_mul. simpl pv_bytes.
  destruct (N.leb_spec (len vs * 32) u64_max); [|lia]. rewrite Hl.
  replace (32 * len vs =? len vs * 32) with true by (symmetry; apply N.eqb_eq; lia).
  split_and!; [done|by rewrite N.mul_comm, N.div_mul|].
  intros k. unfold packed_get, checked_mul, checked_add. simpl pv_bytes.
  destruct (vs !! N.to_nat k) as [v|] eqn:E.
  - pose proof (lookup_lt_Some _ _ _ E) as Hk. unfold len in *.
    destruct (N.leb_spec (k * 32) u64_max); [|lia]. simpl.
    destruct (N.leb_spec (k * 32 + 32) u64_max); [|lia]. simpl.
    rewrite <- (N2Nat.id k) at 1 2. rewrite get_range_word by (rewrite length_encode_values; lia).
    simpl. rewrite (word_encode_values _ _ _ E), from_be_be_bytes; [done|].
    rewrite Forall_forall in Hvs. apply Hvs. by eapply list_elem_of_lookup_2.
  - apply lookup_ge_None in E. destruct (k * 32 <=? u64_max); simpl; [|done].
    destruct (k * 32 + 32 <=? u64_max); simpl; [|done].
    rewrite (proj2 (get_range_None _ _ _)); [done|]. rewrite Hl. unfold len. lia.
Qed.

Section reader_spec.
Context `{Prost}.

Lemma read_exact_app (n : N) bs rest :
  len bs = n → read_exact n (bs ++ rest) = (Ok bs, rest).
Proof.
  intros <-. unfold read_exact, len. rewrite length_app.
  destruct (N.leb_spec (N.of_nat (length bs)) (N.of_nat (length bs + length rest))); [|lia].
  by rewrite Nat2N.id, take_app_length, drop_app_length.
Qed.

(** Reading an encoded frame. *)
Lemma read_frame e limit max frame rest :
  encode_frame e limit = Ok frame → limit ≤ max →
  prost_decode (prost_encode e) = Some e →
  read max (frame ++ rest) = (Ok (Some e), rest).
Proof.
  intros (Hl & Hu & ->)%encode_frame_Ok Hmax Hd.
  assert (Hb : ∃ b0 tl, be_bytes 4 (encoded_len e) = b0 :: tl ∧ length tl = 3%nat).
  { pose proof (length_be_bytes 4 (encoded_len e)) as Hlen.
    destruct (be_bytes 4 (encoded_len e)) as [|b0 tl]; [done|]. exists b0, tl. simpl in Hlen. auto with lia. }
  destruct Hb as (b0 & tl & Hb & Htl).
  assert (Hv : from_be_slice (b0 :: tl) = encoded_len e).
  { rewrite <- Hb. apply from_be_be_bytes. unfold u32_max in Hu. simpl. lia. }
  unfold read. rewrite Hb. simpl. unfold mbind, M_bind. simpl.
  rewrite <- app_assoc. rewrite read_exact_app by (unfold len; lia).
  rewrite Hv. destruct (N.ltb_spec max (encoded_len e)); [lia|].
  rewrite read_exact_app by done. by rewrite Hd.
Qed.

(** A whole stream: reading the concatenation of frames, with a limit no smaller than the writer's,
    returns their envelopes and then a clean end of file, if decoding inverts encoding on them. *)
Lemma frames_round_trip limit max es frames :
  limit ≤ max →
  Forall2 (λ e frame, encode_frame e limit = Ok frame ∧ prost_decode (prost_encode e) = Some e)
    es frames →
  read_all max (concat frames) = (Ok es, []).
Proof.
  intros Hmax Hf. unfold read_all.
  assert (Haux : ∀ fuel, (length es < fuel)%nat → read_all_aux fuel max (concat frames) = (Ok es, [])).
  { induction Hf as [|e frame es frames [He Hd] _ IH]; intros [|fuel] Hfuel; try (simpl in Hfuel; lia); [done|].
    simpl. unfold mbind, M_bind. rewrite (read_frame _ _ _ _ _ He Hmax Hd).
    rewrite IH by (simpl in Hfuel; lia). done. }
  apply Haux. clear Haux. apply Nat.lt_succ_r.
  induction Hf as [|e frame es frames [(_ & _ & ->)%encode_frame_Ok _] _ IH]; [simpl; lia|].
  cbn [concat length]. rewrite !length_app, length_be_bytes. lia.
Qed.

(** A frame announced larger than the consumer's limit is refused from its prefix alone. *)
Lemma read_refuses_oversized max n rest :
  max < n → n ≤ u32_max →
  read max (be_bytes 4 n ++ rest) = (Err (ClientFrameTooLarge n max), rest).
Proof.
  intros Hmax Hn. pose proof (length_be_bytes 4 n) as Hlen.
  assert (Hv : from_be_slice (be_bytes 4 n) = n).
  { apply from_be_be_bytes. unfold u32_max in Hn. simpl. lia. }
  destruct (be_bytes 4 n) as [|b0 tl]; [done|].
  unfold read. unfold mbind, M_bind. simpl.
  rewrite read_exact_app by (unfold len; simpl in Hlen; lia).
  rewrite Hv. destruct (N.ltb_spec max n); [done|lia].
Qed.
End reader_spec.
