(* ===== verification/Consumer.v ===== *)
(** * The protocol consumer (src/src/bin/statefeed-dump.rs)

    The stream cursor, the checks a consumer makes on every envelope, the
    bounded candidate tracker, and the loop that feeds envelopes to them. *)

From S2P Require Import Prelude Bytes Config Wire Client.
From stdpp Require Import list.
Local Open Scope N_scope.

Inductive DumpError :=
| UnsupportedVersion
| BadBootId
| BootIdChanged
| NoEvent
| NotHello
| NotConfig
| NotSnapshot
| HandshakeSequence
| HandshakeGeneration
| LateHello
| SnapshotExpected
| SnapshotSequence
| GapContiguous
| GapSequence
| LiveSequence
| GenesisLength
| IncompleteLifecycle
| GenerationRegressed
| KeyIdsNotDense
| KeyLength
| WrongGeneration
| NoBlockRef
| BlockHashLength
| NoForkchoice
| NoHead
| HeadHashLength
| CheckpointHashLength
| CheckpointAhead
| FinalizedAhead
| SnapshotHead
| UnknownStage
| UnspecifiedStage
| ExecutedNotAdvertised
| BitmapLength
| ValuesError (e : ClientError)
| HashLength
| EmptyReason
| ForkchoiceNotAdvertised
| RetirementNotAdvertised
| UnknownReason
| UnspecifiedReason
| EmptyBatch.

(** ** The stream cursor *)

Inductive StreamPhase :=
| PhaseHello
| PhaseConfig (baseline generation : N)
| PhaseInitialSnapshot (baseline generation : N)
| PhaseLive (last_sequence : N) (snapshot_required : bool).

Definition is_hello (e : wire.Event) : bool := match e with wire.EvHello _ => true | _ => false end.
Definition is_config (e : wire.Event) : bool := match e with wire.EvConfigActivated _ => true | _ => false end.
Definition is_snapshot (e : wire.Event) : bool := match e with wire.EvSnapshot _ => true | _ => false end.

Definition validate_handshake_position (sequence generation baseline handshake_generation : N)
    : outcome DumpError () :=
  ensure (sequence =? baseline) HandshakeSequence ;;
  ensure (generation =? handshake_generation) HandshakeGeneration.

(** [Some(sequence) == last_sequence.checked_add(1)]. *)
Definition follows (last_sequence sequence : N) : bool :=
  bool_decide (Some sequence = checked_add last_sequence 1).

(** [StreamCursor::observe]. *)
Definition observe (phase : StreamPhase) (sequence generation : N) (event : wire.Event)
    : outcome DumpError StreamPhase :=
  match phase with
  | PhaseHello =>
      ensure (is_hello event) NotHello ;;
      Ok (PhaseConfig sequence generation)
  | PhaseConfig baseline handshake_generation =>
      ensure (is_config event) NotConfig ;;
      validate_handshake_position sequence generation baseline handshake_generation ;;
      Ok (PhaseInitialSnapshot baseline generation)
  | PhaseInitialSnapshot baseline handshake_generation =>
      ensure (is_snapshot event) NotSnapshot ;;
      validate_handshake_position sequence generation baseline handshake_generation ;;
      Ok (PhaseLive baseline false)
  | PhaseLive last_sequence snapshot_required =>
      ensure (negb (is_hello event)) LateHello ;;
      if snapshot_required then
        ensure (is_snapshot event) SnapshotExpected ;;
        ensure (follows last_sequence sequence) SnapshotSequence ;;
        Ok (PhaseLive sequence false)
      else match event with
      | wire.EvGap gap =>
          ensure (wire.gap_last_contiguous_sequence gap =? last_sequence) GapContiguous ;;
          ensure (last_sequence <? sequence) GapSequence ;;
          Ok (PhaseLive sequence true)
      | _ =>
          ensure (follows last_sequence sequence) LiveSequence ;;
          Ok (PhaseLive sequence (is_config event))
      end
  end.

(** ** Checks on one event *)

Definition validate_generation (active : option N) (event : N) : outcome DumpError () :=
  ensure (bool_decide (active = Some event)) WrongGeneration.

Definition validate_block_ref (block : option wire.BlockRef) : outcome DumpError wire.BlockRef :=
  block ← ok_or block NoBlockRef;
  ensure (len (wire.br_hash block) =? 32) BlockHashLength ;;
  ensure (len (wire.br_parent_hash block) =? 32) BlockHashLength ;;
  Ok block.

Fixpoint check_checkpoints (head_number : N) (checkpoints : list wire.CheckpointRef)
    : outcome DumpError () :=
  match checkpoints with
  | [] => Ok ()
  | checkpoint :: checkpoints =>
      ensure (len (wire.cr_hash checkpoint) =? 32) CheckpointHashLength ;;
      ensure (wire.cr_number checkpoint <=? head_number) CheckpointAhead ;;
      check_checkpoints head_number checkpoints
  end.

(** [validate_forkchoice_view]: the view and its head. *)
Definition validate_forkchoice_view (view : option wire.ForkchoiceView)
    : outcome DumpError (wire.ForkchoiceView * wire.CheckpointRef) :=
  view ← ok_or view NoForkchoice;
  head ← ok_or (wire.fv_head view) NoHead;
  ensure (len (wire.cr_hash head) =? 32) HeadHashLength ;;
  check_checkpoints (wire.cr_number head)
    (option_list (wire.fv_safe view) ++ option_list (wire.fv_finalized view)) ;;
  match wire.fv_safe view, wire.fv_finalized view with
  | Some safe, Some finalized =>
      ensure (wire.cr_number finalized <=? wire.cr_number safe) FinalizedAhead
  | _, _ => Ok ()
  end ;;
  Ok (view, head).

(** ** The candidate tracker *)

Record CandidateTracker := mkCandidateTracker {
  ct_parents : gmap bytes bytes;
  ct_children : gmap bytes (list bytes);
  ct_order : list bytes;
  ct_limit : N;
}.
#[export] Instance eta_CandidateTracker : Eta CandidateTracker := λ r,
  mkCandidateTracker (ct_parents r) (ct_children r) (ct_order r) (ct_limit r).

Definition tracker_new (limit : N) : CandidateTracker := mkCandidateTracker ∅ ∅ [] limit.

Definition contains_key (t : CandidateTracker) (hash : bytes) : bool :=
  bool_decide (is_Some (ct_parents t !! hash)).

Definition tracker_clear (t : CandidateTracker) : CandidateTracker :=
  t <| ct_parents := ∅ |> <| ct_children := ∅ |> <| ct_order := [] |>.

(** [self.children.entry(parent).or_default().push(hash)]. *)
Definition push_child (parent hash : bytes) (t : CandidateTracker) : CandidateTracker :=
  t <| ct_children ::= λ m, <[parent := default [] (m !! parent) ++ [hash]]> m |>.

Definition remove_child (parent child : bytes) (t : CandidateTracker) : CandidateTracker :=
  match ct_children t !! parent with
  | Some children =>
      let children := filter (λ candidate, candidate ≠ child) children in
      if decide (children = []) then t <| ct_children ::= delete parent |>
      else t <| ct_children ::= insert parent children |>
  | None => t
  end.

Definition remove_exact (hash : bytes) (t : CandidateTracker) : CandidateTracker :=
  let t := match ct_parents t !! hash with
           | Some parent => remove_child parent hash (t <| ct_parents ::= delete hash |>)
           | None => t
           end in
  t <| ct_order ::= filter (λ candidate, candidate ≠ hash) |>.

(** The [while] of [CandidateTracker::insert]: with nothing left to pop it never ends, which is
    the case the fuel leaves out. *)
Fixpoint tracker_evict (fuel : nat) (t : CandidateTracker) : outcome DumpError CandidateTracker :=
  match fuel with
  | O => Diverge
  | S fuel =>
      if negb (ct_limit t <? N.of_nat (size (ct_parents t))) then Ok t
      else match ct_order t with
           | [] => Diverge
           | oldest :: rest => tracker_evict fuel (remove_exact oldest (t <| ct_order := rest |>))
           end
  end.

(** [CandidateTracker::insert]. *)
Definition tracker_insert (hash parent_hash : bytes) (t : CandidateTracker)
    : outcome DumpError CandidateTracker :=
  let t :=
    match ct_parents t !! hash with
    | Some previous_parent =>
        let t := t <| ct_parents ::= insert hash parent_hash |> in
        if decide (previous_parent = parent_hash) then t
        else push_child parent_hash hash (remove_child previous_parent hash t)
    | None =>
        push_child parent_hash hash
          (t <| ct_order ::= λ l, l ++ [hash] |> <| ct_parents ::= insert hash parent_hash |>)
    end in
  tracker_evict (S (length (ct_order t))) t.

(** The stack loop of [CandidateTracker::remove_tree]; the head of [pending] is its top. *)
Fixpoint tracker_remove_loop (fuel : nat) (pending : list bytes) (t : CandidateTracker)
    : outcome DumpError CandidateTracker :=
  match fuel, pending with
  | O, _ => Diverge
  | S _, [] => Ok t
  | S fuel, hash :: pending =>
      let children := default [] (ct_children t !! hash) in
      tracker_remove_loop fuel (rev children ++ pending)
        (remove_exact hash (t <| ct_children ::= delete hash |>))
  end.

(** Every iteration but the last pops a hash, and a hash is pushed at most once per list entry
    of [children]. *)
Definition tracker_remove_tree (root : bytes) (t : CandidateTracker)
    : outcome DumpError CandidateTracker :=
  t ← tracker_remove_loop (2 + map_total (ct_children t)) [root] t;
  Ok (t <| ct_order ::= filter (λ hash, is_Some (ct_parents t !! hash)) |>).

(** ** The consumer *)

Record Consumer := mkConsumer {
  co_phase : StreamPhase;
  co_active_generation : option N;
  co_key_count : N;
  co_boot_id : option bytes;
  co_capabilities : N;
  co_candidates : CandidateTracker;
}.
#[export] Instance eta_Consumer : Eta Consumer := λ r,
  mkConsumer (co_phase r) (co_active_generation r) (co_key_count r) (co_boot_id r)
    (co_capabilities r) (co_candidates r).

Definition consumer_new (limit : N) : Consumer :=
  mkConsumer PhaseHello None 0 None 0 (tracker_new limit).

Definition has_cap (capabilities cap : N) : bool := negb (N.land capabilities cap =? 0).

Definition check_values (bs : bytes) (key_count : N) : outcome DumpError () :=
  match packed_new bs key_count with
  | Ok _ => Ok ()
  | Err e => Err (ValuesError e)
  | Diverge => Diverge
  end.

Fixpoint retire_all (hashes : list bytes) (t : CandidateTracker) : outcome DumpError CandidateTracker :=
  match hashes with
  | [] => Ok t
  | hash :: hashes =>
      ensure (len hash =? 32) HashLength ;;
      retire_all hashes (remove_exact hash t)
  end.

(** The [match] on the event in the body of the read loop. *)
Definition consume_event (generation : N) (event : wire.Event) (k : Consumer)
    : outcome DumpError Consumer :=
  match event with
  | wire.EvHello hello =>
      ensure (len (wire.genesis_hash hello) =? 32) GenesisLength ;;
      let capabilities := wire.capabilities hello in
      (if has_cap capabilities wire.CAP_EXECUTED
       then ensure (has_cap capabilities wire.CAP_FORKCHOICE_APPLIED
                    && has_cap capabilities wire.CAP_CANDIDATE_RETIREMENT) IncompleteLifecycle
       else Ok ()) ;;
      Ok (k <| co_capabilities := capabilities |>)
  | wire.EvConfigActivated config =>
      match co_active_generation k with
      | Some active => ensure (active <=? generation) GenerationRegressed
      | None => Ok ()
      end ;;
      ensure (forallb id (imap (λ index key, wire.key_id key =? N.of_nat index) (wire.keys config)))
        KeyIdsNotDense ;;
      ensure (forallb (λ key, (len (wire.address key) =? 20) && (len (wire.slot key) =? 32))
                (wire.keys config)) KeyLength ;;
      Ok (k <| co_key_count := len (wire.keys config) |>
            <| co_active_generation := Some generation |>
            <| co_candidates ::= tracker_clear |>)
  | wire.EvSnapshot snapshot =>
      validate_generation (co_active_generation k) generation ;;
      block ← validate_block_ref (wire.sn_block snapshot);
      '(_, head) ← validate_forkchoice_view (wire.sn_forkchoice snapshot);
      ensure ((wire.cr_number head =? wire.br_number block)
              && bool_decide (wire.cr_hash head = wire.br_hash block)) SnapshotHead ;;
      candidates ← tracker_insert (wire.br_hash block) (wire.br_parent_hash block)
                     (tracker_clear (co_candidates k));
      check_values (wire.sn_values snapshot) (co_key_count k) ;;
      Ok (k <| co_candidates := candidates |>)
  | wire.EvBlockState state =>
      validate_generation (co_active_generation k) generation ;;
      block ← validate_block_ref (wire.bs_block state);
      stage ← ok_or (wire.stage_try_from (wire.bs_stage state)) UnknownStage;
      ensure (bool_decide (stage ≠ wire.StageUnspecified)) UnspecifiedStage ;;
      (if decide (stage = wire.StageExecuted)
       then ensure (has_cap (co_capabilities k) wire.CAP_EXECUTED) ExecutedNotAdvertised
       else Ok ()) ;;
      ensure (len (wire.bs_changed_bitmap state) =? div_ceil (co_key_count k) 8) BitmapLength ;;
      check_values (wire.bs_values state) (co_key_count k) ;;
      candidates ← tracker_insert (wire.br_hash block) (wire.br_parent_hash block) (co_candidates k);
      Ok (k <| co_candidates := candidates |>)
  | wire.EvCanonicalHead head =>
      validate_generation (co_active_generation k) generation ;;
      block ← validate_block_ref (wire.ch_block head);
      ensure (len (wire.ch_previous_block_hash head) =? 32) HashLength ;;
      ensure ((len (wire.ch_changed_bitmap head) =? 0)
              || (len (wire.ch_changed_bitmap head) =? div_ceil (co_key_count k) 8)) BitmapLength ;;
      check_values (wire.ch_values head) (co_key_count k) ;;
      candidates ← tracker_insert (wire.br_hash block) (wire.br_parent_hash block) (co_candidates k);
      Ok (k <| co_candidates := candidates |>)
  | wire.EvBlockValidated event =>
      validate_generation (co_active_generation k) generation ;;
      ensure (len (wire.bv_block_hash event) =? 32) HashLength ;;
      Ok k
  | wire.EvBlockRejected event =>
      validate_generation (co_active_generation k) generation ;;
      ensure (len (wire.rj_block_hash event) =? 32) HashLength ;;
      ensure (negb (String.eqb (wire.rj_reason event) EmptyString)) EmptyReason ;;
      candidates ← tracker_remove_tree (wire.rj_block_hash event) (co_candidates k);
      Ok (k <| co_candidates := candidates |>)
  | wire.EvForkchoiceApplied event =>
      validate_generation (co_active_generation k) generation ;;
      ensure (has_cap (co_capabilities k) wire.CAP_FORKCHOICE_APPLIED) ForkchoiceNotAdvertised ;;
      validate_forkchoice_view (wire.fa_view event) ;;
      Ok k
  | wire.EvCandidatesRetired event =>
      validate_generation (co_active_generation k) generation ;;
      ensure (has_cap (co_capabilities k) wire.CAP_CANDIDATE_RETIREMENT) RetirementNotAdvertised ;;
      reason ← ok_or (wire.reason_try_from (wire.rt_reason event)) UnknownReason;
      ensure (bool_decide (reason ≠ wire.ReasonUnspecified)) UnspecifiedReason ;;
      ensure (bool_decide (wire.rt_block_hashes event ≠ [])) EmptyBatch ;;
      candidates ← retire_all (wire.rt_block_hashes event) (co_candidates k);
      Ok (k <| co_candidates := candidates |>)
  | wire.EvGap gap =>
      validate_generation (co_active_generation k) generation ;;
      ensure (negb (String.eqb (wire.gap_reason gap) EmptyString)) EmptyReason ;;
      Ok (k <| co_candidates ::= tracker_clear |>)
  end.

(** The body of the read loop. *)
Definition consume (envelope : wire.Envelope) (k : Consumer) : outcome DumpError Consumer :=
  ensure (wire.protocol_version envelope =? wire.PROTOCOL_VERSION) UnsupportedVersion ;;
  ensure (len (wire.boot_id envelope) =? 16) BadBootId ;;
  k ← match co_boot_id k with
      | Some expected => ensure (bool_decide (expected = wire.boot_id envelope)) BootIdChanged ;; Ok k
      | None => Ok (k <| co_boot_id := Some (wire.boot_id envelope) |>)
      end;
  event ← ok_or (wire.event envelope) NoEvent;
  phase ← observe (co_phase k) (wire.sequence envelope) (wire.config_generation envelope) event;
  consume_event (wire.config_generation envelope) event (k <| co_phase := phase |>).

(** The read loop over the envelopes of a connection. *)
Fixpoint consume_all (envelopes : list wire.Envelope) (k : Consumer) : outcome DumpError Consumer :=
  match envelopes with
  | [] => Ok k
  | envelope :: envelopes => k ← consume envelope k; consume_all envelopes k
  end.

(** ** The tracker's invariant *)

(** The children of a hash, none when it has no list. *)
Definition children_of (t : CandidateTracker) (p : bytes) : list bytes :=
  default [] (ct_children t !! p).

Record tracker_wf (t : CandidateTracker) : Prop := {
  tw_order_nodup : NoDup (ct_order t);
  tw_order : ∀ h, h ∈ ct_order t ↔ is_Some (ct_parents t !! h);
  tw_children : ∀ p h, h ∈ children_of t p ↔ ct_parents t !! h = Some p;
  tw_nonempty : ∀ p, ct_children t !! p ≠ Some [];
}.

(** [h] is [root] or hangs below it through known parents. *)
Definition descends (t : CandidateTracker) (root h : bytes) : Prop :=
  rtc (λ p c, ct_parents t !! c = Some p) root h.

Lemma tracker_new_wf limit : tracker_wf (tracker_new limit).
Proof.
  split; simpl.
  - constructor.
  - intros h. rewrite lookup_empty. split; [set_solver|by intros [? [=]]].
  - intros p h. unfold children_of. simpl. rewrite !lookup_empty. simpl. set_solver.
  - intros p. by rewrite lookup_empty.
Qed.

Lemma tracker_clear_wf t : tracker_wf (tracker_clear t).
Proof. apply (tracker_new_wf (ct_limit t)). Qed.

Lemma children_of_remove_child parent child t p h :
  h ∈ children_of (remove_child parent child t) p ↔ h ∈ children_of t p ∧ (p = parent → h ≠ child).
Proof.
  unfold remove_child, children_of.
  destruct (ct_children t !! parent) as [l|] eqn:E; simpl.
  - case_decide as D; simpl.
    + destruct (decide (p = parent)) as [->|]; simplify_map_eq; [|naive_solver].
      split; [set_solver|]. intros [Hl Hne]. exfalso.
      assert (h ∈ filter (λ c, c ≠ child) l) as Hf by (apply list_elem_of_filter; auto).
      rewrite D in Hf. by apply elem_of_nil in Hf.
    + destruct (decide (p = parent)) as [->|]; simplify_map_eq; [|naive_solver].
      rewrite list_elem_of_filter. naive_solver.
  - destruct (decide (p = parent)) as [->|]; [|naive_solver].
    rewrite E. simpl. set_solver.
Qed.

Lemma remove_child_nonempty parent child t :
  (∀ p, ct_children t !! p ≠ Some []) → ∀ p, ct_children (remove_child parent child t) !! p ≠ Some [].
Proof.
  intros Hn p. unfold remove_child. destruct (ct_children t !! parent) as [l|] eqn:E; [|done].
  case_decide; simpl; destruct (decide (p = parent)) as [->|]; simplify_map_eq; congruence.
Qed.

Lemma remove_child_rest parent child t :
  ct_parents (remove_child parent child t) = ct_parents t ∧
  ct_order (remove_child parent child t) = ct_order t ∧
  ct_limit (remove_child parent child t) = ct_limit t.
Proof. unfold remove_child. by repeat case_match. Qed.

Lemma remove_exact_parents hash t :
  ct_parents (remove_exact hash t) = delete hash (ct_parents t).
Proof.
  unfold remove_exact. destruct (ct_parents t !! hash) eqn:E; simpl.
  - by rewrite (proj1 (remove_child_rest _ _ _)).
  - by rewrite delete_id.
Qed.

Lemma remove_exact_order hash t :
  ct_order (remove_exact hash t) = filter (λ c, c ≠ hash) (ct_order t).
Proof.
  unfold remove_exact. destruct (ct_parents t !! hash); simpl; [|done].
  by rewrite (proj1 (proj2 (remove_child_rest _ _ _))).
Qed.

Lemma remove_exact_limit hash t : ct_limit (remove_exact hash t) = ct_limit t.
Proof.
  unfold remove_exact. destruct (ct_parents t !! hash); simpl; [|done].
  by rewrite (proj2 (proj2 (remove_child_rest _ _ _))).
Qed.

(** The children index after removing one hash: its entry in its parent's list is gone. *)
Lemma remove_exact_children hash t p h :
  (∀ q, hash ∈ children_of t q → ct_parents t !! hash = Some q) →
  h ∈ children_of (remove_exact hash t) p ↔ h ∈ children_of t p ∧ h ≠ hash.
Proof.
  intros Hs. unfold remove_exact. destruct (ct_parents t !! hash) as [parent|] eqn:E.
  - change (children_of (_ <| ct_order ::= _ |>) p) with
      (children_of (remove_child parent hash (t <| ct_parents ::= delete hash |>)) p).
    rewrite children_of_remove_child.
    change (children_of (_ <| ct_parents ::= _ |>) p) with (children_of t p).
    split; intros [Hh Hne]; (split; [done|]); [|done].
    intros ->. specialize (Hs _ Hh). simplify_eq. by apply Hne.
  - change (children_of (_ <| ct_order ::= _ |>) p) with (children_of t p).
    split; [|naive_solver]. intros Hh. split; [done|]. intros ->. by specialize (Hs _ Hh).
Qed.

Lemma remove_exact_nonempty hash t :
  (∀ p, ct_children t !! p ≠ Some []) → ∀ p, ct_children (remove_exact hash t) !! p ≠ Some [].
Proof.
  intros Hn p. unfold remove_exact. destruct (ct_parents t !! hash); simpl; [|done].
  by apply remove_child_nonempty.
Qed.

Lemma remove_exact_wf hash t : tracker_wf t → tracker_wf (remove_exact hash t).
Proof.
  intros [Hnd Ho Hc Hn]. split.
  - rewrite remove_exact_order. by apply NoDup_filter.
  - intros h. rewrite remove_exact_order, remove_exact_parents, list_elem_of_filter, Ho.
    destruct (decide (h = hash)) as [->|].
    + rewrite lookup_delete_eq. split; [naive_solver|by intros [? [=]]].
    + rewrite lookup_delete_ne by done. naive_solver.
  - intros p h. rewrite remove_exact_children by (intros q; apply Hc).
    rewrite remove_exact_parents, Hc. destruct (decide (h = hash)) as [->|].
    + rewrite lookup_delete_eq. naive_solver.
    + rewrite lookup_delete_ne by done. naive_solver.
  - by apply remove_exact_nonempty.
Qed.

(** ** Insertion *)

Lemma children_of_push_child parent hash t p h :
  h ∈ children_of (push_child parent hash t) p ↔ h ∈ children_of t p ∨ (p = parent ∧ h = hash).
Proof.
  unfold push_child, children_of. simpl.
  destruct (decide (p = parent)) as [->|]; simplify_map_eq; [|naive_solver].
  rewrite elem_of_app, list_elem_of_singleton. naive_solver.
Qed.

Lemma push_child_nonempty parent hash t :
  (∀ p, ct_children t !! p ≠ Some []) → ∀ p, ct_children (push_child parent hash t) !! p ≠ Some [].
Proof.
  intros Hn p. unfold push_child. simpl.
  destruct (decide (p = parent)) as [->|]; simplify_map_eq; [|done].
  intros [= E]. by destruct (default [] _).
Qed.

(** The tracker before the limit is enforced. *)
Definition tracker_put (hash parent_hash : bytes) (t : CandidateTracker) : CandidateTracker :=
  match ct_parents t !! hash with
  | Some previous_parent =>
      let t := t <| ct_parents ::= insert hash parent_hash |> in
      if decide (previous_parent = parent_hash) then t
      else push_child parent_hash hash (remove_child previous_parent hash t)
  | None =>
      push_child parent_hash hash
        (t <| ct_order ::= λ l, l ++ [hash] |> <| ct_parents ::= insert hash parent_hash |>)
  end.

Lemma tracker_put_parents hash parent t :
  ct_parents (tracker_put hash parent t) = <[hash := parent]> (ct_parents t).
Proof.
  unfold tracker_put. destruct (ct_parents t !! hash); [|done]. case_decide; [done|].
  unfold push_child. simpl. by rewrite (proj1 (remove_child_rest _ _ _)).
Qed.

Lemma tracker_put_limit hash parent t : ct_limit (tracker_put hash parent t) = ct_limit t.
Proof.
  unfold tracker_put. destruct (ct_parents t !! hash); [|done]. case_decide; [done|].
  unfold push_child. simpl. by rewrite (proj2 (proj2 (remove_child_rest _ _ _))).
Qed.

Lemma tracker_put_order hash parent t :
  ct_order (tracker_put hash parent t) =
    if decide (is_Some (ct_parents t !! hash)) then ct_order t else ct_order t ++ [hash].
Proof.
  unfold tracker_put. destruct (ct_parents t !! hash).
  - rewrite (decide_True (P := is_Some _)) by eauto. case_decide; [done|].
    unfold push_child. simpl. by rewrite (proj1 (proj2 (remove_child_rest _ _ _))).
  - by rewrite decide_False by (by intros [? [=]]).
Qed.

Lemma tracker_put_children hash parent t p h :
  tracker_wf t →
  h ∈ children_of (tracker_put hash parent t) p ↔ <[hash := parent]> (ct_parents t) !! h = Some p.
Proof.
  intros [_ _ Hc _]. unfold tracker_put.
  destruct (ct_parents t !! hash) as [previous|] eqn:E.
  - case_decide as D; cbv zeta.
    + subst. change (children_of _ p) with (children_of t p). rewrite Hc.
      by rewrite insert_id.
    + rewrite children_of_push_child, children_of_remove_child.
      change (children_of (_ <| ct_parents ::= _ |>) p) with (children_of t p). rewrite Hc.
      destruct (decide (h = hash)) as [->|]; simplify_map_eq; naive_solver.
  - rewrite children_of_push_child.
    change (children_of (_ <| ct_parents ::= _ |>) p) with (children_of t p). rewrite Hc.
    destruct (decide (h = hash)) as [->|]; simplify_map_eq; naive_solver.
Qed.

Lemma tracker_put_wf hash parent t : tracker_wf t → tracker_wf (tracker_put hash parent t).
Proof.
  intros Hwf. pose proof Hwf as [Hnd Ho Hc Hn]. split.
  - rewrite tracker_put_order. case_decide as D; [done|].
    apply NoDup_app. split_and!; [done| |apply NoDup_singleton].
    intros x Hx ->%list_elem_of_singleton. by apply D, Ho.
  - intros h. rewrite tracker_put_order, tracker_put_parents.
    destruct (decide (h = hash)) as [->|].
    + rewrite lookup_insert_eq. case_decide as D; [rewrite Ho; naive_solver|].
      rewrite elem_of_app, list_elem_of_singleton. naive_solver.
    + rewrite lookup_insert_ne, <- (Ho h) by done. case_decide; [done|].
      rewrite elem_of_app, list_elem_of_singleton. naive_solver.
  - intros p h. rewrite tracker_put_parents. by apply tracker_put_children.
  - unfold tracker_put. destruct (ct_parents t !! hash); [case_decide; [done|]|];
      apply push_child_nonempty; [apply remove_child_nonempty|]; done.
Qed.

Lemma tracker_order_size t : tracker_wf t → length (ct_order t) = size (ct_parents t).
Proof.
  intros [Hnd Ho _ _]. rewrite <- size_dom.
  rewrite <- (size_list_to_set (C := gset bytes) _ Hnd). f_equal.
  apply set_eq. intros h. by rewrite elem_of_list_to_set, elem_of_dom, Ho.
Qed.

(** Evicting ends within the fuel: the oldest hashes go, as many as are over the limit. *)
Lemma tracker_evict_spec fuel : ∀ t,
  tracker_wf t → (length (ct_order t) < fuel)%nat →
  let excess := (length (ct_order t) - N.to_nat (ct_limit t))%nat in
  ∃ t', tracker_evict fuel t = Ok t' ∧ tracker_wf t' ∧ ct_limit t' = ct_limit t ∧
    ct_order t' = drop excess (ct_order t) ∧
    ∀ h, ct_parents t' !! h =
      if decide (h ∈ take excess (ct_order t)) then None else ct_parents t !! h.
Proof.
  induction fuel as [|fuel IH]; intros t Hwf Hf; [lia|]. cbv zeta. cbn [tracker_evict].
  pose proof (tracker_order_size t Hwf) as Hs.
  destruct (N.ltb_spec (ct_limit t) (N.of_nat (size (ct_parents t)))) as [Hlt|Hge]; cbn [negb].
  - pose proof (tw_order_nodup _ Hwf) as Hnd.
    destruct (ct_order t) as [|oldest rest] eqn:Eo; [simpl in *; lia|].
    apply NoDup_cons in Hnd as [Hnot Hnd].
    assert (Hsame : remove_exact oldest (t <| ct_order := rest |>) =
                    remove_exact oldest t).
    { unfold remove_exact. simpl. destruct (ct_parents t !! oldest); simpl; [|rewrite Eo].
      - unfold remove_child. simpl. destruct (ct_children t !! _); [case_decide|]; simpl;
          unfold update; simpl; f_equal; rewrite Eo;
          (rewrite filter_cons_False by naive_solver; done).
      - unfold update. simpl. f_equal. rewrite filter_cons_False by naive_solver. done. }
    rewrite Hsame. clear Hsame.
    assert (Hrest : ct_order (remove_exact oldest t) = rest).
    { rewrite remove_exact_order, Eo, filter_cons_False by naive_solver.
      apply filter_all. intros x Hx ->. done. }
    destruct (IH (remove_exact oldest t)) as (t' & He & Hwf' & Hl & Ho' & Hp).
    { by apply remove_exact_wf. }
    { rewrite Hrest. simpl in Hf. lia. }
    rewrite Hrest, remove_exact_limit in *. exists t'.
    replace (length (oldest :: rest) - N.to_nat (ct_limit t))%nat
      with (S (length rest - N.to_nat (ct_limit t))) by (simpl in *; lia).
    split_and!; [done..|]. intros h. rewrite Hp, remove_exact_parents. cbn [take].
    destruct (decide (h = oldest)) as [->|].
    + rewrite lookup_delete_eq, (decide_True (P := oldest ∈ oldest :: _)) by left.
      by case_decide.
    + rewrite lookup_delete_ne by done.
      case_decide as D; case_decide as D'; rewrite elem_of_cons in D'; naive_solver.
  - exists t. replace (length (ct_order t) - N.to_nat (ct_limit t))%nat with 0%nat by lia.
    rewrite drop_0. split_and!; [done..|]. intros h. rewrite decide_False; [done|].
    rewrite take_0. apply not_elem_of_nil.
Qed.

Lemma tracker_insert_total hash parent t :
  tracker_wf t →
  ∃ t', tracker_insert hash parent t = Ok t' ∧ tracker_wf t' ∧ ct_limit t' = ct_limit t ∧
    let put := tracker_put hash parent t in
    let excess := (length (ct_order put) - N.to_nat (ct_limit t))%nat in
    ct_order t' = drop excess (ct_order put) ∧
    ∀ h, ct_parents t' !! h =
      if decide (h ∈ take excess (ct_order put)) then None
      else <[hash := parent]> (ct_parents t) !! h.
Proof.
  intros Hwf. cbv zeta.
  destruct (tracker_evict_spec (S (length (ct_order (tracker_put hash parent t))))
              (tracker_put hash parent t)) as (t' & He & Hwf' & Hl & Ho & Hp).
  { by apply tracker_put_wf. }
  { lia. }
  exists t'. rewrite tracker_put_limit in *. split_and!; [exact He|done..|].
  intros h. by rewrite Hp, tracker_put_parents.
Qed.

(** Inserting a candidate into the consumer's tracker always returns. The tracker stays
    consistent and within its limit, holds the inserted hash under its parent (the limit being
    positive), and drops only the hashes that were inserted earliest. *)
Theorem tracker_insert_bounded hash parent t :
  tracker_wf t → 0 < ct_limit t → N.of_nat (size (ct_parents t)) ≤ ct_limit t →
  ct_parents t !! hash = None →
  ∃ t', tracker_insert hash parent t = Ok t' ∧ tracker_wf t' ∧
    N.of_nat (size (ct_parents t')) ≤ ct_limit t' ∧
    ct_parents t' !! hash = Some parent ∧
    ∀ h, h ≠ hash →
      ct_parents t' !! h =
        if decide (N.of_nat (size (ct_parents t)) = ct_limit t ∧ head (ct_order t) = Some h)
        then None else ct_parents t !! h.
Proof.
  intros Hwf Hpos Hsz Hnew.
  destruct (tracker_insert_total hash parent t Hwf) as (t' & Hi & Hwf' & Hl & Ho & Hp).
  pose proof (tracker_order_size t Hwf) as Hs. pose proof (tracker_order_size t' Hwf') as Hs'.
  rewrite tracker_put_order, decide_False in Ho, Hp by (rewrite Hnew; by intros [? [=]]).
  exists t'. rewrite length_app in Ho, Hp. simpl in Ho, Hp.
  assert (Hnot : hash ∉ ct_order t).
  { intros Hin. apply (tw_order _ Hwf) in Hin. rewrite Hnew in Hin. by destruct Hin. }
  split_and!; [done..| | |].
  - rewrite <- Hs', Ho, length_drop, length_app, Hl. simpl. lia.
  - rewrite Hp, lookup_insert_eq, decide_False; [done|].
    rewrite take_app_le by lia. intros Hin. apply Hnot. apply elem_of_take in Hin as (i & Hi1 & _). by eapply list_elem_of_lookup_2.
  - intros h Hne. rewrite Hp, lookup_insert_ne by done. rewrite take_app_le by lia.
    destruct (decide (N.of_nat (size (ct_parents t)) = ct_limit t)) as [E|E].
    + replace (length (ct_order t) + 1 - N.to_nat (ct_limit t))%nat with 1%nat by lia.
      destruct (ct_order t) as [|o l]; [simpl in *; lia|]. simpl.
      rewrite take_0. case_decide as D; case_decide as D'; set_solver.
    + replace (length (ct_order t) + 1 - N.to_nat (ct_limit t))%nat with 0%nat by lia.
      rewrite take_0. case_decide as D; case_decide as D'; set_solver.
Qed.

(** ** Subtree removal *)

(** The state of the stack loop: [gone] are the hashes popped so far. *)
Record removing (t0 : CandidateTracker) (root : bytes) (gone : gset bytes) (pending : list bytes)
    (t : CandidateTracker) : Prop := {
  rm_parents : ∀ h, ct_parents t !! h = if decide (h ∈ gone) then None else ct_parents t0 !! h;
  rm_children : ∀ p h, h ∈ children_of t p ↔ ct_parents t !! h = Some p ∧ p ∉ gone;
  rm_pending : ∀ h p, p ∈ gone → ct_parents t !! h = Some p → h ∈ pending;
  rm_below : ∀ h, h ∈ gone ∨ h ∈ pending → descends t0 root h;
  rm_root : root ∈ gone ∨ root ∈ pending;
  rm_order_nodup : NoDup (ct_order t);
  rm_order : ∀ h, h ∈ ct_order t ↔ is_Some (ct_parents t !! h);
  rm_nonempty : ∀ p, ct_children t !! p ≠ Some [];
  rm_limit : ct_limit t = ct_limit t0;
}.

Lemma children_of_delete hash t p :
  children_of (t <| ct_children ::= delete hash |>) p =
    if decide (p = hash) then [] else children_of t p.
Proof.
  unfold children_of. simpl. case_decide as D; [subst; by rewrite lookup_delete_eq|].
  by rewrite lookup_delete_ne.
Qed.

Lemma removing_step t0 root gone hash pending t :
  removing t0 root gone (hash :: pending) t →
  removing t0 root ({[hash]} ∪ gone) (rev (children_of t hash) ++ pending)
    (remove_exact hash (t <| ct_children ::= delete hash |>)).
Proof.
  intros [Hp Hc Hpend Hb Hr Hnd Ho Hn Hl].
  assert (Hpar : ∀ h, delete hash (ct_parents t) !! h =
                   if decide (h ∈ {[hash]} ∪ gone) then None else ct_parents t0 !! h).
  { intros h. destruct (decide (h = hash)) as [->|].
    - rewrite lookup_delete_eq, decide_True by set_solver. done.
    - rewrite lookup_delete_ne, Hp by done. case_decide; case_decide; set_solver. }
  split.
  - intros h. by rewrite remove_exact_parents.
  - intros p h. rewrite remove_exact_children, remove_exact_parents, children_of_delete; [simpl|].
    + destruct (decide (h = hash)) as [->|].
      { rewrite lookup_delete_eq. naive_solver. }
      rewrite lookup_delete_ne by done. case_decide as D.
      * subst. set_solver.
      * rewrite Hc. set_solver.
    + intros q. rewrite children_of_delete. case_decide; [set_solver|]. intros [? _]%Hc. done.
  - intros h p Hg. rewrite remove_exact_parents. simpl. intros Hh.
    assert (h ≠ hash) as Hne by (intros ->; by rewrite lookup_delete_eq in Hh).
    rewrite lookup_delete_ne in Hh by done. apply elem_of_app.
    destruct (decide (p ∈ gone)) as [Hpg|Hpg].
    + right. specialize (Hpend _ _ Hpg Hh). by apply elem_of_cons in Hpend as [?|?].
    + left. assert (p = hash) as -> by set_solver. rewrite elem_of_rev.
      by apply Hc.
  - intros h [Hh|Hh]; [apply Hb; set_solver|]. apply elem_of_app in Hh as [Hh|Hh]; [|apply Hb; set_solver].
    rewrite elem_of_rev in Hh. apply Hc in Hh as [Hh Hg].
    eapply rtc_r; [apply (Hb hash); right; left|]. rewrite Hp in Hh. by destruct (decide (h ∈ gone)).
  - set_solver.
  - rewrite remove_exact_order. by apply NoDup_filter.
  - intros h. rewrite remove_exact_order, remove_exact_parents, list_elem_of_filter. simpl.
    rewrite Ho. destruct (decide (h = hash)) as [->|].
    + rewrite lookup_delete_eq. split; [naive_solver|by intros [? [=]]].
    + rewrite lookup_delete_ne by done. naive_solver.
  - apply remove_exact_nonempty. intros p. simpl. destruct (decide (p = hash)) as [->|].
    + by rewrite lookup_delete_eq.
    + by rewrite lookup_delete_ne.
  - by rewrite remove_exact_limit.
Qed.

Lemma remove_child_total parent child t :
  (map_total (ct_children (remove_child parent child t)) ≤ map_total (ct_children t))%nat.
Proof.
  unfold remove_child. destruct (ct_children t !! parent) as [l|] eqn:E; [|done].
  rewrite (map_total_delete (ct_children t) parent), E. case_decide; simpl; [lia|].
  rewrite map_total_insert. pose proof (length_filter (λ c, c ≠ child) l). lia.
Qed.

Lemma remove_exact_total hash t :
  (map_total (ct_children (remove_exact hash t)) ≤ map_total (ct_children t))%nat.
Proof.
  unfold remove_exact. destruct (ct_parents t !! hash); simpl; [|done].
  etrans; [apply remove_child_total|done].
Qed.

Lemma tracker_remove_loop_spec t0 root fuel : ∀ gone pending t,
  removing t0 root gone pending t → (length pending + map_total (ct_children t) < fuel)%nat →
  ∃ gone' t', tracker_remove_loop fuel pending t = Ok t' ∧ removing t0 root gone' [] t'.
Proof.
  induction fuel as [|fuel IH]; intros gone pending t Hr Hf; [lia|].
  destruct pending as [|hash pending]; [by exists gone, t|]. cbn [tracker_remove_loop]. cbv zeta.
  eapply IH; [by apply removing_step|].
  pose proof (remove_exact_total hash (t <| ct_children ::= delete hash |>)) as Ht.
  rewrite length_app, length_rev. rewrite (map_total_delete (ct_children t) hash) in Hf.
  simpl in *. unfold children_of. lia.
Qed.

Lemma tracker_remove_tree_spec root t :
  tracker_wf t →
  ∃ t', tracker_remove_tree root t = Ok t' ∧ tracker_wf t' ∧
    (∀ h, descends t root h → ct_parents t' !! h = None) ∧
    (∀ h, ~ descends t root h → ct_parents t' !! h = ct_parents t !! h).
Proof.
  intros [Hnd Ho Hc Hn].
  destruct (tracker_remove_loop_spec t root (2 + map_total (ct_children t)) ∅ [root] t)
    as (gone & t' & Hloop & [Hp Hc' Hpend Hb Hr Hnd' Ho' Hn' Hl']).
  { split; try done.
    - intros p h. rewrite Hc. set_solver.
    - intros h [?| ->%list_elem_of_singleton]; [set_solver|apply rtc_refl].
    - right. by apply list_elem_of_singleton. }
  { simpl. lia. }
  assert (Hall : ∀ h, descends t root h → h ∈ gone).
  { apply rtc_ind_r; [set_solver|]. intros p h Hd Hh IH.
    destruct (decide (h ∈ gone)) as [|Hg]; [done|]. exfalso.
    apply (not_elem_of_nil h), (Hpend h p IH). by rewrite Hp, decide_False. }
  unfold tracker_remove_tree. rewrite Hloop. cbn [mbind outcome_bind].
  assert (Hsame : filter (λ h, is_Some (ct_parents t' !! h)) (ct_order t') = ct_order t')
    by (apply filter_all; intros h; apply Ho').
  eexists. split; [done|]. split_and!.
  - split; simpl; rewrite ?Hsame; try done.
    intros p h. change (children_of _ p) with (children_of t' p). rewrite Hc'. split; [naive_solver|].
    intros Hh. split; [done|]. intros Hg. specialize (Hpend _ _ Hg Hh). set_solver.
  - intros h Hd. simpl. by rewrite Hp, decide_True by auto.
  - intros h Hd. simpl. rewrite Hp, decide_False; [done|]. intros Hg. apply Hd, Hb. by left.
Qed.

(** C36: Removing a rejected block from the consumer's tracker always returns, leaves a consistent
    tracker, and forgets exactly the block and the known blocks below it. *)
Theorem tracker_remove_tree_exact root t :
  tracker_wf t →
  ∃ t', tracker_remove_tree root t = Ok t' ∧ tracker_wf t' ∧
    (∀ h, descends t root h → ct_parents t' !! h = None) ∧
    (∀ h, ~ descends t root h → ct_parents t' !! h = ct_parents t !! h).
Proof. apply tracker_remove_tree_spec. Qed.

(** Two tracked candidates, the second a child of the first, in a full tracker. *)
Definition sample_tracker : CandidateTracker :=
  mkCandidateTracker {[ [1] := [0]; [2] := [1] ]} {[ [0] := [[1]]; [1] := [[2]] ]} [[1]; [2]] 2.

Lemma sample_tracker_wf : tracker_wf sample_tracker.
Proof.
  destruct (tracker_insert_total [1] [0] (tracker_new 2)) as (t1 & E1 & Hwf1 & _); [apply tracker_new_wf|].
  destruct (tracker_insert_total [2] [1] t1 Hwf1) as (t2 & E2 & Hwf2 & _).
  assert (Ok t2 = Ok (E := DumpError) sample_tracker) as [= ->]; [|done].
  rewrite <- E2. assert (t1 = mkCandidateTracker {[ [1] := [0] ]} {[ [0] := [[1]] ]} [[1]] 2) as ->;
    [|vm_compute; reflexivity].
  assert (Ok t1 = Ok (E := DumpError) (mkCandidateTracker {[ [1] := [0] ]} {[ [0] := [[1]] ]} [[1]] 2)) as [= ->];
    [rewrite <- E1; vm_compute; reflexivity|done].
Qed.

Lemma tracker_remove_tree_exact_witness :
  ∃ t', tracker_remove_tree [1] sample_tracker = Ok t' ∧ ct_parents t' !! [2] = None.
Proof.
  destruct (tracker_remove_tree_exact [1] sample_tracker) as (t' & Hr & _ & Hgone & _);
    [apply sample_tracker_wf|].
  exists t'. split; [exact Hr|]. apply Hgone. apply rtc_once. reflexivity.
Defined.
