(* ===== verification/Stream.v ===== *)
(** * The stream protocol

    What a well-formed live stream is, as an automaton over envelopes: contiguous
    sequence numbers, holes only in front of a [Gap], a [Snapshot] right after
    every [Gap] and [ConfigActivated], one generation and one dictionary size
    between two activations, and well-formed payloads.  The publisher refines
    this automaton (see [PublisherInv]); the consumer of
    src/src/bin/statefeed-dump.rs accepts every stream of it. *)

From S2P Require Import Prelude Bytes Config Wire Client Consumer.
From stdpp Require Import list.
Local Open Scope N_scope.

(** Where a stream stands after its last envelope. *)
Record StreamState := mkStreamState {
  ss_sequence : N;
  ss_snapshot_required : bool;
  ss_generation : N;
  ss_keys : N;
}.

(** What does not change during a connection. *)
Record StreamParams := {
  sp_boot_id : bytes;
  sp_capabilities : N;
}.

Definition hash_wf (h : bytes) : Prop := len h = 32.

Definition block_ref_wf (b : option wire.BlockRef) : Prop :=
  ∃ r, b = Some r ∧ hash_wf (wire.br_hash r) ∧ hash_wf (wire.br_parent_hash r).

Definition values_wf (keys : N) (values : bytes) : Prop :=
  len values = 32 * keys ∧ 32 * keys ≤ u64_max.

Definition checkpoint_wf (head : wire.CheckpointRef) (c : option wire.CheckpointRef) : Prop :=
  ∀ r, c = Some r → hash_wf (wire.cr_hash r) ∧ wire.cr_number r ≤ wire.cr_number head.

Definition view_wf (v : option wire.ForkchoiceView) (head : wire.CheckpointRef) : Prop :=
  ∃ view, v = Some view ∧ wire.fv_head view = Some head ∧ hash_wf (wire.cr_hash head) ∧
    checkpoint_wf head (wire.fv_safe view) ∧ checkpoint_wf head (wire.fv_finalized view) ∧
    ∀ s f, wire.fv_safe view = Some s → wire.fv_finalized view = Some f →
      wire.cr_number f ≤ wire.cr_number s.

Definition dictionary_wf (config : wire.ConfigActivated) : Prop :=
  ∀ i key, wire.keys config !! i = Some key →
    wire.key_id key = N.of_nat i ∧ len (wire.address key) = 20 ∧ len (wire.slot key) = 32.

Definition snapshot_wf (keys : N) (s : wire.Snapshot) : Prop :=
  ∃ head, block_ref_wf (wire.sn_block s) ∧ view_wf (wire.sn_forkchoice s) head ∧
    (∀ r, wire.sn_block s = Some r → wire.cr_number head = wire.br_number r ∧
                                     wire.cr_hash head = wire.br_hash r) ∧
    values_wf keys (wire.sn_values s).

Definition bitmap_wf (keys : N) (bitmap : bytes) : Prop := len bitmap = div_ceil keys 8.

(** The payloads of the events that leave the generation and the dictionary alone. *)
Definition data_wf (capabilities keys : N) (event : wire.Event) : Prop :=
  match event with
  | wire.EvBlockState s =>
      block_ref_wf (wire.bs_block s) ∧ values_wf keys (wire.bs_values s) ∧
      bitmap_wf keys (wire.bs_changed_bitmap s) ∧
      (wire.bs_stage s = wire.stage_i32 wire.StageValidated ∨
       wire.bs_stage s = wire.stage_i32 wire.StageExecuted ∧
         has_cap capabilities wire.CAP_EXECUTED = true)
  | wire.EvBlockValidated v => hash_wf (wire.bv_block_hash v)
  | wire.EvBlockRejected r => hash_wf (wire.rj_block_hash r) ∧ wire.rj_reason r ≠ EmptyString
  | wire.EvCanonicalHead h =>
      hash_wf (wire.ch_previous_block_hash h) ∧ block_ref_wf (wire.ch_block h) ∧
      values_wf keys (wire.ch_values h) ∧
      (wire.ch_changed_bitmap h = [] ∨ bitmap_wf keys (wire.ch_changed_bitmap h))
  | wire.EvForkchoiceApplied f =>
      has_cap capabilities wire.CAP_FORKCHOICE_APPLIED = true ∧ ∃ head, view_wf (wire.fa_view f) head
  | wire.EvCandidatesRetired r =>
      has_cap capabilities wire.CAP_CANDIDATE_RETIREMENT = true ∧ wire.rt_block_hashes r ≠ [] ∧
      Forall hash_wf (wire.rt_block_hashes r) ∧
      ∃ reason, reason ≠ wire.ReasonUnspecified ∧ wire.rt_reason r = wire.reason_i32 reason
  | _ => False
  end.

Definition envelope_wf (params : StreamParams) (e : wire.Envelope) : Prop :=
  wire.protocol_version e = wire.PROTOCOL_VERSION ∧ wire.boot_id e = sp_boot_id params ∧
  wire.sequence e ≤ u64_max.

(** One envelope of a live stream. *)
Inductive stream_step (params : StreamParams) (s : StreamState) (e : wire.Envelope) : StreamState → Prop :=
| step_data event :
    envelope_wf params e → wire.event e = Some event → ss_snapshot_required s = false →
    wire.sequence e = ss_sequence s + 1 → wire.config_generation e = ss_generation s →
    data_wf (sp_capabilities params) (ss_keys s) event →
    stream_step params s e (mkStreamState (wire.sequence e) false (ss_generation s) (ss_keys s))
| step_gap gap :
    envelope_wf params e → wire.event e = Some (wire.EvGap gap) → ss_snapshot_required s = false →
    ss_sequence s < wire.sequence e → wire.config_generation e = ss_generation s →
    wire.gap_last_contiguous_sequence gap = ss_sequence s → wire.gap_reason gap ≠ EmptyString →
    stream_step params s e (mkStreamState (wire.sequence e) true (ss_generation s) (ss_keys s))
| step_snapshot snapshot :
    envelope_wf params e → wire.event e = Some (wire.EvSnapshot snapshot) →
    wire.sequence e = ss_sequence s + 1 → wire.config_generation e = ss_generation s →
    snapshot_wf (ss_keys s) snapshot →
    stream_step params s e (mkStreamState (wire.sequence e) false (ss_generation s) (ss_keys s))
| step_config config :
    envelope_wf params e → wire.event e = Some (wire.EvConfigActivated config) →
    ss_snapshot_required s = false → wire.sequence e = ss_sequence s + 1 →
    ss_generation s < wire.config_generation e → dictionary_wf config →
    stream_step params s e
      (mkStreamState (wire.sequence e) true (wire.config_generation e) (len (wire.keys config))).

(** A live stream. *)
Inductive stream (params : StreamParams) (s : StreamState) : list wire.Envelope → StreamState → Prop :=
| stream_nil : stream params s [] s
| stream_snoc es e s' s'' :
    stream params s es s' → stream_step params s' e s'' → stream params s (es ++ [e]) s''.

Lemma stream_one params s e s' : stream_step params s e s' → stream params s [e] s'.
Proof. intros H. apply (stream_snoc _ _ [] e s s'); [constructor|done]. Qed.

Lemma stream_one_inv params s e s' : stream params s [e] s' → stream_step params s e s'.
Proof.
  intros H. inversion H as [|es e' s1 s2 Hs Hstep E]; subst.
  destruct es as [|x es]; [|by destruct es]. injection E as ->.
  inversion Hs as [|l ? ? ? ? ? E']; [by subst|by destruct l].
Qed.

Lemma stream_app params s es s1 es' s2 :
  stream params s es s1 → stream params s1 es' s2 → stream params s (es ++ es') s2.
Proof.
  intros H1 H2. induction H2 as [|es' e s' s'' _ IH Hstep]; [by rewrite app_nil_r|].
  rewrite app_assoc. by econstructor.
Qed.

(** Splitting a stream at any point. *)
Lemma stream_split params s es es' s2 :
  stream params s (es ++ es') s2 → ∃ s1, stream params s es s1 ∧ stream params s1 es' s2.
Proof.
  revert s2. induction es' as [|e es' IH] using rev_ind; intros s2 H.
  - rewrite app_nil_r in H. exists s2. split; [done|constructor].
  - rewrite app_assoc in H. inversion H as [Heq|l e' s' s'' Hl Hstep Heq]; subst.
    + by destruct (es ++ es').
    + apply app_inj_tail in Heq as [-> ->]. destruct (IH _ Hl) as (s1 & Ha & Hb).
      exists s1. split; [done|]. by econstructor.
Qed.

(** The generation of a stream is a function of its envelopes, and does not go back. *)
Lemma stream_nil_inv params s s' : stream params s [] s' → s' = s.
Proof. intros H. inversion H as [|l e ? ? _ _ E]; [done|]. by destruct l. Qed.

Lemma stream_step_generation params s e s' :
  stream_step params s e s' →
  ss_generation s' = (match wire.event e with Some (wire.EvConfigActivated _) => wire.config_generation e
                      | _ => ss_generation s end) ∧ ss_generation s ≤ ss_generation s'.
Proof. intros [event ? -> ? ? ? Hd|? ? -> ?|? ? ->|? ? -> ?]; simpl; [by destruct event|lia..]. Qed.

Lemma stream_generation params es : ∀ s s1 s2,
  stream params s es s1 → stream params s es s2 → ss_generation s1 = ss_generation s2.
Proof.
  induction es as [|e es IH] using rev_ind; intros s s1 s2 H1 H2.
  { apply stream_nil_inv in H1, H2. by subst. }
  apply stream_split in H1 as (t1 & H1 & [E1 _]%stream_one_inv%stream_step_generation).
  apply stream_split in H2 as (t2 & H2 & [E2 _]%stream_one_inv%stream_step_generation).
  rewrite E1, E2. by rewrite (IH _ _ _ H1 H2).
Qed.

Lemma stream_generation_mono params s es s' : stream params s es s' → ss_generation s ≤ ss_generation s'.
Proof. induction 1 as [|es e s1 s2 _ IH [_ Hstep]%stream_step_generation]; [done|]. by etrans. Qed.

(** ** The consumer accepts it *)

(** A consumer at the same point of the stream. *)
Record linked (params : StreamParams) (s : StreamState) (k : Consumer) : Prop := {
  ln_phase : co_phase k = PhaseLive (ss_sequence s) (ss_snapshot_required s);
  ln_generation : co_active_generation k = Some (ss_generation s);
  ln_keys : co_key_count k = ss_keys s;
  ln_boot_id : co_boot_id k = Some (sp_boot_id params) ∧ len (sp_boot_id params) = 16;
  ln_capabilities : co_capabilities k = sp_capabilities params;
  ln_tracker : tracker_wf (co_candidates k);
}.

Lemma follows_succ n : n + 1 ≤ u64_max → follows n (n + 1) = true.
Proof.
  intros Hle. unfold follows, checked_add. apply bool_decide_eq_true.
  by rewrite (proj2 (N.leb_le _ _) Hle).
Qed.

Lemma ensure_bind {E A} b (e : E) (k : () → outcome E A) : b = true → (ensure b e ≫= k) = k ().
Proof. by intros ->. Qed.

Lemma len_eqb {A} (l : list A) n : len l = n → (len l =? n) = true.
Proof. intros. by apply N.eqb_eq. Qed.

Lemma check_block_ref b : block_ref_wf b → ∃ r, b = Some r ∧ validate_block_ref b = Ok r.
Proof.
  intros (r & -> & H1 & H2). exists r. split; [done|]. unfold validate_block_ref. cbn [ok_or mbind outcome_bind].
  by rewrite !ensure_bind by by apply len_eqb.
Qed.

Lemma check_values_ok keys values : values_wf keys values → check_values values keys = Ok ().
Proof.
  intros [Hl Hm]. unfold check_values, packed_new, checked_mul.
  rewrite (proj2 (N.leb_le (keys * 32) u64_max)) by lia.
  by rewrite (proj2 (N.eqb_eq (len values) (keys * 32))) by lia.
Qed.

Lemma check_checkpoint_list head cs :
  Forall (λ r, hash_wf (wire.cr_hash r) ∧ wire.cr_number r ≤ wire.cr_number head) cs →
  check_checkpoints (wire.cr_number head) cs = Ok ().
Proof.
  induction 1 as [|r cs [Hh Hn] _ IH]; [done|]. cbn [check_checkpoints].
  rewrite ensure_bind by by apply len_eqb.
  by rewrite ensure_bind by by apply N.leb_le.
Qed.

Lemma check_view v head : view_wf v head → ∃ view, validate_forkchoice_view v = Ok (view, head).
Proof.
  intros (view & -> & Hh & Hl & Hs & Hf & Hsf). exists view. unfold validate_forkchoice_view.
  cbn [ok_or mbind outcome_bind]. rewrite Hh. cbn [ok_or mbind outcome_bind].
  rewrite ensure_bind by by apply len_eqb.
  rewrite check_checkpoint_list.
  - cbn [mbind outcome_bind]. destruct (wire.fv_safe view) as [s|], (wire.fv_finalized view) as [f|]; try done.
    by rewrite ensure_bind by (apply N.leb_le; auto).
  - apply Forall_app. split.
    + destruct (wire.fv_safe view); [apply Forall_singleton; by apply Hs|constructor].
    + destruct (wire.fv_finalized view); [apply Forall_singleton; by apply Hf|constructor].
Qed.

Lemma check_dictionary config :
  dictionary_wf config →
  forallb id (imap (λ index key, wire.key_id key =? N.of_nat index) (wire.keys config)) = true ∧
  forallb (λ key, (len (wire.address key) =? 20) && (len (wire.slot key) =? 32)) (wire.keys config) = true.
Proof.
  intros Hd. split; apply forallb_forall; intros x Hx; apply list_elem_of_In, list_elem_of_lookup in Hx as [i Hi].
  - rewrite list_lookup_imap in Hi. apply fmap_Some in Hi as (key & Hkey & ->).
    unfold id. apply N.eqb_eq. by apply Hd.
  - destruct (Hd _ _ Hi) as (_ & -> & ->). done.
Qed.

Lemma retire_all_ok hashes : ∀ t,
  tracker_wf t → Forall hash_wf hashes → ∃ t', retire_all hashes t = Ok t' ∧ tracker_wf t'.
Proof.
  induction hashes as [|h hashes IH]; intros t Hwf Hf; [by exists t|].
  apply Forall_cons in Hf as [Hh Hf]. cbn [retire_all]. rewrite ensure_bind by by apply len_eqb.
  apply IH; [by apply remove_exact_wf|done].
Qed.

Lemma validate_generation_ok g : validate_generation (Some g) g = Ok ().
Proof. unfold validate_generation. by rewrite bool_decide_eq_true_2. Qed.

(** The subtree removal returns a consistent tracker. *)
Lemma tracker_remove_tree_total root t :
  tracker_wf t → ∃ t', tracker_remove_tree root t = Ok t' ∧ tracker_wf t'.
Proof. intros Hwf. destruct (tracker_remove_tree_spec root t Hwf) as (t' & ? & ? & _). eauto. Qed.

(** ** Simulation *)

Lemma observe_data s sequence generation event :
  sequence = s + 1 → sequence ≤ u64_max →
  is_hello event = false → (∀ gap, event ≠ wire.EvGap gap) →
  observe (PhaseLive s false) sequence generation event = Ok (PhaseLive sequence (is_config event)).
Proof.
  intros -> Hle Hh Hg. cbn [observe]. rewrite ensure_bind by by rewrite Hh.
  destruct event; try (by rewrite ensure_bind by by apply follows_succ). by destruct (Hg e).
Qed.

(** A consumer at [s] that observes a live envelope at [s'] looks at its event. *)
Lemma consume_live params s s' e event k :
  linked params s k → envelope_wf params e → wire.event e = Some event →
  observe (PhaseLive (ss_sequence s) (ss_snapshot_required s)) (wire.sequence e) (wire.config_generation e)
    event = Ok (PhaseLive (ss_sequence s') (ss_snapshot_required s')) →
  consume e k =
    consume_event (wire.config_generation e) event
      (k <| co_phase := PhaseLive (ss_sequence s') (ss_snapshot_required s') |>).
Proof.
  intros [Hp _ _ [Hb Hl] _ _] (Hv & Hboot & _) He Ho. unfold consume. rewrite Hv, Hboot, Hb, He.
  rewrite ensure_bind by done. rewrite ensure_bind by by apply len_eqb.
  rewrite ensure_bind by by apply bool_decide_eq_true. cbn [mbind outcome_bind ok_or].
  rewrite Hp, Ho. done.
Qed.

Lemma consume_data params s e event k :
  linked params s k → envelope_wf params e → wire.event e = Some event →
  ss_snapshot_required s = false → wire.sequence e = ss_sequence s + 1 →
  wire.config_generation e = ss_generation s → data_wf (sp_capabilities params) (ss_keys s) event →
  ∃ k', consume e k = Ok k' ∧
    linked params (mkStreamState (wire.sequence e) false (ss_generation s) (ss_keys s)) k'.
Proof.
  intros Hl Hwf He Hr Hs Hg Hd. set (s' := mkStreamState _ _ _ _).
  rewrite (consume_live params s s' e event k) by
    (first [done|rewrite Hr, observe_data; [by destruct event|done|apply Hwf|by destruct event|by destruct event]]).
  destruct Hl as [_ Hgen Hkeys Hboot Hcaps Htr]. rewrite Hg.
  assert (Hlink : ∀ t, tracker_wf t →
    linked params s' (k <| co_phase := PhaseLive (ss_sequence s') false |> <| co_candidates := t |>)) by done.
  destruct event; try done; cbn [consume_event data_wf] in *; simpl co_active_generation; rewrite Hgen,
    validate_generation_ok; cbn [mbind outcome_bind].
  - destruct Hd as (Hb & Hv & Hbm & Hst). destruct (check_block_ref _ Hb) as (r & -> & ->).
    cbn [mbind outcome_bind]. simpl co_capabilities. rewrite Hcaps. simpl co_key_count. rewrite Hkeys.
    destruct (tracker_insert_total (wire.br_hash r) (wire.br_parent_hash r) _ Htr) as (t & Ht & Hwt & _).
    exists (k <| co_phase := PhaseLive (ss_sequence s') false |> <| co_candidates := t |>).
    split; [|by apply Hlink]. simpl co_candidates.
    destruct Hst as [->|[-> Hcap]]; rewrite wire.stage_round_trip; cbn [ok_or mbind outcome_bind];
      rewrite ensure_bind by done; first [rewrite decide_False by done|rewrite decide_True by done];
      rewrite ?ensure_bind by done; cbn [mbind outcome_bind]; rewrite ensure_bind by by apply len_eqb.
    all: rewrite check_values_ok by done; cbn [mbind outcome_bind]; by rewrite Ht.
  - eexists. rewrite ensure_bind by by apply len_eqb. split; [done|]. by apply (Hlink (co_candidates k)).
  - destruct Hd as [Hh Hreason]. rewrite ensure_bind by by apply len_eqb.
    rewrite ensure_bind by (by apply negb_true_iff, String.eqb_neq). simpl co_candidates.
    destruct (tracker_remove_tree_total (wire.rj_block_hash e0) _ Htr) as (t & -> & Hwt).
    eexists. split; [done|]. by apply Hlink.
  - destruct Hd as (Hpr & Hb & Hv & Hbm). destruct (check_block_ref _ Hb) as (r & -> & ->).
    cbn [mbind outcome_bind]. simpl co_key_count. rewrite Hkeys.
    destruct (tracker_insert_total (wire.br_hash r) (wire.br_parent_hash r) _ Htr) as (t & Ht & Hwt & _).
    rewrite ensure_bind by by apply len_eqb. rewrite ensure_bind.
    + rewrite check_values_ok by done. cbn [mbind outcome_bind]. simpl co_candidates. rewrite Ht.
      eexists. split; [done|]. by apply Hlink.
    + apply orb_true_iff. destruct Hbm as [->|Hbm]; [by left|right]. by apply len_eqb.
  - destruct Hd as [Hcap [head Hv]]. simpl co_capabilities. rewrite Hcaps. rewrite ensure_bind by done.
    destruct (check_view _ _ Hv) as [view ->]. eexists. split; [done|]. by apply (Hlink (co_candidates k)).
  - destruct Hd as (Hcap & Hne & Hall & reason & Hreason & ->). simpl co_capabilities. rewrite Hcaps.
    rewrite ensure_bind by done. rewrite wire.reason_round_trip. cbn [ok_or mbind outcome_bind].
    rewrite ensure_bind by by apply bool_decide_eq_true. rewrite ensure_bind by by apply bool_decide_eq_true.
    simpl co_candidates. destruct (retire_all_ok _ _ Htr Hall) as (t & -> & Hwt).
    eexists. split; [done|]. by apply Hlink.
Qed.

Lemma consume_snapshot_event s k g snapshot phase :
  co_active_generation k = Some g → co_key_count k = ss_keys s → snapshot_wf (ss_keys s) snapshot →
  ∃ t, tracker_wf t ∧
    consume_event g (wire.EvSnapshot snapshot) (k <| co_phase := phase |>) =
      Ok (k <| co_phase := phase |> <| co_candidates := t |>).
Proof.
  intros Hgen Hkeys (head & Hb & Hv & Hm & Hval). cbn [consume_event]. simpl co_active_generation.
  rewrite Hgen, validate_generation_ok. cbn [mbind outcome_bind].
  destruct (check_block_ref _ Hb) as (r & Hr & ->). cbn [mbind outcome_bind].
  destruct (check_view _ _ Hv) as [view ->]. cbn [mbind outcome_bind].
  destruct (Hm r Hr) as [Hn Hh]. rewrite ensure_bind.
  2: { rewrite Hn, Hh, N.eqb_refl. by rewrite bool_decide_eq_true_2. }
  simpl co_candidates. simpl co_key_count. rewrite Hkeys.
  destruct (tracker_insert_total (wire.br_hash r) (wire.br_parent_hash r) (tracker_clear (co_candidates k)))
    as (t & -> & Hwt & _); [apply tracker_clear_wf|]. cbn [mbind outcome_bind].
  rewrite check_values_ok by done. eauto.
Qed.

Lemma consume_step params s e s' k :
  linked params s k → stream_step params s e s' → ∃ k', consume e k = Ok k' ∧ linked params s' k'.
Proof.
  intros Hl Hstep. destruct Hstep as [event Hwf He Hr Hs Hg Hd|gap Hwf He Hr Hs Hg Hlast Hreason
    |snapshot Hwf He Hs Hg Hsn|config Hwf He Hr Hs Hg Hd].
  - by eapply consume_data.
  - set (s' := mkStreamState _ _ _ _).
    rewrite (consume_live params s s' e (wire.EvGap gap) k); [|done..|].
    2: { rewrite Hr. cbn [observe is_hello]. rewrite ensure_bind by done.
         rewrite ensure_bind by by apply N.eqb_eq. by rewrite ensure_bind by by apply N.ltb_lt. }
    destruct Hl as [_ Hgen Hkeys Hboot Hcaps Htr]. cbn [consume_event]. simpl co_active_generation.
    rewrite Hgen, Hg, validate_generation_ok. cbn [mbind outcome_bind].
    rewrite ensure_bind by by apply negb_true_iff, String.eqb_neq.
    eexists. split; [done|]. split; try done. apply tracker_clear_wf.
  - set (s' := mkStreamState _ _ _ _).
    rewrite (consume_live params s s' e (wire.EvSnapshot snapshot) k); [|done..|].
    2: { destruct Hwf as (_ & _ & Hle). destruct (ss_snapshot_required s); [|by apply observe_data].
         cbn [observe is_hello is_snapshot]. rewrite !ensure_bind by done.
         by rewrite ensure_bind by (rewrite Hs in *; by apply follows_succ). }
    destruct Hl as [_ Hgen Hkeys Hboot Hcaps Htr]. rewrite Hg.
    destruct (consume_snapshot_event s k (ss_generation s) snapshot
      (PhaseLive (ss_sequence s') (ss_snapshot_required s')) Hgen Hkeys Hsn) as (t & Hwt & ->).
    eexists. split; [done|]. by split.
  - set (s' := mkStreamState _ _ _ _).
    rewrite (consume_live params s s' e (wire.EvConfigActivated config) k); [|done..|].
    2: { rewrite Hr. apply observe_data; [done|apply Hwf|done|done]. }
    destruct Hl as [_ Hgen Hkeys Hboot Hcaps Htr]. cbn [consume_event]. simpl co_active_generation.
    rewrite Hgen. rewrite ensure_bind by (apply N.leb_le; lia).
    destruct (check_dictionary _ Hd) as [Hd1 Hd2]. rewrite ensure_bind by done. rewrite ensure_bind by done.
    eexists. split; [done|]. split; try done. apply tracker_clear_wf.
Qed.

Lemma consume_all_snoc es e k :
  consume_all (es ++ [e]) k = (k' ← consume_all es k; consume e k').
Proof.
  revert k. induction es as [|e' es IH]; intros k; simpl.
  - by destruct (consume e k).
  - destruct (consume e' k) as [k'| |]; simpl; [apply IH|done|done].
Qed.

Lemma consume_all_app es es' k :
  consume_all (es ++ es') k = (k' ← consume_all es k; consume_all es' k').
Proof.
  revert k. induction es as [|e es IH]; intros k; simpl; [done|].
  destruct (consume e k) as [k'| |]; simpl; [apply IH|done|done].
Qed.

(** A consumer at the start of a live stream accepts all of it and ends where the stream does. *)
Lemma consume_stream params s es s' k :
  linked params s k → stream params s es s' → ∃ k', consume_all es k = Ok k' ∧ linked params s' k'.
Proof.
  intros Hl Hs. induction Hs as [|es e s1 s2 _ IH Hstep]; [by exists k|].
  destruct IH as (k1 & Hk1 & Hl1). rewrite consume_all_snoc, Hk1. cbn [mbind outcome_bind].
  by eapply consume_step.
Qed.

(** ** The handshake *)

Definition hello_wf (params : StreamParams) (h : wire.Hello) : Prop :=
  wire.capabilities h = sp_capabilities params ∧ len (wire.genesis_hash h) = 32 ∧
  (has_cap (sp_capabilities params) wire.CAP_EXECUTED = true →
   has_cap (sp_capabilities params) wire.CAP_FORKCHOICE_APPLIED = true ∧
   has_cap (sp_capabilities params) wire.CAP_CANDIDATE_RETIREMENT = true).

(** The three frames in front of every connection's live stream. *)
Record handshake (params : StreamParams) (es : list wire.Envelope) (s : StreamState) : Prop := {
  hs_hello : ∃ e1 e2 e3 h c sn, es = [e1; e2; e3] ∧
    wire.event e1 = Some (wire.EvHello h) ∧ hello_wf params h ∧
    wire.event e2 = Some (wire.EvConfigActivated c) ∧ dictionary_wf c ∧
    len (wire.keys c) = ss_keys s ∧
    wire.event e3 = Some (wire.EvSnapshot sn) ∧ snapshot_wf (ss_keys s) sn;
  hs_position : Forall (λ e, envelope_wf params e ∧ wire.sequence e = ss_sequence s ∧
    wire.config_generation e = ss_generation s) es;
  hs_boot_id : len (sp_boot_id params) = 16;
  hs_live : ss_snapshot_required s = false;
}.

Lemma consume_handshake params es s limit :
  handshake params es s → ∃ k, consume_all es (consumer_new limit) = Ok k ∧ linked params s k.
Proof.
  intros [(e1 & e2 & e3 & h & c & sn & -> & E1 & (Hcap & Hgen & Hlife) & E2 & Hd & Hkeys & E3 & Hsn)
    Hpos Hboot Hlive].
  rewrite !Forall_cons in Hpos.
  destruct Hpos as (((Hv1&Hb1&_)&Hs1&Hg1) & ((Hv2&Hb2&_)&Hs2&Hg2) & ((Hv3&Hb3&_)&Hs3&Hg3) & _).
  destruct (check_dictionary _ Hd) as [Hd1 Hd2].
  assert (Hc1 : consume e1 (consumer_new limit) =
    Ok (mkConsumer (PhaseConfig (ss_sequence s) (ss_generation s)) None 0 (Some (sp_boot_id params))
          (sp_capabilities params) (tracker_new limit))).
  { unfold consume. rewrite Hv1, Hb1, E1, Hs1, Hg1. rewrite ensure_bind by done.
    rewrite ensure_bind by by apply len_eqb. cbn [co_boot_id consumer_new mbind outcome_bind ok_or].
    simpl co_phase. cbn [observe is_hello]. rewrite ensure_bind by done. cbn [mbind outcome_bind consume_event].
    rewrite ensure_bind by by apply len_eqb. rewrite Hcap.
    destruct (has_cap (sp_capabilities params) wire.CAP_EXECUTED); [|done].
    destruct Hlife as [-> ->]; done. }
  assert (Hc2 : consume e2 (mkConsumer (PhaseConfig (ss_sequence s) (ss_generation s)) None 0
      (Some (sp_boot_id params)) (sp_capabilities params) (tracker_new limit)) =
    Ok (mkConsumer (PhaseInitialSnapshot (ss_sequence s) (ss_generation s)) (Some (ss_generation s))
          (ss_keys s) (Some (sp_boot_id params)) (sp_capabilities params) (tracker_clear (tracker_new limit)))).
  { unfold consume. rewrite Hv2, Hb2, E2, Hs2, Hg2. rewrite ensure_bind by done.
    rewrite ensure_bind by by apply len_eqb. cbn [co_boot_id].
    rewrite ensure_bind by by apply bool_decide_eq_true. cbn [mbind outcome_bind ok_or co_phase observe is_config].
    unfold validate_handshake_position. rewrite !N.eqb_refl. cbn [ensure mbind outcome_bind consume_event].
    simpl co_active_generation. cbn [mbind outcome_bind]. rewrite ensure_bind by done. rewrite ensure_bind by done.
    unfold update. simpl. by rewrite Hkeys. }
  set (k2 := mkConsumer (PhaseInitialSnapshot (ss_sequence s) (ss_generation s)) (Some (ss_generation s))
          (ss_keys s) (Some (sp_boot_id params)) (sp_capabilities params) (tracker_clear (tracker_new limit))) in *.
  destruct (consume_snapshot_event s k2 (ss_generation s) sn (PhaseLive (ss_sequence s) false))
    as (t & Hwt & Hc3); [done..|].
  exists (k2 <| co_phase := PhaseLive (ss_sequence s) false |> <| co_candidates := t |>).
  split; [|split; try done; by rewrite Hlive].
  cbn [consume_all]. rewrite Hc1. cbn [mbind outcome_bind]. rewrite Hc2. cbn [mbind outcome_bind].
  unfold consume. rewrite Hv3, Hb3, E3, Hs3, Hg3. rewrite ensure_bind by done.
  rewrite ensure_bind by by apply len_eqb. change (co_boot_id k2) with (Some (sp_boot_id params)).
  cbv beta iota. rewrite (ensure_bind (bool_decide _)) by by apply bool_decide_eq_true.
  cbn [mbind outcome_bind ok_or].
  change (co_phase k2) with (PhaseInitialSnapshot (ss_sequence s) (ss_generation s)).
  cbn [observe is_snapshot]. unfold validate_handshake_position. rewrite !N.eqb_refl.
  cbn [ensure mbind outcome_bind]. by rewrite Hc3.
Qed.

(** C30: The consumer accepts every connection that starts with a well-formed handshake and goes
    on with a well-formed live stream: no envelope of it is ever refused, the consumer's loops
    return, and its cursor ends at the stream's last sequence number. *)
Theorem consumer_accepts_stream params limit hs s es s' :
  handshake params hs s → stream params s es s' →
  ∃ k, consume_all (hs ++ es) (consumer_new limit) = Ok k ∧
    co_phase k = PhaseLive (ss_sequence s') (ss_snapshot_required s') ∧
    co_active_generation k = Some (ss_generation s') ∧ co_key_count k = ss_keys s' ∧
    tracker_wf (co_candidates k).
Proof.
  intros Hh Hs. destruct (consume_handshake _ _ _ limit Hh) as (k & Hk & Hl).
  destruct (consume_stream _ _ _ _ _ Hl Hs) as (k' & Hk' & Hl'). exists k'.
  rewrite consume_all_app, Hk. split; [done|]. by destruct Hl'.
Qed.

(** ** Lost envelopes are noticed *)

Lemma step_sequence params s e s' :
  stream_step params s e s' → ss_sequence s < ss_sequence s' ∧ ss_sequence s' = wire.sequence e.
Proof. intros []; simpl; lia. Qed.

Lemma stream_sequence params s es s' :
  stream params s es s' → ss_sequence s + len es ≤ ss_sequence s'.
Proof.
  unfold len. induction 1 as [|es e s1 s2 _ IH Hstep]; simpl; [lia|].
  apply step_sequence in Hstep as [? _]. rewrite length_app. simpl. lia.
Qed.

Lemma follows_false n m : m ≠ n + 1 → follows n m = false.
Proof.
  intros Hne. apply bool_decide_eq_false. unfold checked_add. destruct (_ <=? _); congruence.
Qed.

(** C31: A consumer that misses envelopes notices at the next one it receives: whatever was lost
    and whatever arrives next, the cursor refuses it. *)
Theorem consumer_detects_loss params s k lost e s1 s2 :
  linked params s k → stream params s lost s1 → lost ≠ [] → stream_step params s1 e s2 →
  is_Ok (consume e k) = false.
Proof.
  intros [Hp _ _ [Hb _] _ _] Hlost Hne Hstep.
  assert (Hgap : ss_sequence s < ss_sequence s1).
  { apply stream_sequence in Hlost. destruct lost; [done|]. unfold len in Hlost. simpl in Hlost. lia. }
  assert (Hev : ∃ event, wire.event e = Some event ∧
            match event with
            | wire.EvGap gap => wire.gap_last_contiguous_sequence gap = ss_sequence s1
            | _ => wire.sequence e = ss_sequence s1 + 1
            end).
  { destruct Hstep as [event ? ? ? ? ? Hd| | |]; eexists; (split; [done|]); try done. by destruct event. }
  destruct Hev as (event & He & Hseq).
  assert (Ho : ∀ g, is_Ok (observe (co_phase k) (wire.sequence e) g event) = false).
  { intros g. rewrite Hp. cbn [observe]. destruct (is_hello event) eqn:Eh; [done|].
    cbn [negb ensure mbind outcome_bind]. destruct (ss_snapshot_required s).
    - destruct event; try done. cbn [is_snapshot ensure mbind outcome_bind]. by rewrite follows_false by lia.
    - destruct event; try (by rewrite follows_false by lia).
      by rewrite (proj2 (N.eqb_neq _ _)) by lia. }
  specialize (Ho (wire.config_generation e)). unfold consume.
  destruct (wire.protocol_version e =? wire.PROTOCOL_VERSION); [|done]. cbn [ensure mbind outcome_bind].
  destruct (len (wire.boot_id e) =? 16); [|done]. cbn [ensure mbind outcome_bind]. rewrite Hb.
  destruct (bool_decide (_ = wire.boot_id e)); [|done]. cbn [ensure mbind outcome_bind]. rewrite He. cbn [ok_or mbind outcome_bind].
  by destruct (observe _ _ _ _).
Qed.

(** ** A connection with one key and one validated block, used where a statement is evaluated *)

Definition sample_params : StreamParams := {| sp_boot_id := replicate 16 0; sp_capabilities := 111 |}.

Definition sample_frame (sequence : N) (event : wire.Event) : wire.Envelope :=
  {| wire.protocol_version := wire.PROTOCOL_VERSION; wire.boot_id := replicate 16 0;
     wire.sequence := sequence; wire.config_generation := 1; wire.emitted_at_monotonic_ns := 0;
     wire.event := Some event |}.

Definition sample_hello : wire.Hello :=
  {| wire.service_version := "0.1.0"; wire.chain_id := 1; wire.genesis_hash := to_vec 0; wire.capabilities := 111 |}.
Definition sample_dictionary : wire.ConfigActivated :=
  {| wire.keys := [{| wire.key_id := 0; wire.id := [112]; wire.address := address_to_vec 7; wire.slot := to_vec 1 |}] |}.
Definition sample_snapshot : wire.Snapshot :=
  {| wire.sn_block := Some {| wire.br_number := 5; wire.br_hash := to_vec 50; wire.br_parent_hash := to_vec 40;
                              wire.br_timestamp := 0 |};
     wire.sn_values := to_vec 3;
     wire.sn_forkchoice := Some {| wire.fv_head := Some {| wire.cr_number := 5; wire.cr_hash := to_vec 50 |};
                                   wire.fv_safe := None; wire.fv_finalized := None |} |}.

Definition sample_opening : list wire.Envelope :=
  [sample_frame 4 (wire.EvHello sample_hello); sample_frame 4 (wire.EvConfigActivated sample_dictionary);
   sample_frame 4 (wire.EvSnapshot sample_snapshot)].

Definition sample_validated (sequence : N) : wire.Envelope :=
  sample_frame sequence (wire.EvBlockValidated {| wire.bv_block_hash := to_vec 60 |}).

Definition sample_state (sequence : N) : StreamState := mkStreamState sequence false 1 1.

Lemma sample_handshake : handshake sample_params sample_opening (sample_state 4).
Proof.
  split; [|repeat constructor; vm_compute; discriminate|done|done].
  do 3 eexists. exists sample_hello, sample_dictionary, sample_snapshot.
  split_and!; [reflexivity|done|done|done| |done|done|].
  - intros [|i] key; [|by destruct i]. intros [= <-]. by vm_compute.
  - exists {| wire.cr_number := 5; wire.cr_hash := to_vec 50 |}. split_and!.
    + eexists. by split_and!.
    + eexists. split_and!; [done|done|done|done..].
    + by intros r [= <-].
    + by vm_compute.
Qed.

Lemma sample_step n : n < 100 → stream_step sample_params (sample_state n) (sample_validated (n + 1)) (sample_state (n + 1)).
Proof.
  intros Hn. eapply step_data; try done. split_and!; [done|done|]. unfold u64_max. simpl. lia.
Qed.

Lemma consumer_accepts_stream_witness :
  ∃ k, consume_all (sample_opening ++ [sample_validated 5]) (consumer_new 8) = Ok k ∧
    co_phase k = PhaseLive 5 false.
Proof.
  destruct (consumer_accepts_stream sample_params 8 sample_opening (sample_state 4) [sample_validated 5]
    (sample_state 5)) as (k & Hk & Hp & _).
  - apply sample_handshake.
  - apply stream_one, (sample_step 4). reflexivity.
  - exists k. split; [exact Hk|exact Hp].
Defined.

Lemma consumer_detects_loss_witness :
  is_Ok (consume (sample_validated 6)
    (mkConsumer (PhaseLive 4 false) (Some 1) 1 (Some (replicate 16 0)) 111 (tracker_new 8))) = false.
Proof.
  apply (consumer_detects_loss sample_params (sample_state 4) _ [sample_validated 5] _ (sample_state 5) (sample_state 6)).
  - split; try reflexivity; [split; reflexivity|apply tracker_new_wf].
  - apply stream_one, (sample_step 4). reflexivity.
  - discriminate.
  - apply (sample_step 5). reflexivity.
Defined.
