(* ===== verification/Projection.v ===== *)
(** * Projections (src/src/publisher.rs: Projection, the delta, the bitmaps, the validators)

    The complete packed state of the watched keys at one block, the
    [SnapshotSource] interface that loads one from a provider, the application
    of a block delta, the canonical change bitmap, and the checks a loaded
    projection has to pass. *)

From S2P Require Import Prelude Bytes Config Watch Feed Wire.
From stdpp Require Import list.
Local Open Scope N_scope.

Record Projection := {
  pj_block : BlockMeta;
  pj_watch_set : WatchSet;
  pj_values : bytes;
  pj_changed_bitmap : bytes;
}.

Record CanonicalSnapshot := {
  cs_projection : Projection;
  cs_anchored_at : N;
  cs_forkchoice : ForkchoiceMeta;
}.

#[export] Instance Projection_eq_dec : EqDecision Projection.
Proof. solve_decision. Defined.

(** One constructor per error the publisher can return. *)
Inductive Error :=
| StreamInvalid (issue : InvalidConfig)
| WatchSetEmpty
| ProviderError
| GenerationAhead (generation active_generation : N)
| InconsistentMetadata (hash : B256)
| ParentNumberOverflow (hash : B256)
| InvalidAncestry (hash : B256)
| GenerationMismatch (hash : B256)
| ParentProjectionMismatch (hash : B256)
| InvalidKeyId (key_id : N)
| IndexPanic
| DictionaryMismatch
| SnapshotHeadMismatch
| CheckpointAheadOfHead
| FinalizedAheadOfSafe
| ProjectionOverflow
| ProjectionValuesLength
| ProjectionBitmapLength
| BitmapDictionaryMismatch
| CanonicalIdentityMismatch (hash : B256)
| ForkchoiceHeadMismatch (hash : B256)
| CannotEvict (inserted : B256)
| MetadataBound
| EncodeFailed (e : EncodeError)
| ForkchoiceKeptChanging
| CanonicalHeadKeptChanging
| HeaderNotFound (hash : B256).

(** The trait [SnapshotSource]: a value or an error.  Each call is made at a later point of the
    provider's history, which the first argument counts. *)
Class SnapshotSource := {
  load_latest : nat → WatchSet → CanonicalSnapshot + Error;
  load_at : nat → WatchSet → B256 → Projection + Error;
}.

(** A bit is set for every key whose value differs from the one already in the buffer. *)
Fixpoint apply_changes (changes : BlockChanges) (values changed_bitmap : bytes)
    : outcome Error (bytes * bytes) :=
  match changes with
  | [] => Ok (values, changed_bitmap)
  | change :: changes =>
      let index := sc_key_id change in
      let offset := saturating_mul index 32 in
      match get_range values offset (saturating_add offset 32) with
      | None => Err (InvalidKeyId index)
      | Some value =>
          let next := be_bytes 32 (sc_new_value change) in
          if decide (value = next) then apply_changes changes values changed_bitmap
          else match set_bit changed_bitmap index with
               | None => Err IndexPanic
               | Some changed_bitmap =>
                   apply_changes changes (put_range values offset next) changed_bitmap
               end
      end
  end.

Definition bitmap_len (ws : WatchSet) : N := div_ceil (ws_len ws) 8.
Definition zero_bitmap (ws : WatchSet) : bytes := replicate (N.to_nat (bitmap_len ws)) 0.

(** The comparison loop of [canonical_changed_bitmap]. *)
Definition diff_bitmap (previous next : bytes) (bitmap : bytes) : option bytes :=
  fold_left (λ acc (entry : nat * (bytes * bytes)),
      bm ← acc;
      if decide (entry.2.1 = entry.2.2) then Some bm else set_bit bm (N.of_nat entry.1))
    (imap pair (zip (chunks_exact 32 previous) (chunks_exact 32 next))) (Some bitmap).

(** [canonical_changed_bitmap]. *)
Definition canonical_changed_bitmap (previous next : Projection) : outcome Error bytes :=
  if negb (ws_generation (pj_watch_set previous) =? ws_generation (pj_watch_set next))
     || negb (len (pj_values previous) =? len (pj_values next))
  then Err BitmapDictionaryMismatch
  else if (bm_parent_hash (pj_block next) =? bm_hash (pj_block previous))
          && (len (pj_changed_bitmap next) =? bitmap_len (pj_watch_set next))
  then Ok (pj_changed_bitmap next)
  else ok_or (diff_bitmap (pj_values previous) (pj_values next)
                (zero_bitmap (pj_watch_set next))) IndexPanic.

(** [validate_projection_dictionary]; [Arc::ptr_eq] is a shortcut for the comparison below,
    which holds of a set and itself. *)
Definition dictionaries_match (actual expected : WatchSet) : bool :=
  (ws_generation actual =? ws_generation expected)
  && (len (ws_keys actual) =? len (ws_keys expected))
  && forallb2 (λ a e, (wk_key_id a =? wk_key_id e) && bool_decide (wk_id a = wk_id e)
       && (wk_address a =? wk_address e) && (wk_slot a =? wk_slot e))
       (ws_keys actual) (ws_keys expected).

Definition validate_projection_dictionary (p : Projection) (expected : WatchSet)
    : outcome Error () :=
  ensure (dictionaries_match (pj_watch_set p) expected) DictionaryMismatch.

(** [validate_forkchoice_checkpoints]. *)
Definition validate_forkchoice_checkpoints (view : ForkchoiceMeta) : outcome Error () :=
  let ahead (c : option CheckpointMeta) :=
    match c with Some c => cp_number (fc_head view) <? cp_number c | None => false end in
  if ahead (fc_safe view) || ahead (fc_finalized view) then Err CheckpointAheadOfHead
  else match fc_safe view, fc_finalized view with
       | Some safe, Some finalized =>
           if cp_number safe <? cp_number finalized then Err FinalizedAheadOfSafe else Ok ()
       | _, _ => Ok ()
       end.

(** [validate_snapshot_view]. *)
Definition validate_snapshot_view (s : CanonicalSnapshot) : outcome Error () :=
  let block := pj_block (cs_projection s) in
  let view := cs_forkchoice s in
  if negb (cp_number (fc_head view) =? bm_number block)
     || negb (cp_hash (fc_head view) =? bm_hash block)
  then Err SnapshotHeadMismatch
  else validate_forkchoice_checkpoints view.

(** [validate_projection_shape]. *)
Definition validate_projection_shape (p : Projection) : outcome Error () :=
  match checked_mul (ws_len (pj_watch_set p)) 32 with
  | None => Err ProjectionOverflow
  | Some expected_values =>
      if negb (len (pj_values p) =? expected_values) then Err ProjectionValuesLength
      else
        let expected_bitmap := bitmap_len (pj_watch_set p) in
        if negb (len (pj_changed_bitmap p) =? 0) && negb (len (pj_changed_bitmap p) =? expected_bitmap)
        then Err ProjectionBitmapLength
        else Ok ()
  end.

(** ** Wire forms *)

Definition checkpoint_ref (c : CheckpointMeta) : wire.CheckpointRef :=
  {| wire.cr_number := cp_number c; wire.cr_hash := to_vec (cp_hash c) |}.

Definition forkchoice_view (v : ForkchoiceMeta) : wire.ForkchoiceView :=
  {| wire.fv_head := Some (checkpoint_ref (fc_head v));
     wire.fv_safe := checkpoint_ref <$> fc_safe v;
     wire.fv_finalized := checkpoint_ref <$> fc_finalized v |}.

Definition block_ref (b : BlockMeta) : wire.BlockRef :=
  {| wire.br_number := bm_number b;
     wire.br_hash := to_vec (bm_hash b);
     wire.br_parent_hash := to_vec (bm_parent_hash b);
     wire.br_timestamp := bm_timestamp b |}.

Definition snapshot (p : Projection) (v : ForkchoiceMeta) : wire.Snapshot :=
  {| wire.sn_block := Some (block_ref (pj_block p));
     wire.sn_values := pj_values p;
     wire.sn_forkchoice := Some (forkchoice_view v) |}.

Definition block_state (p : Projection) (stage : wire.BlockStage) : wire.BlockState :=
  {| wire.bs_stage := wire.stage_i32 stage;
     wire.bs_block := Some (block_ref (pj_block p));
     wire.bs_values := pj_values p;
     wire.bs_changed_bitmap := pj_changed_bitmap p |}.

Definition config_activated (ws : WatchSet) : wire.ConfigActivated :=
  {| wire.keys := (λ key,
       {| wire.key_id := wk_key_id key;
          wire.id := wk_id key;
          wire.address := address_to_vec (wk_address key);
          wire.slot := to_vec (wk_slot key) |}) <$> ws_keys ws |}.

(** ** Well-shaped projections *)

Definition values_shape (ws : WatchSet) (values : bytes) : Prop :=
  len values = 32 * ws_len ws.

Lemma validate_projection_shape_Ok p :
  validate_projection_shape p = Ok () →
  values_shape (pj_watch_set p) (pj_values p) ∧
  (pj_changed_bitmap p = [] ∨ len (pj_changed_bitmap p) = bitmap_len (pj_watch_set p)).
Proof.
  unfold validate_projection_shape, checked_mul, values_shape.
  destruct (_ <=? u64_max); [|done].
  destruct (N.eqb_spec (len (pj_values p)) (ws_len (pj_watch_set p) * 32)); [|done].
  cbn [negb]. destruct (N.eqb_spec (len (pj_changed_bitmap p)) 0) as [E|]; cbn [negb andb].
  - intros _. split; [lia|left]. unfold len in E. by destruct (pj_changed_bitmap p).
  - destruct (N.eqb_spec (len (pj_changed_bitmap p)) (bitmap_len (pj_watch_set p))); [|done].
    intros _. split; [lia|by right].
Qed.

Lemma dictionaries_match_iff a e :
  dictionaries_match a e = true ↔ ws_generation a = ws_generation e ∧ ws_keys a = ws_keys e.
Proof.
  unfold dictionaries_match. rewrite !andb_true_iff, !N.eqb_eq. unfold len. split.
  - intros [[Hg Hl] Hall]. split; [done|]. apply list_eq. intros i.
    rewrite forallb2_lookup in Hall by lia.
    destruct (ws_keys a !! i) as [k|] eqn:E.
    + assert (is_Some (ws_keys e !! i)) as [k' E'].
      { apply lookup_lt_is_Some. apply lookup_lt_Some in E. lia. }
      specialize (Hall _ _ _ E E'). rewrite E'. f_equal. destruct k, k'; simpl in *.
      rewrite !andb_true_iff, bool_decide_eq_true, !N.eqb_eq in Hall. naive_solver.
    + symmetry. apply lookup_ge_None. apply lookup_ge_None in E. lia.
  - intros [Hg Hk]. rewrite Hk. split_and!; [done..|].
    apply forallb2_lookup; [done|]. intros i x y Hx Hy. simplify_eq.
    by rewrite bool_decide_eq_true_2, !N.eqb_refl.
Qed.

Lemma validate_projection_dictionary_Ok p ws :
  validate_projection_dictionary p ws = Ok () ↔
  ws_generation (pj_watch_set p) = ws_generation ws ∧ ws_keys (pj_watch_set p) = ws_keys ws.
Proof.
  unfold validate_projection_dictionary, ensure. rewrite <- dictionaries_match_iff.
  by destruct (dictionaries_match _ _).
Qed.

Lemma validate_forkchoice_checkpoints_Ok v :
  validate_forkchoice_checkpoints v = Ok () ↔
  (∀ c, fc_safe v = Some c → cp_number c ≤ cp_number (fc_head v)) ∧
  (∀ c, fc_finalized v = Some c → cp_number c ≤ cp_number (fc_head v)) ∧
  (∀ s f, fc_safe v = Some s → fc_finalized v = Some f → cp_number f ≤ cp_number s).
Proof.
  unfold validate_forkchoice_checkpoints.
  destruct (fc_safe v) as [s|], (fc_finalized v) as [f|]; simpl;
    rewrite ?orb_false_r;
    repeat match goal with
    | |- context [?a <? ?b] => destruct (N.ltb_spec a b); simpl
    end.
  all: split; [intros ?; try done; split_and!; intros; simplify_eq; lia|].
  all: intros (Hs & Hf & Hsf); try done.
  all: try (specialize (Hs _ eq_refl)); try (specialize (Hf _ eq_refl));
    try (specialize (Hsf _ _ eq_refl eq_refl)); lia.
Qed.

Lemma validate_snapshot_view_Ok s :
  validate_snapshot_view s = Ok () ↔
  cp_number (fc_head (cs_forkchoice s)) = bm_number (pj_block (cs_projection s)) ∧
  cp_hash (fc_head (cs_forkchoice s)) = bm_hash (pj_block (cs_projection s)) ∧
  validate_forkchoice_checkpoints (cs_forkchoice s) = Ok ().
Proof.
  unfold validate_snapshot_view.
  destruct (N.eqb_spec (cp_number (fc_head (cs_forkchoice s))) (bm_number (pj_block (cs_projection s))));
    cbn [negb orb]; [|naive_solver].
  destruct (N.eqb_spec (cp_hash (fc_head (cs_forkchoice s))) (bm_hash (pj_block (cs_projection s))));
    cbn [negb]; naive_solver.
Qed.

(** ** The block delta *)

Lemma put_word_length values k v w :
  len values < u64_max →
  get_range values (saturating_mul k 32) (saturating_add (saturating_mul k 32) 32) = Some w →
  length (put_range values (saturating_mul k 32) (be_bytes 32 v)) = length values.
Proof.
  intros Hmax (Hle & Hlen & _)%get_range_Some. apply length_put_range. rewrite length_be_bytes.
  unfold saturating_add, len in *. generalize dependent (saturating_mul k 32). intros o.
  generalize dependent u64_max. intros. lia.
Qed.

Lemma apply_changes_length cs : ∀ values bm values' bm',
  len values < u64_max →
  apply_changes cs values bm = Ok (values', bm') →
  length values' = length values ∧ length bm' = length bm.
Proof.
  induction cs as [|c cs IH]; intros values bm values' bm' Hmax; cbn [apply_changes]; cbv zeta.
  { by intros [= -> ->]. }
  destruct (get_range _ _ _) as [v|] eqn:E; [|done].
  destruct (decide (v = be_bytes 32 (sc_new_value c))); [by apply IH|].
  destruct (set_bit bm (sc_key_id c)) as [bm1|] eqn:Eb; [|done].
  pose proof (put_word_length values (sc_key_id c) (sc_new_value c) v Hmax E) as Hp.
  intros H. apply IH in H as [Hv Hb]; [|unfold len in *; by rewrite Hp].
  apply length_set_bit in Eb. split; congruence.
Qed.

Lemma apply_changes_not_diverge cs : ∀ values bm, apply_changes cs values bm ≠ Diverge.
Proof.
  induction cs as [|c cs IH]; intros values bm; cbn [apply_changes]; cbv zeta; [done|].
  destruct (get_range _ _ _); [|done]. case_decide; [done|]. by destruct (set_bit _ _).
Qed.

Lemma delta_offset n k :
  32 * N.of_nat n + 32 ≤ u64_max → (k < n)%nat →
  saturating_mul (N.of_nat k) 32 = N.of_nat k * 32 ∧
  saturating_add (N.of_nat k * 32) 32 = N.of_nat k * 32 + 32.
Proof. intros. unfold saturating_mul, saturating_add. lia. Qed.

(** The value a delta leaves in word [i]. *)
Definition delta_value (cs : BlockChanges) (i : nat) (old : bytes) : bytes :=
  match list_find (λ c, sc_key_id c = N.of_nat i) cs with
  | Some (_, c) => be_bytes 32 (sc_new_value c)
  | None => old
  end.

Lemma delta_value_cons c cs i old :
  delta_value (c :: cs) i old =
    if decide (sc_key_id c = N.of_nat i) then be_bytes 32 (sc_new_value c) else delta_value cs i old.
Proof.
  unfold delta_value. simpl. case_decide; [done|].
  by destruct (list_find _ cs) as [[]|].
Qed.

Lemma delta_value_none cs i old :
  N.of_nat i ∉ sc_key_id <$> cs → delta_value cs i old = old.
Proof.
  intros Hn. unfold delta_value. destruct (list_find _ cs) as [[j c]|] eqn:E; [|done].
  apply list_find_Some in E as (Hj & Hc & _). destruct Hn. apply list_elem_of_fmap.
  exists c. split; [done|]. by eapply list_elem_of_lookup_2.
Qed.

(** A delta with in-range, distinct keys succeeds; it writes exactly its values, and sets a
    bit exactly where a word changed. *)
Lemma apply_changes_spec n cs : ∀ values bm,
  length values = (32 * n)%nat → len bm = div_ceil (N.of_nat n) 8 →
  32 * N.of_nat n + 32 ≤ u64_max →
  Forall (λ c, sc_key_id c < N.of_nat n) cs → NoDup (sc_key_id <$> cs) →
  ∃ values' bm', apply_changes cs values bm = Ok (values', bm') ∧
    length values' = length values ∧ length bm' = length bm ∧
    (∀ i, (i < n)%nat → word values' i = delta_value cs i (word values i)) ∧
    (∀ i, (i < n)%nat → test_bit bm' (N.of_nat i) =
       test_bit bm (N.of_nat i) || bool_decide (word values' i ≠ word values i)).
Proof.
  induction cs as [|c cs IH]; intros values bm Hv Hb Hn Hf Hnd.
  { exists values, bm. split_and!; try done.
    intros i Hi. rewrite bool_decide_eq_false_2 by auto. by rewrite orb_false_r. }
  apply Forall_cons in Hf as [Hc Hf]. cbn in Hnd. apply NoDup_cons in Hnd as [Hnin Hnd].
  pose proof (N2Nat.id (sc_key_id c)) as Hk. set (k := N.to_nat (sc_key_id c)) in *.
  assert (Hkn : (k < n)%nat) by lia.
  cbn [apply_changes]. cbv zeta. rewrite <- Hk.
  destruct (delta_offset n k Hn Hkn) as [Ho1 Ho2]. rewrite Ho1, Ho2.
  rewrite get_range_word by lia. set (next := be_bytes 32 (sc_new_value c)).
  assert (Hself : ∀ i old, delta_value (c :: cs) i old =
    if decide (k = i) then next else delta_value cs i old).
  { intros i old. rewrite delta_value_cons. repeat case_decide; done || lia. }
  case_decide as Heq.
  - destruct (IH values bm) as (v' & b' & Hap & Hlv & Hlb & Hw & Hbit); [done..|].
    exists v', b'. split_and!; try done.
    intros i Hi. rewrite Hw, Hself by done. case_decide; [|done]. subst i.
    rewrite delta_value_none; [done|]. by rewrite Hk.
  - destruct (set_bit_is_Some bm (N.of_nat k)) as [bm1 Hbm1].
    { rewrite Hb. apply bitmap_index_lt. lia. }
    rewrite Hbm1. pose proof (length_set_bit _ _ _ Hbm1) as Hlb1.
    assert (Hlp : length (put_range values (N.of_nat k * 32) next) = length values).
    { apply length_put_range. unfold next. rewrite length_be_bytes. lia. }
    assert (Hwp : ∀ i, word (put_range values (N.of_nat k * 32) next) i =
      if decide (k = i) then next else word values i).
    { intros i. case_decide; [subst i; apply word_put_eq|apply word_put_ne];
        unfold next; rewrite ?length_be_bytes; done || lia. }
    destruct (IH (put_range values (N.of_nat k * 32) next) bm1)
      as (v' & b' & Hap & Hlv & Hlb & Hw & Hbit); [lia|unfold len in *; lia|done..|].
    exists v', b'. split_and!; [done|lia|lia| |].
    + intros i Hi. rewrite Hw, Hwp, Hself by done. case_decide; [|done]. subst i.
      rewrite delta_value_none; [done|]. by rewrite Hk.
    + intros i Hi. rewrite Hbit, (test_set_bit _ _ _ _ Hbm1), Hwp by done. case_decide as Hki.
      * subst i. rewrite (bool_decide_eq_true_2 (N.of_nat k = N.of_nat k)) by done. simpl.
        rewrite (bool_decide_eq_true_2 (word v' k ≠ word values k)); [by rewrite orb_true_r|].
        rewrite Hw, Hwp by done. rewrite decide_True by done.
        rewrite delta_value_none by (by rewrite Hk). auto.
      * rewrite (bool_decide_eq_false_2 (N.of_nat k = N.of_nat i)) by lia. done.
Qed.

(** ** The canonical change bitmap *)

Lemma diff_bitmap_fold (entries : list (nat * (bytes * bytes))) : ∀ bm,
  Forall (λ entry, N.of_nat entry.1 / 8 < len bm) entries →
  ∃ bm', fold_left (λ acc (entry : nat * (bytes * bytes)),
      bm ← acc; if decide (entry.2.1 = entry.2.2) then Some bm else set_bit bm (N.of_nat entry.1))
    entries (Some bm) = Some bm' ∧ length bm' = length bm ∧
  ∀ j, test_bit bm' j = true ↔
    test_bit bm j = true ∨ ∃ entry, entry ∈ entries ∧ j = N.of_nat entry.1 ∧ entry.2.1 ≠ entry.2.2.
Proof.
  induction entries as [|e entries IH]; intros bm Hf; cbn [fold_left].
  { exists bm. split_and!; try done. intros j. set_solver. }
  apply Forall_cons in Hf as [He Hf]. cbn [mbind option_bind]. case_decide as Heq.
  - destruct (IH bm Hf) as (bm' & -> & Hl & Ht). exists bm'. split_and!; try done.
    intros j. rewrite Ht. setoid_rewrite elem_of_cons.
    split; [intros [?|(e' & ? & ?)]; eauto|].
    intros [?|(e' & [->|?] & ? & ?)]; [by left|done|right; eauto].
  - destruct (set_bit_is_Some _ _ He) as [bm1 Hb]. rewrite Hb.
    pose proof (length_set_bit _ _ _ Hb) as Hl1.
    destruct (IH bm1) as (bm' & -> & Hl & Ht); [unfold len in *; by rewrite Hl1|].
    exists bm'. split_and!; [done|lia|]. intros j. rewrite Ht, (test_set_bit _ _ _ _ Hb).
    rewrite orb_true_iff, bool_decide_eq_true. setoid_rewrite elem_of_cons. split.
    + intros [[<-|?]|(e' & ? & ?)]; [right; exists e; auto|by left|right; eauto].
    + intros [?|(e' & [->|?] & -> & ?)]; [auto|auto|right; eauto].
Qed.

Lemma diff_entries_lookup previous next i e :
  imap pair (zip (chunks_exact 32 previous) (chunks_exact 32 next)) !! i = Some e →
  e = (i, (word previous i, word next i)) ∧
  (32 * S i ≤ length previous)%nat ∧ (32 * S i ≤ length next)%nat.
Proof.
  rewrite list_lookup_imap, fmap_Some. intros ([b a] & Hz & ->).
  rewrite lookup_zip_with in Hz. rewrite !chunks_exact_lookup in Hz.
  repeat case_decide; by simplify_eq/=.
Qed.

Lemma diff_bitmap_length previous next bm bm' :
  diff_bitmap previous next bm = Some bm' → length bm' = length bm.
Proof.
  unfold diff_bitmap. generalize (imap pair (zip (chunks_exact 32 previous) (chunks_exact 32 next))).
  intros l. revert bm. induction l as [|[i [x y]] l IH]; intros bm; simpl; [by intros [= ->]|].
  case_decide; [apply IH|]. destruct (set_bit bm (N.of_nat i)) as [bm1|] eqn:E.
  - intros Hf. apply IH in Hf. apply length_set_bit in E. congruence.
  - intros Hf. exfalso. clear IH. by induction l.
Qed.

Lemma diff_bitmap_spec n previous next bm :
  length previous = (32 * n)%nat → length next = (32 * n)%nat →
  len bm = div_ceil (N.of_nat n) 8 → (∀ i, test_bit bm i = false) →
  ∃ bm', diff_bitmap previous next bm = Some bm' ∧ length bm' = length bm ∧
    ∀ i, (i < n)%nat → test_bit bm' (N.of_nat i) = true ↔ word previous i ≠ word next i.
Proof.
  intros Hp Hn Hb H0. unfold diff_bitmap.
  destruct (diff_bitmap_fold (imap pair (zip (chunks_exact 32 previous) (chunks_exact 32 next))) bm)
    as (bm' & -> & Hl & Ht).
  { apply Forall_lookup. intros i e (-> & Hi & _)%diff_entries_lookup. simpl.
    rewrite Hb. apply bitmap_index_lt. lia. }
  exists bm'. split_and!; [done..|]. intros i Hi. rewrite Ht, H0. split.
  - intros [|(e & [j Hj]%list_elem_of_lookup & E & Hne)]; [done|].
    apply diff_entries_lookup in Hj as (-> & _). simpl in *. by assert (i = j) as -> by lia.
  - intros Hne. right. exists (i, (word previous i, word next i)). split; [|done].
    apply (list_elem_of_lookup_2 _ i). rewrite list_lookup_imap, lookup_zip_with, !chunks_exact_lookup.
    rewrite !decide_True by lia. done.
Qed.

(** When the canonical head moves, the bitmap marks exactly the keys whose value differs from the
    previous canonical head, also across reorgs and for provider-loaded projections.  On the
    shortcut for a direct child, the bitmap stored with the candidate has to mark its difference
    from the parent; [Fidelity] shows that it does. *)
Lemma canonical_changed_bitmap_exact previous next :
  dictionaries_match (pj_watch_set previous) (pj_watch_set next) = true →
  values_shape (pj_watch_set previous) (pj_values previous) →
  validate_projection_shape next = Ok () →
  (bm_parent_hash (pj_block next) = bm_hash (pj_block previous) →
   len (pj_changed_bitmap next) = bitmap_len (pj_watch_set next) →
   ∀ i, (i < length (ws_keys (pj_watch_set next)))%nat →
     test_bit (pj_changed_bitmap next) (N.of_nat i) = true ↔
     word (pj_values previous) i ≠ word (pj_values next) i) →
  ∃ bm, canonical_changed_bitmap previous next = Ok bm ∧
    len bm = bitmap_len (pj_watch_set next) ∧
    ∀ i, (i < length (ws_keys (pj_watch_set next)))%nat →
      test_bit bm (N.of_nat i) = true ↔ word (pj_values previous) i ≠ word (pj_values next) i.
Proof.
  intros [Hg Hk]%dictionaries_match_iff Hp [Hn _]%validate_projection_shape_Ok Hdirect.
  unfold values_shape, ws_len in *. rewrite Hk in Hp.
  unfold canonical_changed_bitmap. rewrite Hg, N.eqb_refl, Hp, Hn, N.eqb_refl. cbn [negb orb].
  destruct (N.eqb_spec (bm_parent_hash (pj_block next)) (bm_hash (pj_block previous)));
    [destruct (N.eqb_spec (len (pj_changed_bitmap next)) (bitmap_len (pj_watch_set next)))|];
    cbn [andb]; [by eauto| |].
  all: destruct (diff_bitmap_spec (length (ws_keys (pj_watch_set next))) (pj_values previous)
      (pj_values next) (zero_bitmap (pj_watch_set next))) as (bm & -> & Hl & Ht);
    [unfold len in *; lia|unfold len in *; lia|unfold zero_bitmap, bitmap_len, len;
     rewrite length_replicate, N2Nat.id; done|intros; apply test_bit_replicate_0|].
  all: exists bm; split_and!; [done| |done].
  all: unfold zero_bitmap in Hl; rewrite length_replicate in Hl; unfold len; rewrite Hl, N2Nat.id; done.
Qed.

(** Projections of three keys, used where a statement is evaluated. *)
Definition sample_watch_set : WatchSet := compile 1 sample_watch.
Definition sample_projection (hash parent number : N) (values bitmap : bytes) : Projection :=
  {| pj_block := {| bm_number := number; bm_hash := hash; bm_parent_hash := parent; bm_timestamp := 0 |};
     pj_watch_set := sample_watch_set; pj_values := values; pj_changed_bitmap := bitmap |}.
