(* ===== verification/Reth.v ===== *)
(** * The Reth integration (src/src/reth_integration.rs)

    The tracker of the latest applied forkchoice, the snapshot source that
    reads a provider while the engine keeps running, and the engine validator
    wrapper that feeds both the tracker and the queue.

    The provider's answers, the engine's progress and the clock are functions
    of an instant: every read the source makes happens at a later one. *)

From S2P Require Import Prelude Bytes Config Watch Feed Client Projection.
From stdpp Require Import list.
Local Open Scope N_scope.

(** ** The applied-forkchoice tracker *)

Record TrackedForkchoice := {
  revision : N;
  view : option AppliedForkchoiceMeta;
}.

Record AppliedForkchoiceTracker := {
  next_revision : N;
  latest : TrackedForkchoice;
}.

Definition tracker_default : AppliedForkchoiceTracker :=
  {| next_revision := 0; latest := {| revision := 0; view := None |} |}.

(** [AppliedForkchoiceTracker::update]. *)
Definition tracker_update (t : AppliedForkchoiceTracker) (v : option AppliedForkchoiceMeta) : AppliedForkchoiceTracker :=
  let r := wrapping_add (next_revision t) 1 in
  {| next_revision := r; latest := {| revision := r; view := v |} |}.

(** ** The engine validator wrapper *)

Record BlockNumHash := { bn_number : N; bn_hash : B256 }.

Definition checkpoint (value : BlockNumHash) : CheckpointMeta :=
  {| cp_number := bn_number value; cp_hash := bn_hash value |}.

(** Reth's [AppliedForkchoice]. *)
Record AppliedForkchoice := {
  ap_head : B256;
  ap_safe : option BlockNumHash;
  ap_finalized : option BlockNumHash;
}.

(** Reth's [InsertPayloadError], as far as the wrapper distinguishes its cases. *)
Inductive InsertPayloadError :=
| PayloadError
| BlockError (is_validation_error : bool).

(** An executed block: its identity and its bundle. *)
Record ExecutedBlock := { eb_block : BlockMeta; eb_state : BundleState }.

(** What a call does that others can see, in order. *)
Inductive EngineEffect :=
| UpdateTracker (view : option AppliedForkchoiceMeta)
| Observe (observed_at : N)
| TrySend (event : FeedEvent)
| CallInner.

(** A callback of the engine. *)
Inductive EngineCall :=
| OnExecuted (executed : ExecutedBlock)
| ValidateBlock (block_hash : B256) (outcome : ExecutedBlock + InsertPayloadError)
| OnInsertedExecutedBlock (outcome : ExecutedBlock + Error)
| OnCanonicalHeadChanged
| OnCanonicalStateReset (head : BlockNumHash)
| OnForkchoiceApplied (forkchoice : AppliedForkchoice).

Section validator.
Context `{HashIter}.

(** [observed_at] and [ws] are what [Instant::now()] and the producer's watch set give during the
    call; [executed] is the wrapper's [publish_executed] flag. *)
Context (executed : bool) (observed_at : N) (ws : WatchSet).

Definition send (event : FeedEvent) : list EngineEffect := [Observe observed_at; TrySend event].

(** [StatefeedExecutionObserver::on_executed]. *)
Definition on_executed (b : ExecutedBlock) : list EngineEffect :=
  send (FeedProducer.publish_executed observed_at ws (eb_block b) (eb_state b)).

Definition publish_validated_fallback (b : ExecutedBlock) : list EngineEffect :=
  send (FeedProducer.publish_validated_fallback observed_at ws (eb_block b) (eb_state b)).

Definition on_validated (b : ExecutedBlock) : list EngineEffect :=
  if executed then send (FeedProducer.publish_validated observed_at ws (bm_hash (eb_block b)))
  else publish_validated_fallback b.

Definition publish_rejected_if_invalid (block_hash : B256) (error : InsertPayloadError) : list EngineEffect :=
  let reason := match error with
                | PayloadError => None
                | BlockError true => Some "block_validation_failed"%string
                | BlockError false => None
                end in
  match reason with
  | Some reason => send (FeedProducer.publish_rejected observed_at ws block_hash reason)
  | None => []
  end.

(** [validate_payload] and [validate_block]. *)
Definition validate_block (block_hash : B256) (outcome : ExecutedBlock + InsertPayloadError) : list EngineEffect :=
  CallInner :: match outcome with
               | inl output => on_validated output
               | inr error => publish_rejected_if_invalid block_hash error
               end.

Definition on_inserted_executed_block (outcome : ExecutedBlock + Error) : list EngineEffect :=
  CallInner :: match outcome with
               | inl executed => publish_validated_fallback executed
               | inr _ => []
               end.

Definition on_canonical_state_reset (head : BlockNumHash) : list EngineEffect :=
  UpdateTracker None ::
  send (FeedProducer.publish_canonical_state_reset observed_at ws (checkpoint head)) ++ [CallInner].

Definition on_forkchoice_applied (forkchoice : AppliedForkchoice) : list EngineEffect :=
  let view := {| af_head_hash := ap_head forkchoice;
                 af_safe := checkpoint <$> ap_safe forkchoice;
                 af_finalized := checkpoint <$> ap_finalized forkchoice |} in
  UpdateTracker (Some view) ::
  send (FeedProducer.publish_forkchoice_applied observed_at ws view) ++ [CallInner].

(** One callback; the execution observer is installed only under [publish_executed]. *)
Definition engine_call (call : EngineCall) : list EngineEffect :=
  match call with
  | OnExecuted b => if executed then on_executed b else []
  | ValidateBlock h outcome => validate_block h outcome
  | OnInsertedExecutedBlock outcome => on_inserted_executed_block outcome
  | OnCanonicalHeadChanged => [CallInner]
  | OnCanonicalStateReset head => on_canonical_state_reset head
  | OnForkchoiceApplied forkchoice => on_forkchoice_applied forkchoice
  end.
End validator.

(** The views a trace of effects stored, oldest first, and the tracker they leave. *)
Definition update_of (e : EngineEffect) : list (option AppliedForkchoiceMeta) :=
  match e with UpdateTracker v => [v] | _ => [] end.
Definition updates (trace : list EngineEffect) : list (option AppliedForkchoiceMeta) := trace ≫= update_of.
Definition tracker (trace : list EngineEffect) : AppliedForkchoiceTracker :=
  foldl tracker_update tracker_default (updates trace).

(** ** The provider *)

Record Header := { hd_number : N; hd_parent_hash : B256; hd_timestamp : N }.
Record ChainInfo := { best_number : N; best_hash : B256 }.

(** An opened state: storage reads may fail at any instant. *)
Definition StateProvider := nat → Address → U256 → option U256 + Error.

(** Reth's provider traits and the engine beside it, at every instant: the effects the engine has
    completed and the clock. *)
Class RethWorld := {
  sealed_header_by_hash : nat → B256 → option Header + Error;
  state_by_block_hash : nat → B256 → StateProvider + Error;
  chain_info : nat → ChainInfo + Error;
  safe_block_num_hash : nat → option BlockNumHash + Error;
  finalized_block_num_hash : nat → option BlockNumHash + Error;
  rw_trace : nat → list EngineEffect;
  rw_clock : nat → N;
}.

#[export] Instance bn_eq_dec : EqDecision BlockNumHash.
Proof. solve_decision. Defined.

(** ** Reading at successive instants *)

Definition read {A} (f : nat → A) : M nat Error A := λ t, (Ok (f t), S t).
Definition ask {A} (f : nat → A + Error) : M nat Error A := λ t,
  (match f t with inl a => Ok a | inr e => Err e end, S t).

(** [match m { Ok(..) => .., Err(..) => .. }]. *)
Definition attempt {A} (m : M nat Error A) : M nat Error (A + Error) := λ t,
  match m t with
  | (Ok a, t') => (Ok (inl a), t')
  | (Err e, t') => (Ok (inr e), t')
  | (Diverge, t') => (Diverge, t')
  end.

Lemma wp_ask {A B} (f : nat → A + Error) (k : A → M nat Error B) Q t :
  match f t with inl a => wp (k a) Q (S t) | inr e => Q (Err e) (S t) end → wp (ask f ≫= k) Q t.
Proof. intros Hk. apply wp_bind. unfold wp at 1, ask. simpl. by destruct (f t). Qed.

Lemma wp_read {A B} (f : nat → A) (k : A → M nat Error B) Q t :
  wp (k (f t)) Q (S t) → wp (read f ≫= k) Q t.
Proof. done. Qed.

Section source.
Context `{RethWorld}.

Definition load : M nat Error TrackedForkchoice := read (λ t, latest (tracker (rw_trace t))).

Fixpoint load_values (state : StateProvider) (keys : list WatchKey) : M nat Error bytes :=
  match keys with
  | [] => mret []
  | key :: keys =>
      value ← ask (λ t, state t (wk_address key) (wk_slot key));
      rest ← load_values state keys;
      mret (be_bytes 32 (default 0 value) ++ rest)
  end.

(** [RethSnapshotSource::load_at]. *)
Definition load_at (ws : WatchSet) (block_hash : B256) : M nat Error Projection :=
  found ← ask (λ t, sealed_header_by_hash t block_hash);
  header ← lift (ok_or found (HeaderNotFound block_hash));
  state ← ask (λ t, state_by_block_hash t block_hash);
  values ← load_values state (ws_keys ws);
  mret {| pj_block := {| bm_number := hd_number header; bm_hash := block_hash;
                         bm_parent_hash := hd_parent_hash header; bm_timestamp := hd_timestamp header |};
          pj_watch_set := ws; pj_values := values; pj_changed_bitmap := [] |}.

Definition MAX_CANONICAL_SNAPSHOT_ATTEMPTS : nat := 4.

(** The attempts left of [RethSnapshotSource::load_latest]; [unreachable!] with none left. *)
Fixpoint load_latest_loop (attempts : nat) (ws : WatchSet) : M nat Error CanonicalSnapshot :=
  match attempts with
  | O => diverge
  | S more =>
      let last_attempt := bool_decide (more = O) in
      tracked ← load;
      match view tracked with
      | Some view =>
          loaded ← attempt (load_at ws (af_head_hash view));
          match loaded with
          | inr error =>
              confirmed ← load;
              if negb (revision confirmed =? revision tracked) && negb last_attempt
              then load_latest_loop more ws else throw error
          | inl projection =>
              anchored_at ← read rw_clock;
              confirmed ← load;
              if revision confirmed =? revision tracked
              then mret {| cs_projection := projection; cs_anchored_at := anchored_at;
                           cs_forkchoice := resolve view (bm_number (pj_block projection)) |}
              else if last_attempt then throw ForkchoiceKeptChanging else load_latest_loop more ws
          end
      | None =>
          selected ← ask chain_info;
          selected_safe ← ask safe_block_num_hash;
          selected_finalized ← ask finalized_block_num_hash;
          loaded ← attempt (load_at ws (best_hash selected));
          match loaded with
          | inr error =>
              confirmed_tracked ← load;
              confirmed ← ask chain_info;
              if (negb (revision confirmed_tracked =? revision tracked) ||
                  negb (best_hash confirmed =? best_hash selected)) && negb last_attempt
              then load_latest_loop more ws else throw error
          | inl projection =>
              anchored_at ← read rw_clock;
              confirmed_tracked ← load;
              confirmed ← ask chain_info;
              confirmed_safe ← ask safe_block_num_hash;
              confirmed_finalized ← ask finalized_block_num_hash;
              if (revision confirmed_tracked =? revision tracked) &&
                 bool_decide (view confirmed_tracked = None) &&
                 (best_hash confirmed =? best_hash selected) &&
                 bool_decide (confirmed_safe = selected_safe) &&
                 bool_decide (confirmed_finalized = selected_finalized)
              then mret {| cs_projection := projection; cs_anchored_at := anchored_at;
                           cs_forkchoice := {| fc_head := {| cp_number := best_number selected;
                                                             cp_hash := best_hash selected |};
                                               fc_safe := checkpoint <$> selected_safe;
                                               fc_finalized := checkpoint <$> selected_finalized |} |}
              else if last_attempt then
                if negb (revision confirmed_tracked =? revision tracked)
                then throw ForkchoiceKeptChanging else throw CanonicalHeadKeptChanging
              else load_latest_loop more ws
          end
      end
  end.

(** [RethSnapshotSource::load_latest]. *)
Definition load_latest (ws : WatchSet) : M nat Error CanonicalSnapshot :=
  load_latest_loop MAX_CANONICAL_SNAPSHOT_ATTEMPTS ws.
End source.

(** ** The tracker *)

Lemma updates_app l1 l2 : updates (l1 ++ l2) = updates l1 ++ updates l2.
Proof. unfold updates. by rewrite bind_app. Qed.

Lemma updates_prefix l1 l2 : l1 `prefix_of` l2 → updates l1 `prefix_of` updates l2.
Proof. intros [k ->]. rewrite updates_app. by apply prefix_app_r. Qed.

Lemma tracker_spec trace :
  len (updates trace) ≤ u64_max →
  next_revision (tracker trace) = len (updates trace) ∧
  latest (tracker trace) = {| revision := len (updates trace); view := mjoin (last (updates trace)) |}.
Proof.
  unfold tracker. generalize (updates trace) as us. clear trace.
  induction us as [|v us IH] using rev_ind; intros Hl; [done|].
  unfold len in *. rewrite length_app in Hl. simpl in Hl.
  rewrite foldl_snoc, last_snoc, length_app. destruct IH as [E _]; [lia|].
  set (before := foldl tracker_update tracker_default us) in *. unfold tracker_update. rewrite E.
  unfold wrapping_add. rewrite N.mod_small by lia. simpl.
  replace (N.of_nat (length us + 1)) with (N.of_nat (length us) + 1) by lia. done.
Qed.

(** ** What a snapshot read sees *)

(** The engine only moves forward, and has stored fewer than 2^64 views. *)
Record world_ok `{RethWorld} : Prop := {
  wo_forward : ∀ t t', (t ≤ t')%nat → rw_trace t `prefix_of` rw_trace t';
  wo_revisions : ∀ t, len (updates (rw_trace t)) ≤ u64_max;
}.

Section source_lemmas.
Context `{RethWorld}.

Lemma same_revision (Hok : world_ok) t t' :
  (t ≤ t')%nat →
  revision (latest (tracker (rw_trace t'))) = revision (latest (tracker (rw_trace t))) →
  updates (rw_trace t') = updates (rw_trace t).
Proof.
  intros Ht. rewrite !(proj2 (tracker_spec _ (wo_revisions Hok _))). cbn [revision]. unfold len. intros E.
  destruct (updates_prefix _ _ (wo_forward Hok _ _ Ht)) as [k Hk]. rewrite Hk in E |- *.
  rewrite length_app in E. destruct k; [by rewrite app_nil_r|simpl in E; lia].
Qed.

Lemma load_values_wp state keys t :
  wp (load_values state keys) (λ o t', (t ≤ t' ≤ t + length keys)%nat ∧ o ≠ Diverge ∧
    ∀ values, o = Ok values →
      length values = (32 * length keys)%nat ∧
      ∀ f, (∀ t a s v, state t a s = inl v → default 0 v = f a s) →
        values = encode_values ((λ k, f (wk_address k) (wk_slot k)) <$> keys)) t.
Proof.
  revert t; induction keys as [|k keys IH]; intros t; cbn [load_values length].
  { apply wp_ret. split_and!; [simpl; lia|simpl; lia|done|]. by intros values [= <-]. }
  apply wp_ask. destruct (state t (wk_address k) (wk_slot k)) as [v|e] eqn:E; [|split_and!; [lia|lia|done|done]].
  apply wp_bind. eapply wp_mono; [apply IH|]. intros o t' ([Hl Hu] & Hd & Hok).
  destruct o as [rest|e|]; [|split_and!; [lia|lia|done|done]|done].
  apply wp_ret. split_and!; [lia|lia|done|]. intros values Hv.
  assert (values = be_bytes 32 (default 0 v) ++ rest) as -> by congruence. destruct (Hok _ eq_refl) as [Hlen Hval]. split.
  - rewrite length_app, length_be_bytes, Hlen. lia.
  - intros f Hf. unfold encode_values. rewrite fmap_cons, fmap_cons, concat_cons. by rewrite (Hf _ _ _ _ E), (Hval f Hf).
Qed.

(** What [load_at] returns: the block asked for, read from a state opened during the call. *)
Record loaded_at (ws : WatchSet) (h : B256) (pj : Projection) : Prop := {
  la_hash : bm_hash (pj_block pj) = h;
  la_watch_set : pj_watch_set pj = ws;
  la_bitmap : pj_changed_bitmap pj = [];
  la_length : length (pj_values pj) = (32 * length (ws_keys ws))%nat;
  la_header : ∃ t header, sealed_header_by_hash t h = inl (Some header) ∧
    pj_block pj = {| bm_number := hd_number header; bm_hash := h; bm_parent_hash := hd_parent_hash header;
                     bm_timestamp := hd_timestamp header |};
  la_values : ∃ t state, state_by_block_hash t h = inl state ∧
    ∀ f, (∀ t a s v, state t a s = inl v → default 0 v = f a s) →
      pj_values pj = encode_values ((λ k, f (wk_address k) (wk_slot k)) <$> ws_keys ws);
}.

Lemma load_at_wp ws h t :
  wp (load_at ws h) (λ o t', (t ≤ t' ≤ t + 2 + length (ws_keys ws))%nat ∧ o ≠ Diverge ∧
    ∀ pj, o = Ok pj → loaded_at ws h pj) t.
Proof.
  unfold load_at. apply wp_ask. destruct (sealed_header_by_hash t h) as [[header|]|e] eqn:Eh;
    [|wp_steps; split_and!; (lia || done)|split_and!; (lia || done)].
  wp_step. apply wp_ask. destruct (state_by_block_hash (S t) h) as [state|e] eqn:Es; [|split_and!; (lia || done)].
  apply wp_bind. eapply wp_mono; [apply load_values_wp|]. intros o t' ([Hl Hu] & Hd & Hok).
  destruct o as [values|e|]; [|split_and!; (lia || done)|done].
  apply wp_ret. split_and!; [lia|lia|done|]. intros pj [= <-]. destruct (Hok _ eq_refl) as [Hlen Hval].
  split; try done; eauto 10.
Qed.

(** The view of a snapshot whose successful attempt began with the tracker read at [begin] and whose
    storage read ended at [a]: the tracked view [w]; or, without one, the provider's own head and
    checkpoints, asked for right after the tracker read and again right after its confirmation. *)
Definition shows (begin a : nat) (s : CanonicalSnapshot) (w : option AppliedForkchoiceMeta) : Prop :=
  match w with
  | Some v => bm_hash (pj_block (cs_projection s)) = af_head_hash v ∧
      cs_forkchoice s = resolve v (bm_number (pj_block (cs_projection s)))
  | None => ∃ info info' safe finalized,
      chain_info (1 + begin) = inl info ∧ chain_info (2 + a) = inl info' ∧ best_hash info' = best_hash info ∧
      safe_block_num_hash (2 + begin) = inl safe ∧ safe_block_num_hash (3 + a) = inl safe ∧
      finalized_block_num_hash (3 + begin) = inl finalized ∧ finalized_block_num_hash (4 + a) = inl finalized ∧
      bm_hash (pj_block (cs_projection s)) = best_hash info ∧
      cs_forkchoice s = {| fc_head := {| cp_number := best_number info; cp_hash := best_hash info |};
        fc_safe := checkpoint <$> safe; fc_finalized := checkpoint <$> finalized |}
  end.

(** How many reads an attempt makes before and after the storage read. *)
Definition reads_before (w : option AppliedForkchoiceMeta) : nat := match w with Some _ => 1 | None => 4 end.
Definition reads_after (w : option AppliedForkchoiceMeta) : nat := match w with Some _ => 2 | None => 5 end.

(** The attempt that gave the snapshot: the tracker was read at [begin], the storage read of the
    snapshot's head took all the instants from there to [a], the clock was read at [a], the tracker
    was confirmed right after it, and the call returned at [t1] after the remaining confirmations.
    No view was stored from the first tracker read to the confirmation, not even the same one again,
    and the snapshot shows the view stored last. *)
Record attempted (ws : WatchSet) (begin a t1 : nat) (s : CanonicalSnapshot) : Prop := {
  at_read : load_at ws (cp_hash (fc_head (cs_forkchoice s)))
      (reads_before (mjoin (last (updates (rw_trace begin)))) + begin)%nat = (Ok (cs_projection s), a);
  at_loaded : loaded_at ws (cp_hash (fc_head (cs_forkchoice s))) (cs_projection s);
  at_clock : cs_anchored_at s = rw_clock a;
  at_order : (begin < a)%nat ∧ t1 = (reads_after (mjoin (last (updates (rw_trace begin)))) + a)%nat;
  at_stable : ∀ u, (begin ≤ u ≤ S a)%nat → updates (rw_trace u) = updates (rw_trace begin);
  at_shows : shows begin a s (mjoin (last (updates (rw_trace begin))));
}.

(** A snapshot a call started at [t0] returned at [t1]. *)
Definition anchored (ws : WatchSet) (t0 t1 : nat) (s : CanonicalSnapshot) : Prop :=
  ∃ begin a, (t0 ≤ begin)%nat ∧ attempted ws begin a t1 s.

Definition load_post (ws : WatchSet) (t0 bound : nat) (o : outcome Error CanonicalSnapshot) (t1 : nat) : Prop :=
  (t0 ≤ t1 ≤ t0 + bound)%nat ∧ o ≠ Diverge ∧ ∀ s, o = Ok s → anchored ws t0 t1 s.

Lemma load_post_err ws t0 bound e t1 :
  (t0 ≤ t1 ≤ t0 + bound)%nat → load_post ws t0 bound (Err e) t1.
Proof. intros Hb. split; [done|by split]. Qed.

Lemma load_post_retry ws t0 bound t bound' m :
  wp m (load_post ws t bound') t → (t0 ≤ t)%nat → (t + bound' ≤ t0 + bound)%nat →
  wp m (load_post ws t0 bound) t.
Proof.
  intros Hm Ht Hb. eapply wp_mono; [exact Hm|]. intros o t1 (Hl & Hd & Hs). split_and!; [lia|lia|done|].
  intros s E. destruct (Hs s E) as (begin & a & ? & Hat). exists begin, a. split; [lia|exact Hat].
Qed.

Lemma wp_attempt {A B} (m : M nat Error A) (k : A + Error → M nat Error B) (P : outcome Error A → nat → Prop) Q t :
  wp m P t → (∀ t', P Diverge t' → False) →
  (∀ a t', P (Ok a) t' → wp (k (inl a)) Q t') → (∀ e t', P (Err e) t' → wp (k (inr e)) Q t') →
  wp (attempt m ≫= k) Q t.
Proof.
  intros Hm Hd Ha He. apply wp_bind. unfold wp at 1, attempt. unfold wp in Hm.
  destruct (m t) as [[a|e|] t'] eqn:E; simpl in *; [by apply Ha|by apply He|by destruct (Hd t')].
Qed.

(** [load_at] with the call itself, and how far it moves. *)
Lemma load_at_run ws h t :
  wp (load_at ws h) (λ o t', load_at ws h t = (o, t') ∧ (t ≤ t' ≤ t + 2 + length (ws_keys ws))%nat ∧ o ≠ Diverge ∧
    ∀ pj, o = Ok pj → loaded_at ws h pj) t.
Proof. pose proof (load_at_wp ws h t) as Hp. unfold wp in *. by destruct (load_at ws h t). Qed.

(** Equal revisions around an instant: nothing was stored in between. *)
Lemma unchanged (Hok : world_ok) t t' :
  (t ≤ t')%nat →
  revision (latest (tracker (rw_trace t'))) = revision (latest (tracker (rw_trace t))) →
  ∀ u v, (t ≤ u ≤ t')%nat → (t ≤ v ≤ t')%nat → updates (rw_trace u) = updates (rw_trace v).
Proof.
  intros Ht E. apply (same_revision Hok) in E; [|done].
  assert (Hu : ∀ u, (t ≤ u ≤ t')%nat → updates (rw_trace u) = updates (rw_trace t)).
  { intros u [H1 H2]. apply (anti_symm prefix); [rewrite <- E|]; by apply updates_prefix, (wo_forward Hok). }
  intros u v Hu1 Hv1. by rewrite (Hu u Hu1), (Hu v Hv1).
Qed.

(** The retry at the end of an attempt, or the error of the last one. *)
Lemma load_retry ws more t t' (b : bool) e :
  ((more ≠ 0)%nat → ∀ t, wp (load_latest_loop more ws) (load_post ws t (more * (length (ws_keys ws) + 11))) t) →
  (t ≤ t' ≤ t + (length (ws_keys ws) + 11))%nat →
  wp (if b && negb (bool_decide (more = 0%nat)) then load_latest_loop more ws else throw e)
    (load_post ws t (S more * (length (ws_keys ws) + 11))) t'.
Proof.
  intros IH Ht. destruct (b && negb _) eqn:E; [|apply wp_throw, load_post_err; lia].
  apply andb_true_iff in E as [_ Hm%negb_true_iff%bool_decide_eq_false].
  eapply load_post_retry; [by apply IH|lia|lia].
Qed.

(** An attempt under a tracked view, and one without: confirmed at [S a], dated at [a]. *)
Lemma attempted_tracked (Hok : world_ok) ws t a v pj :
  view (latest (tracker (rw_trace t))) = Some v → (t < a)%nat →
  revision (latest (tracker (rw_trace (S a)))) = revision (latest (tracker (rw_trace t))) →
  load_at ws (af_head_hash v) (S t) = (Ok pj, a) → loaded_at ws (af_head_hash v) pj →
  attempted ws t a (S (S a)) {| cs_projection := pj; cs_anchored_at := rw_clock a;
                                cs_forkchoice := resolve v (bm_number (pj_block pj)) |}.
Proof.
  intros Hv Ht Er Hrun Hpj. pose proof (unchanged Hok t (S a) ltac:(lia) Er) as Hu.
  rewrite (proj2 (tracker_spec _ (wo_revisions Hok _))) in Hv. cbn [view] in Hv.
  split; rewrite ?Hv; try done; [intros u ?; apply Hu; lia|]. split; [apply (la_hash _ _ _ Hpj)|done].
Qed.

Lemma attempted_untracked (Hok : world_ok) ws t a pj info info' safe finalized :
  view (latest (tracker (rw_trace t))) = None → (t < a)%nat →
  revision (latest (tracker (rw_trace (S a)))) = revision (latest (tracker (rw_trace t))) →
  chain_info (S t) = inl info → safe_block_num_hash (S (S t)) = inl safe →
  finalized_block_num_hash (S (S (S t))) = inl finalized →
  load_at ws (best_hash info) (S (S (S (S t)))) = (Ok pj, a) → loaded_at ws (best_hash info) pj →
  chain_info (S (S a)) = inl info' → best_hash info' = best_hash info →
  safe_block_num_hash (S (S (S a))) = inl safe → finalized_block_num_hash (S (S (S (S a)))) = inl finalized →
  attempted ws t a (S (S (S (S (S a))))) {| cs_projection := pj; cs_anchored_at := rw_clock a;
    cs_forkchoice := {| fc_head := {| cp_number := best_number info; cp_hash := best_hash info |};
                        fc_safe := checkpoint <$> safe; fc_finalized := checkpoint <$> finalized |} |}.
Proof.
  intros Hv Ht Er Hi Hs Hf Hrun Hpj Hi' Hh Hs' Hf'. pose proof (unchanged Hok t (S a) ltac:(lia) Er) as Hu.
  rewrite (proj2 (tracker_spec _ (wo_revisions Hok _))) in Hv. cbn [view] in Hv.
  split; rewrite ?Hv; try done; [intros u ?; apply Hu; lia|].
  exists info, info', safe, finalized. split_and!; try done. apply (la_hash _ _ _ Hpj).
Qed.

Lemma load_latest_loop_wp (Hok : world_ok) ws attempts : (attempts ≠ 0)%nat → ∀ t,
  wp (load_latest_loop attempts ws) (load_post ws t (attempts * (length (ws_keys ws) + 11))) t.
Proof.
  induction attempts as [|more IH]; intros Hne t; [done|].
  pose proof (load_retry ws more t) as Hretry. set (n := length (ws_keys ws)) in *.
  cbn [load_latest_loop]. apply wp_read. cbv zeta.
  destruct (view (latest (tracker (rw_trace t)))) as [v|] eqn:Hv.
  - eapply wp_attempt; [apply load_at_run|by intros t' (_ & _ & ? & _)| |].
    + intros pj t' (Hrun & [Hl Hu] & _ & Hpj). apply wp_read, wp_read. case_match eqn:Er.
      * apply N.eqb_eq in Er. apply wp_ret. split_and!; [lia|lia|done|]. intros s [= <-]. exists t, t'. split; [lia|].
        apply (attempted_tracked Hok); [exact Hv|lia|exact Er|exact Hrun|by apply Hpj].
      * specialize (Hretry (S (S t')) true ForkchoiceKeptChanging IH).
        destruct (bool_decide (more = 0%nat)); apply Hretry; lia.
    + intros e t' (_ & [Hl Hu] & _ & _). apply wp_read. apply Hretry; [done|lia].
  - apply wp_ask. destruct (chain_info _) as [info|] eqn:Ei; [|apply load_post_err; lia].
    apply wp_ask. destruct (safe_block_num_hash _) as [safe|] eqn:Es; [|apply load_post_err; lia].
    apply wp_ask. destruct (finalized_block_num_hash _) as [final|] eqn:Ef; [|apply load_post_err; lia].
    eapply wp_attempt; [apply load_at_run|by intros t' (_ & _ & ? & _)| |].
    + intros pj t' (Hrun & [Hl Hu] & _ & Hpj). apply wp_read, wp_read.
      apply wp_ask. destruct (chain_info (S (S t'))) as [info'|] eqn:Ei'; [|apply load_post_err; lia].
      apply wp_ask. destruct (safe_block_num_hash (S (S (S t')))) as [safe'|] eqn:Es'; [|apply load_post_err; lia].
      apply wp_ask. destruct (finalized_block_num_hash (S (S (S (S t'))))) as [final'|] eqn:Ef'; [|apply load_post_err; lia].
      case_match eqn:Eall.
      * rewrite !andb_true_iff, !N.eqb_eq, !bool_decide_eq_true in Eall. destruct Eall as ((((Er & _) & Eh) & ->) & ->).
        apply wp_ret. split_and!; [lia|lia|done|]. intros s [= <-].
        exists t, t'. split; [lia|]. by eapply (attempted_untracked Hok); eauto; lia.
      * pose proof (λ e, Hretry (S (S (S (S (S t'))))) true e IH) as Hr.
        destruct (bool_decide (more = 0%nat)); [|apply (Hr ProviderError); lia].
        destruct (negb (_ =? _)); apply wp_throw, load_post_err; lia.
    + intros e t' (_ & [Hl Hu] & _ & _). apply wp_read.
      apply wp_ask. destruct (chain_info (S t')) as [info'|]; [|apply load_post_err; lia]. apply Hretry; [done|lia].
Qed.

Lemma load_latest_post (Hok : world_ok) ws t :
  load_post ws t (MAX_CANONICAL_SNAPSHOT_ATTEMPTS * (length (ws_keys ws) + 11))
    (load_latest ws t).1 (load_latest ws t).2.
Proof. by apply (load_latest_loop_wp Hok ws MAX_CANONICAL_SNAPSHOT_ATTEMPTS). Qed.

Lemma load_latest_loaded (Hok : world_ok) ws t s :
  (load_latest ws t).1 = Ok s → ∃ h, loaded_at ws h (cs_projection s).
Proof.
  intros E. destruct (load_latest_post Hok ws t) as (_ & _ & Hs).
  destruct (Hs s E) as (? & ? & _ & [_ Hpj]). eauto.
Qed.

Lemma load_at_loaded ws h t pj : (load_at ws h t).1 = Ok pj → loaded_at ws h pj.
Proof. destruct (load_at_wp ws h t) as (_ & _ & Hpj). apply Hpj. Qed.
End source_lemmas.

(** ** The tracker leads the queue *)

(** A call with the instant and the watch set it observed. *)
Definition engine_trace `{HashIter} (executed : bool) (calls : list (N * WatchSet * EngineCall)) : list EngineEffect :=
  calls ≫= λ c, engine_call executed c.1.1 c.1.2 c.2.

(** Every forkchoice event was offered to the queue after its view was stored and its instant read. *)
Definition led (trace : list EngineEffect) : Prop :=
  ∀ i o g v, trace !! i = Some (TrySend (ForkchoiceApplied o g v)) →
    ∃ j, i = S (S j) ∧ trace !! j = Some (UpdateTracker (Some v)) ∧ trace !! S j = Some (Observe o).

Lemma led_app l1 l2 : led l1 → led l2 → led (l1 ++ l2).
Proof.
  intros H1 H2 i o g v Hi. destruct (decide (i < length l1)%nat) as [Hlt|Hge].
  - rewrite lookup_app_l in Hi by done. destruct (H1 _ _ _ _ Hi) as (j & -> & Hj & Hj').
    exists j. rewrite !lookup_app_l by lia. done.
  - rewrite lookup_app_r in Hi by lia. destruct (H2 _ _ _ _ Hi) as (j & E & Hj & Hj').
    exists (length l1 + j)%nat. split; [lia|]. rewrite !lookup_app_r by lia.
    split; [by replace (length l1 + j - length l1)%nat with j by lia|].
    by replace (S (length l1 + j) - length l1)%nat with (S j) by lia.
Qed.

Lemma engine_call_led `{HashIter} executed t ws call : led (engine_call executed t ws call).
Proof.
  intros i o g v Hi. destruct call as [|h [|[|[]]]|[]| | |]; simpl in Hi;
    try (unfold on_validated in Hi); try destruct executed; simpl in Hi;
    destruct i as [|[|[|[|i]]]]; simplify_eq/=; eauto.
Qed.

Lemma engine_trace_led `{HashIter} executed calls : led (engine_trace executed calls).
Proof.
  induction calls as [|c calls IH]; [by intros i o g v|]. apply led_app; [apply engine_call_led|exact IH].
Qed.

Lemma updates_lookup trace j v :
  trace !! j = Some (UpdateTracker v) → ∃ us us', updates trace = us ++ v :: us'.
Proof.
  intros Hj. exists (updates (take j trace)), (updates (drop (S j) trace)).
  rewrite <- (take_drop_middle _ _ _ Hj) at 1. by rewrite updates_app.
Qed.

(** C19: A snapshot read from the running node returns after at most four attempts.  The snapshot
    comes from one attempt, which read the tracker, then the storage of its forkchoice's head in one
    run of [load_at], then the clock that dates it, and then confirmed the tracker: no forkchoice was
    applied, reaffirmed or reset from the attempt's first tracker read to its confirmation, so none
    during the storage read; and its view is the one applied last, or, when there is none, the head and
    checkpoints the provider reported right before the read and right after its confirmation. *)
Theorem snapshot_anchored `{RethWorld} ws t o t' :
  world_ok → load_latest ws t = (o, t') →
  (t ≤ t' ≤ t + MAX_CANONICAL_SNAPSHOT_ATTEMPTS * (length (ws_keys ws) + 11))%nat ∧ o ≠ Diverge ∧
  ∀ s, o = Ok s → anchored ws t t' s.
Proof.
  intros Hok E. pose proof (load_latest_post Hok ws t) as Hp. rewrite E in Hp. exact Hp.
Qed.

(** C20: No applied forkchoice is lost between the queue and a snapshot.  If the event of a
    forkchoice was offered to the queue (and perhaps dropped) before a recovery's snapshot read
    began, or was observed no later than the instant that dates the snapshot (so that the publisher
    skips it), then its view had been stored when the snapshot's successful attempt read the tracker,
    and the snapshot shows that view, or the one stored last after it, or, when the engine was reset
    after it, the provider's own head as reported around the read.  The one exception is a tie of the
    clock: an event observed at the very instant that dates the snapshot, whose view was stored after
    the tracker had been confirmed. *)
Theorem forkchoice_covered `{HashIter} `{RethWorld} executed calls ws t s t' i o g v :
  let trace := engine_trace executed calls in
  world_ok → (∀ u, rw_trace u `prefix_of` trace) →
  (∀ u i o, trace !! i = Some (Observe o) → (length (rw_trace u) ≤ i)%nat → rw_clock u ≤ o) →
  load_latest ws t = (Ok s, t') →
  trace !! i = Some (TrySend (ForkchoiceApplied o g v)) →
  (i < length (rw_trace t))%nat ∨ o ≤ cs_anchored_at s →
  ∃ begin a, (t ≤ begin)%nat ∧ attempted ws begin a t' s ∧
    ((∃ us us', updates (rw_trace begin) = us ++ Some v :: us' ∧ shows begin a s (default (Some v) (last us'))) ∨
     (o = cs_anchored_at s ∧ (length (rw_trace (S a)) + 2 ≤ i)%nat)).
Proof.
  intros trace Hok Hpre Hclock Hload Hi Hwhen.
  pose proof (load_latest_post Hok ws t) as (_ & _ & Hs). rewrite Hload in Hs.
  destruct (Hs s eq_refl) as (begin & a & Ht & Hat). exists begin, a. split; [done|]. split; [exact Hat|].
  destruct Hat as [_ _ Ha [Hba _] Hstable Hshow].
  destruct (engine_trace_led _ _ _ _ _ _ Hi) as (j & -> & Hj & Hj').
  destruct (decide (j < length (rw_trace (S a)))%nat) as [Hlt|Hge]; [left|right].
  - destruct (updates_lookup (rw_trace (S a)) j (Some v)) as (us & us' & E).
    { destruct (Hpre (S a)) as [rest E]. unfold trace in *. rewrite E, lookup_app_l in Hj by lia. done. }
    rewrite (Hstable (S a)) in E by lia. exists us, us'. split; [done|].
    rewrite E, last_app in Hshow. simpl in Hshow. destruct us' as [|w us']; [done|].
    rewrite last_cons_cons in Hshow. destruct (last (w :: us')) eqn:El; [done|by apply last_None in El].
  - pose proof (prefix_length _ _ (wo_forward Hok t (S a) ltac:(lia))).
    pose proof (prefix_length _ _ (wo_forward Hok a (S a) ltac:(lia))).
    pose proof (Hclock a _ _ Hj' ltac:(lia)). split; [|lia]. destruct Hwhen; [lia|]. rewrite Ha in *. lia.
Qed.

(** ** A node whose forkchoice moves from block 50 to block 60 during a read *)

Definition sample_forkchoice (h : B256) : AppliedForkchoice :=
  {| ap_head := h; ap_safe := None; ap_finalized := None |}.
Definition sample_calls : list (N * WatchSet * EngineCall) :=
  [(5, sample_watch_set, OnForkchoiceApplied (sample_forkchoice 50));
   (20, sample_watch_set, OnForkchoiceApplied (sample_forkchoice 60))].
Definition sample_trace : list EngineEffect := @engine_trace in_key_order true sample_calls.
Definition sample_progress (t : nat) : nat := if (t <? 2)%nat then 4 else 8.

Definition sample_world : RethWorld := {|
  sealed_header_by_hash := λ _ h, inl (Some {| hd_number := h / 10; hd_parent_hash := h - 10; hd_timestamp := h |});
  state_by_block_hash := λ _ h, inl (λ _ a s, inl (Some (h + a + s)));
  chain_info := λ _, inl {| best_number := 5; best_hash := 50 |};
  safe_block_num_hash := λ _, inl None;
  finalized_block_num_hash := λ _, inl None;
  rw_trace := λ t, take (sample_progress t) sample_trace;
  rw_clock := λ t, 10 + 10 * N.of_nat t |}.

Lemma sample_world_ok : @world_ok sample_world.
Proof.
  split.
  - intros t t' Ht. cbn [rw_trace sample_world]. unfold sample_progress.
    destruct (Nat.ltb_spec t 2), (Nat.ltb_spec t' 2); try lia; [done| |done].
    exists (drop 4 sample_trace). vm_compute. reflexivity.
  - intros t. cbn [rw_trace sample_world]. unfold sample_progress.
    destruct (Nat.ltb t 2); vm_compute; discriminate.
Qed.

(** The snapshot the read returns, and when it ends. *)
Definition sample_loaded : outcome Error CanonicalSnapshot * nat :=
  Eval vm_compute in @load_latest sample_world sample_watch_set 0%nat.

Lemma snapshot_anchored_witness :
  ∃ s, sample_loaded.1 = Ok s ∧ cp_hash (fc_head (cs_forkchoice s)) = 60 ∧
    @anchored sample_world sample_watch_set 0%nat sample_loaded.2 s.
Proof.
  eexists. split; [reflexivity|]. split; [reflexivity|].
  apply (proj2 (proj2 (@snapshot_anchored sample_world sample_watch_set 0%nat sample_loaded.1 sample_loaded.2
    sample_world_ok ltac:(vm_compute; reflexivity)))). reflexivity.
Defined.

Definition sample_snapshot : CanonicalSnapshot :=
  match sample_loaded.1 with
  | Ok s => s
  | _ => {| cs_projection := sample_projection 0 0 0 [] []; cs_anchored_at := 0;
            cs_forkchoice := {| fc_head := {| cp_number := 0; cp_hash := 0 |}; fc_safe := None; fc_finalized := None |} |}
  end.

Lemma forkchoice_covered_witness :
  let v := {| af_head_hash := 60; af_safe := None; af_finalized := None |} in
  ∃ begin a us us', updates (@rw_trace sample_world begin) = us ++ Some v :: us' ∧
    @shows sample_world begin a sample_snapshot (default (Some v) (last us')).
Proof.
  destruct (@forkchoice_covered in_key_order sample_world true sample_calls sample_watch_set 0%nat
    sample_snapshot sample_loaded.2 6%nat 20 1
    {| af_head_hash := 60; af_safe := None; af_finalized := None |}) as (begin & a & _ & _ & [(us & us' & E & Hs)|[Htie _]]).
  - exact sample_world_ok.
  - intros u. cbn [rw_trace sample_world]. exists (drop (sample_progress u) sample_trace). by rewrite take_drop.
  - intros u i o Hi Hlen. cbn [rw_trace rw_clock sample_world] in *. unfold sample_progress in Hlen.
    destruct (Nat.ltb_spec u 2).
    + change (length (take 4 sample_trace)) with 4%nat in Hlen.
      destruct i as [|[|[|[|[|[|[|[|i]]]]]]]]; try lia; vm_compute in Hi; try discriminate Hi.
      injection Hi as <-. lia.
    + change (length (take 8 sample_trace)) with 8%nat in Hlen.
      do 8 (destruct i as [|i]; [lia|]). vm_compute in Hi. discriminate Hi.
  - vm_compute. reflexivity.
  - vm_compute. reflexivity.
  - right. vm_compute. discriminate.
  - exists begin, a, us, us'. split; [exact E|exact Hs].
  - vm_compute in Htie. discriminate Htie.
Defined.
