(* ===== verification/Cache.v ===== *)
(** * The candidate cache (src/src/publisher.rs: the bookkeeping half of [Publisher])

    Candidate entries, deferred executions, the parent-to-children index, the
    two insertion-ordered queues, tombstones and the finality sweep.  The
    methods here touch nothing else of the publisher; [Publisher] composes
    them with the shared stream, the provider and the clock.  A reading of the
    clock is an argument. *)

From S2P Require Import Prelude Bytes Config Watch Feed Wire Projection.
From stdpp Require Import list.
Local Open Scope N_scope.

Inductive CandidateStage := CandidateExecuted | CandidateValidated.

Definition stage_wire (s : CandidateStage) : wire.BlockStage :=
  match s with
  | CandidateExecuted => wire.StageExecuted
  | CandidateValidated => wire.StageValidated
  end.

#[export] Instance CandidateStage_eq_dec : EqDecision CandidateStage.
Proof. solve_decision. Defined.

Record CandidateEntry := mkCandidateEntry {
  ce_block : BlockMeta;
  ce_projection : option Projection;
  ce_stage : CandidateStage;
  ce_tracked : bool;
  ce_first_sequence : N;
  ce_incarnation : N;
  ce_expires_at : N;
}.
#[export] Instance eta_CandidateEntry : Eta CandidateEntry := λ r,
  mkCandidateEntry (ce_block r) (ce_projection r) (ce_stage r) (ce_tracked r)
    (ce_first_sequence r) (ce_incarnation r) (ce_expires_at r).

Record DeferredExecuted := mkDeferredExecuted {
  de_block : BlockMeta;
  de_changes : BlockChanges;
  de_incarnation : N;
  de_expires_at : N;
}.
#[export] Instance eta_DeferredExecuted : Eta DeferredExecuted := λ r,
  mkDeferredExecuted (de_block r) (de_changes r) (de_incarnation r) (de_expires_at r).

Inductive FinalityClassification := Compatible | Conflict | Unknown.

#[export] Instance FinalityClassification_eq_dec : EqDecision FinalityClassification.
Proof. solve_decision. Defined.

Record FinalityWalk := mkFinalityWalk {
  fw_incarnation : N;
  fw_root : B256;
  fw_current : B256;
  fw_path : list B256;
}.

Record FinalitySweep := mkFinalitySweep {
  fs_checkpoint : CheckpointMeta;
  fs_pending : list (N * B256);
  fs_classifications : gmap N FinalityClassification;
  fs_active : option FinalityWalk;
}.
#[export] Instance eta_FinalitySweep : Eta FinalitySweep := λ r,
  mkFinalitySweep (fs_checkpoint r) (fs_pending r) (fs_classifications r) (fs_active r).

Record Cache := mkCache {
  candidates : gmap N CandidateEntry;
  deferred_executed : gmap N DeferredExecuted;
  children_by_parent : gmap N (list B256);
  projection_order : list (N * B256);
  metadata_order : list (N * B256);
  tombstones : gset N;
  tombstone_order : list B256;
  next_incarnation : N;
  projection_count : N;
  cache_limit : N;
  metadata_limit : N;
  canonical_hash : B256;
  last_finalized : option CheckpointMeta;
  finality_sweep : option FinalitySweep;
}.
#[export] Instance eta_Cache : Eta Cache := λ r,
  mkCache (candidates r) (deferred_executed r) (children_by_parent r) (projection_order r)
    (metadata_order r) (tombstones r) (tombstone_order r) (next_incarnation r)
    (projection_count r) (cache_limit r) (metadata_limit r) (canonical_hash r)
    (last_finalized r) (finality_sweep r).

(** ** Lookups *)

Definition block_meta (c : Cache) (hash : B256) : option BlockMeta :=
  match candidates c !! hash with
  | Some entry => Some (ce_block entry)
  | None => de_block <$> deferred_executed c !! hash
  end.

Definition current_incarnation (c : Cache) (hash : B256) : option N :=
  match candidates c !! hash with
  | Some entry => Some (ce_incarnation entry)
  | None => de_incarnation <$> deferred_executed c !! hash
  end.

Definition metadata_len (c : Cache) : N :=
  N.of_nat (size (candidates c)) + N.of_nat (size (deferred_executed c)).

(** An entry of [projection_order] that still stands for a cached projection. *)
Definition is_current_projection (c : Cache) (entry : N * B256) : bool :=
  match candidates c !! entry.2 with
  | Some candidate =>
      (ce_incarnation candidate =? entry.1) && bool_decide (is_Some (ce_projection candidate))
  | None => false
  end.

Definition is_current (c : Cache) (entry : N * B256) : bool :=
  bool_decide (current_incarnation c entry.2 = Some entry.1).

(** ** Small updates *)

Definition add_child (parent child : B256) (c : Cache) : Cache :=
  let children := default [] (children_by_parent c !! parent) in
  c <| children_by_parent ::=
         insert parent (if decide (child ∈ children) then children else children ++ [child]) |>.

(** Instants are unbounded here; the source's [Instant + Duration] panics only beyond the clock's range. *)
Definition schedule_expiry (now retention : N) (hash : B256) (c : Cache) : Cache :=
  if hash =? canonical_hash c then c
  else match candidates c !! hash with
       | Some candidate =>
           c <| candidates ::= insert hash (candidate <| ce_expires_at := now + retention |>) |>
       | None =>
           match deferred_executed c !! hash with
           | Some deferred =>
               c <| deferred_executed ::=
                      insert hash (deferred <| de_expires_at := now + retention |>) |>
           | None => c
           end
       end.

Definition allocate_incarnation (c : Cache) : N * Cache :=
  (next_incarnation c,
   c <| next_incarnation := N.max (wrapping_add (next_incarnation c) 1) 1 |>).

(** The [while] of [insert_tombstone]; with nothing left to pop it never ends. *)
Fixpoint evict_tombstones (limit : N) (order : list B256) (set : gset N)
    : option (gset N * list B256) :=
  if N.of_nat (size set) <=? limit then Some (set, order)
  else match order with
       | [] => None
       | oldest :: order => evict_tombstones limit order (set ∖ {[oldest]})
       end.

Definition insert_tombstone (hash : B256) : M Cache Error () := λ c,
  let c := if decide (hash ∈ tombstones c) then c
           else c <| tombstones ::= union {[hash]} |> <| tombstone_order ::= λ l, l ++ [hash] |> in
  match evict_tombstones (metadata_limit c) (tombstone_order c) (tombstones c) with
  | Some (set, order) => (Ok (), c <| tombstones := set |> <| tombstone_order := order |>)
  | None => (Diverge, c)
  end.

(** The two halves of [compact_order_queues_if_needed]. *)
Definition compact_metadata (c : Cache) : Cache :=
  if saturating_mul (metadata_limit c) 2 <? len (metadata_order c)
  then c <| metadata_order ::= filter (λ e, is_current c e) |> else c.
Definition compact_projections (c : Cache) : Cache :=
  if saturating_mul (cache_limit c) 2 <? len (projection_order c)
  then c <| projection_order ::= filter (λ e, is_current_projection c e) |> else c.
Definition compact_order_queues_if_needed (c : Cache) : Cache :=
  compact_projections (compact_metadata c).

(** ** Removal *)

(** Unlinks [hash] from its parent's children. *)
Definition unlink_child (parent hash : B256) (c : Cache) : Cache :=
  match children_by_parent c !! parent with
  | Some children =>
      let children := filter (λ child, child ≠ hash) children in
      if decide (children = [])
      then c <| children_by_parent ::= delete parent |>
      else c <| children_by_parent ::= insert parent children |>
  | None => c
  end.

(** The record-dropping part of [remove_one]: whether consumers tracked the entry. *)
Definition drop_entry (hash : B256) (c : Cache) : bool * Cache :=
  let candidate := candidates c !! hash in
  let tracked := match candidate with Some e => ce_tracked e | None => false end in
  let parent := match candidate with Some e => Some (bm_parent_hash (ce_block e)) | None => None end in
  let c := match candidate with
           | Some e =>
               let c := c <| candidates ::= delete hash |> in
               if decide (is_Some (ce_projection e))
               then c <| projection_count ::= λ n, saturating_sub n 1 |> else c
           | None => c
           end in
  let deferred := deferred_executed c !! hash in
  let parent := match deferred with Some d => Some (bm_parent_hash (de_block d)) | None => parent end in
  let c := match deferred with Some _ => c <| deferred_executed ::= delete hash |> | None => c end in
  let c := match parent with Some parent => unlink_child parent hash c | None => c end in
  (tracked, c).

Definition remove_one (hash : B256) (consensus_terminal : bool) : M Cache Error bool :=
  tracked ← (λ c, let '(t, c) := drop_entry hash c in (Ok t, c)) : M Cache Error bool;
  (if consensus_terminal then insert_tombstone hash else mret ()) ;;
  modify compact_order_queues_if_needed ;;
  mret tracked.

(** The depth-first loop of [remove_candidate_tree]; the head of [pending] is the top of the
    stack. *)
Fixpoint remove_tree_loop (fuel : nat) (consensus_terminal : bool) (pending : list B256)
    : M Cache Error () :=
  match fuel with
  | O => diverge
  | S fuel =>
      match pending with
      | [] => mret ()
      | hash :: pending =>
          children ← gets (λ c, children_by_parent c !! hash);
          modify (λ c, c <| children_by_parent ::= delete hash |>) ;;
          remove_one hash consensus_terminal ;;
          remove_tree_loop fuel consensus_terminal (rev (default [] children) ++ pending)
      end
  end.

Definition children_total (c : Cache) : nat := map_total (children_by_parent c).

Definition remove_candidate_tree (root : B256) (consensus_terminal : bool) : M Cache Error () :=
  c ← gets id;
  if root =? canonical_hash c then mret ()
  else remove_tree_loop (2 + children_total c) consensus_terminal [root].

(** ** Eviction *)

(** The loop of [trim_projection_cache]; the hashes whose tracking ended, in order. *)
Fixpoint trim_projection_loop (fuel : nat) (inserted : B256) (examined : N) (retired : list B256)
    : M Cache Error (list B256) :=
  match fuel with
  | O => diverge
  | S fuel =>
      c ← gets id;
      if negb (cache_limit c <? projection_count c) then mret retired
      else match projection_order c with
      | [] => mret retired
      | (incarnation, oldest) :: rest =>
          modify (λ c, c <| projection_order := rest |>) ;;
          let examined := examined + 1 in
          if negb (is_current_projection c (incarnation, oldest))
          then trim_projection_loop fuel inserted examined retired
          else
            retired ←
              (if oldest =? canonical_hash c then
                 modify (λ c, c <| projection_order ::= λ l, l ++ [(incarnation, oldest)] |>) ;;
                 mret retired
               else match candidates c !! oldest with
               | Some candidate =>
                   modify (λ c, c
                     <| candidates ::= insert oldest
                          (candidate <| ce_projection := None |> <| ce_tracked := false |>) |>
                     <| projection_count ::= λ n, n - 1 |>) ;;
                   mret (if ce_tracked candidate then retired ++ [oldest] else retired)
               | None => mret retired
               end);
            remaining ← gets (λ c, len (projection_order c));
            if saturating_add remaining 1 <? examined then throw (CannotEvict inserted)
            else trim_projection_loop fuel inserted examined retired
      end
  end.

Definition trim_projection_fuel (c : Cache) : nat := 2 * length (projection_order c) + 4.

(** The loop of [trim_metadata]. *)
Fixpoint trim_metadata_loop (fuel : nat) (retired : list B256) : M Cache Error (list B256) :=
  match fuel with
  | O => diverge
  | S fuel =>
      c ← gets id;
      if negb (metadata_limit c <? metadata_len c) then mret retired
      else match metadata_order c with
      | [] => throw MetadataBound
      | (incarnation, hash) :: rest =>
          modify (λ c, c <| metadata_order := rest |>) ;;
          if negb (is_current c (incarnation, hash)) then trim_metadata_loop fuel retired
          else if hash =? canonical_hash c then
            modify (λ c, c <| metadata_order ::= λ l, l ++ [(incarnation, hash)] |>) ;;
            trim_metadata_loop fuel retired
          else
            tracked ← remove_one hash false;
            trim_metadata_loop fuel (if tracked : bool then retired ++ [hash] else retired)
      end
  end.

Definition trim_metadata_fuel (c : Cache) : nat := 2 * length (metadata_order c) + 2.

(** ** Finality sweep *)

Definition begin_finality_sweep (checkpoint : CheckpointMeta) (c : Cache) : Cache :=
  c <| finality_sweep := Some (mkFinalitySweep checkpoint (metadata_order c) ∅ None) |>.

Definition queue_finality_check (incarnation : N) (hash : B256) (c : Cache) : Cache :=
  let c :=
    match finality_sweep c with
    | Some sweep =>
        c <| finality_sweep := Some (sweep <| fs_pending ::= λ l, l ++ [(incarnation, hash)] |>) |>
    | None =>
        match last_finalized c with
        | Some checkpoint =>
            c <| finality_sweep := Some (mkFinalitySweep checkpoint [(incarnation, hash)] ∅ None) |>
        | None => c
        end
    end in
  match finality_sweep c with
  | Some sweep =>
      if saturating_mul (metadata_limit c) 2 <? len (fs_pending sweep)
      then c <| finality_sweep := Some (sweep <| fs_pending ::= filter (λ e, is_current c e) |>) |>
      else c
  | None => c
  end.

(** One ancestry edge: a classification, or the walk moved to the parent. *)
Definition advance_finality_walk (c : Cache) (walk : FinalityWalk) (finalized : CheckpointMeta)
    : option FinalityClassification * FinalityWalk :=
  match block_meta c (fw_current walk) with
  | None => (Some Unknown, walk)
  | Some block =>
      if bm_number block =? cp_number finalized then
        (Some (if bm_hash block =? cp_hash finalized then Compatible else Conflict), walk)
      else if bm_number block <? cp_number finalized then (Some Compatible, walk)
      else match checked_sub (bm_number block) 1 with
      | None => (Some Unknown, walk)
      | Some expected_parent_number =>
          match block_meta c (bm_parent_hash block) with
          | None =>
              (Some (if decide (bm_parent_hash block ∈ tombstones c) then Conflict else Unknown), walk)
          | Some parent =>
              if negb (bm_number parent =? expected_parent_number) then (Some Unknown, walk)
              else (None, mkFinalityWalk (fw_incarnation walk) (fw_root walk) (bm_hash parent)
                            (fw_path walk ++ [fw_current walk]))
          end
      end
  end.

(** The walk the next iteration works on: the suspended one, or one for the next pending entry
    (none when that entry is stale or canonical).  [None] when nothing is left to do. *)
Definition next_walk (c : Cache) (sweep : FinalitySweep) : option (FinalitySweep * option FinalityWalk) :=
  match fs_active sweep with
  | Some walk => Some (sweep <| fs_active := None |>, Some walk)
  | None =>
      match fs_pending sweep with
      | [] => None
      | (incarnation, hash) :: rest =>
          let sweep := sweep <| fs_pending := rest |> in
          if negb (is_current c (incarnation, hash)) || (hash =? canonical_hash c)
          then Some (sweep, None)
          else Some (sweep, Some (mkFinalityWalk incarnation hash hash []))
      end
  end.

(** One step of a walk; the root's hash when it conflicts and consumers tracked it. *)
Definition walk_step (walk : FinalityWalk) (sweep : FinalitySweep) : M Cache Error (FinalitySweep * list B256) :=
  c ← gets id;
  let '(classification, walk) :=
    match fs_classifications sweep !! fw_current walk with
    | Some classification => (Some classification, walk)
    | None => advance_finality_walk c walk (fs_checkpoint sweep)
    end in
  match classification with
  | None => mret (sweep <| fs_active := Some walk |>, [])
  | Some classification =>
      let sweep :=
        if decide (classification = Unknown) then sweep
        else sweep <| fs_classifications ::= λ m,
               foldr (λ h m, <[h := classification]> m)
                 (<[fw_current walk := classification]> m) (fw_path walk) |> in
      if bool_decide (classification = Conflict) && is_current c (fw_incarnation walk, fw_root walk)
      then
        tracked ← remove_one (fw_root walk) true;
        mret (sweep, if tracked : bool then [fw_root walk] else [])
      else mret (sweep, [])
  end.

(** The loop of [process_finality_budget]; one unit of fuel is one unit of work. *)
Fixpoint finality_loop (fuel : nat) (sweep : FinalitySweep) (work : N) (retired : list B256)
    : M Cache Error (FinalitySweep * N * list B256) :=
  match fuel with
  | O => mret (sweep, work, retired)
  | S fuel =>
      c ← gets id;
      match next_walk c sweep with
      | None => mret (sweep, work, retired)
      | Some (sweep, None) => finality_loop fuel sweep (work + 1) retired
      | Some (sweep, Some walk) =>
          '(sweep, retired_root) ← walk_step walk sweep;
          finality_loop fuel sweep (work + 1) (retired ++ retired_root)
      end
  end.

(** [process_finality_budget] up to the publication of the retired hashes. *)
Definition finality_pass (budget : N) : M Cache Error (N * list B256) :=
  c ← gets id;
  match finality_sweep c with
  | None => mret (0, [])
  | Some sweep =>
      modify (λ c, c <| finality_sweep := None |>) ;;
      '(sweep, work, retired) ← finality_loop (N.to_nat budget) sweep 0 [];
      (if bool_decide (fs_pending sweep ≠ []) || bool_decide (is_Some (fs_active sweep))
       then modify (λ c, c <| finality_sweep := Some sweep |>) else mret ()) ;;
      mret (work, retired)
  end.

(** ** Insertion *)

(** [insert_candidate] up to the cache limits. *)
Definition insert_candidate_entry (now retention : N) (projection : Projection)
    (stage : CandidateStage) (tracked : bool) (first_sequence : N) (c : Cache) : Cache :=
  let block := pj_block projection in
  let hash := bm_hash block in
  let replaced_deferred := deferred_executed c !! hash in
  let c := c <| deferred_executed ::= delete hash |> in
  let existing_incarnation :=
    match candidates c !! hash with
    | Some entry => Some (ce_incarnation entry)
    | None => de_incarnation <$> replaced_deferred
    end in
  let '(incarnation, c) :=
    match existing_incarnation with
    | Some incarnation => (incarnation, c)
    | None => allocate_incarnation c
    end in
  let expires_at := now + retention in
  let '(gained_projection, c) :=
    match candidates c !! hash with
    | Some entry =>
        (bool_decide (ce_projection entry = None),
         c <| candidates ::= insert hash (mkCandidateEntry block (Some projection) stage
                (ce_tracked entry || tracked)
                (if tracked && negb (ce_tracked entry) then first_sequence else ce_first_sequence entry)
                (ce_incarnation entry) expires_at) |>)
    | None =>
        let c := c <| candidates ::= insert hash
                   (mkCandidateEntry block (Some projection) stage tracked first_sequence
                      incarnation expires_at) |> in
        let c := if decide (replaced_deferred = None)
                 then add_child (bm_parent_hash block) hash c else c in
        let c := if decide (existing_incarnation = None)
                 then queue_finality_check incarnation hash
                        (c <| metadata_order ::= λ l, l ++ [(incarnation, hash)] |>)
                 else c in
        (true, c)
    end in
  if gained_projection
  then c <| projection_count ::= λ n, n + 1 |>
         <| projection_order ::= λ l, l ++ [(incarnation, hash)] |>
  else c.

(** [insert_deferred_executed] up to the metadata limit, for a hash that is not a candidate. *)
Definition insert_deferred_entry (now retention : N) (block : BlockMeta) (changes : BlockChanges)
    (c : Cache) : Cache :=
  let hash := bm_hash block in
  let existing_incarnation := de_incarnation <$> deferred_executed c !! hash in
  let '(incarnation, c) :=
    match existing_incarnation with
    | Some incarnation => (incarnation, c)
    | None => allocate_incarnation c
    end in
  let c := c <| deferred_executed ::= insert hash
               (mkDeferredExecuted block changes incarnation (now + retention)) |> in
  if decide (existing_incarnation = None) then
    queue_finality_check incarnation hash
      ((add_child (bm_parent_hash block) hash c)
         <| metadata_order ::= λ l, l ++ [(incarnation, hash)] |>)
  else c.

(** [reset_candidates]. *)
Definition reset_candidates (now retention : N) (projection : Projection) (view : ForkchoiceMeta)
    (c : Cache) : Cache :=
  let hash := bm_hash (pj_block projection) in
  let '(incarnation, c) := allocate_incarnation c in
  mkCache
    {[hash := mkCandidateEntry (pj_block projection) (Some projection) CandidateValidated true 0
                incarnation (now + retention)]}
    ∅ ∅ [(incarnation, hash)] [(incarnation, hash)] ∅ [] (next_incarnation c) 1
    (cache_limit c) (metadata_limit c) hash (fc_finalized view) None.

(** The cache built by [Publisher::new_configured]. *)
Definition initial_cache (now retention cache_limit metadata_limit : N) (initial : Projection)
    (view : ForkchoiceMeta) : Cache :=
  let hash := bm_hash (pj_block initial) in
  mkCache
    {[hash := mkCandidateEntry (pj_block initial) (Some initial) CandidateValidated true 0 1
                (now + retention)]}
    ∅ ∅ [(1, hash)] [(1, hash)] ∅ [] 2 1 cache_limit metadata_limit hash (fc_finalized view) None.
