(* ===== verification/CacheInv.v ===== *)
(** * The cache invariant

    What the maps, queues and counters of [Cache] have to do with one another,
    and that every operation keeps it so.  The order queues are allowed to hold
    stale entries; the invariant says that no live entry is missing from them
    and how many stale ones they can hold. *)

From S2P Require Import Prelude Bytes Config Watch Feed Wire Projection Cache.
From stdpp Require Import list.
Local Open Scope N_scope.

Definition has_projection (e : CandidateEntry) : Prop := is_Some (ce_projection e).
#[export] Instance has_projection_dec e : Decision (has_projection e).
Proof. unfold has_projection. apply _. Defined.
#[export] Typeclasses Opaque has_projection.

Definition projected (c : Cache) : gmap N CandidateEntry :=
  filter (λ entry : N * CandidateEntry, has_projection entry.2) (candidates c).

(** What a consumer following the stream is told about. *)
Definition tracked (c : Cache) (h : B256) : Prop :=
  ∃ e, candidates c !! h = Some e ∧ ce_tracked e = true.

Record cache_ok (c : Cache) : Prop := {
  ok_disjoint : ∀ h, is_Some (candidates c !! h) → deferred_executed c !! h = None;
  ok_candidate : ∀ h e, candidates c !! h = Some e →
    bm_hash (ce_block e) = h ∧ (ce_tracked e = true ↔ has_projection e) ∧
    (∀ p, ce_projection e = Some p → pj_block p = ce_block e);
  ok_deferred : ∀ h d, deferred_executed c !! h = Some d → bm_hash (de_block d) = h;
  ok_count : projection_count c = N.of_nat (size (projected c));
  ok_metadata : ∀ i h, current_incarnation c h = Some i → (i, h) ∈ metadata_order c;
  ok_metadata_nodup : NoDup (metadata_order c);
  ok_projection : ∀ i h, current_incarnation c h = Some i →
    ((i, h) ∈ projection_order c ↔ is_current_projection c (i, h) = true);
  ok_projection_nodup : NoDup (projection_order c);
  ok_metadata_allocated : ∀ i h, (i, h) ∈ metadata_order c → i < next_incarnation c;
  ok_projection_allocated : ∀ i h, (i, h) ∈ projection_order c → i < next_incarnation c;
  ok_tombstones : ∀ h, h ∈ tombstones c ↔ h ∈ tombstone_order c;
  ok_tombstones_nodup : NoDup (tombstone_order c);
}.

(** How many stale entries the queues can hold, and how many hashes the tombstones. *)
Record queues_bounded (c : Cache) : Prop := {
  qb_metadata : len (metadata_order c) ≤ saturating_mul (metadata_limit c) 2 + metadata_len c;
  qb_projection : len (projection_order c) ≤ saturating_mul (cache_limit c) 2 + projection_count c;
  qb_tombstones : N.of_nat (size (tombstones c)) ≤ metadata_limit c;
}.

(** ** The limits are settings

    No method changes them. *)

Definition same_limits (c c' : Cache) : Prop :=
  cache_limit c' = cache_limit c ∧ metadata_limit c' = metadata_limit c.

#[export] Instance same_limits_preorder : PreOrder same_limits.
Proof. split; [done|]. intros c1 c2 c3 [? ?] [? ?]. split; congruence. Qed.

Create HintDb limits discriminated.
#[export] Hint Constants Opaque : limits.
#[export] Hint Resolve along_ret along_throw along_diverge along_gets along_lift same_limits_preorder : limits.

Ltac solve_limits :=
  intros; cbv beta zeta;
  lazymatch goal with
  | |- Along same_limits (mbind _ _) => apply (along_bind _); solve_limits
  | |- Along same_limits (modify _) => apply along_modify; solve [done|auto with limits nocore]
  | |- Along same_limits (match ?x with _ => _ end) => destruct x; solve_limits
  | |- Along same_limits _ => solve [eauto with limits nocore]
  end.

Lemma unlink_child_limits parent h c : same_limits c (unlink_child parent h c).
Proof. unfold unlink_child. by repeat case_match. Qed.
Lemma schedule_expiry_limits t r h c : same_limits c (schedule_expiry t r h c).
Proof. unfold schedule_expiry. by repeat case_match. Qed.
Lemma compact_limits c : same_limits c (compact_order_queues_if_needed c).
Proof. unfold compact_order_queues_if_needed, compact_projections, compact_metadata. by repeat case_match. Qed.
Lemma queue_finality_limits i h c : same_limits c (queue_finality_check i h c).
Proof. unfold queue_finality_check. by repeat (case_match; simplify_eq/=). Qed.

Lemma insert_candidate_limits t r pj stage tracked first c :
  same_limits c (insert_candidate_entry t r pj stage tracked first c).
Proof.
  unfold insert_candidate_entry, allocate_incarnation, add_child. cbv zeta.
  change (candidates (c <| deferred_executed ::= _ |>)) with (candidates c).
  destruct (candidates c !! _) as [e|] eqn:E.
  { change (candidates (c <| deferred_executed ::= _ |>)) with (candidates c). rewrite E. by case_match. }
  destruct (deferred_executed c !! _) as [d|]; cbn [fmap option_fmap option_map].
  - change (candidates (c <| deferred_executed ::= _ |>)) with (candidates c). rewrite E.
    rewrite !decide_False by done. done.
  - match goal with |- context [candidates ?x !! _] => change (candidates x) with (candidates c) end. rewrite E.
    rewrite !decide_True by done. split; (etrans; [apply queue_finality_limits|done]).
Qed.
Lemma insert_deferred_limits t r block changes c : same_limits c (insert_deferred_entry t r block changes c).
Proof.
  unfold insert_deferred_entry, allocate_incarnation. cbv zeta.
  destruct (deferred_executed c !! _) as [d|]; cbn [fmap option_fmap option_map]; [by rewrite decide_False|].
  rewrite decide_True by done. split; (etrans; [apply queue_finality_limits|done]).
Qed.
Lemma reset_limits t r pj view c : same_limits c (reset_candidates t r pj view c).
Proof. done. Qed.
#[export] Hint Resolve schedule_expiry_limits compact_limits queue_finality_limits insert_candidate_limits
  insert_deferred_limits reset_limits : limits.

Lemma drop_entry_limits h : Along same_limits ((λ c, let '(t, c) := drop_entry h c in (Ok t, c)) : M Cache Error bool).
Proof.
  intros c. unfold drop_entry, unlink_child. simpl. by repeat (case_match; simplify_eq/=).
Qed.
Lemma tombstone_limits h : Along same_limits (insert_tombstone h).
Proof. intros c. unfold insert_tombstone. by repeat (case_match; simplify_eq/=). Qed.
#[export] Hint Resolve drop_entry_limits tombstone_limits : limits.

Lemma remove_one_limits h b : Along same_limits (remove_one h b).
Proof. unfold remove_one. solve_limits. Qed.
#[export] Hint Resolve remove_one_limits : limits.
Lemma remove_tree_limits fuel b pending : Along same_limits (remove_tree_loop fuel b pending).
Proof. revert pending. induction fuel as [|fuel IH]; intros; cbn [remove_tree_loop]; solve_limits. Qed.
#[export] Hint Resolve remove_tree_limits : limits.
Lemma remove_candidate_tree_limits root b : Along same_limits (remove_candidate_tree root b).
Proof. unfold remove_candidate_tree. solve_limits. Qed.
Lemma trim_projection_limits fuel h n l : Along same_limits (trim_projection_loop fuel h n l).
Proof. revert n l. induction fuel as [|fuel IH]; intros; cbn [trim_projection_loop]; solve_limits. Qed.
Lemma trim_metadata_limits fuel l : Along same_limits (trim_metadata_loop fuel l).
Proof. revert l. induction fuel as [|fuel IH]; intros; cbn [trim_metadata_loop]; solve_limits. Qed.
Lemma walk_step_limits walk sweep : Along same_limits (walk_step walk sweep).
Proof. unfold walk_step. solve_limits. Qed.
#[export] Hint Resolve walk_step_limits : limits.
Lemma finality_loop_limits fuel sweep work l : Along same_limits (finality_loop fuel sweep work l).
Proof. revert sweep work l. induction fuel as [|fuel IH]; intros; cbn [finality_loop]; solve_limits. Qed.
#[export] Hint Resolve finality_loop_limits : limits.
Lemma finality_pass_limits budget : Along same_limits (finality_pass budget).
Proof. unfold finality_pass. solve_limits. Qed.
#[export] Hint Resolve remove_candidate_tree_limits trim_projection_limits trim_metadata_limits finality_pass_limits : limits.

(** The hashes that have a candidate or a deferred execution. *)
Definition live (c : Cache) : gset N := dom (candidates c) ∪ dom (deferred_executed c).

Lemma elem_of_live c h : h ∈ live c ↔ is_Some (current_incarnation c h).
Proof.
  unfold live, current_incarnation. rewrite elem_of_union, !elem_of_dom.
  destruct (candidates c !! h); [naive_solver|]. rewrite fmap_is_Some.
  split; [intros [[? [=]]|?]; done|auto].
Qed.

Lemma is_current_iff c i h : is_current c (i, h) = true ↔ current_incarnation c h = Some i.
Proof. unfold is_current. by rewrite bool_decide_eq_true. Qed.

Lemma is_current_projection_iff c i h :
  is_current_projection c (i, h) = true ↔
  ∃ e, candidates c !! h = Some e ∧ ce_incarnation e = i ∧ has_projection e.
Proof.
  unfold is_current_projection. simpl. destruct (candidates c !! h) as [e|]; [|naive_solver].
  rewrite andb_true_iff, N.eqb_eq, bool_decide_eq_true. naive_solver.
Qed.

Lemma is_current_projection_current c i h :
  is_current_projection c (i, h) = true → current_incarnation c h = Some i.
Proof.
  rewrite is_current_projection_iff. intros (e & He & <- & _).
  unfold current_incarnation. by rewrite He.
Qed.

Lemma metadata_len_live c : cache_ok c → metadata_len c = N.of_nat (size (live c)).
Proof.
  intros Hok. unfold metadata_len, live. rewrite size_union, !size_dom; [lia|].
  intros h. rewrite !elem_of_dom. intros Hc [d Hd]. rewrite (ok_disjoint _ Hok) in Hd by done. done.
Qed.

(** A duplicate-free list of (incarnation, hash) pairs in which a hash determines its incarnation
    is as long as its set of hashes. *)
Lemma length_pairs_size (l : list (N * B256)) (f : B256 → option N) (s : gset N) :
  NoDup l → (∀ i h, (i, h) ∈ l → f h = Some i) → (∀ h, h ∈ s ↔ ∃ i, (i, h) ∈ l) →
  length l = size s.
Proof.
  intros Hnd Hf Hs. rewrite <- (length_fmap snd l).
  rewrite <- (size_list_to_set (C := gset N) l.*2).
  - f_equal. apply set_eq. intros h. rewrite elem_of_list_to_set, Hs, list_elem_of_fmap. split.
    + intros ([i h'] & -> & Hin). eauto.
    + intros [i Hin]. by exists (i, h).
  - apply NoDup_fmap_2_strong; [|done]. intros [i h] [j h'] Hi Hj. simpl. intros ->.
    apply Hf in Hi, Hj. by simplify_eq.
Qed.

Lemma current_metadata_length c :
  cache_ok c → len (filter (λ e, is_current c e) (metadata_order c)) = metadata_len c.
Proof.
  intros Hok. rewrite metadata_len_live by done. unfold len. f_equal.
  apply (length_pairs_size _ (current_incarnation c)).
  - apply NoDup_filter, Hok.
  - intros i h [Hc _]%list_elem_of_filter. by apply is_current_iff, Is_true_true.
  - intros h. rewrite elem_of_live. split.
    + intros [i Hi]. exists i. apply list_elem_of_filter. split; [|by apply Hok].
      by apply Is_true_true, is_current_iff.
    + intros [i [Hc _]%list_elem_of_filter]. exists i. by apply is_current_iff, Is_true_true.
Qed.

Lemma projected_lookup c h e :
  projected c !! h = Some e ↔ candidates c !! h = Some e ∧ has_projection e.
Proof. unfold projected. by rewrite map_lookup_filter_Some. Qed.

Lemma current_projection_length c :
  cache_ok c → len (filter (λ e, is_current_projection c e) (projection_order c)) = projection_count c.
Proof.
  intros Hok. rewrite (ok_count _ Hok). unfold len. f_equal. rewrite <- size_dom.
  apply (length_pairs_size _ (current_incarnation c)).
  - apply NoDup_filter, Hok.
  - intros i h [Hc%Is_true_true _]%list_elem_of_filter. by apply is_current_projection_current.
  - intros h. rewrite elem_of_dom. split.
    + intros [e [He Hp]%projected_lookup]. exists (ce_incarnation e).
      assert (is_current_projection c (ce_incarnation e, h) = true) as Hc
        by (apply is_current_projection_iff; eauto).
      apply list_elem_of_filter. split; [by apply Is_true_true|].
      apply (ok_projection _ Hok); [by apply is_current_projection_current|done].
    + intros [i [Hc%Is_true_true _]%list_elem_of_filter].
      apply is_current_projection_iff in Hc as (e & He & _ & Hp). exists e. by apply projected_lookup.
Qed.

Lemma metadata_order_nonempty c :
  cache_ok c → 0 < metadata_len c → metadata_order c ≠ [].
Proof.
  intros Hok Hpos He. rewrite <- current_metadata_length, He in Hpos by done. simpl in Hpos. 
  unfold len in Hpos. simpl in Hpos. lia.
Qed.

Lemma projection_count_order c :
  cache_ok c → projection_count c ≤ len (projection_order c).
Proof.
  intros Hok. rewrite <- current_projection_length by done. unfold len.
  pose proof (length_filter (λ e, is_current_projection c e) (projection_order c)). lia.
Qed.

(** ** Losing entries *)

(** From [c] to [c'] entries and projections are only lost, and [retired] names exactly the hashes
    consumers stop tracking. *)
Record shrinks (retired : list B256) (c c' : Cache) : Prop := {
  sk_fixed : next_incarnation c' = next_incarnation c ∧ cache_limit c' = cache_limit c ∧
    metadata_limit c' = metadata_limit c ∧ canonical_hash c' = canonical_hash c ∧
    last_finalized c' = last_finalized c;
  sk_tracked : ∀ h, tracked c' h → tracked c h;
  sk_retired : ∀ h, h ∈ retired ↔ tracked c h ∧ ~ tracked c' h;
  sk_nodup : NoDup retired;
  sk_candidate : ∀ h e', candidates c' !! h = Some e' → ∃ e, candidates c !! h = Some e ∧
    ce_block e' = ce_block e ∧ ce_stage e' = ce_stage e ∧ ce_incarnation e' = ce_incarnation e ∧
    (ce_projection e' = ce_projection e ∨ ce_projection e' = None);
  sk_deferred : ∀ h d, deferred_executed c' !! h = Some d → deferred_executed c !! h = Some d;
}.

Lemma shrinks_refl c : shrinks [] c c.
Proof.
  split; [done|done| |constructor| |done].
  - intros h. split; [by intros ?%elem_of_nil|naive_solver].
  - intros h e He. exists e. split_and!; auto.
Qed.

Lemma shrinks_trans r r' c c1 c2 : shrinks r c c1 → shrinks r' c1 c2 → shrinks (r ++ r') c c2.
Proof.
  intros [(?&?&?&?&?) Ht Hr Hn Hc Hd] [(?&?&?&?&?) Ht' Hr' Hn' Hc' Hd']. split.
  - split_and!; congruence.
  - auto.
  - intros h. rewrite elem_of_app, Hr, Hr'. split.
    + intros [[? ?]|[? ?]]; split; auto.
    + intros [Hyes Hno]. destruct (decide (h ∈ r)) as [Hin|Hnin]; [left; by apply Hr|].
      right. split; [|done]. destruct (decide (h ∈ r')) as [Hin'|Hnin']; [by apply Hr'|].
      unfold tracked in *. destruct (candidates c1 !! h) as [e|] eqn:E.
      * destruct (ce_tracked e) eqn:Et; [eauto|]. exfalso. apply Hnin, Hr. naive_solver.
      * exfalso. apply Hnin, Hr. naive_solver.
  - apply NoDup_app. split_and!; [done| |done]. intros h [_ Hx]%Hr [Hy _]%Hr'. done.
  - intros h e2 He2. destruct (Hc' _ _ He2) as (e1 & He1 & ? & ? & ? & Hp1).
    destruct (Hc _ _ He1) as (e & He & ? & ? & ? & Hp). exists e. split_and!; [done|congruence..|].
    destruct Hp1 as [->| ->]; [|auto]. destruct Hp as [->| ->]; auto.
  - auto.
Qed.

Lemma shrinks_block_meta r c c' h b :
  cache_ok c → shrinks r c c' → block_meta c' h = Some b → block_meta c h = Some b.
Proof.
  intros Hok Hs. unfold block_meta. destruct (candidates c' !! h) as [e'|] eqn:E'.
  - destruct (sk_candidate _ _ _ Hs _ _ E') as (e & -> & <- & _). done.
  - destruct (deferred_executed c' !! h) as [d|] eqn:Ed; [|done]. simpl. intros [= <-].
    apply (sk_deferred _ _ _ Hs) in Ed as Ed0. destruct (candidates c !! h) as [e|] eqn:E.
    + by rewrite (ok_disjoint _ Hok) in Ed0.
    + by rewrite Ed0.
Qed.

(** The cache without the records of [h]. *)
Definition without (h : B256) (c : Cache) : Cache :=
  c <| candidates ::= delete h |> <| deferred_executed ::= delete h |>
    <| projection_count ::= λ n, n - (if decide (is_Some (projected c !! h)) then 1 else 0) |>.

Definition is_tracked (c : Cache) (h : B256) : bool :=
  match candidates c !! h with Some e => ce_tracked e | None => false end.

Lemma is_tracked_iff c h : is_tracked c h = true ↔ tracked c h.
Proof. unfold is_tracked, tracked. destruct (candidates c !! h); naive_solver. Qed.

Lemma unlink_child_spec parent h c :
  ∃ ch, unlink_child parent h c = c <| children_by_parent := ch |>.
Proof.
  unfold unlink_child. destruct (children_by_parent c !! parent); [case_decide|]; simpl;
    [by eexists..|]. exists (children_by_parent c). by destruct c.
Qed.

Lemma projected_Some c h :
  is_Some (projected c !! h) ↔ ∃ e, candidates c !! h = Some e ∧ has_projection e.
Proof. split; intros [e He]; exists e; by apply projected_lookup. Qed.

Lemma without_deferred h c :
  candidates c !! h = None → without h c = c <| deferred_executed ::= delete h |>.
Proof.
  intros E. unfold without. rewrite decide_False by (rewrite projected_Some; naive_solver).
  destruct c; simpl in *. by rewrite delete_id, N.sub_0_r.
Qed.

Lemma without_candidate h c e :
  candidates c !! h = Some e → deferred_executed c !! h = None →
  without h c =
    (if decide (is_Some (ce_projection e))
     then c <| candidates ::= delete h |> <| projection_count ::= λ n, saturating_sub n 1 |>
     else c <| candidates ::= delete h |>).
Proof.
  intros E Hd. unfold without, saturating_sub.
  destruct c as [ca de ? ? ? ? ? ? cnt ? ? ? ? ?]. simpl in *. rewrite (delete_id de) by done.
  case_decide as D'; case_decide as D; rewrite projected_Some in D'; simpl in *.
  - done.
  - destruct D. destruct D' as (e' & ? & ?). by simplify_eq.
  - destruct D'. eauto.
  - by rewrite N.sub_0_r.
Qed.

(** [drop_entry] is [without], up to the children index. *)
Lemma drop_entry_spec h c :
  (is_Some (candidates c !! h) → deferred_executed c !! h = None) →
  ∃ ch, drop_entry h c = (is_tracked c h, (without h c) <| children_by_parent := ch |>).
Proof.
  intros Hdis. unfold drop_entry, is_tracked.
  destruct (candidates c !! h) as [e|] eqn:E; cbv zeta.
  - assert (Hd : deferred_executed c !! h = None) by eauto.
    rewrite <- (without_candidate h c e E Hd).
    assert (deferred_executed (without h c) !! h = None) as -> by (simpl; by rewrite lookup_delete_eq).
    destruct (unlink_child_spec (bm_parent_hash (ce_block e)) h (without h c)) as [ch Hch].
    exists ch. by rewrite Hch.
  - rewrite (without_deferred h c E).
    destruct (deferred_executed c !! h) as [d|] eqn:Ed.
    + destruct (unlink_child_spec (bm_parent_hash (de_block d)) h (c <| deferred_executed ::= delete h |>))
        as [ch Hch]. exists ch. by rewrite Hch.
    + exists (children_by_parent c). destruct c; simpl in *. by rewrite delete_id.
Qed.

Lemma without_candidates h c h' e :
  candidates (without h c) !! h' = Some e ↔ candidates c !! h' = Some e ∧ h' ≠ h.
Proof. unfold without. simpl. rewrite lookup_delete_Some. naive_solver. Qed.

Lemma without_deferreds h c h' d :
  deferred_executed (without h c) !! h' = Some d ↔ deferred_executed c !! h' = Some d ∧ h' ≠ h.
Proof. unfold without. simpl. rewrite lookup_delete_Some. naive_solver. Qed.

Lemma without_current h c h' :
  current_incarnation (without h c) h' = if decide (h' = h) then None else current_incarnation c h'.
Proof.
  unfold current_incarnation, without. simpl. case_decide; subst.
  - by rewrite !lookup_delete_eq.
  - by rewrite !lookup_delete_ne.
Qed.

Lemma without_projection h c i h' :
  is_current_projection (without h c) (i, h') = bool_decide (h' ≠ h) && is_current_projection c (i, h').
Proof.
  unfold is_current_projection, without. simpl. case_bool_decide; simpl.
  - by rewrite lookup_delete_ne.
  - by assert (h' = h) as -> by (by destruct (decide (h' = h))); rewrite lookup_delete_eq.
Qed.

Lemma projected_without h c : projected (without h c) = delete h (projected c).
Proof. unfold projected, without. simpl. by rewrite map_filter_delete. Qed.

Lemma without_ok h c : cache_ok c → cache_ok (without h c).
Proof.
  intros Hok. split; try (intros; by apply Hok).
  - intros h' [e [He Hne]%without_candidates]. simpl. rewrite lookup_delete_ne by done. apply Hok. eauto.
  - intros h' e [He _]%without_candidates. by apply Hok.
  - intros h' d [Hd _]%without_deferreds. by apply Hok.
  - rewrite projected_without. simpl. rewrite (ok_count _ Hok). case_decide as D.
    + destruct D as [e D]. rewrite map_size_delete, D. lia.
    + rewrite delete_id; [lia|]. by apply eq_None_not_Some.
  - intros i h'. rewrite without_current. case_decide; [done|]. apply (ok_metadata _ Hok).
  - intros i h'. rewrite without_current, without_projection. case_decide; [done|].
    rewrite bool_decide_eq_true_2 by done. apply (ok_projection _ Hok).
  - apply (ok_metadata_allocated _ Hok).
  - apply (ok_projection_allocated _ Hok).
Qed.

Lemma cache_ok_children ch c : cache_ok c → cache_ok (c <| children_by_parent := ch |>).
Proof. by intros []; split. Qed.

Lemma tracked_without h c h' : tracked (without h c) h' ↔ tracked c h' ∧ h' ≠ h.
Proof.
  unfold tracked, without. simpl. destruct (decide (h' = h)) as [->|].
  - rewrite lookup_delete_eq. naive_solver.
  - rewrite lookup_delete_ne by done. naive_solver.
Qed.

Lemma without_shrinks h c : shrinks (if is_tracked c h then [h] else []) c (without h c).
Proof.
  split.
  - done.
  - intros h' [? _]%tracked_without. done.
  - intros h'. rewrite tracked_without. destruct (is_tracked c h) eqn:E.
    + apply is_tracked_iff in E. rewrite list_elem_of_singleton.
      destruct (decide (h' = h)) as [->|]; naive_solver.
    + split; [by intros ?%elem_of_nil|]. intros [Ht Hn].
      assert (h' = h) as -> by (destruct (decide (h' = h)); naive_solver).
      apply is_tracked_iff in Ht. congruence.
  - destruct (is_tracked c h); [apply NoDup_singleton|constructor].
  - intros h' e [He _]%without_candidates. exists e. split_and!; auto.
  - intros h' d [Hd _]%without_deferreds. done.
Qed.

(** [shrinks] does not look at the index, the queues or the tombstones. *)
Lemma shrinks_core r c c1 c2 :
  shrinks r c c1 →
  candidates c2 = candidates c1 → deferred_executed c2 = deferred_executed c1 →
  next_incarnation c2 = next_incarnation c1 → cache_limit c2 = cache_limit c1 →
  metadata_limit c2 = metadata_limit c1 → canonical_hash c2 = canonical_hash c1 →
  last_finalized c2 = last_finalized c1 →
  shrinks r c c2.
Proof.
  intros [(?&?&?&?&?) Ht Hr Hn Hc Hd] E1 E2 E3 E4 E5 E6 E7.
  assert (∀ h, tracked c2 h ↔ tracked c1 h) as Heq by (intros h; unfold tracked; by rewrite E1).
  split; try done.
  - split_and!; congruence.
  - intros h. rewrite Heq. apply Ht.
  - intros h. rewrite Heq. apply Hr.
  - rewrite E1. apply Hc.
  - rewrite E2. apply Hd.
Qed.

(** ** Compaction *)

Lemma compact_metadata_spec c :
  cache_ok c → ∃ order, compact_metadata c = c <| metadata_order := order |> ∧
    cache_ok (c <| metadata_order := order |>) ∧
    len order ≤ saturating_mul (metadata_limit c) 2 + metadata_len c ∧
    (length order ≤ length (metadata_order c))%nat.
Proof.
  intros Hok. unfold compact_metadata.
  destruct (N.ltb_spec (saturating_mul (metadata_limit c) 2) (len (metadata_order c))).
  - eexists. split; [done|]. rewrite current_metadata_length by done.
    split_and!; [|lia|apply length_filter]. destruct Hok. split; try done; simpl.
    + intros i h Hc. apply list_elem_of_filter. split; [by apply Is_true_true, is_current_iff|auto].
    + by apply NoDup_filter.
    + intros i h [_ ?]%list_elem_of_filter. eauto.
  - exists (metadata_order c). split_and!; [by destruct c|by destruct Hok|lia|lia].
Qed.

Lemma compact_projections_spec c :
  cache_ok c → ∃ order, compact_projections c = c <| projection_order := order |> ∧
    cache_ok (c <| projection_order := order |>) ∧
    len order ≤ saturating_mul (cache_limit c) 2 + projection_count c.
Proof.
  intros Hok. unfold compact_projections.
  destruct (N.ltb_spec (saturating_mul (cache_limit c) 2) (len (projection_order c))).
  - eexists. split; [done|]. rewrite current_projection_length by done.
    split_and!; [|lia]. destruct Hok. split; try done; simpl.
    + intros i h Hc. change (is_current_projection _ (i, h)) with (is_current_projection c (i, h)).
      rewrite list_elem_of_filter, Is_true_true, ok_projection0 by done. naive_solver.
    + by apply NoDup_filter.
    + intros i h [_ ?]%list_elem_of_filter. eauto.
  - exists (projection_order c). split_and!; [by destruct c|by destruct Hok|lia].
Qed.

(** Compaction only replaces the two queues. *)
Lemma compact_spec c :
  cache_ok c → N.of_nat (size (tombstones c)) ≤ metadata_limit c →
  ∃ mo po, compact_order_queues_if_needed c = c <| metadata_order := mo |> <| projection_order := po |> ∧
    cache_ok (c <| metadata_order := mo |> <| projection_order := po |>) ∧
    queues_bounded (c <| metadata_order := mo |> <| projection_order := po |>) ∧
    (length mo ≤ length (metadata_order c))%nat.
Proof.
  intros Hok Ht. unfold compact_order_queues_if_needed.
  destruct (compact_metadata_spec c Hok) as (mo & -> & Hok1 & Hm & Hl).
  destruct (compact_projections_spec _ Hok1) as (po & -> & Hok2 & Hp).
  exists mo, po. by split_and!.
Qed.

(** ** Tombstones *)

Lemma evict_tombstones_spec limit order : ∀ set,
  NoDup order → (∀ h, h ∈ set ↔ h ∈ order) →
  ∃ set' order', evict_tombstones limit order set = Some (set', order') ∧
    NoDup order' ∧ (∀ h, h ∈ set' ↔ h ∈ order') ∧ N.of_nat (size set') ≤ limit.
Proof.
  induction order as [|oldest order IH]; intros set Hnd Hs; simpl;
    destruct (N.leb_spec (N.of_nat (size set)) limit); eauto 10.
  - assert (set = ∅) as -> by (apply set_eq; set_solver). rewrite size_empty in *. lia.
  - apply NoDup_cons in Hnd as [Hn Hnd]. apply IH; [done|]. intros h. rewrite elem_of_difference, Hs.
    set_solver.
Qed.

Lemma insert_tombstone_wp hash c :
  cache_ok c →
  wp (insert_tombstone hash) (returns (λ _ c', ∃ set order,
    c' = c <| tombstones := set |> <| tombstone_order := order |> ∧
    cache_ok c' ∧ N.of_nat (size set) ≤ metadata_limit c) (λ _, False)) c.
Proof.
  intros Hok. unfold wp, insert_tombstone.
  set (c1 := if decide (hash ∈ tombstones c) then c else _).
  assert (Hc1 : metadata_limit c1 = metadata_limit c ∧ NoDup (tombstone_order c1) ∧
    (∀ h, h ∈ tombstones c1 ↔ h ∈ tombstone_order c1) ∧
    ∀ set order, c1 <| tombstones := set |> <| tombstone_order := order |> =
                 c <| tombstones := set |> <| tombstone_order := order |>).
  { unfold c1. case_decide as D; split_and!; try done; try apply Hok; simpl.
    - apply NoDup_app. split_and!; [apply Hok| |apply NoDup_singleton].
      intros x Hx ->%list_elem_of_singleton. by apply D, Hok.
    - intros h. rewrite elem_of_union, elem_of_app, (ok_tombstones _ Hok). set_solver. }
  clearbody c1. destruct Hc1 as (Hl & Hnd & Hs & Hup). cbv zeta.
  destruct (evict_tombstones_spec (metadata_limit c1) (tombstone_order c1) (tombstones c1) Hnd Hs)
    as (set & order & -> & Hnd' & Hs' & Hsz). cbn [returns fst snd]. exists set, order.
  rewrite Hup. split_and!; [done| |congruence]. destruct Hok. by split.
Qed.

(** ** Removing one hash *)

Definition removed (h : B256) (c c' : Cache) : Prop :=
  candidates c' = delete h (candidates c) ∧ deferred_executed c' = delete h (deferred_executed c) ∧
  children_by_parent c' = children_by_parent (drop_entry h c).2 ∧
  (length (metadata_order c') ≤ length (metadata_order c))%nat.

(** The invariant may fail for [h] itself, whose records go away. *)
Lemma remove_one_wp h terminal c :
  (is_Some (candidates c !! h) → deferred_executed c !! h = None) →
  cache_ok (without h c) → N.of_nat (size (tombstones c)) ≤ metadata_limit c →
  wp (remove_one h terminal) (returns (λ t c',
      cache_ok c' ∧ queues_bounded c' ∧ t = is_tracked c h ∧
      shrinks (if t then [h] else []) c c' ∧ removed h c c') (λ _, False)) c.
Proof.
  intros Hdis Hok Ht. unfold remove_one. apply wp_bind.
  destruct (drop_entry_spec h c Hdis) as [ch Hd]. unfold wp at 1. rewrite Hd. cbn [fst snd].
  set (c1 := (without h c) <| children_by_parent := ch |>).
  assert (Hok1 : cache_ok c1) by by apply cache_ok_children.
  eapply (wp_call _ _ (λ _ c2, cache_ok c2 ∧ N.of_nat (size (tombstones c2)) ≤ metadata_limit c2 ∧
    ∃ set order, c2 = c1 <| tombstones := set |> <| tombstone_order := order |>) (λ _, False)); [|  |done].
  - destruct terminal.
    + eapply wp_total_mono; [by apply insert_tombstone_wp| |done].
      intros _ c2 (set & order & -> & Hok2 & Hsz). split_and!; eauto.
    + apply wp_ret. simpl. split_and!; [done..|]. exists (tombstones c1), (tombstone_order c1). done.
  - intros _ c2 (Hok2 & Hsz & set & order & ->). wp_steps.
    destruct (compact_spec _ Hok2 Hsz) as (mo & po & -> & Hok3 & Hq & Hl).
    split_and!; [done..| |].
    + by eapply shrinks_core; [apply without_shrinks|..].
    + unfold removed. rewrite Hd. by split_and!.
Qed.

(** ** Removing a subtree *)

Definition kids (c : Cache) (p : B256) : list B256 := default [] (children_by_parent c !! p).

(** The index lists a hash only under the parent its block names. *)
Definition index_sound (c : Cache) : Prop :=
  ∀ p h, h ∈ kids c p → bm_parent_hash <$> block_meta c h = Some p.

Definition below (c : Cache) : B256 → B256 → Prop := rtc (λ p h, h ∈ kids c p).

Lemma kids_unlink parent h c p h' :
  h' ∈ kids (unlink_child parent h c) p ↔ h' ∈ kids c p ∧ (p = parent → h' ≠ h).
Proof.
  unfold unlink_child, kids. destruct (children_by_parent c !! parent) as [l|] eqn:E; simpl.
  - case_decide as D; simpl; (destruct (decide (p = parent)) as [->|]; simplify_map_eq; [|naive_solver]).
    + split; [set_solver|]. intros [Hl Hne]. exfalso. apply (not_elem_of_nil h').
      rewrite <- D. apply list_elem_of_filter. auto.
    + rewrite list_elem_of_filter. naive_solver.
  - destruct (decide (p = parent)) as [->|]; [|naive_solver]. rewrite E. simpl. set_solver.
Qed.

Lemma unlink_total parent h c : (children_total (unlink_child parent h c) ≤ children_total c)%nat.
Proof.
  unfold unlink_child, children_total. destruct (children_by_parent c !! parent) as [l|] eqn:E; [|done].
  rewrite (map_total_delete (children_by_parent c) parent), E. case_decide; simpl; [lia|].
  rewrite map_total_insert. pose proof (length_filter (λ child, child ≠ h) l). lia.
Qed.

(** What [drop_entry] does to the index: the entry is unlinked from the parent it names. *)
Lemma drop_entry_index h c :
  cache_ok c →
  children_by_parent (drop_entry h c).2 =
    match bm_parent_hash <$> block_meta c h with
    | Some parent => children_by_parent (unlink_child parent h c)
    | None => children_by_parent c
    end.
Proof.
  intros Hok. unfold drop_entry, block_meta.
  assert (∀ c1 c2 parent, children_by_parent c1 = children_by_parent c2 →
    children_by_parent (unlink_child parent h c1) = children_by_parent (unlink_child parent h c2)) as Hu.
  { intros c1 c2 parent E. unfold unlink_child. rewrite E. destruct (_ !! parent); [case_decide|];
      simpl; by rewrite ?E. }
  destruct (candidates c !! h) as [e|] eqn:E; cbv zeta.
  - assert (deferred_executed c !! h = None) as Hd by (apply Hok; eauto).
    rewrite <- (without_candidate h c e E Hd).
    assert (deferred_executed (without h c) !! h = None) as -> by (simpl; by rewrite lookup_delete_eq).
    by apply Hu.
  - destruct (deferred_executed c !! h) as [d|] eqn:Ed; simpl; [by apply Hu|done].
Qed.

Lemma drop_entry_total h c :
  cache_ok c → (map_total (children_by_parent (drop_entry h c).2) ≤ children_total c)%nat.
Proof.
  intros Hok. rewrite drop_entry_index by done. destruct (_ <$> _); [apply unlink_total|done].
Qed.

Lemma kids_ext c c' p : children_by_parent c' = children_by_parent c → kids c' p = kids c p.
Proof. unfold kids. by intros ->. Qed.

Lemma drop_entry_kids h c p h' :
  cache_ok c → index_sound c →
  h' ∈ kids (drop_entry h c).2 p ↔ h' ∈ kids c p ∧ h' ≠ h.
Proof.
  intros Hok Hs. unfold kids at 1. rewrite drop_entry_index by done.
  destruct (bm_parent_hash <$> block_meta c h) as [parent|] eqn:E.
  - change (default [] _) with (kids (unlink_child parent h c) p). rewrite kids_unlink.
    split; intros [Hk Hne]; (split; [done|]); [|done]. intros ->. apply Hs in Hk as Hk'.
    rewrite E in Hk'. simplify_eq. by apply Hne.
  - change (default [] _) with (kids c p). split; [|naive_solver]. intros Hk. split; [done|].
    intros ->. apply Hs in Hk. congruence.
Qed.

Record pruning (c0 : Cache) (root : B256) (gone : gset N) (pending : list B256) (c : Cache) : Prop := {
  pr_ok : cache_ok c;
  pr_bounded : queues_bounded c;
  pr_shrinks : ∃ r, shrinks r c0 c;
  pr_candidates : ∀ h, candidates c !! h = if decide (h ∈ gone) then None else candidates c0 !! h;
  pr_deferred : ∀ h, deferred_executed c !! h = if decide (h ∈ gone) then None else deferred_executed c0 !! h;
  pr_kids : ∀ p h, h ∈ kids c p ↔ h ∈ kids c0 p ∧ p ∉ gone ∧ h ∉ gone;
  pr_pending : ∀ p h, p ∈ gone → h ∈ kids c0 p → h ∈ gone ∨ h ∈ pending;
  pr_below : ∀ h, h ∈ gone ∨ h ∈ pending → below c0 root h;
  pr_root : root ∈ gone ∨ root ∈ pending;
}.

Lemma pruning_meta c0 root gone pending c h :
  pruning c0 root gone pending c →
  block_meta c h = if decide (h ∈ gone) then None else block_meta c0 h.
Proof.
  intros Hp. unfold block_meta. rewrite (pr_candidates _ _ _ _ _ Hp), (pr_deferred _ _ _ _ _ Hp).
  by case_decide.
Qed.

Lemma pruning_sound c0 root gone pending c :
  index_sound c0 → pruning c0 root gone pending c → index_sound c.
Proof.
  intros Hs Hp p h (Hk & _ & Hg)%(pr_kids _ _ _ _ _ Hp).
  rewrite (pruning_meta _ _ _ _ _ _ Hp), decide_False by done. by apply Hs.
Qed.

Lemma pruning_step c0 root gone hash pending terminal c :
  index_sound c0 → pruning c0 root gone (hash :: pending) c →
  wp (remove_one hash terminal) (returns (λ _ c',
    pruning c0 root ({[hash]} ∪ gone) (rev (kids c hash) ++ pending) c' ∧
    (children_total c' + length (kids c hash) ≤ children_total c)%nat) (λ _, False))
    (c <| children_by_parent ::= delete hash |>).
Proof.
  intros Hs0 Hp. pose proof (pruning_sound _ _ _ _ _ Hs0 Hp) as Hs.
  destruct Hp as [Hok Hb [r Hsh] Hc Hd Hk Hpend Hbel Hr].
  set (c1 := c <| children_by_parent ::= delete hash |>).
  assert (Hok1 : cache_ok c1) by by apply cache_ok_children.
  assert (Hk1 : ∀ p h, h ∈ kids c1 p ↔ h ∈ kids c p ∧ p ≠ hash).
  { intros p h. unfold kids, c1. simpl. destruct (decide (p = hash)) as [->|].
    - rewrite lookup_delete_eq. simpl. set_solver.
    - rewrite lookup_delete_ne by done. naive_solver. }
  assert (Hs1 : index_sound c1) by (intros p h [Hh _]%Hk1; by apply Hs).
  eapply wp_total_mono; [apply remove_one_wp; [by apply Hok1|by apply without_ok|apply Hb]| |done].
  intros t c' (Hok' & Hb' & _ & Hsh' & Hc' & Hd' & Hch & _). simpl in Hc', Hd'. split; [split|].
  - done.
  - done.
  - exists (r ++ (if t : bool then [hash] else [])). eapply shrinks_trans; [exact Hsh|].
    destruct Hsh'. by split.
  - intros h. rewrite Hc'. destruct (decide (h = hash)) as [->|].
    + rewrite lookup_delete_eq, decide_True by set_solver. done.
    + rewrite lookup_delete_ne, Hc by done. case_decide; case_decide; set_solver.
  - intros h. rewrite Hd'. destruct (decide (h = hash)) as [->|].
    + rewrite lookup_delete_eq, decide_True by set_solver. done.
    + rewrite lookup_delete_ne, Hd by done. case_decide; case_decide; set_solver.
  - intros p h. rewrite (kids_ext _ _ p Hch), drop_entry_kids, Hk1, Hk by done. set_solver.
  - intros p h Hg Hh. rewrite elem_of_app, elem_of_rev, Hk.
    destruct (decide (h = hash)) as [->|Hne]; [set_solver|].
    destruct (decide (p ∈ gone)) as [Hpg|Hpg].
    + specialize (Hpend p h Hpg Hh) as [?|[?|?]%elem_of_cons]; set_solver.
    + assert (p = hash) as -> by set_solver. destruct (decide (h ∈ gone)); set_solver.
  - intros h [Hh|Hh]; [apply Hbel; set_solver|]. apply elem_of_app in Hh as [Hh|Hh]; [|apply Hbel; set_solver].
    rewrite elem_of_rev in Hh. apply Hk in Hh as (Hh & _). unfold below.
    eapply rtc_r; [apply (Hbel hash); right; left|exact Hh].
  - set_solver.
  - unfold children_total. rewrite Hch. pose proof (drop_entry_total hash c1 Hok1) as Ht.
    change (children_total c1) with (map_total (delete hash (children_by_parent c))) in Ht. unfold kids.
    rewrite (map_total_delete (children_by_parent c) hash). lia.
Qed.

Lemma remove_tree_loop_wp c0 root terminal fuel : ∀ gone pending c,
  index_sound c0 → pruning c0 root gone pending c →
  (length pending + children_total c < fuel)%nat →
  wp (remove_tree_loop fuel terminal pending)
    (returns (λ _ c', ∃ gone', pruning c0 root gone' [] c') (λ _, False)) c.
Proof.
  induction fuel as [|fuel IH]; intros gone pending c Hs Hp Hf; [lia|].
  destruct pending as [|hash pending]; cbn [remove_tree_loop]; [by apply wp_ret; exists gone|].
  wp_steps. eapply wp_call; [by apply pruning_step| |done].
  intros _ c' [Hp' Hle]. eapply IH; [done|exact Hp'|].
  rewrite length_app, length_rev. simpl in Hf. unfold kids in *. lia.
Qed.

(** [h] is removed with [root] exactly when the index reaches it from [root]. *)
Lemma remove_candidate_tree_wp root terminal c :
  cache_ok c → queues_bounded c → index_sound c → root ≠ canonical_hash c →
  wp (remove_candidate_tree root terminal) (returns (λ _ c',
    cache_ok c' ∧ queues_bounded c' ∧ index_sound c' ∧ (∃ r, shrinks r c c') ∧
    (∀ h, below c root h → block_meta c' h = None) ∧
    (∀ h, ~ below c root h → candidates c' !! h = candidates c !! h ∧
                             deferred_executed c' !! h = deferred_executed c !! h)) (λ _, False)) c.
Proof.
  intros Hok Hb Hs Hne. unfold remove_candidate_tree. wp_steps.
  destruct (N.eqb_spec root (canonical_hash (id c))); [done|].
  eapply wp_total_mono; [apply (remove_tree_loop_wp c root terminal _ ∅ [root]); [done| |simpl; unfold id; lia]| |done].
  { split; try done.
    - exists []. apply shrinks_refl.
    - set_solver.
    - intros h [?| ->%list_elem_of_singleton]; [set_solver|apply rtc_refl].
    - right. by apply list_elem_of_singleton. }
  intros _ c' [gone Hp]. pose proof (pruning_sound _ _ _ _ _ Hs Hp).
  assert (Hall : ∀ h, below c root h → h ∈ gone).
  { apply rtc_ind_r; [destruct (pr_root _ _ _ _ _ Hp); set_solver|]. intros p h _ Hh IH.
    destruct (pr_pending _ _ _ _ _ Hp _ _ IH Hh); set_solver. }
  split_and!; [apply Hp|apply Hp|done|apply Hp| |].
  - intros h Hh. rewrite (pruning_meta _ _ _ _ _ _ Hp). by rewrite decide_True by auto.
  - intros h Hh. assert (h ∉ gone) by (intros ?; apply Hh; eapply (pr_below _ _ _ _ _ Hp); auto).
    rewrite (pr_candidates _ _ _ _ _ Hp), (pr_deferred _ _ _ _ _ Hp). by case_decide.
Qed.

(** ** Trimming *)

(** The canonical head's records are untouched. *)
Definition keeps_canonical (c c' : Cache) : Prop :=
  candidates c' !! canonical_hash c = candidates c !! canonical_hash c ∧
  deferred_executed c' !! canonical_hash c = deferred_executed c !! canonical_hash c.

Lemma keeps_canonical_trans r c c1 c2 :
  shrinks r c c1 → keeps_canonical c c1 → keeps_canonical c1 c2 → keeps_canonical c c2.
Proof.
  intros [(_&_&_&E&_) _ _ _ _ _] [H1 H2] [H3 H4]. rewrite E in *. split; congruence.
Qed.

(** The effect common to both trims and to expiry. *)
Definition trims (retired : list B256) (c c' : Cache) : Prop :=
  cache_ok c' ∧ queues_bounded c' ∧ shrinks retired c c' ∧ keeps_canonical c c'.

Lemma trims_refl c : cache_ok c → queues_bounded c → trims [] c c.
Proof. intros. split_and!; [done..|apply shrinks_refl|done]. Qed.

Lemma trims_trans r r' c c1 c2 : trims r c c1 → trims r' c1 c2 → trims (r ++ r') c c2.
Proof.
  intros (_ & _ & Hs & Hk) (? & ? & Hs' & Hk').
  split_and!; [done..|by eapply shrinks_trans|by eapply keeps_canonical_trans].
Qed.

Lemma remove_one_trims h terminal c :
  cache_ok c → queues_bounded c → h ≠ canonical_hash c →
  wp (remove_one h terminal) (returns (λ t c', t = is_tracked c h ∧
    trims (if t then [h] else []) c c' ∧ removed h c c') (λ _, False)) c.
Proof.
  intros Hok Hb Hne. eapply wp_total_mono; [apply remove_one_wp; [by apply Hok|by apply without_ok|apply Hb]| |done].
  intros t c' (Hok' & Hb' & Ht & Hs & Hr). split_and!; [done| |done]. split_and!; [done..|].
  destruct Hr as (Hc & Hd & _). split; [rewrite Hc|rewrite Hd]; by rewrite lookup_delete_ne.
Qed.

(** Dropping a stale head of the metadata queue. *)
Lemma pop_metadata c i h rest :
  cache_ok c → queues_bounded c → metadata_order c = (i, h) :: rest → is_current c (i, h) = false →
  trims [] c (c <| metadata_order := rest |>).
Proof.
  intros Hok Hb E Hst. pose proof (ok_metadata_nodup _ Hok) as Hnd. rewrite E in Hnd.
  apply NoDup_cons in Hnd as [Hn Hnd]. split_and!.
  - destruct Hok. split; try done; simpl.
    + intros j h' Hc. change (current_incarnation c h' = Some j) in Hc.
      specialize (ok_metadata0 _ _ Hc). rewrite E in ok_metadata0.
      apply elem_of_cons in ok_metadata0 as [[= -> ->]|]; [|done].
      apply is_current_iff in Hc. congruence.
    + intros j h' Hin. apply (ok_metadata_allocated0 j h'). rewrite E. by right.
  - destruct Hb. split; try done. change (metadata_len _) with (metadata_len c).
    rewrite E in qb_metadata0. unfold len in *. simpl in *. lia.
  - by eapply shrinks_core; [apply shrinks_refl|..].
  - done.
Qed.

(** Moving a queue's head to its end. *)
Lemma rotate_metadata c e rest :
  cache_ok c → queues_bounded c → metadata_order c = e :: rest →
  trims [] c (c <| metadata_order := rest |> <| metadata_order ::= λ l, l ++ [e] |>).
Proof.
  intros Hok Hb E.
  assert (Hp : rest ++ [e] ≡ₚ metadata_order c) by (rewrite E; symmetry; apply Permutation_cons_append).
  split_and!.
  - destruct Hok. split; try done; simpl.
    + intros j h Hc. rewrite Hp. auto.
    + by rewrite Hp.
    + intros j h. rewrite Hp. apply ok_metadata_allocated0.
  - destruct Hb. split; try done. change (metadata_len _) with (metadata_len c).
    simpl. unfold len in *. by rewrite Hp.
  - by eapply shrinks_core; [apply shrinks_refl|..].
  - done.
Qed.

(** The loop's measure: a canonical head costs one rotation, and no two follow each other. *)
Definition trim_metadata_measure (c : Cache) : nat :=
  2 * length (metadata_order c) +
  match metadata_order c with
  | e :: _ => if is_current c e && (e.2 =? canonical_hash c) then 1 else 0
  | [] => 0
  end.

Lemma rotated_head c i h rest :
  cache_ok c → 0 < metadata_limit c → metadata_limit c < metadata_len c →
  metadata_order c = (i, h) :: rest → is_current c (i, h) = true →
  ∃ e rest', rest = e :: rest' ∧ ~ (is_current c e = true ∧ e.2 = h).
Proof.
  intros Hok Hpos Hlt E Hc. pose proof (current_metadata_length c Hok) as Hl.
  pose proof (ok_metadata_nodup _ Hok) as Hnd. rewrite E in Hl, Hnd. apply NoDup_cons in Hnd as [Hn _].
  destruct rest as [|[j h'] rest'].
  - rewrite filter_cons_True in Hl by (by apply Is_true_true). unfold len in Hl. simpl in Hl. lia.
  - exists (j, h'), rest'. split; [done|]. intros [Hj%is_current_iff Hh]. simpl in Hh. subst.
    apply is_current_iff in Hc. apply Hn. replace j with i by congruence. left.
Qed.

(** Popping a live entry and removing its hash. *)
Lemma pop_and_remove c i h rest :
  cache_ok c → queues_bounded c → metadata_order c = (i, h) :: rest → h ≠ canonical_hash c →
  wp (remove_one h false) (returns (λ (t : bool) c', trims (if t then [h] else []) c c' ∧
    (length (metadata_order c') ≤ length rest)%nat) (λ _, False)) (c <| metadata_order := rest |>).
Proof.
  intros Hok Hb E Hne. eapply wp_total_mono; [apply remove_one_wp| |done].
  - apply (ok_disjoint _ Hok).
  - change (without h _) with ((without h c) <| metadata_order := rest |>).
    pose proof (without_ok h c Hok) as Hok'. destruct Hok'. split; try done; simpl.
    + intros j h' Hc. change (current_incarnation (without h c) h' = Some j) in Hc.
      specialize (ok_metadata0 _ _ Hc). simpl in ok_metadata0. rewrite E in ok_metadata0.
      apply elem_of_cons in ok_metadata0 as [[= -> ->]|]; [|done].
      rewrite without_current, decide_True in Hc by done. done.
    + pose proof (ok_metadata_nodup _ Hok) as Hnd. rewrite E in Hnd. by apply NoDup_cons in Hnd as [_ ?].
    + intros j h' Hin. apply (ok_metadata_allocated0 j h'). simpl. rewrite E. by right.
  - apply Hb.
  - intros t c' (Hok' & Hb' & Ht & Hs & Hc & Hd & _ & Hl). split; [|done]. split_and!; [done..| |].
    + destruct Hs. by split.
    + simpl in Hc, Hd. split; [rewrite Hc|rewrite Hd]; by rewrite lookup_delete_ne.
Qed.

Lemma trim_metadata_loop_wp fuel : ∀ retired c,
  cache_ok c → queues_bounded c → 0 < metadata_limit c → (trim_metadata_measure c < fuel)%nat →
  wp (trim_metadata_loop fuel retired) (returns (λ retired' c', ∃ more, retired' = retired ++ more ∧
    trims more c c' ∧ metadata_len c' ≤ metadata_limit c') (λ _, False)) c.
Proof.
  induction fuel as [|fuel IH]; intros retired c Hok Hb Hpos Hf; [lia|].
  assert (Hnext : ∀ r l c1, l = retired ++ r → trims r c c1 → (trim_metadata_measure c1 < fuel)%nat →
    wp (trim_metadata_loop fuel l) (returns (λ retired' c', ∃ more, retired' = retired ++ more ∧
    trims more c c' ∧ metadata_len c' ≤ metadata_limit c') (λ _, False)) c1).
  { intros r l c1 -> Ht Hm. pose proof Ht as (Hok1 & Hb1 & Hs1 & _).
    eapply wp_total_mono; [apply IH; try done| |done].
    - destruct (sk_fixed _ _ _ Hs1) as (_&_&->&_). done.
    - intros ? c' (more & -> & Ht' & Hle). exists (r ++ more). rewrite app_assoc.
      split_and!; [done|by eapply trims_trans|done]. }
  cbn [trim_metadata_loop]. wp_steps. unfold id.
  destruct (N.ltb_spec (metadata_limit c) (metadata_len c)) as [Hlt|Hge]; cbn [negb].
  2: { apply wp_ret. exists []. rewrite app_nil_r. split_and!; [done|by apply trims_refl|done]. }
  destruct (metadata_order c) as [|[i h] rest] eqn:E.
  { by destruct (metadata_order_nonempty c Hok); [lia|]. }
  unfold trim_metadata_measure in Hf. rewrite E in Hf. cbn [length snd] in Hf.
  wp_steps. destruct (is_current c (i, h)) eqn:Hc; cbn [negb].
  - destruct (N.eqb_spec h (canonical_hash c)) as [Hcan|Hne]; cbn [andb] in Hf.
    + wp_steps. destruct (rotated_head c i h rest Hok Hpos Hlt E Hc) as (e & rest' & -> & Hno).
      apply (Hnext []); [by rewrite app_nil_r|by apply rotate_metadata|].
      unfold trim_metadata_measure. simpl. rewrite length_app. simpl.
      destruct (is_current c e && (e.2 =? canonical_hash c)) eqn:He; [|simpl in *].
      * apply andb_true_iff in He as [He1 He2%N.eqb_eq]. destruct Hno. split; congruence.
      * change (is_current _ e) with (is_current c e). rewrite He. simpl in Hf. lia.
    + eapply wp_call; [by eapply pop_and_remove| |done]. intros t c1 [Ht Hl].
      apply (Hnext (if t then [h] else [])); [destruct t; by rewrite ?app_nil_r|done|]. unfold trim_metadata_measure. destruct (metadata_order c1); [simpl; lia|].
      destruct (_ && _); simpl in *; lia.
  - apply (Hnext []); [by rewrite app_nil_r|by eapply pop_metadata|].
    unfold trim_metadata_measure. simpl in *. destruct rest as [|e' ?]; [simpl; lia|]. cbn [length].
    destruct (_ && _); simpl in *; lia.
Qed.

Lemma pop_projection c i h rest :
  cache_ok c → queues_bounded c → projection_order c = (i, h) :: rest →
  is_current_projection c (i, h) = false →
  trims [] c (c <| projection_order := rest |>).
Proof.
  intros Hok Hb E Hst. pose proof (ok_projection_nodup _ Hok) as Hnd. rewrite E in Hnd.
  apply NoDup_cons in Hnd as [Hn Hnd]. split_and!.
  - destruct Hok. split; try done; simpl.
    + intros j h' Hc. change (is_current_projection _ (j, h')) with (is_current_projection c (j, h')).
      rewrite <- (ok_projection0 j h' Hc), E, elem_of_cons.
      split; [by right|]. intros [[= -> ->]|?]; [|done]. exfalso.
      apply (ok_projection0 i h) in Hc. assert ((i, h) ∈ projection_order c) as Hin by (rewrite E; left).
      apply Hc in Hin. congruence.
    + intros j h' Hin. apply (ok_projection_allocated0 j h'). rewrite E. by right.
  - destruct Hb. split; try done. rewrite E in qb_projection0. unfold len in *. simpl in *. lia.
  - by eapply shrinks_core; [apply shrinks_refl|..].
  - done.
Qed.

Lemma rotate_projection c e rest :
  cache_ok c → queues_bounded c → projection_order c = e :: rest →
  trims [] c (c <| projection_order := rest |> <| projection_order ::= λ l, l ++ [e] |>).
Proof.
  intros Hok Hb E.
  assert (Hp : rest ++ [e] ≡ₚ projection_order c) by (rewrite E; symmetry; apply Permutation_cons_append).
  split_and!.
  - destruct Hok. split; try done; simpl.
    + intros j h Hc. change (is_current_projection _ (j, h)) with (is_current_projection c (j, h)).
      rewrite Hp. by apply ok_projection0.
    + by rewrite Hp.
    + intros j h. rewrite Hp. apply ok_projection_allocated0.
  - destruct Hb. split; try done. simpl. unfold len in *. by rewrite Hp.
  - by eapply shrinks_core; [apply shrinks_refl|..].
  - done.
Qed.

(** The cache with the projection of [h] dropped and its queue entry popped. *)
Definition evicted (h : B256) (e : CandidateEntry) (rest : list (N * B256)) (c : Cache) : Cache :=
  c <| projection_order := rest |>
    <| candidates ::= insert h (e <| ce_projection := None |> <| ce_tracked := false |>) |>
    <| projection_count ::= λ n, n - 1 |>.

Lemma evicted_current h e rest c h' :
  candidates c !! h = Some e → current_incarnation (evicted h e rest c) h' = current_incarnation c h'.
Proof.
  intros He. unfold current_incarnation, evicted. simpl.
  destruct (decide (h' = h)) as [->|]; simplify_map_eq; done.
Qed.

Lemma evicted_projection h e rest c i h' :
  candidates c !! h = Some e →
  is_current_projection (evicted h e rest c) (i, h') = bool_decide (h' ≠ h) && is_current_projection c (i, h').
Proof.
  intros He. unfold is_current_projection, evicted. simpl.
  destruct (decide (h' = h)) as [->|]; simplify_map_eq.
  - rewrite bool_decide_eq_false_2 by naive_solver. by rewrite andb_false_r.
  - by rewrite bool_decide_eq_true_2.
Qed.

Lemma projected_evicted h e rest c : projected (evicted h e rest c) = delete h (projected c).
Proof.
  apply map_eq. intros h'. apply option_eq. intros e'.
  rewrite projected_lookup, lookup_delete_Some, projected_lookup. unfold evicted. simpl.
  destruct (decide (h' = h)) as [->|]; simplify_map_eq; [|naive_solver].
  split; [|naive_solver]. intros [[= <-] []%is_Some_None].
Qed.

Lemma evict_ok c i h e rest :
  cache_ok c → projection_order c = (i, h) :: rest → candidates c !! h = Some e →
  ce_incarnation e = i → has_projection e → cache_ok (evicted h e rest c).
Proof.
  intros Hok E He Hi Hp. pose proof (ok_projection_nodup _ Hok) as Hnd. rewrite E in Hnd.
  apply NoDup_cons in Hnd as [Hn Hnd].
  assert (Hcur : current_incarnation c h = Some i) by (unfold current_incarnation; rewrite He; congruence).
  split; try done; try apply Hok.
  - intros h' [e' He']. apply (ok_disjoint _ Hok). unfold evicted in He'. simpl in He'.
    destruct (decide (h' = h)) as [->|]; simplify_map_eq; eauto.
  - intros h' e' He'. unfold evicted in He'. simpl in He'. destruct (decide (h' = h)) as [->|]; simplify_map_eq.
    + destruct (ok_candidate _ Hok _ _ He) as (Hh & _). split_and!; [done| |done].
      split; [done|intros []%is_Some_None].
    + by apply (ok_candidate _ Hok).
  - rewrite projected_evicted. simpl. rewrite (ok_count _ Hok), map_size_delete.
    rewrite (proj2 (projected_lookup c h e)) by done. lia.
  - intros j h'. rewrite evicted_current by done. apply (ok_metadata _ Hok).
  - intros j h'. rewrite evicted_current, evicted_projection by done. intros Hc. simpl.
    destruct (decide (h' = h)) as [->|].
    + assert (j = i) as -> by congruence. rewrite bool_decide_eq_false_2 by naive_solver. simpl.
      split; done.
    + rewrite bool_decide_eq_true_2 by done. cbn [andb]. rewrite <- (ok_projection _ Hok j h' Hc), E, elem_of_cons.
      split; [by right|]. intros [[= -> ->]|?]; done.
  - intros j h' Hin. apply (ok_projection_allocated _ Hok j h'). rewrite E. by right.
Qed.

Lemma evict_trims c i h e rest :
  cache_ok c → queues_bounded c → projection_order c = (i, h) :: rest → candidates c !! h = Some e →
  ce_incarnation e = i → has_projection e → h ≠ canonical_hash c →
  trims (if ce_tracked e then [h] else []) c (evicted h e rest c).
Proof.
  intros Hok Hb E He Hi Hp Hne. destruct (ok_candidate _ Hok _ _ He) as (_ & Htr & _).
  assert (ce_tracked e = true) as Ht by by apply Htr. rewrite Ht.
  assert (Htracked : ∀ h', tracked (evicted h e rest c) h' ↔ tracked c h' ∧ h' ≠ h).
  { intros h'. unfold tracked, evicted. simpl.
    destruct (decide (h' = h)) as [->|]; simplify_map_eq; naive_solver. }
  split_and!.
  - by eapply evict_ok.
  - destruct Hb. split; [| |done].
    + change (metadata_order (evicted _ _ _ _)) with (metadata_order c).
      assert (metadata_len (evicted h e rest c) = metadata_len c) as ->; [|done].
      unfold metadata_len, evicted. simpl. by rewrite map_size_insert_Some.
    + rewrite E in qb_projection0. unfold len in *. simpl in *. lia.
  - split; try done.
    + intros h'. rewrite Htracked. naive_solver.
    + intros h'. rewrite Htracked, list_elem_of_singleton. split.
      * intros ->. split; [by exists e|naive_solver].
      * intros [? ?]. destruct (decide (h' = h)); naive_solver.
    + apply NoDup_singleton.
    + intros h' e'. unfold evicted. simpl. destruct (decide (h' = h)) as [->|]; simplify_map_eq.
      * intros [= <-]. exists e. split_and!; auto.
      * intros ?. exists e'. split_and!; auto.
  - split; [|done]. unfold evicted. simpl. by rewrite lookup_insert_ne.
Qed.

(** Enough fuel for [trim_projection_loop]: each stale entry is popped once, and past
    [bound + 1] examinations of current entries the loop gives up. *)
Lemma trim_projection_loop_wp inserted bound fuel : ∀ examined retired c,
  cache_ok c → queues_bounded c → (length (projection_order c) ≤ bound)%nat →
  (S (length (projection_order c)) + (bound + 2 - N.to_nat examined) ≤ fuel)%nat →
  wp (trim_projection_loop fuel inserted examined retired)
    (returns (λ retired' c', ∃ more, retired' = retired ++ more ∧ trims more c c' ∧
                projection_count c' ≤ cache_limit c')
             (λ c', ∃ more, trims more c c')) c.
Proof.
  induction fuel as [|fuel IH]; intros examined retired c Hok Hb Hbound Hf; [lia|].
  assert (Hnext : ∀ r l c1, l = retired ++ r → trims r c c1 →
    (length (projection_order c1) ≤ bound)%nat →
    (S (length (projection_order c1)) + (bound + 2 - N.to_nat (examined + 1)) ≤ fuel)%nat →
    wp (trim_projection_loop fuel inserted (examined + 1) l)
      (returns (λ retired' c', ∃ more, retired' = retired ++ more ∧ trims more c c' ∧
                projection_count c' ≤ cache_limit c')
             (λ c', ∃ more, trims more c c')) c1).
  { intros r l c1 -> Ht Hb1 Hf1. pose proof Ht as (Hok1 & Hq1 & _).
    eapply wp_total_mono; [by apply IH| |].
    - intros ? c' (more & -> & Ht' & Hle). exists (r ++ more). rewrite app_assoc.
      split_and!; [done|by eapply trims_trans|done].
    - intros c' [more Ht']. exists (r ++ more). by eapply trims_trans. }
  cbn [trim_projection_loop]. wp_steps. unfold id.
  destruct (N.ltb_spec (cache_limit c) (projection_count c)) as [Hlt|Hge]; cbn [negb].
  2: { apply wp_ret. exists []. rewrite app_nil_r. split_and!; [done|by apply trims_refl|done]. }
  destruct (projection_order c) as [|[i h] rest] eqn:E.
  { pose proof (projection_count_order c Hok) as Hle. rewrite E in Hle. unfold len in Hle. simpl in Hle. lia. }
  cbn [length] in Hbound, Hf. wp_steps. cbv zeta.
  assert (Hcheck : ∀ r l c1, l = retired ++ r → trims r c c1 →
    (length (projection_order c1) ≤ S (length rest))%nat →
    wp (remaining ← gets (λ c, len (projection_order c));
        if saturating_add remaining 1 <? examined + 1 then throw (CannotEvict inserted)
        else trim_projection_loop fuel inserted (examined + 1) l)
      (returns (λ retired' c', ∃ more, retired' = retired ++ more ∧ trims more c c' ∧
                projection_count c' ≤ cache_limit c')
             (λ c', ∃ more, trims more c c')) c1).
  { intros r l c1 Hl Ht Hlen. wp_steps. unfold saturating_add.
    destruct (N.ltb_spec (N.min (len (projection_order c1) + 1) u64_max) (examined + 1)).
    - apply wp_throw. simpl. eauto.
    - apply (Hnext r); [done|done|lia|]. unfold len in *. lia. }
  destruct (is_current_projection c (i, h)) eqn:Hc; cbn [negb].
  2: { apply (Hnext []); [by rewrite app_nil_r|by eapply pop_projection|simpl; lia|simpl; lia]. }
  destruct (N.eqb_spec h (canonical_hash c)) as [Hcan|Hne].
  - wp_steps. apply (Hcheck []); [by rewrite app_nil_r|by eapply rotate_projection|].
    simpl. rewrite length_app. simpl. lia.
  - apply is_current_projection_iff in Hc as (e & He & Hi & Hp). rewrite He. wp_steps.
    apply (Hcheck (if ce_tracked e then [h] else []));
      [destruct (ce_tracked e); by rewrite ?app_nil_r|by eapply evict_trims|simpl; lia].
Qed.

(** ** Finality sweeps *)

(** A suspended walk does not start at the canonical head. *)
Definition walk_safe (c : Cache) (sweep : FinalitySweep) : Prop :=
  ∀ w, fs_active sweep = Some w → fw_root w ≠ canonical_hash c.

Lemma advance_root c w f : fw_root (advance_finality_walk c w f).2 = fw_root w.
Proof. unfold advance_finality_walk. by repeat case_match. Qed.

(** What a pass leaves behind; the canonical head's records survive unless a suspended walk
    started there. *)
Definition sweeps (safe : Prop) (retired : list B256) (c c' : Cache) : Prop :=
  cache_ok c' ∧ queues_bounded c' ∧ shrinks retired c c' ∧ (safe → keeps_canonical c c').

Lemma sweeps_trans safe r r' c c1 c2 : sweeps safe r c c1 → sweeps safe r' c1 c2 → sweeps safe (r ++ r') c c2.
Proof.
  intros (_ & _ & Hs & Hk) (? & ? & Hs' & Hk').
  split_and!; [done..|by eapply shrinks_trans|]. intros Hsafe.
  eapply keeps_canonical_trans; eauto.
Qed.

Lemma sweeps_refl safe c : cache_ok c → queues_bounded c → sweeps safe [] c c.
Proof. intros. split_and!; [done..|apply shrinks_refl|done]. Qed.

Lemma next_walk_safe c sweep sweep' walk (safe : Prop) :
  (safe → walk_safe c sweep) → next_walk c sweep = Some (sweep', walk) →
  fs_active sweep' = None ∧ ∀ w, walk = Some w → safe → fw_root w ≠ canonical_hash c.
Proof.
  intros Hw. unfold next_walk. destruct (fs_active sweep) as [w|] eqn:Ea.
  - intros [= <- <-]. split; [done|]. intros ? [= <-] Hsafe. by apply Hw.
  - destruct (fs_pending sweep) as [|[i h] rest]; [done|]. cbv zeta.
    destruct (N.eqb_spec h (canonical_hash c)); rewrite ?orb_true_r, ?orb_false_r.
    + by intros [= <- <-].
    + destruct (negb _); intros [= <- <-]; (split; [done|]); [done|]. by intros w [= <-].
Qed.

Lemma walk_step_wp walk sweep (safe : Prop) c :
  cache_ok c → queues_bounded c → fs_active sweep = None →
  (safe → fw_root walk ≠ canonical_hash c) →
  wp (walk_step walk sweep) (returns (λ res c',
    sweeps safe res.2 c c' ∧ (safe → walk_safe c res.1)) (λ _, False)) c.
Proof.
  intros Hok Hb Hnone Hroot. unfold walk_step. wp_steps. unfold id.
  assert (Hadv : ∃ cl w, match fs_classifications sweep !! fw_current walk with
            | Some classification => (Some classification, walk)
            | None => advance_finality_walk c walk (fs_checkpoint sweep)
            end = (cl, w) ∧ fw_root w = fw_root walk).
  { destruct (_ !! _); [by eexists _, _|].
    destruct (advance_finality_walk _ _ _) as [cl w] eqn:E. exists cl, w. split; [done|].
    by rewrite <- (advance_root c walk (fs_checkpoint sweep)), E. }
  destruct Hadv as (cl & w & -> & Hrw). destruct cl as [cl|]; cbv zeta.
  - set (sweep2 := if decide (cl = Unknown) then _ else _).
    assert (H2 : safe → walk_safe c sweep2).
    { intros _ w' Hw'. assert (fs_active sweep2 = None) as Hn by (unfold sweep2; by case_decide). congruence. }
    destruct (_ && _); [|apply wp_ret; simpl; split; [by apply sweeps_refl|done]].
    eapply wp_call; [apply remove_one_wp; [by apply Hok|by apply without_ok|apply Hb]| |done].
    intros t c1 (Hok1 & Hb1 & Ht & Hs1 & Hc & Hd & _). apply wp_ret. simpl. split; [|done].
    split_and!; [done..|]. intros Hsafe. specialize (Hroot Hsafe).
    split; [rewrite Hc|rewrite Hd]; rewrite lookup_delete_ne; congruence.
  - apply wp_ret. simpl. split; [by apply sweeps_refl|]. intros Hsafe w' [= <-]. rewrite Hrw. auto.
Qed.

Lemma finality_loop_wp fuel : ∀ sweep work retired (safe : Prop) c,
  cache_ok c → queues_bounded c → (safe → walk_safe c sweep) →
  wp (finality_loop fuel sweep work retired) (returns (λ res c',
    let '(sweep', work', retired') := res in
    ∃ more, retired' = retired ++ more ∧ sweeps safe more c c' ∧ (safe → walk_safe c sweep') ∧
      work' ≤ work + N.of_nat fuel) (λ _, False)) c.
Proof.
  induction fuel as [|fuel IH]; intros sweep work retired safe c Hok Hb Hw; cbn [finality_loop].
  { apply wp_ret. exists []. rewrite app_nil_r. split_and!; [done|by apply sweeps_refl|done|lia]. }
  assert (Hnext : ∀ r l sweep1 c1, l = retired ++ r → sweeps safe r c c1 → (safe → walk_safe c sweep1) →
    wp (finality_loop fuel sweep1 (work + 1) l) (returns (λ res c',
    let '(sweep', work', retired') := res in
    ∃ more, retired' = retired ++ more ∧ sweeps safe more c c' ∧ (safe → walk_safe c sweep') ∧
      work' ≤ work + N.of_nat (S fuel)) (λ _, False)) c1).
  { intros r l sweep1 c1 -> Hs Hw1. pose proof Hs as (Hok1 & Hb1 & Hsh & _).
    destruct (sk_fixed _ _ _ Hsh) as (_&_&_&Ecan&_).
    eapply wp_total_mono; [apply (IH _ _ _ safe c1); [done|done|]| |done].
    - unfold walk_safe. by rewrite Ecan.
    - intros [[sweep' work'] retired'] c' (more & -> & Hs' & Hw' & Hle).
      exists (r ++ more). rewrite app_assoc. split_and!; [done|by eapply sweeps_trans| |lia].
      unfold walk_safe in *. by rewrite <- Ecan. }
  wp_steps. unfold id. destruct (next_walk c sweep) as [[sweep1 [walk|]]|] eqn:E.
  - destruct (next_walk_safe _ _ _ _ _ Hw E) as [Hn Hroot].
    eapply wp_call; [apply (walk_step_wp walk sweep1 safe); eauto| |done].
    intros [sweep2 r] c1 [Hs Hw2]. by apply (Hnext r).
  - destruct (next_walk_safe _ _ _ _ _ Hw E) as [Hn _].
    apply (Hnext []); [by rewrite app_nil_r|by apply sweeps_refl|]. intros _ w. congruence.
  - apply wp_ret. exists []. rewrite app_nil_r. split_and!; [done|by apply sweeps_refl|done|lia].
Qed.

Lemma cache_ok_sweep c s : cache_ok c → cache_ok (c <| finality_sweep := s |>).
Proof. by intros []; split. Qed.

Lemma sweeps_with safe r c c' s s' :
  sweeps safe r (c <| finality_sweep := s |>) c' → sweeps safe r c (c' <| finality_sweep := s' |>).
Proof.
  intros (Hok & Hb & Hs & Hk). split_and!.
  - by apply cache_ok_sweep.
  - by destruct Hb; split.
  - destruct Hs. by split.
  - done.
Qed.

(** A finality pass keeps the invariant, stays within its budget and never touches the canonical
    head's records unless a suspended walk had started there. *)
Lemma finality_pass_wp budget c :
  cache_ok c → queues_bounded c →
  wp (finality_pass budget) (returns (λ res c',
    sweeps (∀ s, finality_sweep c = Some s → walk_safe c s) res.2 c c' ∧ res.1 ≤ budget) (λ _, False)) c.
Proof.
  intros Hok Hb. unfold finality_pass. wp_steps. unfold id.
  destruct (finality_sweep c) as [s|] eqn:E.
  2: { apply wp_ret. simpl. split; [by apply sweeps_refl|lia]. }
  wp_steps. set (safe := ∀ s0, Some s = Some s0 → walk_safe c s0).
  eapply wp_call; [apply (finality_loop_wp _ _ _ _ safe)| |done].
  - by apply cache_ok_sweep.
  - by destruct Hb; split.
  - intros Hsafe. by apply (Hsafe s).
  - intros [[s' w] r] c' (more & -> & Hs & _ & Hle). simpl.
    destruct (bool_decide _ || bool_decide _); wp_steps; cbn [fst snd].
    + split; [by eapply sweeps_with|lia].
    + split; [|lia]. apply (sweeps_with _ _ _ _ _ (finality_sweep c')) in Hs.
      by destruct c'.
Qed.

(** ** Insertion *)

(** The cache in which [e] is the candidate of [h]. *)
Definition placed (h : B256) (e : CandidateEntry) (fresh gained : bool)
    (ch : gmap N (list B256)) (sweep : option FinalitySweep) (c : Cache) : Cache :=
  mkCache (<[h := e]> (candidates c)) (delete h (deferred_executed c)) ch
    (if gained then projection_order c ++ [(ce_incarnation e, h)] else projection_order c)
    (if fresh then metadata_order c ++ [(ce_incarnation e, h)] else metadata_order c)
    (tombstones c) (tombstone_order c)
    (if fresh then next_incarnation c + 1 else next_incarnation c)
    (if gained then projection_count c + 1 else projection_count c)
    (cache_limit c) (metadata_limit c) (canonical_hash c) (last_finalized c) sweep.

(** [e] is a tracked, projected entry for [h]; its incarnation is new exactly when [fresh], its
    place in the projection queue exactly when [gained]. *)
Record placeable (c : Cache) (h : B256) (e : CandidateEntry) (fresh gained : bool) : Prop := {
  pl_hash : bm_hash (ce_block e) = h;
  pl_tracked : ce_tracked e = true;
  pl_projection : ∃ p, ce_projection e = Some p ∧ pj_block p = ce_block e;
  pl_fresh : if fresh then current_incarnation c h = None ∧ ce_incarnation e = next_incarnation c
             else current_incarnation c h = Some (ce_incarnation e);
  pl_gained : is_current_projection c (ce_incarnation e, h) = negb gained;
}.

Lemma placed_current h e fresh gained ch sweep c h' :
  current_incarnation (placed h e fresh gained ch sweep c) h' =
    if decide (h' = h) then Some (ce_incarnation e) else current_incarnation c h'.
Proof.
  unfold current_incarnation, placed. simpl. case_decide; subst; simplify_map_eq; done.
Qed.

Lemma placed_projection h e fresh gained ch sweep c i h' :
  has_projection e →
  is_current_projection (placed h e fresh gained ch sweep c) (i, h') =
    if decide (h' = h) then bool_decide (i = ce_incarnation e) else is_current_projection c (i, h').
Proof.
  intros Hp. unfold is_current_projection, placed. simpl. case_decide; subst; simplify_map_eq; [|done].
  rewrite (bool_decide_eq_true_2 (is_Some _)) by done. rewrite andb_true_r.
  apply eq_bool_prop_intro. rewrite !Is_true_true, N.eqb_eq, bool_decide_eq_true. done.
Qed.

Lemma placed_projected h e fresh gained ch sweep c :
  has_projection e → projected (placed h e fresh gained ch sweep c) = <[h := e]> (projected c).
Proof. intros. unfold projected, placed. simpl. by rewrite map_filter_insert_True. Qed.

Lemma stale_next c h :
  cache_ok c → (next_incarnation c, h) ∉ metadata_order c ∧ (next_incarnation c, h) ∉ projection_order c.
Proof.
  intros Hok. split; intros Hin.
  - apply (ok_metadata_allocated _ Hok) in Hin. lia.
  - apply (ok_projection_allocated _ Hok) in Hin. lia.
Qed.

Lemma NoDup_snoc {A} (l : list A) x : NoDup l → x ∉ l → NoDup (l ++ [x]).
Proof.
  intros. apply NoDup_app. split_and!; [done| |apply NoDup_singleton].
  by intros y Hy ->%list_elem_of_singleton.
Qed.

Lemma placed_queue c h e fresh gained :
  cache_ok c → placeable c h e fresh gained → gained = true →
  (ce_incarnation e, h) ∉ projection_order c.
Proof.
  intros Hok [_ _ _ Hfr Hg] ->. destruct fresh.
  - destruct Hfr as [_ ->]. by apply stale_next.
  - rewrite (ok_projection _ Hok _ _ Hfr), Hg. done.
Qed.

Lemma placed_ok h e fresh gained ch sweep c :
  cache_ok c → placeable c h e fresh gained → cache_ok (placed h e fresh gained ch sweep c).
Proof.
  intros Hok Hpl. pose proof Hpl as [Hh Htr (p & Hp & Hpb) Hfr Hg].
  assert (Hproj : has_projection e) by (by exists p).
  pose proof (placed_queue _ _ _ _ _ Hok Hpl) as Hq. pose proof (stale_next c h Hok) as [Hsm Hsp].
  split; try (by apply Hok).
  - intros h' [e' He']. simpl in *. destruct (decide (h' = h)) as [->|]; simplify_map_eq; [done|].
    apply (ok_disjoint _ Hok). eauto.
  - intros h' e' He'. simpl in *. destruct (decide (h' = h)) as [->|]; simplify_map_eq.
    + split_and!; [done|done|]. intros p' ?. by simplify_eq.
    + by apply (ok_candidate _ Hok).
  - intros h' d Hd. simpl in Hd. apply lookup_delete_Some in Hd as [_ Hd]. by apply (ok_deferred _ Hok).
  - rewrite placed_projected by done. simpl. rewrite map_size_insert, (ok_count _ Hok).
    destruct gained; simpl in Hg.
    + destruct (projected c !! h) as [e'|] eqn:E; [|lia]. exfalso.
      apply projected_lookup in E as [E1 E2]. destruct fresh.
      * destruct Hfr as [Hfr _]. unfold current_incarnation in Hfr. by rewrite E1 in Hfr.
      * unfold current_incarnation in Hfr. rewrite E1 in Hfr.
        assert (is_current_projection c (ce_incarnation e, h) = true) by
          (apply is_current_projection_iff; exists e'; split_and!; congruence). congruence.
    + apply is_current_projection_iff in Hg as (e' & He' & _ & Hp').
      rewrite (proj2 (projected_lookup c h e')) by done. done.
  - intros i h'. rewrite placed_current. simpl. case_decide as D.
    + subst h'. intros [= <-]. destruct fresh; [rewrite elem_of_app; right; by apply list_elem_of_singleton|].
      by apply (ok_metadata _ Hok).
    + intros Hc. apply (ok_metadata _ Hok) in Hc. destruct fresh; [rewrite elem_of_app; auto|done].
  - simpl. destruct fresh; [|apply Hok]. destruct Hfr as [_ ->]. apply NoDup_snoc; [apply Hok|done].
  - intros i h'. rewrite placed_current, placed_projection by done. simpl. case_decide as D.
    + subst h'. intros [= <-]. rewrite bool_decide_eq_true_2 by done. split; [done|]. intros _.
      destruct gained; [rewrite elem_of_app; right; by apply list_elem_of_singleton|].
      apply (ok_projection _ Hok); [by apply is_current_projection_current|done].
    + intros Hc. rewrite <- (ok_projection _ Hok i h' Hc). destruct gained; [|done].
      rewrite elem_of_app, list_elem_of_singleton. naive_solver.
  - simpl. destruct gained; [|apply Hok]. apply NoDup_snoc; [apply Hok|auto].
  - intros i h' Hin. simpl in *. destruct fresh; [|by eapply (ok_metadata_allocated _ Hok)].
    apply elem_of_app in Hin as [Hin|[= -> ->]%list_elem_of_singleton]; [|destruct Hfr; lia].
    apply (ok_metadata_allocated _ Hok) in Hin. lia.
  - intros i h' Hin. simpl in *.
    assert (Hi : ce_incarnation e < (if fresh then next_incarnation c + 1 else next_incarnation c)).
    { destruct fresh; [destruct Hfr; lia|]. eapply (ok_metadata_allocated _ Hok), (ok_metadata _ Hok), Hfr. }
    assert (Hold : (i, h') ∈ projection_order c → i < (if fresh then next_incarnation c + 1 else next_incarnation c)).
    { intros Hin'%(ok_projection_allocated _ Hok). destruct fresh; lia. }
    destruct gained; [|auto]. apply elem_of_app in Hin as [Hin|[= -> ->]%list_elem_of_singleton]; auto.
Qed.

Lemma placed_len h e fresh gained ch sweep c :
  cache_ok c → placeable c h e fresh gained →
  metadata_len (placed h e fresh gained ch sweep c) = if fresh then metadata_len c + 1 else metadata_len c.
Proof.
  intros Hok Hpl. pose proof (placed_ok _ _ _ _ ch sweep _ Hok Hpl) as Hok'.
  rewrite !metadata_len_live by done.
  assert (live (placed h e fresh gained ch sweep c) = {[h]} ∪ live c) as ->.
  { apply set_eq. intros h'. rewrite elem_of_union, elem_of_singleton, !elem_of_live, placed_current.
    case_decide; subst; naive_solver. }
  destruct Hpl as [_ _ _ Hfr _]. destruct fresh.
  - rewrite size_union, size_singleton; [lia|]. intros x ->%elem_of_singleton.
    rewrite elem_of_live. destruct Hfr as [-> _]. by intros [? [=]].
  - f_equal. f_equal. apply set_eq. intros x. rewrite elem_of_union, elem_of_singleton.
    split; [|auto]. intros [->|]; [|done]. rewrite elem_of_live, Hfr. eauto.
Qed.

Lemma placed_bounded h e fresh gained ch sweep c :
  cache_ok c → placeable c h e fresh gained → queues_bounded c →
  queues_bounded (placed h e fresh gained ch sweep c).
Proof.
  intros Hok Hpl [Hm Hp Ht]. split; [rewrite placed_len by done| |done]; simpl.
  - destruct fresh; [|done]. unfold len in *. rewrite length_app. simpl. lia.
  - destruct gained; [|done]. unfold len in *. rewrite length_app. simpl. lia.
Qed.

Lemma add_child_spec p h c : ∃ ch, add_child p h c = c <| children_by_parent := ch |>.
Proof. eexists. by unfold add_child. Qed.

Lemma queue_finality_check_spec i h c :
  ∃ s, queue_finality_check i h c = c <| finality_sweep := s |>.
Proof.
  unfold queue_finality_check. destruct c as [? ? ? ? ? ? ? ? ? ? ml ? lf fs].
  destruct fs as [s|], lf as [f|]; simpl; repeat case_match; by eexists.
Qed.

Lemma allocate_incarnation_spec c :
  next_incarnation c < u64_max →
  allocate_incarnation c = (next_incarnation c, c <| next_incarnation := next_incarnation c + 1 |>).
Proof.
  intros Hlt. unfold allocate_incarnation, wrapping_add. rewrite N.mod_small by lia.
  by rewrite N.max_l by lia.
Qed.

Lemma fresh_not_projected c i h :
  current_incarnation c h = None → is_current_projection c (i, h) = false.
Proof.
  intros Hn. destruct (is_current_projection c (i, h)) eqn:E; [|done].
  apply is_current_projection_current in E. congruence.
Qed.

(** What inserting a projection does: the entry it places, whether the record is new and whether it
    gained a projection. *)
Definition candidate_placed (now retention : N) (projection : Projection) (stage : CandidateStage)
    (first_sequence : N) (c : Cache) : Prop :=
  let h := bm_hash (pj_block projection) in
  ∃ e fresh gained ch sweep,
    insert_candidate_entry now retention projection stage true first_sequence c =
      placed h e fresh gained ch sweep c ∧
    placeable c h e fresh gained ∧ ce_projection e = Some projection ∧ ce_stage e = stage ∧
    fresh = bool_decide (current_incarnation c h = None) ∧
    gained = bool_decide (projected c !! h = None).

Section insert_candidate_entry.
Context (now retention : N) (projection : Projection) (stage : CandidateStage) (first_sequence : N) (c : Cache).
Let h := bm_hash (pj_block projection).

(** A record that is there is refreshed. *)
Lemma insert_existing e0 :
  candidates c !! h = Some e0 → candidate_placed now retention projection stage first_sequence c.
Proof.
  intros E. unfold candidate_placed, insert_candidate_entry. fold h. cbv zeta.
  change (candidates (c <| deferred_executed ::= delete h |>)) with (candidates c). rewrite E.
  assert (Hpr : projected c !! h = if decide (has_projection e0) then Some e0 else None).
  { case_decide; [by apply projected_lookup|]. apply map_lookup_filter_None. right.
    intros e' He'. by simplify_eq. }
  assert (Hcur : current_incarnation c h = Some (ce_incarnation e0)).
  { unfold current_incarnation. by rewrite E. }
  exists (mkCandidateEntry (pj_block projection) (Some projection) stage true
      (if negb (ce_tracked e0) then first_sequence else ce_first_sequence e0)
      (ce_incarnation e0) (now + retention)), false, (bool_decide (ce_projection e0 = None)),
    (children_by_parent c), (finality_sweep c). rewrite Hpr, Hcur.
  split.
  { change (candidates (c <| deferred_executed ::= delete h |>)) with (candidates c).
    rewrite E, orb_true_r. simpl. case_bool_decide; unfold placed, update; simpl; reflexivity. }
  split_and!; [split|done|done|done|].
  + done.
  + done.
  + eexists. by split.
  + done.
  + simpl. unfold is_current_projection. simpl. rewrite E, N.eqb_refl. simpl.
    destruct (ce_projection e0); done.
  + case_decide as D; [|apply eq_None_not_Some in D; by rewrite D].
    destruct D as [p D]. by rewrite D.
Qed.

(** A deferred execution becomes a candidate with the same incarnation. *)
Lemma insert_deferred d :
  candidates c !! h = None → deferred_executed c !! h = Some d →
  candidate_placed now retention projection stage first_sequence c.
Proof.
  intros E Ed. unfold candidate_placed, insert_candidate_entry. fold h. cbv zeta.
  change (candidates (c <| deferred_executed ::= delete h |>)) with (candidates c). rewrite E, Ed.
  assert (Hpr : projected c !! h = None) by (apply map_lookup_filter_None; auto).
  cbn [fmap option_fmap option_map].
  exists (mkCandidateEntry (pj_block projection) (Some projection) stage true first_sequence
    (de_incarnation d) (now + retention)), false, true, (children_by_parent c), (finality_sweep c).
  rewrite Hpr.
  assert (current_incarnation c h = Some (de_incarnation d)) as Hcur
    by (unfold current_incarnation; by rewrite E, Ed).
  split.
  { change (candidates (c <| deferred_executed ::= delete h |>)) with (candidates c).
    rewrite E, !decide_False by done. unfold placed, update. simpl. reflexivity. }
  split_and!; [split|done|done| |done].
  * done.
  * done.
  * eexists. by split.
  * done.
  * simpl. unfold is_current_projection. simpl. by rewrite E.
  * rewrite Hcur. by case_bool_decide.
Qed.

(** A new block gets a new incarnation. *)
Lemma insert_new :
  cache_ok c → next_incarnation c < u64_max → candidates c !! h = None → deferred_executed c !! h = None →
  candidate_placed now retention projection stage first_sequence c.
Proof.
  intros Hok Hlt E Ed. unfold candidate_placed, insert_candidate_entry. fold h. cbv zeta.
  change (candidates (c <| deferred_executed ::= delete h |>)) with (candidates c). rewrite E, Ed.
  assert (Hpr : projected c !! h = None) by (apply map_lookup_filter_None; auto).
  cbn [fmap option_fmap option_map].
  rewrite allocate_incarnation_spec by done. simpl candidates. rewrite E.
  rewrite !decide_True by done. simpl next_incarnation.
  match goal with |- context [add_child ?p ?h ?c] =>
    destruct (add_child_spec p h c) as [ch ->] end.
  match goal with |- context [queue_finality_check ?p ?h ?c] =>
    destruct (queue_finality_check_spec p h c) as [s ->] end.
  assert (current_incarnation c h = None) as Hcur by (unfold current_incarnation; by rewrite E, Ed).
  exists (mkCandidateEntry (pj_block projection) (Some projection) stage true first_sequence
    (next_incarnation c) (now + retention)), true, true, ch, s. rewrite Hpr, Hcur. split.
  { destruct c. reflexivity. }
  split_and!; [split|done|done|done|done].
  * done.
  * done.
  * eexists. by split.
  * simpl. done.
  * by apply fresh_not_projected.
Qed.

Lemma insert_candidate_entry_spec :
  cache_ok c → next_incarnation c < u64_max → candidate_placed now retention projection stage first_sequence c.
Proof.
  intros Hok Hlt. destruct (candidates c !! h) as [e0|] eqn:E; [by eapply insert_existing|].
  destruct (deferred_executed c !! h) as [d|] eqn:Ed; [by eapply insert_deferred|by apply insert_new].
Qed.
End insert_candidate_entry.

(** ** Deferred executions *)

Definition deferred_put (h : B256) (d : DeferredExecuted) (fresh : bool)
    (ch : gmap N (list B256)) (sweep : option FinalitySweep) (c : Cache) : Cache :=
  mkCache (candidates c) (<[h := d]> (deferred_executed c)) ch (projection_order c)
    (if fresh then metadata_order c ++ [(de_incarnation d, h)] else metadata_order c)
    (tombstones c) (tombstone_order c)
    (if fresh then next_incarnation c + 1 else next_incarnation c) (projection_count c)
    (cache_limit c) (metadata_limit c) (canonical_hash c) (last_finalized c) sweep.

Lemma insert_deferred_entry_spec now retention block changes c :
  let h := bm_hash block in
  next_incarnation c < u64_max → candidates c !! h = None →
  ∃ d fresh ch sweep,
    insert_deferred_entry now retention block changes c = deferred_put h d fresh ch sweep c ∧
    de_block d = block ∧ de_changes d = changes ∧
    if fresh : bool then current_incarnation c h = None ∧ de_incarnation d = next_incarnation c
    else current_incarnation c h = Some (de_incarnation d).
Proof.
  intros h Hlt E. unfold insert_deferred_entry. fold h. cbv zeta. unfold current_incarnation. rewrite E.
  destruct (deferred_executed c !! h) as [d|] eqn:Ed; cbn [fmap option_fmap option_map].
  - exists (mkDeferredExecuted block changes (de_incarnation d) (now + retention)), false,
      (children_by_parent c), (finality_sweep c). rewrite decide_False by done.
    by split_and!; [destruct c|..].
  - rewrite allocate_incarnation_spec, decide_True by done. simpl next_incarnation.
    match goal with |- context [add_child ?p ?h ?c] => destruct (add_child_spec p h c) as [ch ->] end.
    match goal with |- context [queue_finality_check ?p ?h ?c] =>
      destruct (queue_finality_check_spec p h c) as [s ->] end.
    exists (mkDeferredExecuted block changes (next_incarnation c) (now + retention)), true, ch, s.
    by split_and!; [destruct c|..].
Qed.

Lemma deferred_put_current h d fresh ch sweep c h' :
  candidates c !! h = None →
  current_incarnation (deferred_put h d fresh ch sweep c) h' =
    if decide (h' = h) then Some (de_incarnation d) else current_incarnation c h'.
Proof.
  intros E. unfold current_incarnation, deferred_put. simpl. case_decide; subst; simplify_map_eq; done.
Qed.

Lemma deferred_put_ok h d (fresh : bool) ch sweep c :
  cache_ok c → bm_hash (de_block d) = h → candidates c !! h = None →
  (if fresh then current_incarnation c h = None ∧ de_incarnation d = next_incarnation c
   else current_incarnation c h = Some (de_incarnation d)) →
  cache_ok (deferred_put h d fresh ch sweep c).
Proof.
  intros Hok Hh E Hfr. pose proof (stale_next c h Hok) as [Hsm Hsp].
  split; try (by apply Hok).
  - intros h' Hs. simpl in *. destruct (decide (h' = h)) as [->|].
    + rewrite E in Hs. by destruct Hs.
    + rewrite lookup_insert_ne by done. by apply (ok_disjoint _ Hok).
  - intros h' d'. simpl. destruct (decide (h' = h)) as [->|]; simplify_map_eq; [by intros [= ->]|].
    apply (ok_deferred _ Hok).
  - intros i h'. rewrite deferred_put_current by done. simpl. case_decide as D.
    + subst h'. intros [= <-]. destruct fresh; [rewrite elem_of_app; right; by apply list_elem_of_singleton|].
      by apply (ok_metadata _ Hok).
    + intros Hc. apply (ok_metadata _ Hok) in Hc. destruct fresh; [rewrite elem_of_app; auto|done].
  - simpl. destruct fresh; [|apply Hok]. destruct Hfr as [_ ->]. apply NoDup_snoc; [apply Hok|done].
  - intros i h'. rewrite deferred_put_current by done. case_decide as D; [|apply (ok_projection _ Hok)].
    subst h'. intros [= <-]. change (is_current_projection _ _) with
      (is_current_projection c (de_incarnation d, h)). simpl. destruct fresh.
    + destruct Hfr as [Hn ->]. rewrite fresh_not_projected by done. split; done.
    + by apply (ok_projection _ Hok).
  - intros i h' Hin. simpl in *. destruct fresh; [|by eapply (ok_metadata_allocated _ Hok)].
    apply elem_of_app in Hin as [Hin|[= -> ->]%list_elem_of_singleton]; [|destruct Hfr; lia].
    apply (ok_metadata_allocated _ Hok) in Hin. lia.
  - intros i h' Hin. simpl in *. apply (ok_projection_allocated _ Hok) in Hin. destruct fresh; lia.
Qed.

Lemma deferred_put_bounded h d (fresh : bool) ch sweep c :
  cache_ok c → queues_bounded c → bm_hash (de_block d) = h → candidates c !! h = None →
  (if fresh then current_incarnation c h = None ∧ de_incarnation d = next_incarnation c
   else current_incarnation c h = Some (de_incarnation d)) →
  queues_bounded (deferred_put h d fresh ch sweep c).
Proof.
  intros Hok [Hm Hp Ht] Hh E Hfr. split; [|done|done]. unfold metadata_len in *. simpl.
  rewrite map_size_insert. unfold current_incarnation in Hfr. rewrite E in Hfr.
  destruct fresh; [destruct Hfr as [Hn _]|];
    destruct (deferred_executed c !! h); simpl in *; try done; [].
  unfold len in *. rewrite length_app. simpl. lia.
Qed.

(** ** Updates in place *)

Lemma entry_update_ok c h e e' :
  cache_ok c → candidates c !! h = Some e →
  ce_block e' = ce_block e → ce_projection e' = ce_projection e → ce_tracked e' = ce_tracked e →
  ce_incarnation e' = ce_incarnation e →
  cache_ok (c <| candidates ::= insert h e' |>).
Proof.
  intros Hok He Hb Hp Ht Hi.
  assert (Hpe : has_projection e' ↔ has_projection e) by (unfold has_projection; by rewrite Hp).
  assert (Hcur : ∀ h', current_incarnation (c <| candidates ::= insert h e' |>) h' = current_incarnation c h').
  { intros h'. unfold current_incarnation. simpl.
    destruct (decide (h' = h)) as [->|]; simplify_map_eq; congruence. }
  assert (Hcp : ∀ i h', is_current_projection (c <| candidates ::= insert h e' |>) (i, h')
                        = is_current_projection c (i, h')).
  { intros i h'. unfold is_current_projection. simpl.
    destruct (decide (h' = h)) as [->|]; simplify_map_eq; [|done]. by rewrite Hi, Hp. }
  split; try (by apply Hok).
  - intros h' Hs. apply (ok_disjoint _ Hok). simpl in Hs.
    destruct (decide (h' = h)) as [->|]; simplify_map_eq; eauto.
  - intros h' e2. simpl. destruct (decide (h' = h)) as [->|]; simplify_map_eq; [|apply (ok_candidate _ Hok)].
    intros [= <-]. rewrite Hb, Ht, Hpe, Hp. by apply (ok_candidate _ Hok).
  - simpl. rewrite (ok_count _ Hok). f_equal. rewrite <- !size_dom. f_equal. apply set_eq.
    intros h'. rewrite !elem_of_dom, !projected_Some. simpl.
    destruct (decide (h' = h)) as [->|]; simplify_map_eq; naive_solver.
  - intros i h'. rewrite Hcur. apply (ok_metadata _ Hok).
  - intros i h'. rewrite Hcur, Hcp. apply (ok_projection _ Hok).
Qed.

Lemma entry_update_bounded c h e e' :
  queues_bounded c → candidates c !! h = Some e → queues_bounded (c <| candidates ::= insert h e' |>).
Proof.
  intros [Hm Hp Ht] He. split; [|done|done]. unfold metadata_len in *. simpl.
  by rewrite map_size_insert_Some.
Qed.

Lemma deferred_update_ok c h d d' :
  cache_ok c → deferred_executed c !! h = Some d →
  de_block d' = de_block d → de_incarnation d' = de_incarnation d →
  cache_ok (c <| deferred_executed ::= insert h d' |>).
Proof.
  intros Hok Hd Hb Hi.
  assert (Hcur : ∀ h', current_incarnation (c <| deferred_executed ::= insert h d' |>) h' = current_incarnation c h').
  { intros h'. unfold current_incarnation. simpl. destruct (candidates c !! h'); [done|].
    destruct (decide (h' = h)) as [->|]; simplify_map_eq; [|done]. simpl. congruence. }
  split; try (by apply Hok).
  - intros h' Hs. simpl in *. apply (ok_disjoint _ Hok) in Hs.
    destruct (decide (h' = h)) as [->|]; simplify_map_eq; done.
  - intros h' d2. simpl. destruct (decide (h' = h)) as [->|]; simplify_map_eq; [|apply (ok_deferred _ Hok)].
    intros [= <-]. rewrite Hb. by apply (ok_deferred _ Hok).
  - intros i h'. rewrite Hcur. apply (ok_metadata _ Hok).
  - intros i h'. rewrite Hcur. apply (ok_projection _ Hok).
Qed.

Lemma schedule_expiry_ok now retention h c :
  cache_ok c → queues_bounded c →
  cache_ok (schedule_expiry now retention h c) ∧ queues_bounded (schedule_expiry now retention h c).
Proof.
  intros Hok Hb. unfold schedule_expiry. destruct (_ =? _); [done|].
  destruct (candidates c !! h) as [e|] eqn:E.
  { split; [by eapply entry_update_ok|by eapply entry_update_bounded]. }
  destruct (deferred_executed c !! h) as [d|] eqn:Ed; [|done].
  split; [by eapply deferred_update_ok|]. destruct Hb as [Hm Hp Ht]. split; [|done|done].
  unfold metadata_len in *. simpl. by rewrite map_size_insert_Some.
Qed.

Lemma schedule_expiry_fields now retention h c :
  let c' := schedule_expiry now retention h c in
  next_incarnation c' = next_incarnation c ∧ cache_limit c' = cache_limit c ∧
  metadata_limit c' = metadata_limit c ∧ metadata_len c' = metadata_len c ∧
  projection_count c' = projection_count c ∧ canonical_hash c' = canonical_hash c.
Proof.
  cbv zeta. unfold schedule_expiry. destruct (_ =? _); [done|].
  destruct (candidates c !! h) as [e|] eqn:E.
  { split_and!; try done. unfold metadata_len. simpl. by rewrite map_size_insert_Some. }
  destruct (deferred_executed c !! h) as [d|] eqn:Ed; [|done].
  split_and!; try done. unfold metadata_len. simpl. by rewrite map_size_insert_Some.
Qed.

Lemma cache_ok_canonical c h : cache_ok c → cache_ok (c <| canonical_hash := h |>).
Proof. by intros []; split. Qed.

Lemma queues_bounded_canonical c h : queues_bounded c → queues_bounded (c <| canonical_hash := h |>).
Proof. by intros []; split. Qed.

Lemma single_cache_ok h b p stage fs i exp c0 :
  bm_hash b = h → pj_block p = b → i < next_incarnation c0 →
  candidates c0 = {[h := mkCandidateEntry b (Some p) stage true fs i exp]} →
  deferred_executed c0 = ∅ → projection_order c0 = [(i, h)] → metadata_order c0 = [(i, h)] →
  tombstones c0 = ∅ → tombstone_order c0 = [] → projection_count c0 = 1 →
  cache_ok c0 ∧ queues_bounded c0.
Proof.
  intros Hh Hp Hi Ec Ed Epo Emo Et Eto En.
  assert (Hcur : ∀ j h', current_incarnation c0 h' = Some j → j = i ∧ h' = h).
  { intros j h'. unfold current_incarnation. rewrite Ec, Ed.
    destruct (decide (h' = h)) as [->|]; simplify_map_eq; naive_solver. }
  assert (Hpr : projected c0 = {[h := mkCandidateEntry b (Some p) stage true fs i exp]}).
  { unfold projected. rewrite Ec. apply map_filter_singleton_True. by eexists. }
  split; split.
  - intros h' _. by rewrite Ed.
  - intros h' e. rewrite Ec. intros [<- <-]%lookup_singleton_Some.
    split_and!; [done| |by intros ? [= <-]]. split; [intros _; by eexists|done].
  - intros h' d. by rewrite Ed.
  - rewrite En, Hpr, map_size_singleton. done.
  - intros j h' [-> ->]%Hcur. rewrite Emo. left.
  - rewrite Emo. apply NoDup_singleton.
  - intros j h' [-> ->]%Hcur. rewrite Epo, list_elem_of_singleton, is_current_projection_iff, Ec.
    split; [|done]. intros _. eexists. split; [by rewrite lookup_singleton_eq|]. split; [done|by eexists].
  - rewrite Epo. apply NoDup_singleton.
  - intros j h'. rewrite Emo. by intros [= -> ->]%list_elem_of_singleton.
  - intros j h'. rewrite Epo. by intros [= -> ->]%list_elem_of_singleton.
  - intros h'. rewrite Et, Eto. set_solver.
  - rewrite Eto. constructor.
  - unfold metadata_len. rewrite Emo, Ec, Ed, map_size_singleton, map_size_empty. unfold len. simpl. lia.
  - rewrite Epo, En. unfold len. simpl. lia.
  - rewrite Et, size_empty. lia.
Qed.

Lemma reset_candidates_ok now retention p v c :
  next_incarnation c < u64_max →
  cache_ok (reset_candidates now retention p v c) ∧ queues_bounded (reset_candidates now retention p v c).
Proof.
  intros Hlt. unfold reset_candidates. rewrite allocate_incarnation_spec by done.
  apply (single_cache_ok (bm_hash (pj_block p)) (pj_block p) p CandidateValidated 0 (next_incarnation c)
           (now + retention)); simpl; done || lia.
Qed.

Lemma initial_cache_ok now retention l m p v :
  cache_ok (initial_cache now retention l m p v) ∧ queues_bounded (initial_cache now retention l m p v).
Proof.
  apply (single_cache_ok (bm_hash (pj_block p)) (pj_block p) p CandidateValidated 0 1 (now + retention));
    simpl; done || lia.
Qed.

(** ** Sizes only shrink *)

Lemma shrinks_count r c c' :
  cache_ok c → cache_ok c' → shrinks r c c' → projection_count c' ≤ projection_count c.
Proof.
  intros Hok Hok' Hs. rewrite (ok_count _ Hok), (ok_count _ Hok').
  assert (size (projected c') ≤ size (projected c))%nat; [|lia].
  rewrite <- !size_dom. apply subseteq_size. intros h. rewrite !elem_of_dom, !projected_Some.
  intros (e' & He' & Hp'). destruct (sk_candidate _ _ _ Hs _ _ He') as (e & He & _ & _ & _ & Hp).
  exists e. split; [done|]. unfold has_projection in *. destruct Hp as [Hp|Hp]; rewrite Hp in Hp'; [done|].
  by destruct Hp'.
Qed.

Lemma shrinks_len r c c' :
  cache_ok c → cache_ok c' → shrinks r c c' → metadata_len c' ≤ metadata_len c.
Proof.
  intros Hok Hok' Hs. rewrite !metadata_len_live by done.
  assert (size (live c') ≤ size (live c))%nat; [|lia].
  apply subseteq_size. unfold live. intros h. rewrite !elem_of_union, !elem_of_dom. intros [[e' He']|[d Hd]].
  - left. destruct (sk_candidate _ _ _ Hs _ _ He') as (e & He & _). eauto.
  - right. apply (sk_deferred _ _ _ Hs) in Hd. eauto.
Qed.

(** ** Subtree removal without the index *)

(** Whatever the index holds, removing a subtree ends and only loses entries. *)
Lemma remove_tree_loop_shrinks terminal fuel : ∀ pending c,
  cache_ok c → queues_bounded c → (length pending + children_total c < fuel)%nat →
  wp (remove_tree_loop fuel terminal pending)
    (returns (λ _ c', cache_ok c' ∧ queues_bounded c' ∧ ∃ r, shrinks r c c') (λ _, False)) c.
Proof.
  induction fuel as [|fuel IH]; intros pending c Hok Hb Hf; [lia|].
  destruct pending as [|hash pending]; cbn [remove_tree_loop].
  { apply wp_ret. split_and!; [done..|]. exists []. apply shrinks_refl. }
  wp_steps. set (c1 := c <| children_by_parent ::= delete hash |>).
  assert (Hok1 : cache_ok c1) by by apply cache_ok_children.
  eapply wp_call; [apply remove_one_wp; [by apply Hok1|by apply without_ok|apply Hb]| |done].
  intros t c2 (Hok2 & Hb2 & _ & Hs2 & _ & _ & Hch & _).
  eapply wp_total_mono; [apply IH; [done|done|]| |done].
  - unfold children_total in *. rewrite Hch, length_app, length_rev.
    pose proof (drop_entry_total hash c1 Hok1) as Ht.
    change (children_total c1) with (map_total (delete hash (children_by_parent c))) in Ht.
    rewrite (map_total_delete (children_by_parent c) hash) in Hf. simpl in Hf. lia.
  - intros _ c3 (Hok3 & Hb3 & r & Hs3). split_and!; [done..|]. eexists. eapply shrinks_trans; [|exact Hs3].
    destruct Hs2. by split.
Qed.

Lemma remove_candidate_tree_shrinks root terminal c :
  cache_ok c → queues_bounded c →
  wp (remove_candidate_tree root terminal)
    (returns (λ _ c', cache_ok c' ∧ queues_bounded c' ∧ ∃ r, shrinks r c c') (λ _, False)) c.
Proof.
  intros Hok Hb. unfold remove_candidate_tree. wp_steps. unfold id. destruct (_ =? _).
  - apply wp_ret. split_and!; [done..|]. exists []. apply shrinks_refl.
  - apply remove_tree_loop_shrinks; [done|done|]. simpl. lia.
Qed.

(** ** The operations on a well-formed cache *)

Lemma insert_candidate_entry_ok now retention projection stage first_sequence c :
  cache_ok c → queues_bounded c → next_incarnation c < u64_max →
  cache_ok (insert_candidate_entry now retention projection stage true first_sequence c) ∧
  queues_bounded (insert_candidate_entry now retention projection stage true first_sequence c).
Proof.
  intros Hok Hb Hlt.
  destruct (insert_candidate_entry_spec now retention projection stage first_sequence c Hok Hlt)
    as (e & fresh & gained & ch & sweep & -> & Hpl & _).
  split; [by apply placed_ok|by apply placed_bounded].
Qed.

(** Block 50 is canonical; 60 is its child and 70 its grandchild, one entry over both limits. *)
Definition sample_cache : Cache :=
  insert_candidate_entry 101 1000 (sample_projection 70 60 7 (replicate 96 0) [0]) CandidateExecuted true 2
    (insert_candidate_entry 100 1000 (sample_projection 60 50 6 (replicate 96 0) [0]) CandidateExecuted true 1
       (initial_cache 99 1000 2 2 (sample_projection 50 40 5 (replicate 96 0) [])
          {| fc_head := {| cp_number := 5; cp_hash := 50 |}; fc_safe := None; fc_finalized := None |})).

Lemma sample_cache_ok : cache_ok sample_cache ∧ queues_bounded sample_cache.
Proof.
  pose proof (initial_cache_ok 99 1000 2 2 (sample_projection 50 40 5 (replicate 96 0) [])
    {| fc_head := {| cp_number := 5; cp_hash := 50 |}; fc_safe := None; fc_finalized := None |}) as [H1 H2].
  destruct (insert_candidate_entry_ok 100 1000 (sample_projection 60 50 6 (replicate 96 0) [0]) CandidateExecuted 1
    _ H1 H2) as [H3 H4]; [reflexivity|].
  by apply insert_candidate_entry_ok.
Qed.

Lemma sample_index_sound : index_sound sample_cache.
Proof.
  intros p h. unfold kids.
  assert (children_by_parent sample_cache = {[ 60 := [70]; 50 := [60] ]}) as -> by (vm_compute; reflexivity).
  destruct (decide (p = 60)) as [->|]; [intros ->%list_elem_of_singleton; vm_compute; reflexivity|].
  destruct (decide (p = 50)) as [->|]; [intros ->%list_elem_of_singleton; vm_compute; reflexivity|].
  rewrite lookup_insert_ne, lookup_singleton_ne by done. by intros ?%not_elem_of_nil.
Qed.

(** C32: [remove_candidate_tree] returns and removes exactly the subtree: every candidate and
    deferred execution the parent index reaches from the root is gone, every other record is
    untouched, and the cache stays well formed. *)
Theorem remove_candidate_tree_exact root terminal c :
  cache_ok c → queues_bounded c → index_sound c → root ≠ canonical_hash c →
  ∃ c', remove_candidate_tree root terminal c = (Ok (), c') ∧
    cache_ok c' ∧ queues_bounded c' ∧ index_sound c' ∧
    (∀ h, below c root h → block_meta c' h = None) ∧
    (∀ h, ~ below c root h → candidates c' !! h = candidates c !! h ∧
                             deferred_executed c' !! h = deferred_executed c !! h).
Proof.
  intros Hok Hb Hs Hne.
  destruct (wp_total_inv _ _ _ _ (remove_candidate_tree_wp root terminal c Hok Hb Hs Hne))
    as [([] & c' & E & ?)|(? & ? & _ & [])].
  exists c'. naive_solver.
Qed.

Lemma remove_candidate_tree_exact_witness :
  ∃ c', remove_candidate_tree 60 true sample_cache = (Ok (), c') ∧ block_meta c' 70 = None.
Proof.
  destruct (remove_candidate_tree_exact 60 true sample_cache) as (c' & E & _ & _ & _ & Hgone & _).
  - apply sample_cache_ok.
  - apply sample_cache_ok.
  - apply sample_index_sound.
  - vm_compute. discriminate.
  - exists c'. split; [exact E|]. apply Hgone, rtc_once. vm_compute. left.
Defined.

Lemma trim_metadata_measure_fuel c : (trim_metadata_measure c < trim_metadata_fuel c)%nat.
Proof.
  unfold trim_metadata_measure, trim_metadata_fuel. destruct (metadata_order c); [simpl; lia|].
  destruct (_ && _); simpl; lia.
Qed.

(** C33: [trim_metadata] always returns without an error and reaches the metadata limit. The hashes
    it reports as retired are exactly those consumers were tracking and lost, each once; the
    canonical head's record is untouched and the cache stays well formed. *)
Theorem trim_metadata_exact c :
  cache_ok c → queues_bounded c → 0 < metadata_limit c →
  ∃ retired c', trim_metadata_loop (trim_metadata_fuel c) [] c = (Ok retired, c') ∧
    metadata_len c' ≤ metadata_limit c' ∧ cache_ok c' ∧ queues_bounded c' ∧
    NoDup retired ∧ (∀ h, h ∈ retired ↔ tracked c h ∧ ~ tracked c' h) ∧ keeps_canonical c c'.
Proof.
  intros Hok Hb Hpos.
  destruct (wp_total_inv _ _ _ _ (trim_metadata_loop_wp (trim_metadata_fuel c) [] c Hok Hb Hpos
    (trim_metadata_measure_fuel c)))
    as [(r & c' & E & more & -> & (H1 & H2 & [_ _ H3 H4 _ _] & H5) & H6)|(? & ? & _ & [])].
  exists more, c'. by split_and!.
Qed.

Lemma trim_metadata_exact_witness :
  ∃ retired c', trim_metadata_loop (trim_metadata_fuel sample_cache) [] sample_cache = (Ok retired, c') ∧
    metadata_len c' ≤ metadata_limit c'.
Proof.
  destruct (trim_metadata_exact sample_cache) as (r & c' & E & H & _).
  - apply sample_cache_ok.
  - apply sample_cache_ok.
  - vm_compute. reflexivity.
  - exists r, c'. split; [exact E|exact H].
Defined.

(** C34: [trim_projection_cache]'s loop always ends, with or without an error. When it succeeds the
    projection limit holds; either way only tracked candidates other than the canonical head lose
    their projection and the cache stays well formed. *)
Theorem trim_projection_returns inserted c :
  cache_ok c → queues_bounded c →
  ∃ o c' lost, trim_projection_loop (trim_projection_fuel c) inserted 0 [] c = (o, c') ∧ o ≠ Diverge ∧
    cache_ok c' ∧ queues_bounded c' ∧ keeps_canonical c c' ∧
    (∀ h, h ∈ lost ↔ tracked c h ∧ ~ tracked c' h) ∧
    (∀ retired, o = Ok retired → retired = lost ∧ projection_count c' ≤ cache_limit c').
Proof.
  intros Hok Hb.
  destruct (wp_total_inv _ _ _ _ (trim_projection_loop_wp inserted (length (projection_order c))
    (trim_projection_fuel c) 0 [] c Hok Hb ltac:(lia) ltac:(unfold trim_projection_fuel; simpl; lia)))
    as [(r & c' & E & more & -> & (H1 & H2 & [_ _ H3 _ _ _] & H5) & H6)
       |(e & c' & E & more & (H1 & H2 & [_ _ H3 _ _ _] & H5))];
    do 2 eexists; exists more; split_and!; try done. intros ? [= <-]. done.
Qed.

Lemma trim_projection_returns_witness :
  ∃ o c', trim_projection_loop (trim_projection_fuel sample_cache) 70 0 [] sample_cache = (o, c') ∧ o ≠ Diverge.
Proof.
  destruct (trim_projection_returns 70 sample_cache) as (o & c' & lost & E & H & _).
  - apply sample_cache_ok.
  - apply sample_cache_ok.
  - exists o, c'. split; [exact E|exact H].
Defined.

(** C35: One pass of [process_finality_budget] returns without an error, never does more work than
    its budget, reports exactly the tracked candidates it removed, and leaves the canonical head's
    record alone unless a walk suspended by an earlier pass had started there. *)
Theorem finality_pass_bounded budget c :
  cache_ok c → queues_bounded c →
  ∃ work retired c', finality_pass budget c = (Ok (work, retired), c') ∧ work ≤ budget ∧
    cache_ok c' ∧ queues_bounded c' ∧ NoDup retired ∧
    (∀ h, h ∈ retired ↔ tracked c h ∧ ~ tracked c' h) ∧
    ((∀ s, finality_sweep c = Some s → walk_safe c s) → keeps_canonical c c').
Proof.
  intros Hok Hb.
  destruct (wp_total_inv _ _ _ _ (finality_pass_wp budget c Hok Hb))
    as [([w r] & c' & E & (H1 & H2 & [_ _ H3 H4 _ _] & H5) & H6)|(? & ? & _ & [])].
  exists w, r, c'. by split_and!.
Qed.

Lemma finality_pass_bounded_witness :
  ∃ work retired c', finality_pass 1 (begin_finality_sweep {| cp_number := 6; cp_hash := 66 |} sample_cache) =
    (Ok (work, retired), c') ∧ work ≤ 1.
Proof.
  destruct (finality_pass_bounded 1 (begin_finality_sweep {| cp_number := 6; cp_hash := 66 |} sample_cache))
    as (w & r & c' & E & H & _).
  - apply cache_ok_sweep, sample_cache_ok.
  - destruct (proj2 sample_cache_ok). split; assumption.
  - exists w, r, c'. split; [exact E|exact H].
Defined.
