(* ===== verification/Metrics.v ===== *)
(** * The publisher's metrics (src/src/publisher.rs: PublisherMetrics)

    The counters, the gauges and the frame-size histogram, as the totals and
    samples handed to the recorder, which gets them as [f64]: exact below 2^53.
    Histograms of durations depend on the wall clock alone and are left out. *)

From S2P Require Import Prelude Bytes Wire Projection Cache.
From stdpp Require Import list.
Local Open Scope N_scope.

(** [frame_bytes] is the histogram's samples, oldest first. *)
Record PublisherMetrics := mkPublisherMetrics {
  frame_bytes : list N;
  published_frames : N;
  validated_events : N;
  executed_events : N;
  canonical_events : N;
  rejected_events : N;
  forkchoice_events : N;
  retired_candidates : N;
  snapshot_events : N;
  config_events : N;
  gap_events : N;
  candidate_parent_cache_misses : N;
  candidates_cached : N;
  candidate_projections_cached : N;
  config_generation : N;
}.
#[export] Instance eta_PublisherMetrics : Eta PublisherMetrics := λ m,
  mkPublisherMetrics (frame_bytes m) (published_frames m) (validated_events m) (executed_events m)
    (canonical_events m) (rejected_events m) (forkchoice_events m) (retired_candidates m) (snapshot_events m)
    (config_events m) (gap_events m) (candidate_parent_cache_misses m) (candidates_cached m)
    (candidate_projections_cached m) (config_generation m).

(** [PublisherMetrics::new]. *)
Definition metrics_new : PublisherMetrics := mkPublisherMetrics [] 0 0 0 0 0 0 0 0 0 0 0 0 0 0.

(** [PublisherMetrics::record_event]. *)
Definition record_event (event : wire.Event) (m : PublisherMetrics) : PublisherMetrics :=
  match event with
  | wire.EvBlockState state =>
      match wire.stage_try_from (wire.bs_stage state) with
      | Some wire.StageExecuted => m <| executed_events ::= N.add 1 |>
      | Some wire.StageValidated => m <| validated_events ::= N.add 1 |>
      | _ => m
      end
  | wire.EvBlockValidated _ => m <| validated_events ::= N.add 1 |>
  | wire.EvCanonicalHead _ => m <| canonical_events ::= N.add 1 |>
  | wire.EvSnapshot _ => m <| snapshot_events ::= N.add 1 |>
  | wire.EvConfigActivated _ => m <| config_events ::= N.add 1 |>
  | wire.EvGap _ => m <| gap_events ::= N.add 1 |>
  | wire.EvBlockRejected _ => m <| rejected_events ::= N.add 1 |>
  | wire.EvForkchoiceApplied _ => m <| forkchoice_events ::= N.add 1 |>
  | wire.EvCandidatesRetired event => m <| retired_candidates ::= N.add (len (wire.rt_block_hashes event)) |>
  | wire.EvHello _ => m
  end.

(** What [publish_inner] records for an encoded frame; its envelope always has an event. *)
Definition record_frame (envelope : wire.Envelope) (frame : bytes) (m : PublisherMetrics) : PublisherMetrics :=
  let m := match wire.event envelope with Some event => record_event event m | None => m end in
  m <| frame_bytes ::= λ l, l ++ [len frame] |> <| published_frames ::= N.add 1 |>.

(** [update_candidate_metric]. *)
Definition set_candidate_metric (c : Cache) (m : PublisherMetrics) : PublisherMetrics :=
  m <| candidates_cached := metadata_len c |> <| candidate_projections_cached := projection_count c |>.

(** ** What the counters should say *)

(** Whether a frame counts under a label of [statefeed.events.total]. *)
Definition counted_executed (e : wire.Event) : bool :=
  match e with wire.EvBlockState s => wire.bs_stage s =? wire.stage_i32 wire.StageExecuted | _ => false end.
Definition counted_validated (e : wire.Event) : bool :=
  match e with
  | wire.EvBlockState s => wire.bs_stage s =? wire.stage_i32 wire.StageValidated
  | wire.EvBlockValidated _ => true
  | _ => false
  end.
Definition counted_canonical (e : wire.Event) : bool := match e with wire.EvCanonicalHead _ => true | _ => false end.
Definition counted_rejected (e : wire.Event) : bool := match e with wire.EvBlockRejected _ => true | _ => false end.
Definition counted_forkchoice (e : wire.Event) : bool := match e with wire.EvForkchoiceApplied _ => true | _ => false end.
Definition counted_snapshot (e : wire.Event) : bool := match e with wire.EvSnapshot _ => true | _ => false end.
Definition counted_config (e : wire.Event) : bool := match e with wire.EvConfigActivated _ => true | _ => false end.
Definition counted_gap (e : wire.Event) : bool := match e with wire.EvGap _ => true | _ => false end.

(** The hashes a frame retires. *)
Definition retired_hashes (e : wire.Event) : list bytes :=
  match e with wire.EvCandidatesRetired r => wire.rt_block_hashes r | _ => [] end.

(** The number of events of a kind. *)
Definition count_events (kind : wire.Event → bool) (es : list wire.Event) : N := len (filter (λ e, kind e = true) es).

(** The totals are those of the frames sent: each an event and an encoded size. *)
Record tally (m : PublisherMetrics) (sent : list (wire.Event * N)) : Prop := {
  ta_sizes : frame_bytes m = sent.*2;
  ta_frames : published_frames m = len sent;
  ta_executed : executed_events m = count_events counted_executed sent.*1;
  ta_validated : validated_events m = count_events counted_validated sent.*1;
  ta_canonical : canonical_events m = count_events counted_canonical sent.*1;
  ta_rejected : rejected_events m = count_events counted_rejected sent.*1;
  ta_forkchoice : forkchoice_events m = count_events counted_forkchoice sent.*1;
  ta_snapshot : snapshot_events m = count_events counted_snapshot sent.*1;
  ta_config : config_events m = count_events counted_config sent.*1;
  ta_gap : gap_events m = count_events counted_gap sent.*1;
  ta_retired : retired_candidates m = len (sent.*1 ≫= retired_hashes);
}.

Lemma tally_new : tally metrics_new [].
Proof. done. Qed.

Lemma count_snoc kind es e : count_events kind (es ++ [e]) = (if kind e then 1 else 0) + count_events kind es.
Proof.
  unfold count_events, len. rewrite filter_app, length_app, filter_cons, filter_nil. destruct (kind e); case_decide; simpl; try done; lia.
Qed.

Lemma stage_try_from_eqb n s : wire.stage_try_from n = Some s ↔ n = wire.stage_i32 s.
Proof.
  unfold wire.stage_try_from. split; [|intros ->; by destruct s].
  destruct (N.eqb_spec n 0), (N.eqb_spec n 1), (N.eqb_spec n 2); intros [= <-]; done.
Qed.

(** Every event is counted under its kinds and no other. *)
Lemma record_event_counts e m :
  let m' := record_event e m in
  let by_kind (kind : wire.Event → bool) (n : N) := (if kind e then 1 else 0) + n in
  frame_bytes m' = frame_bytes m ∧ published_frames m' = published_frames m ∧
  executed_events m' = by_kind counted_executed (executed_events m) ∧
  validated_events m' = by_kind counted_validated (validated_events m) ∧
  canonical_events m' = by_kind counted_canonical (canonical_events m) ∧
  rejected_events m' = by_kind counted_rejected (rejected_events m) ∧
  forkchoice_events m' = by_kind counted_forkchoice (forkchoice_events m) ∧
  snapshot_events m' = by_kind counted_snapshot (snapshot_events m) ∧
  config_events m' = by_kind counted_config (config_events m) ∧ gap_events m' = by_kind counted_gap (gap_events m) ∧
  retired_candidates m' = len (retired_hashes e) + retired_candidates m.
Proof.
  cbv zeta. destruct e as [| | |s| | | | | |]; try by split_and!. simpl.
  destruct (wire.stage_try_from (wire.bs_stage s)) as [st|] eqn:E.
  - apply stage_try_from_eqb in E as ->. by destruct st; split_and!.
  - assert (Hne : ∀ st, (wire.bs_stage s =? wire.stage_i32 st) = false).
    { intros st. apply N.eqb_neq. intros Hs%stage_try_from_eqb. congruence. }
    pose proof (Hne wire.StageExecuted) as H1. pose proof (Hne wire.StageValidated) as H2. simpl in H1, H2.
    rewrite H1, H2. by split_and!.
Qed.

Lemma tally_record e frame envelope m sent :
  wire.event envelope = Some e → tally m sent → tally (record_frame envelope frame m) (sent ++ [(e, len frame)]).
Proof.
  intros He []. destruct (record_event_counts e m) as (R1 & R2 & R3 & R4 & R5 & R6 & R7 & R8 & R9 & R10 & R11).
  unfold record_frame. rewrite He. cbv zeta.
  split; simpl; rewrite ?fmap_app, ?bind_app, ?R1, ?R2, ?R3, ?R4, ?R5, ?R6, ?R7, ?R8, ?R9, ?R10, ?R11; simpl;
    rewrite ?count_snoc; try congruence.
  - unfold len in *. rewrite length_app. simpl. lia.
  - unfold len in *. rewrite length_app, app_nil_r. lia.
Qed.

(** What does not touch the totals keeps the tally. *)
Lemma tally_gauges m sent misses cached projections generation :
  tally m sent → tally (m <| candidate_parent_cache_misses := misses |> <| candidates_cached := cached |>
    <| candidate_projections_cached := projections |> <| config_generation := generation |>) sent.
Proof. by intros []. Qed.
