(* ===== verification/Publisher.v ===== *)
(** * The publisher (src/src/publisher.rs: Shared, Publisher, the publisher thread)

    The shared stream state, every handler of the publisher thread, recovery,
    and one pass of the thread's loop.  The provider, the protobuf codec, the
    clock, the hasher and the shutdown channel are the class [Env]. *)

From S2P Require Import Prelude Bytes Config Watch Feed Wire Projection Cache Metrics.
From stdpp Require Import list.
Local Open Scope N_scope.

(** The world the publisher thread runs in.  Readings of the clock, provider calls and polls of
    the shutdown channel are numbered by the publisher's tick counter. *)
Class Env := {
  env_source :: SnapshotSource;
  env_prost :: Prost;
  env_iter :: HashIter;
  env_clock : nat → N;
  env_shutdown : nat → N → bool;
}.

Record PublishedState := mkPublishedState {
  ps_canonical : Projection;
  ps_forkchoice : option ForkchoiceMeta;
  ps_effective_sequence : N;
  ps_recovering : bool;
}.

(** A broadcast frame.  The envelope it encodes and the handshake state stored when it was sent
    are kept beside its bytes. *)
Record PublishedFrame := mkPublishedFrame {
  pf_sequence : N;
  pf_envelope : wire.Envelope;
  pf_state : PublishedState;
  pf_bytes : bytes;
}.

(** [sh_frames] is every frame sent so far, oldest first. *)
Record Shared := mkShared {
  sh_boot_id : bytes;
  sh_chain_id : N;
  sh_genesis_hash : B256;
  sh_started_at : N;
  sh_sequence : N;
  sh_published_sequence : N;
  sh_max_frame_bytes : N;
  sh_capabilities : N;
  sh_published : PublishedState;
  sh_frames : list PublishedFrame;
  sh_metrics : PublisherMetrics;
}.
#[export] Instance eta_Shared : Eta Shared := λ r,
  mkShared (sh_boot_id r) (sh_chain_id r) (sh_genesis_hash r) (sh_started_at r) (sh_sequence r)
    (sh_published_sequence r) (sh_max_frame_bytes r) (sh_capabilities r)
    (sh_published r) (sh_frames r) (sh_metrics r).

Definition BASE_CAPABILITIES : N :=
  N.lor (N.lor (N.lor (N.lor (N.lor wire.CAP_FULL_PROJECTIONS wire.CAP_VALIDATED)
    wire.CAP_CANONICAL) wire.CAP_REJECTED) wire.CAP_FORKCHOICE_APPLIED) wire.CAP_CANDIDATE_RETIREMENT.

Definition advertised_capabilities (publish_executed : bool) : N :=
  N.lor BASE_CAPABILITIES (if publish_executed then wire.CAP_EXECUTED else 0).

Record CandidatePolicy := {
  projection_limit : N;
  policy_metadata_limit : N;
  retention : N;
  work_budget : N;
}.

Definition candidate_policy (s : StreamConfig) : CandidatePolicy :=
  {| projection_limit := candidate_cache_blocks s;
     policy_metadata_limit := candidate_metadata_entries s;
     retention := candidate_retention s;
     work_budget := retirement_work_budget s |}.

Record Publisher := mkPublisher {
  pb_active : WatchSet;
  pb_shared : Shared;
  pb_cache : Cache;
  pb_policy : CandidatePolicy;
  snapshot_anchored_at : N;
  pb_tick : nat;
}.
#[export] Instance eta_Publisher : Eta Publisher := λ r,
  mkPublisher (pb_active r) (pb_shared r) (pb_cache r) (pb_policy r) (snapshot_anchored_at r)
    (pb_tick r).

Abbreviation P := (M Publisher Error) (only parsing).

Definition published (p : Publisher) : PublishedState := sh_published (pb_shared p).
Definition canonical_projection (p : Publisher) : Projection := ps_canonical (published p).
Definition active_generation (p : Publisher) : N := ws_generation (pj_watch_set (canonical_projection p)).

Definition on_cache {A} (m : M Cache Error A) : P A := λ p,
  let '(o, c) := m (pb_cache p) in (o, p <| pb_cache := c |>).

(** Recording into the shared metrics. *)
Definition measured (f : Cache → PublisherMetrics → PublisherMetrics) (p : Publisher) : Publisher :=
  p <| pb_shared ::= λ sh, sh <| sh_metrics ::= f (pb_cache p) |> |>.
Definition on_metrics (f : Cache → PublisherMetrics → PublisherMetrics) : P () := modify (measured f).

Definition update_candidate_metric : P () := on_metrics set_candidate_metric.

Definition returning {A} (r : A + Error) : P A :=
  match r with inl a => mret a | inr e => throw e end.

(** Runs [m]; after an error the handler runs in the state the error left behind. *)
Definition catch {A} (m : P A) (handler : Error → P A) : P A := λ p,
  match m p with
  | (Err e, p') => handler e p'
  | r => r
  end.

Fixpoint chunks_aux {A} (fuel : nat) (n : nat) (l : list A) : list (list A) :=
  match fuel, l with
  | S fuel, _ :: _ => take n l :: chunks_aux fuel n (drop n l)
  | _, _ => []
  end.

(** [slice::chunks]: the last chunk may be shorter. *)
Definition chunks {A} (n : nat) (l : list A) : list (list A) := chunks_aux (length l) n l.

Section publisher.
Context `{Env}.

(** [Instant::now()]. *)
Definition now : P N := λ p, (Ok (env_clock (pb_tick p)), p <| pb_tick ::= S |>).

Definition call_load_latest (ws : WatchSet) : P (CanonicalSnapshot + Error) := λ p,
  (Ok (load_latest (pb_tick p) ws), p <| pb_tick ::= S |>).
Definition call_load_at (ws : WatchSet) (hash : B256) : P (Projection + Error) := λ p,
  (Ok (load_at (pb_tick p) ws hash), p <| pb_tick ::= S |>).

(** ** The shared stream *)

(** [Shared::monotonic_ns]. *)
Definition monotonic_ns : P N :=
  t ← now;
  started_at ← gets (λ p, sh_started_at (pb_shared p));
  mret (N.min (t - started_at) u64_max).

(** [Shared::envelope]. *)
Definition make_envelope (sh : Shared) (sequence generation ns : N) (event : wire.Event) : wire.Envelope :=
  {| wire.protocol_version := wire.PROTOCOL_VERSION;
     wire.boot_id := sh_boot_id sh;
     wire.sequence := sequence;
     wire.config_generation := generation;
     wire.emitted_at_monotonic_ns := ns;
     wire.event := Some event |}.

(** The commit at the end of [publish_inner]: metrics, handshake state, baseline, frame. *)
Definition commit_frame (sequence : N) (envelope : wire.Envelope) (frame : bytes)
    (next_state : option (Projection * option ForkchoiceMeta * bool)) (sh : Shared) : Shared :=
  let published :=
    match next_state with
    | Some (canonical, forkchoice, recovering) => mkPublishedState canonical forkchoice sequence recovering
    | None => sh_published sh
    end in
  sh <| sh_metrics ::= record_frame envelope frame |>
     <| sh_published := published |> <| sh_published_sequence := sequence |>
     <| sh_frames ::= λ l, l ++ [mkPublishedFrame sequence envelope published frame] |>.

(** [Shared::publish_inner]. *)
Definition publish_inner (generation : N) (event : wire.Event)
    (next_state : option (Projection * option ForkchoiceMeta * bool)) : P N :=
  modify (λ p, p <| pb_shared ::= λ sh,
    sh <| sh_sequence ::= λ n, wrapping_add n 1 |> |>) ;;
  sequence ← gets (λ p, sh_sequence (pb_shared p));
  ns ← monotonic_ns;
  sh ← gets pb_shared;
  let envelope := make_envelope sh sequence generation ns event in
  frame ← lift (match encode_frame envelope (sh_max_frame_bytes sh) with
                | Ok f => Ok f | Err e => Err (EncodeFailed e) | Diverge => Diverge end);
  modify (λ p, p <| pb_shared ::= commit_frame sequence envelope frame next_state |>) ;;
  mret sequence.

Definition publish (generation : N) (event : wire.Event) : P N :=
  publish_inner generation event None.

Definition publish_state (generation : N) (event : wire.Event) (canonical : Projection)
    (forkchoice : option ForkchoiceMeta) (recovering : bool) : P N :=
  publish_inner generation event (Some (canonical, forkchoice, recovering)).

(** [validate_event_frame]: maximum-width sequence and timestamp. *)
Definition validate_event_frame (sh : Shared) (generation : N) (event : wire.Event) : outcome Error () :=
  match encode_frame (make_envelope sh u64_max generation u64_max event) (sh_max_frame_bytes sh) with
  | Ok _ => Ok () | Err e => Err (EncodeFailed e) | Diverge => Diverge
  end.

(** [validate_projection_frames]. *)
Definition validate_projection_frames (sh : Shared) (p : Projection) (v : ForkchoiceMeta) : outcome Error () :=
  validate_projection_shape p ;;
  let generation := ws_generation (pj_watch_set p) in
  let full_bitmap := replicate (N.to_nat (bitmap_len (pj_watch_set p))) 255 in
  let worst_case_block :=
    {| wire.bs_stage := wire.stage_i32 wire.StageValidated;
       wire.bs_block := Some (block_ref (pj_block p));
       wire.bs_values := pj_values p;
       wire.bs_changed_bitmap := full_bitmap |} in
  let canonical :=
    {| wire.ch_previous_block_hash := to_vec 0;
       wire.ch_block := Some (block_ref (pj_block p));
       wire.ch_values := pj_values p;
       wire.ch_changed_bitmap := full_bitmap |} in
  validate_event_frame sh generation (wire.EvSnapshot (snapshot p v)) ;;
  validate_event_frame sh generation (wire.EvBlockState worst_case_block) ;;
  validate_event_frame sh generation (wire.EvCanonicalHead canonical).

Definition hello (sh : Shared) : wire.Hello :=
  {| wire.service_version := "0.1.0";
     wire.chain_id := sh_chain_id sh;
     wire.genesis_hash := to_vec (sh_genesis_hash sh);
     wire.capabilities := sh_capabilities sh |}.

(** [validate_handshake_frames]. *)
Definition validate_handshake_frames (sh : Shared) (p : Projection) (v : ForkchoiceMeta) : outcome Error () :=
  let generation := ws_generation (pj_watch_set p) in
  validate_event_frame sh generation (wire.EvHello (hello sh)) ;;
  validate_event_frame sh generation (wire.EvConfigActivated (config_activated (pj_watch_set p))) ;;
  validate_projection_frames sh p v.

(** ** Retirement and cache limits *)

Fixpoint publish_batches (generation : N) (reason : wire.RetirementReason)
    (batches : list (list B256)) : P () :=
  match batches with
  | [] => mret ()
  | batch :: batches =>
      publish generation (wire.EvCandidatesRetired
        {| wire.rt_block_hashes := to_vec <$> batch; wire.rt_reason := wire.reason_i32 reason |}) ;;
      publish_batches generation reason batches
  end.

Definition batch_size (max_frame_bytes : N) : N :=
  N.max (N.max (saturating_sub max_frame_bytes 256) 32 / 34) 1.

(** [publish_retired]. *)
Definition publish_retired (generation : N) (hashes : list B256) (reason : wire.RetirementReason) : P () :=
  if decide (hashes = []) then mret ()
  else
    limit ← gets (λ p, sh_max_frame_bytes (pb_shared p));
    publish_batches generation reason (chunks (N.to_nat (batch_size limit)) hashes).

Definition trim_projection_cache (generation : N) (inserted : B256) : P () :=
  c ← gets pb_cache;
  retired ← on_cache (trim_projection_loop (trim_projection_fuel c) inserted 0 []);
  publish_retired generation retired wire.CacheEvicted.

Definition trim_metadata (generation : N) : P () :=
  c ← gets pb_cache;
  retired ← on_cache (trim_metadata_loop (trim_metadata_fuel c) []);
  publish_retired generation retired wire.CacheEvicted.

(** [insert_candidate]. *)
Definition insert_candidate (projection : Projection) (stage : CandidateStage) (tracked : bool)
    (first_sequence : N) : P () :=
  let generation := ws_generation (pj_watch_set projection) in
  t ← now;
  retention ← gets (λ p, retention (pb_policy p));
  modify (λ p, p <| pb_cache ::=
    insert_candidate_entry t retention projection stage tracked first_sequence |>) ;;
  trim_projection_cache generation (bm_hash (pj_block projection)) ;;
  trim_metadata generation ;;
  update_candidate_metric.

(** [insert_deferred_executed]. *)
Definition insert_deferred_executed (block : BlockMeta) (changes : BlockChanges) : P () :=
  c ← gets pb_cache;
  if decide (bm_hash block ∈ tombstones c) then mret ()
  else if decide (is_Some (candidates c !! bm_hash block)) then mret ()
  else
    t ← now;
    retention ← gets (λ p, retention (pb_policy p));
    modify (λ p, p <| pb_cache ::= insert_deferred_entry t retention block changes |>) ;;
    generation ← gets active_generation;
    trim_metadata generation ;;
    update_candidate_metric.

(** [process_finality_budget]; without a sweep it returns at once. *)
Definition process_finality_budget (generation budget : N) : P N :=
  sweep ← gets (λ p, finality_sweep (pb_cache p));
  '(work, retired) ← on_cache (finality_pass budget);
  publish_retired generation retired wire.FinalizedConflict ;;
  match sweep with None => mret () | Some _ => update_candidate_metric end ;;
  mret work.

(** The removal loop of [maintain]: the due hashes whose tracking ended. *)
Fixpoint remove_due (due : list B256) : M Cache Error (list B256) :=
  match due with
  | [] => mret []
  | hash :: due =>
      tracked ← remove_one hash false;
      expired ← remove_due due;
      mret (if tracked : bool then hash :: expired else expired)
  end.

(** The hashes [maintain] expires: candidates first, then deferred executions. *)
Definition due_hashes (c : Cache) (now ttl_budget : N) : list B256 :=
  let budget := N.to_nat ttl_budget in
  let due_candidates := take budget (fst <$> filter (λ entry : N * CandidateEntry,
      entry.1 ≠ canonical_hash c ∧ ce_expires_at entry.2 ≤ now) (hash_iter (candidates c))) in
  let due_deferred := take (budget - length due_candidates) (fst <$> filter (λ entry : N * DeferredExecuted,
      entry.1 ≠ canonical_hash c ∧ de_expires_at entry.2 ≤ now) (hash_iter (deferred_executed c))) in
  due_candidates ++ due_deferred.

(** [maintain]. *)
Definition maintain : P () :=
  t ← now;
  generation ← gets active_generation;
  budget ← gets (λ p, work_budget (pb_policy p));
  finality_work ← process_finality_budget generation budget;
  let ttl_budget := saturating_sub budget finality_work in
  c ← gets pb_cache;
  expired ← on_cache (remove_due (due_hashes c t ttl_budget));
  publish_retired generation expired wire.RetentionExpired ;;
  update_candidate_metric.

(** ** Candidate lifecycle *)

(** [promote_validated]; [project] is [project_candidate], which it calls for a deferred
    execution. *)
Definition promote_validated_with (project : N → BlockMeta → BlockChanges → CandidateStage → P bool)
    (generation : N) (block_hash : B256) : P bool :=
  active ← gets active_generation;
  if generation <? active then mret false
  else if active <? generation then throw (GenerationAhead generation active)
  else
    c ← gets pb_cache;
    match candidates c !! block_hash with
    | Some candidate =>
        let validated := candidate <| ce_stage := CandidateValidated |> in
        if decide (ce_stage candidate = CandidateValidated) then mret false
        else match ce_projection candidate with
        | None =>
            modify (λ p, p <| pb_cache ::= λ c, c <| candidates ::= insert block_hash validated |> |>) ;;
            mret false
        | Some projection =>
            if negb (ws_generation (pj_watch_set projection) =? generation) then mret false
            else
              publish generation (wire.EvBlockValidated {| wire.bv_block_hash := to_vec block_hash |}) ;;
              modify (λ p, p <| pb_cache ::= λ c, c <| candidates ::= insert block_hash validated |> |>) ;;
              mret true
        end
    | None =>
        match deferred_executed c !! block_hash with
        | None => mret false
        | Some deferred => project generation (de_block deferred) (de_changes deferred) CandidateValidated
        end
    end.

(** The base values of a candidate: its cached parent, or (once validated) the provider's parent
    projection.  [None] means nothing is to be published for the block. *)
Definition parent_values (ws : WatchSet) (generation : N) (block : BlockMeta) (changes : BlockChanges)
    (stage : CandidateStage) : P (option bytes) :=
  c ← gets pb_cache;
  match candidates c !! bm_parent_hash block ≫= ce_projection with
  | Some parent =>
      expected_number ← lift (ok_or (checked_add (bm_number (pj_block parent)) 1)
                                (ParentNumberOverflow (bm_hash block)));
      if negb (bm_number block =? expected_number) then throw (InvalidAncestry (bm_hash block))
      else if negb (ws_generation (pj_watch_set parent) =? generation)
              || negb (len (pj_values parent) =? saturating_mul (ws_len ws) 32)
      then throw (GenerationMismatch (bm_hash block))
      else mret (Some (pj_values parent))
  | None =>
      on_metrics (λ _ m, m <| candidate_parent_cache_misses ::= N.add 1 |>) ;;
      if decide (stage = CandidateExecuted) then
        insert_deferred_executed block changes ;;
        mret None
      else
        loaded ← call_load_at ws (bm_parent_hash block);
        match loaded with
        | inr _ => mret None
        | inl projection =>
            lift (validate_projection_dictionary projection ws) ;;
            expected_number ← lift (ok_or (checked_add (bm_number (pj_block projection)) 1)
                                      (ParentNumberOverflow (bm_hash block)));
            if negb (bm_hash (pj_block projection) =? bm_parent_hash block)
               || negb (expected_number =? bm_number block)
            then throw (ParentProjectionMismatch (bm_hash block))
            else
              lift (validate_projection_shape projection) ;;
              mret (Some (pj_values projection))
        end
  end.

(** The end of [project_candidate]: delta, publication, insertion. *)
Definition publish_candidate (ws : WatchSet) (generation : N) (block : BlockMeta)
    (changes : BlockChanges) (stage : CandidateStage) (values : bytes) : P bool :=
  '(values, changed_bitmap) ← lift (apply_changes changes values (zero_bitmap ws));
  let projection :=
    {| pj_block := block; pj_watch_set := ws; pj_values := values; pj_changed_bitmap := changed_bitmap |} in
  first_sequence ← publish generation (wire.EvBlockState (block_state projection (stage_wire stage)));
  insert_candidate projection stage true first_sequence ;;
  mret true.

(** [project_candidate].  It and [promote_validated] call each other at most once: a deferred
    hash is never a candidate. *)
Fixpoint project_candidate_aux (depth : nat) (generation : N) (block : BlockMeta)
    (changes : BlockChanges) (stage : CandidateStage) : P bool :=
  match depth with
  | O => diverge
  | S depth =>
      projection ← gets canonical_projection;
      let watch_set := pj_watch_set projection in
      let canonical_number := bm_number (pj_block projection) in
      let active := ws_generation watch_set in
      let project_new :=
        c ← gets pb_cache;
        if (bm_number block <=? canonical_number)
           && bool_decide (candidates c !! bm_parent_hash block = None)
        then mret false
        else
          values ← parent_values watch_set generation block changes stage;
          match values with
          | None => mret false
          | Some values => publish_candidate watch_set generation block changes stage values
          end in
      if generation <? active then mret false
      else if active <? generation then throw (GenerationAhead generation active)
      else
        c ← gets pb_cache;
        if decide (bm_hash block ∈ tombstones c) then mret false
        else match candidates c !! bm_hash block with
        | Some candidate =>
            if decide (ce_block candidate ≠ block) then throw (InconsistentMetadata (bm_hash block))
            else if decide (is_Some (ce_projection candidate)) then
              if decide (stage = CandidateValidated ∧ ce_stage candidate = CandidateExecuted)
              then promote_validated_with (project_candidate_aux depth) generation (bm_hash block)
              else mret false
            else project_new
        | None => project_new
        end
  end.

Definition project_candidate : N → BlockMeta → BlockChanges → CandidateStage → P bool :=
  project_candidate_aux 2.
Definition promote_validated : N → B256 → P bool := promote_validated_with project_candidate.

(** [remove_candidate_tree] and its metric, which the early return for the canonical head skips. *)
Definition remove_tree (root : B256) (consensus_terminal : bool) : P () :=
  head ← gets (λ p, canonical_hash (pb_cache p));
  on_cache (remove_candidate_tree root consensus_terminal) ;;
  if root =? head then mret () else update_candidate_metric.

(** [rejected]. *)
Definition rejected (generation : N) (block_hash : B256) (reason : string) : P bool :=
  active ← gets active_generation;
  if generation <? active then mret false
  else if active <? generation then throw (GenerationAhead generation active)
  else
    c ← gets pb_cache;
    let rejectable :=
      match candidates c !! block_hash with
      | Some candidate => bool_decide (ce_stage candidate = CandidateExecuted)
      | None => false
      end || bool_decide (is_Some (deferred_executed c !! block_hash)) in
    if negb rejectable then mret false
    else
      publish generation (wire.EvBlockRejected
        {| wire.rj_block_hash := to_vec block_hash; wire.rj_reason := reason |}) ;;
      remove_tree block_hash true ;;
      mret true.

(** ** Canonical head and forkchoice *)

(** The projection [canonical] publishes for a new head. *)
Definition canonical_source (generation active : N) (ws : WatchSet) (block_hash : B256) : P Projection :=
  c ← gets pb_cache;
  match (if generation =? active then candidates c !! block_hash ≫= ce_projection else None) with
  | Some projection => mret projection
  | None =>
      loaded ← call_load_at ws block_hash;
      returning loaded
  end.

(** The cache updates after the [CanonicalHead] frame. *)
Definition commit_canonical (now retention sequence : N) (previous block_hash : B256) (c : Cache) : Cache :=
  let c := schedule_expiry now retention previous (c <| canonical_hash := block_hash |>) in
  match candidates c !! block_hash with
  | Some candidate =>
      if ce_first_sequence candidate =? 0
      then c <| candidates ::= insert block_hash (candidate <| ce_first_sequence := sequence |>) |>
      else c
  | None => c
  end.

(** [canonical]. *)
Definition canonical (generation observed_at : N) (expected_block_number : option N)
    (block_hash : B256) : P bool :=
  active ← gets active_generation;
  if active <? generation then throw (GenerationAhead generation active)
  else
    anchored_at ← gets snapshot_anchored_at;
    if observed_at <=? anchored_at then mret false
    else
      previous_projection ← gets canonical_projection;
      if block_hash =? bm_hash (pj_block previous_projection) then mret false
      else
        projection ← canonical_source generation active (pj_watch_set previous_projection) block_hash;
        lift (validate_projection_dictionary projection (pj_watch_set previous_projection)) ;;
        if negb (bm_hash (pj_block projection) =? block_hash)
           || match expected_block_number with
              | Some number => negb (bm_number (pj_block projection) =? number)
              | None => false
              end
        then throw (CanonicalIdentityMismatch block_hash)
        else
          lift (validate_projection_shape projection) ;;
          changed_bitmap ← lift (canonical_changed_bitmap previous_projection projection);
          previous ← gets (λ p, canonical_hash (pb_cache p));
          insert_candidate projection CandidateValidated true 0 ;;
          sequence ← publish_state (ws_generation (pj_watch_set projection))
            (wire.EvCanonicalHead
               {| wire.ch_previous_block_hash := to_vec previous;
                  wire.ch_block := Some (block_ref (pj_block projection));
                  wire.ch_values := pj_values projection;
                  wire.ch_changed_bitmap := changed_bitmap |})
            projection None false;
          t ← now;
          retention ← gets (λ p, retention (pb_policy p));
          modify (λ p, p <| pb_cache ::= commit_canonical t retention sequence previous block_hash |>) ;;
          mret true.

(** [forkchoice_applied]. *)
Definition forkchoice_applied (generation observed_at : N) (applied : AppliedForkchoiceMeta) : P bool :=
  active ← gets active_generation;
  if active <? generation then throw (GenerationAhead generation active)
  else
    anchored_at ← gets snapshot_anchored_at;
    if observed_at <=? anchored_at then mret false
    else
      head ← gets (λ p, canonical_hash (pb_cache p));
      (if negb (head =? af_head_hash applied)
       then canonical generation observed_at None (af_head_hash applied) ;; mret ()
       else mret ()) ;;
      projection ← gets canonical_projection;
      if negb (bm_hash (pj_block projection) =? af_head_hash applied)
      then throw (ForkchoiceHeadMismatch (af_head_hash applied))
      else
        let active := ws_generation (pj_watch_set projection) in
        let view := resolve applied (bm_number (pj_block projection)) in
        lift (validate_forkchoice_checkpoints view) ;;
        publish_state active
          (wire.EvForkchoiceApplied {| wire.fa_view := Some (forkchoice_view view) |})
          projection (Some view) false ;;
        c ← gets pb_cache;
        match fc_finalized view with
        | Some finalized =>
            if decide (Some finalized ≠ last_finalized c) then
              modify (λ p, p <| pb_cache ::= λ c,
                begin_finality_sweep finalized (c <| last_finalized := Some finalized |>) |>) ;;
              budget ← gets (λ p, work_budget (pb_policy p));
              process_finality_budget active budget ;;
              mret true
            else mret true
        | None => mret true
        end.

(** ** Gaps, anchors, reloads *)

(** [announce_gap]. *)
Definition announce_gap (reason : string) : P () :=
  projection ← gets canonical_projection;
  last_contiguous_sequence ← gets (λ p, sh_published_sequence (pb_shared p));
  publish_state (ws_generation (pj_watch_set projection))
    (wire.EvGap {| wire.gap_last_contiguous_sequence := last_contiguous_sequence;
                   wire.gap_reason := reason |})
    projection None true ;;
  mret ().

(** Installing a loaded snapshot as the new anchor. *)
Definition install_anchor (loaded : CanonicalSnapshot) : P () :=
  modify (λ p, p <| snapshot_anchored_at := cs_anchored_at loaded |>) ;;
  t ← now;
  retention ← gets (λ p, retention (pb_policy p));
  modify (λ p, p <| pb_cache ::=
    reset_candidates t retention (cs_projection loaded) (cs_forkchoice loaded) |>) ;;
  update_candidate_metric.

(** [reanchor]. *)
Definition reanchor : P () :=
  ws ← gets (λ p, pj_watch_set (canonical_projection p));
  result ← call_load_latest ws;
  loaded ← returning result;
  lift (validate_snapshot_view loaded) ;;
  let projection := cs_projection loaded in
  lift (validate_projection_dictionary projection ws) ;;
  sh ← gets pb_shared;
  lift (validate_projection_frames sh projection (cs_forkchoice loaded)) ;;
  install_anchor loaded ;;
  publish_state (ws_generation (pj_watch_set projection))
    (wire.EvSnapshot (snapshot projection (cs_forkchoice loaded)))
    projection (Some (cs_forkchoice loaded)) false ;;
  mret ().

(** [activate]. *)
Definition activate (ws : WatchSet) : P () :=
  current ← gets active_generation;
  if ws_generation ws <=? current then mret ()
  else
    result ← call_load_latest ws;
    loaded ← returning result;
    lift (validate_snapshot_view loaded) ;;
    let projection := cs_projection loaded in
    lift (validate_projection_dictionary projection ws) ;;
    let config_event := wire.EvConfigActivated (config_activated ws) in
    let snapshot_event := wire.EvSnapshot (snapshot projection (cs_forkchoice loaded)) in
    sh ← gets pb_shared;
    lift (validate_event_frame sh (ws_generation ws) config_event) ;;
    lift (validate_projection_frames sh projection (cs_forkchoice loaded)) ;;
    install_anchor loaded ;;
    publish_state (ws_generation ws) config_event projection (Some (cs_forkchoice loaded)) false ;;
    publish (ws_generation ws) snapshot_event ;;
    modify (λ p, p <| pb_active := ws |>) ;;
    on_metrics (λ _ m, m <| config_generation := ws_generation (pj_watch_set projection) |>).

(** Waiting [retry_delay] for the shutdown signal. *)
Definition poll_shutdown (retry_delay : N) : P bool := λ p,
  (Ok (env_shutdown (pb_tick p) retry_delay), p <| pb_tick ::= S |>).

(** One round of the loop of [recover_until_success]: the gap marker unless it is out already, the
    new anchor, and whether the marker is out now. *)
Definition attempt (reason : string) (gap_announced : bool) : P (bool * bool) :=
  gap_announced ←
    (if gap_announced then mret true
     else catch (announce_gap reason ;; mret true) (λ _, mret false));
  recovered ←
    (if gap_announced : bool then catch (reanchor ;; mret true) (λ _, mret false) else mret false);
  mret (recovered, gap_announced).

(** The retry loop of [recover_until_success]; running out of fuel means it is still retrying. *)
Fixpoint recover_loop (fuel : nat) (reason : string) (gap_announced : bool) (retry_delay : N) : P bool :=
  match fuel with
  | O => diverge
  | S fuel =>
      '(recovered, gap_announced) ← attempt reason gap_announced;
      if recovered : bool then mret true
      else
        shutdown ← poll_shutdown retry_delay;
        if shutdown : bool then mret false
        else recover_loop fuel reason gap_announced
               (N.min (saturating_mul retry_delay 2) (from_secs 1))
  end.

(** [recover_until_success]. *)
Definition recover_until_success (fuel : nat) (reason : string) : P bool :=
  recovering ← gets (λ p, ps_recovering (published p));
  recover_loop fuel reason recovering (from_millis 10).

(** ** Dispatch *)

(** [Publisher::handle]. *)
Definition handle (event : FeedEvent) : P () :=
  match event with
  | Executed observed_at generation block changes =>
      anchored_at ← gets snapshot_anchored_at;
      if observed_at <=? anchored_at then mret ()
      else project_candidate generation block changes CandidateExecuted ;; mret ()
  | Validated _ generation block_hash =>
      promote_validated generation block_hash ;; mret ()
  | ValidatedFallback observed_at generation block changes =>
      anchored_at ← gets snapshot_anchored_at;
      if observed_at <=? anchored_at then mret ()
      else project_candidate generation block changes CandidateValidated ;; mret ()
  | CanonicalStateReset observed_at generation _ =>
      active ← gets active_generation;
      if active <? generation then throw (GenerationAhead generation active)
      else
        anchored_at ← gets snapshot_anchored_at;
        if observed_at <=? anchored_at then mret ()
        else announce_gap "canonical_state_reset" ;; reanchor
  | ForkchoiceApplied observed_at generation view =>
      forkchoice_applied generation observed_at view ;; mret ()
  | Rejected _ generation block_hash reason =>
      rejected generation block_hash reason ;; mret ()
  end.

(** [handle_control]: whether the activation is acknowledged; an activation error is swallowed. *)
Definition handle_control (event : ControlEvent) : P bool :=
  match event with
  | ActivateConfig ws => catch (activate ws ;; mret true) (λ _, mret false)
  end.

Inductive PublisherEvent :=
| Data (event : FeedEvent)
| Control (event : ControlEvent).

(** [run_maintenance]. *)
Definition run_maintenance (fuel : nat) : P bool :=
  catch (maintain ;; mret true) (λ _, recover_until_success fuel "candidate_maintenance_error").

(** [recover_pending_loss]: one recovery per non-zero loss taken from the producer. *)
Fixpoint recover_pending_loss (fuel : nat) (losses : list N) : P bool :=
  match losses with
  | [] => mret true
  | loss :: losses =>
      if loss =? 0 then mret true
      else
        recovered ← recover_until_success fuel "engine_queue_overflow";
        if recovered : bool then recover_pending_loss fuel losses else mret false
  end.

(** The dispatch at the end of a loop pass. *)
Definition dispatch (fuel : nat) (event : PublisherEvent) : P bool :=
  catch (match event with
         | Data event => handle event ;; mret true
         | Control event => handle_control event ;; mret true
         end)
    (λ _, recover_until_success fuel "publisher_error").

(** One pass of the loop of [run_publisher]: losses taken at the top, a due maintenance tick, the
    event received (none when a loss or a tick woke the thread), losses taken before handling it.
    [false] means the thread exits. *)
Record LoopPass := {
  lp_losses : list N;
  lp_maintenance : bool;
  lp_event : option PublisherEvent;
  lp_late_losses : list N;
}.

Definition run_pass (fuel : nat) (pass : LoopPass) : P bool :=
  continue ← recover_pending_loss fuel (lp_losses pass);
  if negb continue then mret false
  else
    continue ← (if lp_maintenance pass then run_maintenance fuel else mret true);
    if negb continue then mret false
    else match lp_event pass with
    | None => mret true
    | Some event =>
        continue ← recover_pending_loss fuel (lp_late_losses pass);
        if negb continue then mret false else dispatch fuel event
    end.

(** [run_publisher]: passes until one ends the thread. *)
Fixpoint run_publisher (fuel : nat) (passes : list LoopPass) : P bool :=
  match passes with
  | [] => mret true
  | pass :: passes =>
      continue ← run_pass fuel pass;
      if continue : bool then run_publisher fuel passes else mret false
  end.

(** ** Start *)

(** [start_service] up to the socket: the validated publisher, or the error that stops the node.
    [boot_id] is the fresh UUID and [started_at] the start instant. *)
Definition start_service (s : StreamConfig) (boot_id : bytes) (chain_id : N) (genesis_hash : B256)
    (started_at : N) (ws : WatchSet) : outcome Error Publisher :=
  match validate_stream s with
  | Err issue => Err (StreamInvalid issue)
  | Diverge => Diverge
  | Ok _ =>
      if ws_is_empty ws then Err WatchSetEmpty
      else match load_latest 0 ws with
      | inr e => Err e
      | inl initial =>
          validate_projection_dictionary (cs_projection initial) ws ;;
          validate_snapshot_view initial ;;
          let projection := cs_projection initial in
          let sh := mkShared boot_id chain_id genesis_hash started_at 0 0 (max_frame_bytes s)
            (advertised_capabilities (publish_executed s))
            (mkPublishedState projection (Some (cs_forkchoice initial)) 0 false) []
            (metrics_new <| config_generation := ws_generation (pj_watch_set projection) |>) in
          validate_handshake_frames sh projection (cs_forkchoice initial) ;;
          let policy := candidate_policy s in
          Ok (measured set_candidate_metric (mkPublisher ws sh
                (initial_cache (env_clock 1) (retention policy) (projection_limit policy)
                   (policy_metadata_limit policy) projection (cs_forkchoice initial))
                policy (cs_anchored_at initial) 2))
      end
  end.
End publisher.
