(* ===== verification/Sample.v ===== *)
(** * A concrete world

    One provider, codec, hasher and clock, and a service started in it: the
    inputs at which the statements about the publisher are evaluated. *)

From S2P Require Import Prelude Bytes Config Watch Feed Wire Client Projection Cache Metrics Publisher.
From stdpp Require Import list.
Local Open Scope N_scope.

Definition sample_block (number hash parent : N) : BlockMeta :=
  {| bm_number := number; bm_hash := hash; bm_parent_hash := parent; bm_timestamp := 12 * number |}.

(** Block 60 writes 8 to slot 9 of account 5; storage is zero elsewhere. *)
Definition sample_storage (hash : B256) (a : Address) (s : U256) : U256 :=
  if (hash =? 60) && (a =? 5) && (s =? 9) then 8 else 0.

Definition sample_values (hash : B256) (ws : WatchSet) : bytes :=
  encode_values ((λ k, sample_storage hash (wk_address k) (wk_slot k)) <$> ws_keys ws).

(** The provider stays at block 50 (number 5) and knows the headers and states of 50 and 60. *)
Definition sample_latest (ws : WatchSet) : CanonicalSnapshot :=
  {| cs_projection := {| pj_block := sample_block 5 50 40; pj_watch_set := ws;
                         pj_values := sample_values 50 ws; pj_changed_bitmap := [] |};
     cs_anchored_at := 10;
     cs_forkchoice := {| fc_head := {| cp_number := 5; cp_hash := 50 |}; fc_safe := None; fc_finalized := None |} |}.

Definition sample_source : SnapshotSource :=
  {| load_latest := λ _ ws, inl (sample_latest ws);
     load_at := λ _ ws hash,
       if hash =? 50 then inl (cs_projection (sample_latest ws))
       else if hash =? 60 then
         inl {| pj_block := sample_block 6 60 50; pj_watch_set := ws; pj_values := sample_values 60 ws;
                pj_changed_bitmap := [] |}
       else inr (HeaderNotFound hash) |}.

Definition sample_env : Env :=
  {| env_source := sample_source; env_prost := sample_prost; env_iter := in_key_order;
     env_clock := λ tick, 100 + N.of_nat tick; env_shutdown := λ _ _, false |}.

Definition sample_stream : StreamConfig := {|
  publish_executed := true; socket := "/run/statefeed.sock"; socket_mode := 432; queue_capacity := 4;
  candidate_cache_blocks := 2; candidate_metadata_entries := 3; candidate_retention := 1000;
  retirement_work_budget := 4; consumer_buffer := 4; max_consumers := 1; max_frame_bytes := 4096;
  publisher_cpu := None; publisher_spin_us := 0 |}.

Definition sample_boot : bytes := replicate 16 0.

Definition sample_start : outcome Error Publisher :=
  @start_service sample_env sample_stream sample_boot 1 0 0 sample_watch_set.

Definition started (o : outcome Error Publisher) : Publisher :=
  match o with
  | Ok p => p
  | _ => mkPublisher sample_watch_set
      (mkShared [] 0 0 0 0 0 0 0 (mkPublishedState (cs_projection (sample_latest sample_watch_set)) None 0 false) [] metrics_new)
      (initial_cache 0 0 0 0 (cs_projection (sample_latest sample_watch_set)) (cs_forkchoice (sample_latest sample_watch_set)))
      (candidate_policy sample_stream) 0 0
  end.

(** The publisher after [start_service]. *)
Definition sample_publisher : Publisher := Eval vm_compute in started sample_start.

Lemma sample_started : sample_start = Ok sample_publisher.
Proof. vm_compute. reflexivity. Qed.

Definition data_pass (event : FeedEvent) : LoopPass :=
  {| lp_losses := []; lp_maintenance := true; lp_event := Some (Data event); lp_late_losses := [] |}.

(** The account changes of block 60 as the engine reports them. *)
Definition sample_write : BundleState := {| bundle_state :=
  {[ 5 := {| was_destroyed := false; storage := {[ 9 := {| is_changed := true; present_value := 8 |} ]} |} ]} |}.

(** A child of the head is executed and validated, a sibling is rejected, the child becomes head
    and the queue overflows. *)
Definition sample_passes : list LoopPass :=
  [data_pass (Executed 20 1 (sample_block 6 60 50) (@extract_changes in_key_order sample_watch_set sample_write));
   data_pass (Validated 21 1 60);
   data_pass (Executed 22 1 (sample_block 6 61 50) []);
   data_pass (Rejected 23 1 61 "block_validation_failed");
   data_pass (ForkchoiceApplied 24 1 {| af_head_hash := 60; af_safe := None; af_finalized := None |});
   {| lp_losses := [2; 0]; lp_maintenance := false; lp_event := None; lp_late_losses := [] |}].

Definition sample_run : outcome Error bool * Publisher :=
  Eval vm_compute in @run_publisher sample_env 3 sample_passes sample_publisher.

(** The names of the events a run has broadcast. *)
Definition event_name (e : wire.Event) : string :=
  match e with
  | wire.EvHello _ => "hello" | wire.EvConfigActivated _ => "config" | wire.EvSnapshot _ => "snapshot"
  | wire.EvBlockState _ => "state" | wire.EvBlockValidated _ => "validated" | wire.EvBlockRejected _ => "rejected"
  | wire.EvCanonicalHead _ => "head" | wire.EvGap _ => "gap" | wire.EvForkchoiceApplied _ => "forkchoice"
  | wire.EvCandidatesRetired _ => "retired"
  end.
Definition event_names (p : Publisher) : list (option string) :=
  (λ f, event_name <$> wire.event (pf_envelope f)) <$> sh_frames (pb_shared p).

Example sample_run_events :
  sample_run.1 = Ok true ∧
  event_names sample_run.2 =
    Some <$> ["state"; "validated"; "state"; "retired"; "rejected"; "head"; "forkchoice"; "gap"; "snapshot"]%string.
Proof. vm_compute. split; reflexivity. Qed.
