(* ===== verification/PublisherInv.v ===== *)
(** * The publisher invariant

    Every state the publisher thread can reach, whatever the engine, the
    provider and the clock do, has a sound cache within its limits and has
    emitted a stream of the protocol in [Stream].  The proofs follow the
    handlers of [Publisher]; the laws of the protobuf codec they need are the
    class [ProstLaws]. *)

From S2P Require Import Prelude Bytes Config Watch Feed Wire Client Consumer Stream Projection Cache CacheInv Metrics Publisher.
From stdpp Require Import list.
Local Open Scope N_scope.

(** Sequence numbers and timestamps are varints: a smaller value is never encoded in more bytes
    than the largest one. *)
Class ProstLaws `{Prost} : Prop := {
  encoded_len_max : ∀ v b sequence generation ns event,
    sequence ≤ u64_max → ns ≤ u64_max →
    encoded_len {| wire.protocol_version := v; wire.boot_id := b; wire.sequence := sequence;
                   wire.config_generation := generation; wire.emitted_at_monotonic_ns := ns;
                   wire.event := event |} ≤
    encoded_len {| wire.protocol_version := v; wire.boot_id := b; wire.sequence := u64_max;
                   wire.config_generation := generation; wire.emitted_at_monotonic_ns := u64_max;
                   wire.event := event |};
}.

(** ** The horizon

    Sequence numbers and incarnations are 64-bit counters; the publisher reads the clock at least
    once for each one it allocates.  The invariant speaks about states before the 2^64th reading. *)
Definition within (p : Publisher) : Prop := N.of_nat (pb_tick p) ≤ u64_max.

(** The frames sent, as the metrics see them, and metrics that agree with them. *)
Definition sent_events (frames : list PublishedFrame) : list (wire.Event * N) :=
  frames ≫= λ f, match wire.event (pf_envelope f) with Some e => [(e, len (pf_bytes f))] | None => [] end.
Definition tallied (p : Publisher) : Prop := tally (sh_metrics (pb_shared p)) (sent_events (sh_frames (pb_shared p))).

(** What no operation undoes: the tick counter does not go back, the frame limit stays, frames that
    have been sent are sent, and the totals agree with them. *)
Record later (p p' : Publisher) : Prop := {
  lt_tick : (pb_tick p ≤ pb_tick p')%nat;
  lt_limit : sh_max_frame_bytes (pb_shared p') = sh_max_frame_bytes (pb_shared p);
  lt_frames : sh_frames (pb_shared p) `prefix_of` sh_frames (pb_shared p');
  lt_tally : tallied p → tallied p';
  lt_policy : pb_policy p' = pb_policy p;
  lt_cache : same_limits (pb_cache p) (pb_cache p');
}.

#[export] Instance later_preorder : PreOrder later.
Proof.
  split; [done|]. intros p1 p2 p3 [T1 L1 F1 C1 P1 S1] [T2 L2 F2 C2 P2 S2]. split; [lia|congruence|by etrans|auto|congruence|by etrans].
Qed.

Lemma later_tick p : later p (p <| pb_tick ::= S |>).
Proof. split; [simpl; lia|done..]. Qed.

Lemma within_later p p' : later p p' → within p' → within p.
Proof. intros [Ht _ _ _ _ _]. unfold within. lia. Qed.

Section along_publisher.
Context (R : relation Publisher) `{!PreOrder R}.

Lemma along_returning {A} (r : A + Error) : Along R (returning r).
Proof. destruct r; [by apply along_ret|by apply along_throw]. Qed.
Lemma along_catch {A} (m : P A) h : Along R m → (∀ e, Along R (h e)) → Along R (catch m h).
Proof.
  intros Hm Hh p. unfold catch. specialize (Hm p).
  destruct (m p) as [[a|e|] p1]; simpl in *; [done| |done]. specialize (Hh e p1). by etrans.
Qed.
End along_publisher.

(** Running [m] only moves on. *)
Abbreviation Mono := (Along later).

Create HintDb mono discriminated.
#[export] Hint Constants Opaque : mono.
#[export] Hint Resolve along_ret along_throw along_diverge along_gets along_lift along_returning later_preorder : mono.

Definition hpost {A} (Qo : A → Publisher → Prop) (Qe Qd : Publisher → Prop) (o : outcome Error A)
    (p : Publisher) : Prop :=
  within p → match o with Ok a => Qo a p | Err _ => Qe p | Diverge => Qd p end.

Definition hreturns {A} (Qo : A → Publisher → Prop) (Qe : Publisher → Prop) :=
  hpost Qo Qe (λ _, False).

Section mono.
Context `{Env}.

Lemma mono_on_cache {A} (m : M Cache Error A) : Along same_limits m → Mono (on_cache m).
Proof.
  intros Hm p. specialize (Hm (pb_cache p)). unfold on_cache. destruct (m (pb_cache p)). by split.
Qed.
Lemma mono_cache f : (∀ c, same_limits c (f c)) → Mono (modify (λ p, p <| pb_cache ::= f |>) : P ()).
Proof. intros Hf p. by split. Qed.
Lemma mono_now : Mono now.
Proof. exact later_tick. Qed.
Lemma mono_load_latest ws : Mono (call_load_latest ws).
Proof. exact later_tick. Qed.
Lemma mono_load_at ws h : Mono (call_load_at ws h).
Proof. exact later_tick. Qed.
Lemma mono_poll d : Mono (poll_shutdown d).
Proof. exact later_tick. Qed.

(** Recording a gauge or a miss. *)
Lemma later_measured f p : (∀ c m l, tally m l → tally (f c m) l) → later p (measured f p).
Proof. intros Hf. split; try done. apply Hf. Qed.
Lemma mono_metrics f : (∀ c m l, tally m l → tally (f c m) l) → Mono (on_metrics f).
Proof. intros Hf p. by apply later_measured. Qed.
Lemma mono_candidate_metric : Mono update_candidate_metric.
Proof. apply mono_metrics. by intros c m l []. Qed.

(** A frame and its metrics are committed together. *)
Lemma later_commit sequence envelope event frame next p :
  wire.event envelope = Some event → later p (p <| pb_shared ::= commit_frame sequence envelope frame next |>).
Proof.
  intros He. split; [done|done|by apply prefix_app_r| |done..]. intros Ht. unfold tallied, sent_events. simpl.
  rewrite bind_app. simpl. rewrite He. by apply tally_record.
Qed.
End mono.
#[export] Hint Resolve mono_now mono_load_latest mono_load_at mono_poll mono_candidate_metric : mono.

(** Monotonicity of a method body, by its syntax. *)
Ltac solve_mono :=
  intros; cbv beta zeta;
  lazymatch goal with
  | |- Mono (mbind _ _) => apply (along_bind _); solve_mono
  | |- Mono (catch _ _) => apply (along_catch _); solve_mono
  | |- Mono (modify _) => first [apply mono_cache; solve [eauto with limits nocore]|intros ?; first [by split|by eapply later_commit]]
  | |- Mono (on_metrics _) => apply mono_metrics; by intros ? ? ? []
  | |- Mono (match ?x with _ => _ end) => destruct x; solve_mono
  | |- Mono (on_cache _) => apply mono_on_cache; solve [eauto with limits nocore]
  | |- Mono _ => solve [eauto with mono nocore]
  end.

Lemma remove_due_limits due : Along same_limits (remove_due due).
Proof. induction due; cbn [remove_due]; solve_limits. Qed.
Lemma commit_canonical_limits t r sequence previous h c : same_limits c (commit_canonical t r sequence previous h c).
Proof.
  unfold commit_canonical. trans (c <| canonical_hash := h |>); [done|].
  etrans; [apply (schedule_expiry_limits t r previous)|]. by repeat case_match.
Qed.
#[export] Hint Resolve remove_due_limits commit_canonical_limits : limits.

Section mono_ops.
Context `{Env}.

Lemma mono_publish_inner g e n : Mono (publish_inner g e n).
Proof. unfold publish_inner, monotonic_ns. solve_mono. Qed.
#[local] Hint Resolve mono_publish_inner : mono.
Lemma mono_publish g e : Mono (publish g e).
Proof. unfold publish. solve_mono. Qed.
#[local] Hint Resolve mono_publish : mono.
Lemma mono_publish_state g e c f r : Mono (publish_state g e c f r).
Proof. unfold publish_state. solve_mono. Qed.
#[local] Hint Resolve mono_publish_state : mono.
Lemma mono_publish_batches g r bs : Mono (publish_batches g r bs).
Proof. induction bs; cbn [publish_batches]; solve_mono. Qed.
#[local] Hint Resolve mono_publish_batches : mono.
Lemma mono_publish_retired g hs r : Mono (publish_retired g hs r).
Proof. unfold publish_retired. solve_mono. Qed.
#[local] Hint Resolve mono_publish_retired : mono.
Lemma mono_trim_projection_cache g h : Mono (trim_projection_cache g h).
Proof. unfold trim_projection_cache. solve_mono. Qed.
#[local] Hint Resolve mono_trim_projection_cache : mono.
Lemma mono_trim_metadata g : Mono (trim_metadata g).
Proof. unfold trim_metadata. solve_mono. Qed.
#[local] Hint Resolve mono_trim_metadata : mono.
Lemma mono_insert_candidate p s t f : Mono (insert_candidate p s t f).
Proof. unfold insert_candidate. solve_mono. Qed.
#[local] Hint Resolve mono_insert_candidate : mono.
Lemma mono_insert_deferred b c : Mono (insert_deferred_executed b c).
Proof. unfold insert_deferred_executed. solve_mono. Qed.
#[local] Hint Resolve mono_insert_deferred : mono.
Lemma mono_process_finality g b : Mono (process_finality_budget g b).
Proof. unfold process_finality_budget. solve_mono. Qed.
#[local] Hint Resolve mono_process_finality : mono.
Lemma mono_maintain : Mono maintain.
Proof. unfold maintain. solve_mono. Qed.
#[local] Hint Resolve mono_maintain : mono.
Lemma mono_promote_with f g h :
  (∀ g b c s, Mono (f g b c s)) → Mono (promote_validated_with f g h).
Proof. intros Hf. unfold promote_validated_with. solve_mono. Qed.
#[local] Hint Resolve mono_promote_with : mono.
Lemma mono_parent_values ws g b c s : Mono (parent_values ws g b c s).
Proof. unfold parent_values. solve_mono. Qed.
#[local] Hint Resolve mono_parent_values : mono.
Lemma mono_publish_candidate ws g b c s v : Mono (publish_candidate ws g b c s v).
Proof. unfold publish_candidate. solve_mono. Qed.
#[local] Hint Resolve mono_publish_candidate : mono.
Lemma mono_project_aux d g b c s : Mono (project_candidate_aux d g b c s).
Proof. revert g b c s. induction d as [|d IH]; intros; cbn [project_candidate_aux]; solve_mono. Qed.
#[local] Hint Resolve mono_project_aux : mono.
Lemma mono_project g b c s : Mono (project_candidate g b c s).
Proof. unfold project_candidate. solve_mono. Qed.
#[local] Hint Resolve mono_project : mono.
Lemma mono_promote g h : Mono (promote_validated g h).
Proof. unfold promote_validated. solve_mono. Qed.
#[local] Hint Resolve mono_promote : mono.
Lemma mono_remove_tree h t : Mono (remove_tree h t).
Proof. unfold remove_tree. solve_mono. Qed.
#[local] Hint Resolve mono_remove_tree : mono.
Lemma mono_rejected g h r : Mono (rejected g h r).
Proof. unfold rejected. solve_mono. Qed.
#[local] Hint Resolve mono_rejected : mono.
Lemma mono_canonical_source g a ws h : Mono (canonical_source g a ws h).
Proof. unfold canonical_source. solve_mono. Qed.
#[local] Hint Resolve mono_canonical_source : mono.
Lemma mono_canonical g o n h : Mono (canonical g o n h).
Proof. unfold canonical. solve_mono. Qed.
#[local] Hint Resolve mono_canonical : mono.
Lemma mono_forkchoice g o a : Mono (forkchoice_applied g o a).
Proof. unfold forkchoice_applied. solve_mono. Qed.
#[local] Hint Resolve mono_forkchoice : mono.
Lemma mono_announce_gap r : Mono (announce_gap r).
Proof. unfold announce_gap. solve_mono. Qed.
#[local] Hint Resolve mono_announce_gap : mono.
Lemma mono_install l : Mono (install_anchor l).
Proof. unfold install_anchor. solve_mono. Qed.
#[local] Hint Resolve mono_install : mono.
Lemma mono_reanchor : Mono reanchor.
Proof. unfold reanchor. solve_mono. Qed.
#[local] Hint Resolve mono_reanchor : mono.
Lemma mono_activate ws : Mono (activate ws).
Proof. unfold activate. solve_mono. Qed.
#[local] Hint Resolve mono_activate : mono.
Lemma mono_attempt r g : Mono (attempt r g).
Proof. unfold attempt. solve_mono. Qed.
#[local] Hint Resolve mono_attempt : mono.
Lemma mono_recover_loop f r g d : Mono (recover_loop f r g d).
Proof. revert g d. induction f as [|f IH]; intros; cbn [recover_loop]; solve_mono. Qed.
#[local] Hint Resolve mono_recover_loop : mono.
Lemma mono_recover f r : Mono (recover_until_success f r).
Proof. unfold recover_until_success. solve_mono. Qed.
#[local] Hint Resolve mono_recover : mono.
Lemma mono_handle e : Mono (handle e).
Proof. destruct e; cbn [handle]; solve_mono. Qed.
#[local] Hint Resolve mono_handle : mono.
Lemma mono_handle_control e : Mono (handle_control e).
Proof. destruct e; cbn [handle_control]; solve_mono. Qed.
#[local] Hint Resolve mono_handle_control : mono.
Lemma mono_recover_pending f ls : Mono (recover_pending_loss f ls).
Proof. induction ls; cbn [recover_pending_loss]; solve_mono. Qed.
#[local] Hint Resolve mono_recover_pending : mono.
Lemma mono_run_maintenance f : Mono (run_maintenance f).
Proof. unfold run_maintenance. solve_mono. Qed.
#[local] Hint Resolve mono_run_maintenance : mono.
Lemma mono_dispatch f e : Mono (dispatch f e).
Proof. unfold dispatch. solve_mono. Qed.
#[local] Hint Resolve mono_dispatch : mono.
Lemma mono_run_pass f l : Mono (run_pass f l).
Proof. unfold run_pass. solve_mono. Qed.
#[local] Hint Resolve mono_run_pass : mono.
Lemma mono_run_publisher f ls : Mono (run_publisher f ls).
Proof. induction ls; cbn [run_publisher]; solve_mono. Qed.
#[local] Hint Resolve mono_run_publisher : mono.
End mono_ops.
#[export] Hint Resolve mono_publish_inner mono_publish mono_publish_state mono_publish_batches
  mono_publish_retired mono_trim_projection_cache mono_trim_metadata
  mono_insert_candidate mono_insert_deferred mono_process_finality mono_maintain
  mono_promote_with mono_parent_values mono_publish_candidate mono_project_aux
  mono_project mono_promote mono_remove_tree mono_rejected mono_canonical_source mono_canonical
  mono_forkchoice mono_announce_gap mono_install mono_reanchor mono_activate
  mono_attempt mono_recover_loop mono_recover mono_handle mono_handle_control mono_recover_pending
  mono_run_maintenance mono_dispatch mono_run_pass mono_run_publisher : mono.

(** ** Rules *)

Section rules.
Context `{Env}.

Lemma hp_call {A B} (m : M Publisher Error A) (k : A → M Publisher Error B)
    (P : A → Publisher → Prop) Pe Pd (Qo : B → Publisher → Prop) Qe Qd p :
  (∀ a, Mono (k a)) →
  wp m (hpost P Pe Pd) p →
  (∀ a p1, within p1 → P a p1 → wp (k a) (hpost Qo Qe Qd) p1) →
  (∀ p1, within p1 → Pe p1 → Qe p1) → (∀ p1, within p1 → Pd p1 → Qd p1) →
  wp (m ≫= k) (hpost Qo Qe Qd) p.
Proof.
  intros Hmono Hm Hk He Hd. apply wp_bind. unfold wp, hpost in *. destruct (m p) as [[a|e|] p1]; simpl in *; auto.
  intros Hw. assert (within p1) as Hw1.
  { by eapply within_later; [apply Hmono|]. }
  by apply Hk; auto.
Qed.

Lemma hp_mono {A} (m : M Publisher Error A) (P Q : A → Publisher → Prop) Pe Pd Qe Qd p :
  wp m (hpost P Pe Pd) p →
  (∀ a p1, within p1 → P a p1 → Q a p1) →
  (∀ p1, within p1 → Pe p1 → Qe p1) → (∀ p1, within p1 → Pd p1 → Qd p1) →
  wp m (hpost Q Qe Qd) p.
Proof.
  intros Hm Ho He Hd. unfold wp, hpost in *. destruct (m p) as [[a|e|] p1]; simpl in *; auto.
Qed.

Lemma hp_ret {A} (a : A) (Q : A → Publisher → Prop) Qe Qd p :
  Q a p → wp (mret a) (hpost Q Qe Qd) p.
Proof. by intros ? ?. Qed.

Lemma hp_throw {A} e (Q : A → Publisher → Prop) Qe Qd p :
  Qe p → wp (throw e) (hpost Q Qe Qd) p.
Proof. by intros ? ?. Qed.

Lemma hp_catch {A} (m : M Publisher Error A) h (P : A → Publisher → Prop) Pe Pd Q Qe Qd p :
  (∀ e, Mono (h e)) →
  wp m (hpost P Pe Pd) p →
  (∀ a p1, within p1 → P a p1 → Q a p1) →
  (∀ e p1, within p1 → Pe p1 → wp (h e) (hpost Q Qe Qd) p1) →
  (∀ p1, within p1 → Pd p1 → Qd p1) →
  wp (catch m h) (hpost Q Qe Qd) p.
Proof.
  intros Hmono Hm Ho He Hd. unfold catch, wp, hpost in *. destruct (m p) as [[a|e|] p1]; simpl in *; auto.
  intros Hw. assert (within p1) as Hw1.
  { by eapply within_later; [apply Hmono|]. }
  by apply He; auto.
Qed.

(** A cache operation inside the publisher. *)
Lemma hp_on_cache {A} (m : M Cache Error A) (P : A → Cache → Prop) Pe (Q : A → Publisher → Prop) Qe p :
  wp m (returns P Pe) (pb_cache p) →
  (∀ a c, P a c → Q a (p <| pb_cache := c |>)) → (∀ c, Pe c → Qe (p <| pb_cache := c |>)) →
  wp (on_cache m) (hreturns Q Qe) p.
Proof.
  intros Hm Ho He. unfold on_cache, wp, hreturns, hpost in *.
  destruct (m (pb_cache p)) as [[a|e|] c]; simpl in *; auto.
Qed.

Lemma hp_lift {A B} (o : outcome Error A) (k : A → M Publisher Error B) (Q : B → Publisher → Prop) Qe Qd p :
  (∀ a, o = Ok a → wp (k a) (hpost Q Qe Qd) p) → o ≠ Diverge → Qe p →
  wp (lift o ≫= k) (hpost Q Qe Qd) p.
Proof. intros Ho Hd He. apply wp_bind, wp_lift. destruct o; [by apply Ho|by intros _|done]. Qed.

Lemma hp_now {B} (k : N → M Publisher Error B) (Q : B → Publisher → Prop) Qe Qd p :
  (∀ t, Mono (k t)) →
  (∀ t, within (p <| pb_tick ::= S |>) → wp (k t) (hpost Q Qe Qd) (p <| pb_tick ::= S |>)) →
  wp (now ≫= k) (hpost Q Qe Qd) p.
Proof.
  intros Hm Hk. eapply (hp_call _ _ (λ _ p1, p1 = p <| pb_tick ::= S |>) (λ _, False) (λ _, False));
    [done|by intros _|..]; [|done|done]. intros t p1 Hw ->. by apply Hk.
Qed.

(** Recording metrics, and a method that ends by doing so with a postcondition that does not mention
    them. *)
Lemma wp_on_metrics {B} f (k : () → M Publisher Error B) Q p :
  wp (k ()) Q (measured f p) → wp (on_metrics f ≫= k) Q p.
Proof. done. Qed.

Lemma hp_measured {A} (m : M Publisher Error A) f (Q : () → Publisher → Prop) Qe Qd p :
  (∀ p1, Q () p1 → Q () (measured f p1)) → wp m (hpost (λ _, Q ()) Qe Qd) p →
  wp (m ;; on_metrics f) (hpost Q Qe Qd) p.
Proof.
  intros HQ Hm. apply wp_bind. unfold wp, hpost in *. destruct (m p) as [[a|e|] p1]; simpl in *; auto.
Qed.
End rules.

(** ** The invariant *)

Definition stream_state (required : bool) (p : Publisher) : StreamState :=
  mkStreamState (sh_published_sequence (pb_shared p)) required (active_generation p)
    (ws_len (pj_watch_set (canonical_projection p))).

(** A handshake state from which a consumer can be served. *)
Definition ready (s : PublishedState) : Prop :=
  dictionary_wf (config_activated (pj_watch_set (ps_canonical s))) ∧
  values_wf (ws_len (pj_watch_set (ps_canonical s))) (pj_values (ps_canonical s)) ∧
  ∀ v, ps_forkchoice s = Some v → validate_forkchoice_checkpoints v = Ok ().

(** The stream and the handshake state agree on the generation and the dictionary. *)
Definition agrees (s : StreamState) (published : PublishedState) : Prop :=
  ss_generation s = ws_generation (pj_watch_set (ps_canonical published)) ∧
  ss_keys s = ws_len (pj_watch_set (ps_canonical published)) ∧
  ps_effective_sequence published ≤ ss_sequence s.

(** Frames that follow the protocol, each with the handshake state stored with it; [initial] is
    the state before the first. *)
Inductive history (params : StreamParams) (start : StreamState) (initial : PublishedState)
    : list PublishedFrame → StreamState → PublishedState → Prop :=
| history_nil : history params start initial [] start initial
| history_snoc frames f s s' published :
    history params start initial frames s published →
    stream_step params s (pf_envelope f) s' → pf_sequence f = wire.sequence (pf_envelope f) →
    agrees s' (pf_state f) → ready (pf_state f) →
    pf_state f = published ∨ ps_effective_sequence (pf_state f) = pf_sequence f →
    history params start initial (frames ++ [f]) s' (pf_state f).

Definition envelopes (frames : list PublishedFrame) : list wire.Envelope := pf_envelope <$> frames.

(** [start] and [initial] are the stream's position and the handshake state before the first frame;
    [required] says whether consumers are owed a snapshot. *)
Record inv (params : StreamParams) (start : StreamState) (initial : PublishedState) (required : bool)
    (p : Publisher) : Prop := {
  iv_boot_id : sh_boot_id (pb_shared p) = sp_boot_id params;
  iv_capabilities : sh_capabilities (pb_shared p) = sp_capabilities params;
  iv_history : history params start initial (sh_frames (pb_shared p)) (stream_state required p) (published p);
  iv_ready : ready (published p);
  iv_effective : ps_effective_sequence (published p) ≤ sh_published_sequence (pb_shared p);
  iv_sequence : sh_published_sequence (pb_shared p) ≤ sh_sequence (pb_shared p);
  iv_sequence_tick : sh_sequence (pb_shared p) ≤ N.of_nat (pb_tick p);
  iv_keys : 32 * ws_len (pj_watch_set (canonical_projection p)) ≤ u64_max;
  iv_cache : cache_ok (pb_cache p);
  iv_queues : queues_bounded (pb_cache p);
  iv_incarnation : next_incarnation (pb_cache p) ≤ N.of_nat (pb_tick p);
  iv_limits : 0 < cache_limit (pb_cache p) ∧ 0 < metadata_limit (pb_cache p);
}.

(** Every allocated sequence number has been published. *)
Definition contiguous (p : Publisher) : Prop :=
  sh_sequence (pb_shared p) = sh_published_sequence (pb_shared p).

(** The cache limits hold. *)
Definition bounded (p : Publisher) : Prop :=
  metadata_len (pb_cache p) ≤ metadata_limit (pb_cache p) ∧
  projection_count (pb_cache p) ≤ cache_limit (pb_cache p).

(** The cache and the handshake state agree on the canonical head. *)
Definition aligned (p : Publisher) : Prop :=
  canonical_hash (pb_cache p) = bm_hash (pj_block (canonical_projection p)).

(** The capabilities every peer is promised. *)
Definition caps_ok (params : StreamParams) : Prop :=
  has_cap (sp_capabilities params) wire.CAP_FORKCHOICE_APPLIED = true ∧
  has_cap (sp_capabilities params) wire.CAP_CANDIDATE_RETIREMENT = true.

Section publisher_inv.
Context `{Env}.
Context (params : StreamParams) (start : StreamState) (initial : PublishedState).
Implicit Types p : Publisher.

Notation inv := (inv params start initial).

(** Between two frames of the normal stream. *)
Definition live (p : Publisher) : Prop :=
  inv false p ∧ contiguous p ∧ ps_recovering (published p) = false.

(** After an error: consumers are owed a snapshot exactly when the state says so, and then no
    sequence number has been lost since the gap. *)
Definition faulted (p : Publisher) : Prop :=
  inv (ps_recovering (published p)) p ∧ (ps_recovering (published p) = true → contiguous p).

Definition idle (p : Publisher) : Prop := live p ∧ bounded p ∧ aligned p.

(** Nothing but the stream position, the cache and the counter differ. *)
Definition same_state (p p' : Publisher) : Prop :=
  published p' = published p ∧ pb_policy p' = pb_policy p ∧
  snapshot_anchored_at p' = snapshot_anchored_at p ∧ pb_active p' = pb_active p ∧
  sh_max_frame_bytes (pb_shared p') = sh_max_frame_bytes (pb_shared p).

Lemma same_state_refl p : same_state p p.
Proof. done. Qed.

Lemma same_state_trans p p1 p2 : same_state p p1 → same_state p1 p2 → same_state p p2.
Proof. intros (?&?&?&?&?) (?&?&?&?&?). split_and!; congruence. Qed.

Lemma aligned_same p p' :
  aligned p → same_state p p' → canonical_hash (pb_cache p') = canonical_hash (pb_cache p) → aligned p'.
Proof. intros Ha [E _] Ec. unfold aligned, canonical_projection in *. by rewrite Ec, E. Qed.

Lemma live_faulted p : live p → faulted p.
Proof. intros (Hi & _ & Hr). split; rewrite Hr; done. Qed.

Lemma inv_measured r f p : inv r p → inv r (measured f p).
Proof. intros []. by split. Qed.

Lemma live_measured f p : live p → live (measured f p).
Proof. intros (? & ? & ?). split; [by apply inv_measured|done]. Qed.

Lemma faulted_measured f p : faulted p → faulted (measured f p).
Proof. intros (? & ?). split; [by apply inv_measured|done]. Qed.

Lemma idle_measured f p : idle p → idle (measured f p).
Proof. intros (? & ? & ?). split_and!; [by apply live_measured|done..]. Qed.

Lemma inv_tick r p : inv r p → inv r (p <| pb_tick ::= S |>).
Proof. intros []. split; try done; simpl; lia. Qed.

Lemma live_tick p : live p → live (p <| pb_tick ::= S |>).
Proof. intros (? & ? & ?). split; [by apply inv_tick|done]. Qed.

Lemma inv_cache r p c :
  inv r p → cache_ok c → queues_bounded c → next_incarnation c ≤ N.of_nat (pb_tick p) →
  cache_limit c = cache_limit (pb_cache p) → metadata_limit c = metadata_limit (pb_cache p) →
  inv r (p <| pb_cache := c |>).
Proof. intros [] ? ? ? E1 E2. split; try done. simpl. by rewrite E1, E2. Qed.

Lemma live_cache p c :
  live p → cache_ok c → queues_bounded c → next_incarnation c ≤ N.of_nat (pb_tick p) →
  cache_limit c = cache_limit (pb_cache p) → metadata_limit c = metadata_limit (pb_cache p) →
  live (p <| pb_cache := c |>).
Proof. intros (? & ? & ?) ? ? ? ? ?. split; [by apply inv_cache|done]. Qed.

Lemma live_shrinks r p c :
  live p → cache_ok c → queues_bounded c → shrinks r (pb_cache p) c → live (p <| pb_cache := c |>).
Proof.
  intros Hl Hok Hb Hs. destruct (sk_fixed _ _ _ Hs) as (E1 & E2 & E3 & _).
  apply live_cache; try done. rewrite E1. apply Hl.
Qed.

(** ** Publishing *)

(** The publisher once a sequence number is allocated and the clock read. *)
Definition attempted (p : Publisher) : Publisher :=
  p <| pb_shared ::= λ sh, sh <| sh_sequence ::= λ n, wrapping_add n 1 |> |> <| pb_tick ::= S |>.

Definition frame_time (p : Publisher) : N :=
  N.min (env_clock (pb_tick p) - sh_started_at (pb_shared p)) u64_max.

Definition next_envelope (p : Publisher) (generation : N) (event : wire.Event) : wire.Envelope :=
  make_envelope (pb_shared p) (wrapping_add (sh_sequence (pb_shared p)) 1) generation (frame_time p) event.

(** [publish_inner] either commits the frame of the next envelope or fails to encode it. *)
Lemma publish_inner_eq generation event next p :
  publish_inner generation event next p =
    match encode_frame (next_envelope p generation event) (sh_max_frame_bytes (pb_shared p)) with
    | Ok frame =>
        (Ok (wrapping_add (sh_sequence (pb_shared p)) 1),
         (attempted p) <| pb_shared ::=
           commit_frame (wrapping_add (sh_sequence (pb_shared p)) 1) (next_envelope p generation event)
             frame next |>)
    | Err e => (Err (EncodeFailed e), attempted p)
    | Diverge => (Diverge, attempted p)
    end.
Proof.
  unfold publish_inner, monotonic_ns, next_envelope, frame_time, now.
  cbv [mbind M_bind gets modify lift mret M_ret]. simpl.
  unfold make_envelope. simpl.
  destruct (encode_frame _ _); done.
Qed.

Lemma within_sequence r p :
  inv r p → within (attempted p) →
  wrapping_add (sh_sequence (pb_shared p)) 1 = sh_sequence (pb_shared p) + 1 ∧
  sh_sequence (pb_shared p) + 1 ≤ u64_max.
Proof.
  intros Hi Hw. pose proof (iv_sequence_tick _ _ _ _ _ Hi). unfold within, attempted in Hw. simpl in Hw.
  split; [|lia]. unfold wrapping_add. rewrite N.mod_small by lia. done.
Qed.

Lemma attempted_inv r p : inv r p → within (attempted p) → inv r (attempted p).
Proof.
  intros Hi Hw. destruct (within_sequence r p Hi Hw) as [E Hle]. destruct Hi.
  split; try done; simpl; rewrite ?E; lia.
Qed.

Lemma next_envelope_wf r p generation event :
  inv r p → within (attempted p) → envelope_wf params (next_envelope p generation event).
Proof.
  intros Hi Hw. destruct (within_sequence r p Hi Hw) as [E Hle].
  split_and!; [done|apply Hi|]. simpl. lia.
Qed.

(** The state after a committed frame that follows the protocol. *)
Lemma commit_inv r r' p generation event frame next :
  inv r p → within (attempted p) →
  let p' := (attempted p) <| pb_shared ::=
    commit_frame (wrapping_add (sh_sequence (pb_shared p)) 1) (next_envelope p generation event) frame next |> in
  ready (published p') →
  stream_step params (stream_state r p) (next_envelope p generation event) (stream_state r' p') →
  inv r' p' ∧ contiguous p'.
Proof.
  intros Hi Hw p' Hr Hstep. destruct (within_sequence r p Hi Hw) as [E Hle]. destruct Hi.
  assert (Heff : ps_effective_sequence (published p') ≤ sh_published_sequence (pb_shared p')).
  { unfold p', published in *. simpl. destruct next as [[[? ?] ?]|]; simpl; [lia|]. rewrite E. lia. }
  split; [|done]. split; try done; simpl.
  - eapply (history_snoc _ _ _ _ (mkPublishedFrame _ _ (published p') frame)); [done|done|done|done|done|].
    unfold p', published. simpl. destruct next as [[[? ?] ?]|]; [by right|by left].
  - rewrite E. lia.
  - by destruct Hr as (_ & [_ ?] & _).
  - lia.
Qed.

Lemma publish_inner_wp generation event next p (Q : N → Publisher → Prop) Qe :
  (∀ frame, encode_frame (next_envelope p generation event) (sh_max_frame_bytes (pb_shared p)) = Ok frame →
    within (attempted p) →
    Q (wrapping_add (sh_sequence (pb_shared p)) 1)
      ((attempted p) <| pb_shared ::=
        commit_frame (wrapping_add (sh_sequence (pb_shared p)) 1) (next_envelope p generation event)
          frame next |>)) →
  (∀ e, encode_frame (next_envelope p generation event) (sh_max_frame_bytes (pb_shared p)) = Err e →
    within (attempted p) → Qe (attempted p)) →
  wp (publish_inner generation event next) (hreturns Q Qe) p.
Proof.
  intros Ho He. unfold wp. rewrite publish_inner_eq.
  destruct (encode_frame _ _) as [frame|e|] eqn:E; simpl.
  - intros Hw. by apply Ho.
  - intros Hw. by eapply He.
  - by destruct (encode_frame_not_diverge _ _ E).
Qed.

Lemma attempted_faulted p : live p → within (attempted p) → faulted (attempted p).
Proof.
  intros (Hi & _ & Hr) Hw. unfold faulted. change (published (attempted p)) with (published p).
  rewrite Hr. split; [by apply attempted_inv|done].
Qed.

(** A data event in the normal stream. *)
Lemma publish_data_wp generation event p :
  live p → generation = active_generation p →
  data_wf (sp_capabilities params) (ws_len (pj_watch_set (canonical_projection p))) event →
  wp (publish generation event) (hreturns (λ _ p', live p' ∧ pb_cache p' = pb_cache p ∧ same_state p p')
    faulted) p.
Proof.
  intros Hl Hg Hd. pose proof Hl as (Hi & Hc & Hr). apply publish_inner_wp.
  - intros frame _ Hw. destruct (within_sequence _ _ Hi Hw) as [E Hle].
    destruct (commit_inv false false p generation event frame None Hi Hw) as [Hi' Hc'];
      [apply (iv_ready _ _ _ _ _ Hi)| |].
    + change (stream_state false _) with (mkStreamState (wire.sequence (next_envelope p generation event))
        false (active_generation p) (ws_len (pj_watch_set (canonical_projection p)))) at 2.
      apply (step_data params (stream_state false p) (next_envelope p generation event) event); simpl; [by eapply next_envelope_wf|done|done| |done|done].
      rewrite E. by rewrite <- Hc.
    + split; [|done]. by split.
  - intros e _ Hw. by apply attempted_faulted.
Qed.

(** A data event that also replaces the handshake state, under the same dictionary. *)
Lemma publish_state_wp generation event canonical forkchoice p :
  live p → generation = active_generation p →
  ws_generation (pj_watch_set canonical) = active_generation p →
  ws_len (pj_watch_set canonical) = ws_len (pj_watch_set (canonical_projection p)) →
  (∀ seq, ready (mkPublishedState canonical forkchoice seq false)) →
  data_wf (sp_capabilities params) (ws_len (pj_watch_set (canonical_projection p))) event →
  wp (publish_state generation event canonical forkchoice false) (hreturns (λ seq p',
      live p' ∧ pb_cache p' = pb_cache p ∧ pb_policy p' = pb_policy p ∧
      published p' = mkPublishedState canonical forkchoice seq false)
    faulted) p.
Proof.
  intros Hl Hg Hgen Hlen Hready Hd. pose proof Hl as (Hi & Hc & Hr). apply publish_inner_wp.
  - intros frame _ Hw. destruct (within_sequence _ _ Hi Hw) as [E Hle].
    destruct (commit_inv false false p generation event frame (Some (canonical, forkchoice, false)) Hi Hw)
      as [Hi' Hc'].
    + apply Hready.
    + assert (stream_state false ((attempted p) <| pb_shared ::=
        commit_frame (wrapping_add (sh_sequence (pb_shared p)) 1) (next_envelope p generation event) frame
          (Some (canonical, forkchoice, false)) |>) =
        mkStreamState (wire.sequence (next_envelope p generation event)) false (active_generation p)
          (ws_len (pj_watch_set (canonical_projection p)))) as ->.
      { unfold stream_state, active_generation, canonical_projection, published. simpl.
        by rewrite Hgen, Hlen. }
      apply (step_data params (stream_state false p) (next_envelope p generation event) event); simpl; [by eapply next_envelope_wf|done|done| |done|done].
      rewrite E. by rewrite <- Hc.
    + split_and!; [by split|done..].
  - intros e _ Hw. by apply attempted_faulted.
Qed.

(** ** Retirement *)

Lemma chunks_aux_spec {A} (n : nat) fuel : ∀ l : list A,
  (0 < n)%nat → (length l ≤ fuel)%nat →
  concat (chunks_aux fuel n l) = l ∧ Forall (λ c, c ≠ [] ∧ (length c ≤ n)%nat) (chunks_aux fuel n l).
Proof.
  induction fuel as [|fuel IH]; intros [|x l] Hn Hf; cbn [chunks_aux]; try (simpl in *; lia);
    try (split; [done|constructor]).
  destruct (IH (drop n (x :: l)) Hn) as [Hc Hall].
  { rewrite length_drop. simpl in *. lia. }
  cbn [concat]. rewrite Hc, take_drop. split; [done|]. constructor; [|done]. split.
  - by destruct n; [lia|].
  - rewrite length_take. lia.
Qed.

Lemma chunks_spec {A} (n : nat) (l : list A) :
  (0 < n)%nat →
  concat (chunks n l) = l ∧ Forall (λ c, c ≠ [] ∧ (length c ≤ n)%nat) (chunks n l).
Proof. intros. by apply chunks_aux_spec. Qed.

Lemma batch_size_pos m : (0 < N.to_nat (batch_size m))%nat.
Proof. unfold batch_size. lia. Qed.

Lemma hash_wf_to_vec h : hash_wf (to_vec h).
Proof. unfold hash_wf, len. by rewrite length_to_vec. Qed.

Lemma retired_data_wf caps keys batch reason :
  has_cap caps wire.CAP_CANDIDATE_RETIREMENT = true → batch ≠ [] → reason ≠ wire.ReasonUnspecified →
  data_wf caps keys (wire.EvCandidatesRetired
    {| wire.rt_block_hashes := to_vec <$> batch; wire.rt_reason := wire.reason_i32 reason |}).
Proof.
  intros Hcap Hne Hr. simpl. split_and!; [done|by destruct batch| |by exists reason].
  apply Forall_fmap, Forall_true. intros h. apply hash_wf_to_vec.
Qed.

Lemma publish_batches_wp generation reason batches : ∀ p,
  caps_ok params → reason ≠ wire.ReasonUnspecified → Forall (λ b, b ≠ []) batches →
  live p → generation = active_generation p →
  wp (publish_batches generation reason batches)
    (hreturns (λ _ p', live p' ∧ pb_cache p' = pb_cache p ∧ same_state p p') faulted) p.
Proof.
  induction batches as [|batch batches IH]; intros p Hcaps Hr Hall Hl Hg; cbn [publish_batches].
  { by apply hp_ret. }
  apply Forall_cons in Hall as [Hne Hall].
  eapply hp_call; [solve_mono|apply publish_data_wp; [done|done|]| |done|done].
  { by apply retired_data_wf; [apply Hcaps|..]. }
  intros _ p1 _ (Hl1 & Hc1 & Hs1). eapply hp_mono; [apply IH; try done| |done|done].
  - unfold active_generation, canonical_projection in *. by rewrite (proj1 Hs1).
  - intros _ p2 _ (Hl2 & Hc2 & Hs2). split_and!; [done|congruence|by eapply same_state_trans].
Qed.

Lemma publish_retired_wp generation hashes reason p :
  caps_ok params → reason ≠ wire.ReasonUnspecified → live p → generation = active_generation p →
  wp (publish_retired generation hashes reason)
    (hreturns (λ _ p', live p' ∧ pb_cache p' = pb_cache p ∧ same_state p p') faulted) p.
Proof.
  intros Hcaps Hr Hl Hg. unfold publish_retired. case_decide; [by apply hp_ret|].
  wp_steps. apply publish_batches_wp; try done.
  eapply Forall_impl; [apply chunks_spec, batch_size_pos|]. naive_solver.
Qed.

(** ** Cache operations *)

Lemma trim_projection_cache_wp generation inserted p :
  caps_ok params → live p → generation = active_generation p →
  wp (trim_projection_cache generation inserted)
    (hreturns (λ _ p', live p' ∧ same_state p p' ∧
        projection_count (pb_cache p') ≤ cache_limit (pb_cache p') ∧
        ∃ r, trims r (pb_cache p) (pb_cache p')) faulted) p.
Proof.
  intros Hcaps Hl Hg. unfold trim_projection_cache. wp_steps. pose proof Hl as (Hi & _).
  eapply hp_call; [solve_mono|..].
  - eapply (hp_on_cache _ _ _ (λ r p', ∃ c, p' = p <| pb_cache := c |> ∧ trims r (pb_cache p) c ∧
      projection_count c ≤ cache_limit c) faulted).
    + apply (trim_projection_loop_wp inserted (length (projection_order (pb_cache p)))).
      * apply Hi.
      * apply Hi.
      * lia.
      * unfold trim_projection_fuel. lia.
    + intros r c (more & -> & Ht & Hle). eauto.
    + intros c [more (Hok & Hq & Hs & _)]. by apply live_faulted, (live_shrinks more).
  - intros r p1 _ (c & -> & Ht & Hle). pose proof Ht as (Hok & Hq & Hs & _).
    eapply hp_mono; [apply publish_retired_wp; [done|done|by eapply live_shrinks|done]| |done|done].
    intros _ p2 _ (Hl2 & Hc2 & Hs2). rewrite Hc2. split_and!; eauto.
  - done.
  - done.
Qed.

Lemma trim_metadata_wp generation p :
  caps_ok params → live p → generation = active_generation p →
  wp (trim_metadata generation)
    (hreturns (λ _ p', live p' ∧ same_state p p' ∧
        metadata_len (pb_cache p') ≤ metadata_limit (pb_cache p') ∧
        ∃ r, trims r (pb_cache p) (pb_cache p')) faulted) p.
Proof.
  intros Hcaps Hl Hg. unfold trim_metadata. wp_steps. pose proof Hl as (Hi & _).
  eapply hp_call; [solve_mono|..].
  - eapply (hp_on_cache _ _ _ (λ r p', ∃ c, p' = p <| pb_cache := c |> ∧ trims r (pb_cache p) c ∧
      metadata_len c ≤ metadata_limit c) faulted).
    + apply trim_metadata_loop_wp; [apply Hi|apply Hi|apply Hi|].
      apply trim_metadata_measure_fuel.
    + intros r c (more & -> & Ht & Hle). eauto.
    + done.
  - intros r p1 _ (c & -> & Ht & Hle). pose proof Ht as (Hok & Hq & Hs & _).
    eapply hp_mono; [apply publish_retired_wp; [done|done|by eapply live_shrinks|done]| |done|done].
    intros _ p2 _ (Hl2 & Hc2 & Hs2). rewrite Hc2. split_and!; eauto.
  - done.
  - done.
Qed.

Lemma same_state_generation p p' : same_state p p' → active_generation p' = active_generation p.
Proof. intros [E _]. unfold active_generation, canonical_projection. by rewrite E. Qed.

(** [insert_candidate] restores the cache limits whatever it inserts. *)
Lemma insert_candidate_wp projection stage first_sequence p :
  caps_ok params → live p → aligned p → ws_generation (pj_watch_set projection) = active_generation p →
  wp (insert_candidate projection stage true first_sequence)
    (hreturns (λ _ p', idle p' ∧ same_state p p' ∧ canonical_hash (pb_cache p') = canonical_hash (pb_cache p) ∧
        ∃ t r, trims r (insert_candidate_entry t (retention (pb_policy p)) projection stage true first_sequence
                          (pb_cache p)) (pb_cache p'))
      faulted) p.
Proof.
  intros Hcaps Hl Hal Hg. unfold insert_candidate. apply hp_now; [solve_mono|]. intros t Hw. wp_steps.
  pose proof Hl as (Hi & _).
  assert (Hlt : next_incarnation (pb_cache p) < u64_max).
  { pose proof (iv_incarnation _ _ _ _ _ Hi). unfold within in Hw. simpl in Hw. lia. }
  destruct (insert_candidate_entry_spec t (retention (pb_policy p)) projection stage first_sequence
    (pb_cache p) (iv_cache _ _ _ _ _ Hi) Hlt) as (e & fresh & gained & ch & sweep & Heq & Hpl & _).
  set (c1 := placed _ e fresh gained ch sweep (pb_cache p)) in *.
  assert (Hl1 : live (p <| pb_tick ::= S |> <| pb_cache ::=
      insert_candidate_entry t (retention (pb_policy p)) projection stage true first_sequence |>)).
  { change (live ((p <| pb_tick ::= S |>) <| pb_cache :=
      insert_candidate_entry t (retention (pb_policy p)) projection stage true first_sequence (pb_cache p) |>)).
    rewrite Heq. apply live_cache; [by apply live_tick|apply placed_ok; [apply Hi|done]
      |apply placed_bounded; [apply Hi|done|apply Hi]| |done|done].
    pose proof (iv_incarnation _ _ _ _ _ Hi). simpl. destruct fresh; lia. }
  eapply hp_call; [solve_mono|by apply trim_projection_cache_wp| |done|done].
  intros _ p1 _ (Hl2 & Hs2 & Hcount & r & Ht). simpl in Ht. rewrite Heq in Ht. fold c1 in Ht.
  apply hp_measured; [by intros p2 (?%(idle_measured set_candidate_metric) & ?)|].
  eapply hp_mono; [apply trim_metadata_wp; [done|done|]| |done|done].
  { rewrite (same_state_generation _ _ Hs2). done. }
  intros _ p2 _ (Hl3 & Hs3 & Hlen & r' & Ht').
  pose proof (trims_trans _ _ _ _ _ Ht Ht') as Htt. destruct Ht as (Hok1 & _ & Hsh1 & _).
  destruct Ht' as (Hok2 & _ & Hsh2 & _).
  assert (Hcan : canonical_hash (pb_cache p2) = canonical_hash (pb_cache p)).
  { destruct (sk_fixed _ _ _ Hsh1) as (_&_&_&E1&_), (sk_fixed _ _ _ Hsh2) as (_&_&_&E2&_). by rewrite E2, E1. }
  assert (Hsame : same_state p p2) by by eapply same_state_trans.
  split_and!.
  - split; [done|]. split; [|by eapply aligned_same]. split; [done|].
    pose proof (shrinks_count _ _ _ Hok1 Hok2 Hsh2). destruct (sk_fixed _ _ _ Hsh2) as (_ & -> & _). lia.
  - done.
  - done.
  - exists t. rewrite Heq. eauto.
Qed.

Lemma insert_deferred_executed_wp block changes p :
  caps_ok params → idle p →
  wp (insert_deferred_executed block changes) (hreturns (λ _ p', idle p' ∧ same_state p p') faulted) p.
Proof.
  intros Hcaps (Hl & Hb & Ha). unfold insert_deferred_executed. wp_steps. case_decide; [by apply hp_ret|].
  case_decide as D; [by apply hp_ret|]. apply hp_now; [solve_mono|]. intros t Hw. wp_steps.
  pose proof Hl as (Hi & _).
  assert (Hlt : next_incarnation (pb_cache p) < u64_max).
  { pose proof (iv_incarnation _ _ _ _ _ Hi). unfold within in Hw. simpl in Hw. lia. }
  apply eq_None_not_Some in D.
  destruct (insert_deferred_entry_spec t (retention (pb_policy p)) block changes (pb_cache p) Hlt D)
    as (d & fresh & ch & sweep & Heq & Hdb & _ & Hfr).
  set (c1 := deferred_put _ d fresh ch sweep (pb_cache p)) in *.
  assert (Hl1 : live (p <| pb_tick ::= S |> <| pb_cache ::=
      insert_deferred_entry t (retention (pb_policy p)) block changes |>)).
  { change (live ((p <| pb_tick ::= S |>) <| pb_cache :=
      insert_deferred_entry t (retention (pb_policy p)) block changes (pb_cache p) |>)).
    rewrite Heq. apply live_cache; [by apply live_tick| | | |done|done].
    - apply deferred_put_ok; [apply Hi|by rewrite Hdb|done|done].
    - apply deferred_put_bounded; [apply Hi|apply Hi|by rewrite Hdb|done|done].
    - pose proof (iv_incarnation _ _ _ _ _ Hi). simpl. destruct fresh; lia. }
  apply hp_measured; [by intros p2 (?%(idle_measured set_candidate_metric) & ?)|].
  eapply hp_mono; [by apply trim_metadata_wp| |done|done].
  intros _ p2 _ (Hl3 & Hs3 & Hlen & r' & Ht'). simpl in Ht'. rewrite Heq in Ht'. fold c1 in Ht'.
  destruct Ht' as (Hok2 & _ & Hsh2 & _). split; [|done].
  assert (cache_ok c1) as Hok1 by (apply deferred_put_ok; [apply Hi|by rewrite Hdb|done|done]).
  pose proof (shrinks_count _ _ _ Hok1 Hok2 Hsh2). destruct (sk_fixed _ _ _ Hsh2) as (_ & E1 & _ & E2 & _).
  split; [done|]. split; [split; [done|]|by eapply aligned_same]. rewrite E1. destruct Hb. simpl in *. lia.
Qed.

Lemma idle_shrinks r p c :
  idle p → cache_ok c → queues_bounded c → shrinks r (pb_cache p) c → idle (p <| pb_cache := c |>).
Proof.
  intros (Hl & [Hb1 Hb2] & Ha) Hok Hq Hsh. pose proof Hl as (Hi & _).
  split; [by eapply live_shrinks|]. unfold bounded, aligned. simpl.
  pose proof (shrinks_count _ _ _ (iv_cache _ _ _ _ _ Hi) Hok Hsh).
  pose proof (shrinks_len _ _ _ (iv_cache _ _ _ _ _ Hi) Hok Hsh).
  destruct (sk_fixed _ _ _ Hsh) as (_ & -> & -> & -> & _). split; [lia|exact Ha].
Qed.

Lemma idle_trims r p c : idle p → trims r (pb_cache p) c → idle (p <| pb_cache := c |>).
Proof. intros Hid (Hok & Hq & Hsh & _). by eapply idle_shrinks. Qed.

Lemma idle_same_cache p p' :
  live p' → pb_cache p' = pb_cache p → bounded p → same_state p p' → aligned p → idle p'.
Proof.
  intros Hl E Hb Hs Ha. split; [done|]. split; [unfold bounded; by rewrite E|].
  eapply aligned_same; [done|done|by rewrite E].
Qed.

Lemma process_finality_budget_wp generation budget p :
  caps_ok params → idle p → generation = active_generation p →
  wp (process_finality_budget generation budget)
    (hreturns (λ work p', idle p' ∧ same_state p p' ∧ work ≤ budget ∧
       ∃ r, sweeps (∀ s, finality_sweep (pb_cache p) = Some s → walk_safe (pb_cache p) s)
              r (pb_cache p) (pb_cache p')) faulted) p.
Proof.
  intros Hcaps Hid Hg. unfold process_finality_budget. wp_step. pose proof Hid as [(Hi & _) _].
  eapply hp_call; [solve_mono|..].
  - eapply (hp_on_cache _ _ _ (λ res p', ∃ c, p' = p <| pb_cache := c |> ∧ res.1 ≤ budget ∧
      sweeps (∀ s, finality_sweep (pb_cache p) = Some s → walk_safe (pb_cache p) s) res.2 (pb_cache p) c)
      (λ _, False)); [apply finality_pass_wp; apply Hi| |done].
    intros res c [Hs Hle]. eauto.
  - intros [work r] p1 _ (c & -> & Hle & Hs). simpl in *. pose proof Hs as (Hok & Hq & Hsh & _).
    assert (idle (p <| pb_cache := c |>)) as Hidle by by eapply idle_shrinks.
    eapply hp_call; [solve_mono|apply publish_retired_wp; [done|done|apply Hidle|done]| |done|done].
    intros _ p2 _ (Hl2 & Hc2 & Hs2).
    assert (Hid2 : idle p2) by by eapply (idle_same_cache (p <| pb_cache := c |>)); try apply Hidle.
    destruct (finality_sweep _); [wp_steps|apply wp_bind, wp_ret]; apply hp_ret; simpl; rewrite ?Hc2;
      (split_and!; [try apply idle_measured; done|done|done|eauto]).
  - done.
  - done.
Qed.

Lemma remove_due_wp due : ∀ c,
  cache_ok c → queues_bounded c → Forall (λ h, h ≠ canonical_hash c) due →
  wp (remove_due due) (returns (λ expired c', trims expired c c') (λ _, False)) c.
Proof.
  induction due as [|h due IH]; intros c Hok Hb Hall; cbn [remove_due].
  { apply wp_ret. by apply trims_refl. }
  apply Forall_cons in Hall as [Hne Hall].
  eapply wp_call; [by apply remove_one_trims| |done]. intros t c1 (_ & Ht & _).
  pose proof Ht as (Hok1 & Hb1 & Hs1 & _).
  eapply wp_call; [apply IH; [done|done|]| |done].
  { destruct (sk_fixed _ _ _ Hs1) as (_&_&_&->&_). done. }
  intros expired c2 Ht2. apply wp_ret. simpl. pose proof (trims_trans _ _ _ _ _ Ht Ht2) as Htt.
  by destruct t.
Qed.

Lemma due_hashes_not_canonical c t budget : Forall (λ h, h ≠ canonical_hash c) (due_hashes c t budget).
Proof.
  unfold due_hashes. cbv zeta. apply Forall_app. split; apply Forall_take, Forall_forall;
    intros h ([k e] & -> & [[Hne _] _]%list_elem_of_filter)%list_elem_of_fmap; done.
Qed.

Lemma idle_tick p : idle p → idle (p <| pb_tick ::= S |>).
Proof. intros [? ?]. split; [by apply live_tick|done]. Qed.

Lemma maintain_wp p :
  caps_ok params → idle p →
  wp maintain (hreturns (λ _ p', idle p' ∧ same_state p p') faulted) p.
Proof.
  intros Hcaps Hidle. unfold maintain. apply hp_now; [solve_mono|]. intros t Hw. wp_steps.
  eapply hp_call; [solve_mono|apply process_finality_budget_wp; [done|by apply idle_tick|done]| |done|done].
  intros work p1 _ (Hid1 & Hs1 & _). wp_steps. pose proof Hid1 as [(Hi1 & _) _].
  eapply hp_call; [solve_mono|..].
  - eapply (hp_on_cache _ _ _ (λ r p', ∃ c, p' = p1 <| pb_cache := c |> ∧ trims r (pb_cache p1) c) (λ _, False)).
    + apply remove_due_wp; [apply Hi1|apply Hi1|apply due_hashes_not_canonical].
    + eauto.
    + done.
  - intros r p2 _ (c & -> & Ht). pose proof (idle_trims _ _ _ Hid1 Ht) as Hid2.
    apply hp_measured; [by intros p3 (?%(idle_measured set_candidate_metric) & ?)|].
    eapply hp_mono; [apply publish_retired_wp; [done|done|apply Hid2|]| |done|done].
    + rewrite <- (same_state_generation _ _ Hs1). done.
    + intros _ p3 _ (Hl3 & Hc3 & Hs3). split; [by eapply idle_same_cache; try apply Hid2|].
      eapply same_state_trans; [exact Hs1|exact Hs3].
  - done.
  - done.
Qed.

(** ** Candidates *)

Lemma promote_entry_idle p h e :
  idle p → candidates (pb_cache p) !! h = Some e →
  idle (p <| pb_cache ::= λ c, c <| candidates ::= insert h (e <| ce_stage := CandidateValidated |>) |> |>).
Proof.
  intros (Hl & Hb & Ha) He. pose proof Hl as (Hi & _). split; [|split; [|done]].
  - apply (live_cache p ((pb_cache p) <| candidates ::= insert h (e <| ce_stage := CandidateValidated |>) |>));
      try done.
    + by eapply entry_update_ok; [apply Hi|..].
    + by eapply entry_update_bounded; [apply Hi|..].
    + apply Hi.
  - destruct Hb as [Hb1 Hb2]. split; [|done]. unfold metadata_len in *. simpl. by rewrite map_size_insert_Some.
Qed.

Lemma idle_faulted p : idle p → faulted p.
Proof. intros [Hl _]. by apply live_faulted. Qed.

Lemma block_state_wf caps keys (proj : Projection) stage :
  values_wf keys (pj_values proj) → bitmap_wf keys (pj_changed_bitmap proj) →
  (stage = CandidateExecuted → has_cap caps wire.CAP_EXECUTED = true) →
  data_wf caps keys (wire.EvBlockState (block_state proj (stage_wire stage))).
Proof.
  intros Hv Hb Hs. simpl. split_and!; [|done|done|].
  - eexists. split; [done|]. simpl. split; apply hash_wf_to_vec.
  - destruct stage; [right|left]; simpl; auto.
Qed.

Lemma div_ceil_bitmap ws : len (zero_bitmap ws) = bitmap_len ws.
Proof. unfold zero_bitmap, len. rewrite length_replicate. lia. Qed.

Lemma publish_candidate_wp ws generation block changes stage values p :
  caps_ok params → (stage = CandidateExecuted → has_cap (sp_capabilities params) wire.CAP_EXECUTED = true) →
  live p → aligned p → ws = pj_watch_set (canonical_projection p) → generation = active_generation p →
  len values = 32 * ws_len ws →
  wp (publish_candidate ws generation block changes stage values)
    (hreturns (λ _ p', idle p' ∧ same_state p p') faulted) p.
Proof.
  intros Hcaps Hst Hl Hal -> Hg Hv. pose proof Hl as (Hi & _). pose proof (iv_keys _ _ _ _ _ Hi) as Hk.
  unfold publish_candidate. apply hp_lift; [|apply apply_changes_not_diverge|by apply live_faulted].
  intros [values' bitmap] Ha. apply apply_changes_length in Ha as [Hlv Hlb].
  2: { unfold u64_max in *. lia. }
  eapply hp_call; [solve_mono|apply publish_data_wp; [done|done|]| |done|done].
  { apply block_state_wf; [| |done].
    - split; [|done]. unfold len in *. simpl. rewrite Hlv. lia.
    - unfold bitmap_wf. simpl. unfold len. rewrite Hlb. apply div_ceil_bitmap. }
  intros seq p1 _ (Hl1 & Hc1 & Hs1).
  eapply hp_call; [solve_mono|apply insert_candidate_wp; [done|done| |]| |done|done].
  { eapply aligned_same; [done|done|by rewrite Hc1]. }
  { simpl. rewrite (same_state_generation _ _ Hs1). done. }
  intros _ p2 _ (Hid2 & Hs2 & _). apply hp_ret. split; [done|]. by eapply same_state_trans.
Qed.

(** A step that only reads the clock, the provider or the shutdown channel. *)
Lemma hp_ticking {A B} (m : M Publisher Error A) v (k : A → M Publisher Error B) (Q : B → Publisher → Prop) Qe Qd p :
  m p = (Ok v, p <| pb_tick ::= S |>) → (∀ a, Mono (k a)) →
  (within (p <| pb_tick ::= S |>) → wp (k v) (hpost Q Qe Qd) (p <| pb_tick ::= S |>)) →
  wp (m ≫= k) (hpost Q Qe Qd) p.
Proof.
  intros Hm Hmono Hk.
  eapply (hp_call _ _ (λ a p1, a = v ∧ p1 = p <| pb_tick ::= S |>) (λ _, False) (λ _, False)); [done| |..].
  - unfold wp. rewrite Hm. by intros _.
  - intros a p1 Hw [-> ->]. auto.
  - done.
  - done.
Qed.

Lemma hp_throw_bind {A B} e (k : A → M Publisher Error B) (Q : B → Publisher → Prop) Qe Qd p :
  Qe p → wp (throw e ≫= k) (hpost Q Qe Qd) p.
Proof. by intros ? ?. Qed.

Lemma dictionary_len pj ws :
  validate_projection_dictionary pj ws = Ok () → ws_len (pj_watch_set pj) = ws_len ws.
Proof. intros [_ Hk]%validate_projection_dictionary_Ok. unfold ws_len. by rewrite Hk. Qed.

Lemma dictionary_config pj ws :
  validate_projection_dictionary pj ws = Ok () → config_activated (pj_watch_set pj) = config_activated ws.
Proof. intros [_ Hk]%validate_projection_dictionary_Ok. unfold config_activated. by rewrite Hk. Qed.

Lemma dictionary_not_diverge pj ws : validate_projection_dictionary pj ws ≠ Diverge.
Proof. unfold validate_projection_dictionary, ensure. by destruct (dictionaries_match _ _). Qed.

Lemma shape_not_diverge pj : validate_projection_shape pj ≠ Diverge.
Proof. unfold validate_projection_shape. by repeat case_match. Qed.

Lemma shape_keys pj : validate_projection_shape pj = Ok () → 32 * ws_len (pj_watch_set pj) ≤ u64_max.
Proof.
  unfold validate_projection_shape, checked_mul.
  destruct (N.leb_spec (ws_len (pj_watch_set pj) * 32) u64_max); [lia|done].
Qed.

Lemma ok_or_not_diverge {A} (o : option A) (e : Error) : ok_or o e ≠ Diverge.
Proof. by destruct o. Qed.

Lemma parent_values_wp ws generation block changes stage p :
  caps_ok params → idle p → ws = pj_watch_set (canonical_projection p) →
  wp (parent_values ws generation block changes stage)
    (hreturns (λ res p', idle p' ∧ same_state p p' ∧
       ∀ values, res = Some values → len values = 32 * ws_len ws) faulted) p.
Proof.
  intros Hcaps Hid Hws. pose proof Hid as [(Hi & _) _]. pose proof (iv_keys _ _ _ _ _ Hi) as Hk. rewrite <- Hws in Hk.
  unfold parent_values. wp_steps.
  destruct (candidates (pb_cache p) !! bm_parent_hash block ≫= ce_projection) as [parent|].
  - apply hp_lift; [|apply ok_or_not_diverge|by apply idle_faulted]. intros expected _.
    destruct (negb (bm_number block =? expected)); [by apply hp_throw, idle_faulted|].
    destruct (N.eqb_spec (len (pj_values parent)) (saturating_mul (ws_len ws) 32)) as [El|];
      rewrite ?orb_true_r, ?orb_false_r; cbn [negb]; rewrite ?orb_false_r, ?orb_true_r.
    + destruct (negb _); [by apply hp_throw, idle_faulted|]. apply hp_ret. split_and!; [done|done|].
      intros values [= <-]. rewrite El. unfold saturating_mul. lia.
    + by apply hp_throw, idle_faulted.
  - apply wp_on_metrics. apply (idle_measured (λ _ m, m <| candidate_parent_cache_misses ::= N.add 1 |>)) in Hid.
    case_decide.
    + eapply hp_call; [solve_mono|by apply insert_deferred_executed_wp| |done|done].
      intros _ p1 _ [Hid1 Hs1]. by apply hp_ret.
    + eapply hp_ticking; [done|solve_mono|]. intros Hw. pose proof (idle_tick _ Hid) as Hid1.
      destruct (load_at _ _ _) as [projection|e]; [|by apply hp_ret].
      apply hp_lift; [|apply dictionary_not_diverge|by apply idle_faulted]. intros [] Hd.
      apply hp_lift; [|apply ok_or_not_diverge|by apply idle_faulted]. intros expected _.
      destruct (_ || _); [by apply hp_throw, idle_faulted|].
      apply hp_lift; [|apply shape_not_diverge|by apply idle_faulted]. intros [] Hshape. apply hp_ret.
      split_and!; [done|done|]. intros values [= <-].
      apply validate_projection_shape_Ok in Hshape as [Hv _]. rewrite <- (dictionary_len _ _ Hd). apply Hv.
Qed.

Lemma promote_with_wp f generation block_hash p :
  caps_ok params → idle p →
  (∀ d, candidates (pb_cache p) !! block_hash = None → deferred_executed (pb_cache p) !! block_hash = Some d →
    wp (f generation (de_block d) (de_changes d) CandidateValidated)
      (hreturns (λ _ p', idle p' ∧ same_state p p') faulted) p) →
  wp (promote_validated_with f generation block_hash)
    (hreturns (λ _ p', idle p' ∧ same_state p p') faulted) p.
Proof.
  intros Hcaps Hid Hf. unfold promote_validated_with. wp_steps.
  destruct (N.ltb_spec generation (active_generation p)); [by apply hp_ret|].
  destruct (N.ltb_spec (active_generation p) generation); [by apply hp_throw, idle_faulted|].
  wp_steps. destruct (candidates (pb_cache p) !! block_hash) as [e|] eqn:E; cbv zeta.
  - case_decide; [by apply hp_ret|]. destruct (ce_projection e) as [projection|].
    + destruct (negb _); [by apply hp_ret|].
      eapply hp_call; [solve_mono|apply publish_data_wp; [apply Hid|lia|]| |done|done].
      { simpl. apply hash_wf_to_vec. }
      intros seq p1 _ (Hl1 & Hc1 & Hs1). wp_steps. intros _. split; [|exact Hs1].
      apply promote_entry_idle; [eapply idle_same_cache; [done|done|apply Hid|done|apply Hid]|by rewrite Hc1].
    + wp_steps. intros _. split; [|done]. by apply promote_entry_idle.
  - destruct (deferred_executed (pb_cache p) !! block_hash) as [d|] eqn:Ed; [|by apply hp_ret]. by apply Hf.
Qed.

(** [project_candidate] returns at any positive depth: the call it makes to [promote_validated]
    finds a candidate and does not call back. *)
Lemma project_candidate_wp depth generation block changes stage p :
  caps_ok params → (stage = CandidateExecuted → has_cap (sp_capabilities params) wire.CAP_EXECUTED = true) →
  idle p →
  wp (project_candidate_aux (S depth) generation block changes stage)
    (hreturns (λ _ p', idle p' ∧ same_state p p') faulted) p.
Proof.
  intros Hcaps Hst Hid. cbn [project_candidate_aux]. wp_steps. cbv zeta.
  destruct (N.ltb_spec generation (ws_generation (pj_watch_set (canonical_projection p)))); [by apply hp_ret|].
  destruct (N.ltb_spec (ws_generation (pj_watch_set (canonical_projection p))) generation);
    [by apply hp_throw, idle_faulted|].
  wp_steps. case_decide; [by apply hp_ret|].
  match goal with |- wp (match _ with Some _ => _ | None => ?new end) _ _ =>
    assert (Hnew : wp new (hreturns (λ _ p', idle p' ∧ same_state p p') faulted) p) end.
  { wp_steps. destruct (_ && _); [by apply hp_ret|].
    eapply hp_call; [solve_mono|by apply parent_values_wp| |done|done].
    intros res p1 _ (Hid1 & Hs1 & Hv). destruct res as [values|]; [|by apply hp_ret].
    eapply hp_mono; [apply publish_candidate_wp; try done|..].
    - apply Hid1.
    - apply Hid1.
    - unfold canonical_projection. by rewrite (proj1 Hs1).
    - rewrite (same_state_generation _ _ Hs1). unfold active_generation. lia.
    - by apply Hv.
    - intros _ p2 _ [Hid2 Hs2]. split; [done|]. by eapply same_state_trans.
    - done.
    - done. }
  destruct (candidates (pb_cache p) !! bm_hash block) as [e|] eqn:E; [|exact Hnew].
  case_decide; [by apply hp_throw, idle_faulted|]. case_decide; [|exact Hnew].
  case_decide; [|by apply hp_ret]. apply promote_with_wp; [done|done|]. intros d. by rewrite E.
Qed.

Lemma promote_validated_wp generation block_hash p :
  caps_ok params → idle p →
  wp (promote_validated generation block_hash) (hreturns (λ _ p', idle p' ∧ same_state p p') faulted) p.
Proof.
  intros Hcaps Hid. apply promote_with_wp; [done|done|]. intros d _ _. by apply project_candidate_wp.
Qed.

Lemma remove_tree_wp root terminal p :
  idle p → wp (remove_tree root terminal) (hreturns (λ _ p', idle p' ∧ same_state p p') (λ _, False)) p.
Proof.
  intros Hid. pose proof Hid as ((Hi & _) & _). unfold remove_tree. wp_step. eapply hp_call; [solve_mono|..].
  - eapply (hp_on_cache _ _ _ (λ _ p', ∃ c, p' = p <| pb_cache := c |> ∧ idle p') (λ _, False));
      [apply remove_candidate_tree_shrinks; apply Hi| |done].
    intros _ c (Hok & Hq & r & Hs). eexists. split; [done|]. by eapply idle_shrinks.
  - intros _ p2 _ (c & -> & Hid2). destruct (_ =? _); [by apply hp_ret|].
    intros _. split; [by apply (idle_measured set_candidate_metric)|done].
  - done.
  - done.
Qed.

Lemma rejected_wp generation block_hash reason p :
  caps_ok params → idle p → reason ≠ EmptyString →
  wp (rejected generation block_hash reason) (hreturns (λ _ p', idle p' ∧ same_state p p') faulted) p.
Proof.
  intros Hcaps Hid Hr. unfold rejected. wp_steps.
  destruct (N.ltb_spec generation (active_generation p)); [by apply hp_ret|].
  destruct (N.ltb_spec (active_generation p) generation); [by apply hp_throw, idle_faulted|].
  wp_steps. cbv zeta. destruct (negb _); [by apply hp_ret|].
  eapply hp_call; [solve_mono|apply publish_data_wp; [apply Hid|lia|]| |done|done].
  { simpl. split; [apply hash_wf_to_vec|done]. }
  intros _ p1 _ (Hl1 & Hc1 & Hs1).
  assert (Hid1 : idle p1) by (eapply idle_same_cache; [done|done|apply Hid|done|apply Hid]).
  eapply hp_call; [solve_mono|by apply remove_tree_wp| |done|done].
  intros _ p2 _ [Hid2 Hs2]. apply hp_ret. split; [done|]. by eapply same_state_trans.
Qed.

(** ** Canonical head *)

Lemma canonical_bitmap_shape previous next bitmap :
  canonical_changed_bitmap previous next = Ok bitmap →
  bitmap_wf (ws_len (pj_watch_set next)) bitmap.
Proof.
  unfold canonical_changed_bitmap, bitmap_wf. destruct (_ || _); [done|].
  destruct (_ =? bm_hash _); cbn [andb]; [destruct (N.eqb_spec (len (pj_changed_bitmap next))
    (bitmap_len (pj_watch_set next))) as [E|]|].
  { intros [= <-]. exact E. }
  all: destruct (diff_bitmap _ _ _) as [b|] eqn:Ed; [|done]; cbn [ok_or]; intros [= <-].
  all: apply diff_bitmap_length in Ed; unfold len; rewrite Ed; apply div_ceil_bitmap.
Qed.

Lemma canonical_bitmap_not_diverge previous next : canonical_changed_bitmap previous next ≠ Diverge.
Proof. unfold canonical_changed_bitmap. repeat case_match; try done. apply ok_or_not_diverge. Qed.

Lemma canonical_source_wp generation active ws block_hash p :
  idle p →
  wp (canonical_source generation active ws block_hash)
    (hreturns (λ _ p', idle p' ∧ same_state p p' ∧ pb_cache p' = pb_cache p) faulted) p.
Proof.
  intros Hid. unfold canonical_source. wp_steps.
  destruct (if generation =? active then _ else None) as [projection|]; [by apply hp_ret|].
  eapply hp_ticking; [done|solve_mono|]. intros Hw. pose proof (idle_tick _ Hid).
  destruct (load_at _ _ _); [by apply hp_ret|by apply hp_throw, idle_faulted].
Qed.

Lemma commit_canonical_cache t retention seq previous h c :
  cache_ok c → queues_bounded c →
  let c' := commit_canonical t retention seq previous h c in
  cache_ok c' ∧ queues_bounded c' ∧ next_incarnation c' = next_incarnation c ∧
  cache_limit c' = cache_limit c ∧ metadata_limit c' = metadata_limit c ∧
  metadata_len c' = metadata_len c ∧ projection_count c' = projection_count c ∧ canonical_hash c' = h.
Proof.
  intros Hok Hb. cbv zeta. unfold commit_canonical.
  destruct (schedule_expiry_ok t retention previous (c <| canonical_hash := h |>)) as [Ho Hq];
    [by apply cache_ok_canonical|by apply queues_bounded_canonical|].
  destruct (schedule_expiry_fields t retention previous (c <| canonical_hash := h |>))
    as (? & ? & ? & Hm & ? & ?).
  set (c1 := schedule_expiry t retention previous (c <| canonical_hash := h |>)) in *. clearbody c1.
  change (metadata_len _) with (metadata_len c) in Hm at 2. cbv zeta.
  destruct (candidates c1 !! h) as [e|] eqn:E; [|done]. destruct (_ =? 0); [|done].
  split_and!; try done; [by eapply entry_update_ok|by eapply entry_update_bounded|].
  rewrite <- Hm. unfold metadata_len. simpl. by rewrite map_size_insert_Some.
Qed.

Lemma canonical_head_wf caps keys previous (proj : Projection) bitmap :
  validate_projection_shape proj = Ok () → ws_len (pj_watch_set proj) = keys → 32 * keys ≤ u64_max →
  bitmap_wf keys bitmap →
  data_wf caps keys (wire.EvCanonicalHead
    {| wire.ch_previous_block_hash := to_vec previous; wire.ch_block := Some (block_ref (pj_block proj));
       wire.ch_values := pj_values proj; wire.ch_changed_bitmap := bitmap |}).
Proof.
  intros [Hv _]%validate_projection_shape_Ok <- Hk Hb. simpl. split_and!; [apply hash_wf_to_vec| | |by right].
  - eexists. split; [done|]. split; apply hash_wf_to_vec.
  - by split.
Qed.

Lemma shape_values_wf pj :
  validate_projection_shape pj = Ok () → values_wf (ws_len (pj_watch_set pj)) (pj_values pj).
Proof. intros Hs. split; [|by apply shape_keys]. by apply validate_projection_shape_Ok in Hs as [Hv _]. Qed.

(** A validated projection under the dictionary [ws] can be served. *)
Lemma ready_projection pj ws forkchoice seq recovering :
  dictionary_wf (config_activated ws) → validate_projection_dictionary pj ws = Ok () →
  validate_projection_shape pj = Ok () →
  (∀ v, forkchoice = Some v → validate_forkchoice_checkpoints v = Ok ()) →
  ready (mkPublishedState pj forkchoice seq recovering).
Proof.
  intros Hd Hm Hs Hf. split_and!; [|by apply shape_values_wf|done]. simpl. by rewrite (dictionary_config _ _ Hm).
Qed.

(** The dictionary in force does not change. *)
Definition same_dictionary (p p' : Publisher) : Prop :=
  active_generation p' = active_generation p ∧
  ws_len (pj_watch_set (canonical_projection p')) = ws_len (pj_watch_set (canonical_projection p)).

Lemma same_state_dictionary p p' : same_state p p' → same_dictionary p p'.
Proof. intros [E _]. unfold same_dictionary, active_generation, canonical_projection. by rewrite E. Qed.

Lemma canonical_wp generation observed_at expected block_hash p :
  caps_ok params → idle p →
  wp (canonical generation observed_at expected block_hash)
    (hreturns (λ _ p', idle p' ∧ same_dictionary p p' ∧ pb_policy p' = pb_policy p) faulted) p.
Proof.
  intros Hcaps Hid. unfold canonical. wp_steps.
  destruct (_ <? _); [by apply hp_throw, idle_faulted|]. wp_steps.
  destruct (_ <=? _); [by apply hp_ret|]. wp_steps. destruct (_ =? _); [by apply hp_ret|].
  eapply hp_call; [solve_mono|by apply canonical_source_wp| |done|done].
  intros proj p1 _ (Hid1 & Hs1 & Hc1). pose proof (idle_faulted _ Hid1) as Hf1.
  apply hp_lift; [|apply dictionary_not_diverge|done]. intros [] Hd.
  destruct (N.eqb_spec (bm_hash (pj_block proj)) block_hash) as [Hhash|]; cbn [negb orb]; [|by apply hp_throw].
  destruct (match expected with Some _ => _ | None => _ end); [by apply hp_throw|].
  apply hp_lift; [|apply shape_not_diverge|done]. intros [] Hshape.
  apply hp_lift; [|apply canonical_bitmap_not_diverge|done]. intros bitmap Hbm. wp_steps.
  pose proof (dictionary_len _ _ Hd) as Hlen.
  pose proof (proj1 (validate_projection_dictionary_Ok _ _) Hd) as [Hgen _].
  destruct (same_state_dictionary _ _ Hs1) as [Hg1 Hk1].
  eapply hp_call; [solve_mono|apply insert_candidate_wp; [done|apply Hid1|apply Hid1|]| |done|done].
  { rewrite Hg1. exact Hgen. }
  intros _ p2 _ (Hid2 & Hs2 & Hcan2 & _). destruct (same_state_dictionary _ _ Hs2) as [Hg2 Hk2].
  pose proof Hid2 as (Hl2 & Hb2 & _).
  eapply hp_call; [solve_mono|apply publish_state_wp; [done| | | | |]| |done|done].
  { rewrite Hg2, Hg1. exact Hgen. }
  { rewrite Hg2, Hg1. exact Hgen. }
  { rewrite Hk2, Hk1. exact Hlen. }
  { intros seq. eapply ready_projection; [apply Hid|exact Hd|done|done]. }
  { apply canonical_head_wf; [done|rewrite Hk2, Hk1; exact Hlen|apply (proj1 Hl2)|].
    rewrite Hk2, Hk1, <- Hlen. by eapply canonical_bitmap_shape. }
  intros seq p3 _ (Hl3 & Hc3 & Hpol & Hpub). apply hp_now; [solve_mono|]. intros t Hw. wp_steps. intros _.
  pose proof Hl3 as (Hi3 & _).
  destruct (commit_canonical_cache t (retention (pb_policy p3)) seq (canonical_hash (pb_cache p1)) block_hash
    (pb_cache p3) (iv_cache _ _ _ _ _ Hi3) (iv_queues _ _ _ _ _ Hi3)) as (Ho & Hq & E1 & E2 & E3 & E4 & E5 & E6).
  split_and!.
  - split; [|split].
    + apply (live_cache (p3 <| pb_tick ::= S |>)); [by apply live_tick|done|done| |done|done].
      simpl. rewrite E1. pose proof (iv_incarnation _ _ _ _ _ Hi3). lia.
    + unfold bounded in *. simpl. rewrite E2, E3, E4, E5, Hc3. exact Hb2.
    + unfold aligned, canonical_projection. simpl pb_cache. rewrite E6.
      change (published _) with (published p3). by rewrite Hpub.
  - assert (same_dictionary p p3) as Hsd; [|exact Hsd].
    unfold same_dictionary, active_generation, canonical_projection. rewrite Hpub. by split.
  - simpl. rewrite Hpol. destruct Hs2 as (_ & -> & _), Hs1 as (_ & -> & _). done.
Qed.

(** ** Forkchoice *)

Lemma checkpoints_not_diverge v : validate_forkchoice_checkpoints v ≠ Diverge.
Proof. unfold validate_forkchoice_checkpoints. by repeat case_match. Qed.

Lemma forkchoice_view_wf v :
  validate_forkchoice_checkpoints v = Ok () →
  view_wf (Some (forkchoice_view v)) (checkpoint_ref (fc_head v)).
Proof.
  intros (Hs & Hf & Hsf)%validate_forkchoice_checkpoints_Ok. eexists. split; [done|].
  split; [done|]. split; [apply hash_wf_to_vec|]. split_and!.
  - intros r (c & Hc & ->)%fmap_Some. split; [apply hash_wf_to_vec|]. by apply Hs.
  - intros r (c & Hc & ->)%fmap_Some. split; [apply hash_wf_to_vec|]. by apply Hf.
  - intros s f (c & Hc & ->)%fmap_Some (c' & Hc' & ->)%fmap_Some. by apply Hsf.
Qed.

Lemma begin_sweep_idle p checkpoint :
  idle p →
  idle (p <| pb_cache ::= λ c, begin_finality_sweep checkpoint (c <| last_finalized := Some checkpoint |>) |>).
Proof.
  intros [Hl Hb]. pose proof Hl as (Hi & _). split; [|exact Hb].
  apply (live_cache p (begin_finality_sweep checkpoint ((pb_cache p) <| last_finalized := Some checkpoint |>)));
    try done.
  - destruct (iv_cache _ _ _ _ _ Hi). by split.
  - destruct (iv_queues _ _ _ _ _ Hi). by split.
  - apply Hi.
Qed.

(** The forkchoice fence: the view served to new consumers is the applied one, at its head. *)
Definition fenced (applied : AppliedForkchoiceMeta) (p : Publisher) : Prop :=
  bm_hash (pj_block (canonical_projection p)) = af_head_hash applied ∧
  ps_forkchoice (published p) = Some (resolve applied (bm_number (pj_block (canonical_projection p)))).

Lemma fenced_same applied p p' : fenced applied p → same_state p p' → fenced applied p'.
Proof. intros Hf [E _]. unfold fenced, canonical_projection in *. by rewrite E. Qed.

Lemma forkchoice_applied_wp generation observed_at applied p :
  caps_ok params → idle p →
  wp (forkchoice_applied generation observed_at applied)
    (hreturns (λ (b : bool) p', idle p' ∧ same_dictionary p p' ∧
      if b then fenced applied p' else p' = p ∧ observed_at ≤ snapshot_anchored_at p) faulted) p.
Proof.
  intros Hcaps Hid. unfold forkchoice_applied. wp_steps.
  destruct (_ <? _); [by apply hp_throw, idle_faulted|]. wp_steps.
  destruct (N.leb_spec observed_at (snapshot_anchored_at p)); [by apply hp_ret; split_and!|]. wp_steps.
  eapply (hp_call _ _ (λ _ p1, idle p1 ∧ same_dictionary p p1) faulted (λ _, False)); [solve_mono| |..].
  { destruct (negb _); [|by apply hp_ret].
    eapply hp_call; [solve_mono|by apply canonical_wp| |done|done].
    intros _ p1 _ (Hid1 & Hd1 & _). by apply hp_ret. }
  2, 3: done.
  intros _ p1 _ [Hid1 Hd1]. wp_steps. pose proof (idle_faulted _ Hid1) as Hf1.
  destruct (N.eqb_spec (bm_hash (pj_block (canonical_projection p1))) (af_head_hash applied)) as [Hhead|];
    cbn [negb]; [|by apply hp_throw]. cbv zeta.
  apply hp_lift; [|apply checkpoints_not_diverge|done]. intros [] Hv.
  eapply hp_call; [solve_mono|apply publish_state_wp; try done| |done|done].
  { apply Hid1. }
  { intros seq. destruct Hid1 as [(Hi1 & _) _]. destruct (iv_ready _ _ _ _ _ Hi1) as (? & ? & _).
    split_and!; [done|done|]. by intros v [= <-]. }
  { simpl. split; [apply Hcaps|]. eexists. by apply forkchoice_view_wf. }
  intros seq p2 _ (Hl2 & Hc2 & Hpol2 & Hpub2). wp_steps.
  assert (Hcan2 : canonical_projection p2 = canonical_projection p1) by (unfold canonical_projection; by rewrite Hpub2).
  assert (Hid2 : idle p2).
  { split; [done|]. unfold bounded, aligned. rewrite Hc2, Hcan2. apply Hid1. }
  assert (Hfence : fenced applied p2).
  { unfold fenced. rewrite Hcan2. split; [done|]. by rewrite Hpub2. }
  assert (Hd2 : same_dictionary p1 p2).
  { unfold same_dictionary, active_generation, canonical_projection. by rewrite Hpub2. }
  assert (Hd : same_dictionary p p2).
  { destruct Hd1 as [E1 E2], Hd2 as [E3 E4]. split; congruence. }
  destruct (fc_finalized _) as [finalized|]; [|by apply hp_ret]. case_decide; [|by apply hp_ret].
  wp_steps. eapply hp_call; [solve_mono|apply process_finality_budget_wp; [done|by apply begin_sweep_idle|]| |done|done].
  { symmetry. apply Hd2. }
  intros _ p3 _ (Hid3 & Hs3 & _). apply hp_ret. split; [done|]. split; [|by eapply fenced_same].
  destruct (same_state_dictionary _ _ Hs3) as [E1 E2], Hd as [E3 E4]. split; [by rewrite E1|by rewrite E2].
Qed.

(** ** Gap and snapshot *)

Lemma announce_gap_wp reason p :
  faulted p → ps_recovering (published p) = false → reason ≠ EmptyString →
  wp (announce_gap reason)
    (hreturns (λ _ p', faulted p' ∧ ps_recovering (published p') = true ∧ same_dictionary p p' ∧
        canonical_projection p' = canonical_projection p)
      (λ p', faulted p' ∧ ps_recovering (published p') = false)) p.
Proof.
  intros [Hi _] Hrec Hreason. rewrite Hrec in Hi. unfold announce_gap. wp_steps.
  eapply hp_call; [solve_mono|..].
  - apply (publish_inner_wp _ _ _ _ (λ _ p', faulted p' ∧ ps_recovering (published p') = true ∧
      same_dictionary p p' ∧ canonical_projection p' = canonical_projection p)
      (λ p', faulted p' ∧ ps_recovering (published p') = false)).
    + intros frame _ Hw. destruct (within_sequence _ _ Hi Hw) as [E Hle].
      match goal with |- context [commit_frame _ (next_envelope p ?g ?ev) ?f ?n] =>
        destruct (commit_inv false true p g ev f n Hi Hw) as [Hi' Hc'] end.
      * destruct (iv_ready _ _ _ _ _ Hi) as (? & ? & _). by split_and!.
      * pose proof (iv_sequence _ _ _ _ _ Hi).
        match goal with |- stream_step _ _ (next_envelope p ?g (wire.EvGap ?gap)) _ =>
          apply (step_gap params (stream_state false p) (next_envelope p g (wire.EvGap gap)) gap) end;
          simpl; [by eapply next_envelope_wf|done|done|lia|done..].
      * split; [by split|]. done.
    + intros e _ Hw. split; [|done]. unfold faulted.
      change (published (attempted p)) with (published p). rewrite Hrec. split; [by apply attempted_inv|done].
  - intros seq p1 _ Hp1. by apply hp_ret.
  - done.
  - done.
Qed.

Context `{!ProstLaws}.

(** A frame that passed the preflight check is published. *)
Lemma preflight_fits sh generation event p :
  validate_event_frame sh generation event = Ok () →
  sh_boot_id sh = sh_boot_id (pb_shared p) → sh_max_frame_bytes sh = sh_max_frame_bytes (pb_shared p) →
  ∃ frame, encode_frame (next_envelope p generation event) (sh_max_frame_bytes (pb_shared p)) = Ok frame.
Proof.
  unfold validate_event_frame. intros Hv Hb Hm.
  destruct (encode_frame (make_envelope sh _ _ _ _) _) as [frame|e|] eqn:E; [|done|done].
  rewrite <- Hm. eapply encode_frame_mono; [exact E|].
  unfold next_envelope, make_envelope. rewrite Hb. apply encoded_len_max.
  - unfold wrapping_add, u64_max. pose proof (N.mod_lt (sh_sequence (pb_shared p) + 1) (18446744073709551615 + 1)). lia.
  - unfold frame_time. lia.
Qed.

Lemma event_frame_not_diverge sh generation event : validate_event_frame sh generation event ≠ Diverge.
Proof.
  unfold validate_event_frame. destruct (encode_frame _ _) eqn:E; [done|done|].
  by destruct (encode_frame_not_diverge _ _ E).
Qed.

Lemma bind_Ok_inv {A B} (o : outcome Error A) (k : A → outcome Error B) b :
  (o ≫= k) = Ok b → ∃ a, o = Ok a ∧ k a = Ok b.
Proof. destruct o; [eauto|done|done]. Qed.

Lemma bind_not_diverge {A B} (o : outcome Error A) (k : A → outcome Error B) :
  o ≠ Diverge → (∀ a, k a ≠ Diverge) → (o ≫= k) ≠ Diverge.
Proof. by destruct o; simpl; auto. Qed.

Lemma projection_frames_Ok sh pj v :
  validate_projection_frames sh pj v = Ok () →
  validate_projection_shape pj = Ok () ∧
  validate_event_frame sh (ws_generation (pj_watch_set pj)) (wire.EvSnapshot (snapshot pj v)) = Ok ().
Proof.
  unfold validate_projection_frames. intros ([] & Hs & Hr)%bind_Ok_inv. cbv zeta in Hr.
  apply bind_Ok_inv in Hr as ([] & He & _). done.
Qed.

Lemma projection_frames_not_diverge sh pj v : validate_projection_frames sh pj v ≠ Diverge.
Proof.
  unfold validate_projection_frames. cbv zeta.
  repeat (apply bind_not_diverge; [first [apply shape_not_diverge|apply event_frame_not_diverge]|intros _]).
  apply event_frame_not_diverge.
Qed.

Lemma snapshot_view_not_diverge s : validate_snapshot_view s ≠ Diverge.
Proof. unfold validate_snapshot_view. destruct (_ || _); [done|]. apply checkpoints_not_diverge. Qed.

Lemma snapshot_event_wf loaded :
  validate_snapshot_view loaded = Ok () → validate_projection_shape (cs_projection loaded) = Ok () →
  32 * ws_len (pj_watch_set (cs_projection loaded)) ≤ u64_max →
  snapshot_wf (ws_len (pj_watch_set (cs_projection loaded)))
    (snapshot (cs_projection loaded) (cs_forkchoice loaded)).
Proof.
  intros (Hn & Hh & Hv)%validate_snapshot_view_Ok [Hval _]%validate_projection_shape_Ok Hk.
  exists (checkpoint_ref (fc_head (cs_forkchoice loaded))). split_and!.
  - eexists. split; [done|]. split; apply hash_wf_to_vec.
  - by apply forkchoice_view_wf.
  - intros r [= <-]. simpl. by rewrite Hn, Hh.
  - by split.
Qed.

(** Installing an anchor replaces the cache and nothing of the stream. *)
Lemma install_anchor_wp loaded r p :
  inv r p →
  wp (install_anchor loaded) (hreturns (λ _ p', inv r p' ∧
    (∃ m, pb_shared p' = (pb_shared p) <| sh_metrics := m |>) ∧ bounded p' ∧ snapshot_anchored_at p' = cs_anchored_at loaded ∧
    pb_policy p' = pb_policy p ∧ ∃ t, pb_cache p' = reset_candidates t (retention (pb_policy p)) (cs_projection loaded)
                         (cs_forkchoice loaded) (pb_cache p)) (λ _, False)) p.
Proof.
  intros Hi. unfold install_anchor. wp_steps. apply hp_now; [solve_mono|]. intros t Hw. wp_steps. intros _.
  assert (Hlt : next_incarnation (pb_cache p) < u64_max).
  { pose proof (iv_incarnation _ _ _ _ _ Hi). unfold within in Hw. simpl in Hw. lia. }
  destruct (reset_candidates_ok t (retention (pb_policy p)) (cs_projection loaded) (cs_forkchoice loaded)
    (pb_cache p) Hlt) as [Hok Hq].
  assert (Hn : next_incarnation (reset_candidates t (retention (pb_policy p)) (cs_projection loaded)
    (cs_forkchoice loaded) (pb_cache p)) = next_incarnation (pb_cache p) + 1).
  { unfold reset_candidates. by rewrite allocate_incarnation_spec. }
  split_and!; try done; [|by eexists| |by eexists].
  - destruct Hi. split; try done.
    + simpl. lia.
    + etrans; [apply N.eq_le_incl, Hn|]. simpl. lia.
  - unfold bounded, reset_candidates. simpl. unfold metadata_len. simpl.
    rewrite map_size_singleton, map_size_empty. destruct (iv_limits _ _ _ _ _ Hi). simpl. lia.
Qed.

Lemma reanchor_wp p :
  faulted p → ps_recovering (published p) = true →
  wp reanchor (hreturns (λ _ p', idle p' ∧ same_dictionary p p')
    (λ p', faulted p' ∧ ps_recovering (published p') = true)) p.
Proof.
  intros Hf Hrec. pose proof Hf as [Hi Hcont]. rewrite Hrec in Hi. specialize (Hcont Hrec).
  unfold reanchor. wp_steps. eapply hp_ticking; [done|solve_mono|]. intros Hw.
  set (p1 := p <| pb_tick ::= S |>) in *.
  assert (Hf1 : faulted p1 ∧ ps_recovering (published p1) = true).
  { split; [|done]. split; [|done]. change (published p1) with (published p). rewrite Hrec. by apply inv_tick. }
  destruct (load_latest _ _) as [loaded|e]; [|by apply hp_throw_bind].
  apply wp_bind, wp_ret. cbv beta iota.
  apply hp_lift; [|apply snapshot_view_not_diverge|done]. intros [] Hview. cbv zeta.
  apply hp_lift; [|apply dictionary_not_diverge|done]. intros [] Hdict. wp_step.
  apply hp_lift; [|apply projection_frames_not_diverge|done]. intros [] Hframes.
  apply projection_frames_Ok in Hframes as [Hshape Hpre].
  pose proof (dictionary_len _ _ Hdict) as Hlen.
  pose proof (proj1 (validate_projection_dictionary_Ok _ _) Hdict) as [Hgen _].
  eapply hp_call; [solve_mono|apply (install_anchor_wp loaded true); by apply inv_tick| |done|done].
  intros _ p2 _ (Hi2 & [mt Hsh2] & Hb2 & _ & _ & tm & Hcache2).
  assert (Hpub : published p2 = published p) by (unfold published; by rewrite Hsh2).
  eapply hp_call; [solve_mono|..].
  - apply (publish_inner_wp _ _ _ _ (λ _ p', idle p' ∧ same_dictionary p p') (λ _, False)).
    + intros frame _ Hw2. destruct (within_sequence _ _ Hi2 Hw2) as [E Hle].
      match goal with |- context [commit_frame _ (next_envelope p2 ?g ?ev) ?f ?n] =>
        destruct (commit_inv true false p2 g ev f n Hi2 Hw2) as [Hi' Hc'] end.
      * eapply ready_projection; [apply (iv_ready _ _ _ _ _ Hi)|exact Hdict|done|].
        intros v [= <-]. by apply validate_snapshot_view_Ok in Hview as (_ & _ & ?).
      * assert (Heq : stream_state true p2 = mkStreamState (sh_published_sequence (pb_shared p2)) true
          (ws_generation (pj_watch_set (cs_projection loaded))) (ws_len (pj_watch_set (cs_projection loaded)))).
        { unfold stream_state, active_generation, canonical_projection. rewrite Hpub, Hgen, Hlen. done. }
        rewrite Heq.
        match goal with |- stream_step _ ?s (next_envelope p2 ?g (wire.EvSnapshot ?sn)) _ =>
          apply (step_snapshot params s (next_envelope p2 g (wire.EvSnapshot sn)) sn) end;
          simpl; [by eapply next_envelope_wf|done| |done|].
        -- rewrite E, Hsh2. simpl. by rewrite <- Hcont.
        -- apply snapshot_event_wf; [done|done|]. rewrite Hlen. apply Hi.
      * split; [|by split]. split; [by split|]. split; [exact Hb2|].
        unfold aligned. simpl pb_cache. by rewrite Hcache2.
    + intros e He Hw2. destruct (preflight_fits _ _ _ p2 Hpre) as [frame Hfit].
      * by rewrite Hsh2.
      * by rewrite Hsh2.
      * congruence.
  - intros seq p3 _ Hp3. by apply hp_ret.
  - done.
  - done.
Qed.

Lemma config_activated_wf ws : watch_set_wf ws → dictionary_wf (config_activated ws).
Proof.
  intros Hwf i key Hk. unfold config_activated in Hk. cbn [wire.keys] in Hk.
  apply list_lookup_fmap_Some in Hk as (k & -> & Hk). cbn [wire.key_id wire.address wire.slot].
  unfold len. rewrite length_address_to_vec, length_to_vec. split; [|done]. by apply (wsw_dense _ Hwf).
Qed.

Lemma config_activated_len ws : len (wire.keys (config_activated ws)) = ws_len ws.
Proof. unfold config_activated, ws_len, len. cbn [wire.keys]. by rewrite length_fmap. Qed.

(** The [ConfigActivated] frame: consumers are owed a snapshot from here on. *)
Lemma publish_config_wp ws pj forkchoice p :
  inv false p → contiguous p → watch_set_wf ws → active_generation p < ws_generation ws →
  ws_generation (pj_watch_set pj) = ws_generation ws → ws_len (pj_watch_set pj) = ws_len ws →
  (∀ seq, ready (mkPublishedState pj forkchoice seq false)) →
  (∃ frame, encode_frame (next_envelope p (ws_generation ws) (wire.EvConfigActivated (config_activated ws)))
     (sh_max_frame_bytes (pb_shared p)) = Ok frame) →
  wp (publish_state (ws_generation ws) (wire.EvConfigActivated (config_activated ws)) pj forkchoice false)
    (hreturns (λ seq p', inv true p' ∧ contiguous p' ∧ pb_cache p' = pb_cache p ∧
       published p' = mkPublishedState pj forkchoice seq false ∧
       sh_boot_id (pb_shared p') = sh_boot_id (pb_shared p) ∧
       sh_max_frame_bytes (pb_shared p') = sh_max_frame_bytes (pb_shared p)) (λ _, False)) p.
Proof.
  intros Hi Hc Hwf Hgt Hgen Hlen Hready [frame0 Hfit]. apply publish_inner_wp.
  2: { intros e He _. congruence. }
  intros frame _ Hw. destruct (within_sequence _ _ Hi Hw) as [E Hle].
  match goal with |- context [commit_frame _ (next_envelope p ?g ?ev) ?f ?n] =>
    destruct (commit_inv false true p g ev f n Hi Hw) as [Hi' Hc'] end.
  - apply Hready.
  - match goal with |- stream_step _ _ ?e ?s' => assert (s' = mkStreamState (wire.sequence e) true
      (wire.config_generation e) (len (wire.keys (config_activated ws)))) as -> end.
    { unfold stream_state, active_generation, canonical_projection, published.
      rewrite config_activated_len, <- Hlen. simpl. by rewrite Hgen. }
    apply (step_config params (stream_state false p) (next_envelope p (ws_generation ws)
      (wire.EvConfigActivated (config_activated ws))) (config_activated ws));
      [by eapply next_envelope_wf|done|done| |done|by apply config_activated_wf].
    simpl. rewrite E. by rewrite <- Hc.
  - done.
Qed.

(** The snapshot after it. *)
Lemma publish_owed_snapshot_wp loaded p :
  inv true p → contiguous p → ps_recovering (published p) = false →
  canonical_projection p = cs_projection loaded →
  validate_snapshot_view loaded = Ok () → validate_projection_shape (cs_projection loaded) = Ok () →
  (∃ frame, encode_frame (next_envelope p (ws_generation (pj_watch_set (cs_projection loaded)))
      (wire.EvSnapshot (snapshot (cs_projection loaded) (cs_forkchoice loaded))))
     (sh_max_frame_bytes (pb_shared p)) = Ok frame) →
  wp (publish (ws_generation (pj_watch_set (cs_projection loaded)))
        (wire.EvSnapshot (snapshot (cs_projection loaded) (cs_forkchoice loaded))))
    (hreturns (λ _ p', live p' ∧ pb_cache p' = pb_cache p ∧ published p' = published p) (λ _, False)) p.
Proof.
  intros Hi Hc Hrec Hcan Hview Hshape [frame0 Hfit]. apply publish_inner_wp.
  2: { intros e He _. congruence. }
  intros frame _ Hw. destruct (within_sequence _ _ Hi Hw) as [E Hle].
  match goal with |- context [commit_frame _ (next_envelope p ?g ?ev) ?f ?n] =>
    destruct (commit_inv true false p g ev f n Hi Hw) as [Hi' Hc'] end.
  - apply (iv_ready _ _ _ _ _ Hi).
  - match goal with |- stream_step _ ?s (next_envelope p ?g (wire.EvSnapshot ?sn)) _ =>
      apply (step_snapshot params s (next_envelope p g (wire.EvSnapshot sn)) sn) end;
      simpl; [by eapply next_envelope_wf|done| |by unfold active_generation; rewrite Hcan|].
    + rewrite E. by rewrite <- Hc.
    + rewrite Hcan. apply snapshot_event_wf; [done|done|]. rewrite <- Hcan. apply Hi.
  - split; [|done]. by split.
Qed.

(** An activation either replaces the whole stream state or, on error, leaves it alone. *)
Lemma activate_wp ws p :
  idle p → watch_set_wf ws →
  wp (activate ws) (hreturns (λ _ p', idle p' ∧
      (if ws_generation ws <=? active_generation p then p' = p
       else pb_active p' = ws ∧ active_generation p' = ws_generation ws ∧
            ws_keys (pj_watch_set (canonical_projection p')) = ws_keys ws))
    (λ p', idle p' ∧ p' = p <| pb_tick ::= S |>)) p.
Proof.
  intros Hid Hwf. unfold activate. wp_steps.
  destruct (N.leb_spec (ws_generation ws) (active_generation p)) as [|Hgt]; [by apply hp_ret|].
  eapply hp_ticking; [done|solve_mono|]. intros Hw. set (p1 := p <| pb_tick ::= S |>) in *.
  assert (Hid1 : idle p1 ∧ p1 = p <| pb_tick ::= S |>) by (split; [by apply idle_tick|done]).
  destruct (load_latest _ _) as [loaded|e]; [|by apply hp_throw_bind]. apply wp_bind, wp_ret. cbv beta iota zeta.
  apply hp_lift; [|apply snapshot_view_not_diverge|done]. intros [] Hview.
  apply hp_lift; [|apply dictionary_not_diverge|done]. intros [] Hdict. wp_step.
  apply hp_lift; [|apply event_frame_not_diverge|done]. intros [] Hconfig.
  apply hp_lift; [|apply projection_frames_not_diverge|done]. intros [] Hframes.
  apply projection_frames_Ok in Hframes as [Hshape Hsnap].
  pose proof (dictionary_len _ _ Hdict) as Hlen.
  pose proof (proj1 (validate_projection_dictionary_Ok _ _) Hdict) as [Hgen Hkeys].
  destruct Hid1 as [[(Hi1 & Hc1 & Hr1) _] _].
  eapply hp_call; [solve_mono|by apply (install_anchor_wp loaded false)| |done|done].
  intros _ p2 _ (Hi2 & [mt Hsh2] & Hb2 & _ & _ & tm & Hcache2).
  eapply hp_call; [solve_mono|apply publish_config_wp; try done| |done|done].
  { unfold contiguous. by rewrite Hsh2. }
  { unfold active_generation, canonical_projection, published. rewrite Hsh2. exact Hgt. }
  { intros seq. eapply ready_projection; [by apply config_activated_wf|exact Hdict|done|].
    intros v [= <-]. by apply validate_snapshot_view_Ok in Hview as (_ & _ & ?). }
  { eapply preflight_fits; [exact Hconfig|by rewrite Hsh2..]. }
  intros seq p3 _ (Hi3 & Hc3 & Hcache3 & Hpub3 & Hboot3 & Hmax3). rewrite <- Hgen.
  eapply hp_call; [solve_mono|apply publish_owed_snapshot_wp; try done| |done|done].
  { by rewrite Hpub3. }
  { unfold canonical_projection. by rewrite Hpub3. }
  { eapply preflight_fits; [exact Hsnap|by rewrite Hboot3, Hsh2|by rewrite Hmax3, Hsh2]. }
  intros _ p4 _ (Hl4 & Hcache4 & Hpub4). wp_step. unfold on_metrics. wp_step. intros _.
  set (p5 := measured _ _).
  assert (Hcan : canonical_projection p5 = cs_projection loaded).
  { unfold canonical_projection. change (published _) with (published p4). by rewrite Hpub4, Hpub3. }
  split; [split; [|split]|split_and!].
  - destruct Hl4 as ([] & ? & ?). split; [by split|done].
  - unfold bounded. simpl. by rewrite Hcache4, Hcache3.
  - unfold aligned. rewrite Hcan. simpl. by rewrite Hcache4, Hcache3, Hcache2.
  - done.
  - unfold active_generation. by rewrite Hcan.
  - by rewrite Hcan.
Qed.

(** ** Recovery *)

Lemma attempt_wp reason p :
  reason ≠ EmptyString → faulted p →
  wp (attempt reason (ps_recovering (published p)))
    (hreturns (λ (r : bool * bool) p', if r.1 then idle p' else faulted p' ∧ r.2 = ps_recovering (published p')) (λ _, False)) p.
Proof.
  intros Hreason Hf. unfold attempt.
  eapply (hp_call _ _ (λ announced p1, faulted p1 ∧ announced = ps_recovering (published p1)) (λ _, False)
    (λ _, False)); [solve_mono| | |done|done].
  { destruct (ps_recovering (published p)) eqn:Hrec; [by apply hp_ret|].
    eapply hp_catch; [solve_mono| |..].
    - eapply hp_call; [solve_mono|by apply announce_gap_wp| |done|done].
      intros _ p1 _ (Hf1 & Hr1 & _). apply (hp_ret true (λ a p1, faulted p1 ∧ a = ps_recovering (published p1))). done.
    - auto.
    - intros e p1 _ [Hf1 Hr1]. by apply hp_ret.
    - done. }
  intros announced p1 _ [Hf1 ->].
  set (announced := ps_recovering (published p1)) in *.
  eapply (hp_call _ _ (λ (recovered : bool) p2, if recovered then idle p2
      else faulted p2 ∧ ps_recovering (published p2) = announced) (λ _, False) (λ _, False));
    [solve_mono| | |done|done].
  { destruct announced eqn:Hr1; [|by apply hp_ret].
    eapply hp_catch; [solve_mono| |..].
    - eapply hp_call; [solve_mono|by apply reanchor_wp| |done|done].
      intros _ p2 _ [Hid2 _]. apply (hp_ret true (λ (b : bool) p2, b = true ∧ idle p2)). done.
    - by intros b p2 _ [-> ?].
    - intros e p2 _ [Hf2 Hr2]. by apply hp_ret.
    - done. }
  intros recovered p2 _ Hp2. apply hp_ret. destruct recovered; [done|]. by destruct Hp2 as [? ->].
Qed.

Lemma faulted_tick p : faulted p → faulted (p <| pb_tick ::= S |>).
Proof. intros [Hi Hc]. split; [by apply inv_tick|done]. Qed.

Lemma recover_loop_wp fuel reason : ∀ delay p,
  reason ≠ EmptyString → faulted p →
  wp (recover_loop fuel reason (ps_recovering (published p)) delay)
    (hpost (λ recovered p', if recovered : bool then idle p' else faulted p') (λ _, False) faulted) p.
Proof.
  induction fuel as [|fuel IH]; intros delay p Hreason Hf; cbn [recover_loop]; [by intros _|].
  eapply hp_call; [solve_mono|by apply attempt_wp| |done|done].
  intros [recovered announced] p2 _ Hp2. simpl in Hp2. destruct recovered; [by apply hp_ret|]. destruct Hp2 as [Hf2 ->].
  eapply hp_ticking; [done|solve_mono|]. intros Hw. apply faulted_tick in Hf2.
  destruct (env_shutdown _ _); [by apply hp_ret|].
  change (published p2) with (published (p2 <| pb_tick ::= S |>)). by apply IH.
Qed.

Lemma recover_wp fuel reason p :
  reason ≠ EmptyString → faulted p →
  wp (recover_until_success fuel reason)
    (hpost (λ recovered p', if recovered : bool then idle p' else faulted p') (λ _, False) faulted) p.
Proof. intros. unfold recover_until_success. wp_steps. by apply recover_loop_wp. Qed.

(** ** The loop *)

(** What the producer side guarantees of the events it sends: executed blocks only when the
    capability is advertised, a reason with every rejection, compiled watch sets. *)
Definition event_ok (e : PublisherEvent) : Prop :=
  match e with
  | Data (Executed _ _ _ _) => has_cap (sp_capabilities params) wire.CAP_EXECUTED = true
  | Data (Rejected _ _ _ reason) => reason ≠ EmptyString
  | Control (ActivateConfig ws) => watch_set_wf ws
  | _ => True
  end.

Definition pass_ok (pass : LoopPass) : Prop :=
  match lp_event pass with Some e => event_ok e | None => True end.

Lemma then_ret_wp {A B} (m : M Publisher Error A) (b : B) (Q Qe : Publisher → Prop) p :
  wp m (hreturns (λ _ p', Q p') Qe) p → wp (m ;; mret b) (hreturns (λ _ p', Q p') Qe) p.
Proof. intros Hm. eapply hp_call; [solve_mono|exact Hm| |done|done]. intros ? p1 _ ?. by apply hp_ret. Qed.

Lemma handle_wp event p :
  caps_ok params → event_ok (Data event) → idle p →
  wp (handle event) (hreturns (λ _ p', idle p') faulted) p.
Proof.
  intros Hcaps Hev Hid.
  assert (Hweak : ∀ A (m : M Publisher Error A) (R : A → Publisher → Prop),
    wp m (hreturns (λ a p', idle p' ∧ R a p') faulted) p → wp (m ;; mret ()) (hreturns (λ _ p', idle p') faulted) p).
  { intros A m R Hm. apply then_ret_wp. eapply hp_mono; [exact Hm| |done|done]. by intros _ p1 _ [? _]. }
  destruct event; cbn [handle].
  - wp_steps. destruct (_ <=? _); [by apply hp_ret|]. by eapply Hweak, project_candidate_wp.
  - by eapply Hweak, promote_validated_wp.
  - wp_steps. destruct (_ <=? _); [by apply hp_ret|]. by eapply Hweak, project_candidate_wp.
  - wp_steps. destruct (_ <? _); [by apply hp_throw, idle_faulted|]. wp_steps.
    destruct (_ <=? _); [by apply hp_ret|].
    eapply hp_call; [solve_mono|apply announce_gap_wp; [by apply idle_faulted|apply Hid|done]| |by intros p1 _ [? _]|done].
    intros _ p1 _ (Hf1 & Hr1 & _). eapply hp_mono; [by apply reanchor_wp|by intros _ p2 _ [? _]|by intros p2 _ [? _]|done].
  - by eapply Hweak, forkchoice_applied_wp.
  - by eapply Hweak, rejected_wp.
Qed.

Lemma handle_control_wp event p :
  event_ok (Control event) → idle p →
  wp (handle_control event) (hreturns (λ _ p', idle p') (λ _, False)) p.
Proof.
  intros Hev Hid. destruct event as [ws]. cbn [handle_control]. eapply hp_catch; [solve_mono| |..].
  - eapply (then_ret_wp _ _ (λ p', idle p')), hp_mono; [by apply activate_wp|by intros _ p1 _ [? _]|done|done].
  - done.
  - intros e p1 _ [? _]. by apply hp_ret.
  - done.
Qed.

Definition loop_post (continue : bool) (p : Publisher) : Prop := if continue then idle p else faulted p.

Lemma dispatch_wp fuel event p :
  caps_ok params → event_ok event → idle p →
  wp (dispatch fuel event) (hpost loop_post (λ _, False) faulted) p.
Proof.
  intros Hcaps Hev Hid. unfold dispatch. eapply (hp_catch _ _ (λ b p1, b = true ∧ idle p1) faulted (λ _, False));
    [solve_mono| |by intros b p1 _ [-> ?]|by intros e p1 _ ?; apply recover_wp|done].
  destruct event as [event|event].
  - eapply hp_call; [solve_mono|by apply handle_wp| |done|done]. intros ? p1 _ ?. by apply hp_ret.
  - eapply hp_call; [solve_mono|by apply handle_control_wp| |done|done]. intros ? p1 _ ?. by apply hp_ret.
Qed.

Lemma run_maintenance_wp fuel p :
  caps_ok params → idle p → wp (run_maintenance fuel) (hpost loop_post (λ _, False) faulted) p.
Proof.
  intros Hcaps Hid. unfold run_maintenance.
  eapply (hp_catch _ _ (λ b p1, b = true ∧ idle p1) faulted (λ _, False));
    [solve_mono| |by intros b p1 _ [-> ?]|by intros e p1 _ ?; apply recover_wp|done].
  eapply hp_call; [solve_mono|by apply maintain_wp| |done|done]. intros _ p1 _ [? _]. by apply hp_ret.
Qed.

Lemma recover_pending_loss_wp fuel losses : ∀ p,
  idle p → wp (recover_pending_loss fuel losses) (hpost loop_post (λ _, False) faulted) p.
Proof.
  induction losses as [|loss losses IH]; intros p Hid; cbn [recover_pending_loss]; [by apply hp_ret|].
  destruct (loss =? 0); [by apply hp_ret|].
  eapply hp_call; [solve_mono|apply recover_wp; [done|by apply idle_faulted]| |done|done].
  intros [] p1 _ Hp1; [by apply IH|by apply hp_ret].
Qed.

Lemma run_pass_wp fuel pass p :
  caps_ok params → pass_ok pass → idle p → wp (run_pass fuel pass) (hpost loop_post (λ _, False) faulted) p.
Proof.
  intros Hcaps Hpass Hid. unfold run_pass.
  eapply hp_call; [solve_mono|by apply recover_pending_loss_wp| |done|done].
  intros [] p1 _ Hp1; [|by apply hp_ret]. cbn [negb].
  eapply (hp_call _ _ loop_post (λ _, False) faulted); [solve_mono| | |done|done].
  { destruct (lp_maintenance pass); [by apply run_maintenance_wp|by apply hp_ret]. }
  intros [] p2 _ Hp2; [|by apply hp_ret]. cbn [negb]. unfold pass_ok in Hpass.
  destruct (lp_event pass) as [event|]; [|by apply hp_ret].
  eapply hp_call; [solve_mono|by apply recover_pending_loss_wp| |done|done].
  intros [] p3 _ Hp3; [|by apply hp_ret]. by apply dispatch_wp.
Qed.

Lemma run_publisher_wp fuel passes : ∀ p,
  caps_ok params → Forall pass_ok passes → idle p →
  wp (run_publisher fuel passes) (hpost loop_post (λ _, False) faulted) p.
Proof.
  induction passes as [|pass passes IH]; intros p Hcaps Hall Hid; cbn [run_publisher]; [by apply hp_ret|].
  apply Forall_cons in Hall as [Hpass Hall].
  eapply hp_call; [solve_mono|by apply run_pass_wp| |done|done].
  intros [] p1 _ Hp1; [by apply IH|by apply hp_ret].
Qed.
End publisher_inv.

(** ** From the start of the service *)

Section service.
Context `{Env} `{!ProstLaws}.

Definition service_params (p : Publisher) : StreamParams :=
  {| sp_boot_id := sh_boot_id (pb_shared p); sp_capabilities := sh_capabilities (pb_shared p) |}.

Lemma advertised_caps_ok b boot :
  caps_ok {| sp_boot_id := boot; sp_capabilities := advertised_capabilities b |}.
Proof. by destruct b. Qed.

Lemma history_stream params start initial frames s published :
  history params start initial frames s published → stream params start (envelopes frames) s.
Proof.
  induction 1; [constructor|]. unfold envelopes in *. rewrite fmap_app. by econstructor.
Qed.

(** The shared state and the publisher [start_service] builds from a snapshot. *)
Definition fresh_shared (s : StreamConfig) (boot : bytes) (chain : N) (genesis : B256) (started : N)
    (loaded : CanonicalSnapshot) : Shared :=
  mkShared boot chain genesis started 0 0 (max_frame_bytes s) (advertised_capabilities (publish_executed s))
    (mkPublishedState (cs_projection loaded) (Some (cs_forkchoice loaded)) 0 false) []
    (metrics_new <| config_generation := ws_generation (pj_watch_set (cs_projection loaded)) |>).

Definition fresh_publisher (s : StreamConfig) (boot : bytes) (chain : N) (genesis : B256) (started : N)
    (ws : WatchSet) (loaded : CanonicalSnapshot) : Publisher :=
  let policy := candidate_policy s in
  measured set_candidate_metric (mkPublisher ws (fresh_shared s boot chain genesis started loaded)
    (initial_cache (env_clock 1) (retention policy) (projection_limit policy) (policy_metadata_limit policy)
       (cs_projection loaded) (cs_forkchoice loaded))
    policy (cs_anchored_at loaded) 2).

(** What [start_service] has checked when it returns a publisher. *)
Record fresh (s : StreamConfig) (boot : bytes) (chain : N) (genesis : B256) (started : N) (ws : WatchSet)
    (loaded : CanonicalSnapshot) : Prop := {
  fr_stream : validate_stream s = Ok ();
  fr_loaded : load_latest 0 ws = inl loaded;
  fr_dictionary : validate_projection_dictionary (cs_projection loaded) ws = Ok ();
  fr_view : validate_snapshot_view loaded = Ok ();
  fr_frames : validate_handshake_frames (fresh_shared s boot chain genesis started loaded)
                (cs_projection loaded) (cs_forkchoice loaded) = Ok () }.

Lemma start_service_fresh s boot chain genesis started ws p :
  start_service s boot chain genesis started ws = Ok p →
  ∃ loaded, fresh s boot chain genesis started ws loaded ∧ p = fresh_publisher s boot chain genesis started ws loaded.
Proof.
  unfold start_service. destruct (validate_stream s) as [[]|issue|] eqn:Hs; [|done|done].
  destruct (ws_is_empty ws); [done|]. destruct (load_latest 0 ws) as [loaded|e] eqn:El; [|done].
  intros ([] & Hd & Hrest)%bind_Ok_inv. apply bind_Ok_inv in Hrest as ([] & Hv & Hrest). cbv zeta in Hrest.
  apply bind_Ok_inv in Hrest as ([] & Hf & [= <-]). by exists loaded.
Qed.

Lemma start_service_idle s boot chain genesis started ws p :
  watch_set_wf ws → start_service s boot chain genesis started ws = Ok p →
  idle (service_params p) (stream_state false p) (published p) p ∧ caps_ok (service_params p) ∧
  sh_boot_id (pb_shared p) = boot ∧ sh_frames (pb_shared p) = [] ∧
  sh_capabilities (pb_shared p) = advertised_capabilities (publish_executed s) ∧
  sh_published_sequence (pb_shared p) = 0 ∧ ps_effective_sequence (published p) = 0.
Proof.
  intros Hwf (loaded & [Hs _ Hd Hv Hf] & ->)%start_service_fresh.
  assert (Hshape : validate_projection_shape (cs_projection loaded) = Ok ()).
  { unfold validate_handshake_frames in Hf. apply bind_Ok_inv in Hf as ([] & _ & Hf).
    apply bind_Ok_inv in Hf as ([] & _ & Hf). by apply projection_frames_Ok in Hf as [? _]. }
  apply validate_stream_ok in Hs. destruct Hs.
  assert (Hready : ready (mkPublishedState (cs_projection loaded) (Some (cs_forkchoice loaded)) 0 false)).
  { eapply ready_projection; [by apply config_activated_wf|exact Hd|done|].
    intros v [= <-]. by apply validate_snapshot_view_Ok in Hv as (_ & _ & ?). }
  destruct (initial_cache_ok (env_clock 1) (retention (candidate_policy s)) (projection_limit (candidate_policy s))
    (policy_metadata_limit (candidate_policy s)) (cs_projection loaded) (cs_forkchoice loaded)) as [Hok Hq].
  split_and!; [|exact (advertised_caps_ok _ _)|done..].
  split; [split; [split|done]|]; try done; simpl.
  - constructor.
  - by destruct Hready as (_ & [_ ?] & _).
  - lia.
  - split; [|done]. unfold bounded, metadata_len, initial_cache. simpl. rewrite map_size_singleton, map_size_empty.
    simpl. lia.
Qed.

Lemma start_service_limit s boot chain genesis started ws p :
  start_service s boot chain genesis started ws = Ok p → sh_max_frame_bytes (pb_shared p) = max_frame_bytes s.
Proof. by intros (loaded & _ & ->)%start_service_fresh. Qed.

Lemma start_service_shared s boot chain genesis started ws p :
  start_service s boot chain genesis started ws = Ok p →
  sh_chain_id (pb_shared p) = chain ∧ sh_capabilities (pb_shared p) = advertised_capabilities (publish_executed s).
Proof. by intros (loaded & _ & ->)%start_service_fresh. Qed.

Lemma start_service_dictionary s boot chain genesis started ws p :
  start_service s boot chain genesis started ws = Ok p →
  active_generation p = ws_generation ws ∧ ws_len (pj_watch_set (canonical_projection p)) = ws_len ws.
Proof.
  intros (loaded & [_ _ Hd _ _] & ->)%start_service_fresh.
  split; [by apply validate_projection_dictionary_Ok in Hd as [? _]|by eapply dictionary_len].
Qed.

(** Every run of the publisher thread keeps the invariant; it never ends in an error. *)
Lemma run_publisher_reaches s boot chain genesis started ws p0 fuel passes o p :
  watch_set_wf ws → start_service s boot chain genesis started ws = Ok p0 →
  Forall (pass_ok (service_params p0)) passes → run_publisher fuel passes p0 = (o, p) → within p →
  faulted (service_params p0) (stream_state false p0) (published p0) p ∧
  (o = Ok true → idle (service_params p0) (stream_state false p0) (published p0) p) ∧
  ∀ e, o ≠ Err e.
Proof.
  intros Hws Hstart Hpasses Hrun Hw.
  destruct (start_service_idle _ _ _ _ _ _ _ Hws Hstart) as (Hidle & Hcaps & _).
  pose proof (run_publisher_wp _ _ _ fuel passes p0 Hcaps Hpasses Hidle) as Hwp.
  unfold wp in Hwp. rewrite Hrun in Hwp. specialize (Hwp Hw).
  destruct o as [[]|e|]; simpl in Hwp; [|by split_and!|done|by split_and!].
  split_and!; [by apply idle_faulted|done|done].
Qed.
End service.
