(* ===== verification/Service.v ===== *)
(** * The running service

    What [PublisherInv] gives for the service as a whole: from [start_service]
    on, whatever the engine, the provider, the clock and the operator do, the
    broadcast is a stream of the protocol and the cache stays within its
    limits. *)

From S2P Require Import Prelude Bytes Config Watch Feed Wire Client Consumer Stream Projection Cache CacheInv Publisher Sample PublisherInv.
From stdpp Require Import list.
Local Open Scope N_scope.

#[export] Instance sample_laws : @ProstLaws (@env_prost sample_env).
Proof. split. intros. unfold encoded_len, len. cbn -[be_bytes]. by rewrite !length_be_bytes. Qed.

Lemma sample_watch_wf : watch_set_wf sample_watch_set.
Proof.
  apply compile_wf; [vm_compute; discriminate|].
  repeat constructor; rewrite ?elem_of_cons, ?elem_of_nil; naive_solver.
Qed.

Lemma sample_passes_ok : Forall (pass_ok (service_params sample_publisher)) sample_passes.
Proof. repeat constructor; discriminate. Qed.

(** C5: The publisher refines the stream protocol: from a successful [start_service], every run of
    the publisher thread has broadcast a well-formed live stream that starts at sequence zero, and
    the thread never stops with an error: every failure of a handler is turned into a gap and a
    snapshot. *)
Theorem publisher_refines_protocol `{Env} `{!ProstLaws} cfg boot chain genesis started ws p0 fuel passes o p :
  watch_set_wf ws → start_service cfg boot chain genesis started ws = Ok p0 →
  Forall (pass_ok (service_params p0)) passes → run_publisher fuel passes p0 = (o, p) → within p →
  (∀ e, o ≠ Err e) ∧
  stream (service_params p0) (mkStreamState 0 false (ws_generation ws) (ws_len ws))
    (envelopes (sh_frames (pb_shared p)))
    (stream_state (ps_recovering (published p)) p).
Proof.
  intros Hws Hstart Hpasses Hrun Hw.
  destruct (start_service_idle _ _ _ _ _ _ _ Hws Hstart) as (_ & _ & _ & _ & _ & Hseq & _).
  destruct (run_publisher_reaches _ _ _ _ _ _ _ _ _ _ _ Hws Hstart Hpasses Hrun Hw) as ([Hinv _] & _ & He).
  split; [done|]. apply (iv_history _ _ _ _ _) in Hinv. apply history_stream in Hinv.
  destruct (start_service_dictionary _ _ _ _ _ _ _ Hstart) as [Hg Hk].
  unfold stream_state in Hinv at 1. by rewrite Hseq, Hg, Hk in Hinv.
Qed.

Lemma publisher_refines_protocol_witness :
  stream (service_params sample_publisher) (mkStreamState 0 false 1 3)
    (envelopes (sh_frames (pb_shared sample_run.2))) (stream_state false sample_run.2).
Proof.
  exact (proj2 (@publisher_refines_protocol sample_env sample_laws sample_stream sample_boot 1 0 0
    sample_watch_set sample_publisher 3 sample_passes sample_run.1 sample_run.2 sample_watch_wf sample_started
    sample_passes_ok ltac:(vm_compute; reflexivity) ltac:(vm_compute; discriminate))).
Defined.

(** The cache starts with the configured limits, and no pass changes them. *)
Lemma run_publisher_limits `{Env} cfg boot chain genesis started ws p0 fuel passes o p :
  start_service cfg boot chain genesis started ws = Ok p0 → run_publisher fuel passes p0 = (o, p) →
  cache_limit (pb_cache p) = candidate_cache_blocks cfg ∧ metadata_limit (pb_cache p) = candidate_metadata_entries cfg.
Proof.
  intros (loaded & _ & ->)%start_service_fresh Hrun.
  destruct (lt_cache _ _ (mono_run_publisher fuel passes (fresh_publisher cfg boot chain genesis started ws loaded))) as [Hc Hm].
  rewrite Hrun in Hc, Hm. done.
Qed.

(** C6: Whenever the publisher thread is between two loop passes, the cache is consistent, and what
    it holds is bounded by the configuration, whatever sequence of blocks, forks and faults came
    before: at most [candidate_cache_blocks] projections, at most [candidate_metadata_entries]
    metadata records and as many tombstones, and order queues at most three times as long as the
    limits of the maps they order. *)
Theorem publisher_memory_bounded `{Env} `{!ProstLaws} cfg boot chain genesis started ws p0 fuel passes p :
  watch_set_wf ws → start_service cfg boot chain genesis started ws = Ok p0 →
  Forall (pass_ok (service_params p0)) passes → run_publisher fuel passes p0 = (Ok true, p) → within p →
  let c := pb_cache p in
  cache_ok c ∧
  N.of_nat (size (projected c)) ≤ candidate_cache_blocks cfg ∧
  metadata_len c ≤ candidate_metadata_entries cfg ∧
  N.of_nat (size (tombstones c)) ≤ candidate_metadata_entries cfg ∧
  len (projection_order c) ≤ 3 * candidate_cache_blocks cfg ∧
  len (metadata_order c) ≤ 3 * candidate_metadata_entries cfg.
Proof.
  intros Hws Hstart Hpasses Hrun Hw c.
  destruct (run_publisher_limits _ _ _ _ _ _ _ _ _ _ _ Hstart Hrun) as [<- <-].
  destruct (run_publisher_reaches _ _ _ _ _ _ _ _ _ _ _ Hws Hstart Hpasses Hrun Hw) as (_ & Hidle & _).
  destruct (Hidle eq_refl) as ((Hinv & _) & [Hm Hp] & _). pose proof (iv_cache _ _ _ _ _ Hinv) as Hok.
  destruct (iv_queues _ _ _ _ _ Hinv) as [Hqm Hqp Hqt]. fold c in Hm, Hp, Hqm, Hqp, Hqt, Hok |- *.
  rewrite <- (ok_count _ Hok). unfold saturating_mul in *. split_and!; [done..|lia|lia].
Qed.

Lemma publisher_memory_bounded_witness :
  cache_ok (pb_cache sample_run.2) ∧ N.of_nat (size (projected (pb_cache sample_run.2))) ≤ 2.
Proof.
  pose proof (@publisher_memory_bounded sample_env sample_laws sample_stream sample_boot 1 0 0
    sample_watch_set sample_publisher 3 sample_passes sample_run.2 sample_watch_wf sample_started
    sample_passes_ok ltac:(vm_compute; reflexivity) ltac:(vm_compute; discriminate)) as (H1 & H2 & _).
  split; [exact H1|exact H2].
Defined.

(** ** Retirement batches *)

(** A [CandidatesRetired] event takes at most 34 bytes per hash and 256 for everything else. *)
Definition retired_size `{Prost} : Prop :=
  ∀ e r, wire.event e = Some (wire.EvCandidatesRetired r) → len (wire.boot_id e) ≤ 16 →
    Forall (λ h, len h = 32) (wire.rt_block_hashes r) →
    encoded_len e ≤ 256 + 34 * len (wire.rt_block_hashes r).

Definition retired_event (reason : wire.RetirementReason) (batch : list B256) : wire.Event :=
  wire.EvCandidatesRetired {| wire.rt_block_hashes := to_vec <$> batch; wire.rt_reason := wire.reason_i32 reason |}.

Section retirement.
Context `{Env} (Hsize : retired_size).

Lemma retired_fits sh seq g ns reason batch :
  290 ≤ sh_max_frame_bytes sh ≤ u32_max → len (sh_boot_id sh) ≤ 16 → len batch ≤ batch_size (sh_max_frame_bytes sh) →
  ∃ frame, encode_frame (make_envelope sh seq g ns (retired_event reason batch)) (sh_max_frame_bytes sh) = Ok frame.
Proof.
  intros Hmax Hboot Hb.
  assert (Hlen : encoded_len (make_envelope sh seq g ns (retired_event reason batch)) ≤ sh_max_frame_bytes sh).
  { etrans; [apply Hsize; [done|done|]|].
    - apply Forall_fmap, Forall_true. intros h. unfold compose, len. by rewrite length_to_vec.
    - cbn [wire.rt_block_hashes]. unfold len in *. rewrite length_fmap. unfold batch_size, saturating_sub in Hb.
      rewrite (N.max_l _ 32) in Hb by lia.
      pose proof (N.Div0.mul_div_le (sh_max_frame_bytes sh - 256) 34).
      rewrite N.max_l in Hb; [lia|]. apply N.div_le_lower_bound; lia. }
  eexists. apply encode_frame_Ok. split_and!; [done|lia|reflexivity].
Qed.

Lemma publish_batches_fit g reason batches : ∀ p,
  290 ≤ sh_max_frame_bytes (pb_shared p) ≤ u32_max → len (sh_boot_id (pb_shared p)) ≤ 16 →
  Forall (λ b, len b ≤ batch_size (sh_max_frame_bytes (pb_shared p))) batches →
  ∃ p' new, publish_batches g reason batches p = (Ok (), p') ∧
    sh_frames (pb_shared p') = sh_frames (pb_shared p) ++ new ∧ pb_cache p' = pb_cache p ∧
    (λ f, wire.event (pf_envelope f)) <$> new = (λ b, Some (retired_event reason b)) <$> batches.
Proof.
  induction batches as [|b batches IH]; intros p Hmax Hboot Hb; cbn [publish_batches].
  { exists p, []. by rewrite app_nil_r. }
  apply Forall_cons in Hb as [Hb Hbs]. cbv [mbind M_bind]. unfold publish at 1. rewrite publish_inner_eq.
  unfold next_envelope.
  destruct (retired_fits (pb_shared p) (wrapping_add (sh_sequence (pb_shared p)) 1) g (frame_time p) reason b Hmax Hboot Hb)
    as [frame Hf]. unfold retired_event in Hf. rewrite Hf. cbv beta iota.
  match goal with |- context [publish_batches _ _ _ ?q] => destruct (IH q) as (p' & new & -> & Hfr & Hc & He); [done..|] end.
  eexists p', (_ :: new). split_and!; [done| |by rewrite Hc|].
  - rewrite Hfr. simpl. rewrite <- app_assoc. done.
  - rewrite !fmap_cons, He. done.
Qed.
End retirement.

(** C25: Retirements are announced exactly. If the codec is within the size protobuf needs and the
    frame limit is at least 290 bytes, [publish_retired] never fails, however many hashes there
    are: it sends, in order, batches that are each non-empty and fit in a frame, and the batches
    together are the retired hashes. *)
Theorem retirement_exact `{Env} g hashes reason p :
  retired_size → 290 ≤ sh_max_frame_bytes (pb_shared p) ≤ u32_max → len (sh_boot_id (pb_shared p)) ≤ 16 →
  ∃ p' new batches, publish_retired g hashes reason p = (Ok (), p') ∧
    sh_frames (pb_shared p') = sh_frames (pb_shared p) ++ new ∧ pb_cache p' = pb_cache p ∧
    (λ f, wire.event (pf_envelope f)) <$> new = (λ b, Some (retired_event reason b)) <$> batches ∧
    concat batches = hashes ∧ Forall (λ b, b ≠ []) batches.
Proof.
  intros Hsize Hmax Hboot. unfold publish_retired. case_decide as Hh.
  { exists p, [], []. rewrite app_nil_r. by split_and!. }
  cbv [mbind M_bind gets].
  destruct (chunks_spec (N.to_nat (batch_size (sh_max_frame_bytes (pb_shared p)))) hashes (batch_size_pos _)) as [Hc Hf].
  destruct (publish_batches_fit Hsize g reason
    (chunks (N.to_nat (batch_size (sh_max_frame_bytes (pb_shared p)))) hashes) p Hmax Hboot) as (p' & new & Hp & Hfr & Hca & He).
  { eapply Forall_impl; [exact Hf|]. intros b [_ Hl]. unfold len. lia. }
  exists p', new, (chunks (N.to_nat (batch_size (sh_max_frame_bytes (pb_shared p)))) hashes).
  split_and!; try done. eapply Forall_impl; [exact Hf|]. by intros b [? _].
Qed.

Lemma retirement_exact_witness :
  ∃ p' new batches, @publish_retired sample_env 1 [60; 61; 62] wire.RetentionExpired sample_publisher = (Ok (), p') ∧
    sh_frames (pb_shared p') = new ∧
    (λ f, wire.event (pf_envelope f)) <$> new = (λ b, Some (retired_event wire.RetentionExpired b)) <$> batches ∧
    concat batches = [60; 61; 62].
Proof.
  destruct (@retirement_exact sample_env 1 [60; 61; 62] wire.RetentionExpired sample_publisher)
    as (p' & new & batches & H1 & H2 & _ & H3 & H4 & _).
  - intros e r _ _ _. unfold encoded_len, len. cbn -[be_bytes]. rewrite length_be_bytes. lia.
  - vm_compute. split; discriminate.
  - vm_compute. discriminate.
  - exists p', new, batches. split; [exact H1|]. split; [exact H2|]. split; [exact H3|exact H4].
Defined.

(** ** Expiry *)

Section expiry.
Context `{Env}.

(** A record that is due: not the canonical head, and past its expiry. *)
Definition due_candidate (c : Cache) (now : N) (h : B256) : Prop :=
  h ≠ canonical_hash c ∧ ∃ e, candidates c !! h = Some e ∧ ce_expires_at e ≤ now.
Definition due_deferred (c : Cache) (now : N) (h : B256) : Prop :=
  h ≠ canonical_hash c ∧ ∃ d, deferred_executed c !! h = Some d ∧ de_expires_at d ≤ now.

Lemma elem_of_due {A} (m : gmap N A) (P : N * A → Prop) `{∀ x, Decision (P x)} h :
  h ∈ fst <$> filter P (hash_iter m) ↔ ∃ x, m !! h = Some x ∧ P (h, x).
Proof.
  rewrite list_elem_of_fmap. split.
  - intros ([h' x] & -> & [HP Hin%elem_of_hash_iter]%list_elem_of_filter). eauto.
  - intros (x & Hx & HP). exists (h, x). rewrite list_elem_of_filter, elem_of_hash_iter. done.
Qed.

Lemma NoDup_due {A} (m : gmap N A) (P : N * A → Prop) `{∀ x, Decision (P x)} :
  NoDup (fst <$> filter P (hash_iter m)).
Proof. eapply sublist_NoDup; [apply (NoDup_hash_iter m)|]. apply fmap_sublist, sublist_filter. Qed.

Lemma due_hashes_spec c now budget :
  (∀ h, h ∈ due_hashes c now budget → due_candidate c now h ∨ due_deferred c now h) ∧
  len (due_hashes c now budget) ≤ budget ∧
  (len (due_hashes c now budget) < budget →
     ∀ h, due_candidate c now h ∨ due_deferred c now h → h ∈ due_hashes c now budget).
Proof.
  unfold due_hashes. cbv zeta.
  match goal with |- context [take ?n (fst <$> filter ?P (hash_iter (candidates c)))] =>
    set (lc := fst <$> filter P (hash_iter (candidates c))) end.
  match goal with |- context [take ?n (fst <$> filter ?P (hash_iter (deferred_executed c)))] =>
    set (ld := fst <$> filter P (hash_iter (deferred_executed c))) end.
  assert (Hc : ∀ h, h ∈ lc ↔ due_candidate c now h).
  { intros h. unfold lc, due_candidate. rewrite elem_of_due. naive_solver. }
  assert (Hd : ∀ h, h ∈ ld ↔ due_deferred c now h).
  { intros h. unfold ld, due_deferred. rewrite elem_of_due. naive_solver. }
  clearbody lc ld. unfold len. split_and!.
  - intros h [Hh|Hh]%elem_of_app; [left; apply Hc|right; apply Hd];
      apply elem_of_take in Hh as (i & Hi & _); by eapply list_elem_of_lookup_2.
  - rewrite length_app, !length_take. lia.
  - rewrite length_app, !length_take. intros Hlt h [Hh%Hc|Hh%Hd]; apply elem_of_app.
    + left. rewrite take_ge by lia. done.
    + right. match goal with |- h ∈ take ?n ld => assert (take n ld = ld) as ->; [|done] end.
      apply take_ge. lia.
Qed.

Lemma NoDup_due_hashes c now budget : cache_ok c → NoDup (due_hashes c now budget).
Proof.
  intros Hok. unfold due_hashes. cbv zeta. apply NoDup_app. split_and!.
  - eapply sublist_NoDup; [|apply sublist_take]. apply NoDup_due.
  - intros h (i & Hi & _)%elem_of_take (j & Hj & _)%elem_of_take.
    apply list_elem_of_lookup_2, elem_of_due in Hi as (e & He & _).
    apply list_elem_of_lookup_2, elem_of_due in Hj as (d & Hd & _).
    rewrite (ok_disjoint _ Hok h) in Hd; [done|eauto].
  - eapply sublist_NoDup; [|apply sublist_take]. apply NoDup_due.
Qed.

Lemma remove_due_exact due : ∀ c,
  cache_ok c → queues_bounded c → NoDup due → Forall (λ h, h ≠ canonical_hash c) due →
  wp (remove_due due) (returns (λ expired c', cache_ok c' ∧ canonical_hash c' = canonical_hash c ∧
    expired = filter (λ h, is_tracked c h = true) due ∧
    (∀ h, candidates c' !! h = if decide (h ∈ due) then None else candidates c !! h) ∧
    (∀ h, deferred_executed c' !! h = if decide (h ∈ due) then None else deferred_executed c !! h)) (λ _, False)) c.
Proof.
  induction due as [|h due IH]; intros c Hok Hb Hnd Hall; cbn [remove_due]; [by apply wp_ret|].
  apply NoDup_cons in Hnd as [Hh Hnd]. apply Forall_cons in Hall as [Hne Hall].
  eapply wp_call; [by apply remove_one_trims| |done]. intros t c1 (Ht & (Hok1 & Hb1 & Hs1 & _) & (Hc1 & Hd1 & _)).
  destruct (sk_fixed _ _ _ Hs1) as (_ & _ & _ & Hcan & _).
  eapply wp_call; [apply IH; [done..|by rewrite Hcan]| |done]. intros expired c2 (Hok2 & Hcan2 & He & Hc2 & Hd2).
  apply wp_ret. split_and!; [done|congruence| | |].
  - assert (Hsame : filter (λ x, is_tracked c1 x = true) due = filter (λ x, is_tracked c x = true) due).
    { apply list_filter_ext_in. intros x Hx. unfold is_tracked. rewrite Hc1, lookup_delete_ne; [done|]. by intros ->. }
    rewrite filter_cons, He, Hsame, Ht. by destruct (is_tracked c h).
  - intros x. rewrite Hc2, Hc1. destruct (decide (x = h)) as [->|Hx].
    + rewrite lookup_delete_eq, decide_False, decide_True by set_solver. done.
    + rewrite lookup_delete_ne by done. case_decide; [rewrite decide_True by set_solver|rewrite decide_False by set_solver]; done.
  - intros x. rewrite Hd2, Hd1. destruct (decide (x = h)) as [->|Hx].
    + rewrite lookup_delete_eq, decide_False, decide_True by set_solver. done.
    + rewrite lookup_delete_ne by done. case_decide; [rewrite decide_True by set_solver|rewrite decide_False by set_solver]; done.
Qed.
End expiry.

(** C26: Expiry is exact. On a consistent cache, the removals of [maintain] return without an error;
    they take away at most the budget, only records past their expiry, never the canonical head, all
    of those that are due when there are fewer than the budget; every other record stays as it is;
    and the hashes reported for retirement are exactly the removed ones that consumers track. *)
Theorem expiry_exact `{Env} c now budget :
  cache_ok c → queues_bounded c →
  let due := due_hashes c now budget in
  ∃ expired c', remove_due due c = (Ok expired, c') ∧ cache_ok c' ∧
    len due ≤ budget ∧ (∀ h, h ∈ due → due_candidate c now h ∨ due_deferred c now h) ∧
    (len due < budget → ∀ h, due_candidate c now h ∨ due_deferred c now h → h ∈ due) ∧
    (∀ h, candidates c' !! h = if decide (h ∈ due) then None else candidates c !! h) ∧
    (∀ h, deferred_executed c' !! h = if decide (h ∈ due) then None else deferred_executed c !! h) ∧
    (∀ h, h ∈ expired ↔ h ∈ due ∧ tracked c h).
Proof.
  intros Hok Hb due. destruct (due_hashes_spec c now budget) as (Hdue & Hlen & Hall).
  pose proof (remove_due_exact due c Hok Hb (NoDup_due_hashes c now budget Hok) (due_hashes_not_canonical c now budget)) as Hwp.
  apply wp_total_inv in Hwp as [(expired & c' & E & Hok' & _ & He & Hc & Hd)|(e & c' & _ & [])].
  exists expired, c'. split_and!; try done.
  intros h. rewrite He, list_elem_of_filter, is_tracked_iff. naive_solver.
Qed.

Lemma expiry_exact_witness :
  ∃ expired c', @remove_due (@due_hashes sample_env sample_cache 1100 4) sample_cache = (Ok expired, c') ∧ cache_ok c'.
Proof.
  destruct (@expiry_exact sample_env sample_cache 1100 4 (proj1 sample_cache_ok) (proj2 sample_cache_ok))
    as (expired & c' & E & Hok & _).
  exists expired, c'. split; [exact E|exact Hok].
Defined.
