(* ===== verification/Codec.v ===== *)
(** * Frame sizes (src/src/config.rs: the frame requirement; src/src/publisher.rs: the preflight checks)

    The protobuf encoding of every message, measured: the encoding satisfies the
    laws the publisher relies on, and the frame requirement that
    [Config::validate] computes is enough for every frame of the service. *)

From S2P Require Import Prelude Bytes Config Watch Feed Wire Protobuf Client Consumer Stream Projection Cache CacheInv Publisher Sample PublisherInv Service.
From stdpp Require Import list.
Local Open Scope N_scope.

(** ** Sizes of fields *)

Definition fields_size (fs : list Field) : N := len (encode_fields fs).

Lemma len_app {A} (l k : list A) : len (l ++ k) = len l + len k.
Proof. unfold len. rewrite length_app. lia. Qed.

Lemma fields_size_app fs fs' : fields_size (fs ++ fs') = fields_size fs + fields_size fs'.
Proof. unfold fields_size. by rewrite encode_fields_app, len_app. Qed.

Lemma fields_size_cons f fs : fields_size (f :: fs) = len (encode_field f) + fields_size fs.
Proof. unfold fields_size, encode_fields. cbn [fmap list_fmap concat]. by rewrite len_app. Qed.

Lemma fields_size_one f : fields_size [f] = len (encode_field f).
Proof. rewrite fields_size_cons. apply N.add_0_r. Qed.

Lemma varint_within n m k : n ≤ m → len (encode_varint m) = k → len (encode_varint n) ≤ k.
Proof. intros Hn <-. by apply length_varint_mono. Qed.

Lemma key_size tag v : tag < 16 → len (encode_varint (tag * 8 + wire_type v)) ≤ 1.
Proof. intros Ht. pose proof (wire_type_lt v). apply (varint_within _ 127); [lia|done]. Qed.
Lemma event_key_size tag v : tag < 2048 → len (encode_varint (tag * 8 + wire_type v)) ≤ 2.
Proof. intros Ht. pose proof (wire_type_lt v). apply (varint_within _ 16383); [lia|done]. Qed.

Lemma delimited_size tag bs :
  len (encode_field (tag, LengthDelimited bs)) =
    len (encode_varint (tag * 8 + wire_type (LengthDelimited bs))) + len (encode_varint (len bs)) + len bs.
Proof. unfold encode_field. cbn [fst snd]. rewrite !len_app. apply N.add_assoc. Qed.

Lemma uint_size tag n k : tag < 16 → len (encode_varint n) ≤ k → fields_size (uint_field tag n) ≤ 1 + k.
Proof.
  intros Ht Hk. unfold uint_field. case_decide; [apply N.le_0_l|].
  rewrite fields_size_one. unfold encode_field. cbn [fst snd]. rewrite len_app.
  pose proof (key_size tag (Varint n) Ht). lia.
Qed.

Lemma u64_size tag n : tag < 16 → fields_size (uint_field tag n) ≤ 11.
Proof. intros Ht. apply (uint_size tag n 10); [done|apply length_varint]. Qed.
Lemma u32_size tag n : tag < 16 → n ≤ u32_max → fields_size (uint_field tag n) ≤ 6.
Proof. intros Ht Hn. apply (uint_size tag n 5); [done|]. by apply (varint_within _ u32_max). Qed.

Lemma bytes_size tag bs k :
  tag < 16 → len (encode_varint (len bs)) ≤ k → fields_size (bytes_field tag bs) ≤ 1 + k + len bs.
Proof.
  intros Ht Hk. unfold bytes_field. destruct bs as [|b bs]; [apply N.le_0_l|].
  rewrite fields_size_one, delimited_size. pose proof (key_size tag (LengthDelimited (b :: bs)) Ht).
  lia.
Qed.

Lemma any_bytes_size tag bs : tag < 16 → fields_size (bytes_field tag bs) ≤ 11 + len bs.
Proof. intros Ht. pose proof (length_varint (len bs)). apply (bytes_size tag bs 10); [done|lia]. Qed.
Lemma short_bytes_size tag bs n : tag < 16 → len bs = n → n < 128 → fields_size (bytes_field tag bs) ≤ 2 + n.
Proof. intros Ht <- Hn. apply (bytes_size tag bs 1); [done|]. apply (varint_within _ 127); [lia|done]. Qed.

Lemma message_field_size `{Message A} tag (o : option A) n :
  tag < 16 → on_option (λ a, len (encode_message a) ≤ n) o → fields_size (message_field tag o) ≤ 11 + n.
Proof.
  intros Ht Ho. destruct o as [a|]; simpl in *; [|apply N.le_0_l].
  rewrite fields_size_one, delimited_size. pose proof (key_size tag (LengthDelimited (encode_message a)) Ht).
  pose proof (length_varint (len (encode_message a))). lia.
Qed.

(** ** Sizes of messages *)

Definition hash_sized (h : bytes) : Prop := len h = 32.

Lemma checkpoint_size (m : wire.CheckpointRef) :
  hash_sized (wire.cr_hash m) → len (encode_message m) ≤ 45.
Proof.
  intros Hh. change (len (encode_message m)) with (fields_size (msg_fields m)). cbn [msg_fields checkpoint_message].
  rewrite fields_size_app. pose proof (u64_size 1 (wire.cr_number m)).
  pose proof (short_bytes_size 2 _ 32 ltac:(lia) Hh). lia.
Qed.

Lemma block_ref_size (m : wire.BlockRef) :
  hash_sized (wire.br_hash m) → hash_sized (wire.br_parent_hash m) → len (encode_message m) ≤ 90.
Proof.
  intros Hh Hp. change (len (encode_message m)) with (fields_size (msg_fields m)). cbn [msg_fields block_ref_message].
  rewrite !fields_size_app. pose proof (u64_size 1 (wire.br_number m)). pose proof (u64_size 4 (wire.br_timestamp m)).
  pose proof (short_bytes_size 2 _ 32 ltac:(lia) Hh). pose proof (short_bytes_size 3 _ 32 ltac:(lia) Hp). lia.
Qed.

Definition view_sized (m : wire.ForkchoiceView) : Prop :=
  on_option (λ c, hash_sized (wire.cr_hash c)) (wire.fv_head m) ∧
  on_option (λ c, hash_sized (wire.cr_hash c)) (wire.fv_safe m) ∧
  on_option (λ c, hash_sized (wire.cr_hash c)) (wire.fv_finalized m).

Lemma on_option_impl {A} (P Q : A → Prop) o : (∀ a, P a → Q a) → on_option P o → on_option Q o.
Proof. destruct o; simpl; auto. Qed.

Lemma view_size (m : wire.ForkchoiceView) : view_sized m → len (encode_message m) ≤ 168.
Proof.
  intros (Hh & Hs & Hf). change (len (encode_message m)) with (fields_size (msg_fields m)). cbn [msg_fields view_message].
  apply (on_option_impl _ _ _ checkpoint_size) in Hh, Hs, Hf. rewrite !fields_size_app.
  pose proof (message_field_size 1 (wire.fv_head m) 45 ltac:(lia) Hh). pose proof (message_field_size 2 (wire.fv_safe m) 45 ltac:(lia) Hs).
  pose proof (message_field_size 3 (wire.fv_finalized m) 45 ltac:(lia) Hf). lia.
Qed.

Definition block_sized (o : option wire.BlockRef) : Prop :=
  on_option (λ b, hash_sized (wire.br_hash b) ∧ hash_sized (wire.br_parent_hash b)) o.

Lemma block_field_size tag o : tag < 16 → block_sized o → fields_size (message_field tag o) ≤ 101.
Proof.
  intros Ht Ho. apply (message_field_size tag o 90 Ht). eapply on_option_impl; [|exact Ho].
  intros b [H1 H2]. by apply block_ref_size.
Qed.

(** The variable part of an event, and a bound of everything else. *)
Definition event_payload (e : wire.Event) : N :=
  match e with
  | wire.EvHello m => len (string_bytes (wire.service_version m)) + len (wire.genesis_hash m)
  | wire.EvConfigActivated m => foldr (λ k n, 80 + string_len (wire.id k) + n) 0 (wire.keys m)
  | wire.EvSnapshot m => len (wire.sn_values m)
  | wire.EvBlockState m => len (wire.bs_values m) + len (wire.bs_changed_bitmap m)
  | wire.EvBlockValidated m => len (wire.bv_block_hash m)
  | wire.EvBlockRejected m => len (wire.rj_block_hash m) + len (string_bytes (wire.rj_reason m))
  | wire.EvCanonicalHead m => len (wire.ch_values m) + len (wire.ch_changed_bitmap m)
  | wire.EvGap m => len (string_bytes (wire.gap_reason m))
  | wire.EvForkchoiceApplied m => 0
  | wire.EvCandidatesRetired m => 34 * len (wire.rt_block_hashes m)
  end.

Definition key_sized (k : wire.WatchKey) : Prop :=
  wire.key_id k ≤ u32_max ∧ 128 + string_len (wire.id k) ≤ u32_max ∧ len (wire.address k) = 20 ∧ len (wire.slot k) = 32.

(** Hashes of 32 bytes, addresses of 20. *)
Definition event_sized (e : wire.Event) : Prop :=
  match e with
  | wire.EvConfigActivated m => Forall key_sized (wire.keys m)
  | wire.EvSnapshot m => block_sized (wire.sn_block m) ∧ on_option view_sized (wire.sn_forkchoice m)
  | wire.EvBlockState m => block_sized (wire.bs_block m)
  | wire.EvCanonicalHead m => hash_sized (wire.ch_previous_block_hash m) ∧ block_sized (wire.ch_block m)
  | wire.EvForkchoiceApplied m => on_option view_sized (wire.fa_view m)
  | wire.EvCandidatesRetired m => Forall hash_sized (wire.rt_block_hashes m)
  | _ => True
  end.

(** Twelve bytes in front of the message the event carries. *)
Lemma event_field_size e :
  ∃ bs, event_fields e = ((event_fields e).1, LengthDelimited bs) ∧ fields_size [event_fields e] ≤ 12 + len bs.
Proof.
  assert (Ht : (event_fields e).1 < 2048) by (destruct e; simpl; lia).
  assert (∃ bs, event_fields e = ((event_fields e).1, LengthDelimited bs)) as [bs E] by (destruct e; eexists; reflexivity).
  exists bs. split; [done|]. rewrite fields_size_one, E, delimited_size. cbn [fst].
  pose proof (event_key_size _ (LengthDelimited bs) Ht). pose proof (length_varint (len bs)). lia.
Qed.

Lemma key_field_size (k : wire.WatchKey) :
  key_sized k → len (encode_field (1, LengthDelimited (encode_message k))) ≤ 80 + string_len (wire.id k).
Proof.
  intros (Hk & Hid & Ha & Hs).
  assert (Hlen : len (encode_message k) ≤ 68 + string_len (wire.id k)).
  { change (len (encode_message k)) with (fields_size (msg_fields k)). cbn [msg_fields watch_key_message].
    rewrite !fields_size_app. pose proof (u32_size 1 _ ltac:(lia) Hk). rewrite <- length_utf8_encode in *.
    pose proof (bytes_size 2 (utf8_encode (wire.id k)) 5 ltac:(lia) (varint_within (len (utf8_encode (wire.id k))) u32_max 5 ltac:(lia) eq_refl)).
    pose proof (short_bytes_size 3 _ 20 ltac:(lia) Ha). pose proof (short_bytes_size 4 _ 32 ltac:(lia) Hs). lia. }
  rewrite delimited_size. pose proof (key_size 1 (LengthDelimited (encode_message k)) ltac:(lia)).
  pose proof (varint_within (len (encode_message k)) u32_max 5 ltac:(lia) eq_refl). lia.
Qed.

Lemma dictionary_size ks :
  Forall key_sized ks →
  len (encode_message {| wire.keys := ks |}) ≤ foldr (λ k n, 80 + string_len (wire.id k) + n) 0 ks.
Proof.
  intros Hks. change (len (encode_message _)) with (fields_size (msg_fields {| wire.keys := ks |})).
  cbn [msg_fields config_message wire.keys]. induction Hks as [|k ks Hk _ IH]; [done|].
  cbn [fmap list_fmap foldr]. rewrite fields_size_cons. pose proof (key_field_size k Hk). lia.
Qed.

Lemma hashes_size hs :
  Forall hash_sized hs → fields_size ((λ h, (1, LengthDelimited h)) <$> hs) ≤ 34 * len hs.
Proof.
  induction 1 as [|h hs Hh _ IH]; [done|]. cbn [fmap list_fmap]. rewrite fields_size_cons, delimited_size.
  pose proof (key_size 1 (LengthDelimited h) ltac:(lia)). unfold hash_sized in Hh. rewrite Hh.
  change (len (encode_varint 32)) with 1. change (len (h :: hs)) with (len ([h] ++ hs)). rewrite len_app.
  change (len [h]) with 1. lia.
Qed.

(** The message of a sized event, without the envelope. *)
Lemma event_message_size e bs :
  event_sized e → event_fields e = ((event_fields e).1, LengthDelimited bs) → len bs ≤ 291 + event_payload e.
Proof.
  destruct e as [m|m|m|m|m|m|m|m|m|m]; intros Hs [= <-]; cbn [event_sized event_payload] in *;
    try match goal with |- len (encode_message ?m) ≤ _ => change (len (encode_message m)) with (fields_size (msg_fields m)) end.
  - cbn [msg_fields hello_message]. rewrite !fields_size_app.
    pose proof (any_bytes_size 1 (string_bytes (wire.service_version m))). pose proof (u64_size 2 (wire.chain_id m)).
    pose proof (any_bytes_size 3 (wire.genesis_hash m)). pose proof (u64_size 4 (wire.capabilities m)). lia.
  - destruct m as [ks]. cbn [wire.keys] in *. pose proof (dictionary_size ks Hs) as Hd.
    change (len (encode_message _)) with (fields_size (msg_fields {| wire.keys := ks |})) in Hd. lia.
  - destruct Hs as [Hb Hv]. apply (on_option_impl _ _ _ view_size) in Hv.
    cbn [msg_fields snapshot_message]. rewrite !fields_size_app.
    pose proof (block_field_size 1 _ ltac:(lia) Hb). pose proof (any_bytes_size 2 (wire.sn_values m)).
    pose proof (message_field_size 3 (wire.sn_forkchoice m) 168 ltac:(lia) Hv). lia.
  - cbn [msg_fields block_state_message]. rewrite !fields_size_app. pose proof (u64_size 1 (wire.bs_stage m)).
    pose proof (block_field_size 2 _ ltac:(lia) Hs). pose proof (any_bytes_size 3 (wire.bs_values m)).
    pose proof (any_bytes_size 4 (wire.bs_changed_bitmap m)). lia.
  - cbn [msg_fields block_validated_message]. pose proof (any_bytes_size 1 (wire.bv_block_hash m)). lia.
  - cbn [msg_fields block_rejected_message]. rewrite fields_size_app. pose proof (any_bytes_size 1 (wire.rj_block_hash m)).
    pose proof (any_bytes_size 2 (string_bytes (wire.rj_reason m))). lia.
  - destruct Hs as [Hp Hb]. cbn [msg_fields canonical_head_message]. rewrite !fields_size_app.
    pose proof (short_bytes_size 2 _ 32 ltac:(lia) Hp). pose proof (block_field_size 3 _ ltac:(lia) Hb).
    pose proof (any_bytes_size 4 (wire.ch_values m)). pose proof (any_bytes_size 5 (wire.ch_changed_bitmap m)). lia.
  - cbn [msg_fields gap_message]. rewrite fields_size_app. pose proof (u64_size 1 (wire.gap_last_contiguous_sequence m)).
    pose proof (any_bytes_size 2 (string_bytes (wire.gap_reason m))). lia.
  - apply (on_option_impl _ _ _ view_size) in Hs. cbn [msg_fields forkchoice_applied_message].
    pose proof (message_field_size 1 (wire.fa_view m) 168 ltac:(lia) Hs). lia.
  - cbn [msg_fields retired_message]. rewrite fields_size_app. pose proof (hashes_size _ Hs).
    pose proof (u64_size 2 (wire.rt_reason m)). lia.
Qed.

(** An envelope of the service. *)
Lemma envelope_size e ev :
  wire.event e = Some ev → len (wire.boot_id e) ≤ 16 → event_sized ev →
  @encoded_len protobuf e ≤ 374 + event_payload ev.
Proof.
  intros He Hb Hs. change (encoded_len e) with (fields_size (msg_fields e)). cbn [msg_fields envelope_message]. rewrite He.
  rewrite !fields_size_app. pose proof (u64_size 1 (wire.protocol_version e)). pose proof (any_bytes_size 2 (wire.boot_id e)).
  pose proof (u64_size 3 (wire.sequence e)). pose proof (u64_size 4 (wire.config_generation e)).
  pose proof (u64_size 5 (wire.emitted_at_monotonic_ns e)). destruct (event_field_size ev) as (bs & E & Hsize).
  pose proof (event_message_size ev bs Hs E). lia.
Qed.

Lemma uint_size_mono tag n m : n ≤ m → fields_size (uint_field tag n) ≤ fields_size (uint_field tag m).
Proof.
  intros Hn. unfold uint_field. destruct (decide (n = 0)); [apply N.le_0_l|]. rewrite decide_False by lia.
  rewrite !fields_size_one. unfold encode_field. cbn [fst snd wire_type]. rewrite !len_app.
  pose proof (length_varint_mono n m Hn). lia.
Qed.

(** The laws the publisher and the retirement batches rely on. *)
#[export] Instance protobuf_laws : @ProstLaws protobuf.
Proof.
  split. intros v b seq g ns ev Hseq Hns.
  match goal with |- encoded_len ?e ≤ encoded_len ?e' =>
    change (encoded_len e) with (fields_size (msg_fields e)); change (encoded_len e') with (fields_size (msg_fields e')) end.
  cbn [msg_fields envelope_message wire.protocol_version wire.boot_id wire.sequence wire.config_generation
    wire.emitted_at_monotonic_ns wire.event]. rewrite !fields_size_app.
  pose proof (uint_size_mono 3 seq u64_max Hseq). pose proof (uint_size_mono 5 ns u64_max Hns). lia.
Qed.

Lemma protobuf_retired_size : @retired_size protobuf.
Proof.
  intros e r He Hb Hh. change (encoded_len e) with (fields_size (msg_fields e)). cbn [msg_fields envelope_message]. rewrite He.
  rewrite !fields_size_app. pose proof (u64_size 1 (wire.protocol_version e)). pose proof (any_bytes_size 2 (wire.boot_id e)).
  pose proof (u64_size 3 (wire.sequence e)). pose proof (u64_size 4 (wire.config_generation e)).
  pose proof (u64_size 5 (wire.emitted_at_monotonic_ns e)).
  destruct (event_field_size (wire.EvCandidatesRetired r)) as (bs & [= <-] & Hsize).
  change (len (encode_message r)) with (fields_size (msg_fields r)) in Hsize. cbn [msg_fields retired_message] in Hsize.
  rewrite fields_size_app in Hsize. pose proof (hashes_size _ Hh). pose proof (u64_size 2 (wire.rt_reason r)). lia.
Qed.

(** ** The frame requirement of a configuration *)

Lemma dictionary_bytes_sum ks : ∀ acc,
  fold_left (λ size key, saturating_add (saturating_add size 80) (string_len (wc_id key))) ks acc < u64_max →
  acc + foldr (λ k n, 80 + string_len (wc_id k) + n) 0 ks =
    fold_left (λ size key, saturating_add (saturating_add size 80) (string_len (wc_id key))) ks acc.
Proof.
  induction ks as [|k ks IH]; intros acc; cbn [fold_left foldr]; [lia|]. intros Hlt. pose proof (IH _ Hlt) as E.
  revert E Hlt. generalize (fold_left (λ size key, saturating_add (saturating_add size 80) (string_len (wc_id key))) ks
    (saturating_add (saturating_add acc 80) (string_len (wc_id k)))) as r.
  unfold saturating_add. intros r. lia.
Qed.

Lemma imap_payload ks : ∀ f : nat → WatchConfig → WatchKey,
  (∀ i k, wk_id (f i k) = wc_id k) →
  foldr (λ k n, 80 + string_len (wk_id k) + n) 0 (imap f ks) = foldr (λ k n, 80 + string_len (wc_id k) + n) 0 ks.
Proof. induction ks as [|k ks IH]; intros f Hf; [done|]. cbn [imap foldr]. rewrite Hf, IH; [done|]. intros. apply Hf. Qed.

Lemma config_payload g ks :
  event_payload (wire.EvConfigActivated (config_activated (compile g ks))) =
    foldr (λ k n, 80 + string_len (wc_id k) + n) 0 ks.
Proof.
  rewrite <- (imap_payload ks watch_key) by done. cbn [event_payload config_activated wire.keys compile ws_keys].
  induction (imap watch_key ks) as [|k l IH]; [done|]. cbn [fmap list_fmap foldr]. by rewrite IH.
Qed.

Lemma id_within ks k : k ∈ ks → string_len (wc_id k) ≤ foldr (λ k n, 80 + string_len (wc_id k) + n) 0 ks.
Proof. induction 1; cbn [foldr]; lia. Qed.

Lemma ws_len_compile g ks : ws_len (compile g ks) = len ks.
Proof. unfold ws_len, len. simpl. by rewrite length_imap. Qed.

Lemma projection_bytes_sum n : projection_bytes n < u64_max → projection_bytes n = 512 + 32 * n + div_ceil n 8.
Proof. unfold projection_bytes, saturating_add, saturating_mul. lia. Qed.

(** The two requirements, without saturation. *)
Lemma frame_requirement c :
  validate c = Ok () → max_frame_bytes (Config.stream c) ≤ u32_max →
  1024 ≤ max_frame_bytes (Config.stream c) ∧
  512 + 32 * len (Config.watch c) + div_ceil (len (Config.watch c)) 8 ≤ max_frame_bytes (Config.stream c) ∧
  512 + foldr (λ k n, 80 + string_len (wc_id k) + n) 0 (Config.watch c) ≤ max_frame_bytes (Config.stream c).
Proof.
  intros [_ _ Hs _ _ _ Hp Hd]%validate_ok Hu. assert (Hlt : u32_max < u64_max) by done. split_and!.
  - apply (so_frame _ Hs).
  - rewrite <- projection_bytes_sum; [exact Hp|]. eapply N.le_lt_trans; [exact Hp|]. by eapply N.le_lt_trans.
  - rewrite (dictionary_bytes_sum _ 512); [exact Hd|]. eapply N.le_lt_trans; [exact Hd|]. by eapply N.le_lt_trans.
Qed.

Lemma config_activated_sized g c :
  validate c = Ok () → max_frame_bytes (Config.stream c) ≤ u32_max →
  event_sized (wire.EvConfigActivated (config_activated (compile g (Config.watch c)))).
Proof.
  intros Hv Hu. destruct (frame_requirement c Hv Hu) as (_ & _ & Hd). cbn [event_sized config_activated wire.keys].
  apply Forall_fmap, Forall_forall. intros k [i Hi]%list_elem_of_lookup. rewrite compile_key_lookup in Hi.
  apply fmap_Some in Hi as (w & Hw & ->). apply list_elem_of_lookup_2, id_within in Hw.
  unfold key_sized, compose. cbn [wire.key_id wire.id wire.address wire.slot watch_key wk_key_id wk_id wk_address wk_slot].
  pose proof (N.mod_lt (N.of_nat i) (u32_max + 1)). split_and!.
  - unfold u32_max in *. lia.
  - lia.
  - unfold len. by rewrite length_address_to_vec.
  - unfold len. by rewrite length_to_vec.
Qed.

(** ** Events of a running service *)

Section service_events.
Context (sh : Shared) (ws : WatchSet).

(** What the publisher and the handshake send while [ws] is active; the reasons are those of the
    source, none of which is longer than 128 bytes. *)
Inductive service_event : wire.Event → Prop :=
| se_hello : service_event (wire.EvHello (hello sh))
| se_config : service_event (wire.EvConfigActivated (config_activated ws))
| se_snapshot s : snapshot_wf (ws_len ws) s → service_event (wire.EvSnapshot s)
| se_gap gap : len (string_bytes (wire.gap_reason gap)) ≤ 128 → service_event (wire.EvGap gap)
| se_retired r : Forall hash_wf (wire.rt_block_hashes r) →
    len (wire.rt_block_hashes r) ≤ batch_size (sh_max_frame_bytes sh) → service_event (wire.EvCandidatesRetired r)
| se_rejected r : hash_wf (wire.rj_block_hash r) → len (string_bytes (wire.rj_reason r)) ≤ 128 →
    service_event (wire.EvBlockRejected r)
| se_data ev : data_wf (sh_capabilities sh) (ws_len ws) ev →
    match ev with wire.EvBlockRejected _ | wire.EvCandidatesRetired _ => False | _ => True end → service_event ev.
End service_events.

Lemma block_ref_wf_sized b : block_ref_wf b → block_sized b.
Proof. by intros (r & -> & H1 & H2). Qed.

Lemma view_wf_sized v head : view_wf v head → on_option view_sized v.
Proof.
  intros (view & -> & Hh & Hl & Hs & Hf & _). unfold view_sized. simpl. rewrite Hh. split_and!; [done| |].
  - destruct (wire.fv_safe view) as [s|]; simpl; [by apply Hs|done].
  - destruct (wire.fv_finalized view) as [f|]; simpl; [by apply Hf|done].
Qed.

Section fits.
Context (source : SnapshotSource) (iter : HashIter) (clock : nat → N) (shutdown : nat → N → bool).

(** Any provider, hasher and clock, with the protobuf encoding. *)
Definition protobuf_env : Env :=
  {| env_source := source; env_prost := protobuf; env_iter := iter; env_clock := clock; env_shutdown := shutdown |}.
#[local] Existing Instance protobuf_env.

Context (c : Config) (g : N).
Context (Hv : validate c = Ok ()) (Hu : max_frame_bytes (Config.stream c) ≤ u32_max).

Local Notation ws := (compile g (Config.watch c)).

Lemma service_event_size sh ev :
  sh_max_frame_bytes sh = max_frame_bytes (Config.stream c) → service_event sh ws ev →
  event_sized ev ∧ (374 + event_payload ev ≤ sh_max_frame_bytes sh ∨
    ∃ r, ev = wire.EvCandidatesRetired r ∧ Forall (λ h, len h = 32) (wire.rt_block_hashes r) ∧
      256 + 34 * len (wire.rt_block_hashes r) ≤ sh_max_frame_bytes sh).
Proof.
  intros Hm. destruct (frame_requirement c Hv Hu) as (H0 & Hp & Hd). rewrite <- Hm in H0, Hp, Hd.
  rewrite <- (ws_len_compile g) in Hp.  destruct 1 as [| |s Hs|gap Hr|r Hh Hb|r Hh Hr|ev Hd' Hne].
  - split; [done|left]. cbn [event_payload hello wire.service_version wire.genesis_hash].
    unfold len at 2. rewrite length_to_vec. change (len (string_bytes "0.1.0")) with 5. lia.
  - split; [by apply config_activated_sized|left]. rewrite config_payload. lia.
  - destruct Hs as (head & Hb & Hview & _ & Hval & _). split; [|left; simpl; rewrite Hval; lia].
    split; [by apply block_ref_wf_sized|by eapply view_wf_sized].
  - split; [done|left]. simpl. lia.
  - split; [done|right]. exists r. split_and!; [done|done|]. unfold batch_size, saturating_sub in Hb.
    pose proof (N.Div0.mul_div_le (N.max (sh_max_frame_bytes sh - 256) 32) 34). lia.
  - split; [done|left]. unfold hash_wf in Hh. simpl. lia.
  - destruct ev as [m|m|m|m|m|m|m|m|m|m]; try done; cbn [data_wf] in Hd'; destruct_and!;
      unfold values_wf, bitmap_wf, hash_wf in *; destruct_and?.
    + split; [by apply block_ref_wf_sized|left]. simpl. lia.
    + split; [done|left]. simpl. lia.
    + split; [split; [done|by apply block_ref_wf_sized]|left]. simpl.
      destruct_or!; [|lia]. match goal with E : wire.ch_changed_bitmap m = [] |- _ => rewrite E end.
      unfold len in *. simpl. lia.
    + match goal with E : ∃ _, view_wf _ _ |- _ => destruct E as [head Hview] end.
      split; [by eapply view_wf_sized|left]. simpl. lia.
Qed.

Lemma service_event_fits sh sequence generation ns ev :
  sh_max_frame_bytes sh = max_frame_bytes (Config.stream c) → len (sh_boot_id sh) ≤ 16 → service_event sh ws ev →
  ∃ frame, encode_frame (make_envelope sh sequence generation ns ev) (sh_max_frame_bytes sh) = Ok frame.
Proof.
  intros Hm Hb Hev. destruct (service_event_size sh ev Hm Hev) as [Hs Hle].
  assert (Hlen : encoded_len (make_envelope sh sequence generation ns ev) ≤ sh_max_frame_bytes sh).
  { destruct Hle as [Hle|(r & -> & Hh & Hle)]; (etrans; [|exact Hle]).
    - by apply envelope_size.
    - by apply protobuf_retired_size. }
  eexists. apply encode_frame_Ok. split_and!; [done|lia|reflexivity].
Qed.

(** ** Starting and reloading *)

Lemma event_frame_valid sh generation ev :
  sh_max_frame_bytes sh = max_frame_bytes (Config.stream c) → len (sh_boot_id sh) ≤ 16 → service_event sh ws ev →
  validate_event_frame sh generation ev = Ok ().
Proof.
  intros Hm Hb Hev. unfold validate_event_frame.
  by destruct (service_event_fits sh u64_max generation u64_max ev Hm Hb Hev) as [frame ->].
Qed.

(** A consistent snapshot of the dictionary: what the publisher checks besides the frame sizes. *)
Definition consistent (loaded : CanonicalSnapshot) : Prop :=
  validate_projection_dictionary (cs_projection loaded) ws = Ok () ∧ validate_snapshot_view loaded = Ok () ∧
  validate_projection_shape (cs_projection loaded) = Ok ().

Lemma keys_within : 32 * ws_len ws ≤ u64_max.
Proof.
  destruct (frame_requirement c Hv Hu) as (_ & Hp & _). rewrite <- (ws_len_compile g) in Hp. 
  unfold u64_max, u32_max in *. lia.
Qed.

Lemma projection_frames_valid sh loaded :
  sh_max_frame_bytes sh = max_frame_bytes (Config.stream c) → len (sh_boot_id sh) ≤ 16 → consistent loaded →
  validate_projection_frames sh (cs_projection loaded) (cs_forkchoice loaded) = Ok ().
Proof.
  intros Hm Hb (Hd & Hview & Hshape). unfold validate_projection_frames. rewrite Hshape. cbn [mbind outcome_bind]. cbv zeta.
  pose proof (dictionary_len _ _ Hd) as Hlen. pose proof (validate_projection_shape_Ok _ Hshape) as [Hval _].
  unfold values_shape in Hval. rewrite Hlen in Hval.
  pose proof keys_within as Hk.
  assert (Hbm : len (replicate (N.to_nat (bitmap_len (pj_watch_set (cs_projection loaded)))) 255) = div_ceil (ws_len ws) 8).
  { unfold len, bitmap_len. rewrite length_replicate, Hlen. lia. }
  assert (Href : block_ref_wf (Some (block_ref (pj_block (cs_projection loaded))))).
  { eexists. split; [done|]. split; apply hash_wf_to_vec. }
  rewrite (event_frame_valid sh _ (wire.EvSnapshot _)); [cbn [mbind outcome_bind]|done|done|].
  2: { apply se_snapshot. rewrite <- Hlen. apply snapshot_event_wf; [done|done|]. by rewrite Hlen. }
  rewrite (event_frame_valid sh _ (wire.EvBlockState _)); [cbn [mbind outcome_bind]|done|done|].
  2: { apply se_data; [|done]. split_and!; try done. by left. }
  apply event_frame_valid; [done|done|]. apply se_data; [|done]. split_and!; try done; by right.
Qed.

Lemma handshake_frames_valid sh loaded :
  sh_max_frame_bytes sh = max_frame_bytes (Config.stream c) → len (sh_boot_id sh) ≤ 16 → consistent loaded →
  validate_handshake_frames sh (cs_projection loaded) (cs_forkchoice loaded) = Ok ().
Proof.
  intros Hm Hb Hc. unfold validate_handshake_frames. cbv zeta.
  rewrite (event_frame_valid sh _ (wire.EvHello _)); [|done|done|apply se_hello]. cbn [mbind outcome_bind].
  pose proof Hc as (Hd & _ & _). apply validate_projection_dictionary_Ok in Hd as [_ Hk].
  assert (config_activated (pj_watch_set (cs_projection loaded)) = config_activated ws) as ->.
  { unfold config_activated. by rewrite Hk. }
  rewrite (event_frame_valid sh _ (wire.EvConfigActivated _)); [|done|done|apply se_config]. cbn [mbind outcome_bind].
  by apply projection_frames_valid.
Qed.

Lemma publish_inner_Ok generation ev next p :
  sh_max_frame_bytes (pb_shared p) = max_frame_bytes (Config.stream c) → len (sh_boot_id (pb_shared p)) ≤ 16 →
  service_event (pb_shared p) ws ev →
  ∃ seq p', publish_inner generation ev next p = (Ok seq, p') ∧
    sh_max_frame_bytes (pb_shared p') = sh_max_frame_bytes (pb_shared p) ∧
    sh_boot_id (pb_shared p') = sh_boot_id (pb_shared p).
Proof.
  intros Hm Hb Hev. rewrite publish_inner_eq.
  destruct (service_event_fits (pb_shared p) (wrapping_add (sh_sequence (pb_shared p)) 1) generation (frame_time p) ev Hm Hb Hev)
    as [frame Hf]. unfold next_envelope. rewrite Hf. eauto.
Qed.

Lemma activate_iff p :
  sh_max_frame_bytes (pb_shared p) = max_frame_bytes (Config.stream c) → len (sh_boot_id (pb_shared p)) ≤ 16 →
  active_generation p < g →
  (∃ p', activate ws p = (Ok (), p')) ↔ ∃ loaded, load_latest (pb_tick p) ws = inl loaded ∧ consistent loaded.
Proof.
  intros Hm Hb Hg. unfold activate, call_load_latest. cbv [mbind M_bind gets].
  rewrite (proj2 (N.leb_gt (ws_generation ws) _)) by done. cbn [env_source protobuf_env].
  set (p1 := p <| pb_tick ::= S |>).
  destruct (load_latest (pb_tick p) ws) as [loaded|e]; [|split; [by intros [? [=]]|by intros (? & [=] & _)]].
  unfold returning, lift. cbv [mret M_ret]. split.
  - intros [p' H]. exists loaded. split; [done|].
    destruct (validate_snapshot_view loaded) as [[]|?|] eqn:Hview; [|done..].
    destruct (validate_projection_dictionary (cs_projection loaded) ws) as [[]|?|] eqn:Hd; [|done..].
    destruct (validate_event_frame _ _ _) as [[]|?|]; [|done..].
    destruct (validate_projection_frames _ _ _) as [[]|?|] eqn:Hf; [|done..].
    apply projection_frames_Ok in Hf as [? _]. by split_and!.
  - intros (loaded' & [= <-] & Hc). pose proof Hc as (-> & -> & _).
    rewrite (event_frame_valid (pb_shared p1)) by (done || apply se_config).
    rewrite (projection_frames_valid (pb_shared p1)) by done. unfold install_anchor, now, update_candidate_metric, on_metrics, modify.
    cbv [mbind M_bind gets].
    unfold publish_state, publish.
    match goal with |- context [publish_inner ?gen ?ev ?next ?q] =>
      destruct (publish_inner_Ok gen ev next q Hm Hb (se_config _ _)) as (seq & p2 & -> & Hm2 & Hb2) end.
    pose proof Hc as (Hd & Hview & Hshape). pose proof (dictionary_len _ _ Hd) as Hlen.
    match goal with |- context [publish_inner ?gen ?ev ?next p2] =>
      destruct (publish_inner_Ok gen ev next p2) as (seq' & p3 & -> & _) end; [by rewrite Hm2|by rewrite Hb2| |eauto].
    apply se_snapshot. rewrite <- Hlen. apply snapshot_event_wf; [done|done|]. rewrite Hlen. apply keys_within.
Qed.

(** C10: The frame requirement that [Config::validate] enforces is enough. With the protobuf encoding
    of the messages, for every configuration that validates with a frame limit of at most 32 bits,
    whatever the sequence number, the time and the contents, every event the publisher and the
    handshake send while that configuration's dictionary is active, the dictionary itself included,
    encodes to a frame within the limit. *)
Theorem config_frames_fit sh sequence ns ev :
  sh_max_frame_bytes sh = max_frame_bytes (Config.stream c) → len (sh_boot_id sh) ≤ 16 → service_event sh ws ev →
  ∃ frame, encode_frame (make_envelope sh sequence g ns ev) (sh_max_frame_bytes sh) = Ok frame.
Proof. apply service_event_fits. Qed.

(** C9: A configuration that validates is never refused for the size of its frames. With the protobuf
    encoding and a frame limit of at most 32 bits, [start_service] succeeds exactly when the provider
    returns a consistent snapshot of the dictionary, and so does [activate] for a newer generation
    of a reloaded dictionary under the same stream settings: no such reload is lost to
    [FrameTooLarge], whatever the keys' names and number. *)
Theorem valid_config_served boot chain genesis started p :
  len boot = 16 →
  ((∃ p0, start_service (Config.stream c) boot chain genesis started ws = Ok p0) ↔
   ∃ loaded, load_latest 0 ws = inl loaded ∧ consistent loaded) ∧
  (sh_max_frame_bytes (pb_shared p) = max_frame_bytes (Config.stream c) → len (sh_boot_id (pb_shared p)) = 16 →
   active_generation p < g →
   (∃ p', activate ws p = (Ok (), p')) ↔ ∃ loaded, load_latest (pb_tick p) ws = inl loaded ∧ consistent loaded).
Proof.
  intros Hboot. split.
  - unfold start_service. cbn [env_source protobuf_env]. pose proof (proj1 (validate_ok c) Hv) as [Hne _ Hs _ _ _ _ _].
    rewrite (proj2 (validate_stream_ok _) Hs).
    assert (ws_is_empty ws = false) as ->.
    { unfold ws_is_empty. rewrite ws_len_compile. apply N.eqb_neq. unfold len. by destruct (Config.watch c). }
    split.
    + intros [p0 Hstart]. destruct (load_latest 0 ws) as [loaded|e]; [|done]. exists loaded. split; [done|].
      apply bind_Ok_inv in Hstart as ([] & Hd & Hr). apply bind_Ok_inv in Hr as ([] & Hview & Hr). cbv zeta in Hr.
      apply bind_Ok_inv in Hr as ([] & Hf & _). split_and!; [done|done|]. unfold validate_handshake_frames in Hf.
      apply bind_Ok_inv in Hf as ([] & _ & Hf). apply bind_Ok_inv in Hf as ([] & _ & Hf).
      by apply projection_frames_Ok in Hf as [? _].
    + intros (loaded & -> & Hc). pose proof Hc as (-> & -> & _). cbn [mbind outcome_bind]. cbv zeta.
      rewrite handshake_frames_valid; [|done|simpl; lia|done]. simpl. eauto.
  - intros Hm Hb Hg. apply activate_iff; [done|lia|done].
Qed.
End fits.

(** ** The sample service with the protobuf encoding *)

Definition coded_config : Config := {| Config.stream := sample_stream; Config.watch := sample_watch |}.
Definition coded_env : Env :=
  protobuf_env sample_source in_key_order (λ tick, 100 + N.of_nat tick) (λ _ _, false).

Definition coded_publisher : Publisher :=
  Eval vm_compute in started (@start_service coded_env sample_stream sample_boot 1 0 0 sample_watch_set).

Lemma coded_started : @start_service coded_env sample_stream sample_boot 1 0 0 sample_watch_set = Ok coded_publisher.
Proof. vm_compute. reflexivity. Qed.

Lemma config_frames_fit_witness :
  ∃ frame, @encode_frame protobuf (make_envelope (pb_shared coded_publisher) 7 1 9
    (wire.EvConfigActivated (config_activated (compile 1 sample_watch)))) 4096 = Ok frame.
Proof.
  refine (config_frames_fit sample_source in_key_order (λ tick, 100 + N.of_nat tick) (λ _ _, false) coded_config 1
    _ _ (pb_shared coded_publisher) 7 9 _ _ _ _); [vm_compute; reflexivity|vm_compute; discriminate|reflexivity
    |vm_compute; discriminate|apply se_config].
Defined.

(** The node starts, and a reload succeeds. *)
Lemma valid_config_served_witness :
  (∃ p0, @start_service coded_env sample_stream sample_boot 1 0 0 (compile 2 sample_watch) = Ok p0) ∧
  (∃ p', @activate coded_env (compile 2 sample_watch) coded_publisher = (Ok (), p')).
Proof.
  destruct (valid_config_served sample_source in_key_order (λ tick, 100 + N.of_nat tick) (λ _ _, false) coded_config 2
    ltac:(vm_compute; reflexivity) ltac:(vm_compute; discriminate) sample_boot 1 0 0 coded_publisher eq_refl) as [H1 H2].
  split.
  - apply H1. eexists. split; [reflexivity|]. split; [|split]; vm_compute; reflexivity.
  - apply H2; [reflexivity|reflexivity|vm_compute; reflexivity|]. eexists. split; [reflexivity|].
    split; [|split]; vm_compute; reflexivity.
Defined.
