(* ===== verification/Recovery.v ===== *)
(** * Fences, activations and recovery

    What the control operations of the publisher guarantee when they return,
    and that recovery does return: once the provider answers again, the loop of
    [recover_until_success] ends, within a number of rounds that is known in
    advance. *)

From S2P Require Import Prelude Bytes Config Watch Feed Wire Client Consumer Stream Projection Cache CacheInv Publisher Sample PublisherInv Service.
From stdpp Require Import list.
Local Open Scope N_scope.

(** ** Recovery *)

Section recovery.
Context `{Env} `{!ProstLaws}.

(** What the rounds of a recovery leave alone. *)
Definition same_world (p p' : Publisher) : Prop :=
  sh_boot_id (pb_shared p') = sh_boot_id (pb_shared p) ∧
  sh_max_frame_bytes (pb_shared p') = sh_max_frame_bytes (pb_shared p) ∧
  canonical_projection p' = canonical_projection p.

#[local] Instance same_world_preorder : PreOrder same_world.
Proof. split; [by intros p|]. intros p1 p2 p3 (? & ? & ?) (? & ? & ?). split_and!; congruence. Qed.

(** A snapshot every check of [reanchor] accepts. *)
Definition acceptable (p : Publisher) (s : CanonicalSnapshot) : Prop :=
  validate_snapshot_view s = Ok () ∧
  validate_projection_dictionary (cs_projection s) (pj_watch_set (canonical_projection p)) = Ok () ∧
  validate_projection_frames (pb_shared p) (cs_projection s) (cs_forkchoice s) = Ok ().

Lemma event_frame_same sh sh' g event :
  sh_boot_id sh' = sh_boot_id sh → sh_max_frame_bytes sh' = sh_max_frame_bytes sh →
  validate_event_frame sh' g event = validate_event_frame sh g event.
Proof. intros E1 E2. unfold validate_event_frame, make_envelope. by rewrite E1, E2. Qed.

Lemma acceptable_same p p' s : same_world p p' → acceptable p s → acceptable p' s.
Proof.
  intros (E1 & E2 & E3) (Hv & Hd & Hf). split_and!; [done|by rewrite E3|].
  rewrite <- Hf. unfold validate_projection_frames. by rewrite !(event_frame_same (pb_shared p) (pb_shared p')).
Qed.

(** [reanchor] either installs what the provider returned or fails having only asked for it, and it
    does not refuse an acceptable snapshot. *)
Definition reanchor_post (p : Publisher) (o : outcome Error ()) (p' : Publisher) : Prop :=
  let answer := load_latest (pb_tick p) (pj_watch_set (canonical_projection p)) in
  match o with
  | Ok _ => ∃ s, answer = inl s ∧
      published p' = mkPublishedState (cs_projection s) (Some (cs_forkchoice s)) (sh_published_sequence (pb_shared p')) false ∧
      snapshot_anchored_at p' = cs_anchored_at s
  | Err _ => p' = p <| pb_tick ::= S |> ∧ ∀ s, answer = inl s → ~ acceptable p s
  | Diverge => False
  end.

Lemma reanchor_outcome p : wp reanchor (reanchor_post p) p.
Proof.
  unfold reanchor, reanchor_post. wp_steps. apply wp_bind. unfold wp at 1, call_load_latest. simpl.
  destruct (load_latest _ _) as [s|e] eqn:El; [|by apply wp_bind, wp_throw].
  apply wp_bind, wp_ret. cbv beta iota. unfold acceptable.
  wp_step. destruct (validate_snapshot_view s) as [[]|e|] eqn:Ev;
    [|split; [done|]; intros s' [= <-] (? & _); congruence|by destruct (snapshot_view_not_diverge _ Ev)].
  cbv zeta. wp_step. destruct (validate_projection_dictionary _ _) as [[]|e|] eqn:Ed;
    [|split; [done|]; intros s' [= <-] (_ & ? & _); congruence|by destruct (dictionary_not_diverge _ _ Ed)].
  wp_step. wp_step. cbn [pb_shared].
  destruct (validate_projection_frames _ _ _) as [[]|e|] eqn:Ef;
    [|split; [done|]; intros s' [= <-] (_ & _ & ?); congruence|by destruct (projection_frames_not_diverge _ _ _ Ef)].
  apply projection_frames_Ok in Ef as [_ Hpre]. apply wp_bind. unfold install_anchor. wp_steps.
  apply wp_bind. unfold wp at 1, now. simpl. wp_steps. apply wp_bind. unfold wp at 1, publish_state.
  match goal with |- context [publish_inner _ _ _ ?q] => set (p2 := q) end.
  destruct (preflight_fits _ _ _ p2 Hpre) as [frame Hfit]; [done..|].
  rewrite publish_inner_eq, Hfit. simpl. apply wp_ret. by exists s.
Qed.

Section heals.
Context (p0 : Publisher) (reason : string) (healed : nat).
Let ws0 := pj_watch_set (canonical_projection p0).

(** From tick [healed] on, the provider returns an acceptable snapshot. *)
Context (Hheals : ∀ t, (healed ≤ t)%nat → ∃ s, load_latest t ws0 = inl s ∧ acceptable p0 s).
(** Nobody shuts the service down during a wait between ten milliseconds and a second. *)
Context (Hshutdown : ∀ t d, from_millis 10 ≤ d ≤ from_secs 1 → env_shutdown t d = false).
(** A gap marker fits in a frame. *)
Context (Hgap : ∀ n, validate_event_frame (pb_shared p0) (active_generation p0)
  (wire.EvGap {| wire.gap_last_contiguous_sequence := n; wire.gap_reason := reason |}) = Ok ()).

Lemma announce_gap_fits p :
  same_world p0 p → ∃ p', announce_gap reason p = (Ok (), p') ∧ same_world p0 p' ∧ (pb_tick p ≤ pb_tick p')%nat.
Proof.
  intros Hsame. unfold announce_gap. cbv [mbind M_bind gets]. unfold publish_state.
  rewrite publish_inner_eq. pose proof Hsame as (E1 & E2 & E3).
  destruct (preflight_fits _ _ _ p (Hgap (sh_published_sequence (pb_shared p)))) as [frame Hfit]; [done..|].
  unfold active_generation in Hfit. rewrite E3 in *. rewrite Hfit. eexists. split; [reflexivity|]. simpl. split; [|lia]. by split_and!.
Qed.

(** The publisher after a recovery: it shows what the provider answered at some tick. *)
Definition recovered (p' : Publisher) : Prop :=
  ∃ s t, load_latest t ws0 = inl s ∧
    published p' = mkPublishedState (cs_projection s) (Some (cs_forkchoice s)) (sh_published_sequence (pb_shared p')) false ∧
    snapshot_anchored_at p' = cs_anchored_at s.

Lemma announce_round (announced : bool) p :
  same_world p0 p →
  wp (if announced then mret true else catch (announce_gap reason ;; mret true) (λ _, mret false))
    (λ o p', o = Ok true ∧ same_world p0 p' ∧ (pb_tick p ≤ pb_tick p')%nat) p.
Proof.
  intros Hs. destruct announced; [by apply wp_ret|]. destruct (announce_gap_fits p Hs) as (p1 & Ep & ? & ?).
  unfold wp, catch. cbv [mbind M_bind]. rewrite Ep. done.
Qed.

Lemma reanchor_round p :
  same_world p0 p →
  wp (catch (reanchor ;; mret true) (λ _, mret false))
    (λ o p', o = Ok true ∧ recovered p' ∨
             o = Ok false ∧ p' = p <| pb_tick ::= S |> ∧ (pb_tick p < healed)%nat) p.
Proof.
  intros Hs. pose proof (reanchor_outcome p) as Hre. unfold wp, catch in *. cbv [mbind M_bind].
  destruct (reanchor p) as [[[]|e|] p']; simpl in *; [left|right|done].
  - rewrite (proj2 (proj2 Hs)) in Hre. destruct Hre as (s & ? & ? & ?). split; [done|]. by exists s, (pb_tick p).
  - destruct Hre as [-> Hno]. split_and!; [done..|]. apply Nat.nle_gt. intros Hle.
    destruct (Hheals _ Hle) as (s & El & Ha). apply (Hno s); [|by eapply acceptable_same].
    by rewrite (proj2 (proj2 Hs)).
Qed.

Lemma attempt_round announced p :
  same_world p0 p →
  wp (attempt reason announced)
    (λ o p', o = Ok (true, true) ∧ recovered p' ∨
             o = Ok (false, true) ∧ same_world p0 p' ∧ (pb_tick p < pb_tick p' ≤ healed)%nat) p.
Proof.
  intros Hs. unfold attempt. apply wp_bind. eapply wp_mono; [by apply announce_round|]. intros ? p1 (-> & Hs1 & Ht1).
  apply wp_bind. eapply wp_mono; [by apply reanchor_round|]. intros ? p2 [[-> Hr]|(-> & -> & Hlt)]; apply wp_ret; [by left|].
  right. split_and!; [done|exact Hs1|simpl; lia..].
Qed.

Lemma recover_loop_heals n : ∀ fuel announced d p,
  same_world p0 p → (healed ≤ pb_tick p + n)%nat → from_millis 10 ≤ d ≤ from_secs 1 → (n < fuel)%nat →
  wp (recover_loop fuel reason announced d) (λ o p', o = Ok true ∧ recovered p') p.
Proof.
  induction n as [|n IH]; intros [|fuel] announced d p Hs Ht Hd Hfuel; [lia| |lia|]; cbn [recover_loop];
    apply wp_bind; (eapply wp_mono; [by apply attempt_round|]); intros ? p1 [[-> Hr]|(-> & Hs1 & Hlt)];
    [by apply wp_ret|lia|by apply wp_ret|].
  apply wp_bind. unfold wp at 1, poll_shutdown. simpl. rewrite Hshutdown by done.
  apply IH; [done|simpl; lia| |lia]. unfold saturating_mul, from_millis, from_secs, u64_max in *. lia.
Qed.
End heals.
End recovery.

(** C21: Recovery ends as soon as the provider does. If from some tick on the provider returns
    snapshots that pass the checks, a gap marker fits in a frame and nobody shuts the service down,
    then [recover_until_success] returns [true] after at most one round per tick until then, having
    waited between ten milliseconds and a second before each retry; the publisher then shows a
    snapshot the provider returned, and is no longer recovering. *)
Theorem recovery_ends `{Env} `{!ProstLaws} p reason healed fuel :
  (∀ t, (healed ≤ t)%nat → ∃ s,
     load_latest t (pj_watch_set (canonical_projection p)) = inl s ∧ acceptable p s) →
  (∀ t d, from_millis 10 ≤ d ≤ from_secs 1 → env_shutdown t d = false) →
  (∀ n, validate_event_frame (pb_shared p) (active_generation p)
     (wire.EvGap {| wire.gap_last_contiguous_sequence := n; wire.gap_reason := reason |}) = Ok ()) →
  (healed - pb_tick p < fuel)%nat →
  ∃ p', recover_until_success fuel reason p = (Ok true, p') ∧ recovered p p'.
Proof.
  intros Hheals Hshutdown Hgap Hfuel.
  assert (Hwp : wp (recover_until_success fuel reason) (λ o p', o = Ok true ∧ recovered p p') p).
  { unfold recover_until_success. wp_steps.
    eapply (recover_loop_heals p reason healed Hheals Hshutdown Hgap (healed - pb_tick p)); [done|lia|vm_compute; by split|done]. }
  unfold wp in Hwp. destruct (recover_until_success fuel reason p) as [o p']. cbn [fst snd] in Hwp.
  destruct Hwp as [-> Hr]. by exists p'.
Qed.

Lemma recovery_ends_witness :
  ∃ p', @recover_until_success sample_env 1 "engine_queue_overflow" sample_publisher = (Ok true, p') ∧
    @recovered sample_env sample_publisher p'.
Proof.
  apply (@recovery_ends sample_env sample_laws sample_publisher "engine_queue_overflow" 0 1).
  - intros t _. eexists. split; [reflexivity|]. split; [|split]; vm_compute; reflexivity.
  - reflexivity.
  - intros n. unfold validate_event_frame, encode_frame. reflexivity.
  - simpl. lia.
Defined.

(** ** Fences and activations of a running service *)

(** The events of the frames sent between two states. *)
Definition sent (p p' : Publisher) (events : list (option wire.Event)) : Prop :=
  ∃ new, sh_frames (pb_shared p') = sh_frames (pb_shared p) ++ new ∧ (λ f, wire.event (pf_envelope f)) <$> new = events.

Lemma sent_none p p' : sh_frames (pb_shared p') = sh_frames (pb_shared p) → sent p p' [].
Proof. exists []. by rewrite app_nil_r. Qed.
Lemma sent_app p1 p2 p3 l1 l2 : sent p1 p2 l1 → sent p2 p3 l2 → sent p1 p3 (l1 ++ l2).
Proof. intros (n1 & E1 & <-) (n2 & E2 & <-). exists (n1 ++ n2). by rewrite E2, E1, app_assoc, fmap_app. Qed.

(** Steps that send nothing but retirements and leave the state new consumers are served alone. *)
Definition is_retirement (e : option wire.Event) : Prop := ∃ r, e = Some (wire.EvCandidatesRetired r).
Definition retires (p p' : Publisher) : Prop :=
  published p' = published p ∧ ∃ events, sent p p' events ∧ Forall is_retirement events.

#[export] Instance retires_preorder : PreOrder retires.
Proof.
  split; [intros p; split; [done|]; exists []; by split; [apply sent_none|]|].
  intros p1 p2 p3 (E1 & l1 & S1 & F1) (E2 & l2 & S2 & F2). split; [congruence|]. exists (l1 ++ l2).
  split; [by eapply sent_app|by apply Forall_app].
Qed.
Lemma retires_none p p' : published p' = published p → sh_frames (pb_shared p') = sh_frames (pb_shared p) → retires p p'.
Proof. intros. split; [done|]. exists []. by split; [apply sent_none|]. Qed.

Create HintDb retires discriminated.
#[export] Hint Constants Opaque : retires.
#[export] Hint Resolve along_ret along_throw along_diverge along_gets along_lift along_returning retires_preorder : retires.

Ltac solve_retires :=
  intros; cbv beta zeta;
  lazymatch goal with
  | |- Along retires (mbind _ _) => apply (along_bind _); solve_retires
  | |- Along retires (modify _) => intros ?; by apply retires_none
  | |- Along retires (on_metrics _) => intros ?; by apply retires_none
  | |- Along retires (match ?x with _ => _ end) => destruct x; solve_retires
  | |- Along retires _ => solve [eauto with retires nocore]
  end.

Section fence.
Context `{Env}.

Lemma retires_now : Along retires now.
Proof. intros p. by apply retires_none. Qed.
Lemma retires_load_at ws h : Along retires (call_load_at ws h).
Proof. intros p. by apply retires_none. Qed.
Lemma retires_metric : Along retires update_candidate_metric.
Proof. intros p. by apply retires_none. Qed.
Lemma retires_on_cache {A} (m : M Cache Error A) : Along retires (on_cache m).
Proof. intros p. unfold on_cache. destruct (m (pb_cache p)). by apply retires_none. Qed.
#[local] Hint Resolve retires_now retires_load_at retires_metric retires_on_cache : retires.

(** One frame, or none after an error. *)
Lemma publish_inner_sends g event next p :
  wp (publish_inner g event next) (λ o p', pb_cache p' = pb_cache p ∧
    match o with
    | Ok _ => sent p p' [Some event] ∧ published p' = match next with
        | Some (canonical, forkchoice, recovering) =>
            mkPublishedState canonical forkchoice (sh_published_sequence (pb_shared p')) recovering
        | None => published p end
    | _ => published p' = published p ∧ sh_frames (pb_shared p') = sh_frames (pb_shared p)
    end) p.
Proof.
  unfold wp. rewrite publish_inner_eq. destruct (encode_frame _ _) as [frame|e|]; simpl; [|done|done].
  split; [done|]. split; [by eexists|]. by destruct next as [[[] ?]|].
Qed.

Lemma retires_publish g r : Along retires (publish g (wire.EvCandidatesRetired r)).
Proof.
  intros p. pose proof (publish_inner_sends g (wire.EvCandidatesRetired r) None p) as Hp. unfold wp in Hp. unfold publish.
  destruct (publish_inner _ _ _ p) as [[seq|e|] p']; destruct Hp as (_ & Hs & Hpub); [|by apply retires_none..].
  split; [done|]. eexists. split; [exact Hs|]. apply Forall_singleton. by eexists.
Qed.
#[local] Hint Resolve retires_publish : retires.
Lemma retires_batches g r bs : Along retires (publish_batches g r bs).
Proof. induction bs; cbn [publish_batches]; solve_retires. Qed.
#[local] Hint Resolve retires_batches : retires.
Lemma retires_publish_retired g hs r : Along retires (publish_retired g hs r).
Proof. unfold publish_retired. solve_retires. Qed.
#[local] Hint Resolve retires_publish_retired : retires.
Lemma retires_insert_candidate pj st t f : Along retires (insert_candidate pj st t f).
Proof. unfold insert_candidate, trim_projection_cache, trim_metadata. solve_retires. Qed.
Lemma retires_finality g b : Along retires (process_finality_budget g b).
Proof. unfold process_finality_budget. solve_retires. Qed.
Lemma retires_canonical_source g a ws h : Along retires (canonical_source g a ws h).
Proof. unfold canonical_source. solve_retires. Qed.
End fence.

(** The event that moves consumers from [previous] to a projection. *)
Definition head_event (previous : B256) (pj : Projection) (bitmap : bytes) : wire.Event :=
  wire.EvCanonicalHead
    {| wire.ch_previous_block_hash := to_vec previous; wire.ch_block := Some (block_ref (pj_block pj));
       wire.ch_values := pj_values pj; wire.ch_changed_bitmap := bitmap |}.
(** The event that tells them the view: the head, and the checkpoints that are not above it. *)
Definition fence_event (applied : AppliedForkchoiceMeta) (number : N) : wire.Event :=
  let at_most (checkpoint : option CheckpointMeta) :=
    match checkpoint with
    | Some c => if decide (cp_number c ≤ number)
                then Some {| wire.cr_number := cp_number c; wire.cr_hash := to_vec (cp_hash c) |} else None
    | None => None
    end in
  wire.EvForkchoiceApplied {| wire.fa_view := Some
    {| wire.fv_head := Some {| wire.cr_number := number; wire.cr_hash := to_vec (af_head_hash applied) |};
       wire.fv_safe := at_most (af_safe applied); wire.fv_finalized := at_most (af_finalized applied) |} |}.

Lemma fence_event_resolve applied number :
  wire.EvForkchoiceApplied {| wire.fa_view := Some (forkchoice_view (resolve applied number)) |} = fence_event applied number.
Proof.
  assert (Hknown : ∀ c : option CheckpointMeta,
    checkpoint_ref <$> (c ≫= λ c, if cp_number c <=? number then Some c else None) = match c with
    | Some c => if decide (cp_number c ≤ number)
                then Some {| wire.cr_number := cp_number c; wire.cr_hash := to_vec (cp_hash c) |} else None
    | None => None end).
  { intros [c|]; [simpl|done]. destruct (N.leb_spec (cp_number c) number); case_decide; (done || lia). }
  unfold fence_event, forkchoice_view, resolve. cbn [fc_head fc_safe fc_finalized]. by rewrite !Hknown.
Qed.

(** The frames of a head that has moved: what the cache evicted for it, then the head. *)
Definition moved (p p' : Publisher) (events : list (option wire.Event)) : Prop :=
  ∃ evicted bitmap, canonical_changed_bitmap (canonical_projection p) (canonical_projection p') = Ok bitmap ∧
    Forall is_retirement evicted ∧
    events = evicted ++ [Some (head_event (canonical_hash (pb_cache p)) (canonical_projection p') bitmap)].

Section fence_sends.
Context `{Env}.

Lemma wp_along {A} (R : relation Publisher) (m : P A) p : Along R m → wp m (λ _ p', R p p') p.
Proof. intros Hm. exact (Hm p). Qed.

Lemma canonical_source_same g a ws h p :
  wp (canonical_source g a ws h) (λ _ p', pb_cache p' = pb_cache p ∧ pb_shared p' = pb_shared p) p.
Proof.
  unfold canonical_source. wp_step. repeat case_match; try (by apply wp_ret).
  all: apply wp_bind; unfold wp at 1; simpl; unfold returning; by case_match.
Qed.

Lemma canonical_sends g t number h p :
  wp (canonical g t number h) (λ o p', match o with
    | Ok true => ∃ events, sent p p' events ∧ moved p p' events
    | Ok false => p' = p ∧ (t ≤ snapshot_anchored_at p ∨ h = bm_hash (pj_block (canonical_projection p)))
    | _ => True end) p.
Proof.
  unfold canonical. wp_step. destruct (_ <? _); [done|]. wp_step.
  destruct (N.leb_spec t (snapshot_anchored_at p)); [by apply wp_ret; auto|]. wp_step.
  destruct (N.eqb_spec h (bm_hash (pj_block (canonical_projection p)))); [by apply wp_ret; auto|].
  apply wp_bind. eapply wp_mono; [apply canonical_source_same|]. intros [pj|e|] p1 [Ec1 Es1]; [|done|done]. cbv beta.
  wp_step. destruct (validate_projection_dictionary _ _); [|done|done]. destruct (_ || _); [done|].
  wp_step. destruct (validate_projection_shape pj); [|done|done].
  wp_step. destruct (canonical_changed_bitmap _ _) as [bitmap| |] eqn:Eb; [|done|done]. wp_step.
  apply wp_bind. eapply wp_mono; [apply wp_along, retires_insert_candidate|].
  intros [[]|e|] p2 (Ep2 & evicted & Hs2 & Hev); [|done|done].
  apply wp_bind. eapply wp_mono; [apply publish_inner_sends|]. intros [seq|e|] p3 (_ & Hp3); [|done|done].
  destruct Hp3 as [Hs3 Ep3]. cbv beta. apply wp_bind. unfold wp at 1, now. simpl. wp_steps.
  assert (Hpj : canonical_projection p3 = pj) by (unfold canonical_projection; by rewrite Ep3).
  assert (Hs : sent p p3 (evicted ++ [Some (head_event (canonical_hash (pb_cache p1)) pj bitmap)])).
  { eapply sent_app; [|exact Hs3]. destruct Hs2 as (new & E & <-). exists new. by rewrite E, Es1. }
  match goal with |- context [sent p ?q] => assert (Hpj4 : canonical_projection q = pj) by exact Hpj end.
  eexists. split; [exact Hs|]. exists evicted, bitmap. rewrite <- Ec1, Hpj4. by split_and!.
Qed.

(** The frames of a fence: the head if it moved, then the view, then what finality retired. *)
Definition fence_frames (applied : AppliedForkchoiceMeta) (p p' : Publisher) (events : list (option wire.Event)) : Prop :=
  ∃ head retired, Forall is_retirement retired ∧
    events = head ++ Some (fence_event applied (bm_number (pj_block (canonical_projection p')))) :: retired ∧
    (if canonical_hash (pb_cache p) =? af_head_hash applied then head = [] else moved p p' head).

Lemma forkchoice_sends g t applied p :
  aligned p →
  wp (forkchoice_applied g t applied) (λ o p',
    o = Ok true → ∃ events, sent p p' events ∧ fence_frames applied p p' events) p.
Proof.
  intros Hal. unfold forkchoice_applied. wp_step. destruct (_ <? _); [done|]. wp_step.
  destruct (N.leb_spec t (snapshot_anchored_at p)); [done|]. wp_step. apply wp_bind.
  eapply (wp_mono _ (λ o p1, match o with
    | Ok _ => ∃ head, sent p p1 head ∧ if canonical_hash (pb_cache p) =? af_head_hash applied then head = [] else moved p p1 head
    | _ => True end)).
  { destruct (N.eqb_spec (canonical_hash (pb_cache p)) (af_head_hash applied)) as [E|E]; simpl.
    { apply wp_ret. exists []. split; [by apply sent_none|done]. }
    apply wp_bind. eapply wp_mono; [apply canonical_sends|]. intros [[]|e|] p1 Hp1; [by apply wp_ret| |done|done].
    destruct Hp1 as [_ [?|?]]; [lia|]. unfold aligned in Hal. congruence. }
  intros [[]|e|] p1 Hp1; [|done|done]. destruct Hp1 as (head & Hs1 & Hhead). cbv beta. wp_step.
  destruct (negb _); [done|]. cbv zeta. wp_step. destruct (validate_forkchoice_checkpoints _); [|done|done].
  apply wp_bind. eapply wp_mono; [apply publish_inner_sends|]. intros [seq|e|] p2 (Ec2 & Hp2); [|done|done].
  destruct Hp2 as [Hs2 Ep2]. cbv beta. wp_step.
  assert (Hpj : canonical_projection p2 = canonical_projection p1) by (unfold canonical_projection at 1; by rewrite Ep2).
  assert (Hend : ∀ p3, retires p2 p3 → ∃ events, sent p p3 events ∧ fence_frames applied p p3 events).
  { intros p3 (Ep3 & retired & Hs3 & Hr). assert (Hpj3 : canonical_projection p3 = canonical_projection p1).
    { rewrite <- Hpj. unfold canonical_projection. by rewrite Ep3. }
    eexists. split; [eapply sent_app; [exact Hs1|eapply sent_app; [exact Hs2|exact Hs3]]|].
    exists head, retired. rewrite Hpj3. split; [done|]. split; [by rewrite <- fence_event_resolve|].
    destruct (_ =? _); [done|]. unfold moved in *. by rewrite Hpj3. }
  destruct (fc_finalized _) as [finalized|]; [|apply wp_ret; intros _; by apply Hend].
  destruct (decide _); [|apply wp_ret; intros _; by apply Hend]. wp_step. wp_step. apply wp_bind.
  eapply wp_mono; [apply wp_along, retires_finality|]. intros [work|e|] p3 Hr; [|done|done]. apply wp_ret. intros _. apply Hend.
  etrans; [|exact Hr]. by apply retires_none.
Qed.
End fence_sends.

(** C22: A forkchoice is an ordering fence.  On a running service, [forkchoice_applied] returns; when
    it reports the forkchoice as applied, the frames broadcast are the canonical head, if it moved,
    with the values of the new head and the bitmap of what differs from the old one, after what the
    cache evicted for it; then one forkchoice frame that carries exactly the applied head, and its safe and
    finalized checkpoints where they are not above the head; then only retirements; and the handshake state new consumers are served is
    at that head with that view.  One observed no later than the current anchor changes
    nothing; one of a generation not yet active is refused before anything is published. *)
Theorem forkchoice_fences `{Env} `{!ProstLaws} cfg boot chain genesis started ws p0 fuel passes p g t applied o p' :
  watch_set_wf ws → start_service cfg boot chain genesis started ws = Ok p0 →
  Forall (pass_ok (service_params p0)) passes → run_publisher fuel passes p0 = (Ok true, p) →
  forkchoice_applied g t applied p = (o, p') → within p → within p' →
  match o with
  | Ok true => g ≤ active_generation p ∧ snapshot_anchored_at p < t ∧ fenced applied p' ∧
      ∃ events, sent p p' events ∧ fence_frames applied p p' events
  | Ok false => g ≤ active_generation p ∧ t ≤ snapshot_anchored_at p ∧ p' = p
  | Err e => active_generation p < g → e = GenerationAhead g (active_generation p) ∧ p' = p
  | Diverge => False
  end.
Proof.
  intros Hws Hstart Hpasses Hrun Hf Hw Hw'.
  destruct (run_publisher_reaches _ _ _ _ _ _ _ _ _ _ _ Hws Hstart Hpasses Hrun Hw) as (_ & Hidle & _).
  destruct (start_service_idle _ _ _ _ _ _ _ Hws Hstart) as (_ & Hcaps & _).
  pose proof (forkchoice_applied_wp _ _ _ g t applied p Hcaps (Hidle eq_refl)) as Hwp.
  assert (Hal : aligned p) by by destruct (Hidle eq_refl) as (_ & _ & ?).
  pose proof (forkchoice_sends g t applied p Hal) as Hsends.
  unfold wp in Hwp, Hsends. rewrite Hf in Hwp, Hsends. specialize (Hwp Hw'). revert Hf.
  unfold forkchoice_applied, mbind at 1, M_bind at 1, gets at 1.
  destruct (N.ltb_spec (active_generation p) g) as [Hlt|Hge]; [intros [= <- <-]; done|].
  unfold mbind at 1, M_bind at 1, gets at 1.
  destruct (N.leb_spec t (snapshot_anchored_at p)) as [Hle|Hgt]; [intros [= <- <-]; done|].
  intros _. destruct o as [[]|e|]; [|exfalso|lia|done].
  - split_and!; [done|done|by apply Hwp|by apply Hsends].
  - destruct Hwp as (_ & _ & _ & Hle). lia.
Qed.

Lemma forkchoice_fences_witness :
  let applied := {| af_head_hash := 60; af_safe := None; af_finalized := None |} in
  ∃ p', @forkchoice_applied sample_env 1 30 applied sample_publisher = (Ok true, p') ∧ fenced applied p'.
Proof.
  intros applied. eexists. split; [vm_compute; reflexivity|].
  refine (proj1 (proj2 (proj2 (@forkchoice_fences sample_env sample_laws sample_stream sample_boot 1 0 0 sample_watch_set
    sample_publisher 0 [] sample_publisher 1 30 applied (Ok true) _ sample_watch_wf sample_started
    (Forall_nil_2 _) eq_refl _ _ _)))); vm_compute; try reflexivity; discriminate.
Defined.

(** C23: A reload is a transaction. On a running service [activate] returns; when it succeeds the new
    watch set is active everywhere and its snapshot published, unless its generation is not newer,
    in which case nothing changed; when it fails, for whatever reason, nothing has changed but the
    count of interactions with the world: no frame was sent and the old dictionary stays active. *)
Theorem activation_atomic `{Env} `{!ProstLaws} cfg boot chain genesis started ws p0 fuel passes p ws' o p' :
  watch_set_wf ws → start_service cfg boot chain genesis started ws = Ok p0 →
  Forall (pass_ok (service_params p0)) passes → run_publisher fuel passes p0 = (Ok true, p) →
  watch_set_wf ws' → activate ws' p = (o, p') → within p → within p' →
  match o with
  | Ok _ => if ws_generation ws' <=? active_generation p then p' = p
            else pb_active p' = ws' ∧ active_generation p' = ws_generation ws' ∧
                 ws_keys (pj_watch_set (canonical_projection p')) = ws_keys ws'
  | Err _ => p' = p <| pb_tick ::= S |>
  | Diverge => False
  end.
Proof.
  intros Hws Hstart Hpasses Hrun Hws' Ha Hw Hw'.
  destruct (run_publisher_reaches _ _ _ _ _ _ _ _ _ _ _ Hws Hstart Hpasses Hrun Hw) as (_ & Hidle & _).
  pose proof (activate_wp _ _ _ ws' p (Hidle eq_refl) Hws') as Hwp.
  unfold wp in Hwp. rewrite Ha in Hwp. specialize (Hwp Hw'). by destruct o; [apply Hwp..|].
Qed.

Lemma activation_atomic_witness :
  ∃ p', @activate sample_env (compile 2 (take 2 sample_watch)) sample_publisher = (Ok (), p') ∧
    active_generation p' = 2 ∧ event_names p' = Some <$> ["config"; "snapshot"]%string.
Proof.
  eexists. split; [vm_compute; reflexivity|]. split; [|vm_compute; reflexivity].
  assert (Hwf : watch_set_wf (compile 2 (take 2 sample_watch))).
  { apply compile_wf; [vm_compute; discriminate|].
    repeat constructor; rewrite ?elem_of_cons, ?elem_of_nil; naive_solver. }
  refine (proj1 (proj2 (@activation_atomic sample_env sample_laws sample_stream sample_boot 1 0 0 sample_watch_set
    sample_publisher 0 [] sample_publisher (compile 2 (take 2 sample_watch)) (Ok ()) _ sample_watch_wf sample_started
    (Forall_nil_2 _) eq_refl Hwf _ _ _))); vm_compute; try reflexivity; discriminate.
Defined.
