(* ===== verification/Fidelity.v ===== *)
(** * What the stream says is true

    The chain is a function from block hashes to storage.  If the provider
    reports it, the engine's change sets are the differences it makes, and
    watch sets are known by their generation, then every snapshot, candidate
    and canonical head the publisher ever broadcasts carries exactly the values
    of the block it names, and every bitmap marks exactly the keys that differ
    from the block it is relative to: through caching, deferral, eviction,
    reorgs, gaps and reloads. *)

From S2P Require Import Prelude Bytes Config Watch Feed Wire Client Consumer Stream Projection Cache CacheInv Metrics Publisher Sample PublisherInv Service.
From stdpp Require Import list.
Local Open Scope N_scope.

(** ** The chain *)

Section chain.
(** The storage after a block, and the dictionary of a configuration generation. *)
Context (storage_at : B256 → Address → U256 → U256) (keys_of : N → list WatchKey).

Definition key_value (h : B256) (k : WatchKey) : U256 := storage_at h (wk_address k) (wk_slot k).

(** The packed values of [keys] after block [h]. *)
Definition true_values (keys : list WatchKey) (h : B256) : bytes := encode_values (key_value h <$> keys).

(** [bitmap] marks exactly the keys whose value differs between blocks [h] and [h']. *)
Definition marks (keys : list WatchKey) (h h' : B256) (bitmap : bytes) : Prop :=
  len bitmap = div_ceil (len keys) 8 ∧
  ∀ i k, keys !! i = Some k → test_bit bitmap (N.of_nat i) = true ↔ key_value h k ≠ key_value h' k.

(** [changes] takes the parent's values to the block's. *)
Definition changes_true (keys : list WatchKey) (block : BlockMeta) (changes : BlockChanges) : Prop :=
  Forall (λ c, sc_key_id c < len keys) changes ∧ NoDup (sc_key_id <$> changes) ∧
  ∀ i k, keys !! i = Some k →
    be_bytes 32 (key_value (bm_hash block) k) =
      delta_value changes i (be_bytes 32 (key_value (bm_parent_hash block) k)).

Definition values_true (keys : list WatchKey) (p : Projection) : Prop :=
  pj_values p = true_values keys (bm_hash (pj_block p)).

Record projection_true (p : Projection) : Prop := {
  pt_keys : ws_keys (pj_watch_set p) = keys_of (ws_generation (pj_watch_set p));
  pt_values : values_true (ws_keys (pj_watch_set p)) p;
  pt_bitmap : pj_changed_bitmap p = [] ∨
    marks (ws_keys (pj_watch_set p)) (bm_parent_hash (pj_block p)) (bm_hash (pj_block p)) (pj_changed_bitmap p);
}.

(** What an event of generation [g] claims about the chain. *)
Definition event_true (g : N) (event : wire.Event) : Prop :=
  match event with
  | wire.EvConfigActivated config => ∃ ws, ws_keys ws = keys_of g ∧ config = config_activated ws
  | wire.EvSnapshot s =>
      ∃ b, wire.sn_block s = Some (block_ref b) ∧ wire.sn_values s = true_values (keys_of g) (bm_hash b)
  | wire.EvBlockState s =>
      ∃ b, wire.bs_block s = Some (block_ref b) ∧ wire.bs_values s = true_values (keys_of g) (bm_hash b) ∧
        marks (keys_of g) (bm_parent_hash b) (bm_hash b) (wire.bs_changed_bitmap s)
  | wire.EvCanonicalHead c =>
      ∃ b previous, wire.ch_block c = Some (block_ref b) ∧ wire.ch_previous_block_hash c = to_vec previous ∧
        wire.ch_values c = true_values (keys_of g) (bm_hash b) ∧
        marks (keys_of g) previous (bm_hash b) (wire.ch_changed_bitmap c)
  | _ => True
  end.

Definition envelope_true (e : wire.Envelope) : Prop :=
  ∀ event, wire.event e = Some event → event_true (wire.config_generation e) event.

(** Storage words are 256 bits and a dictionary has at most [u32::MAX] keys. *)
Definition chain_bounded : Prop :=
  (∀ h a s, storage_at h a s < 2 ^ 256) ∧ ∀ g, len (keys_of g) ≤ u32_max.

Lemma length_true_values keys h : length (true_values keys h) = (32 * length keys)%nat.
Proof. unfold true_values. by rewrite length_encode_values, length_fmap. Qed.

Lemma word_true_values keys h i k :
  keys !! i = Some k → word (true_values keys h) i = be_bytes 32 (key_value h k).
Proof. intros Hi. apply word_encode_values. by rewrite list_lookup_fmap, Hi. Qed.

Lemma key_value_inj (Hb : chain_bounded) h h' k :
  be_bytes 32 (key_value h k) = be_bytes 32 (key_value h' k) ↔ key_value h k = key_value h' k.
Proof. split; [|by intros ->]. apply be_bytes_inj; apply Hb. Qed.

(** A bitmap that marks the words two buffers differ in marks the keys two blocks differ in. *)
Lemma marks_words (Hb : chain_bounded) keys h h' bitmap :
  len bitmap = div_ceil (len keys) 8 →
  (∀ i, (i < length keys)%nat → test_bit bitmap (N.of_nat i) = true ↔
     word (true_values keys h) i ≠ word (true_values keys h') i) →
  marks keys h h' bitmap.
Proof.
  intros Hl Ht. split; [done|]. intros i k Hk. rewrite Ht by by eapply lookup_lt_Some.
  by rewrite !(word_true_values _ _ _ _ Hk), key_value_inj.
Qed.

Lemma marks_test (Hb : chain_bounded) keys h h' bitmap i :
  marks keys h h' bitmap → (i < length keys)%nat →
  test_bit bitmap (N.of_nat i) = true ↔ word (true_values keys h) i ≠ word (true_values keys h') i.
Proof.
  intros [_ Hm] [k Hk]%lookup_lt_is_Some. rewrite (Hm _ _ Hk), !(word_true_values _ _ _ _ Hk).
  by rewrite key_value_inj.
Qed.

(** The delta of a truthful change set on the parent's values. *)
Lemma apply_changes_true (Hb : chain_bounded) g ws block changes :
  ws_keys ws = keys_of g → changes_true (keys_of g) block changes →
  ∃ bitmap, apply_changes changes (true_values (keys_of g) (bm_parent_hash block)) (zero_bitmap ws) =
      Ok (true_values (keys_of g) (bm_hash block), bitmap) ∧
    marks (keys_of g) (bm_parent_hash block) (bm_hash block) bitmap.
Proof.
  intros Hws (Hf & Hnd & Hval). pose proof (proj2 Hb g) as Hlen. unfold len, u32_max in Hlen.
  assert (Hz : len (zero_bitmap ws) = div_ceil (len (keys_of g)) 8).
  { rewrite div_ceil_bitmap. unfold bitmap_len, ws_len. by rewrite Hws. }
  destruct (apply_changes_spec (length (keys_of g)) changes (true_values (keys_of g) (bm_parent_hash block))
    (zero_bitmap ws)) as (values & bitmap & Ha & Hlv & Hlb & Hw & Ht);
    [apply length_true_values|done|unfold u64_max; lia|done|done|].
  assert (values = true_values (keys_of g) (bm_hash block)) as ->.
  { apply (words_ext (length (keys_of g))); [by rewrite Hlv, length_true_values|apply length_true_values|].
    intros i [k Hk]%lookup_lt_is_Some. rewrite Hw by by eapply lookup_lt_Some.
    rewrite !(word_true_values _ _ _ _ Hk). by rewrite <- (Hval i k Hk). }
  exists bitmap. split; [done|]. apply marks_words; [done|unfold len in *; by rewrite Hlb|].
  intros i Hi. rewrite Ht by done. unfold zero_bitmap. rewrite test_bit_replicate_0, orb_false_l, bool_decide_eq_true.
  split; congruence.
Qed.

Lemma canonical_bitmap_true (Hb : chain_bounded) previous next bitmap :
  projection_true previous → projection_true next →
  validate_projection_dictionary next (pj_watch_set previous) = Ok () →
  validate_projection_shape next = Ok () →
  canonical_changed_bitmap previous next = Ok bitmap →
  marks (ws_keys (pj_watch_set next)) (bm_hash (pj_block previous)) (bm_hash (pj_block next)) bitmap.
Proof.
  intros [Kp Vp _] [Kn Vn Bn] [Hg Hk]%validate_projection_dictionary_Ok Hshape Hbm.
  unfold values_true in *. set (keys := ws_keys (pj_watch_set next)) in *.
  assert (Hpv : pj_values previous = true_values keys (bm_hash (pj_block previous))) by (by rewrite Vp, <- Hk).
  destruct (canonical_changed_bitmap_exact previous next) as (bm & E & Hl & Ht).
  - by apply dictionaries_match_iff.
  - unfold values_shape, ws_len, len. rewrite Vp, length_true_values. lia.
  - done.
  - intros Hp Hlen i Hi. destruct Bn as [Bn|Bn].
    + exfalso. rewrite Bn in Hlen. unfold bitmap_len, ws_len, len in Hlen. fold keys in Hi, Hlen.
      pose proof (bitmap_index_lt 0 (N.of_nat (length keys)) ltac:(lia)) as Hx. by rewrite <- Hlen in Hx.
    + rewrite Hp in Bn. rewrite Hpv, Vn. by apply marks_test.
  - rewrite E in Hbm. injection Hbm as <-. apply marks_words; [done|exact Hl|].
    intros i Hi. rewrite <- Hpv, <- Vn. by apply Ht.
Qed.
End chain.

(** ** Losing records is harmless *)

(** Every record of [c'] comes from [c]; a projection may have been dropped. *)
Definition lessens (c c' : Cache) : Prop :=
  (∀ h e', candidates c' !! h = Some e' → ∃ e, candidates c !! h = Some e ∧
     (ce_projection e' = ce_projection e ∨ ce_projection e' = None)) ∧
  (∀ h d, deferred_executed c' !! h = Some d → deferred_executed c !! h = Some d) ∧
  canonical_hash c' = canonical_hash c.

#[export] Instance lessens_preorder : PreOrder lessens.
Proof.
  split; [intros c; split_and!; eauto|]. intros c c1 c2 (H1 & H2 & E1) (H3 & H4 & E2). split_and!.
  - intros h e (e1 & He1 & Hp)%H3. destruct (H1 _ _ He1) as (e0 & He0 & Hp0). exists e0. split; [done|].
    destruct Hp as [->|]; auto.
  - auto.
  - congruence.
Qed.

Definition Lessens {A} (m : M Cache Error A) : Prop := ∀ c, lessens c (m c).2.

(** Same records in both. *)
Lemma lessens_same c c' :
  candidates c' = candidates c → deferred_executed c' = deferred_executed c → canonical_hash c' = canonical_hash c →
  lessens c c'.
Proof. intros E1 E2 E3. unfold lessens. rewrite E1, E2. split_and!; eauto. Qed.

Create HintDb lessens discriminated.
#[export] Hint Constants Opaque : lessens.

Lemma lessens_ret {A} (a : A) : Lessens (mret a).
Proof. intros c. reflexivity. Qed.
Lemma lessens_throw {A} e : Lessens (throw (A := A) e).
Proof. intros c. reflexivity. Qed.
Lemma lessens_diverge {A} : Lessens (diverge (A := A)).
Proof. intros c. reflexivity. Qed.
Lemma lessens_gets {A} (f : Cache → A) : Lessens (gets f).
Proof. intros c. reflexivity. Qed.
Lemma lessens_bind {A B} (m : M Cache Error A) (k : A → M Cache Error B) :
  Lessens m → (∀ a, Lessens (k a)) → Lessens (m ≫= k).
Proof.
  intros Hm Hk c. specialize (Hm c). unfold mbind, M_bind. destruct (m c) as [[a|e|] c']; [|done..].
  etrans; [exact Hm|apply Hk].
Qed.
Lemma lessens_modify (f : Cache → Cache) : (∀ c, lessens c (f c)) → Lessens (modify f).
Proof. done. Qed.
#[export] Hint Resolve lessens_ret lessens_throw lessens_diverge lessens_gets : lessens.

(** Takes a method body apart; what is left are its assignments and the calls it makes. *)
Ltac lessens_steps :=
  repeat first [ progress auto with lessens nocore
    | lazymatch goal with
      | |- ∀ _, _ => intro
      | |- Lessens (mbind _ _) => apply lessens_bind
      | |- Lessens (modify _) => apply lessens_modify
      | |- Lessens (match ?x with _ => _ end) => destruct x
      | |- Lessens (let _ := _ in _) => cbv zeta
      end ].

Lemma lessens_delete h c c' :
  candidates c' = candidates c ∨ candidates c' = delete h (candidates c) →
  deferred_executed c' = deferred_executed c ∨ deferred_executed c' = delete h (deferred_executed c) →
  canonical_hash c' = canonical_hash c → lessens c c'.
Proof.
  intros E1 E2 E3. split_and!; [..|done].
  - intros h' e. destruct E1 as [->| ->]; [|rewrite lookup_delete_Some; intros [_ ?]]; eauto.
  - intros h' d. destruct E2 as [->| ->]; [|rewrite lookup_delete_Some; intros [_ ?]]; eauto.
Qed.

Lemma lessens_drop h : Lessens (λ c, let '(t, c) := drop_entry h c in (Ok t, c)).
Proof.
  intros c. unfold drop_entry. cbv zeta.
  repeat case_match; simplify_eq/=;
    repeat match goal with |- context [unlink_child ?p ?h ?c] =>
      let ch := fresh "ch" in destruct (unlink_child_spec p h c) as [ch ->] end;
    apply (lessens_delete h); simpl; auto.
Qed.

Lemma lessens_tombstone h : Lessens (insert_tombstone h).
Proof.
  intros c. unfold insert_tombstone. cbv zeta.
  destruct (decide (h ∈ tombstones c)); destruct (evict_tombstones _ _ _) as [[]|]; by apply lessens_same.
Qed.

Lemma lessens_compact c : lessens c (compact_order_queues_if_needed c).
Proof.
  unfold compact_order_queues_if_needed, compact_projections, compact_metadata.
  repeat case_match; by apply lessens_same.
Qed.
#[export] Hint Resolve lessens_drop lessens_tombstone lessens_compact : lessens.

Lemma lessens_remove_one h t : Lessens (remove_one h t).
Proof. unfold remove_one. lessens_steps. Qed.
#[export] Hint Resolve lessens_remove_one : lessens.

Lemma lessens_remove_loop fuel t pending : Lessens (remove_tree_loop fuel t pending).
Proof.
  revert pending; induction fuel as [|fuel IH]; intros pending; cbn [remove_tree_loop]; lessens_steps.
  by apply lessens_same.
Qed.
#[export] Hint Resolve lessens_remove_loop : lessens.

Lemma lessens_remove_tree root t : Lessens (remove_candidate_tree root t).
Proof. unfold remove_candidate_tree. lessens_steps. Qed.

Lemma lessens_evict c h e c' :
  candidates c !! h = Some e →
  candidates c' = <[h := e <| ce_projection := None |> <| ce_tracked := false |>]> (candidates c) →
  deferred_executed c' = deferred_executed c → canonical_hash c' = canonical_hash c → lessens c c'.
Proof.
  intros He Ec Ed Eh. split_and!; [|by rewrite Ed|done]. intros h' e'. rewrite Ec.
  destruct (decide (h' = h)) as [->|]; simplify_map_eq; [intros [= <-]|]; eauto.
Qed.

Lemma lessens_trim_metadata fuel retired : Lessens (trim_metadata_loop fuel retired).
Proof.
  revert retired; induction fuel as [|fuel IH]; intros retired; cbn [trim_metadata_loop]; lessens_steps;
    by apply lessens_same.
Qed.

Lemma lessens_trim_projection fuel inserted examined retired :
  Lessens (trim_projection_loop fuel inserted examined retired).
Proof.
  intros c0. assert (Hgen : ∀ c, lessens c0 c →
    wp (trim_projection_loop fuel inserted examined retired) (λ _ c', lessens c0 c') c); [|by apply Hgen].
  revert examined retired; induction fuel as [|fuel IH]; intros examined retired c Hc; cbn [trim_projection_loop];
    [done|]. wp_steps. unfold id. destruct (negb _); [done|].
  destruct (projection_order c) as [|[i h] rest] eqn:E; [done|]. wp_steps. cbv zeta.
  assert (Hpop : lessens c0 (c <| projection_order := rest |>)) by (etrans; [exact Hc|by apply lessens_same]).
  destruct (negb _); [by apply IH|].
  assert (Hnext : ∀ (l : list B256) c', lessens c0 c' → wp (remaining ← gets (λ c, len (projection_order c));
     if saturating_add remaining 1 <? examined + 1 then throw (CannotEvict inserted)
     else trim_projection_loop fuel inserted (examined + 1) l) (λ _ c', lessens c0 c') c').
  { intros l c' Hc'. wp_steps. destruct (_ <? _); [done|by apply IH]. }
  destruct (h =? canonical_hash c).
  - wp_steps. apply Hnext. etrans; [exact Hpop|by apply lessens_same].
  - destruct (candidates c !! h) as [e|] eqn:He.
    + wp_steps. apply Hnext. etrans; [exact Hpop|]. by eapply (lessens_evict _ h e).
    + wp_steps. by apply Hnext.
Qed.

Lemma lessens_finality fuel sweep work retired : Lessens (finality_loop fuel sweep work retired).
Proof.
  revert sweep work retired; induction fuel as [|fuel IH]; intros sweep work retired; cbn [finality_loop];
    unfold walk_step; lessens_steps.
Qed.
#[export] Hint Resolve lessens_remove_tree lessens_trim_metadata lessens_trim_projection lessens_finality : lessens.

Lemma lessens_finality_pass budget : Lessens (finality_pass budget).
Proof. unfold finality_pass. lessens_steps; by apply lessens_same. Qed.

Lemma lessens_remove_due due : Lessens (remove_due due).
Proof. induction due as [|h due IH]; cbn [remove_due]; lessens_steps. Qed.

(** ** Postconditions for every outcome *)

(** [T] whatever the outcome, and [Q] of the value. *)
Definition always {A} (T : Publisher → Prop) (Q : A → Publisher → Prop) (o : outcome Error A) (p : Publisher) : Prop :=
  T p ∧ match o with Ok a => Q a p | _ => True end.

Lemma al_call {A B} (m : M Publisher Error A) (k : A → M Publisher Error B) (T : Publisher → Prop) P Q p :
  wp m (always T P) p → (∀ a p', T p' → P a p' → wp (k a) (always T Q) p') → wp (m ≫= k) (always T Q) p.
Proof.
  intros Hm Hk. apply wp_bind. eapply wp_mono; [exact Hm|]. intros [a|e|] p' [HT HP]; [by apply Hk|done..].
Qed.

Lemma al_mono {A} (m : M Publisher Error A) (T T' : Publisher → Prop) (P Q : A → Publisher → Prop) p :
  wp m (always T P) p → (∀ p', T p' → T' p') → (∀ a p', T p' → P a p' → Q a p') → wp m (always T' Q) p.
Proof.
  intros Hm HT HQ. eapply wp_mono; [exact Hm|]. intros [a|e|] p' [? ?]; split; auto.
Qed.

Lemma al_ret {A} (a : A) (T : Publisher → Prop) (Q : A → Publisher → Prop) p :
  T p → Q a p → wp (mret a) (always T Q) p.
Proof. done. Qed.

Lemma al_throw {A} e (T : Publisher → Prop) (Q : A → Publisher → Prop) p : T p → wp (throw e) (always T Q) p.
Proof. done. Qed.

Lemma al_lift {A B} (o : outcome Error A) (k : A → M Publisher Error B) (T : Publisher → Prop) Q p :
  T p → (∀ a, o = Ok a → wp (k a) (always T Q) p) → wp (lift o ≫= k) (always T Q) p.
Proof. intros HT Hk. apply wp_bind, wp_lift. destruct o; [by apply Hk|done..]. Qed.

Lemma al_catch {A} (m : M Publisher Error A) h (T : Publisher → Prop) P Q p :
  wp m (always T P) p → (∀ a p', T p' → P a p' → Q a p') → (∀ e p', T p' → wp (h e) (always T Q) p') →
  wp (catch m h) (always T Q) p.
Proof.
  unfold wp, catch. intros Hm HQ Hh. destruct (m p) as [[a|e|] p'] eqn:E; destruct Hm as [HT HP]; simpl in *.
  - split; auto.
  - by apply Hh.
  - done.
Qed.

Lemma al_on_cache {A} (m : M Cache Error A) (T : Publisher → Prop) p :
  Lessens m → (∀ c, lessens (pb_cache p) c → T (p <| pb_cache := c |>)) →
  wp (on_cache m) (always T (λ _ _, True)) p.
Proof.
  intros Hm HT. specialize (Hm (pb_cache p)). unfold wp, on_cache.
  destruct (m (pb_cache p)) as [o c]. split; [by apply HT|by destruct o].
Qed.

(** ** Honest publishers *)

Section honest.
Context `{Env} (storage_at : B256 → Address → U256 → U256) (keys_of : N → list WatchKey).
Context (Hbounded : chain_bounded storage_at keys_of).
Notation projection_true := (projection_true storage_at keys_of).
Notation event_true := (event_true storage_at keys_of).
Notation changes_true := (changes_true storage_at).

(** The provider reports the chain; its projections carry no change bitmap. *)
Record provider_true : Prop := {
  pv_latest : ∀ t ws s, load_latest t ws = inl s →
    values_true storage_at (ws_keys (pj_watch_set (cs_projection s))) (cs_projection s) ∧
    pj_changed_bitmap (cs_projection s) = [];
  pv_at : ∀ t ws h p, load_at t ws h = inl p →
    values_true storage_at (ws_keys (pj_watch_set p)) p ∧ pj_changed_bitmap p = [];
}.

(** The engine's change sets are the differences blocks make, and a reload's dictionary is that of
    its generation. *)
Definition input_true (e : PublisherEvent) : Prop :=
  match e with
  | Data (Executed _ g block changes) | Data (ValidatedFallback _ g block changes) =>
      changes_true (keys_of g) block changes
  | Control (ActivateConfig ws) => ws_keys ws = keys_of (ws_generation ws)
  | _ => True
  end.

Definition cache_true (g : N) (c : Cache) : Prop :=
  (∀ h e pj, candidates c !! h = Some e → ce_projection e = Some pj →
     bm_hash (pj_block pj) = h ∧ projection_true pj) ∧
  (∀ h d, deferred_executed c !! h = Some d → changes_true (keys_of g) (de_block d) (de_changes d)).

(** A frame is the encoding of a true envelope, and so is the handshake state stored with it. *)
Definition frame_true (limit : N) (f : PublishedFrame) : Prop :=
  encode_frame (pf_envelope f) limit = Ok (pf_bytes f) ∧ envelope_true storage_at keys_of (pf_envelope f) ∧
  projection_true (ps_canonical (pf_state f)).

Record honest (p : Publisher) : Prop := {
  hn_frames : Forall (frame_true (sh_max_frame_bytes (pb_shared p))) (sh_frames (pb_shared p));
  hn_published : projection_true (canonical_projection p);
  hn_cache : cache_true (active_generation p) (pb_cache p);
}.

(** Honest, with the handshake state and the canonical head of [p0]. *)
Definition steady (p0 p : Publisher) : Prop :=
  honest p ∧ published p = published p0 ∧ canonical_hash (pb_cache p) = canonical_hash (pb_cache p0).

Lemma steady_refl p : honest p → steady p p.
Proof. done. Qed.

Lemma steady_trans p0 p1 p2 : steady p0 p1 → steady p1 p2 → steady p0 p2.
Proof. intros (_ & E1 & E2) (? & E3 & E4). split_and!; congruence. Qed.

Lemma cache_true_lessens g c c' : lessens c c' → cache_true g c → cache_true g c'.
Proof.
  intros (Hc & Hd & _) [H1 H2]. split.
  - intros h e pj He Hpj. destruct (Hc _ _ He) as (e0 & He0 & Hp).
    apply (H1 h e0 pj He0). destruct Hp as [<-|Hp]; congruence.
  - intros h d Hh. eapply H2, Hd, Hh.
Qed.

Lemma steady_lessens p0 p c : steady p0 p → lessens (pb_cache p) c → steady p0 (p <| pb_cache := c |>).
Proof.
  intros ([] & E1 & E2) Hl. split_and!; [split|exact E1|]; try done.
  - by eapply cache_true_lessens.
  - simpl. by rewrite (proj2 (proj2 Hl)).
Qed.

Lemma steady_tick p0 p : steady p0 p → steady p0 (p <| pb_tick ::= S |>).
Proof. intros ([] & ? & ?). by split_and!. Qed.

Lemma steady_measured f p0 p : steady p0 p → steady p0 (measured f p).
Proof. intros ([] & ? & ?). by split_and!. Qed.

Lemma al_measured {A} (m : M Publisher Error A) f p0 p :
  wp m (always (steady p0) (λ _ _, True)) p → wp (m ;; on_metrics f) (always (steady p0) (λ _ _, True)) p.
Proof.
  intros Hm. eapply al_call; [exact Hm|]. intros _ p1 Hs _. split; [by apply steady_measured|done].
Qed.

Lemma al_cache {A} (m : M Cache Error A) p0 p :
  Lessens m → steady p0 p → wp (on_cache m) (always (steady p0) (λ _ _, True)) p.
Proof. intros Hm Hs. apply al_on_cache; [done|]. intros c. by apply steady_lessens. Qed.

Lemma al_now {B} (k : N → M Publisher Error B) p0 (Q : B → Publisher → Prop) p :
  steady p0 p → (∀ t, steady p0 (p <| pb_tick ::= S |>) → wp (k t) (always (steady p0) Q) (p <| pb_tick ::= S |>)) →
  wp (now ≫= k) (always (steady p0) Q) p.
Proof. intros Hs Hk. apply wp_bind. unfold wp, now. simpl. by apply Hk, steady_tick. Qed.

Lemma publish_true g event p0 p :
  event_true g event → steady p0 p → wp (publish g event) (always (steady p0) (λ _ _, True)) p.
Proof.
  intros Hev ([Hf Hp Hc] & E1 & E2). unfold publish, wp. rewrite publish_inner_eq.
  destruct (encode_frame _ _) as [frame|e|] eqn:E; simpl; (split; [|done]); split_and!; try done; split; try done.
  simpl. apply Forall_app. split; [done|]. apply Forall_singleton. split; [exact E|].
  split; [by intros ev [= <-]|done].
Qed.

Lemma publish_batches_true g reason batches p0 p :
  steady p0 p → wp (publish_batches g reason batches) (always (steady p0) (λ _ _, True)) p.
Proof.
  revert p; induction batches as [|b batches IH]; intros p Hs; cbn [publish_batches]; [by apply al_ret|].
  eapply al_call; [by apply publish_true|]. intros _ p1 Hs1 _. by apply IH.
Qed.

Lemma publish_retired_true g hashes reason p0 p :
  steady p0 p → wp (publish_retired g hashes reason) (always (steady p0) (λ _ _, True)) p.
Proof.
  intros Hs. unfold publish_retired. case_decide; [by apply al_ret|]. wp_steps. by apply publish_batches_true.
Qed.

Lemma trim_projection_cache_true g inserted p0 p :
  steady p0 p → wp (trim_projection_cache g inserted) (always (steady p0) (λ _ _, True)) p.
Proof.
  intros Hs. unfold trim_projection_cache. wp_steps.
  eapply al_call; [by apply al_cache; [apply lessens_trim_projection|]|]. intros r p1 Hs1 _. by apply publish_retired_true.
Qed.

Lemma trim_metadata_true g p0 p :
  steady p0 p → wp (trim_metadata g) (always (steady p0) (λ _ _, True)) p.
Proof.
  intros Hs. unfold trim_metadata. wp_steps.
  eapply al_call; [by apply al_cache; [apply lessens_trim_metadata|]|]. intros r p1 Hs1 _. by apply publish_retired_true.
Qed.

(** What an insertion does to the records, whatever the cache. *)
Lemma insert_candidate_records t retention pj stage tracked first c :
  let c' := insert_candidate_entry t retention pj stage tracked first c in
  let h := bm_hash (pj_block pj) in
  (∃ e, candidates c' = <[h := e]> (candidates c) ∧ ce_projection e = Some pj) ∧
  deferred_executed c' = delete h (deferred_executed c) ∧ canonical_hash c' = canonical_hash c.
Proof.
  cbv zeta. unfold insert_candidate_entry, allocate_incarnation. cbv zeta.
  repeat case_match; simplify_eq/=;
    repeat match goal with
    | |- context [queue_finality_check ?i ?h ?c] =>
        let s := fresh in destruct (queue_finality_check_spec i h c) as [s ->]
    end; simpl; eauto 6.
Qed.

Lemma insert_candidate_true pj stage tracked first p0 p :
  projection_true pj → steady p0 p →
  wp (insert_candidate pj stage tracked first) (always (steady p0) (λ _ _, True)) p.
Proof.
  intros Hpj Hs. unfold insert_candidate. cbv zeta. apply al_now; [done|]. intros t Hs1. wp_steps.
  match goal with |- wp _ _ ?p' => assert (Hs2 : steady p0 p') end.
  { destruct Hs as ([Hf Hp [Hc Hd]] & E1 & E2).
    destruct (insert_candidate_records t (retention (pb_policy p)) pj stage tracked first (pb_cache p))
      as ((e & Ec & Ee) & Ed & Eh).
    split_and!; [|done|simpl; by rewrite Eh]. split; [done..|]. simpl. split.
    - intros h e' pj'. simpl. rewrite Ec. destruct (decide (h = bm_hash (pj_block pj))) as [->|]; simplify_map_eq.
      + intros [= <-] ?. by simplify_eq.
      + apply Hc.
    - intros h d. simpl. rewrite Ed, lookup_delete_Some. intros [_ Hh]. by eapply Hd. }
  eapply al_call; [by apply trim_projection_cache_true|]. intros _ p1 Hs3 _.
  by apply al_measured, trim_metadata_true.
Qed.

Lemma insert_deferred_records t retention block changes c :
  let c' := insert_deferred_entry t retention block changes c in
  candidates c' = candidates c ∧ canonical_hash c' = canonical_hash c ∧
  ∃ d, deferred_executed c' = <[bm_hash block := d]> (deferred_executed c) ∧ de_block d = block ∧ de_changes d = changes.
Proof.
  cbv zeta. unfold insert_deferred_entry, allocate_incarnation. cbv zeta.
  repeat case_match; simplify_eq/=;
    repeat match goal with
    | |- context [queue_finality_check ?i ?h ?c] =>
        let s := fresh in destruct (queue_finality_check_spec i h c) as [s ->]
    end; simpl; eauto 8.
Qed.

Lemma insert_deferred_true block changes p0 p :
  changes_true (keys_of (active_generation p0)) block changes → steady p0 p →
  wp (insert_deferred_executed block changes) (always (steady p0) (λ _ _, True)) p.
Proof.
  intros Hch Hs. unfold insert_deferred_executed. wp_steps. case_decide; [by apply al_ret|].
  case_decide; [by apply al_ret|]. apply al_now; [done|]. intros t Hs1. wp_steps.
  apply al_measured, trim_metadata_true. destruct Hs as ([Hf Hp [Hc Hd]] & E1 & E2).
  destruct (insert_deferred_records t (retention (pb_policy p)) block changes (pb_cache p))
    as (Ec & Eh & d & Ed & Eb & Ech).
  assert (Eg : active_generation p = active_generation p0).
  { unfold active_generation, canonical_projection. by rewrite E1. }
  split_and!; [|done|simpl; by rewrite Eh]. split; [done..|]. simpl. split.
  - intros h e' pj'. simpl. rewrite Ec. apply Hc.
  - intros h d'. simpl. rewrite Ed. destruct (decide (h = bm_hash block)) as [->|]; simplify_map_eq.
    + intros [= <-]. change (active_generation _) with (active_generation p). by rewrite Eg.
    + apply Hd.
Qed.

Lemma process_finality_true g budget p0 p :
  steady p0 p → wp (process_finality_budget g budget) (always (steady p0) (λ _ _, True)) p.
Proof.
  intros Hs. unfold process_finality_budget. wp_step.
  eapply al_call; [by apply al_cache; [apply lessens_finality_pass|]|]. intros [work r] p1 Hs1 _.
  eapply al_call; [by apply publish_retired_true|]. intros _ p2 Hs2 _.
  destruct (finality_sweep _); (apply al_call with (P := λ _ _, True); [|by intros; apply al_ret]);
    [split; [by apply steady_measured|done]|by apply al_ret].
Qed.

Lemma maintain_true p0 p : steady p0 p → wp maintain (always (steady p0) (λ _ _, True)) p.
Proof.
  intros Hs. unfold maintain. apply al_now; [done|]. intros t Hs1. wp_steps.
  eapply al_call; [by apply process_finality_true|]. intros work p1 Hs2 _. wp_steps.
  eapply al_call; [by apply al_cache; [apply lessens_remove_due|]|]. intros r p2 Hs3 _.
  by apply al_measured, publish_retired_true.
Qed.

(** ** Candidates *)

Lemma steady_generation p0 p : steady p0 p → active_generation p = active_generation p0.
Proof. intros (_ & E & _). unfold active_generation, canonical_projection. by rewrite E. Qed.

Lemma promote_entry_true h e p0 p :
  candidates (pb_cache p) !! h = Some e → steady p0 p →
  steady p0 (p <| pb_cache ::= λ c, c <| candidates ::= insert h (e <| ce_stage := CandidateValidated |>) |> |>).
Proof.
  intros He ([Hf Hp [Hc Hd]] & E1 & E2). split_and!; [|done..]. split; [done..|]. split; [|exact Hd].
  intros h' e' pj. simpl. destruct (decide (h' = h)) as [->|]; simplify_map_eq; [|apply Hc].
  intros [= <-] Hpj. by eapply Hc.
Qed.

Lemma promote_with_true f g h p0 p :
  steady p0 p →
  (∀ d, g = active_generation p0 → candidates (pb_cache p) !! h = None →
    deferred_executed (pb_cache p) !! h = Some d →
    wp (f g (de_block d) (de_changes d) CandidateValidated) (always (steady p0) (λ _ _, True)) p) →
  wp (promote_validated_with f g h) (always (steady p0) (λ _ _, True)) p.
Proof.
  intros Hs Hf. pose proof (steady_generation _ _ Hs) as Eg. unfold promote_validated_with. wp_steps.
  destruct (N.ltb_spec g (active_generation p)); [by apply al_ret|].
  destruct (N.ltb_spec (active_generation p) g); [by apply al_throw|]. wp_steps.
  destruct (candidates (pb_cache p) !! h) as [e|] eqn:He; cbv zeta.
  - case_decide; [by apply al_ret|]. destruct (ce_projection e) as [pj|].
    + destruct (negb _); [by apply al_ret|].
      apply wp_bind. pose proof (publish_true g (wire.EvBlockValidated {| wire.bv_block_hash := to_vec h |}) p0 p I Hs) as Hp.
      unfold wp, publish in Hp |- *. rewrite publish_inner_eq in Hp |- *.
      destruct (encode_frame _ _) as [frame|er|]; simpl in Hp |- *; [|exact Hp..]. destruct Hp as [Hp _].
      split; [|done]. by apply (promote_entry_true h e) in Hp.
    + wp_steps. split; [|done]. by apply promote_entry_true.
  - destruct (deferred_executed (pb_cache p) !! h) as [d|] eqn:Ed; [|by apply al_ret]. apply Hf; [lia|done|done].
Qed.

Lemma projection_keys p : honest p → ws_keys (pj_watch_set (canonical_projection p)) = keys_of (active_generation p).
Proof. intros [_ Hp _]. by eapply pt_keys. Qed.

(** The values a candidate is projected from are its parent's. *)
Lemma parent_values_true ws g block changes stage p0 p :
  provider_true → steady p0 p → g = active_generation p0 → ws = pj_watch_set (canonical_projection p0) →
  honest p0 → changes_true (keys_of g) block changes →
  wp (parent_values ws g block changes stage) (always (steady p0) (λ r _,
    ∀ values, r = Some values → values = true_values storage_at (keys_of g) (bm_parent_hash block))) p.
Proof.
  intros Hprov Hs Hg Hws Hp0 Hch. pose proof (projection_keys _ Hp0) as Hk. rewrite <- Hws in Hk.
  unfold parent_values. wp_steps.
  destruct (candidates (pb_cache p) !! bm_parent_hash block ≫= ce_projection) as [parent|] eqn:Epar.
  - apply bind_Some in Epar as (e & He & Hpj). destruct Hs as (Hh & E1 & E2).
    destruct (hn_cache _ Hh) as [Hc _]. destruct (Hc _ _ _ He Hpj) as [Hhash [K V _]].
    apply al_lift; [done|]. intros n _. destruct (negb _); [by apply al_throw|].
    destruct (N.eqb_spec (ws_generation (pj_watch_set parent)) g) as [Eg|]; cbn [negb orb]; [|by apply al_throw].
    destruct (negb _); [by apply al_throw|]. apply al_ret; [done|]. intros values [= <-].
    unfold values_true in V. by rewrite V, K, Eg, Hhash.
  - apply wp_on_metrics. apply (steady_measured (λ _ m, m <| candidate_parent_cache_misses ::= N.add 1 |>)) in Hs.
    case_decide.
    + eapply al_call; [apply insert_deferred_true; [by rewrite <- Hg|done]|]. intros _ p1 Hs1 _. by apply al_ret.
    + apply wp_bind. unfold wp at 1, call_load_at. simpl. pose proof (steady_tick _ _ Hs) as Hs1.
      destruct (load_at (pb_tick p) ws (bm_parent_hash block)) as [pj|er] eqn:El; [|by apply al_ret].
      apply al_lift; [done|]. intros [] [Hgen Hkeys]%validate_projection_dictionary_Ok.
      apply al_lift; [done|]. intros n _.
      destruct (N.eqb_spec (bm_hash (pj_block pj)) (bm_parent_hash block)) as [Eh|]; cbn [negb orb]; [|by apply al_throw].
      destruct (negb _); [by apply al_throw|]. apply al_lift; [done|]. intros [] _. apply al_ret; [done|].
      intros values [= <-]. destruct (pv_at Hprov _ _ _ _ El) as [V _]. unfold values_true in V.
      by rewrite V, Hkeys, Hk, Eh, Hg.
Qed.

Lemma publish_candidate_true ws g block changes stage p0 p :
  steady p0 p → g = active_generation p0 → ws = pj_watch_set (canonical_projection p0) → honest p0 →
  changes_true (keys_of g) block changes →
  wp (publish_candidate ws g block changes stage (true_values storage_at (keys_of g) (bm_parent_hash block)))
    (always (steady p0) (λ _ _, True)) p.
Proof.
  intros Hs Hg Hws Hp0 Hch. pose proof (projection_keys _ Hp0) as Hk. rewrite <- Hws, <- Hg in Hk.
  destruct (apply_changes_true storage_at keys_of Hbounded g ws block changes Hk Hch) as (bitmap & Ha & Hm).
  assert (Hgen : ws_generation ws = g) by (by rewrite Hws, Hg).
  unfold publish_candidate. rewrite Ha. apply al_lift; [done|]. intros ? [= <-]. cbv zeta.
  set (pj := {| pj_block := block; pj_watch_set := ws; pj_values := _; pj_changed_bitmap := bitmap |}).
  assert (Hpj : projection_true pj).
  { split; simpl; [by rewrite Hk, Hgen|unfold values_true; simpl; by rewrite Hk|right; by rewrite Hk]. }
  eapply al_call; [apply publish_true; [|done]|].
  { exists block. done. }
  intros seq p1 Hs1 _. eapply al_call; [by apply insert_candidate_true|]. intros _ p2 Hs2 _. by apply al_ret.
Qed.

Lemma project_candidate_true depth g block changes stage p0 p :
  provider_true → honest p0 → changes_true (keys_of g) block changes → steady p0 p →
  wp (project_candidate_aux depth g block changes stage) (always (steady p0) (λ _ _, True)) p.
Proof.
  intros Hprov Hp0 Hch. revert p. induction depth as [|depth IH]; intros p Hs; cbn [project_candidate_aux]; [done|].
  wp_steps. cbv zeta. pose proof (steady_generation _ _ Hs) as Eg.
  change (ws_generation (pj_watch_set (canonical_projection p))) with (active_generation p). rewrite Eg.
  destruct (N.ltb_spec g (active_generation p0)); [by apply al_ret|].
  destruct (N.ltb_spec (active_generation p0) g); [by apply al_throw|]. assert (g = active_generation p0) as Hg by lia.
  wp_steps. case_decide; [by apply al_ret|].
  assert (Ews : pj_watch_set (canonical_projection p) = pj_watch_set (canonical_projection p0)).
  { unfold canonical_projection. by rewrite (proj1 (proj2 Hs)). }
  match goal with |- wp (match _ with Some _ => _ | None => ?new end) _ _ =>
    assert (Hnew : wp new (always (steady p0) (λ _ _, True)) p) end.
  { wp_steps. destruct (_ && _); [by apply al_ret|].
    eapply al_call; [by apply parent_values_true|]. intros [values|] p1 Hs1 Hv; [|by apply al_ret].
    rewrite (Hv _ eq_refl). by apply publish_candidate_true. }
  destruct (candidates (pb_cache p) !! bm_hash block) as [e|] eqn:E; [|exact Hnew].
  case_decide; [by apply al_throw|]. case_decide; [|exact Hnew]. case_decide; [|by apply al_ret].
  apply promote_with_true; [done|]. intros d _. by rewrite E.
Qed.

Lemma promote_validated_true g h p0 p :
  provider_true → honest p0 → steady p0 p → wp (promote_validated g h) (always (steady p0) (λ _ _, True)) p.
Proof.
  intros Hprov Hp0 Hs. apply promote_with_true; [done|]. intros d -> _ Hd. apply project_candidate_true; try done.
  destruct Hs as ([_ _ [_ Hc]] & E & _). apply Hc in Hd.
  unfold active_generation, canonical_projection in Hd. by rewrite E in Hd.
Qed.

Lemma remove_tree_true h t p0 p :
  steady p0 p → wp (remove_tree h t) (always (steady p0) (λ _ _, True)) p.
Proof.
  intros Hs. unfold remove_tree. wp_step. eapply al_call; [by apply al_cache; [apply lessens_remove_tree|]|].
  intros _ p1 Hs1 _. destruct (_ =? _); [by apply al_ret|]. split; [by apply steady_measured|done].
Qed.

Lemma rejected_true g h reason p0 p :
  steady p0 p → wp (rejected g h reason) (always (steady p0) (λ _ _, True)) p.
Proof.
  intros Hs. unfold rejected. wp_steps. destruct (_ <? _); [by apply al_ret|].
  destruct (_ <? _); [by apply al_throw|]. wp_steps. cbv zeta. destruct (negb _); [by apply al_ret|].
  eapply al_call; [by apply publish_true|]. intros _ p1 Hs1 _.
  eapply al_call; [by apply remove_tree_true|]. intros _ p2 Hs2 _. by apply al_ret.
Qed.

(** ** Canonical heads, snapshots, reloads *)

(** Between two events: honest, in step with the cache, not in recovery. *)
Definition settled (p : Publisher) : Prop := honest p ∧ aligned p ∧ ps_recovering (published p) = false.

(** The same, except that a recovery may be under way. *)
Definition sound (p : Publisher) : Prop := honest p ∧ (ps_recovering (published p) = false → aligned p).

Lemma settled_sound p : settled p → sound p.
Proof. by intros (? & ? & _). Qed.

Lemma settled_steady p0 p : settled p0 → steady p0 p → settled p.
Proof.
  intros (_ & Ha & Hr) (Hh & E1 & E2). split_and!; [done| |by rewrite E1].
  unfold aligned, canonical_projection in *. by rewrite E2, E1.
Qed.

Lemma sound_steady p0 p : sound p0 → steady p0 p → sound p.
Proof.
  intros (_ & Ha) (Hh & E1 & E2). split; [done|]. rewrite E1. intros Hr. specialize (Ha Hr).
  unfold aligned, canonical_projection in *. by rewrite E2, E1.
Qed.

Lemma attempted_steady p : honest p → steady p (attempted p).
Proof. intros []. by split_and!. Qed.

(** A frame that replaces the handshake state. *)
Lemma publish_state_true g event canonical forkchoice recovering p (Q : outcome Error N → Publisher → Prop) :
  event_true g event → projection_true canonical → honest p →
  cache_true (ws_generation (pj_watch_set canonical)) (pb_cache p) →
  (∀ seq p', honest p' → published p' = mkPublishedState canonical forkchoice seq recovering →
     pb_cache p' = pb_cache p → Q (Ok seq) p') →
  (∀ e, steady p (attempted p) → encode_frame (next_envelope p g event) (sh_max_frame_bytes (pb_shared p)) = Err e →
     Q (Err (EncodeFailed e)) (attempted p)) →
  wp (publish_state g event canonical forkchoice recovering) Q p.
Proof.
  intros Hev Hpj Hh Hc Hok Herr. unfold wp, publish_state. rewrite publish_inner_eq.
  destruct (encode_frame _ _) as [frame|e|] eqn:E; simpl.
  - apply Hok; [|done..]. destruct Hh as [Hf _ _]. split; [|done..].
    simpl. apply Forall_app. split; [done|]. apply Forall_singleton. split; [exact E|].
    split; [by intros ev [= <-]|done].
  - apply Herr; [by apply attempted_steady|done].
  - by destruct (encode_frame_not_diverge _ _ E).
Qed.

Lemma loaded_true ws pj :
  ws_keys ws = keys_of (ws_generation ws) → validate_projection_dictionary pj ws = Ok () →
  values_true storage_at (ws_keys (pj_watch_set pj)) pj → pj_changed_bitmap pj = [] → projection_true pj.
Proof.
  intros Hk [Hg Hkeys]%validate_projection_dictionary_Ok Hv Hb. split; [by rewrite Hkeys, Hk, Hg|done|by left].
Qed.

(** Whatever the second cache stores, the first one stored with the same projection or changes. *)
Definition kept (c c' : Cache) : Prop :=
  (∀ h e', candidates c' !! h = Some e' → ∃ e, candidates c !! h = Some e ∧ ce_projection e' = ce_projection e) ∧
  (∀ h d', deferred_executed c' !! h = Some d' →
     ∃ d, deferred_executed c !! h = Some d ∧ de_block d' = de_block d ∧ de_changes d' = de_changes d).

Lemma kept_refl c : kept c c.
Proof. split; eauto. Qed.

Lemma kept_trans c1 c2 c3 : kept c1 c2 → kept c2 c3 → kept c1 c3.
Proof.
  intros [A1 B1] [A2 B2]. split.
  - intros h e (e2 & He2 & ->)%A2. by apply A1.
  - intros h d (d2 & Hd2 & -> & ->)%B2. by apply B1.
Qed.

Lemma kept_head h c : kept c (c <| canonical_hash := h |>).
Proof. split; simpl; eauto. Qed.

Lemma kept_candidate h e e' c :
  candidates c !! h = Some e → ce_projection e' = ce_projection e → kept c (c <| candidates ::= insert h e' |>).
Proof.
  intros He Ep. split; [|intros h' d; simpl; by eauto]. intros h' e2. simpl.
  destruct (decide (h' = h)) as [->|]; simplify_map_eq; eauto. intros [= <-]. eauto.
Qed.

Lemma kept_deferred h d d' c :
  deferred_executed c !! h = Some d → de_block d' = de_block d → de_changes d' = de_changes d →
  kept c (c <| deferred_executed ::= insert h d' |>).
Proof.
  intros Hd E1 E2. split; [intros h' e; simpl; by eauto|]. intros h' d2. simpl.
  destruct (decide (h' = h)) as [->|]; simplify_map_eq; eauto. intros [= <-]. eauto.
Qed.

Lemma kept_expiry t r h c : kept c (schedule_expiry t r h c).
Proof.
  unfold schedule_expiry. destruct (_ =? _); [apply kept_refl|].
  destruct (candidates c !! h) eqn:?; [by eapply kept_candidate|].
  destruct (deferred_executed c !! h) eqn:?; [by eapply kept_deferred|apply kept_refl].
Qed.

Lemma cache_true_kept g c c' : kept c c' → cache_true g c → cache_true g c'.
Proof.
  intros [A B] [Hc Hd]. split.
  - intros h' e' pj' He' Hpj'. destruct (A _ _ He') as (e & He & Ee). eapply Hc; [exact He|congruence].
  - intros h' d' Hd'. destruct (B _ _ Hd') as (d & Hd0 & -> & ->). by eapply Hd.
Qed.

Lemma kept_commit t retention seq previous h c : kept c (commit_canonical t retention seq previous h c).
Proof.
  unfold commit_canonical. cbv zeta.
  assert (H1 : kept c (schedule_expiry t retention previous (c <| canonical_hash := h |>)))
    by (eapply kept_trans; [apply kept_head|apply kept_expiry]).
  destruct (candidates (schedule_expiry _ _ _ _) !! h) eqn:?; [|done].
  destruct (_ =? 0); [|done]. eapply kept_trans; [exact H1|by eapply kept_candidate].
Qed.

Lemma commit_canonical_hash t retention seq previous h c :
  canonical_hash (commit_canonical t retention seq previous h c) = h.
Proof.
  unfold commit_canonical, schedule_expiry. cbv zeta.
  repeat (case_match; simpl; try done).
Qed.

Lemma canonical_true g observed_at expected h p :
  provider_true → settled p → wp (canonical g observed_at expected h) (always settled (λ _ _, True)) p.
Proof.
  intros Hprov Hset. pose proof Hset as (Hh & Hal & Hr). unfold canonical. wp_steps.
  destruct (_ <? _); [by apply al_throw|]. wp_steps. destruct (_ <=? _); [by apply al_ret|]. wp_steps.
  destruct (_ =? _); [by apply al_ret|]. set (previous := canonical_projection p) in *.
  eapply (al_call _ _ _ (λ pj p', steady p p' ∧
    (validate_projection_dictionary pj (pj_watch_set previous) = Ok () → projection_true pj))).
  { unfold canonical_source. wp_steps.
    destruct (if g =? active_generation p then _ else None) as [pj|] eqn:E.
    - apply al_ret; [done|]. split; [done|]. intros _. destruct (g =? active_generation p); [|done].
      apply bind_Some in E as (e & He & Hpj). destruct (hn_cache _ Hh) as [Hc _]. by eapply Hc.
    - apply wp_bind. unfold wp at 1, call_load_at. simpl. pose proof (steady_tick _ _ (steady_refl _ Hh)) as Hs1.
      destruct (load_at (pb_tick p) (pj_watch_set previous) h) as [pj|er] eqn:El;
        [|apply al_throw; by eapply settled_steady].
      apply al_ret; [by eapply settled_steady|]. split; [done|]. intros Hd.
      destruct (pv_at Hprov _ _ _ _ El) as [V B]. eapply loaded_true; try done. by apply projection_keys. }
  intros pj p1 Hset1 [Hs1 Hpj]. apply al_lift; [done|]. intros [] Hd. specialize (Hpj Hd).
  destruct (N.eqb_spec (bm_hash (pj_block pj)) h) as [Ehash|]; cbn [negb orb]; [|by apply al_throw].
  destruct (match expected with Some _ => _ | None => _ end); [by apply al_throw|].
  apply al_lift; [done|]. intros [] Hshape. apply al_lift; [done|]. intros bitmap Hbm. wp_steps.
  pose proof (proj1 (validate_projection_dictionary_Ok _ _) Hd) as [Hgen Hkeys].
  pose proof (canonical_bitmap_true storage_at keys_of Hbounded previous pj bitmap (hn_published _ Hh) Hpj Hd Hshape Hbm) as Hm.
  eapply (al_call _ _ _ (λ _ p', steady p1 p')).
  { eapply al_mono; [apply (insert_candidate_true pj CandidateValidated true 0 p1); [done|apply steady_refl, Hset1]|..];
      [intros p2 ?; by eapply settled_steady|done]. }
  intros _ p2 Hset2 Hs2. apply wp_bind.
  assert (Eg2 : active_generation p2 = ws_generation (pj_watch_set pj)).
  { rewrite (steady_generation _ _ Hs2), (steady_generation _ _ Hs1). by rewrite Hgen. }
  apply publish_state_true.
  - exists (pj_block pj), (bm_hash (pj_block previous)). simpl. split_and!; try done.
    + f_equal. destruct Hs1 as (_ & _ & ->). exact Hal.
    + rewrite <- (pt_keys _ _ _ Hpj). apply (pt_values _ _ _ Hpj).
    + rewrite <- (pt_keys _ _ _ Hpj). exact Hm.
  - done.
  - apply Hset2.
  - rewrite <- Eg2. apply Hset2.
  - intros seq p3 Hh3 Hpub3 Hc3. cbv beta iota. apply wp_bind. unfold wp at 1, now. simpl. wp_steps. split; [|done].
    split_and!.
    + destruct Hh3 as [Hf3 Hp3 Hc3']. split; [done..|]. eapply cache_true_kept; [apply kept_commit|done].
    + unfold aligned. simpl pb_cache. rewrite commit_canonical_hash. unfold canonical_projection.
      change (published _) with (published p3). by rewrite Hpub3.
    + change (published _) with (published p3). by rewrite Hpub3.
  - intros e Hs3 _. split; [|done]. by eapply settled_steady.
Qed.

(** [al_mono] to a postcondition on the state alone. *)
Lemma al_settle {A} (m : M Publisher Error A) p0 p :
  settled p0 → wp m (always (steady p0) (λ _ _, True)) p → wp m (always settled (λ _ _, True)) p.
Proof. intros Hp0 Hm. eapply al_mono; [exact Hm|by intros; eapply settled_steady|done]. Qed.

Lemma forkchoice_applied_true g observed_at applied p :
  provider_true → settled p → wp (forkchoice_applied g observed_at applied) (always settled (λ _ _, True)) p.
Proof.
  intros Hprov Hset. unfold forkchoice_applied. wp_steps.
  destruct (_ <? _); [by apply al_throw|]. wp_steps. destruct (_ <=? _); [by apply al_ret|]. wp_steps.
  eapply (al_call _ _ _ (λ _ _, True)).
  { destruct (negb _); [|by apply al_ret]. eapply al_call; [by apply canonical_true|]. intros _ p1 ? _. by apply al_ret. }
  intros _ p1 Hset1 _. wp_steps. destruct (negb _); [by apply al_throw|]. cbv zeta.
  apply al_lift; [done|]. intros [] _. apply wp_bind. pose proof Hset1 as (Hh1 & Hal1 & Hr1).
  apply publish_state_true; [done|apply Hh1|done|apply Hh1| |by intros e Hs3 _; split; [eapply settled_steady|]].
  intros seq p2 Hh2 Hpub2 Hc2. cbv beta iota. wp_steps.
  assert (Hset2 : settled p2).
  { split_and!; [done| |by rewrite Hpub2]. unfold aligned, canonical_projection. by rewrite Hc2, Hpub2. }
  destruct (fc_finalized _) as [finalized|]; [|by apply al_ret]. case_decide; [|by apply al_ret]. wp_steps.
  match goal with |- wp _ _ ?p => assert (Hs : steady p2 p) by (split_and!; [destruct Hh2; by split|done..]) end.
  eapply (al_settle _ _ _ Hset2), al_call; [by apply process_finality_true|]. intros _ p3 Hs3 _. by apply al_ret.
Qed.

Lemma announce_gap_true reason p :
  sound p → wp (announce_gap reason) (always sound (λ _ p', ps_recovering (published p') = true)) p.
Proof.
  intros Hs. unfold announce_gap. wp_steps. apply wp_bind.
  apply publish_state_true; try done; try apply Hs.
  - intros seq p' Hh Hpub _. apply al_ret; [|by rewrite Hpub]. split; [done|]. by rewrite Hpub.
  - intros e Hst _. split; [|done]. by eapply sound_steady.
Qed.

(** A loaded snapshot that passed the checks, installed. *)
Lemma install_anchor_true {B} loaded (k : () → P B) (Q : outcome Error B → Publisher → Prop) p :
  projection_true (cs_projection loaded) → honest p →
  (∀ p', Forall (frame_true (sh_max_frame_bytes (pb_shared p'))) (sh_frames (pb_shared p')) →
     (∃ m, pb_shared p' = (pb_shared p) <| sh_metrics := m |>) → (∀ g, cache_true g (pb_cache p')) →
     canonical_hash (pb_cache p') = bm_hash (pj_block (cs_projection loaded)) → wp (k ()) Q p') →
  wp (install_anchor loaded ≫= k) Q p.
Proof.
  intros Hpj [Hf _ _] Hk. apply wp_bind. unfold install_anchor. wp_steps. apply wp_bind. unfold wp at 1, now. simpl.
  wp_step. unfold update_candidate_metric, on_metrics. wp_step. apply Hk; [done|by eexists| |done]. intros g. split; [|done].
  intros h e pj. simpl. rewrite lookup_singleton_Some. intros [<- <-] [= <-]. done.
Qed.

Context `{!ProstLaws}.

Lemma reanchor_true p : provider_true → sound p → wp reanchor (always sound (λ _, settled)) p.
Proof.
  intros Hprov Hs. unfold reanchor. wp_steps. apply wp_bind. unfold wp at 1, call_load_latest. simpl.
  assert (Hs1 : sound (p <| pb_tick ::= S |>)) by (eapply sound_steady, steady_tick, steady_refl; [done|apply Hs]).
  destruct (load_latest _ _) as [loaded|e] eqn:El; [|by apply al_throw]. apply wp_bind, wp_ret. cbv beta iota.
  apply al_lift; [done|]. intros [] _. cbv zeta. apply al_lift; [done|]. intros [] Hd. wp_step.
  apply al_lift; [done|]. intros [] [_ Hpre]%projection_frames_Ok. destruct (pv_latest Hprov _ _ _ El) as [V B].
  assert (Hpj : projection_true (cs_projection loaded)).
  { eapply loaded_true; try done. apply projection_keys, Hs. }
  apply install_anchor_true; [done|apply Hs1|]. intros p2 Hf2 [mt Hsh2] Hc2 Hhash2. apply wp_bind.
  assert (Hh2 : honest p2).
  { split; [done| |apply Hc2]. unfold canonical_projection, published. rewrite Hsh2. apply Hs. }
  apply publish_state_true; [|done|done|apply Hc2|..].
  - exists (pj_block (cs_projection loaded)). split; [done|]. simpl. rewrite <- (pt_keys _ _ _ Hpj). apply Hpj.
  - intros seq p3 Hh3 Hpub3 Hc3. assert (Hset : settled p3).
    { split_and!; [done| |by rewrite Hpub3]. unfold aligned, canonical_projection. by rewrite Hc3, Hpub3, Hhash2. }
    apply al_ret; [by apply settled_sound|done].
  - intros e _ He. exfalso. destruct (preflight_fits _ _ _ p2 Hpre) as [frame Hfit]; [by rewrite Hsh2..|congruence].
Qed.

Lemma activate_true ws p :
  provider_true → ws_keys ws = keys_of (ws_generation ws) → settled p →
  wp (activate ws) (always settled (λ _ _, True)) p.
Proof.
  intros Hprov Hws Hset. unfold activate. wp_steps. destruct (_ <=? _); [by apply al_ret|].
  apply wp_bind. unfold wp at 1, call_load_latest. simpl.
  assert (Hset1 : settled (p <| pb_tick ::= S |>)).
  { eapply settled_steady, steady_tick, steady_refl; [done|apply Hset]. }
  destruct (load_latest _ _) as [loaded|e] eqn:El; [|by apply al_throw]. apply wp_bind, wp_ret. cbv beta iota zeta.
  apply al_lift; [done|]. intros [] _. apply al_lift; [done|]. intros [] Hd. wp_step.
  apply al_lift; [done|]. intros [] Hconfig. apply al_lift; [done|]. intros [] _.
  destruct (pv_latest Hprov _ _ _ El) as [V B].
  assert (Hpj : projection_true (cs_projection loaded)) by by eapply loaded_true.
  pose proof (proj1 (validate_projection_dictionary_Ok _ _) Hd) as [Hgen Hkeys].
  apply install_anchor_true; [done|apply Hset1|]. intros p2 Hf2 [mt Hsh2] Hc2 Hhash2. apply wp_bind.
  assert (Hh2 : honest p2).
  { split; [done| |apply Hc2]. unfold canonical_projection, published. rewrite Hsh2. apply Hset1. }
  apply publish_state_true; [by exists ws|done|done|apply Hc2|..].
  - intros seq p3 Hh3 Hpub3 Hc3. cbv beta iota. assert (Hset3 : settled p3).
    { split_and!; [done| |by rewrite Hpub3]. unfold aligned, canonical_projection. by rewrite Hc3, Hpub3, Hhash2. }
    apply (al_settle _ _ _ Hset3). eapply al_call; [apply publish_true; [|by apply steady_refl]|].
    + exists (pj_block (cs_projection loaded)). split; [done|]. simpl. rewrite <- Hws, <- Hkeys. apply Hpj.
    + intros _ p4 ([] & ? & ?) _. wp_step. split; [|done]. by split_and!.
  - intros e _ He. exfalso. destruct (preflight_fits _ _ _ p2 Hconfig) as [frame Hfit]; [by rewrite Hsh2..|congruence].
Qed.

(** A request that is refused leaves everything but the count of interactions as it was: once the
    frames have passed their checks nothing fails. *)
Lemma activate_outcome ws p :
  match activate ws p with
  | (Ok _, _) => True
  | (Err _, p') => p' = p <| pb_tick ::= S |>
  | (Diverge, _) => False
  end.
Proof.
  unfold activate, call_load_latest. cbv [mbind M_bind gets]. destruct (_ <=? _); [done|].
  set (p1 := p <| pb_tick ::= S |>). destruct (load_latest _ _) as [loaded|e']; [|done].
  unfold returning, lift. cbv [mret M_ret].
  destruct (validate_snapshot_view loaded) as [[]|?|] eqn:Hv; [|done|by destruct (snapshot_view_not_diverge _ Hv)].
  destruct (validate_projection_dictionary _ _) as [[]|?|] eqn:Hd; [|done|by destruct (dictionary_not_diverge _ _ Hd)].
  destruct (validate_event_frame _ _ _) as [[]|?|] eqn:Hc; [|done|by destruct (event_frame_not_diverge _ _ _ Hc)].
  destruct (validate_projection_frames _ _ _) as [[]|?|] eqn:Hs; [|done|by destruct (projection_frames_not_diverge _ _ _ Hs)].
  apply projection_frames_Ok in Hs as [_ Hs]. apply validate_projection_dictionary_Ok in Hd as [Hg _]. rewrite Hg in Hs.
  unfold install_anchor, now, update_candidate_metric, on_metrics, publish_state, publish. cbv [mbind M_bind gets modify].
  rewrite publish_inner_eq. match goal with |- context [encode_frame (next_envelope ?q _ _)] =>
    destruct (preflight_fits _ _ _ q Hc eq_refl eq_refl) as [f1 ->] end.
  rewrite publish_inner_eq. match goal with |- context [encode_frame (next_envelope ?q _ _)] =>
    destruct (preflight_fits _ _ _ q Hs eq_refl eq_refl) as [f2 ->] end. done.
Qed.

(** What the publisher must know of a request: the dictionary of its generation, should it be
    activated. *)
Definition request_known (p : Publisher) (event : ControlEvent) : Prop :=
  match event with ActivateConfig ws =>
    ∀ p', activate ws p = (Ok (), p') → active_generation p < ws_generation ws → ws_keys ws = keys_of (ws_generation ws)
  end.

Lemma handle_control_true event p :
  provider_true → request_known p event → settled p → wp (handle_control event) (always settled (λ _ _, True)) p.
Proof.
  intros Hprov Hk Hset. destruct event as [ws]. cbn [handle_control]. unfold wp, catch. cbv [mbind M_bind mret M_ret].
  pose proof (activate_outcome ws p) as Ho. destruct (activate ws p) as [[[]|e|] p'] eqn:Ea; simpl; [..|done].
  - split; [|done]. destruct (N.lt_ge_cases (active_generation p) (ws_generation ws)) as [Hlt|Hge].
    + pose proof (activate_true ws p Hprov (Hk _ Ea Hlt) Hset) as Ht. unfold wp in Ht. rewrite Ea in Ht. by destruct Ht.
    + revert Ea. unfold activate. cbv [mbind M_bind gets]. rewrite (proj2 (N.leb_le _ _) Hge). by intros [= <-].
  - rewrite Ho. split; [|done]. eapply settled_steady, steady_tick, steady_refl; [done|apply Hset].
Qed.

(** ** The loop *)

(** After a pass: sound, and settled unless the thread is on its way out. *)
Definition loop_true (continue : bool) (p : Publisher) : Prop := continue = true → settled p.

Lemma attempt_true reason announced p :
  provider_true → sound p → wp (attempt reason announced) (always sound (λ (r : bool * bool) p', loop_true r.1 p')) p.
Proof.
  intros Hprov Hs. unfold attempt. eapply (al_call _ _ _ (λ _ _, True)).
  { destruct announced; [by apply al_ret|].
    apply (al_catch _ _ _ (λ _ _, True)); [|done|intros e p1 ?; by apply al_ret].
    eapply al_call; [by apply announce_gap_true|]. intros [] p1 ? ?. by apply al_ret. }
  intros gap p1 Hs1 _. eapply (al_call _ _ _ loop_true).
  { destruct gap; [|by apply al_ret].
    apply (al_catch _ _ _ (λ _, settled)); [|by intros ? ? _ ? _|intros e p2 ?; by apply al_ret].
    eapply al_call; [by apply reanchor_true|]. intros [] p2 ? ?. by apply al_ret. }
  intros recovered p2 Hs2 Hr2. by apply al_ret.
Qed.

Lemma sound_tick p : sound p → sound (p <| pb_tick ::= S |>).
Proof. intros Hs. eapply sound_steady, steady_tick, steady_refl; [done|apply Hs]. Qed.

Lemma recover_loop_true fuel reason : ∀ announced delay p,
  provider_true → sound p → wp (recover_loop fuel reason announced delay) (always sound loop_true) p.
Proof.
  induction fuel as [|fuel IH]; intros announced delay p Hprov Hs; cbn [recover_loop]; [done|].
  eapply al_call; [by apply attempt_true|]. intros [recovered announced'] p2 Hs2 Hr2.
  destruct recovered; [by apply al_ret|].
  apply wp_bind. unfold wp at 1, poll_shutdown. simpl. apply sound_tick in Hs2.
  destruct (env_shutdown _ _); [by apply al_ret|by apply IH].
Qed.

Lemma recover_true fuel reason p :
  provider_true → sound p → wp (recover_until_success fuel reason) (always sound loop_true) p.
Proof. intros. unfold recover_until_success. wp_steps. by apply recover_loop_true. Qed.

(** The [catch] of the loop: an error is recovered from. *)
Lemma al_recover {A} (m : P A) fuel reason p :
  provider_true → wp m (always sound (λ _, settled)) p →
  wp (catch (m ;; mret true) (λ _, recover_until_success fuel reason)) (always sound loop_true) p.
Proof.
  intros Hprov Hm. apply (al_catch _ _ _ (λ _, settled)); [|by intros ? ? _ ? _|by intros; apply recover_true].
  eapply al_call; [exact Hm|]. intros a p1 ? ?. by apply al_ret.
Qed.

Lemma al_sound {A} (m : P A) p :
  wp m (always settled (λ _ _, True)) p → wp m (always sound (λ _, settled)) p.
Proof. intros Hm. eapply al_mono; [exact Hm|apply settled_sound|done]. Qed.

Lemma handle_true event p :
  provider_true → input_true (Data event) → settled p → wp (handle event) (always sound (λ _, settled)) p.
Proof.
  intros Hprov Hin Hset. pose proof Hset as (Hh & _).
  assert (Hweak : ∀ A (m : P A), wp m (always settled (λ _ _, True)) p → wp (m ;; mret ()) (always sound (λ _, settled)) p).
  { intros A m Hm. apply al_sound. eapply al_call; [exact Hm|]. intros ? p1 ? _. by apply al_ret. }
  destruct event; cbn [handle].
  - wp_steps. destruct (_ <=? _); [apply al_ret; [by apply settled_sound|done]|].
    apply Hweak, (al_settle _ p); [done|]. by apply project_candidate_true.
  - apply Hweak, (al_settle _ p); [done|]. by apply promote_validated_true.
  - wp_steps. destruct (_ <=? _); [apply al_ret; [by apply settled_sound|done]|].
    apply Hweak, (al_settle _ p); [done|]. by apply project_candidate_true.
  - wp_steps. apply settled_sound in Hset as Hs. destruct (_ <? _); [by apply al_throw|]. wp_steps.
    destruct (_ <=? _); [by apply al_ret|].
    eapply al_call; [by apply announce_gap_true|]. intros _ p1 ? _. by apply reanchor_true.
  - by apply Hweak, forkchoice_applied_true.
  - apply Hweak, (al_settle _ p); [done|]. by apply rejected_true.
Qed.

Lemma dispatch_true fuel event p :
  provider_true → input_true event → settled p → wp (dispatch fuel event) (always sound loop_true) p.
Proof.
  intros Hprov Hin Hset. unfold dispatch. destruct event as [event|[ws]].
  - by apply al_recover; [|apply handle_true].
  - apply al_recover; [done|]. apply al_sound, handle_control_true; [done| |done]. by intros p' _ _.
Qed.

Lemma recover_pending_loss_true fuel losses : ∀ p,
  provider_true → settled p → wp (recover_pending_loss fuel losses) (always sound loop_true) p.
Proof.
  induction losses as [|loss losses IH]; intros p Hprov Hset; cbn [recover_pending_loss].
  - apply al_ret; [by apply settled_sound|by intros _].
  - destruct (loss =? 0); [apply al_ret; [by apply settled_sound|by intros _]|].
    eapply al_call; [apply recover_true; [done|by apply settled_sound]|].
    intros [] p1 Hs1 Hp1; [by apply IH, Hp1|by apply al_ret].
Qed.

Definition pass_true (pass : LoopPass) : Prop :=
  match lp_event pass with Some e => input_true e | None => True end.

Lemma run_pass_true fuel pass p :
  provider_true → pass_true pass → settled p → wp (run_pass fuel pass) (always sound loop_true) p.
Proof.
  intros Hprov Hpass Hset. unfold run_pass.
  eapply al_call; [by apply recover_pending_loss_true|]. intros [] p1 Hs1 Hp1; [|by apply al_ret]. cbn [negb].
  specialize (Hp1 eq_refl). eapply (al_call _ _ _ loop_true).
  { destruct (lp_maintenance pass); [|by apply al_ret; [|intros _]]. unfold run_maintenance.
    apply al_recover; [done|]. by apply al_sound, (al_settle _ p1), maintain_true, steady_refl, Hp1. }
  intros [] p2 Hs2 Hp2; [|by apply al_ret]. cbn [negb]. specialize (Hp2 eq_refl). unfold pass_true in Hpass.
  destruct (lp_event pass) as [event|]; [|by apply al_ret; [|intros _]].
  eapply al_call; [by apply recover_pending_loss_true|]. intros [] p3 Hs3 Hp3; [|by apply al_ret].
  by apply dispatch_true, Hp3.
Qed.

Lemma run_publisher_true fuel passes : ∀ p,
  provider_true → Forall pass_true passes → settled p →
  wp (run_publisher fuel passes) (always sound loop_true) p.
Proof.
  induction passes as [|pass passes IH]; intros p Hprov Hall Hset; cbn [run_publisher].
  - apply al_ret; [by apply settled_sound|by intros _].
  - apply Forall_cons in Hall as [Hpass Hall]. eapply al_call; [by apply run_pass_true|].
    intros [] p1 Hs1 Hp1; [by apply IH, Hp1|by apply al_ret].
Qed.

Lemma start_service_settled s boot chain genesis started ws p :
  provider_true → ws_keys ws = keys_of (ws_generation ws) →
  start_service s boot chain genesis started ws = Ok p → settled p.
Proof.
  intros Hprov Hws (loaded & [_ El Hd _ _] & ->)%start_service_fresh. destruct (pv_latest Hprov _ _ _ El) as [V B].
  assert (Hpj : projection_true (cs_projection loaded)) by by eapply loaded_true.
  split_and!; [|done..]. split; [constructor|done|]. split; [|done].
  intros h e pj. simpl. rewrite lookup_singleton_Some. intros [<- <-] [= <-]. done.
Qed.

(** ** From the engine's output *)

(** [bundle] is what a block did to storage: a coordinate it does not write keeps the parent's value. *)
Definition reflects (ws : WatchSet) (block : BlockMeta) (bundle : BundleState) : Prop :=
  ∀ k, k ∈ ws_keys ws →
    key_value storage_at (bm_hash block) k =
      default (key_value storage_at (bm_parent_hash block) k) (block_write bundle (wk_address k) (wk_slot k)).

Lemma extract_changes_true ws block bundle :
  watch_set_wf ws → reflects ws block bundle → changes_true (ws_keys ws) block (extract_changes ws bundle).
Proof.
  intros Hwf Hr. pose proof (extract_changes_perm ws bundle Hwf) as Hperm.
  pose proof (extract_changes_ids_nodup ws bundle Hwf) as Hnd.
  assert (Hin : ∀ c, c ∈ extract_changes ws bundle ↔ ∃ i k, ws_keys ws !! i = Some k ∧ sc_key_id c = N.of_nat i ∧
    block_write bundle (wk_address k) (wk_slot k) = Some (sc_new_value c)).
  { intros c. rewrite Hperm. unfold reference_changes. rewrite list_elem_of_bind. unfold key_change. split.
    - intros (k & Hc & [i Hi]%list_elem_of_lookup). exists i, k. pose proof (wsw_dense _ Hwf _ _ Hi).
      destruct (block_write _ _ _); [|set_solver]. apply list_elem_of_singleton in Hc as ->. simpl. split_and!; [done|lia|done].
    - intros (i & k & Hi & Hid & Hw). exists k. rewrite Hw. split; [|by eapply list_elem_of_lookup_2].
      apply list_elem_of_singleton. rewrite (wsw_dense _ Hwf _ _ Hi), <- Hid. by destruct c. }
  split_and!; [|done|].
  - apply Forall_forall. intros c (i & k & Hi & -> & _)%Hin. apply lookup_lt_Some in Hi. unfold len. lia.
  - intros i k Hi. rewrite (Hr k) by by eapply list_elem_of_lookup_2. unfold delta_value.
    destruct (list_find _ _) as [[j c]|] eqn:E.
    + apply list_find_Some in E as (Hj & Hc & _). apply list_elem_of_lookup_2, Hin in Hj as (i' & k' & Hi' & Hid & Hw).
      assert (i' = i) as -> by lia. assert (k' = k) as -> by congruence. by rewrite Hw.
    + rewrite list_find_None, Forall_forall in E. destruct (block_write _ _ _) as [v|] eqn:Hw; [|done].
      destruct (E {| sc_key_id := N.of_nat i; sc_new_value := v |}); [|done]. apply Hin. eauto 10.
Qed.

(** What the engine sends: change sets extracted, with the watch set of their generation, from
    bundles that reflect their blocks. *)
Definition engine_true (e : PublisherEvent) : Prop :=
  match e with
  | Data (Executed _ g block changes) | Data (ValidatedFallback _ g block changes) =>
      ∃ ws bundle, watch_set_wf ws ∧ ws_keys ws = keys_of g ∧ reflects ws block bundle ∧
        changes = extract_changes ws bundle
  | Control (ActivateConfig ws) => ws_keys ws = keys_of (ws_generation ws)
  | _ => True
  end.

Lemma engine_input_true e : engine_true e → input_true e.
Proof.
  destruct e as [[]|[]]; try done; simpl; intros (ws & bundle & Hwf & <- & Hr & ->); by apply extract_changes_true.
Qed.

Definition engine_pass_true (pass : LoopPass) : Prop :=
  match lp_event pass with Some e => engine_true e | None => True end.
Lemma run_values_true s boot chain genesis started ws p0 fuel passes o p :
  provider_true → ws_keys ws = keys_of (ws_generation ws) →
  start_service s boot chain genesis started ws = Ok p0 → Forall pass_true passes →
  run_publisher fuel passes p0 = (o, p) → honest p.
Proof.
  intros Hprov Hws Hstart Hpasses Hrun.
  pose proof (run_publisher_true fuel passes p0 Hprov) as Hwp. unfold wp in Hwp. rewrite Hrun in Hwp.
  destruct Hwp as [[Hh _] _]; [done|by eapply start_service_settled|done].
Qed.

Lemma engine_passes_true passes : Forall engine_pass_true passes → Forall pass_true passes.
Proof.
  intros Hpasses. eapply Forall_impl; [exact Hpasses|]. unfold engine_pass_true, pass_true. intros pass.
  case_match; [apply engine_input_true|done].
Qed.


(** C7: What consumers read is true.  If the provider reports the chain's storage, the bundles the
    engine executes reflect their blocks and dictionaries are known by their generation, then every
    frame ever broadcast is the encoding of an envelope whose snapshot, candidate or canonical
    values are exactly the storage of the block it names at the dictionary's keys, in order, and
    whose bitmap marks exactly the keys that differ from the parent (for a candidate) or from the
    previous head (for a canonical head); and so is the snapshot sent to a consumer that
    connects. *)
Theorem published_values_true s boot chain genesis started ws p0 fuel passes o p :
  provider_true → ws_keys ws = keys_of (ws_generation ws) →
  start_service s boot chain genesis started ws = Ok p0 → Forall engine_pass_true passes →
  run_publisher fuel passes p0 = (o, p) →
  Forall (frame_true (sh_max_frame_bytes (pb_shared p))) (sh_frames (pb_shared p)) ∧
  projection_true (ps_canonical (published p)).
Proof.
  intros Hprov Hws Hstart Hpasses%engine_passes_true Hrun.
  by destruct (run_values_true _ _ _ _ _ _ _ _ _ _ _ Hprov Hws Hstart Hpasses Hrun).
Qed.
End honest.

(** ** The sample world *)

Definition sample_keys (_ : N) : list WatchKey := ws_keys sample_watch_set.

Lemma sample_chain_bounded : chain_bounded sample_storage sample_keys.
Proof.
  split; [|intros g; vm_compute; discriminate]. intros h a s. unfold sample_storage. by case_match.
Qed.

Lemma sample_provider_true : @provider_true sample_env sample_storage.
Proof.
  split.
  - intros t ws s [= <-]. done.
  - intros t ws h p. cbn [load_at sample_source env_source sample_env].
    destruct (h =? 50); [by intros [= <-]|]. destruct (h =? 60); [by intros [= <-]|done].
Qed.

Lemma reflects_all storage ws block bundle :
  Forall (λ k, key_value storage (bm_hash block) k =
    default (key_value storage (bm_parent_hash block) k) (block_write bundle (wk_address k) (wk_slot k))) (ws_keys ws) →
  reflects storage ws block bundle.
Proof. intros Hf k Hk. rewrite Forall_forall in Hf. by apply Hf. Qed.

(** Blocks 60 and 61 and what they did. *)
Lemma sample_reflects :
  reflects sample_storage sample_watch_set (sample_block 6 60 50) sample_write ∧
  reflects sample_storage sample_watch_set (sample_block 6 61 50) {| bundle_state := ∅ |}.
Proof. split; apply reflects_all; repeat constructor. Qed.

Lemma sample_engine_true : Forall (@engine_pass_true sample_env sample_storage sample_keys) sample_passes.
Proof.
  repeat constructor; unfold engine_pass_true, data_pass; cbn [lp_event engine_true].
  - exists sample_watch_set, sample_write. split_and!; [apply sample_watch_wf|done|apply sample_reflects|done].
  - exists sample_watch_set, {| bundle_state := ∅ |}. split_and!; [apply sample_watch_wf|done|apply sample_reflects|done].
Qed.

Lemma published_values_true_witness :
  Forall (@frame_true sample_env sample_storage sample_keys 4096) (sh_frames (pb_shared sample_run.2)) ∧
  event_names sample_run.2 ≠ [].
Proof.
  split; [|vm_compute; discriminate].
  exact (proj1 (@published_values_true sample_env sample_storage sample_keys sample_chain_bounded sample_laws
    sample_stream sample_boot 1 0 0 sample_watch_set sample_publisher 3 sample_passes sample_run.1 sample_run.2
    sample_provider_true eq_refl sample_started sample_engine_true ltac:(vm_compute; reflexivity))).
Defined.
