(* ===== verification/Loop.v ===== *)
(** * The publisher thread, one operation at a time (src/src/publisher.rs: run_publisher)

    The loop of the thread with its channels: the shutdown signal, the loss
    notifications, the maintenance ticker, the control requests and the data
    queue.  Every channel operation, handler call and recovery attempt is one
    step, and the other threads send between any two of them.  [Publisher.run_publisher]
    is the same thread without its channels; here it is shown to compute what
    the loop computes, and the loop is shown to stop promptly, to serve control
    requests, and never to block while there is something to do. *)

From S2P Require Import Prelude Bytes Config Watch Feed Wire Client Consumer Stream Projection Cache CacheInv Publisher Sample PublisherInv Service Fidelity.
From stdpp Require Import list.
Local Open Scope N_scope.

(** ** Channels *)

Record Channel (A : Type) := mkChannel {
  ch_queue : list A;
  ch_connected : bool;
}.
Arguments mkChannel {A}.
Arguments ch_queue {A}.
Arguments ch_connected {A}.

Inductive TryRecv (A : Type) := Received (a : A) | Empty | Disconnected.
Arguments Received {A}.
Arguments Empty {A}.
Arguments Disconnected {A}.

(** [Receiver::try_recv]: messages sent before the senders went are still received. *)
Definition try_recv {A} (c : Channel A) : TryRecv A * Channel A :=
  match ch_queue c with
  | a :: queue => (Received a, mkChannel queue (ch_connected c))
  | [] => (if ch_connected c then Empty else Disconnected, c)
  end.

(** A [select!] arm is ready when its channel has a message or no sender. *)
Definition recv_ready {A} (c : Channel A) : bool :=
  match try_recv c with (Empty, _) => false | _ => true end.

(** [Sender::send] on an unbounded view of the channel, and [try_send] on one of capacity one. *)
Definition chan_send {A} (a : A) (c : Channel A) : Channel A := mkChannel (ch_queue c ++ [a]) (ch_connected c).
Definition try_send_one {A} (a : A) (c : Channel A) : Channel A :=
  match ch_queue c with [] => mkChannel [a] (ch_connected c) | _ => c end.
Definition disconnect {A} (c : Channel A) : Channel A := mkChannel (ch_queue c) false.

(** [shutdown_requested]. *)
Definition shutdown_requested (c : Channel ()) : bool * Channel () :=
  match try_recv c with
  | (Received _, c) | (Disconnected, c) => (true, c)
  | (Empty, c) => (false, c)
  end.

(** [retention.checked_div(4).unwrap_or(10ms).clamp(10ms, 1s)]; dividing by four cannot fail. *)
Definition maintenance_interval (policy : CandidatePolicy) : N :=
  N.min (N.max (retention policy / 4) (from_millis 10)) (from_secs 1).

(** ** The thread *)

(** Where the thread goes on after a recovery. *)
Inductive Resume := ResumeLoss (hand : option PublisherEvent) | ResumeEvents | ResumeTop.

(** The operation the thread does next; [hand] is the event it has received. *)
Inductive LoopPc :=
| Top
| TakeLoss (hand : option PublisherEvent)
| Tick
| TryControl
| TryData
| Spin
| SpinShutdown
| SpinLoss
| SpinControl
| SpinData
| Select
| Dispatch (event : PublisherEvent)
| Attempt (reason : string) (gap_announced : bool) (retry_delay : N) (resume : Resume)
| Backoff (reason : string) (gap_announced : bool) (retry_delay : N) (resume : Resume)
| Exited.

Definition resume_pc (r : Resume) : LoopPc :=
  match r with ResumeLoss hand => TakeLoss hand | ResumeEvents => TryControl | ResumeTop => Top end.

(** [lo_handled] and [lo_losses] remember the events handled and the losses taken so far. *)
Record Loop := mkLoop {
  lo_pc : LoopPc;
  lo_publisher : Publisher;
  lo_shutdown : Channel ();
  lo_loss : bool;
  lo_tick : bool;
  lo_control : Channel ControlEvent;
  lo_data : Channel FeedEvent;
  lo_handled : list PublisherEvent;
  lo_losses : nat;
}.
#[export] Instance eta_Loop : Eta Loop := λ r,
  mkLoop (lo_pc r) (lo_publisher r) (lo_shutdown r) (lo_loss r) (lo_tick r) (lo_control r) (lo_data r)
    (lo_handled r) (lo_losses r).

Definition loop_start (p : Publisher) : Loop :=
  mkLoop Top p (mkChannel [] true) false false (mkChannel [] true) (mkChannel [] true) [] 0.

Inductive Arm := ArmShutdown | ArmLoss | ArmTick | ArmControl | ArmData.

(** What the thread's environment decides: the loss word, the clock while spinning, the arm that
    [select!] picks. *)
Record Choice := mkChoice { cc_loss : N; cc_elapsed : N; cc_arm : Arm }.

(** Why the thread recovers. *)
Inductive recovery_reason : string → Prop :=
| overflow_reason : recovery_reason "engine_queue_overflow"
| maintenance_reason : recovery_reason "candidate_maintenance_error"
| error_reason : recovery_reason "publisher_error".

Lemma recovery_reason_named r : recovery_reason r → r ≠ EmptyString.
Proof. by intros []. Qed.
#[export] Hint Constructors recovery_reason : core.

Section thread.
Context `{Env} (spin_duration : N).

Definition goto (pc : LoopPc) (l : Loop) : Loop := l <| lo_pc := pc |>.

(** The first attempt of [recover_until_success]. *)
Definition recover (reason : string) (resume : Resume) (l : Loop) : Loop :=
  goto (Attempt reason (ps_recovering (published (lo_publisher l))) (from_millis 10) resume) l.

(** A call that returns a [Result]; an error starts a recovery. *)
Definition call {A} (m : P A) (reason : string) (resume : Resume) (l : Loop) : option Loop :=
  match m (lo_publisher l) with
  | (Ok _, p) => Some (goto (resume_pc resume) (l <| lo_publisher := p |>))
  | (Err _, p) => Some (recover reason resume (l <| lo_publisher := p |>))
  | (Diverge, _) => None
  end.

Definition receive {A} (f : A → PublisherEvent) (r : TryRecv A) (empty : LoopPc) : LoopPc :=
  match r with
  | Received a => TakeLoss (Some (f a))
  | Disconnected => Exited
  | Empty => empty
  end.

(** The next operation of the thread. *)
Definition thread_step (c : Choice) (l : Loop) : option Loop :=
  match lo_pc l with
  | Top =>
      let '(requested, shutdown) := shutdown_requested (lo_shutdown l) in
      Some (goto (if requested then Exited else TakeLoss None) (l <| lo_shutdown := shutdown |>))
  | TakeLoss hand =>
      if cc_loss c =? 0
      then Some (goto (match hand with None => Tick | Some event => Dispatch event end) l)
      else Some (recover "engine_queue_overflow" (ResumeLoss hand) (l <| lo_losses ::= S |>))
  | Tick =>
      if lo_tick l then call maintain "candidate_maintenance_error" ResumeEvents (l <| lo_tick := false |>)
      else Some (goto TryControl l)
  | TryControl =>
      let '(r, control) := try_recv (lo_control l) in
      Some (goto (receive Control r TryData) (l <| lo_control := control |>))
  | TryData =>
      let '(r, data) := try_recv (lo_data l) in
      Some (goto (receive Data r Spin) (l <| lo_data := data |>))
  | Spin => Some (goto (if cc_elapsed c <? spin_duration then SpinShutdown else Select) l)
  | SpinShutdown =>
      let '(requested, shutdown) := shutdown_requested (lo_shutdown l) in
      Some (goto (if requested then Exited else SpinLoss) (l <| lo_shutdown := shutdown |>))
  | SpinLoss => if lo_loss l then Some (goto Top (l <| lo_loss := false |>)) else Some (goto SpinControl l)
  | SpinControl =>
      let '(r, control) := try_recv (lo_control l) in
      Some (goto (receive Control r SpinData) (l <| lo_control := control |>))
  | SpinData =>
      let '(r, data) := try_recv (lo_data l) in
      Some (goto (receive Data r Spin) (l <| lo_data := data |>))
  | Select =>
      match cc_arm c with
      | ArmShutdown =>
          let '(r, shutdown) := try_recv (lo_shutdown l) in
          if recv_ready (lo_shutdown l) then Some (goto Exited (l <| lo_shutdown := shutdown |>)) else None
      | ArmLoss => if lo_loss l then Some (goto Top (l <| lo_loss := false |>)) else None
      | ArmTick =>
          if lo_tick l then call maintain "candidate_maintenance_error" ResumeTop (l <| lo_tick := false |>)
          else None
      | ArmControl =>
          let '(r, control) := try_recv (lo_control l) in
          if recv_ready (lo_control l) then Some (goto (receive Control r Exited) (l <| lo_control := control |>)) else None
      | ArmData =>
          let '(r, data) := try_recv (lo_data l) in
          if recv_ready (lo_data l) then Some (goto (receive Data r Exited) (l <| lo_data := data |>)) else None
      end
  | Dispatch event =>
      let l := l <| lo_handled ::= λ h, h ++ [event] |> in
      match event with
      | Data event => call (handle event) "publisher_error" ResumeTop l
      | Control event => call (handle_control event) "publisher_error" ResumeTop l
      end
  | Attempt reason gap_announced retry_delay resume =>
      match attempt reason gap_announced (lo_publisher l) with
      | (Ok (recovered, gap_announced), p) =>
          Some (goto (if recovered : bool then resume_pc resume else Backoff reason gap_announced retry_delay resume)
            (l <| lo_publisher := p |>))
      | _ => None
      end
  | Backoff reason gap_announced retry_delay resume =>
      let '(requested, shutdown) := shutdown_requested (lo_shutdown l) in
      let next := Attempt reason gap_announced (N.min (saturating_mul retry_delay 2) (from_secs 1)) resume in
      Some (goto (if requested then Exited else next)
        (l <| lo_shutdown := shutdown |> <| lo_publisher ::= λ p, p <| pb_tick ::= S |> |>))
  | Exited => None
  end.

(** The thread's steps and what the other threads do to its channels. *)
Inductive LoopAction :=
| Step (c : Choice)
| SendShutdown
| DropHandle
| NotifyLoss
| MaintenanceTick
| SendControl (event : ControlEvent)
| SendData (event : FeedEvent)
| DropProducers.

Definition loop_step (a : LoopAction) (l : Loop) : option Loop :=
  match a with
  | Step c => thread_step c l
  | SendShutdown => Some (l <| lo_shutdown ::= try_send_one () |>)
  | DropHandle => Some (l <| lo_shutdown ::= disconnect |>)
  | NotifyLoss => Some (l <| lo_loss := true |>)
  | MaintenanceTick => Some (l <| lo_tick := true |>)
  | SendControl event => Some (l <| lo_control ::= try_send_one event |>)
  | SendData event => Some (l <| lo_data ::= chan_send event |>)
  | DropProducers => Some (l <| lo_control ::= disconnect |> <| lo_data ::= disconnect |>)
  end.

Fixpoint loop_run (actions : list LoopAction) (l : Loop) : option Loop :=
  match actions with
  | [] => Some l
  | a :: actions => l ← loop_step a l; loop_run actions l
  end.

Lemma loop_run_app actions actions' l : loop_run (actions ++ actions') l = loop_run actions l ≫= loop_run actions'.
Proof.
  revert l; induction actions as [|a actions IH]; intros l; [done|]. simpl.
  destruct (loop_step a l); simpl; [apply IH|done].
Qed.

(** A run only moves on. *)
Lemma call_later {A} (m : P A) reason resume l l' :
  Mono m → call m reason resume l = Some l' → later (lo_publisher l) (lo_publisher l').
Proof.
  intros Hm. specialize (Hm (lo_publisher l)). unfold call.
  destruct (m (lo_publisher l)) as [[] p]; intros; simplify_eq/=; done.
Qed.

Lemma loop_step_later a l l' : loop_step a l = Some l' → later (lo_publisher l) (lo_publisher l').
Proof.
  destruct a as [c| | | | | | |]; simpl; [|by intros [= <-]..]. unfold thread_step.
  destruct (lo_pc l); repeat case_match; intros Hstep; try done;
    first [ apply call_later in Hstep; [exact Hstep|solve_mono]
          | by simplify_eq/=
          | simplify_eq/=; by apply later_tick | idtac ].
  all: pose proof (mono_attempt reason gap_announced (lo_publisher l)) as Ha; simplify_eq/=;
    match goal with E : attempt _ _ _ = _ |- _ => by rewrite E in Ha end.
Qed.

Lemma loop_run_later actions : ∀ l l', loop_run actions l = Some l' → later (lo_publisher l) (lo_publisher l').
Proof.
  induction actions as [|a actions IH]; intros l l'; simpl; [by intros [= <-]|].
  destruct (loop_step a l) as [l1|] eqn:E; [|done]. intros Hrun. etrans; [by eapply loop_step_later|by apply IH].
Qed.

(** The watch set that a step of the thread activates, and those that a run activates. *)
Definition activation (a : LoopAction) (l : Loop) : option WatchSet :=
  match a, lo_pc l with
  | Step _, Dispatch (Control (ActivateConfig ws)) =>
      match activate ws (lo_publisher l) with
      | (Ok _, _) => if active_generation (lo_publisher l) <? ws_generation ws then Some ws else None
      | _ => None
      end
  | _, _ => None
  end.

Fixpoint activations (actions : list LoopAction) (l : Loop) : list WatchSet :=
  match actions with
  | [] => []
  | a :: actions => option_list (activation a l) ++
      match loop_step a l with Some l => activations actions l | None => [] end
  end.

(** ** Stopping *)

Definition signalled (l : Loop) : Prop := recv_ready (lo_shutdown l) = true.

(** How many more steps the thread takes once it has been told to stop, losses aside. *)
Definition resume_rank (r : Resume) : nat :=
  match r with ResumeLoss None => 11 | ResumeLoss (Some _) => 4 | ResumeEvents => 8 | ResumeTop => 1 end.
Definition rank (pc : LoopPc) : nat :=
  match pc with
  | Exited => 0 | Top | Backoff _ _ _ _ | SpinShutdown => 1 | Dispatch _ => 3
  | TakeLoss (Some _) => 4 | Select => 5 | Spin => 6 | TryData | SpinData => 7
  | TryControl | SpinControl => 8 | SpinLoss => 9 | Tick => 10 | TakeLoss None => 11
  | Attempt _ _ _ r => S (resume_rank r)
  end.

(** How many more events it handles. *)
Definition resume_events (r : Resume) : nat := match r with ResumeTop => 0 | _ => 1 end.
Definition events_left (pc : LoopPc) : nat :=
  match pc with
  | Exited | Top | Backoff _ _ _ _ | SpinShutdown => 0
  | Attempt _ _ _ r => resume_events r
  | _ => 1
  end.

Lemma requested_signalled c : shutdown_requested c = (recv_ready c, (try_recv c).2).
Proof. unfold shutdown_requested, recv_ready. by destruct (try_recv c) as [[]]. Qed.

Lemma call_outcome {A} (m : P A) reason resume l l' :
  call m reason resume l = Some l' →
  ∃ p pc, l' = l <| lo_publisher := p |> <| lo_pc := pc |> ∧
    (pc = resume_pc resume ∨ ∃ b d, pc = Attempt reason b d resume).
Proof. unfold call, recover, goto. repeat case_match; intros; simplify_eq/=; eauto 10. Qed.

(** What one step costs a thread that has been told to stop. *)
Definition winding_down (l l' : Loop) (steps : nat) : Prop :=
  (lo_pc l' = Exited ∨ signalled l') ∧ (lo_losses l ≤ lo_losses l')%nat ∧
  (steps + rank (lo_pc l') + 2 * lo_losses l ≤ rank (lo_pc l) + 2 * lo_losses l')%nat ∧
  (length (lo_handled l') + events_left (lo_pc l') ≤ length (lo_handled l) + events_left (lo_pc l))%nat.

Lemma resume_left r : rank (resume_pc r) = resume_rank r ∧ events_left (resume_pc r) = resume_events r.
Proof. by destruct r as [[]| |]. Qed.

Lemma resume_rank_pos r : (1 ≤ resume_rank r)%nat.
Proof. destruct r as [[]| |]; simpl; lia. Qed.

Lemma call_winding {A} (m : P A) reason resume l l1 l' :
  signalled l → call m reason resume l1 = Some l' →
  lo_shutdown l1 = lo_shutdown l → lo_losses l1 = lo_losses l →
  (2 + resume_rank resume ≤ rank (lo_pc l))%nat →
  (length (lo_handled l1) + resume_events resume ≤ length (lo_handled l) + events_left (lo_pc l))%nat →
  winding_down l l' 1.
Proof.
  intros Hs (p & pc & -> & Hpc)%call_outcome Esh El Hr He. unfold winding_down, signalled. simpl. rewrite Esh, El.
  pose proof (resume_left resume) as [E1 E2]. destruct Hpc as [->|(b & d & ->)]; simpl; rewrite ?E1, ?E2; split_and!; auto; lia.
Qed.

Lemma thread_step_winding c l l' : signalled l → thread_step c l = Some l' → winding_down l l' 1.
Proof.
  intros Hs Hstep. unfold thread_step in Hstep.
  assert (Hreq : shutdown_requested (lo_shutdown l) = (true, (try_recv (lo_shutdown l)).2)).
  { rewrite requested_signalled. by rewrite Hs. }
  destruct (lo_pc l) eqn:Epc; rewrite ?Hreq in Hstep;
    repeat case_match; try (eapply call_winding; [done|exact Hstep|done|done|rewrite Epc; simpl; lia|];
      rewrite Epc; simpl; rewrite ?length_app; simpl; lia).
  all: unfold winding_down, signalled, goto, recover, receive in *.
  all: repeat case_match; simplify_eq/=; rewrite ?Epc; simpl; split_and!; auto; try lia.
  all: pose proof (resume_left resume) as [E1 E2]; pose proof (resume_rank_pos resume); rewrite ?E1, ?E2; lia.
Qed.

Lemma recv_ready_sent {A} (a : A) c : recv_ready (try_send_one a c) = true.
Proof. unfold recv_ready, try_recv, try_send_one. destruct c as [[|x q] []]; done. Qed.

Lemma recv_ready_disconnect {A} (c : Channel A) : recv_ready (disconnect c) = true.
Proof. unfold recv_ready, try_recv, disconnect. by destruct c as [[|x q] b]. Qed.

Definition is_step (a : LoopAction) : bool := match a with Step _ => true | _ => false end.
Definition thread_steps (actions : list LoopAction) : nat := length (filter (λ a, is_step a = true) actions).

Lemma loop_run_winding actions : ∀ l l',
  lo_pc l = Exited ∨ signalled l → loop_run actions l = Some l' → winding_down l l' (thread_steps actions).
Proof.
  induction actions as [|a actions IH]; intros l l' Hs; simpl.
  { intros [= <-]. unfold winding_down. simpl. split_and!; auto; lia. }
  destruct (loop_step a l) as [l1|] eqn:Ea; [|done]. simpl. intros Hrun.
  assert (Hone : winding_down l l1 (if is_step a then 1 else 0)).
  { destruct a; simpl in Ea |- *; [by destruct Hs as [E|?]; [unfold thread_step in Ea; rewrite E in Ea|eapply thread_step_winding]|..];
      injection Ea as <-; unfold winding_down, signalled in *; simpl; split_and!; try lia;
      destruct Hs; auto using recv_ready_sent, recv_ready_disconnect. }
  destruct Hone as (Hs1 & H1 & H2 & H3). destruct (IH l1 l' Hs1 Hrun) as (Hs2 & H4 & H5 & H6).
  unfold thread_steps in *. rewrite filter_cons. unfold winding_down. destruct a; simpl in *; split_and!; auto; lia.
Qed.

(** ** Invariants of the thread

    [I] holds between handlers, [F announced] while a recovery is under way; both are about the
    publisher.  The lemma lifts them to every state of the loop. *)

Definition called {A} (I : Publisher → Prop) (F : bool → Publisher → Prop) (o : outcome Error A) (p : Publisher) : Prop :=
  match o with Ok _ => I p | Err _ => F (ps_recovering (published p)) p | Diverge => True end.

Record loop_invariant (ok : PublisherEvent → Prop) (known : Publisher → ControlEvent → Prop) (I : Publisher → Prop)
    (F : bool → Publisher → Prop) : Prop := {
  li_recover : ∀ p, I p → F (ps_recovering (published p)) p;
  li_maintain : ∀ p, I p → wp maintain (called I F) p;
  li_data : ∀ event p, ok (Data event) → I p → wp (handle event) (called I F) p;
  li_control : ∀ event p, ok (Control event) → known p event → I p → wp (handle_control event) (called I F) p;
  li_attempt : ∀ reason announced p, recovery_reason reason → F announced p →
    wp (attempt reason announced) (λ o p', match o with
      | Ok (recovered, announced) => if recovered : bool then I p' else F announced p'
      | _ => True end) p;
  li_wait : ∀ announced p, F announced p → F announced (p <| pb_tick ::= S |>);
}.

(** The events a program counter still carries. *)
Definition hand_of (pc : LoopPc) : list PublisherEvent :=
  match pc with
  | TakeLoss (Some event) | Dispatch event
  | Attempt _ _ _ (ResumeLoss (Some event)) | Backoff _ _ _ (ResumeLoss (Some event)) => [event]
  | _ => []
  end.

Definition pc_invariant (I : Publisher → Prop) (F : bool → Publisher → Prop) (l : Loop) : Prop :=
  match lo_pc l with
  | Attempt reason announced _ _ | Backoff reason announced _ _ => recovery_reason reason ∧ F announced (lo_publisher l)
  | Exited => ∃ announced, F announced (lo_publisher l)
  | _ => I (lo_publisher l)
  end.

Record loop_ok (ok : PublisherEvent → Prop) (I : Publisher → Prop) (F : bool → Publisher → Prop) (l : Loop) : Prop := {
  lk_pc : pc_invariant I F l;
  lk_hand : Forall ok (hand_of (lo_pc l));
  lk_control : Forall (λ event, ok (Control event)) (ch_queue (lo_control l));
  lk_data : Forall (λ event, ok (Data event)) (ch_queue (lo_data l));
}.

Lemma resume_hand reason a d r : hand_of (Attempt reason a d r) = hand_of (resume_pc r) ∧
  hand_of (Backoff reason a d r) = hand_of (resume_pc r).
Proof. by destruct r as [[]| |]. Qed.

Lemma resume_invariant I F r l : lo_pc l = resume_pc r → I (lo_publisher l) → pc_invariant I F l.
Proof. unfold pc_invariant. intros ->. by destruct r. Qed.

Lemma try_recv_spec {A} (c : Channel A) :
  match try_recv c with
  | (Received a, c') => ch_queue c = a :: ch_queue c' ∧ ch_connected c' = ch_connected c
  | (_, c') => c' = c ∧ ch_queue c = []
  end.
Proof. unfold try_recv. by destruct c as [[|a q] []]. Qed.

Section invariant.
Context (ok : PublisherEvent → Prop) (known : Publisher → ControlEvent → Prop).
Context (I : Publisher → Prop) (F : bool → Publisher → Prop).
Context (Hinv : loop_invariant ok known I F).

Lemma call_ok {A} (m : P A) reason resume l l' :
  wp m (called I F) (lo_publisher l) → recovery_reason reason → Forall ok (hand_of (resume_pc resume)) →
  Forall (λ event, ok (Control event)) (ch_queue (lo_control l)) →
  Forall (λ event, ok (Data event)) (ch_queue (lo_data l)) →
  call m reason resume l = Some l' → loop_ok ok I F l'.
Proof.
  unfold wp, call. intros Hm Hr Hh Hc Hd. destruct (m (lo_publisher l)) as [[a|e|] p]; simpl in Hm; [..|done];
    intros [= <-].
  - split; [by eapply resume_invariant|done..].
  - split; [split; [done|exact Hm]| |done..]. simpl. by destruct resume as [[]| |].
Qed.

(** Receiving from either channel: the hand gets the event, the queue loses it. *)
Lemma receive_ok {A} (f : A → PublisherEvent) (c : Channel A) (empty : LoopPc) :
  Forall (λ a, ok (f a)) (ch_queue c) → hand_of empty = [] →
  Forall (λ a, ok (f a)) (ch_queue (try_recv c).2) ∧ Forall ok (hand_of (receive f (try_recv c).1 empty)).
Proof.
  intros Hc He. pose proof (try_recv_spec c) as Hs. destruct (try_recv c) as [[a| |] c']; simpl in *.
  - destruct Hs as [Hs _]. rewrite Hs in Hc. apply Forall_cons in Hc as [? ?]. by split; [|apply Forall_singleton].
  - destruct Hs as [-> _]. by rewrite He.
  - by destruct Hs as [-> _].
Qed.

(** A jump that leaves the publisher alone. *)
Lemma goto_ok pc l :
  I (lo_publisher l) → (match pc with Attempt _ _ _ _ | Backoff _ _ _ _ => False | _ => True end) →
  Forall ok (hand_of pc) → Forall (λ event, ok (Control event)) (ch_queue (lo_control l)) →
  Forall (λ event, ok (Data event)) (ch_queue (lo_data l)) → loop_ok ok I F (goto pc l).
Proof.
  intros HI Hpc Hh Hc Hd. split; [|done..]. unfold pc_invariant. simpl.
  destruct pc; try done. eexists. by apply (li_recover _ _ _ _ Hinv).
Qed.

Lemma receive_goto {A} (f : A → PublisherEvent) r empty :
  (match empty with Attempt _ _ _ _ | Backoff _ _ _ _ => False | _ => True end) →
  match receive f r empty with Attempt _ _ _ _ | Backoff _ _ _ _ => False | _ => True end.
Proof. by destruct r. Qed.

(** A jump after [try_recv], given what the two receptions guarantee. *)
Ltac received Hrc Hrd :=
  apply goto_ok;
  first [ done | by apply receive_goto
    | apply (proj1 (Hrc Top eq_refl)) | apply (proj1 (Hrd Top eq_refl))
    | by eapply proj2, Hrc | by eapply proj2, Hrd ].

(** The request the thread is about to handle is known to the publisher. *)
Definition dispatch_known (l : Loop) : Prop :=
  match lo_pc l with Dispatch (Control event) => known (lo_publisher l) event | _ => True end.

Lemma thread_step_ok c l l' :
  loop_ok ok I F l → dispatch_known l → thread_step c l = Some l' → loop_ok ok I F l'.
Proof.
  unfold dispatch_known. intros [Hpc Hh Hc Hd] Hkn Hstep. unfold thread_step in Hstep. unfold pc_invariant in Hpc.
  rewrite requested_signalled in Hstep.
  pose proof (λ empty, receive_ok Control (lo_control l) empty Hc) as Hrc.
  pose proof (λ empty, receive_ok Data (lo_data l) empty Hd) as Hrd.
  pose proof Hinv as [Hrec Hmaint Hdata Hcontrol Hatt Hwait].
  destruct (try_recv (lo_control l)) as [rc control]. destruct (try_recv (lo_data l)) as [rd data].
  destruct (lo_pc l) eqn:Epc; simpl in Hh, Hrc, Hrd;
    try (repeat case_match; simplify_eq; by apply goto_ok).
  all: try (injection Hstep as <-; received Hrc Hrd).
  - destruct (cc_loss c =? 0); injection Hstep as <-; [destruct hand; by apply goto_ok|].
    split; [split; [done|by apply Hrec]|by destruct hand|done..].
  - destruct (lo_tick l); [|injection Hstep as <-; by apply goto_ok]. by eapply call_ok in Hstep; [|apply Hmaint| |simpl|..].
  - destruct (cc_arm c).
    + destruct (try_recv (lo_shutdown l)). destruct (recv_ready _); [injection Hstep as <-|done]. by apply goto_ok.
    + destruct (lo_loss l); [injection Hstep as <-|done]. by apply goto_ok.
    + destruct (lo_tick l); [|done]. by eapply call_ok in Hstep; [|apply Hmaint| |simpl|..].
    + destruct (recv_ready _); [injection Hstep as <-|done]. received Hrc Hrd.
    + destruct (recv_ready _); [injection Hstep as <-|done]. received Hrc Hrd.
  - apply Forall_cons in Hh as [Hh _]. destruct event as [event|event].
    + eapply call_ok in Hstep; [exact Hstep|by apply Hdata|done|by apply Forall_nil|done|done].
    + eapply call_ok in Hstep; [exact Hstep|by apply Hcontrol|done|by apply Forall_nil|done|done].
  - destruct Hpc as [Hr HF]. specialize (Hatt _ _ _ Hr HF). unfold wp in Hatt.
    destruct (resume_hand reason gap_announced retry_delay resume) as [Eh _]. simpl in Eh. rewrite Eh in Hh.
    destruct (attempt _ _ _) as [[[[] a]|e|] p]; simpl in Hatt; [..|done|done]; injection Hstep as <-.
    + by split; [eapply resume_invariant|..].
    + destruct (resume_hand reason a retry_delay resume) as [_ Eb]. split; [by split|simpl; by rewrite <- Eb in Hh|done..].
  - destruct Hpc as [Hr HF]. apply Hwait in HF. injection Hstep as <-. destruct (recv_ready _).
    + split; [by eexists|by apply Forall_nil|done..].
    + by split; [split|..].
Qed.

(** What the other threads put into the channels. *)
Definition sends_ok (a : LoopAction) : Prop :=
  match a with SendControl event => ok (Control event) | SendData event => ok (Data event) | _ => True end.

(** So is every request on the way of a run. *)
Fixpoint requests_known (actions : list LoopAction) (l : Loop) : Prop :=
  match actions with
  | [] => True
  | a :: actions => (is_step a = true → dispatch_known l) ∧
      match loop_step a l with Some l => requests_known actions l | None => True end
  end.

Lemma loop_step_ok a l l' :
  loop_ok ok I F l → sends_ok a → (is_step a = true → dispatch_known l) → loop_step a l = Some l' → loop_ok ok I F l'.
Proof.
  intros Hl Ha Hk. destruct a; simpl; [by apply thread_step_ok, Hk|..]; intros [= <-]; destruct Hl; split; try done; simpl.
  - unfold try_send_one. destruct (ch_queue (lo_control l)) eqn:E; [by apply Forall_singleton|by rewrite E].
  - apply Forall_app. split; [done|by apply Forall_singleton].
Qed.

Lemma loop_run_ok actions : ∀ l l',
  loop_ok ok I F l → Forall sends_ok actions → requests_known actions l → loop_run actions l = Some l' → loop_ok ok I F l'.
Proof.
  induction actions as [|a actions IH]; intros l l' Hl Ha; simpl; [by intros _ [= <-]|].
  apply Forall_cons in Ha as [Ha Has]. intros [Hk Hks]. destruct (loop_step a l) as [l1|] eqn:E; [|done]. simpl.
  intros Hrun. eapply IH; [|done|done|done]. by eapply loop_step_ok.
Qed.

Lemma requests_known_all actions : (∀ p event, known p event) → ∀ l, requests_known actions l.
Proof.
  intros Hk. induction actions as [|a actions IH]; intros l; simpl; [done|]. split; [|by destruct (loop_step a l)].
  intros _. unfold dispatch_known. by repeat case_match.
Qed.

Lemma loop_start_ok p : I p → loop_ok ok I F (loop_start p).
Proof. by split; [|apply Forall_nil..]. Qed.
End invariant.

(** ** Nothing blocks *)

(** The publisher after the call the thread makes next. *)
Definition after_call (l : Loop) : Publisher :=
  match lo_pc l with
  | Tick | Select => (maintain (lo_publisher l)).2
  | Dispatch (Data event) => (handle event (lo_publisher l)).2
  | Dispatch (Control event) => (handle_control event (lo_publisher l)).2
  | Attempt reason announced _ _ => (attempt reason announced (lo_publisher l)).2
  | _ => lo_publisher l
  end.

(** [select!] has nothing to take. *)
Definition asleep (l : Loop) : Prop :=
  lo_pc l = Select ∧ recv_ready (lo_shutdown l) = false ∧ lo_loss l = false ∧ lo_tick l = false ∧
  recv_ready (lo_control l) = false ∧ recv_ready (lo_data l) = false.

Lemma call_returns {A} (m : P A) reason resume l :
  (m (lo_publisher l)).1 ≠ Diverge → is_Some (call m reason resume l).
Proof. unfold call. destruct (m (lo_publisher l)) as [[]]; simpl; [eauto..|done]. Qed.
End thread.

Section protocol.
Context `{Env} `{!ProstLaws} (spin_duration : N).
Context (params : StreamParams) (start : StreamState) (initial : PublishedState).
Notation idle := (idle params start initial).
Notation faulted := (faulted params start initial).

Definition between (p : Publisher) : Prop := within p → idle p.
Definition recovering_from (announced : bool) (p : Publisher) : Prop :=
  within p → faulted p ∧ announced = ps_recovering (published p).

Lemma within_before {A} (m : P A) p : Mono m → within (m p).2 → within p.
Proof. intros Hm. by apply within_later. Qed.

Lemma called_wp {A} (m : P A) p :
  Mono m → (idle p → wp m (hreturns (λ _, idle) faulted) p) → between p → wp m (called between recovering_from) p.
Proof.
  intros Hm Hwp Hp. unfold wp, called. pose proof (within_before m p Hm) as Hb.
  destruct (m p) as [[a|e|] p'] eqn:E; simpl in *; [| |done]; intros Hw; specialize (Hwp (Hp (Hb Hw)));
    unfold wp in Hwp; rewrite E in Hwp; by specialize (Hwp Hw).
Qed.

Lemma protocol_invariant : caps_ok params → loop_invariant (event_ok params) (λ _ _, True) between recovering_from.
Proof.
  intros Hcaps. split.
  - intros p Hp Hw. split; [|done]. by apply idle_faulted, Hp.
  - intros p. apply called_wp; [solve_mono|]. intros Hid. eapply hp_mono; [by apply maintain_wp|by intros _ p' _ [? _]|done|done].
  - intros event p Hok. apply called_wp; [solve_mono|]. intros Hid. by apply handle_wp.
  - intros event p Hok _. apply called_wp; [solve_mono|]. intros Hid.
    eapply hp_mono; [by apply handle_control_wp|done|done|done].
  - intros reason announced p Hr HF. unfold wp.
    assert (Hm : Mono (attempt reason announced)) by solve_mono. pose proof (within_before _ p Hm) as Hb.
    destruct (attempt reason announced p) as [[[recovered a]|e|] p'] eqn:E; simpl in *; [|done|done].
    assert (Hp' : within p' → if recovered then idle p' else faulted p' ∧ a = ps_recovering (published p')).
    { intros Hw. destruct (HF (Hb Hw)) as [Hf ->]. pose proof (attempt_wp params start initial reason p (recovery_reason_named _ Hr) Hf) as Ha.
      unfold wp in Ha. rewrite E in Ha. exact (Ha Hw). }
    by destruct recovered.
  - intros announced p HF Hw. destruct HF as [Hf ->]; [unfold within in *; simpl in Hw; lia|].
    split; [by apply faulted_tick|done].
Qed.

(** Before the horizon, a call the invariant covers returns. *)
Lemma call_not_diverge {A} (m : P A) (Q : A → Publisher → Prop) (Qe : Publisher → Prop) p :
  Mono m → (idle p → wp m (hreturns Q Qe) p) → between p → within (m p).2 → (m p).1 ≠ Diverge.
Proof.
  intros Hm Hwp Hb Hw Hd. specialize (Hwp (Hb (within_before m p Hm Hw))). unfold wp in Hwp.
  rewrite Hd in Hwp. exact (Hwp Hw).
Qed.

Lemma select_progress l :
  lo_pc l = Select → (maintain (lo_publisher l)).1 ≠ Diverge →
  asleep l ∨ ∃ c, is_Some (thread_step spin_duration c l).
Proof.
  intros Epc Hm. unfold asleep, thread_step. rewrite Epc.
  destruct (recv_ready (lo_shutdown l)) eqn:Es.
  { right. exists (mkChoice 0 0 ArmShutdown). simpl. destruct (try_recv (lo_shutdown l)). eauto. }
  destruct (lo_loss l) eqn:El; [right; exists (mkChoice 0 0 ArmLoss); simpl; eauto|].
  destruct (lo_tick l) eqn:Et; [right; exists (mkChoice 0 0 ArmTick); by apply call_returns|].
  destruct (recv_ready (lo_control l)) eqn:Ec.
  { right. exists (mkChoice 0 0 ArmControl). simpl. destruct (try_recv (lo_control l)). eauto. }
  destruct (recv_ready (lo_data l)) eqn:Ed; [|by left].
  right. exists (mkChoice 0 0 ArmData). simpl. destruct (try_recv (lo_data l)). eauto.
Qed.

(** A thread that has not exited can go on, unless it sleeps with nothing to do. *)
Lemma thread_progress l :
  caps_ok params → loop_ok (event_ok params) between recovering_from l → within (after_call l) →
  lo_pc l = Exited ∨ asleep l ∨ ∃ c, is_Some (thread_step spin_duration c l).
Proof.
  intros Hcaps [Hpc Hh _ _] Hw. unfold pc_invariant in Hpc. unfold after_call in Hw.
  pose proof (call_not_diverge maintain _ _ (lo_publisher l) mono_maintain (maintain_wp params start initial _ Hcaps)) as Hmaint.
  destruct (lo_pc l) eqn:Epc; auto.
  all: try (right; right; exists (mkChoice 0 0 ArmShutdown); unfold thread_step; rewrite Epc; repeat case_match; by eauto).
  - right; right. exists (mkChoice 0 0 ArmTick). unfold thread_step. rewrite Epc.
    destruct (lo_tick l); [|eauto]. by apply call_returns, Hmaint.
  - right. apply select_progress; [done|by apply Hmaint].
  - right; right. exists (mkChoice 0 0 ArmTick). unfold thread_step. rewrite Epc. simpl in Hh. apply Forall_cons in Hh as [Hh _].
    destruct event as [event|event]; apply call_returns; simpl.
    + eapply call_not_diverge; [solve_mono|intros ?; by apply handle_wp|done|done].
    + eapply call_not_diverge; [solve_mono|intros ?; by apply handle_control_wp|done|done].
  - right; right. exists (mkChoice 0 0 ArmTick). unfold thread_step. rewrite Epc. destruct Hpc as [Hr HF].
    assert (Hm : Mono (attempt reason gap_announced)) by solve_mono.
    destruct (HF (within_before _ _ Hm Hw)) as [Hf ->]. pose proof (attempt_wp params start initial reason _ (recovery_reason_named _ Hr) Hf) as Ha.
    unfold wp in Ha. specialize (Ha Hw). destruct (attempt _ _ _) as [[[]|e|] p]; [eauto|done..].
Qed.

Lemma protocol_faulted l :
  loop_ok (event_ok params) between recovering_from l → within (lo_publisher l) → faulted (lo_publisher l).
Proof.
  intros [Hpc _ _ _] Hw. unfold pc_invariant in Hpc.
  destruct (lo_pc l); try (by apply idle_faulted, Hpc); try (by apply Hpc). destruct Hpc as [a Hp]. by apply Hp.
Qed.
End protocol.

Lemma within_after_call `{Env} l : within (after_call l) → within (lo_publisher l).
Proof.
  unfold after_call. destruct (lo_pc l) as [| | | | | | | | | | |[]| | |]; try done; apply within_before; solve_mono.
Qed.

(** Every state of the loop of a started service keeps the invariant of the protocol. *)
Lemma protocol_reachable `{Env} `{!ProstLaws} spin cfg boot chain genesis started ws p0 actions l :
  watch_set_wf ws → start_service cfg boot chain genesis started ws = Ok p0 →
  Forall (sends_ok (event_ok (service_params p0))) actions → loop_run spin actions (loop_start p0) = Some l →
  loop_ok (event_ok (service_params p0)) (between (service_params p0) (stream_state false p0) (published p0))
    (recovering_from (service_params p0) (stream_state false p0) (published p0)) l.
Proof.
  intros Hws Hstart Hok Hrun. destruct (start_service_idle _ _ _ _ _ _ _ Hws Hstart) as (Hidle & Hcaps & _).
  pose proof (protocol_invariant (service_params p0) (stream_state false p0) (published p0) Hcaps) as Hinv.
  eapply (loop_run_ok spin _ _ _ _ Hinv actions); [|done|by apply requests_known_all|done]. apply loop_start_ok. by intros _.
Qed.

(** ** Generations *)

(** The dictionary of each generation: that of the first watch set or of the one that was activated. *)
Definition dictionary_of (sets : list WatchSet) (g : N) : list WatchKey :=
  match list_find (λ ws, ws_generation ws = g) sets with Some (_, ws) => ws_keys ws | None => [] end.

Lemma dictionary_of_unique sets ws :
  NoDup (ws_generation <$> sets) → ws ∈ sets → dictionary_of sets (ws_generation ws) = ws_keys ws.
Proof.
  intros Hnd Hin. unfold dictionary_of. destruct (list_find _ _) as [[i ws']|] eqn:E.
  - apply list_find_Some in E as (Hi & Hg & _). apply list_elem_of_lookup in Hin as [j Hj].
    assert (i = j) as ->; [|by simplify_eq].
    eapply NoDup_lookup; [exact Hnd|..]; rewrite list_lookup_fmap_Some; eauto.
  - apply list_find_None in E. rewrite Forall_forall in E. by destruct (E ws Hin).
Qed.

Section generations.
Context `{Env} `{!ProstLaws} (spin : N).
Context (params : StreamParams) (start : StreamState) (initial : PublishedState) (Hcaps : caps_ok params).

Lemma generation_later p p' :
  faulted params start initial p → faulted params start initial p' → later p p' →
  active_generation p ≤ active_generation p'.
Proof.
  intros [Hi _] [Hi' _] [_ _ [rest Hf]]. apply (iv_history _ _ _ _ _), history_stream in Hi, Hi'.
  rewrite Hf in Hi'. unfold envelopes in Hi'. rewrite fmap_app in Hi'. apply stream_split in Hi' as (s1 & H1 & H2).
  pose proof (stream_generation _ _ _ _ _ Hi H1) as E. apply stream_generation_mono in H2. simpl in *. lia.
Qed.
Notation loop_good := (loop_ok (event_ok params) (between params start initial) (recovering_from params start initial)).

(** An activation moves to its own generation. *)
Lemma activation_generation a l l1 ws :
  loop_good l → activation a l = Some ws → loop_step spin a l = Some l1 → within (lo_publisher l1) →
  watch_set_wf ws ∧ active_generation (lo_publisher l) < ws_generation ws ∧
  active_generation (lo_publisher l1) = ws_generation ws.
Proof.
  intros [Hpc Hh _ _] Ha Hstep Hw. pose proof (within_later _ _ (loop_step_later _ _ _ _ Hstep) Hw) as Hw0.
  unfold activation in Ha. destruct a as [c| | | | | | |]; try done. unfold pc_invariant in Hpc. simpl in Hstep.
  unfold thread_step in Hstep. destruct (lo_pc l) as [| | | | | | | | | | |[|[ws']]| | |]; try done.
  apply Forall_cons in Hh as [Hok _]. unfold call in Hstep. cbn [handle_control] in Hstep. unfold catch in Hstep.
  cbv [mbind M_bind mret M_ret] in Hstep. simpl in Hstep.
  destruct (activate ws' (lo_publisher l)) as [[[]|e|] p'] eqn:E; try done. injection Hstep as <-. simpl in Hw |- *.
  destruct (N.ltb_spec (active_generation (lo_publisher l)) (ws_generation ws')) as [Hlt|]; [|done]. injection Ha as <-.
  pose proof (activate_wp params start initial ws' (lo_publisher l) (Hpc Hw0) Hok) as Hwp.
  unfold wp in Hwp. rewrite E in Hwp. specialize (Hwp Hw) as [_ Hg].
  rewrite (proj2 (N.leb_gt _ _) Hlt) in Hg. destruct Hg as (_ & Hg & _). done.
Qed.

(** The generations a run activates are ever newer. *)
Lemma activations_newer actions : ∀ l l',
  loop_good l → Forall (sends_ok (event_ok params)) actions → loop_run spin actions l = Some l' → within (lo_publisher l') →
  Forall (λ ws, watch_set_wf ws ∧ active_generation (lo_publisher l) < ws_generation ws) (activations spin actions l) ∧
  NoDup (ws_generation <$> activations spin actions l).
Proof.
  induction actions as [|a actions IH]; intros l l' Hl Ha; simpl; [by split; [apply Forall_nil|apply NoDup_nil]|].
  apply Forall_cons in Ha as [Ha Has]. destruct (loop_step spin a l) as [l1|] eqn:E; [|done]. simpl. intros Hrun Hw.
  pose proof (loop_run_later _ _ _ _ Hrun) as Hlater. pose proof (within_later _ _ Hlater Hw) as Hw1.
  assert (Hl1 : loop_good l1).
  { eapply (loop_step_ok spin _ _ _ _ (protocol_invariant params start initial Hcaps)); [exact Hl|exact Ha| |exact E].
    intros _. unfold dispatch_known. by repeat case_match. }
  destruct (IH l1 l' Hl1 Has Hrun Hw) as [Hall Hnd].
  assert (Hmono : active_generation (lo_publisher l) ≤ active_generation (lo_publisher l1)).
  { pose proof (loop_step_later _ _ _ _ E) as Hl01. apply generation_later; [..|done]; eapply protocol_faulted; try done.
    by eapply within_later. }
  destruct (activation a l) as [ws|] eqn:Eact; simpl.
  - destruct (activation_generation _ _ _ _ Hl Eact E Hw1) as (Hwf & Hlt & Hg). split.
    + apply Forall_cons. split; [done|]. eapply Forall_impl; [exact Hall|]. intros ws' [? ?]. split; [done|lia].
    + apply NoDup_cons. split; [|done]. intros (ws' & E' & Hin)%list_elem_of_fmap. rewrite Forall_forall in Hall.
      destruct (Hall _ Hin) as [_ ?]. lia.
  - split; [|done]. eapply Forall_impl; [exact Hall|]. intros ws' [? ?]. split; [done|lia].
Qed.
End generations.

(** From the start of the service: every generation has one dictionary. *)
Lemma started_dictionaries `{Env} `{!ProstLaws} spin cfg boot chain genesis started ws p0 actions l :
  watch_set_wf ws → start_service cfg boot chain genesis started ws = Ok p0 →
  Forall (sends_ok (event_ok (service_params p0))) actions → loop_run spin actions (loop_start p0) = Some l →
  within (lo_publisher l) →
  Forall watch_set_wf (ws :: activations spin actions (loop_start p0)) ∧
  NoDup (ws_generation <$> (ws :: activations spin actions (loop_start p0))).
Proof.
  intros Hws Hstart Hok Hrun Hw. destruct (start_service_idle _ _ _ _ _ _ _ Hws Hstart) as (_ & Hcaps & _).
  pose proof (protocol_reachable spin _ _ _ _ _ _ _ [] _ Hws Hstart (Forall_nil_2 _) eq_refl) as Hl0.
  destruct (activations_newer spin _ _ _ Hcaps actions _ _ Hl0 Hok Hrun Hw) as [Hall Hnd].
  destruct (start_service_dictionary _ _ _ _ _ _ _ Hstart) as [Hg _]. split.
  - apply Forall_cons. split; [done|]. eapply Forall_impl; [exact Hall|]. by intros ws' [? _].
  - apply NoDup_cons. split; [|done]. intros (ws' & E' & Hin)%list_elem_of_fmap. rewrite Forall_forall in Hall.
    destruct (Hall _ Hin) as [_ Hlt]. simpl in Hlt. lia.
Qed.

(** Requests are known when the activated ones are. *)
Lemma activations_known `{Env} spin keys_of actions : ∀ l,
  Forall (λ ws, ws_keys ws = keys_of (ws_generation ws)) (activations spin actions l) →
  requests_known spin (request_known keys_of) actions l.
Proof.
  induction actions as [|a actions IH]; intros l; simpl; [done|]. intros [Ha Hrest]%Forall_app. split.
  - intros Hs. destruct a as [c| | | | | | |]; try done. unfold dispatch_known, activation in *.
    destruct (lo_pc l) as [| | | | | | | | | | |[|[ws]]| | |]; try done. intros p' E Hlt. rewrite E in Ha.
    rewrite (proj2 (N.ltb_lt _ _) Hlt) in Ha. by apply Forall_cons in Ha as [Ha _].
  - destruct (loop_step spin a l); [by apply IH|done].
Qed.

(** So do the values. *)
Section values.
Context `{Env} `{!ProstLaws} (storage_at : B256 → Address → U256 → U256) (keys_of : N → list WatchKey).
Context (Hbounded : chain_bounded storage_at keys_of) (Hprov : provider_true storage_at).

Lemma called_true {A} (m : P A) p :
  wp m (always (sound storage_at keys_of) (λ _, settled storage_at keys_of)) p →
  wp m (called (settled storage_at keys_of) (λ _, sound storage_at keys_of)) p.
Proof. intros Hm. eapply wp_mono; [exact Hm|]. by intros [] p' [? ?]. Qed.

(** The engine's change sets are the differences blocks make. *)
Definition data_true (e : PublisherEvent) : Prop :=
  match e with Data _ => input_true storage_at keys_of e | Control _ => True end.

Lemma values_invariant :
  loop_invariant data_true (request_known keys_of) (settled storage_at keys_of) (λ _, sound storage_at keys_of).
Proof.
  split.
  - intros p. apply settled_sound.
  - intros p Hs. by apply called_true, al_sound, (al_settle _ _ _ p), maintain_true, steady_refl, Hs.
  - intros event p Hin Hs. by apply called_true, handle_true.
  - intros event p _ Hk Hs. by apply called_true, al_sound, (handle_control_true storage_at keys_of).
  - intros reason announced p _ Hs. eapply wp_mono; [by apply attempt_true|].
    intros [[recovered a]|e|] p' [Hs' Hr]; [|done|done]. destruct recovered; [by apply Hr|done].
  - intros _ p. apply sound_tick.
Qed.

Lemma loop_values_true spin cfg boot chain genesis started ws p0 actions l :
  ws_keys ws = keys_of (ws_generation ws) → start_service cfg boot chain genesis started ws = Ok p0 →
  Forall (sends_ok data_true) actions → requests_known spin (request_known keys_of) actions (loop_start p0) →
  loop_run spin actions (loop_start p0) = Some l →
  honest storage_at keys_of (lo_publisher l).
Proof.
  intros Hk Hstart Hok Hknown Hrun.
  assert (Hl : loop_ok data_true (settled storage_at keys_of) (λ _, sound storage_at keys_of) l).
  { eapply (loop_run_ok spin _ _ _ _ values_invariant actions); [|done|done|done]. apply loop_start_ok. by eapply start_service_settled. }
  destruct Hl as [Hpc _ _ _]. unfold pc_invariant in Hpc.
  destruct (lo_pc l); try apply Hpc. by destruct Hpc as [_ [? _]].
Qed.
End values.

Lemma loop_limit `{Env} spin p0 actions l :
  loop_run spin actions (loop_start p0) = Some l →
  sh_max_frame_bytes (pb_shared (lo_publisher l)) = sh_max_frame_bytes (pb_shared p0).
Proof.
  intros Hrun%loop_run_later. apply Hrun.
Qed.

(** ** The loop computes what [run_publisher] computes *)

Definition loss_pass (loss : N) : LoopPass :=
  {| lp_losses := [loss]; lp_maintenance := false; lp_event := None; lp_late_losses := [] |}.
Definition tick_pass : LoopPass :=
  {| lp_losses := []; lp_maintenance := true; lp_event := None; lp_late_losses := [] |}.
Definition event_pass (event : PublisherEvent) : LoopPass :=
  {| lp_losses := []; lp_maintenance := false; lp_event := Some event; lp_late_losses := [] |}.

Definition events_of (passes : list LoopPass) : list PublisherEvent := omap lp_event passes.

Definition data_of (events : list PublisherEvent) : list FeedEvent :=
  omap (λ e, match e with Data event => Some event | Control _ => None end) events.
Definition sent_data (actions : list LoopAction) : list FeedEvent :=
  omap (λ a, match a with SendData event => Some event | _ => None end) actions.

(** The world in which the only poll that sees the shutdown signal is the one at tick [stop]. *)
Definition stopping (E : Env) (stop : option nat) : Env :=
  {| env_source := env_source; env_prost := env_prost; env_iter := env_iter; env_clock := env_clock;
     env_shutdown := λ t _, bool_decide (stop = Some t) |}.

Section refinement.
Context `{E : Env} (spin_duration : N).

(** What is left of the pass the thread is in, for a signal seen at [stop] and [fuel] more rounds. *)
Definition rest_of (stop : option nat) (fuel : nat) (l : Loop) : outcome Error bool * Publisher :=
  match lo_pc l with
  | Attempt reason announced retry_delay _ =>
      @recover_loop (stopping E stop) fuel reason announced retry_delay (lo_publisher l)
  | Backoff reason announced retry_delay _ =>
      let p := (lo_publisher l) <| pb_tick ::= S |> in
      if bool_decide (stop = Some (pb_tick (lo_publisher l))) then (Ok false, p)
      else @recover_loop (stopping E stop) fuel reason announced
             (N.min (saturating_mul retry_delay 2) (from_secs 1)) p
  | _ => (Ok true, lo_publisher l)
  end.

Definition future (stop : option nat) (l : Loop) : Prop :=
  ∀ t, stop = Some t → (pb_tick (lo_publisher l) ≤ t)%nat.

(** [passes] take [p0] to where the thread stands. *)
Definition computes (p0 : Publisher) (passes : list LoopPass) (l : Loop) : Prop :=
  match lo_pc l with
  | Exited => ∃ stop k b, ∀ fuel, (k ≤ fuel)%nat →
      @run_publisher (stopping E stop) fuel passes p0 = (Ok b, lo_publisher l)
  | _ => ∃ k j, (j ≤ k)%nat ∧ ∀ fuel stop, (k ≤ fuel)%nat → future stop l →
      @run_publisher (stopping E stop) fuel passes p0 = rest_of stop (fuel - j) l
  end.

Lemma run_publisher_snoc (env : Env) fuel passes pass p0 p :
  @run_publisher env fuel passes p0 = (Ok true, p) →
  @run_publisher env fuel (passes ++ [pass]) p0 = @run_pass env fuel pass p.
Proof.
  revert p0; induction passes as [|q passes IH]; intros p0; cbn [app run_publisher]; cbv [mbind M_bind].
  - intros [= ->]. by destruct (run_pass fuel pass p) as [[[]| |] p'].
  - destruct (run_pass fuel q p0) as [[[]| |] p1]; [apply IH|done..].
Qed.

Lemma run_loss_pass (env : Env) fuel loss p :
  loss ≠ 0 → @run_pass env fuel (loss_pass loss) p = @recover_until_success env fuel "engine_queue_overflow" p.
Proof.
  intros Hl. unfold run_pass, loss_pass. cbn [lp_losses lp_maintenance lp_event recover_pending_loss]. cbv [mbind M_bind].
  rewrite (proj2 (N.eqb_neq _ _) Hl). by destruct (recover_until_success _ _ p) as [[[]| |] p'].
Qed.

Lemma run_tick_pass (env : Env) fuel p : @run_pass env fuel tick_pass p = @run_maintenance env fuel p.
Proof.
  unfold run_pass, tick_pass. cbn [lp_losses lp_maintenance lp_event recover_pending_loss]. cbv [mbind M_bind mret M_ret].
  cbn [negb]. by destruct (run_maintenance fuel p) as [[[]| |] p'].
Qed.

Lemma run_event_pass (env : Env) fuel event p : @run_pass env fuel (event_pass event) p = @dispatch env fuel event p.
Proof. done. Qed.

Lemma recover_round stop fuel reason announced delay p :
  @recover_loop (stopping E stop) (S fuel) reason announced delay p =
  match attempt reason announced p with
  | (Ok (true, _), p') => (Ok true, p')
  | (Ok (false, announced), p') =>
      if bool_decide (stop = Some (pb_tick p')) then (Ok false, p' <| pb_tick ::= S |>)
      else @recover_loop (stopping E stop) fuel reason announced (N.min (saturating_mul delay 2) (from_secs 1))
             (p' <| pb_tick ::= S |>)
  | (Err e, p') => (Err e, p')
  | (Diverge, p') => (Diverge, p')
  end.
Proof.
  cbn [recover_loop]. unfold mbind at 1, M_bind at 1. change (@attempt (stopping E stop)) with (@attempt E).
  destruct (attempt reason announced p) as [[[[] a]|e|] p']; try done.
  unfold poll_shutdown. cbv [mbind M_bind]. simpl. by case_bool_decide.
Qed.

(** The thread moves on within the pass, or starts one. *)
Lemma computes_goto p0 passes l l' :
  computes p0 passes l → lo_publisher l' = lo_publisher l →
  (match lo_pc l with Attempt _ _ _ _ | Backoff _ _ _ _ | Exited => False | _ => True end) →
  (match lo_pc l' with Attempt _ _ _ _ | Backoff _ _ _ _ => False | _ => True end) →
  computes p0 passes l'.
Proof.
  unfold computes, rest_of, future. intros Hc Ep Hl Hl'. rewrite Ep.
  destruct (lo_pc l); try done; destruct Hc as (k & j & Hj & Hc); destruct (lo_pc l'); try done; try (by exists k, j);
    exists None, k, true; intros fuel Hf; by apply Hc.
Qed.

(** The publisher at a point outside recovery. *)
Lemma computes_ready p0 passes l :
  computes p0 passes l → (match lo_pc l with Attempt _ _ _ _ | Backoff _ _ _ _ | Exited => False | _ => True end) →
  ∃ k, ∀ fuel stop, (k ≤ fuel)%nat → future stop l →
    @run_publisher (stopping E stop) fuel passes p0 = (Ok true, lo_publisher l).
Proof.
  unfold computes, rest_of. intros Hc Hl.
  destruct (lo_pc l); try done; destruct Hc as (k & j & Hj & Hc); by exists k.
Qed.

(** A call: its pass is [catch (m ;; mret true) recover]. *)
Lemma computes_call {A} (m : ∀ env : Env, M Publisher Error A) pass reason resume p0 passes l l1 l' :
  computes p0 passes l →
  (match lo_pc l with Attempt _ _ _ _ | Backoff _ _ _ _ | Exited => False | _ => True end) →
  Mono (m E) → (∀ stop, m (stopping E stop) = m E) →
  (∀ env fuel p, @run_pass env fuel pass p =
     catch (m env ;; mret true) (λ _, @recover_until_success env fuel reason) p) →
  lo_publisher l1 = lo_publisher l → call (m E) reason resume l1 = Some l' →
  computes p0 (passes ++ [pass]) l'.
Proof.
  intros Hc Hl Hm Hstop Hpass El1 Hcall. destruct (computes_ready _ _ _ Hc Hl) as (k & Hrun).
  specialize (Hm (lo_publisher l)). apply lt_tick in Hm. unfold call in Hcall. rewrite El1 in Hcall.
  assert (Hsnoc : ∀ fuel stop, (k ≤ fuel)%nat → future stop l →
    @run_publisher (stopping E stop) fuel (passes ++ [pass]) p0 =
      catch (m E ;; mret true) (λ _, @recover_until_success (stopping E stop) fuel reason) (lo_publisher l)).
  { intros fuel stop Hf Hs. by rewrite (run_publisher_snoc _ _ _ _ _ _ (Hrun _ _ Hf Hs)), Hpass, Hstop. }
  unfold catch in Hsnoc. cbv [mbind M_bind mret M_ret] in Hsnoc.
  destruct (m E (lo_publisher l)) as [[a|e|] p]; simpl in Hm; [..|done]; injection Hcall as <-;
    unfold computes, rest_of, future; simpl.
  - destruct resume as [hand| |]; simpl; exists k, 0%nat; (split; [lia|]); intros fuel stop Hf Hs; apply Hsnoc; try done;
      intros t Ht; specialize (Hs t Ht); lia.
  - exists k, 0%nat. split; [lia|]. intros fuel stop Hf Hs. rewrite Hsnoc; [by rewrite Nat.sub_0_r|done|].
    intros t Ht. specialize (Hs t Ht). lia.
Qed.

Lemma computes_loss loss hand p0 passes l :
  computes p0 passes l → lo_pc l = TakeLoss hand → loss ≠ 0 →
  computes p0 (passes ++ [loss_pass loss]) (recover "engine_queue_overflow" (ResumeLoss hand) (l <| lo_losses ::= S |>)).
Proof.
  intros Hc Epc Hl. destruct (computes_ready _ _ _ Hc) as (k & Hrun); [by rewrite Epc|].
  unfold computes, rest_of, future, recover. simpl. exists k, 0%nat. split; [lia|]. intros fuel stop Hf Hs.
  by rewrite (run_publisher_snoc _ _ _ _ _ _ (Hrun _ _ Hf Hs)), run_loss_pass, Nat.sub_0_r.
Qed.

Lemma computes_attempt c p0 passes l l' reason announced delay resume :
  computes p0 passes l → lo_pc l = Attempt reason announced delay resume → thread_step spin_duration c l = Some l' →
  computes p0 passes l' ∧ lo_handled l' = lo_handled l.
Proof.
  intros Hc Epc Hstep. unfold thread_step in Hstep. rewrite Epc in Hstep. unfold computes, rest_of in Hc. rewrite Epc in Hc.
  destruct Hc as (k & j & Hj & Hc). assert (Hm : Mono (attempt reason announced)) by solve_mono.
  specialize (Hm (lo_publisher l)). apply lt_tick in Hm.
  assert (Hround : ∀ fuel stop, (S k ≤ fuel)%nat → future stop l →
    @run_publisher (stopping E stop) fuel passes p0 =
      @recover_loop (stopping E stop) (S (fuel - S j)) reason announced delay (lo_publisher l)).
  { intros fuel stop Hf Hs. rewrite Hc by (done || lia). f_equal. lia. }
  destruct (attempt reason announced (lo_publisher l)) as [[[[] a]|e|] p] eqn:Ea; simpl in Hm; try done;
    injection Hstep as <-; (split; [|done]); unfold computes, rest_of, future; simpl.
  - destruct resume as [hand| |]; simpl; exists (S k), (S j); (split; [lia|]); intros fuel stop Hf Hs;
      (rewrite Hround; [by rewrite recover_round, Ea|done|]); intros t Ht; specialize (Hs t Ht); lia.
  - exists (S k), (S j). split; [lia|]. intros fuel stop Hf Hs. rewrite Hround; [by rewrite recover_round, Ea|done|].
    intros t Ht. specialize (Hs t Ht). lia.
Qed.

Lemma computes_backoff c p0 passes l l' reason announced delay resume :
  computes p0 passes l → lo_pc l = Backoff reason announced delay resume → thread_step spin_duration c l = Some l' →
  computes p0 passes l' ∧ lo_handled l' = lo_handled l.
Proof.
  intros Hc Epc Hstep. unfold thread_step in Hstep. rewrite Epc, requested_signalled in Hstep.
  unfold computes, rest_of in Hc. rewrite Epc in Hc. destruct Hc as (k & j & Hj & Hc).
  injection Hstep as <-. split; [|done]. unfold computes, rest_of, future. simpl. destruct (recv_ready _).
  - exists (Some (pb_tick (lo_publisher l))), k, false. intros fuel Hf. rewrite Hc; [|done|by intros t [= <-]].
    by rewrite bool_decide_true.
  - exists k, j. split; [done|]. intros fuel stop Hf Hs. rewrite Hc; [|done|by intros t Ht; specialize (Hs t Ht); lia].
    rewrite bool_decide_false; [done|]. intros Ht. specialize (Hs _ Ht). lia.
Qed.

(** Every step keeps a list of passes that explains the state. *)
Lemma thread_step_computes c p0 passes l l' :
  computes p0 passes l → events_of passes = lo_handled l → thread_step spin_duration c l = Some l' →
  ∃ passes', computes p0 passes' l' ∧ events_of passes' = lo_handled l'.
Proof.
  intros Hc He Hstep.
  assert (Hgo : lo_publisher l' = lo_publisher l → lo_handled l' = lo_handled l →
    (match lo_pc l with Attempt _ _ _ _ | Backoff _ _ _ _ | Exited => False | _ => True end) →
    (match lo_pc l' with Attempt _ _ _ _ | Backoff _ _ _ _ => False | _ => True end) →
    ∃ passes', computes p0 passes' l' ∧ events_of passes' = lo_handled l').
  { intros Ep Eh Hl Hl'. exists passes. split; [by eapply computes_goto|by rewrite Eh]. }
  assert (Htick : (match lo_pc l with Attempt _ _ _ _ | Backoff _ _ _ _ | Exited => False | _ => True end) → ∀ resume,
    call maintain "candidate_maintenance_error" resume (l <| lo_tick := false |>) = Some l' →
    ∃ passes', computes p0 passes' l' ∧ events_of passes' = lo_handled l').
  { intros Hl resume Hcall. exists (passes ++ [tick_pass]). split.
    - eapply (computes_call (λ env, @maintain env)); [done|done|solve_mono|done|apply run_tick_pass| |exact Hcall]; done.
    - apply call_outcome in Hcall as (p & pc & -> & _). simpl. rewrite <- He. unfold events_of.
      by rewrite omap_app, app_nil_r. }
  destruct (lo_pc l) eqn:Epc;
    try (destruct (computes_attempt _ _ _ _ _ _ _ _ _ Hc Epc Hstep) as [? Eh]; exists passes; by rewrite Eh);
    try (destruct (computes_backoff _ _ _ _ _ _ _ _ _ Hc Epc Hstep) as [? Eh]; exists passes; by rewrite Eh);
    unfold thread_step in Hstep; rewrite Epc in Hstep; rewrite ?requested_signalled in Hstep; try done.
  all: try (repeat case_match; simplify_eq/=; by apply Hgo; simpl; repeat case_match).
  all: try (destruct (try_recv _) as [r ch]; injection Hstep as <-; apply Hgo; try done; by apply receive_goto).
  - destruct (N.eqb_spec (cc_loss c) 0); injection Hstep as <-; [apply Hgo; by destruct hand|].
    exists (passes ++ [loss_pass (cc_loss c)]). split; [by apply computes_loss|].
    unfold events_of. by rewrite omap_app, app_nil_r.
  - destruct (lo_tick l); [by eapply Htick|injection Hstep as <-; by apply Hgo].
  - destruct (cc_arm c).
    + destruct (try_recv _), (recv_ready _); [injection Hstep as <-; by apply Hgo|done].
    + destruct (lo_loss l); [injection Hstep as <-; by apply Hgo|done].
    + destruct (lo_tick l); [by eapply Htick|done].
    + destruct (try_recv _), (recv_ready _); [injection Hstep as <-; apply Hgo; try done; by apply receive_goto|done].
    + destruct (try_recv _), (recv_ready _); [injection Hstep as <-; apply Hgo; try done; by apply receive_goto|done].
  - exists (passes ++ [event_pass event]). split.
    + destruct event as [event|event].
      * eapply (computes_call (λ env, @handle env event)); [done|by rewrite Epc|solve_mono|done|done| |exact Hstep]; done.
      * eapply (computes_call (λ env, @handle_control env event)); [done|by rewrite Epc|solve_mono|done|done| |exact Hstep]; done.
    + unfold events_of. rewrite omap_app. fold (events_of passes). rewrite He.
      destruct event; apply call_outcome in Hstep as (p & pc & -> & _); done.
Qed.

Lemma loop_step_computes a p0 passes l l' :
  computes p0 passes l → events_of passes = lo_handled l → loop_step spin_duration a l = Some l' →
  ∃ passes', computes p0 passes' l' ∧ events_of passes' = lo_handled l'.
Proof.
  intros Hc He. destruct a; simpl; [by eapply thread_step_computes|..]; intros [= <-]; by exists passes.
Qed.

Lemma loop_run_computes actions p0 : ∀ passes l l',
  computes p0 passes l → events_of passes = lo_handled l → loop_run spin_duration actions l = Some l' →
  ∃ passes', computes p0 passes' l' ∧ events_of passes' = lo_handled l'.
Proof.
  induction actions as [|a actions IH]; intros passes l l' Hc He; simpl; [intros [= <-]; by exists passes|].
  destruct (loop_step _ a l) as [l1|] eqn:E1; [|done]. simpl.
  destruct (loop_step_computes _ _ _ _ _ Hc He E1) as (passes1 & Hc1 & He1). by apply (IH passes1).
Qed.

(** ** Data events are handled in the order they were sent *)

(** [lost] is the event in hand when the thread stopped. *)
Definition in_order (sent : list FeedEvent) (l : Loop) : Prop :=
  ∃ lost, sent = data_of (lo_handled l ++ lost) ++ ch_queue (lo_data l) ∧ (length lost ≤ 1)%nat ∧
    (lo_pc l ≠ Exited → lost = hand_of (lo_pc l)).

Lemma hand_short pc : (length (hand_of pc) ≤ 1)%nat.
Proof. destruct pc as [|[]| | | | | | | | | | |? ? ? [[]| |]|? ? ? [[]| |]|]; simpl; lia. Qed.

Lemma data_of_app events events' : data_of (events ++ events') = data_of events ++ data_of events'.
Proof. apply omap_app. Qed.

(** A step that handles nothing: the hand and the queue together keep their data events. *)
Lemma in_order_keep sent l l' :
  in_order sent l → lo_pc l ≠ Exited → lo_handled l' = lo_handled l →
  data_of (hand_of (lo_pc l')) ++ ch_queue (lo_data l') = data_of (hand_of (lo_pc l)) ++ ch_queue (lo_data l) →
  in_order sent l'.
Proof.
  intros (lost & Hs & Hl & Hh) Hne Eh Eq. specialize (Hh Hne) as ->. exists (hand_of (lo_pc l')).
  split_and!; [|apply hand_short|done]. by rewrite Hs, !data_of_app, Eh, <- !app_assoc, Eq.
Qed.

(** A step that exits: what was in hand is lost. *)
Lemma in_order_exit sent l l' :
  in_order sent l → lo_handled l' = lo_handled l → lo_data l' = lo_data l → lo_pc l' = Exited → in_order sent l'.
Proof. intros (lost & Hs & Hl & _) Eh Ed Epc. exists lost. rewrite Eh, Ed. by split_and!. Qed.

Lemma call_in_order {A} (m : P A) reason resume sent l l' :
  call m reason resume l = Some l' → resume_events resume = 0%nat ∨ resume = ResumeEvents →
  sent = data_of (lo_handled l) ++ ch_queue (lo_data l) → in_order sent l'.
Proof.
  intros (p & pc & -> & Hpc)%call_outcome Hr Hs. exists []. simpl. rewrite app_nil_r. split_and!; [done|lia|]. intros _.
  destruct Hpc as [->|(b & d & ->)], resume as [hand| |]; try done; naive_solver.
Qed.

Lemma receive_in_order {A} (f : A → PublisherEvent) (c : Channel A) r c' empty :
  try_recv c = (r, c') → hand_of empty = [] →
  (∃ a, r = Received a ∧ ch_queue c = a :: ch_queue c' ∧ hand_of (receive f r empty) = [f a]) ∨
  c' = c ∧ ch_queue c = [] ∧ hand_of (receive f r empty) = [].
Proof.
  intros Er He. pose proof (try_recv_spec c) as Hs. rewrite Er in Hs.
  destruct r; [left; by eexists; split_and!; [|apply Hs|]|right; by split_and!; try apply Hs..].
Qed.

Lemma thread_step_in_order c sent l l' :
  in_order sent l → thread_step spin_duration c l = Some l' → in_order sent l'.
Proof.
  intros Hin Hstep. unfold thread_step in Hstep. rewrite requested_signalled in Hstep.
  assert (Hempty : lo_pc l ≠ Exited → hand_of (lo_pc l) = [] → sent = data_of (lo_handled l) ++ ch_queue (lo_data l)).
  { destruct Hin as (lost & Hs & _ & Hh). intros Hne Eh. by rewrite (Hh Hne), Eh, app_nil_r in Hs. }
  assert (Hcontrol : ∀ r c' empty, try_recv (lo_control l) = (r, c') → lo_pc l ≠ Exited → hand_of (lo_pc l) = [] →
    hand_of empty = [] → in_order sent (goto (receive Control r empty) (l <| lo_control := c' |>))).
  { intros r c' empty Er Hne Hh He. eapply in_order_keep; [done|done|done|]. simpl. rewrite Hh. f_equal.
    by destruct (receive_in_order Control _ _ _ empty Er He) as [(a & _ & _ & ->)|(_ & _ & ->)]. }
  assert (Hdata : ∀ r c' empty, try_recv (lo_data l) = (r, c') → lo_pc l ≠ Exited → hand_of (lo_pc l) = [] →
    hand_of empty = [] → in_order sent (goto (receive Data r empty) (l <| lo_data := c' |>))).
  { intros r c' empty Er Hne Hh He. eapply in_order_keep; [done|done|done|]. simpl. rewrite Hh.
    destruct (receive_in_order Data _ _ _ empty Er He) as [(a & _ & -> & ->)|(-> & _ & ->)]; done. }
  destruct (try_recv (lo_control l)) as [rc cc]. destruct (try_recv (lo_data l)) as [rd cd].
  destruct (lo_pc l) eqn:Epc; try done; try (injection Hstep as <-; (by apply Hcontrol) || (by apply Hdata)).
  all: try (repeat case_match; simplify_eq; eapply in_order_keep; try exact Hin; by rewrite ?Epc).
  - destruct (lo_tick l); [eapply call_in_order; [exact Hstep|by right|by apply Hempty]|].
    injection Hstep as <-. eapply in_order_keep; [exact Hin|..]; by rewrite ?Epc.
  - destruct (cc_arm c).
    + destruct (try_recv (lo_shutdown l)), (recv_ready (lo_shutdown l)); [injection Hstep as <-|done]. by eapply in_order_exit.
    + destruct (lo_loss l); [injection Hstep as <-|done]. eapply in_order_keep; [exact Hin|..]; by rewrite ?Epc.
    + destruct (lo_tick l); [eapply call_in_order; [exact Hstep|by left|by apply Hempty]|done].
    + destruct (recv_ready (lo_control l)); [injection Hstep as <-; by apply Hcontrol|done].
    + destruct (recv_ready (lo_data l)); [injection Hstep as <-; by apply Hdata|done].
  - destruct Hin as (lost & Hs & _ & Hh). rewrite Epc in Hh. specialize (Hh ltac:(done)) as ->.
    destruct event; (eapply call_in_order; [exact Hstep|by left|by simpl]).
  - destruct (attempt _ _ _) as [[[recovered a]|e|] p]; try done. injection Hstep as <-.
    eapply in_order_keep; [exact Hin|by rewrite Epc|done|]. rewrite Epc. f_equal. f_equal.
    destruct recovered; by destruct resume as [[]| |].
  - injection Hstep as <-. destruct (recv_ready _); [by eapply in_order_exit|].
    eapply in_order_keep; [exact Hin|by rewrite Epc|done|by rewrite Epc].
Qed.

Lemma loop_step_in_order a sent l l' :
  in_order sent l → loop_step spin_duration a l = Some l' → in_order (sent ++ sent_data [a]) l'.
Proof.
  intros Hin. destruct a; simpl; [intros Hs; rewrite app_nil_r; by eapply thread_step_in_order|..]; intros [= <-];
    rewrite ?app_nil_r; try done.
  destruct Hin as (lost & -> & Hl & Hh). exists lost. split_and!; try done. simpl. by rewrite <- app_assoc.
Qed.

Lemma loop_run_in_order actions : ∀ sent l l',
  in_order sent l → loop_run spin_duration actions l = Some l' → in_order (sent ++ sent_data actions) l'.
Proof.
  induction actions as [|a actions IH]; intros sent l l' Hin; simpl; [intros [= <-]; by rewrite app_nil_r|].
  destruct (loop_step _ a l) as [l1|] eqn:E1; [|done]. simpl. intros Hrun. apply (loop_step_in_order _ _ _ _ Hin) in E1.
  eapply IH in Hrun; [|exact E1]. rewrite <- app_assoc in Hrun. unfold sent_data in *. by rewrite <- omap_app in Hrun.
Qed.

(** ** Control requests are not starved *)

(** How many events are handled before the next look at the control channel. *)
Definition ahead (pc : LoopPc) : nat :=
  match pc with
  | Top | TakeLoss None | Tick | TryControl | SpinControl | Exited => 0
  | Attempt _ _ _ r | Backoff _ _ _ r => match r with ResumeLoss (Some _) => 1 | _ => 0 end
  | _ => 1
  end.

Lemma thread_step_ahead c l l' :
  thread_step spin_duration c l = Some l' →
  (length (ch_queue (lo_control l')) ≤ length (ch_queue (lo_control l)))%nat ∧
  (ch_queue (lo_control l') ≠ [] → length (ch_queue (lo_control l')) = length (ch_queue (lo_control l)) →
   (length (lo_handled l') + ahead (lo_pc l') ≤ length (lo_handled l) + ahead (lo_pc l))%nat).
Proof.
  intros Hstep. unfold thread_step in Hstep. rewrite requested_signalled in Hstep.
  pose proof (try_recv_spec (lo_control l)) as Hc.
  destruct (try_recv (lo_control l)) as [rc cc]. destruct (try_recv (lo_data l)) as [rd cd].
  assert (Hcall : ∀ A (m : P A) reason resume l1, call m reason resume l1 = Some l' →
    lo_control l1 = lo_control l → resume = ResumeTop ∨ resume = ResumeEvents →
    (length (lo_handled l1) ≤ length (lo_handled l) + ahead (lo_pc l))%nat →
    (length (ch_queue (lo_control l')) ≤ length (ch_queue (lo_control l)))%nat ∧
    (ch_queue (lo_control l') ≠ [] → length (ch_queue (lo_control l')) = length (ch_queue (lo_control l)) →
     (length (lo_handled l') + ahead (lo_pc l') ≤ length (lo_handled l) + ahead (lo_pc l))%nat)).
  { intros A m reason resume l1 (p & pc & -> & Hpc)%call_outcome Ec Hr Hh. simpl. rewrite Ec. split; [done|]. intros _ _.
    destruct Hpc as [->|(b & d & ->)], Hr as [->| ->]; simpl; lia. }
  assert (Hreceive : ∀ empty l1, l' = goto (receive Control rc empty) l1 → lo_control l1 = cc →
    (length (ch_queue (lo_control l')) ≤ length (ch_queue (lo_control l)))%nat ∧
    (ch_queue (lo_control l') ≠ [] → length (ch_queue (lo_control l')) = length (ch_queue (lo_control l)) →
     (length (lo_handled l') + ahead (lo_pc l') ≤ length (lo_handled l) + ahead (lo_pc l))%nat)).
  { intros empty l1 -> E1. simpl. rewrite E1. destruct rc as [a| |]; [destruct Hc as [-> _]|destruct Hc as [-> ->]..]; simpl;
      (split; [lia|]); try done. intros _ Eq. lia. }
  destruct (lo_pc l) eqn:Epc; try done; try (injection Hstep as <-; by eapply Hreceive).
  all: try (clear Hc Hcall Hreceive; repeat case_match; simplify_eq/=; unfold receive; repeat case_match; simplify_eq/=;
    (split; [lia|intros _ _; lia])).
  - destruct (lo_tick l); [eapply Hcall; [exact Hstep|done|by right|simpl; lia]|].
    injection Hstep as <-. split; [simpl; lia|intros _ _; simpl; lia].
  - destruct (cc_arm c).
    + destruct (try_recv _), (recv_ready _); [injection Hstep as <-|done]. split; [simpl; lia|intros _ _; simpl; lia].
    + destruct (lo_loss l); [injection Hstep as <-|done]. split; [simpl; lia|intros _ _; simpl; lia].
    + destruct (lo_tick l); [eapply Hcall; [exact Hstep|done|by left|simpl; lia]|done].
    + destruct (recv_ready _); [injection Hstep as <-; by eapply Hreceive|done].
    + destruct (recv_ready _); [injection Hstep as <-|done]. split; [simpl; lia|]. intros _ _. by destruct rd; simpl; lia.
  - destruct event; (eapply Hcall; [exact Hstep|done|by left|]); simpl; rewrite length_app; simpl; lia.
Qed.

Definition requests_nothing (a : LoopAction) : Prop := match a with SendControl _ => False | _ => True end.

Lemma loop_run_ahead actions : ∀ l l',
  Forall requests_nothing actions → loop_run spin_duration actions l = Some l' →
  (length (ch_queue (lo_control l')) ≤ length (ch_queue (lo_control l)))%nat ∧
  (ch_queue (lo_control l') ≠ [] → length (ch_queue (lo_control l')) = length (ch_queue (lo_control l)) →
   (length (lo_handled l') + ahead (lo_pc l') ≤ length (lo_handled l) + ahead (lo_pc l))%nat).
Proof.
  induction actions as [|a actions IH]; intros l l' Ha; simpl; [by intros [= <-]|].
  apply Forall_cons in Ha as [Ha Has]. destruct (loop_step _ a l) as [l1|] eqn:E1; [|done]. simpl. intros Hrun.
  destruct (IH _ _ Has Hrun) as [Hle Hwait].
  assert (H1 : (length (ch_queue (lo_control l1)) ≤ length (ch_queue (lo_control l)))%nat ∧
    (ch_queue (lo_control l1) ≠ [] → length (ch_queue (lo_control l1)) = length (ch_queue (lo_control l)) →
     (length (lo_handled l1) + ahead (lo_pc l1) ≤ length (lo_handled l) + ahead (lo_pc l))%nat)).
  { destruct a; try done; simpl in E1; [by eapply thread_step_ahead|injection E1 as <-; done..]. }
  destruct H1 as [Hle1 Hwait1]. split; [lia|]. intros Hne Hlen. etrans; [apply Hwait; [done|lia]|].
  apply Hwait1; [|lia]. intros E0. rewrite E0 in Hle. destruct (ch_queue (lo_control l')); simpl in *; [done|lia].
Qed.

(** C8: The thread's loop, with its channels, its spinning and its [select!], computes exactly what
    [run_publisher] computes: at every state of every interleaving there is a list of passes whose
    events are the events handled so far, and running them from the same start gives the thread's
    publisher, with the rest of the recovery it is in still to come.  Data events are handled in the
    order they were sent, none twice and none skipped, except that the one in hand when the thread
    stops is lost. *)
Theorem loop_refines_passes p0 actions l :
  loop_run spin_duration actions (loop_start p0) = Some l →
  (∃ passes, events_of passes = lo_handled l ∧ computes p0 passes l) ∧
  ∃ lost, sent_data actions = data_of (lo_handled l) ++ data_of lost ++ ch_queue (lo_data l) ∧
    (length lost ≤ 1)%nat ∧ (lo_pc l ≠ Exited → lost = hand_of (lo_pc l)).
Proof.
  intros Hrun. split.
  - assert (Hc : computes p0 [] (loop_start p0)) by (by exists 0%nat, 0%nat).
    destruct (loop_run_computes actions p0 [] _ _ Hc eq_refl Hrun) as (passes & Hc' & He). by exists passes.
  - apply (loop_run_in_order actions [] (loop_start p0)) in Hrun; [|exists []; by split_and!; [|simpl; lia|]].
    destruct Hrun as (lost & Hs & Hl & Hh). exists lost. split_and!; [|done|done].
    simpl in Hs. by rewrite Hs, data_of_app, app_assoc.
Qed.

(** C14: A configuration request is not starved by engine traffic: while it waits in the control
    channel, whatever arrives on the other channels, at most one further event is handled. *)
Theorem requests_not_starved actions l l' event :
  ch_queue (lo_control l) = [event] → ch_queue (lo_control l') = [event] →
  Forall requests_nothing actions → loop_run spin_duration actions l = Some l' →
  (length (lo_handled l') ≤ length (lo_handled l) + 1)%nat.
Proof.
  intros El El' Ha Hrun. destruct (loop_run_ahead _ _ _ Ha Hrun) as [_ Hw]. rewrite El, El' in Hw.
  specialize (Hw ltac:(done) eq_refl). assert (ahead (lo_pc l) ≤ 1)%nat; [|lia].
  destruct (lo_pc l) as [|[]| | | | | | | | | | |? ? ? [[]| |]|? ? ? [[]| |]|]; simpl; lia.
Qed.
End refinement.

(** C13: Shutting down is prompt.  From the moment the signal is in its channel (or the handle is
    dropped), whatever the other threads keep sending, the thread handles at most one more event and
    takes at most twelve more steps, plus two for every overflow it still recovers from; and until it
    has exited it is never blocked. *)
Theorem shutdown_prompt `{Env} `{!ProstLaws} spin cfg boot chain genesis started ws p0 before l actions l' :
  watch_set_wf ws → start_service cfg boot chain genesis started ws = Ok p0 →
  Forall (sends_ok (event_ok (service_params p0))) (before ++ actions) →
  loop_run spin before (loop_start p0) = Some l → signalled l →
  loop_run spin actions l = Some l' → within (after_call l') →
  (thread_steps actions ≤ 12 + 2 * (lo_losses l' - lo_losses l))%nat ∧
  (length (lo_handled l') ≤ length (lo_handled l) + 1)%nat ∧
  (lo_pc l' = Exited ∨ ∃ c, is_Some (thread_step spin c l')).
Proof.
  intros Hws Hstart [Hb Ha]%Forall_app Hbefore Hs Hrun Hw.
  destruct (loop_run_winding spin actions l l' (or_intror Hs) Hrun) as (Hs' & H1 & H2 & H3).
  assert (Hrank : (rank (lo_pc l) ≤ 12 ∧ events_left (lo_pc l) ≤ 1)%nat).
  { destruct (lo_pc l) as [|[]| | | | | | | | | | |? ? ? [[]| |]|? ? ? [[]| |]|]; simpl; lia. }
  split_and!; [lia|lia|].
  destruct (start_service_idle _ _ _ _ _ _ _ Hws Hstart) as (_ & Hcaps & _).
  assert (Hok : loop_run spin (before ++ actions) (loop_start p0) = Some l').
  { rewrite loop_run_app, Hbefore. done. }
  apply (protocol_reachable spin _ _ _ _ _ _ _ _ _ Hws Hstart) in Hok; [|by apply Forall_app].
  destruct (thread_progress spin _ _ _ l' Hcaps Hok Hw) as [?|[(Hpc & Hsl & _)|?]]; auto.
  left. destruct Hs' as [?|Hs']; [done|]. unfold signalled in Hs'. congruence.
Qed.

(** ** Witnesses *)

Definition step0 : LoopAction := Step (mkChoice 0 0 ArmData).

(** Two events are sent; the first is being handled when the signal comes. *)
Definition sample_events : list FeedEvent :=
  [Executed 20 1 (sample_block 6 60 50) (@extract_changes in_key_order sample_watch_set sample_write); Validated 21 1 60].
Definition sample_actions : list LoopAction := (SendData <$> sample_events) ++ replicate 5 step0 ++ [SendShutdown].
Definition sample_after : list LoopAction := [step0; step0; step0].

Definition sample_loop (actions : list LoopAction) : Loop :=
  default (loop_start sample_publisher) (@loop_run sample_env 0 actions (loop_start sample_publisher)).

Lemma sample_actions_ok : Forall (sends_ok (event_ok (service_params sample_publisher))) (sample_actions ++ sample_after).
Proof. repeat constructor. Qed.

Lemma shutdown_prompt_witness :
  lo_pc (sample_loop (sample_actions ++ sample_after)) = Exited ∧
  (length (lo_handled (sample_loop (sample_actions ++ sample_after))) ≤ length (lo_handled (sample_loop sample_actions)) + 1)%nat.
Proof.
  split; [vm_compute; reflexivity|].
  refine (proj1 (proj2 (@shutdown_prompt sample_env sample_laws 0 sample_stream sample_boot 1 0 0 sample_watch_set sample_publisher
    sample_actions (sample_loop sample_actions) sample_after (sample_loop (sample_actions ++ sample_after))
    sample_watch_wf sample_started sample_actions_ok _ _ _ _))); vm_compute; reflexivity || discriminate.
Defined.

Lemma loop_refines_passes_witness :
  ∃ passes, events_of passes = [Data (Executed 20 1 (sample_block 6 60 50)
      (@extract_changes in_key_order sample_watch_set sample_write))] ∧
    @computes sample_env sample_publisher passes (sample_loop (sample_actions ++ sample_after)).
Proof.
  destruct (proj1 (@loop_refines_passes sample_env 0 sample_publisher (sample_actions ++ sample_after)
    (sample_loop (sample_actions ++ sample_after)) ltac:(vm_compute; reflexivity))) as (passes & He & Hc).
  exists passes. split; [rewrite He; vm_compute; reflexivity|exact Hc].
Defined.

(** A request arrives while the thread sleeps; [select!] picks the data event that is ready too. *)
Definition starved_loop : Loop :=
  sample_loop (replicate 6 step0 ++ (SendData <$> sample_events) ++ [SendControl (ActivateConfig sample_watch_set)]).

Lemma requests_not_starved_witness :
  ∃ l', @loop_run sample_env 0 [step0; step0; step0; step0] starved_loop = Some l' ∧
    (length (lo_handled l') ≤ length (lo_handled starved_loop) + 1)%nat.
Proof.
  eexists. split; [vm_compute; reflexivity|].
  apply (@requests_not_starved sample_env 0 [step0; step0; step0; step0] starved_loop _ (ActivateConfig sample_watch_set));
    [vm_compute; reflexivity|reflexivity|repeat constructor|vm_compute; reflexivity].
Defined.
