(* ===== verification/MetricsInv.v ===== *)
(** * What the metrics say

    The counters are those of the frames broadcast at every moment.  The gauges
    of the candidate cache and of the configuration are the sizes of the cache
    and the active generation whenever the thread is not recovering: every
    handler that changes the cache refreshes them before it returns. *)

From S2P Require Import Prelude Bytes Config Watch Feed Wire Client Consumer Stream Projection Cache CacheInv Metrics Publisher Sample PublisherInv Service Fidelity Loop.
From stdpp Require Import list.
Local Open Scope N_scope.

Definition metrics (p : Publisher) : PublisherMetrics := sh_metrics (pb_shared p).

Definition cache_gauges (p : Publisher) : Prop :=
  candidates_cached (metrics p) = metadata_len (pb_cache p) ∧
  candidate_projections_cached (metrics p) = projection_count (pb_cache p).
Definition config_gauge (p : Publisher) : Prop := config_generation (metrics p) = active_generation p.

Lemma record_frame_gauges envelope frame m :
  let m' := record_frame envelope frame m in
  candidates_cached m' = candidates_cached m ∧
  candidate_projections_cached m' = candidate_projections_cached m ∧ config_generation m' = config_generation m.
Proof.
  cbv zeta. unfold record_frame. destruct (wire.event envelope) as [e|]; [|done]. destruct e; try done.
  simpl. destruct (wire.stage_try_from _) as [[]|]; done.
Qed.

(** ** The active generation *)

(** The producer's watch set, the generation and its gauge stay. *)
Definition quiet (p p' : Publisher) : Prop :=
  config_generation (metrics p') = config_generation (metrics p) ∧
  active_generation p' = active_generation p ∧ pb_active p' = pb_active p.

#[export] Instance quiet_preorder : PreOrder quiet.
Proof. split; [done|]. intros p1 p2 p3 (? & ? & ?) (? & ? & ?). split_and!; congruence. Qed.

Abbreviation Quiet := (Along quiet).
Create HintDb quiet discriminated.
#[export] Hint Constants Opaque : quiet.
#[export] Hint Resolve along_ret along_throw along_diverge along_gets along_lift along_returning quiet_preorder : quiet.

Lemma quiet_gauge p p' : quiet p p' → config_gauge p → config_gauge p'.
Proof. unfold config_gauge. by intros (-> & -> & _). Qed.

Ltac solve_quiet :=
  intros; cbv beta zeta;
  lazymatch goal with
  | |- Quiet (mbind _ _) => apply (along_bind _); solve_quiet
  | |- Quiet (catch _ _) => apply (along_catch _); solve_quiet
  | |- Quiet (modify _) => intros ?; by split
  | |- Quiet (on_metrics _) => intros ?; by split
  | |- Quiet (match ?x with _ => _ end) => destruct x; solve_quiet
  | |- Quiet _ => solve [eauto with quiet nocore]
  end.

Section quiet_ops.
Context `{Env}.

Lemma quiet_tick p : quiet p (p <| pb_tick ::= S |>).
Proof. done. Qed.
Lemma quiet_now : Quiet now.
Proof. exact quiet_tick. Qed.
Lemma quiet_load_at ws h : Quiet (call_load_at ws h).
Proof. exact quiet_tick. Qed.
Lemma quiet_on_cache {A} (m : M Cache Error A) : Quiet (on_cache m).
Proof. intros p. unfold on_cache. by destruct (m (pb_cache p)). Qed.
Lemma quiet_metric : Quiet update_candidate_metric.
Proof. intros p. by split. Qed.
#[local] Hint Resolve quiet_now quiet_load_at quiet_on_cache quiet_metric : quiet.

(** A frame with the handshake state of the same generation, or none. *)
Lemma quiet_publish_inner g event next p :
  (∀ canonical f r, next = Some (canonical, f, r) → ws_generation (pj_watch_set canonical) = active_generation p) →
  quiet p (publish_inner g event next p).2.
Proof.
  intros Hn. rewrite publish_inner_eq. destruct (encode_frame _ _) as [frame|e|]; [|done..]. simpl. split_and!; [| |done].
  - exact (proj2 (proj2 (record_frame_gauges (next_envelope p g event) frame (metrics p)))).
  - unfold active_generation, canonical_projection, published. simpl. destruct next as [[[pj f] r]|]; [by eapply Hn|done].
Qed.
Lemma quiet_publish g e : Quiet (publish g e).
Proof. intros p. by apply quiet_publish_inner. Qed.
#[local] Hint Resolve quiet_publish : quiet.
Lemma quiet_publish_batches g r bs : Quiet (publish_batches g r bs).
Proof. induction bs; cbn [publish_batches]; solve_quiet. Qed.
#[local] Hint Resolve quiet_publish_batches : quiet.
Lemma quiet_publish_retired g hs r : Quiet (publish_retired g hs r).
Proof. unfold publish_retired. solve_quiet. Qed.
#[local] Hint Resolve quiet_publish_retired : quiet.
Lemma quiet_trim_projection g h : Quiet (trim_projection_cache g h).
Proof. unfold trim_projection_cache. solve_quiet. Qed.
Lemma quiet_trim_metadata g : Quiet (trim_metadata g).
Proof. unfold trim_metadata. solve_quiet. Qed.
#[local] Hint Resolve quiet_trim_projection quiet_trim_metadata : quiet.
Lemma quiet_insert_candidate pj s t f : Quiet (insert_candidate pj s t f).
Proof. unfold insert_candidate. solve_quiet. Qed.
Lemma quiet_insert_deferred b c : Quiet (insert_deferred_executed b c).
Proof. unfold insert_deferred_executed. solve_quiet. Qed.
Lemma quiet_finality g b : Quiet (process_finality_budget g b).
Proof. unfold process_finality_budget. solve_quiet. Qed.
Lemma quiet_remove_tree h t : Quiet (remove_tree h t).
Proof. unfold remove_tree. solve_quiet. Qed.
#[local] Hint Resolve quiet_insert_candidate quiet_insert_deferred quiet_finality quiet_remove_tree : quiet.
Lemma quiet_maintain : Quiet maintain.
Proof. unfold maintain. solve_quiet. Qed.
Lemma quiet_promote_with f g h : (∀ g b c s, Quiet (f g b c s)) → Quiet (promote_validated_with f g h).
Proof. intros Hf. unfold promote_validated_with. solve_quiet. Qed.
Lemma quiet_parent_values ws g b c s : Quiet (parent_values ws g b c s).
Proof. unfold parent_values. solve_quiet. Qed.
Lemma quiet_publish_candidate ws g b c s v : Quiet (publish_candidate ws g b c s v).
Proof. unfold publish_candidate. solve_quiet. Qed.
#[local] Hint Resolve quiet_promote_with quiet_parent_values quiet_publish_candidate : quiet.
Lemma quiet_project_aux d g b c s : Quiet (project_candidate_aux d g b c s).
Proof. revert g b c s. induction d as [|d IH]; intros; cbn [project_candidate_aux]; solve_quiet. Qed.
#[local] Hint Resolve quiet_project_aux : quiet.
Lemma quiet_project g b c s : Quiet (project_candidate g b c s).
Proof. unfold project_candidate. solve_quiet. Qed.
#[local] Hint Resolve quiet_project : quiet.
Lemma quiet_promote g h : Quiet (promote_validated g h).
Proof. unfold promote_validated. solve_quiet. Qed.
Lemma quiet_rejected g h r : Quiet (rejected g h r).
Proof. unfold rejected. solve_quiet. Qed.
Lemma quiet_canonical_source g a ws h : Quiet (canonical_source g a ws h).
Proof. unfold canonical_source. solve_quiet. Qed.

(** ** Handlers that replace the handshake state *)

Lemma wq_call {A B} (m : P A) (k : A → P B) p0 p :
  Quiet m → quiet p0 p → (∀ a p1, quiet p0 p1 → wp (k a) (λ _, quiet p0) p1) → wp (m ≫= k) (λ _, quiet p0) p.
Proof.
  intros Hm Hp Hk. apply wp_bind. specialize (Hm p). unfold wp at 1.
  destruct (m p) as [[a|e|] p1]; simpl in *; [apply Hk|..]; by etrans.
Qed.

Lemma wq_lift {A B} (o : outcome Error A) (k : A → P B) p0 p :
  quiet p0 p → (∀ a, o = Ok a → wp (k a) (λ _, quiet p0) p) → wp (lift o ≫= k) (λ _, quiet p0) p.
Proof. intros Hp Hk. apply wp_bind, wp_lift. destruct o; [by apply Hk|done..]. Qed.

Lemma wq_state {B} g event canonical f r (k : N → P B) p0 p :
  quiet p0 p → ws_generation (pj_watch_set canonical) = active_generation p0 →
  (∀ a p1, quiet p0 p1 → wp (k a) (λ _, quiet p0) p1) →
  wp (publish_state g event canonical f r ≫= k) (λ _, quiet p0) p.
Proof.
  intros Hp Hg Hk. apply wp_bind. assert (Hq : quiet p (publish_state g event canonical f r p).2).
  { apply quiet_publish_inner. intros c f' r' [= <- _ _]. by rewrite (proj1 (proj2 Hp)). }
  unfold wp at 1. destruct (publish_state _ _ _ _ _ p) as [[a|e|] p1]; simpl in *; [apply Hk|..]; by etrans.
Qed.

Lemma wq_along {A} (m : P A) : (∀ p, wp m (λ _, quiet p) p) → Quiet m.
Proof. done. Qed.

Lemma quiet_canonical g o n h : Quiet (canonical g o n h).
Proof.
  apply wq_along. intros p. unfold canonical. wp_steps. destruct (_ <? _); [done|]. wp_steps.
  destruct (_ <=? _); [done|]. wp_steps. destruct (_ =? _); [done|].
  apply wq_call; [apply quiet_canonical_source|done|]. intros pj p1 H1. apply wq_lift; [done|].
  intros [] [Hg _]%validate_projection_dictionary_Ok. destruct (_ || _); [done|]. apply wq_lift; [done|]. intros [] _.
  apply wq_lift; [done|]. intros bitmap _. wp_steps. apply wq_call; [solve_quiet|done|]. intros _ p2 H2.
  apply wq_state; [done|by rewrite Hg|]. intros seq p3 H3. apply wq_call; [solve_quiet|done|]. intros t p4 H4.
  wp_steps. exact H4.
Qed.

Lemma quiet_forkchoice g o a : Quiet (forkchoice_applied g o a).
Proof.
  apply wq_along. intros p. unfold forkchoice_applied. wp_steps. destruct (_ <? _); [done|]. wp_steps.
  destruct (_ <=? _); [done|]. wp_steps. apply wq_call; [|done|].
  { destruct (negb _); [|apply (along_ret _)]. apply (along_bind _); [apply quiet_canonical|intros; apply (along_ret _)]. }
  intros _ p1 H1. wp_steps. destruct (negb _); [done|]. cbv zeta. apply wq_lift; [done|]. intros [] _.
  apply wq_state; [done|exact (proj1 (proj2 H1))|]. intros seq p2 H2. wp_steps.
  match goal with |- wp ?m _ _ => assert (Hm : Quiet m) by solve_quiet end.
  specialize (Hm p2). unfold wp. by etrans.
Qed.

Lemma quiet_gap r : Quiet (announce_gap r).
Proof. apply wq_along. intros p. unfold announce_gap. wp_steps. apply wq_state; done. Qed.

Lemma quiet_install loaded : Quiet (install_anchor loaded).
Proof. unfold install_anchor. solve_quiet. Qed.

Lemma quiet_reanchor : Quiet reanchor.
Proof.
  apply wq_along. intros p. unfold reanchor. wp_steps. apply wp_bind. unfold wp at 1, call_load_latest. simpl.
  destruct (load_latest _ _) as [loaded|e]; [|done]. apply wp_bind, wp_ret. cbv beta iota.
  apply wq_lift; [done|]. intros [] _. cbv zeta. apply wq_lift; [done|].
  intros [] [Hg _]%validate_projection_dictionary_Ok. wp_step. apply wq_lift; [done|]. intros [] _.
  apply wq_call; [apply quiet_install|done|]. intros _ p1 H1. apply wq_state; [done|by rewrite Hg|]. done.
Qed.

Lemma quiet_handle e : Quiet (handle e).
Proof.
  pose proof quiet_project. pose proof quiet_promote. pose proof quiet_rejected. pose proof quiet_forkchoice.
  pose proof quiet_gap. pose proof quiet_reanchor. destruct e; cbn [handle]; solve_quiet.
Qed.

Lemma quiet_attempt r a : Quiet (attempt r a).
Proof. pose proof quiet_gap. pose proof quiet_reanchor. unfold attempt. solve_quiet. Qed.
End quiet_ops.

(** ** The cache's gauges *)

(** [m] returns with the gauges right if it was called with them right. *)
Definition Exact {A} (m : P A) : Prop := ∀ p a p', cache_gauges p → m p = (Ok a, p') → cache_gauges p'.

Create HintDb exact discriminated.
#[export] Hint Constants Opaque : exact.

Lemma exact_ret {A} (a : A) : Exact (mret a).
Proof. by intros p a' p' ? [= _ <-]. Qed.
Lemma exact_throw {A} e : Exact (throw (A := A) e).
Proof. by intros p a p' ? [=]. Qed.
Lemma exact_diverge {A} : Exact (diverge (A := A)).
Proof. by intros p a p' ? [=]. Qed.
Lemma exact_gets {A} (f : Publisher → A) : Exact (gets f).
Proof. by intros p a p' ? [= _ <-]. Qed.
Lemma exact_lift {A} (o : outcome Error A) : Exact (lift o).
Proof. by intros p a p' ? [= _ <-]. Qed.
Lemma exact_returning {A} (r : A + Error) : Exact (returning r).
Proof. destruct r; [apply exact_ret|apply exact_throw]. Qed.
Lemma exact_bind {A B} (m : P A) (k : A → P B) : Exact m → (∀ a, Exact (k a)) → Exact (m ≫= k).
Proof.
  intros Hm Hk p b p' Hp. unfold mbind, M_bind. destruct (m p) as [[a|e|] p1] eqn:E; [|done..].
  intros Hb. eapply Hk; [|exact Hb]. by eapply Hm.
Qed.
#[export] Hint Resolve exact_ret exact_throw exact_diverge exact_gets exact_lift exact_returning : exact.

(** [m] ends by refreshing the gauges: they are right whatever was done to the cache before. *)
Definition Refreshes {A} (m : P A) : Prop := ∀ p a p', m p = (Ok a, p') → cache_gauges p'.

Lemma refreshes_metric : Refreshes update_candidate_metric.
Proof. by intros p a p' [= _ <-]. Qed.
Lemma refreshes_bind {A B} (m : P A) (k : A → P B) : (∀ a, Refreshes (k a)) → Refreshes (m ≫= k).
Proof. intros Hk p b p'. unfold mbind, M_bind. destruct (m p) as [[a|e|] p1]; [apply Hk|done..]. Qed.
Lemma refreshes_ret {A B} (m : P A) (b : B) : Refreshes m → Refreshes (m ;; mret b).
Proof.
  intros Hm p c p'. unfold mbind, M_bind. destruct (m p) as [[a|e|] p1] eqn:E; [|done..]. intros [= _ <-]. by eapply Hm.
Qed.
Lemma refreshes_exact {A} (m : P A) : Refreshes m → Exact m.
Proof. intros Hm p a p' _. apply Hm. Qed.
Lemma exact_metric : Exact update_candidate_metric.
Proof. apply refreshes_exact, refreshes_metric. Qed.
#[export] Hint Resolve exact_metric : exact.

Ltac solve_refreshes := repeat (apply refreshes_bind; intros); apply refreshes_metric.

(** What leaves the gauges and the sizes as they are. *)
Lemma exact_same {A} (m : P A) :
  (∀ p, metrics (m p).2 = metrics p ∧ metadata_len (pb_cache (m p).2) = metadata_len (pb_cache p) ∧
     projection_count (pb_cache (m p).2) = projection_count (pb_cache p)) → Exact m.
Proof.
  intros Hs p a p' Hp E. specialize (Hs p). rewrite E in Hs. simpl in Hs. destruct Hs as (E1 & E2 & E3).
  unfold cache_gauges. by rewrite E1, E2, E3.
Qed.

Lemma exact_modify f :
  (∀ p, metrics (f p) = metrics p ∧ metadata_len (pb_cache (f p)) = metadata_len (pb_cache p) ∧
     projection_count (pb_cache (f p)) = projection_count (pb_cache p)) → Exact (modify f).
Proof. intros Hf. by apply exact_same. Qed.

Ltac solve_exact :=
  intros; cbv beta zeta;
  lazymatch goal with
  | |- Exact (mbind _ _) => apply exact_bind; solve_exact
  | |- Exact (modify _) => apply exact_modify; solve [done|by intros; split; [|simpl; auto with exact nocore]]
  | |- Exact (on_metrics _) => by intros ? ? ? ? [= _ <-]
  | |- Exact (match ?x with _ => _ end) => destruct x; solve_exact
  | |- Exact _ => solve [eauto with exact nocore]
  end.

Section exact_ops.
Context `{Env}.

Lemma exact_now : Exact now.
Proof. by apply exact_same. Qed.
Lemma exact_load_at ws h : Exact (call_load_at ws h).
Proof. by apply exact_same. Qed.
Lemma exact_load_latest ws : Exact (call_load_latest ws).
Proof. by apply exact_same. Qed.
Lemma exact_publish_inner g event next : Exact (publish_inner g event next).
Proof.
  intros p a p' [H1 H2]. rewrite publish_inner_eq. destruct (encode_frame _ _) as [frame|e|]; [|done..]. intros [= _ <-].
  destruct (record_frame_gauges (next_envelope p g event) frame (metrics p)) as (E1 & E2 & _).
  split; [by etrans; [exact E1|]|by etrans; [exact E2|]].
Qed.
Lemma exact_publish g e : Exact (publish g e).
Proof. apply exact_publish_inner. Qed.
Lemma exact_publish_state g e c f r : Exact (publish_state g e c f r).
Proof. apply exact_publish_inner. Qed.
#[local] Hint Resolve exact_now exact_load_at exact_load_latest exact_publish exact_publish_state : exact.
Lemma exact_publish_batches g r bs : Exact (publish_batches g r bs).
Proof. induction bs; cbn [publish_batches]; solve_exact. Qed.
#[local] Hint Resolve exact_publish_batches : exact.
Lemma exact_publish_retired g hs r : Exact (publish_retired g hs r).
Proof. unfold publish_retired. solve_exact. Qed.

#[local] Hint Resolve exact_publish_retired : exact.

Lemma exact_insert_candidate pj s t f : Exact (insert_candidate pj s t f).
Proof. apply refreshes_exact. unfold insert_candidate. cbv zeta. solve_refreshes. Qed.
Lemma exact_insert_deferred b c : Exact (insert_deferred_executed b c).
Proof.
  unfold insert_deferred_executed. apply exact_bind; [apply exact_gets|]. intros c0.
  case_decide; [apply exact_ret|]. case_decide; [apply exact_ret|]. apply refreshes_exact. solve_refreshes.
Qed.

(** Without a sweep the pass changes nothing. *)
Lemma exact_finality g b : Exact (process_finality_budget g b).
Proof.
  intros p work p' Hp. unfold process_finality_budget. destruct (finality_sweep (pb_cache p)) as [sweep|] eqn:E.
  - match goal with |- (mbind ?k _) p = _ → _ => assert (Hr : Refreshes (k (Some sweep))) end.
    { apply refreshes_bind. intros [work' retired]. apply refreshes_bind. intros _. apply refreshes_ret, refreshes_metric. }
    unfold mbind, M_bind, gets at 1. rewrite E. apply Hr.
  - assert (Hpass : finality_pass b (pb_cache p) = (Ok (0, []), pb_cache p)).
    { unfold finality_pass. cbv [mbind M_bind gets id]. by rewrite E. }
    cbv [mbind M_bind gets on_cache]. rewrite E, Hpass. simpl. intros [= _ <-]. exact Hp.
Qed.

Lemma exact_remove_tree h t : Exact (remove_tree h t).
Proof.
  intros p a p' Hp. unfold remove_tree. cbv [mbind M_bind gets].
  destruct (N.eqb_spec h (canonical_hash (pb_cache p))) as [->|].
  - assert (Hroot : remove_candidate_tree (canonical_hash (pb_cache p)) t (pb_cache p) = (Ok (), pb_cache p)).
    { unfold remove_candidate_tree. cbv [mbind M_bind gets id]. by rewrite N.eqb_refl. }
    unfold on_cache. rewrite Hroot. intros [= _ <-]. exact Hp.
  - destruct (on_cache _ p) as [[[]|e|] p1]; [apply refreshes_metric|done..].
Qed.
#[local] Hint Resolve exact_insert_candidate exact_insert_deferred exact_finality exact_remove_tree : exact.

Lemma exact_maintain : Exact maintain.
Proof. apply refreshes_exact. unfold maintain. solve_refreshes. Qed.

(** Records that are there already are updated in place. *)
Lemma update_entry_sizes h e e' c :
  candidates c !! h = Some e →
  metadata_len (c <| candidates ::= insert h e' |>) = metadata_len c.
Proof. intros He. unfold metadata_len. simpl. by rewrite map_size_insert_Some. Qed.

Lemma update_deferred_sizes h d d' c :
  deferred_executed c !! h = Some d →
  metadata_len (c <| deferred_executed ::= insert h d' |>) = metadata_len c.
Proof. intros Hd. unfold metadata_len. simpl. by rewrite map_size_insert_Some. Qed.

Lemma exact_promote_with f g h : (∀ g b c s, Exact (f g b c s)) → Exact (promote_validated_with f g h).
Proof.
  intros Hf p a p' Hp. unfold promote_validated_with. cbv [mbind M_bind gets].
  destruct (_ <? _); [by intros [= _ <-]|]. destruct (_ <? _); [done|].
  destruct (candidates (pb_cache p) !! h) as [e|] eqn:E; cbv zeta.
  - case_decide; [by intros [= _ <-]|]. destruct (ce_projection e) as [pj|].
    + destruct (negb _); [by intros [= _ <-]|]. destruct (publish _ _ p) as [[seq|er|] p1] eqn:Ep; [|done..].
      pose proof (exact_publish _ _ _ _ _ Hp Ep) as [H1 H2].
      assert (Ec : pb_cache p1 = pb_cache p).
      { revert Ep. unfold publish. rewrite publish_inner_eq. by destruct (encode_frame _ _); intros [= _ <-]. }
      rewrite <- Ec in E. intros [= _ <-]. split; [|done]. etrans; [exact H1|]. symmetry. exact (update_entry_sizes _ _ _ _ E).
    + intros [= _ <-]. destruct Hp as [H1 H2]. split; [|done]. etrans; [exact H1|]. symmetry.
      exact (update_entry_sizes _ _ _ _ E).
  - destruct (deferred_executed _ !! h) as [d|]; [by apply Hf|by intros [= _ <-]].
Qed.
Lemma exact_parent_values ws g b c s : Exact (parent_values ws g b c s).
Proof. unfold parent_values. solve_exact. Qed.
Lemma exact_publish_candidate ws g b c s v : Exact (publish_candidate ws g b c s v).
Proof. unfold publish_candidate. solve_exact. Qed.
#[local] Hint Resolve exact_promote_with exact_parent_values exact_publish_candidate : exact.
Lemma exact_project_aux d g b c s : Exact (project_candidate_aux d g b c s).
Proof. revert g b c s. induction d as [|d IH]; intros; cbn [project_candidate_aux]; solve_exact. Qed.
#[local] Hint Resolve exact_project_aux : exact.
Lemma exact_project g b c s : Exact (project_candidate g b c s).
Proof. unfold project_candidate. solve_exact. Qed.
#[local] Hint Resolve exact_project : exact.
Lemma exact_promote g h : Exact (promote_validated g h).
Proof. unfold promote_validated. solve_exact. Qed.
Lemma exact_rejected g h r : Exact (rejected g h r).
Proof. unfold rejected. solve_exact. Qed.
Lemma exact_canonical_source g a ws h : Exact (canonical_source g a ws h).
Proof. unfold canonical_source. solve_exact. Qed.
#[local] Hint Resolve exact_promote exact_rejected exact_canonical_source : exact.

Lemma schedule_expiry_sizes t r h c :
  metadata_len (schedule_expiry t r h c) = metadata_len c ∧ projection_count (schedule_expiry t r h c) = projection_count c.
Proof.
  unfold schedule_expiry. destruct (_ =? _); [done|]. destruct (candidates c !! h) eqn:E; [split; [by eapply update_entry_sizes|done]|].
  destruct (deferred_executed c !! h) eqn:E'; [split; [by eapply update_deferred_sizes|done]|done].
Qed.

Lemma commit_canonical_sizes t r seq previous h c :
  metadata_len (commit_canonical t r seq previous h c) = metadata_len c ∧
  projection_count (commit_canonical t r seq previous h c) = projection_count c.
Proof.
  unfold commit_canonical. cbv zeta. destruct (schedule_expiry_sizes t r previous (c <| canonical_hash := h |>)) as [E1 E2].
  destruct (candidates (schedule_expiry _ _ _ _) !! h) eqn:E; [|done]. destruct (_ =? 0); [|done].
  split; [|exact E2]. by erewrite update_entry_sizes.
Qed.

#[local] Hint Resolve commit_canonical_sizes : exact.

Lemma exact_canonical g o n h : Exact (canonical g o n h).
Proof. unfold canonical. solve_exact. Qed.
#[local] Hint Resolve exact_canonical : exact.
Lemma exact_forkchoice g o a : Exact (forkchoice_applied g o a).
Proof. unfold forkchoice_applied. solve_exact. Qed.
Lemma exact_gap r : Exact (announce_gap r).
Proof. unfold announce_gap. solve_exact. Qed.
#[local] Hint Resolve exact_forkchoice exact_gap : exact.

(** A new anchor refreshes the gauges, however wrong they were. *)
Lemma refreshes_install loaded : Refreshes (install_anchor loaded).
Proof. unfold install_anchor. solve_refreshes. Qed.

Lemma refreshes_then {A B} (m : P A) (k : A → P B) : Refreshes m → (∀ a, Exact (k a)) → Refreshes (m ≫= k).
Proof.
  intros Hm Hk p b p'. unfold mbind, M_bind. destruct (m p) as [[a|e|] p1] eqn:E; [|done..].
  apply Hk. by eapply Hm.
Qed.

Lemma refreshes_reanchor : Refreshes reanchor.
Proof.
  unfold reanchor. cbv zeta. do 7 (apply refreshes_bind; intros). apply refreshes_then; [apply refreshes_install|]. solve_exact.
Qed.

Lemma exact_reanchor : Exact reanchor.
Proof. apply refreshes_exact, refreshes_reanchor. Qed.
Lemma exact_install loaded : Exact (install_anchor loaded).
Proof. apply refreshes_exact, refreshes_install. Qed.
#[local] Hint Resolve exact_reanchor exact_install : exact.
Lemma exact_activate ws : Exact (activate ws).
Proof. unfold activate. solve_exact. Qed.
Lemma exact_handle e : Exact (handle e).
Proof. destruct e; cbn [handle]; solve_exact. Qed.

(** The gauge of the generation follows an activation. *)
Lemma activate_gauge ws p : config_gauge p → wp (activate ws) (λ o p', match o with Ok _ => config_gauge p' | _ => True end) p.
Proof.
  intros Hp. unfold activate. wp_steps. destruct (_ <=? _); [done|]. apply wp_bind. unfold wp at 1, call_load_latest. simpl.
  destruct (load_latest _ _) as [loaded|e]; [|done]. apply wp_bind, wp_ret. cbv beta iota zeta.
  do 2 (apply wp_bind, wp_lift; case_match; [|done..]). wp_step. do 2 (apply wp_bind, wp_lift; case_match; [|done..]).
  apply wp_bind. unfold wp at 1. destruct (install_anchor loaded _) as [[[]|e|] p1]; simpl; [|done..].
  apply wp_bind. unfold wp at 1, publish_state. rewrite publish_inner_eq. destruct (encode_frame _ _); simpl; [|done..].
  apply wp_bind. unfold wp at 1, publish. rewrite publish_inner_eq. destruct (encode_frame _ _); simpl; [|done..].
  done.
Qed.

(** An activation installs its set, unless the set is not newer. *)
Lemma activate_installs ws p p' :
  activate ws p = (Ok (), p') →
  if ws_generation ws <=? active_generation p then p' = p
  else pb_active p' = ws ∧ active_generation p' = ws_generation ws.
Proof.
  unfold activate. cbv [mbind M_bind gets]. destruct (_ <=? _); [by intros [= <-]|]. unfold call_load_latest.
  destruct (load_latest _ _) as [loaded|e]; [|done]. unfold returning, lift. cbv [mret M_ret].
  destruct (validate_snapshot_view _) as [[]| |]; [|done..].
  destruct (validate_projection_dictionary _ _) as [[]| |] eqn:Hd; [|done..].
  apply validate_projection_dictionary_Ok in Hd as [Hg _].
  destruct (validate_event_frame _ _ _) as [[]| |]; [|done..].
  destruct (validate_projection_frames _ _ _) as [[]| |]; [|done..].
  destruct (install_anchor loaded _) as [[[]|e|] p1]; [|done..]. unfold publish_state, publish.
  rewrite publish_inner_eq. destruct (encode_frame _ _); [|done..].
  rewrite publish_inner_eq. destruct (encode_frame _ _); [|done..]. by intros [= <-].
Qed.
End exact_ops.

(** ** The thread *)

Section gauges.
Context `{Env} `{!ProstLaws}.

Definition gauges_exact (p : Publisher) : Prop := cache_gauges p ∧ config_gauge p.

Lemma called_gauges {A} (m : P A) p :
  Exact m → Quiet m → gauges_exact p → wp m (called gauges_exact (λ _, config_gauge)) p.
Proof.
  intros He Hq [Hc Hg]. specialize (Hq p). unfold wp, called. destruct (m p) as [[a|e|] p'] eqn:E; simpl in *.
  - split; [by eapply He|by eapply quiet_gauge].
  - by eapply quiet_gauge.
  - done.
Qed.

Lemma control_gauges event p : gauges_exact p → wp (handle_control event) (called gauges_exact (λ _, config_gauge)) p.
Proof.
  intros [Hc Hg]. destruct event as [ws]. cbn [handle_control]. unfold wp, catch. cbv [mbind M_bind mret M_ret].
  pose proof (activate_outcome ws p) as Ho. pose proof (activate_gauge ws p Hg) as Hgauge. unfold wp in Hgauge.
  destruct (activate ws p) as [[[]|e|] p'] eqn:E; simpl in *; [| |done].
  - split; [by eapply exact_activate|done].
  - by rewrite Ho.
Qed.

Lemma gauges_invariant : loop_invariant (λ _, True) (λ _ _, True) gauges_exact (λ _, config_gauge).
Proof.
  split.
  - by intros p [_ ?].
  - intros p. apply called_gauges; [apply exact_maintain|apply quiet_maintain].
  - intros event p _. apply called_gauges; [apply exact_handle|apply quiet_handle].
  - intros event p _ _. apply control_gauges.
  - intros reason announced p _ Hg. pose proof (quiet_attempt reason announced p) as Hq. unfold wp.
    destruct (attempt reason announced p) as [[[recovered a]|e|] p'] eqn:E; [|done..]. simpl in Hq.
    destruct recovered; [|by eapply quiet_gauge]. split; [|by eapply quiet_gauge]. revert E. unfold attempt.
    cbv [mbind M_bind mret M_ret catch].
    repeat (case_match; simplify_eq/=); intros; simplify_eq/=;
      match goal with E : reanchor _ = _ |- _ => exact (refreshes_reanchor _ _ _ E) end.
  - intros announced p. by apply quiet_gauge.
Qed.

Lemma start_service_metrics cfg boot chain genesis started ws p0 :
  start_service cfg boot chain genesis started ws = Ok p0 → gauges_exact p0 ∧ tallied p0.
Proof. intros (loaded & _ & ->)%start_service_fresh. split; by split. Qed.

(** The thread is neither recovering nor gone. *)
Definition running (pc : LoopPc) : bool :=
  match pc with Attempt _ _ _ _ | Backoff _ _ _ _ | Exited => false | _ => true end.

(** C27: The metrics tell the truth. At every moment of every interleaving of the publisher thread with
    the threads that feed it, the counters are those of the frames broadcast so far: their number,
    their encoded sizes, how many of each kind, and how many candidates they retired; the generation
    gauge is the active generation; and unless the thread is recovering from an error or has exited,
    the cache gauges are the numbers of metadata records and of projections in the cache. *)
Theorem metrics_exact spin cfg boot chain genesis started ws p0 actions l :
  start_service cfg boot chain genesis started ws = Ok p0 → loop_run spin actions (loop_start p0) = Some l →
  let p := lo_publisher l in
  tally (metrics p) (sent_events (sh_frames (pb_shared p))) ∧
  config_generation (metrics p) = active_generation p ∧
  (running (lo_pc l) = true →
   candidates_cached (metrics p) = metadata_len (pb_cache p) ∧
   candidate_projections_cached (metrics p) = projection_count (pb_cache p)).
Proof.
  intros Hstart Hrun p. assert (Hp0 : gauges_exact p0 ∧ tallied p0) by by apply start_service_metrics in Hstart.
  destruct Hp0 as [Hg Ht]. split; [exact (lt_tally _ _ (loop_run_later _ _ _ _ Hrun) Ht)|].
  assert (Hl : loop_ok (λ _, True) gauges_exact (λ _, config_gauge) l).
  { eapply (loop_run_ok spin _ _ _ _ gauges_invariant actions); [by apply loop_start_ok| |by apply requests_known_all|done].
    apply Forall_true. by intros []. }
  destruct Hl as [Hpc _ _ _]. unfold pc_invariant in Hpc. unfold p, gauges_exact in *.
  destruct (lo_pc l); simpl; by destruct Hpc as [? ?].
Qed.
End gauges.

(** The events of the sample run, each handled before the next. *)
Definition metered_actions : list LoopAction :=
  sample_passes ≫= λ pass, match lp_event pass with
    | Some (Data event) => MaintenanceTick :: SendData event :: replicate 7 step0
    | _ => [] end.
Definition metered_loop : Loop := Eval vm_compute in sample_loop metered_actions.

(** Seven frames: two executed states, a validation, a rejection, a head, a forkchoice, and one
    candidate retired for lack of room. *)
Lemma metrics_exact_witness :
  let m := metrics (lo_publisher metered_loop) in
  running (lo_pc metered_loop) = true ∧ tally m (sent_events (sh_frames (pb_shared (lo_publisher metered_loop)))) ∧
  published_frames m = 7 ∧ executed_events m = 2 ∧ validated_events m = 1 ∧ retired_candidates m = 1 ∧
  candidates_cached m = metadata_len (pb_cache (lo_publisher metered_loop)).
Proof.
  cbv zeta. split; [reflexivity|].
  destruct (@metrics_exact sample_env sample_laws 0 sample_stream sample_boot 1 0 0 sample_watch_set sample_publisher
    metered_actions metered_loop sample_started ltac:(vm_compute; reflexivity)) as (Ht & _ & Hg).
  split; [exact Ht|]. do 4 (split; [reflexivity|]). exact (proj1 (Hg eq_refl)).
Defined.
