(* ===== verification/Typed.v ===== *)
(** * Every frame is well typed

    The messages of wire.rs have 32- and 64-bit fields and Unicode strings; the
    model's numbers have no width.  If what comes in from Reth and from the
    operator fits the types of the source, everything the publisher computes
    from it does too: counters wrap, times saturate, key ids are below 2^32.  So
    the codec reads back every frame the publisher sends. *)

From S2P Require Import Prelude Bytes Config Watch Reload Feed Wire Protobuf Client Consumer Stream Projection Cache CacheInv Metrics Publisher Sample PublisherInv Service Fidelity Loop.
From stdpp Require Import list.
Local Open Scope N_scope.

(** ** Values of the source's types *)

Definition typed_meta (b : BlockMeta) : Prop := bm_number b ≤ u64_max ∧ bm_timestamp b ≤ u64_max.
Definition typed_mark (c : CheckpointMeta) : Prop := cp_number c ≤ u64_max.
Definition typed_forkchoice (v : ForkchoiceMeta) : Prop :=
  typed_mark (fc_head v) ∧ on_option typed_mark (fc_safe v) ∧ on_option typed_mark (fc_finalized v).
Definition typed_applied (v : AppliedForkchoiceMeta) : Prop :=
  on_option typed_mark (af_safe v) ∧ on_option typed_mark (af_finalized v).
Definition unicode (s : rust_string) : Prop := Forall (λ c, scalar c = true) s.
Definition typed_set (ws : WatchSet) : Prop :=
  ws_generation ws ≤ u64_max ∧ Forall (λ k, wk_key_id k ≤ u32_max ∧ unicode (wk_id k)) (ws_keys ws).
Definition typed_projection (p : Projection) : Prop := typed_meta (pj_block p) ∧ typed_set (pj_watch_set p).
Definition typed_state (s : PublishedState) : Prop :=
  typed_projection (ps_canonical s) ∧ on_option typed_forkchoice (ps_forkchoice s).
Definition typed_frame (f : PublishedFrame) : Prop := typed_envelope (pf_envelope f) ∧ typed_state (pf_state f).
Definition typed_cache (c : Cache) : Prop :=
  (∀ h e pj, candidates c !! h = Some e → ce_projection e = Some pj → typed_projection pj) ∧
  (∀ h d, deferred_executed c !! h = Some d → typed_meta (de_block d)).

(** What the publisher's threads hand it. *)
Definition typed_input (e : PublisherEvent) : Prop :=
  match e with
  | Data (Executed _ _ block _) | Data (ValidatedFallback _ _ block _) => typed_meta block
  | Data (ForkchoiceApplied _ _ view) => typed_applied view
  | Data (Rejected _ _ _ reason) => utf8 reason
  | Control (ActivateConfig ws) => typed_set ws
  | _ => True
  end.

(** ** Wire forms *)

Lemma typed_checkpoint_ref o : on_option typed_mark o → on_option typed_checkpoint (checkpoint_ref <$> o).
Proof. by destruct o. Qed.

Lemma typed_forkchoice_view v : typed_forkchoice v → typed_view (forkchoice_view v).
Proof. intros (? & ? & ?). split_and!; [done|by apply typed_checkpoint_ref..]. Qed.

Lemma typed_config ws : typed_set ws → typed_event (wire.EvConfigActivated (config_activated ws)).
Proof. intros [_ Hk]. simpl. by apply Forall_fmap. Qed.

Lemma typed_snapshot pj v : typed_projection pj → typed_forkchoice v → typed_event (wire.EvSnapshot (snapshot pj v)).
Proof. intros [? _] ?. split; [done|by apply typed_forkchoice_view]. Qed.

Lemma typed_block_state pj stage : typed_projection pj → typed_event (wire.EvBlockState (block_state pj stage)).
Proof. intros [? _]. split; [by destruct stage|done]. Qed.

Lemma typed_resolve view n : typed_applied view → n ≤ u64_max → typed_forkchoice (resolve view n).
Proof.
  destruct view as [h s f]. intros [Hs Hf] Hn. simpl in *.
  split_and!; [done|destruct s; simpl; by try case_match|destruct f; simpl; by try case_match].
Qed.

Lemma typed_dictionary pj ws :
  validate_projection_dictionary pj ws = Ok () → typed_set ws → typed_set (pj_watch_set pj).
Proof. intros [Hg Hk]%validate_projection_dictionary_Ok [? ?]. split; [by rewrite Hg|by rewrite Hk]. Qed.

Lemma typed_make_envelope sh sequence generation ns event :
  sequence ≤ u64_max → generation ≤ u64_max → ns ≤ u64_max → typed_event event →
  typed_envelope (make_envelope sh sequence generation ns event).
Proof. by intros. Qed.

Lemma wrapping_add_bounded a b : wrapping_add a b ≤ u64_max.
Proof. unfold wrapping_add. pose proof (N.mod_lt (a + b) (u64_max + 1) ltac:(done)). lia. Qed.

Lemma typed_cache_lessens c c' : lessens c c' → typed_cache c → typed_cache c'.
Proof.
  intros (Hc & Hd & _) [H1 H2]. split.
  - intros h e pj He Hpj. destruct (Hc _ _ He) as (e0 & He0 & Hp). apply (H1 h e0 pj He0). destruct Hp; congruence.
  - intros h d Hh. eapply H2, Hd, Hh.
Qed.

Lemma typed_cache_kept c c' : kept c c' → typed_cache c → typed_cache c'.
Proof.
  intros [A B] [Hc Hd]. split.
  - intros h e' pj He' Hpj. destruct (A _ _ He') as (e & He & Ee). eapply Hc; [exact He|congruence].
  - intros h d' Hd'. destruct (B _ _ Hd') as (d & Hd0 & -> & _). by eapply Hd.
Qed.

(** ** Typed publishers *)

Record typed (p : Publisher) : Prop := {
  ty_frames : Forall typed_frame (sh_frames (pb_shared p));
  ty_state : typed_state (published p);
  ty_sequence : sh_published_sequence (pb_shared p) ≤ u64_max;
  ty_cache : typed_cache (pb_cache p);
}.

(** [m] keeps the publisher typed, whatever its outcome, and [R] holds of its value. *)
Definition Keeps {A} (R : A → Prop) (m : P A) : Prop :=
  ∀ p, typed p → typed (m p).2 ∧ ∀ a, (m p).1 = Ok a → R a.

Definition any {A} (_ : A) : Prop := True.

Create HintDb typed discriminated.
#[export] Hint Constants Opaque : typed.

Lemma keeps_ret {A} (R : A → Prop) a : R a → Keeps R (mret a).
Proof. intros Ha p Hp. split; [done|]. by intros ? [= <-]. Qed.
Lemma keeps_throw {A} (R : A → Prop) e : Keeps R (throw e).
Proof. by intros p Hp. Qed.
Lemma keeps_diverge {A} (R : A → Prop) : Keeps R diverge.
Proof. by intros p Hp. Qed.
Lemma keeps_gets {A} (R : A → Prop) (f : Publisher → A) : (∀ p, typed p → R (f p)) → Keeps R (gets f).
Proof. intros Hf p Hp. split; [done|]. intros a [= <-]. by apply Hf. Qed.
Lemma keeps_lift {A} (o : outcome Error A) : Keeps (λ a, o = Ok a) (lift o).
Proof. intros p Hp. by split. Qed.
Lemma keeps_returning {A} (r : A + Error) : Keeps (λ a, r = inl a) (returning r).
Proof. intros p Hp. destruct r; (split; [done|]); [by intros ? [= <-]|done]. Qed.
Lemma keeps_bind {A B} (R : A → Prop) (R' : B → Prop) (m : P A) (k : A → P B) :
  Keeps R m → (∀ a, R a → Keeps R' (k a)) → Keeps R' (m ≫= k).
Proof.
  intros Hm Hk p Hp. destruct (Hm p Hp) as [H1 H2]. unfold mbind, M_bind.
  destruct (m p) as [[a|e|] p1]; simpl in *; [|by split..]. apply Hk; auto.
Qed.
Lemma keeps_catch {A} (R : A → Prop) (m : P A) h : Keeps R m → (∀ e, Keeps R (h e)) → Keeps R (catch m h).
Proof.
  intros Hm Hh p Hp. destruct (Hm p Hp) as [H1 H2]. unfold catch.
  destruct (m p) as [[a|e|] p1]; simpl in *; [done|by apply Hh|by split].
Qed.
Lemma keeps_any {A} (R : A → Prop) (m : P A) : Keeps R m → Keeps any m.
Proof. intros Hm p Hp. by destruct (Hm p Hp). Qed.
Lemma keeps_modify f : (∀ p, typed p → typed (f p)) → Keeps any (modify f).
Proof. intros Hf p Hp. split; [by apply Hf|done]. Qed.
#[export] Hint Resolve keeps_throw keeps_diverge : typed.

Lemma typed_tick p : typed p → typed (p <| pb_tick ::= S |>).
Proof. by intros []. Qed.
Lemma typed_measured f p : typed p → typed (measured f p).
Proof. by intros []. Qed.
Lemma typed_with_cache p c : typed p → typed_cache c → typed (p <| pb_cache := c |>).
Proof. by intros []. Qed.

Lemma keeps_metrics f : Keeps any (on_metrics f).
Proof. apply keeps_modify, typed_measured. Qed.
Lemma keeps_metric : Keeps any update_candidate_metric.
Proof. apply keeps_metrics. Qed.
Lemma keeps_cache f : (∀ c, typed_cache c → typed_cache (f c)) → Keeps any (modify (λ p, p <| pb_cache ::= f |>)).
Proof. intros Hf. apply keeps_modify. intros p Hp. apply (typed_with_cache p (f (pb_cache p)) Hp), Hf, Hp. Qed.
Lemma keeps_on_cache {A} (m : M Cache Error A) : Lessens m → Keeps any (on_cache m).
Proof.
  intros Hm p Hp. specialize (Hm (pb_cache p)). unfold on_cache. destruct (m (pb_cache p)) as [o c].
  split; [|done]. apply typed_with_cache; [done|]. eapply typed_cache_lessens; [exact Hm|apply Hp].
Qed.
#[export] Hint Resolve keeps_metrics keeps_metric : typed.

(** Reads, and what is known of them. *)
Lemma keeps_cache_read : Keeps typed_cache (gets pb_cache).
Proof. apply keeps_gets. apply ty_cache. Qed.
Lemma keeps_generation_read : Keeps (λ g, g ≤ u64_max) (gets active_generation).
Proof. apply keeps_gets. intros p Hp. apply (ty_state p Hp). Qed.
Lemma keeps_canonical_read : Keeps typed_projection (gets canonical_projection).
Proof. apply keeps_gets. intros p Hp. apply (ty_state p Hp). Qed.
Lemma keeps_read {A} (f : Publisher → A) : Keeps any (gets f).
Proof. by apply keeps_gets. Qed.

(** Takes a body apart; facts about the values it binds go to the context. *)
Ltac keeps_step :=
  lazymatch goal with
  | |- Keeps _ (mbind _ (gets pb_cache)) => eapply keeps_bind; [apply keeps_cache_read|]
  | |- Keeps _ (mbind _ (gets active_generation)) => eapply keeps_bind; [apply keeps_generation_read|]
  | |- Keeps _ (mbind _ (gets canonical_projection)) => eapply keeps_bind; [apply keeps_canonical_read|]
  | |- Keeps _ (mbind _ (gets _)) => eapply keeps_bind; [apply keeps_read|]
  | |- Keeps _ (mbind _ (lift _)) => eapply keeps_bind; [apply keeps_lift|]
  | |- Keeps _ (mbind _ (returning _)) => eapply keeps_bind; [apply keeps_returning|]
  | |- Keeps _ (mbind _ (match _ with _ => _ end)) => apply (keeps_bind any)
  | |- Keeps _ (mbind _ _) => eapply keeps_bind; [solve [eauto with typed nocore]|]
  | |- Keeps _ (catch _ _) => apply keeps_catch
  | |- Keeps _ (mret _) => by apply keeps_ret
  | |- Keeps _ (match ?x with _ => _ end) => destruct x eqn:?
  | |- Keeps _ _ => solve [eauto with typed nocore]
  end.
Ltac solve_keeps :=
  repeat (cbv beta zeta; lazymatch goal with |- Keeps _ _ => keeps_step | |- ∀ _, _ => intro end).

Section keeps_ops.
Context `{Env}.

Lemma keeps_now : Keeps any now.
Proof. intros p Hp. by split; [apply typed_tick|]. Qed.
#[local] Hint Resolve keeps_now : typed.

Lemma keeps_publish_inner g event next :
  g ≤ u64_max → typed_event event →
  (∀ canonical f r, next = Some (canonical, f, r) → typed_projection canonical ∧ on_option typed_forkchoice f) →
  Keeps any (publish_inner g event next).
Proof.
  intros Hg Hev Hn p Hp. split; [|done]. rewrite publish_inner_eq.
  assert (Ha : typed (attempted p)) by by destruct Hp.
  destruct (encode_frame _ _) as [frame|e|]; [|done..]. simpl. destruct Hp as [Hf Hs Hq Hc].
  assert (Hs' : typed_state (match next with
    | Some (canonical, f, r) => mkPublishedState canonical f (wrapping_add (sh_sequence (pb_shared p)) 1) r
    | None => sh_published (pb_shared p) end)).
  { destruct next as [[[pj f] r]|]; [|exact Hs]. by apply (Hn pj f r). }
  split; [|exact Hs'|simpl; apply wrapping_add_bounded|exact Hc]. simpl. apply Forall_app. split; [done|].
  apply Forall_singleton. split; [|exact Hs'].
  apply typed_make_envelope; [apply wrapping_add_bounded|done|unfold frame_time; lia|done].
Qed.

Lemma keeps_publish g event : g ≤ u64_max → typed_event event → Keeps any (publish g event).
Proof. intros. by apply keeps_publish_inner. Qed.
Lemma keeps_publish_state g event pj f r :
  g ≤ u64_max → typed_event event → typed_projection pj → on_option typed_forkchoice f →
  Keeps any (publish_state g event pj f r).
Proof. intros. apply keeps_publish_inner; [done..|]. by intros ? ? ? [= <- <- <-]. Qed.

Lemma keeps_publish_batches g reason bs : g ≤ u64_max → Keeps any (publish_batches g reason bs).
Proof.
  intros Hg. induction bs; cbn [publish_batches]; [by apply keeps_ret|].
  apply (keeps_bind any); [|done]. apply keeps_publish; [done|]. by destruct reason.
Qed.
#[local] Hint Resolve keeps_publish_batches : typed.
Lemma keeps_publish_retired g hs reason : g ≤ u64_max → Keeps any (publish_retired g hs reason).
Proof. intros. unfold publish_retired. solve_keeps. Qed.
#[local] Hint Resolve keeps_publish_retired : typed.
Lemma keeps_trim_projection g h : g ≤ u64_max → Keeps any (trim_projection_cache g h).
Proof.
  intros. unfold trim_projection_cache. keeps_step. intros c _.
  eapply keeps_bind; [apply keeps_on_cache, lessens_trim_projection|]. solve_keeps.
Qed.
Lemma keeps_trim_metadata g : g ≤ u64_max → Keeps any (trim_metadata g).
Proof.
  intros. unfold trim_metadata. keeps_step. intros c _.
  eapply keeps_bind; [apply keeps_on_cache, lessens_trim_metadata|]. solve_keeps.
Qed.
#[local] Hint Resolve keeps_trim_projection keeps_trim_metadata : typed.

Lemma keeps_insert_candidate pj stage tracked first :
  typed_projection pj → Keeps any (insert_candidate pj stage tracked first).
Proof.
  intros Hpj. assert (Hg : ws_generation (pj_watch_set pj) ≤ u64_max) by apply Hpj.
  unfold insert_candidate. cbv zeta. keeps_step. intros t _. keeps_step. intros r _. eapply keeps_bind.
  { apply keeps_cache. intros c [Hc Hd].
    destruct (insert_candidate_records t r pj stage tracked first c) as ((e & Ec & Ee) & Ed & _). split.
    - intros h e' pj'. rewrite Ec. destruct (decide (h = bm_hash (pj_block pj))) as [->|]; simplify_map_eq; [|apply Hc].
      intros [= <-]. congruence.
    - intros h d. rewrite Ed, lookup_delete_Some. intros [_ Hh]. by eapply Hd. }
  solve_keeps.
Qed.
Lemma keeps_insert_deferred block changes : typed_meta block → Keeps any (insert_deferred_executed block changes).
Proof.
  intros Hb. unfold insert_deferred_executed. keeps_step. intros c0 _. case_decide; [by apply keeps_ret|].
  case_decide; [by apply keeps_ret|]. keeps_step. intros t _. keeps_step. intros r _. eapply keeps_bind.
  { apply keeps_cache. intros c [Hc Hd].
    destruct (insert_deferred_records t r block changes c) as (Ec & _ & d & Ed & Eb & _). split.
    - intros h e pj. rewrite Ec. apply Hc.
    - intros h d'. rewrite Ed. destruct (decide (h = bm_hash block)) as [->|]; simplify_map_eq; [|apply Hd].
      by intros [= <-]. }
  solve_keeps.
Qed.
Lemma keeps_finality g b : g ≤ u64_max → Keeps any (process_finality_budget g b).
Proof.
  intros. unfold process_finality_budget. keeps_step. intros sweep _.
  eapply keeps_bind; [apply keeps_on_cache, lessens_finality_pass|]. solve_keeps.
Qed.
Lemma keeps_remove_tree h t : Keeps any (remove_tree h t).
Proof.
  unfold remove_tree. keeps_step. intros head _.
  eapply keeps_bind; [apply keeps_on_cache, lessens_remove_tree|]. solve_keeps.
Qed.
#[local] Hint Resolve keeps_insert_candidate keeps_insert_deferred keeps_finality keeps_remove_tree : typed.

Lemma keeps_maintain : Keeps any maintain.
Proof.
  unfold maintain. keeps_step. intros t _. keeps_step. intros g Hg. keeps_step. intros b _. keeps_step. intros work _.
  cbv zeta. keeps_step. intros c _. eapply keeps_bind; [apply keeps_on_cache, lessens_remove_due|]. solve_keeps.
Qed.

Lemma keeps_promote_entry h e :
  (∀ pj, ce_projection e = Some pj → typed_projection pj) →
  Keeps any (modify (λ p, p <| pb_cache ::= λ c, c <| candidates ::= insert h e |> |>)).
Proof.
  intros He. apply (keeps_cache (λ c, c <| candidates ::= insert h e |>)). intros c [H1 H2]. split; [|exact H2].
  intros h' e' pj. simpl. destruct (decide (h' = h)) as [->|]; simplify_map_eq; [|apply H1]. intros [= <-]. apply He.
Qed.

Lemma keeps_promote_with f g h :
  (∀ block changes, g ≤ u64_max → typed_meta block → Keeps any (f g block changes CandidateValidated)) →
  Keeps any (promote_validated_with f g h).
Proof.
  intros Hf. unfold promote_validated_with. keeps_step. intros active Ha. cbv beta in Ha.
  destruct (N.ltb_spec g active); [by apply keeps_ret|]. destruct (N.ltb_spec active g); [apply keeps_throw|].
  assert (Hg : g ≤ u64_max) by lia. keeps_step. intros c [Hc Hd].
  destruct (candidates c !! h) as [e|] eqn:He; cbv zeta.
  - pose proof (keeps_promote_entry h (e <| ce_stage := CandidateValidated |>)) as Hm.
    specialize (Hm (λ pj, Hc _ _ pj He)).
    case_decide; [by apply keeps_ret|]. destruct (ce_projection e).
    + destruct (negb _); [by apply keeps_ret|]. apply (keeps_bind any); [by apply keeps_publish|].
      intros _ _. apply (keeps_bind any); [exact Hm|]. intros _ _. by apply keeps_ret.
    + apply (keeps_bind any); [exact Hm|]. intros _ _. by apply keeps_ret.
  - destruct (deferred_executed c !! h) as [d|] eqn:Ed; [|by apply keeps_ret]. apply Hf; [done|by eapply Hd].
Qed.

(** The provider's headers and checkpoints have 64-bit numbers. *)
Record typed_source : Prop := {
  ts_latest : ∀ t ws s, load_latest t ws = inl s →
    typed_meta (pj_block (cs_projection s)) ∧ typed_forkchoice (cs_forkchoice s);
  ts_at : ∀ t ws h p, load_at t ws h = inl p → typed_meta (pj_block p);
}.
Context (Hsource : typed_source).

Lemma keeps_load_at ws h : Keeps (λ r, ∀ pj, r = inl pj → typed_meta (pj_block pj)) (call_load_at ws h).
Proof. intros p Hp. split; [by apply typed_tick|]. intros r [= <-] pj. apply (ts_at Hsource). Qed.
Lemma keeps_load_latest ws :
  Keeps (λ r, ∀ s, r = inl s → typed_meta (pj_block (cs_projection s)) ∧ typed_forkchoice (cs_forkchoice s)) (call_load_latest ws).
Proof. intros p Hp. split; [by apply typed_tick|]. intros r [= <-] s. apply (ts_latest Hsource). Qed.
#[local] Hint Resolve keeps_load_at keeps_load_latest : typed.

Lemma keeps_parent_values ws g block changes stage : typed_meta block → Keeps any (parent_values ws g block changes stage).
Proof. intros. unfold parent_values. solve_keeps. Qed.
#[local] Hint Resolve keeps_parent_values : typed.

Lemma keeps_publish_candidate ws g block changes stage values :
  g ≤ u64_max → typed_meta block → typed_set ws → Keeps any (publish_candidate ws g block changes stage values).
Proof.
  intros Hg Hb Hws. unfold publish_candidate. keeps_step. intros [values' bitmap] _. cbv zeta.
  set (pj := {| pj_block := block |}). assert (Hpj : typed_projection pj) by done.
  apply (keeps_bind any); [by apply keeps_publish, typed_block_state|]. solve_keeps.
Qed.
#[local] Hint Resolve keeps_publish_candidate : typed.

Lemma keeps_project_aux depth g block changes stage :
  typed_meta block → Keeps any (project_candidate_aux depth g block changes stage).
Proof.
  intros Hb. revert block changes stage Hb. induction depth as [|depth IH]; intros block changes stage Hb;
    cbn [project_candidate_aux]; [apply keeps_diverge|].
  keeps_step. intros pj [Hm Hws]. cbv zeta.
  destruct (N.ltb_spec g (ws_generation (pj_watch_set pj))); [by apply keeps_ret|].
  destruct (N.ltb_spec (ws_generation (pj_watch_set pj)) g); [apply keeps_throw|].
  assert (Hg : g ≤ u64_max) by (destruct Hws; lia).
  match goal with |- Keeps _ (c ← _; if _ then _ else match _ with Some _ => _ | None => ?new end) =>
    assert (Hnew : Keeps any new) by solve_keeps end.
  keeps_step. intros c _. case_decide; [by apply keeps_ret|]. destruct (candidates c !! _) as [e|]; [|exact Hnew].
  case_decide; [apply keeps_throw|]. case_decide; [|exact Hnew]. case_decide; [|by apply keeps_ret].
  apply keeps_promote_with. intros b ch _ Hb'. by apply IH.
Qed.
Lemma keeps_project g block changes stage : typed_meta block → Keeps any (project_candidate g block changes stage).
Proof. apply keeps_project_aux. Qed.
Lemma keeps_promote g h : Keeps any (promote_validated g h).
Proof. apply keeps_promote_with. intros b c _ Hb. by apply keeps_project. Qed.
#[local] Hint Resolve keeps_project keeps_promote : typed.

Lemma keeps_rejected g h reason : utf8 reason → Keeps any (rejected g h reason).
Proof.
  intros Hr. unfold rejected. keeps_step. intros active Ha. cbv beta in Ha. destruct (N.ltb_spec g active); [by apply keeps_ret|].
  destruct (N.ltb_spec active g); [apply keeps_throw|]. keeps_step. intros c _. cbv zeta.
  destruct (negb _); [by apply keeps_ret|]. apply (keeps_bind any); [apply keeps_publish; [lia|exact Hr]|]. solve_keeps.
Qed.

Lemma keeps_canonical_source g active ws h : Keeps (λ pj, typed_meta (pj_block pj)) (canonical_source g active ws h).
Proof.
  unfold canonical_source. keeps_step. intros c [Hc _]. destruct (g =? active).
  - destruct (candidates c !! h) as [e|] eqn:He; simpl.
    + destruct (ce_projection e) as [pj|] eqn:Hpj; [apply keeps_ret; by eapply Hc|].
      eapply keeps_bind; [apply keeps_load_at|]. intros r Hr p Hp. destruct (keeps_returning r p Hp) as [? Hret]. split; auto.
    + eapply keeps_bind; [apply keeps_load_at|]. intros r Hr p Hp. destruct (keeps_returning r p Hp) as [? Hret]. split; auto.
  - eapply keeps_bind; [apply keeps_load_at|]. intros r Hr p Hp. destruct (keeps_returning r p Hp) as [? Hret]. split; auto.
Qed.
#[local] Hint Resolve keeps_rejected keeps_canonical_source : typed.

Lemma keeps_canonical g o n h : Keeps any (canonical g o n h).
Proof.
  unfold canonical. keeps_step. intros active _. destruct (_ <? _); [apply keeps_throw|]. keeps_step. intros anchored _.
  destruct (_ <=? _); [by apply keeps_ret|]. keeps_step. intros previous [_ Hws]. destruct (_ =? _); [by apply keeps_ret|].
  eapply keeps_bind; [apply keeps_canonical_source|]. intros pj Hm. keeps_step. intros [] Hd.
  assert (Hpj : typed_projection pj) by (split; [done|by eapply typed_dictionary]).
  destruct (_ || _); [apply keeps_throw|]. do 2 (keeps_step; intros ? _). keeps_step. intros prev _.
  apply (keeps_bind any); [by apply keeps_insert_candidate|]. intros _ _.
  apply (keeps_bind any); [by apply keeps_publish_state; [apply Hpj|apply Hpj|..]|]. intros seq _.
  keeps_step. intros t _. keeps_step. intros r _. apply (keeps_bind any); [|intros; by apply keeps_ret].
  apply keeps_cache. intros c. apply typed_cache_kept, kept_commit.
Qed.
#[local] Hint Resolve keeps_canonical : typed.

Lemma keeps_forkchoice g o view : typed_applied view → Keeps any (forkchoice_applied g o view).
Proof.
  intros Hv. unfold forkchoice_applied. keeps_step. intros active _. destruct (_ <? _); [apply keeps_throw|].
  keeps_step. intros anchored _. destruct (_ <=? _); [by apply keeps_ret|]. keeps_step. intros head _.
  apply (keeps_bind any); [solve_keeps|]. intros _ _. keeps_step. intros pj Hpj.
  destruct (negb _); [apply keeps_throw|]. cbv zeta. keeps_step. intros [] _.
  assert (Hr : typed_forkchoice (resolve view (bm_number (pj_block pj)))) by (apply typed_resolve; [done|apply Hpj]).
  assert (Hg : ws_generation (pj_watch_set pj) ≤ u64_max) by apply Hpj.
  apply (keeps_bind any); [apply keeps_publish_state; [done|by apply typed_forkchoice_view|done|done]|].
  intros seq _. keeps_step. intros c _. destruct (fc_finalized _) as [f|]; [|by apply keeps_ret].
  case_decide; [|by apply keeps_ret]. apply (keeps_bind any); [by apply keeps_cache|]. intros _ _. solve_keeps.
Qed.

Lemma keeps_gap reason : utf8 reason → Keeps any (announce_gap reason).
Proof.
  intros Hr. unfold announce_gap. keeps_step. intros pj Hpj.
  eapply keeps_bind; [apply (keeps_gets (λ n, n ≤ u64_max)), ty_sequence|]. intros last Hl.
  apply (keeps_bind any); [by apply keeps_publish_state; [apply Hpj|..]|]. intros; by apply keeps_ret.
Qed.

Lemma keeps_install loaded : typed_projection (cs_projection loaded) → Keeps any (install_anchor loaded).
Proof.
  intros Hpj. unfold install_anchor. apply (keeps_bind any); [by apply keeps_modify; intros p []|]. intros _ _.
  keeps_step. intros t _. keeps_step. intros r _. apply (keeps_bind any); [|intros; apply keeps_metric].
  apply keeps_cache. intros c _. split; [|done]. intros h e pj. simpl. rewrite lookup_singleton_Some.
  by intros [<- <-] [= <-].
Qed.
#[local] Hint Resolve keeps_forkchoice keeps_gap keeps_install : typed.

Lemma keeps_reanchor : Keeps any reanchor.
Proof.
  unfold reanchor. eapply keeps_bind; [apply (keeps_gets typed_set); intros p Hp; apply (ty_state p Hp)|]. intros ws Hws.
  keeps_step. intros r Hr. keeps_step. intros loaded ->. destruct (Hr _ eq_refl) as [Hm Hv]. keeps_step. intros [] _.
  cbv zeta. keeps_step. intros [] Hd. assert (Hpj : typed_projection (cs_projection loaded)) by (split; [done|by eapply typed_dictionary]).
  keeps_step. intros sh _. keeps_step. intros [] _. apply (keeps_bind any); [by apply keeps_install|]. intros _ _.
  apply (keeps_bind any); [by apply keeps_publish_state; [apply Hpj|apply typed_snapshot|..]|]. intros; by apply keeps_ret.
Qed.

Lemma keeps_activate ws : typed_set ws → Keeps any (activate ws).
Proof.
  intros Hws. unfold activate. keeps_step. intros current _. destruct (_ <=? _); [by apply keeps_ret|].
  keeps_step. intros r Hr. keeps_step. intros loaded ->. destruct (Hr _ eq_refl) as [Hm Hv]. keeps_step. intros [] _.
  cbv zeta. keeps_step. intros [] Hd. assert (Hpj : typed_projection (cs_projection loaded)) by (split; [done|by eapply typed_dictionary]).
  keeps_step. intros sh _. do 2 (keeps_step; intros [] _). apply (keeps_bind any); [by apply keeps_install|]. intros _ _.
  apply (keeps_bind any); [by apply keeps_publish_state; [apply Hws|apply typed_config|..]|]. intros _ _.
  apply (keeps_bind any); [by apply keeps_publish; [apply Hws|apply typed_snapshot]|]. intros _ _.
  apply (keeps_bind any); [by apply keeps_modify; intros p []|]. intros _ _. apply keeps_metrics.
Qed.
#[local] Hint Resolve keeps_reanchor keeps_activate : typed.

(** The reasons the publisher gives are ASCII. *)
Lemma utf8_reset : utf8 "canonical_state_reset".
Proof. eexists. vm_compute. reflexivity. Qed.
Lemma utf8_recovery reason : recovery_reason reason → utf8 reason.
Proof. intros []; eexists; vm_compute; reflexivity. Qed.
#[local] Hint Resolve utf8_reset : typed.

Lemma keeps_handle event : typed_input (Data event) → Keeps any (handle event).
Proof. intros Hin. destruct event; cbn [handle typed_input] in *; solve_keeps. Qed.
Lemma keeps_control event : typed_input (Control event) → Keeps any (handle_control event).
Proof. intros Hin. destruct event; cbn [handle_control typed_input] in *; solve_keeps. Qed.
Lemma keeps_attempt reason announced : utf8 reason → Keeps any (attempt reason announced).
Proof. intros Hr. unfold attempt. solve_keeps. Qed.

(** ** The thread *)

Lemma called_typed {A} (m : P A) p : Keeps any m → typed p → wp m (called typed (λ _, typed)) p.
Proof. intros Hm Hp. destruct (Hm p Hp) as [Ht _]. unfold wp, called. by destruct (m p) as [[] ?]. Qed.

Lemma typed_invariant : loop_invariant typed_input (λ _ _, True) typed (λ _, typed).
Proof.
  split.
  - done.
  - intros p. apply called_typed, keeps_maintain.
  - intros event p Hin. by apply called_typed, keeps_handle.
  - intros event p Hin _. by apply called_typed, keeps_control.
  - intros reason announced p Hr%utf8_recovery Hp. destruct (keeps_attempt reason announced Hr p Hp) as [Ht _].
    unfold wp. by destruct (attempt reason announced p) as [[[[] a]|e|] p'].
  - intros _ p. apply typed_tick.
Qed.

Lemma start_service_typed cfg boot chain genesis started ws p0 :
  typed_set ws → start_service cfg boot chain genesis started ws = Ok p0 → typed p0.
Proof.
  intros Hws (loaded & [_ El Hd _ _] & ->)%start_service_fresh. destruct (ts_latest Hsource _ _ _ El) as [Hm Hv].
  assert (Hpj : typed_projection (cs_projection loaded)) by (split; [done|by eapply typed_dictionary]).
  split; [by apply Forall_nil|done|done|]. split; [|done]. intros h e pj. simpl. rewrite lookup_singleton_Some.
  by intros [<- <-] [= <-].
Qed.

(** Every state of the loop of a started service is typed. *)
Lemma loop_typed spin cfg boot chain genesis started ws p0 actions l :
  typed_set ws → start_service cfg boot chain genesis started ws = Ok p0 →
  Forall (sends_ok typed_input) actions → loop_run spin actions (loop_start p0) = Some l → typed (lo_publisher l).
Proof.
  intros Hws Hstart Hok Hrun.
  assert (Hl : loop_ok typed_input typed (λ _, typed) l).
  { eapply (loop_run_ok spin _ _ _ _ typed_invariant actions); [|done|by apply requests_known_all|done].
    apply loop_start_ok. by eapply start_service_typed. }
  destruct Hl as [Hpc _ _ _]. unfold pc_invariant in Hpc. destruct (lo_pc l); try apply Hpc. by destruct Hpc.
Qed.
End keeps_ops.

(** ** The sets of a configuration *)

(** What the types of the source say of a set: a [u64] generation and [String] identifiers. *)
Definition text_set (ws : WatchSet) : Prop :=
  ws_generation ws ≤ u64_max ∧ Forall (λ k, unicode (wk_id k)) (ws_keys ws).

Lemma text_set_typed ws : watch_set_wf ws → text_set ws → typed_set ws.
Proof.
  intros Hwf [Hg Ht]. split; [done|]. apply Forall_lookup. intros i k Hk. rewrite Forall_lookup in Ht.
  split; [|by eapply Ht]. rewrite (wsw_dense _ Hwf _ _ Hk). pose proof (wsw_u32 _ Hwf) as Hu.
  apply lookup_lt_Some in Hk. unfold len in Hu. lia.
Qed.
