(* ===== verification/Server.v ===== *)
(** * Serving a consumer (src/src/publisher.rs: serve_consumer, write_event)

    The handshake a new connection is given, and the race between a consumer
    that subscribes and reads the handshake baseline and a publisher that is
    storing, committing and sending frames at the same time. *)

From S2P Require Import Prelude Bytes Config Watch Feed Wire Client Consumer Stream Projection Cache CacheInv Publisher Sample PublisherInv Service.
From stdpp Require Import list.
Local Open Scope N_scope.

Inductive ServeError :=
| RecoveryInProgress
| ForkchoiceTransition
| IncoherentHead
| HandshakeEncode (e : EncodeError).

Section serve.
Context `{Env}.

(** [write_event]: the frame of one handshake event, stamped with [monotonic_ns], [ns] nanoseconds
    after the start. *)
Definition write_event (sh : Shared) (ns sequence generation : N) (event : wire.Event)
    : outcome ServeError (wire.Envelope * bytes) :=
  let envelope := make_envelope sh sequence generation (N.min ns u64_max) event in
  match encode_frame envelope (sh_max_frame_bytes sh) with
  | Ok frame => Ok (envelope, frame)
  | Err e => Err (HandshakeEncode e)
  | Diverge => Diverge
  end.

(** [serve_consumer] up to its loop: the baseline and the frames written, from the committed
    sequence number and the handshake state it loaded and three readings of the clock. *)
Definition serve_handshake (sh : Shared) (committed_sequence : N) (published : PublishedState)
    (ns1 ns2 ns3 : N) : outcome ServeError (N * list (wire.Envelope * bytes)) :=
  if ps_recovering published then Err RecoveryInProgress
  else match ps_forkchoice published with
  | None => Err ForkchoiceTransition
  | Some forkchoice =>
      let canonical := ps_canonical published in
      if negb (cp_hash (fc_head forkchoice) =? bm_hash (pj_block canonical))
         || negb (cp_number (fc_head forkchoice) =? bm_number (pj_block canonical))
      then Err IncoherentHead
      else
        let baseline := N.max committed_sequence (ps_effective_sequence published) in
        let generation := ws_generation (pj_watch_set canonical) in
        f1 ← write_event sh ns1 baseline generation (wire.EvHello (hello sh));
        f2 ← write_event sh ns2 baseline generation
               (wire.EvConfigActivated (config_activated (pj_watch_set canonical)));
        f3 ← write_event sh ns3 baseline generation (wire.EvSnapshot (snapshot canonical forkchoice));
        Ok (baseline, [f1; f2; f3])
  end.

(** The frames the loop of [serve_consumer] writes out of those its subscription received. *)
Definition serve_live (baseline : N) (received : list PublishedFrame) : list PublishedFrame :=
  filter (λ frame, baseline < pf_sequence frame) received.
End serve.

(** ** Connections and publications, interleaved *)

(** How far the publication of the next frame has come. *)
Inductive Stage :=
| Between
| StateStored (frame : PublishedFrame)
| SequenceStored (frame : PublishedFrame).

(** How far [serve_consumer] has come; [from] frames had been sent when it subscribed. *)
Inductive Connection :=
| Connecting
| Subscribed (from : nat)
| SequenceLoaded (from : nat) (committed_sequence : N)
| StateLoaded (from : nat) (committed_sequence : N) (published : PublishedState).

Record System := mkSystem {
  sy_published : PublishedState;
  sy_committed : N;
  sy_sent : list PublishedFrame;
  sy_stage : Stage;
  sy_connection : Connection;
}.

(** [publish_inner] stores the state, stores the sequence number, sends; [serve_consumer]
    subscribes, loads the sequence number, loads the state. *)
Inductive system_step : System → System → Prop :=
| store_state pub c sent conn frame :
    system_step (mkSystem pub c sent Between conn)
                (mkSystem (pf_state frame) c sent (StateStored frame) conn)
| store_sequence pub c sent conn frame :
    system_step (mkSystem pub c sent (StateStored frame) conn)
                (mkSystem pub (pf_sequence frame) sent (SequenceStored frame) conn)
| send_frame pub c sent conn frame :
    system_step (mkSystem pub c sent (SequenceStored frame) conn)
                (mkSystem pub c (sent ++ [frame]) Between conn)
| subscribe pub c sent stage :
    system_step (mkSystem pub c sent stage Connecting)
                (mkSystem pub c sent stage (Subscribed (length sent)))
| load_sequence pub c sent stage from :
    system_step (mkSystem pub c sent stage (Subscribed from))
                (mkSystem pub c sent stage (SequenceLoaded from c))
| load_state pub c sent stage from committed :
    system_step (mkSystem pub c sent stage (SequenceLoaded from committed))
                (mkSystem pub c sent stage (StateLoaded from committed pub)).

(** The frames whose state, and those whose sequence number, has been stored. *)
Definition stored (y : System) : list PublishedFrame :=
  match sy_stage y with
  | Between => sy_sent y
  | StateStored frame | SequenceStored frame => sy_sent y ++ [frame]
  end.
Definition committed (y : System) : list PublishedFrame :=
  match sy_stage y with
  | Between | StateStored _ => sy_sent y
  | SequenceStored frame => sy_sent y ++ [frame]
  end.

Definition state_after (initial : PublishedState) (frames : list PublishedFrame) : PublishedState :=
  match last frames with Some f => pf_state f | None => initial end.
Definition sequence_after (start : N) (frames : list PublishedFrame) : N :=
  match last frames with Some f => pf_sequence f | None => start end.

(** What a connection has seen: a prefix [g] of the frames was committed when it loaded the
    sequence number, a longer prefix [h] stored when it loaded the state. *)
Definition connection_inv (initial : PublishedState) (start : N) (y : System) : Prop :=
  match sy_connection y with
  | Connecting => True
  | Subscribed from => (from ≤ length (sy_sent y))%nat
  | SequenceLoaded from c =>
      ∃ g, g `prefix_of` committed y ∧ (from ≤ length g)%nat ∧ c = sequence_after start g
  | StateLoaded from c pub =>
      ∃ g h, g `prefix_of` h ∧ h `prefix_of` stored y ∧ (from ≤ length g)%nat ∧
        c = sequence_after start g ∧ pub = state_after initial h
  end.

Definition system_inv (initial : PublishedState) (start : N) (y : System) : Prop :=
  sy_published y = state_after initial (stored y) ∧
  sy_committed y = sequence_after start (committed y) ∧ connection_inv initial start y.

Lemma state_after_snoc initial l f : state_after initial (l ++ [f]) = pf_state f.
Proof. unfold state_after. by rewrite last_snoc. Qed.

Lemma sequence_after_snoc start l f : sequence_after start (l ++ [f]) = pf_sequence f.
Proof. unfold sequence_after. by rewrite last_snoc. Qed.

Lemma committed_stored y : committed y `prefix_of` stored y.
Proof. unfold committed, stored. destruct (sy_stage y); [done|by apply prefix_app_r|done]. Qed.

(** The frames only grow, so what a connection has seen stays a prefix. *)
Lemma connection_inv_grow initial start y y' :
  sy_connection y' = sy_connection y → sy_sent y `prefix_of` sy_sent y' →
  committed y `prefix_of` committed y' → stored y `prefix_of` stored y' →
  connection_inv initial start y → connection_inv initial start y'.
Proof.
  unfold connection_inv. intros -> Hsent Hc Hs. destruct (sy_connection y).
  - done.
  - intros Hle. apply prefix_length in Hsent. lia.
  - intros (g & Hg & ? & ?). exists g. split_and!; [by etrans|done..].
  - intros (g & h & ? & Hh & ? & ? & ?). exists g, h. split_and!; [done|by etrans|done..].
Qed.

Lemma system_step_inv initial start y y' :
  system_step y y' → system_inv initial start y → system_inv initial start y'.
Proof.
  intros Hstep (Hp & Hc & Hconn).
  destruct Hstep as [pub c sent conn f|pub c sent conn f|pub c sent conn f|pub c sent stage
    |pub c sent stage from|pub c sent stage from k].
  - split_and!; [unfold stored; simpl; by rewrite state_after_snoc|done|].
    eapply connection_inv_grow; [..|exact Hconn]; try done. by apply prefix_app_r.
  - split_and!; [done|unfold committed; simpl; by rewrite sequence_after_snoc|].
    eapply connection_inv_grow; [..|exact Hconn]; try done. by apply prefix_app_r.
  - split_and!; [done|done|].
    eapply connection_inv_grow; [..|exact Hconn]; try done. by apply prefix_app_r.
  - split_and!; [done..|]. unfold connection_inv. simpl. lia.
  - split_and!; [done..|]. unfold connection_inv in Hconn. simpl in *. exists (committed (mkSystem pub c sent stage (Subscribed from))).
    split_and!; [done| |done]. unfold committed. simpl. destruct stage; rewrite ?length_app; lia.
  - split_and!; [done..|]. destruct Hconn as (g & Hg & Hle & ->).
    exists g, (stored (mkSystem pub c sent stage (SequenceLoaded from (sequence_after start g)))).
    split_and!; [|done..]. etrans; [exact Hg|]. apply committed_stored.
Qed.

Lemma system_inv_reachable initial start y :
  rtc system_step (mkSystem initial start [] Between Connecting) y → system_inv initial start y.
Proof.
  intros Hr. remember (mkSystem initial start [] Between Connecting) as y0 eqn:E0.
  assert (system_inv initial start y0) as H0 by (subst; by split_and!).
  clear E0. induction Hr; [done|]. by apply IHHr, (system_step_inv _ _ _ _ H).
Qed.

(** ** Where a connection joins the stream *)

Section join.
Context (params : StreamParams) (start : StreamState) (initial : PublishedState).
Notation history := (history params start initial).
Notation state_after := (state_after initial).
Notation sequence_after := (sequence_after (ss_sequence start)).

Lemma history_state frames s pub :
  history frames s pub → pub = state_after frames ∧ ss_sequence s = sequence_after frames.
Proof.
  intros Hh. destruct Hh as [|frames f s s' pub Hh Hstep Hseq]; [done|].
  rewrite state_after_snoc, sequence_after_snoc, Hseq. split; [done|]. by apply step_sequence in Hstep as [_ ?].
Qed.

Lemma history_snoc_inv frames f s pub :
  history (frames ++ [f]) s pub → ∃ s0, history frames s0 (state_after frames) ∧
    stream_step params s0 (pf_envelope f) s ∧ pf_sequence f = wire.sequence (pf_envelope f) ∧
    agrees s (pf_state f) ∧ ready (pf_state f) ∧
    (pf_state f = state_after frames ∨ ps_effective_sequence (pf_state f) = pf_sequence f).
Proof.
  intros Hh. inversion Hh as [E|frames' f' s0 s' pub0 Hh0 Hstep Hseq Ha Hr Heff E]; subst.
  - by destruct frames.
  - apply app_inj_tail in E as [-> ->]. exists s0.
    destruct (history_state _ _ _ Hh0) as [-> _]. by split_and!.
Qed.

(** Any prefix of a history is one, and the stream goes on from where it ends. *)
Lemma history_prefix frames rest s pub :
  history (frames ++ rest) s pub →
  ∃ s1, history frames s1 (state_after frames) ∧ stream params s1 (envelopes rest) s.
Proof.
  revert s pub. induction rest as [|f rest IH] using rev_ind; intros s pub Hh.
  - rewrite app_nil_r in Hh. exists s. destruct (history_state _ _ _ Hh) as [-> _].
    split; [done|constructor].
  - rewrite app_assoc in Hh. destruct (history_snoc_inv _ _ _ _ Hh) as (s0 & Hh0 & Hstep & _).
    destruct (IH _ _ Hh0) as (s1 & H1 & H2). exists s1. split; [done|].
    unfold envelopes in *. rewrite fmap_app. by econstructor.
Qed.

Lemma history_increasing frames f rest s pub :
  history (frames ++ f :: rest) s pub →
  sequence_after frames < pf_sequence f ∧ Forall (λ g, pf_sequence f < pf_sequence g) rest.
Proof.
  intros Hh. rewrite cons_middle, app_assoc in Hh. destruct (history_prefix _ _ _ _ Hh) as (s1 & H1 & _).
  destruct (history_snoc_inv _ _ _ _ H1) as (s0 & H0 & Hstep & Hseq & _). split.
  { destruct (history_state _ _ _ H0) as [_ <-]. apply step_sequence in Hstep as [Hlt Heq].
    rewrite Hseq, <- Heq. done. }
  clear H1 s1 Hstep Hseq H0 s0. revert s pub Hh. induction rest as [|g rest IH] using rev_ind; intros s pub Hh; [done|].
  rewrite app_assoc in Hh. destruct (history_snoc_inv _ _ _ _ Hh) as (s0 & H0 & Hstep & Hseq & _).
  pose proof (IH _ _ H0) as Hall. apply Forall_app. split; [done|]. apply Forall_singleton.
  destruct (history_state _ _ _ H0) as [_ Hs0]. apply step_sequence in Hstep as [Hlt Heq].
  rewrite Hseq, <- Heq. destruct rest as [|x rest] using rev_ind.
  - rewrite app_nil_r, sequence_after_snoc in Hs0. lia.
  - rewrite app_assoc, sequence_after_snoc in Hs0. apply Forall_app in Hall as [_ Hx].
    apply Forall_cons in Hx as [Hx _]. lia.
Qed.

(** The handshake state of a prefix [h] was stored with the last frame of some prefix [j] of it,
    and has not changed since. *)
Lemma history_effective h s pub :
  ps_effective_sequence initial = ss_sequence start → history h s pub →
  ∃ j, j `prefix_of` h ∧ ps_effective_sequence pub = sequence_after j ∧
    ∀ g, j `prefix_of` g → g `prefix_of` h → state_after g = pub.
Proof.
  intros Hinit. induction 1 as [|frames f s s' pub Hh IH Hstep Hseq Ha Hr Heff].
  - exists []. split_and!; [done|done|]. intros g _ Hg. apply prefix_nil_inv in Hg as ->. done.
  - destruct Heff as [Heq|Heff].
    + rewrite Heq. destruct IH as (j & Hj & Hje & Hsame). exists j. split_and!; [by apply prefix_app_r|done|].
      intros g Hg1 [k Hk]. destruct k as [|x k _] using rev_ind.
      * rewrite app_nil_r in Hk. subst g. by rewrite state_after_snoc.
      * rewrite app_assoc in Hk. apply app_inj_tail in Hk as [-> _].
        apply Hsame; [done|by apply prefix_app_r].
    + exists (frames ++ [f]). split_and!; [done|by rewrite sequence_after_snoc|].
      intros g Hg1 Hg2. assert (g = frames ++ [f]) as -> by (by apply (anti_symm prefix)).
      apply state_after_snoc.
Qed.

Lemma history_below frames rest s pub g :
  history (frames ++ rest) s pub → g ∈ frames → pf_sequence g ≤ sequence_after frames.
Proof.
  intros Hh [l1 [l2 ->]]%list_elem_of_split. rewrite <- app_assoc in Hh.
  change ((g :: l2) ++ rest) with (g :: l2 ++ rest) in Hh.
  destruct (history_increasing _ _ _ _ _ Hh) as [_ Hall]. apply Forall_app in Hall as [Hall _].
  destruct l2 as [|x l2 _] using rev_ind.
  - by rewrite sequence_after_snoc.
  - rewrite app_comm_cons, app_assoc, sequence_after_snoc.
    apply Forall_app in Hall as [_ Hx]. apply Forall_cons in Hx as [Hx _]. lia.
Qed.

Lemma history_above frames rest s pub g :
  history (frames ++ rest) s pub → g ∈ rest → sequence_after frames < pf_sequence g.
Proof.
  intros Hh [l1 [l2 ->]]%list_elem_of_split. rewrite app_assoc in Hh.
  destruct (history_increasing _ _ _ _ _ Hh) as [Hlt _].
  destruct (history_prefix _ _ _ _ Hh) as (s2 & H2 & _).
  destruct (history_prefix _ _ _ _ H2) as (s1 & H1 & Hs).
  destruct (history_state _ _ _ H2) as [_ E2], (history_state _ _ _ H1) as [_ E1].
  apply stream_sequence in Hs. lia.
Qed.

(** The prefix of the history a connection starts after: its sequence number is the baseline, its
    handshake state the one loaded, and the subscription covers everything later. *)
Lemma join_point g h rest s pub published from :
  ps_effective_sequence initial = ss_sequence start →
  history (h ++ rest) s pub → g `prefix_of` h → published = state_after h → (from ≤ length g)%nat →
  ∃ j, j `prefix_of` h ∧ (from ≤ length j)%nat ∧ state_after j = published ∧
    sequence_after j = N.max (sequence_after g) (ps_effective_sequence published).
Proof.
  intros Hinit Hh Hg -> Hfrom. destruct (history_prefix _ _ _ _ Hh) as (sh & Hhist & _).
  destruct (history_effective _ _ _ Hinit Hhist) as (j & Hj & Heff & Hsame). rewrite Heff.
  assert (Hmono : ∀ x y, x `prefix_of` y → y `prefix_of` h → sequence_after x ≤ sequence_after y).
  { intros x y [k ->] [k' ->]. destruct (history_prefix _ _ _ _ Hhist) as (s2 & H2 & _).
    destruct (history_prefix _ _ _ _ H2) as (s1 & H1 & Hs).
    destruct (history_state _ _ _ H2) as [_ E2], (history_state _ _ _ H1) as [_ E1].
    apply stream_sequence in Hs. lia. }
  destruct (prefix_weak_total j g h Hj Hg) as [Hle|Hle].
  - exists g. split_and!; [done|done|by apply Hsame|]. rewrite N.max_l; [done|auto].
  - exists j. split_and!; [done| |by apply Hsame|].
    + apply prefix_length in Hle. lia.
    + rewrite N.max_r; [done|auto].
Qed.

(** Of the frames received, those past the baseline are those after the join point. *)
Lemma serve_live_after frames j rest s pub k from :
  history frames s pub → frames = j ++ rest → k `prefix_of` frames → (from ≤ length j)%nat →
  serve_live (sequence_after j) (drop from k) = drop (length j) k.
Proof.
  intros Hh -> Hk Hfrom. rewrite <- (take_drop (length j) k) at 1.
  assert (Htake : ∀ f, f ∈ take (length j) k → f ∈ j).
  { destruct Hk as [k' E].
    assert (j = take (length j) k ++ take (length j - length k) k') as Ej
      by (rewrite <- take_app, <- E; by rewrite take_app_length).
    intros f Hf. rewrite Ej. apply elem_of_app. by left. }
  assert (Hdrop : ∀ f, f ∈ drop (length j) k → f ∈ rest).
  { destruct Hk as [k' E].
    assert (rest = drop (length j) k ++ drop (length j - length k) k') as Er
      by (rewrite <- drop_app, <- E; by rewrite drop_app_length).
    intros f Hf. rewrite Er. apply elem_of_app. by left. }
  rewrite drop_app. unfold serve_live. rewrite filter_app.
  assert (filter (λ f, sequence_after j < pf_sequence f) (drop from (take (length j) k)) = []) as ->.
  { apply filter_none. intros f Hf Hlt.
    assert (f ∈ j) as Hin by (apply Htake; rewrite <- (take_drop from); apply elem_of_app; by right).
    pose proof (history_below _ _ _ _ _ Hh Hin). lia. }
  destruct (decide (length j ≤ length k)%nat) as [Hle|Hlt].
  - rewrite length_take_le by done. replace (from - length j)%nat with 0%nat by lia. rewrite drop_0. simpl.
    apply filter_all. intros f Hf. by apply (history_above _ _ _ _ _ Hh), Hdrop.
  - rewrite (drop_ge k) by lia. by rewrite drop_nil.
Qed.
End join.

(** The stream from a join point to the frames sent so far. *)
Lemma stream_after_join params start initial j jrest s pub sent :
  history params start initial (j ++ jrest) s pub → sent `prefix_of` j ++ jrest →
  ∃ s1 s2, history params start initial j s1 (state_after initial j) ∧
    stream params s1 (envelopes (drop (length j) sent)) s2 ∧
    ss_sequence s2 = N.max (sequence_after (ss_sequence start) j) (sequence_after (ss_sequence start) sent).
Proof.
  intros Hh Hsent. destruct (history_prefix _ _ _ _ _ _ _ Hh) as (s1 & H1 & Hs1).
  destruct (history_state _ _ _ _ _ _ H1) as [_ E1].
  destruct (prefix_weak_total j sent (j ++ jrest)) as [[k Hk]|[k Hk]]; [by apply prefix_app_r|done|..].
  - subst sent. destruct Hsent as [rest Hrest]. rewrite Hrest in Hh.
    destruct (history_prefix _ _ _ _ _ _ _ Hh) as (s2 & H2 & _).
    destruct (history_prefix _ _ _ _ _ _ _ H2) as (s1' & H1' & Hs).
    destruct (history_state _ _ _ _ _ _ H2) as [_ E2], (history_state _ _ _ _ _ _ H1') as [_ E1'].
    exists s1', s2. rewrite drop_app_length. split_and!; [done|done|].
    apply stream_sequence in Hs. lia.
  - subst j. rewrite <- app_assoc in Hh. destruct (history_prefix _ _ _ _ _ _ _ H1) as (s0 & H0 & Hs).
    destruct (history_state _ _ _ _ _ _ H0) as [_ E0]. apply stream_sequence in Hs.
    exists s1, s1. rewrite drop_ge by (rewrite length_app; lia). split_and!; [done|constructor|lia].
Qed.

Lemma history_ready params start initial frames s pub :
  ready initial → agrees start initial → history params start initial frames s pub → ready pub ∧ agrees s pub.
Proof. intros Hr Ha Hh. by destruct Hh. Qed.

(** A consumer that is owed no snapshot accepts what one that is owed a snapshot accepts. *)
Definition relaxed (s : StreamState) : StreamState :=
  mkStreamState (ss_sequence s) false (ss_generation s) (ss_keys s).

Lemma stream_step_relax params s e s' :
  stream_step params s e s' → stream_step params (relaxed s) e s'.
Proof.
  intros Hstep. destruct Hstep.
  - by eapply (step_data params (relaxed s) e event).
  - by eapply (step_gap params (relaxed s) e gap).
  - by eapply (step_snapshot params (relaxed s) e snapshot).
  - by eapply (step_config params (relaxed s) e config).
Qed.

Lemma stream_relax params s es s' :
  stream params s es s' → ∃ s'', stream params (relaxed s) es s'' ∧ ss_sequence s'' = ss_sequence s'.
Proof.
  intros Hs. destruct es as [|e es].
  - inversion Hs as [E|l ? ? ? ? ? E]; [|by destruct l]. subst. exists (relaxed s'). split; [constructor|done].
  - change (e :: es) with ([e] ++ es) in *. destruct (stream_split _ _ _ _ _ Hs) as (s1 & Hone & Hrest).
    apply stream_one_inv in Hone. exists s'. split; [|done].
    eapply stream_app; [by apply stream_one, stream_step_relax|done].
Qed.

Lemma write_event_Ok `{Env} sh ns seq g ev r :
  write_event sh ns seq g ev = Ok r →
  r.1 = make_envelope sh seq g (N.min ns u64_max) ev ∧ encode_frame r.1 (sh_max_frame_bytes sh) = Ok r.2.
Proof. unfold write_event. destruct (encode_frame _ _) eqn:E; [by intros [= <-]|done|done]. Qed.

Lemma bind_serve_inv {A B} (o : outcome ServeError A) (k : A → outcome ServeError B) b :
  (o ≫= k) = Ok b → ∃ a, o = Ok a ∧ k a = Ok b.
Proof. destruct o; [eauto|done|done]. Qed.

(** The three frames of a handshake that is served. *)
Lemma serve_handshake_Ok `{Env} sh c pub ns1 ns2 ns3 baseline hs :
  serve_handshake sh c pub ns1 ns2 ns3 = Ok (baseline, hs) →
  baseline = N.max c (ps_effective_sequence pub) ∧
  ∃ v, ps_forkchoice pub = Some v ∧ cp_hash (fc_head v) = bm_hash (pj_block (ps_canonical pub)) ∧
    cp_number (fc_head v) = bm_number (pj_block (ps_canonical pub)) ∧
    let g := ws_generation (pj_watch_set (ps_canonical pub)) in
    hs.*1 = [make_envelope sh baseline g (N.min ns1 u64_max) (wire.EvHello (hello sh));
             make_envelope sh baseline g (N.min ns2 u64_max) (wire.EvConfigActivated (config_activated (pj_watch_set (ps_canonical pub))));
             make_envelope sh baseline g (N.min ns3 u64_max) (wire.EvSnapshot (snapshot (ps_canonical pub) v))] ∧
    Forall (λ f, encode_frame f.1 (sh_max_frame_bytes sh) = Ok f.2) hs.
Proof.
  unfold serve_handshake. destruct (ps_recovering pub); [done|]. destruct (ps_forkchoice pub) as [v|]; [|done]. cbv zeta.
  destruct (N.eqb_spec (cp_hash (fc_head v)) (bm_hash (pj_block (ps_canonical pub)))) as [Eh|]; [|done].
  destruct (N.eqb_spec (cp_number (fc_head v)) (bm_number (pj_block (ps_canonical pub)))) as [En|]; [|done].
  cbn [negb orb]. intros Hs. apply bind_serve_inv in Hs as (f1 & H1 & Hs). apply bind_serve_inv in Hs as (f2 & H2 & Hs).
  apply bind_serve_inv in Hs as (f3 & H3 & [= Hb <-]). split; [done|]. exists v. split_and!; [done..| |].
  - apply write_event_Ok in H1 as [H1 _], H2 as [H2 _], H3 as [H3 _]. rewrite Hb in *. cbn [fmap list_fmap]. by rewrite H1, H2, H3.
  - apply write_event_Ok in H1 as [_ H1], H2 as [_ H2], H3 as [_ H3]. by repeat apply Forall_cons_2.
Qed.

(** A handshake that is served at all is well formed. *)
Lemma serve_handshake_wf `{Env} params sh c pub ns1 ns2 ns3 baseline hs s :
  serve_handshake sh c pub ns1 ns2 ns3 = Ok (baseline, hs) →
  sh_boot_id sh = sp_boot_id params → sh_capabilities sh = sp_capabilities params → caps_ok params →
  len (sp_boot_id params) = 16 → baseline ≤ u64_max →
  ready pub → agrees s pub → ss_sequence s = baseline →
  handshake params hs.*1 (relaxed s).
Proof.
  intros Hs Hboot Hcaps [Hcf Hcr] Hlen Hmax (Hdict & Hval & Hfc) (Hg & Hk & _) Hseq.
  destruct (serve_handshake_Ok _ _ _ _ _ _ _ _ Hs) as (_ & v & Ev & Eh & En & Ehs & _). cbv zeta in Ehs. rewrite Ehs.
  assert (Hwf : ∀ ns g ev, envelope_wf params (make_envelope sh baseline g ns ev)) by (by intros; split_and!).
  split; [|..|done|done].
  - eexists _, _, _, (hello sh), (config_activated (pj_watch_set (ps_canonical pub))), (snapshot (ps_canonical pub) v).
    simpl ss_keys. rewrite Hk. split_and!; try done.
    + by rewrite config_activated_len.
    + exists (checkpoint_ref (fc_head v)). split_and!; [|apply forkchoice_view_wf; by apply Hfc| |done].
      * eexists. split; [done|]. split; apply hash_wf_to_vec.
      * intros r [= <-]. simpl. by rewrite En, Eh.
  - simpl. repeat constructor; simpl; rewrite ?Hseq, ?Hg; try done; apply Hwf.
Qed.

(** A connection subscribed among the frames already sent. *)
Definition subscribed_at (conn : Connection) : nat :=
  match conn with
  | Connecting => 0
  | Subscribed from | SequenceLoaded from _ | StateLoaded from _ _ => from
  end.

Lemma subscribed_within y0 y :
  rtc system_step y0 y → (subscribed_at (sy_connection y0) ≤ length (sy_sent y0))%nat →
  (subscribed_at (sy_connection y) ≤ length (sy_sent y))%nat.
Proof.
  induction 1 as [|y0 y1 y Hstep _ IH]; [done|]. intros H0. apply IH.
  inversion Hstep; subst; simpl in *; rewrite ?length_app; lia.
Qed.

(** The handshake state a connection has loaded is the first one or that of a frame. *)
Lemma loaded_state initial start y from c pub frames :
  rtc system_step (mkSystem initial start [] Between Connecting) y → stored y `prefix_of` frames →
  sy_connection y = StateLoaded from c pub → pub = initial ∨ ∃ f, f ∈ frames ∧ pub = pf_state f.
Proof.
  intros Hreach Hpre Hconn. destruct (system_inv_reachable _ _ _ Hreach) as (_ & _ & Hci). unfold connection_inv in Hci.
  rewrite Hconn in Hci. destruct Hci as (g & h & _ & Hh & _ & _ & ->). unfold state_after.
  destruct (last h) as [f|] eqn:El; [right|by left]. exists f. split; [|done].
  destruct Hh as [k Hk], Hpre as [k' ->]. rewrite Hk. apply last_Some in El as [h' ->]. set_solver.
Qed.

(** A consumer that is served accepts the handshake and the frames past its baseline among those
    [sent] so far. *)
Lemma served_accepts `{Env} `{!ProstLaws} cfg boot chain genesis started ws p0 p y sent
    from c pub ns1 ns2 ns3 baseline hs limit :
  watch_set_wf ws → len boot = 16 → start_service cfg boot chain genesis started ws = Ok p0 →
  faulted (service_params p0) (stream_state false p0) (published p0) p → within p →
  rtc system_step (mkSystem (published p0) 0 [] Between Connecting) y →
  stored y `prefix_of` sh_frames (pb_shared p) → sent `prefix_of` sh_frames (pb_shared p) →
  sy_connection y = StateLoaded from c pub →
  serve_handshake (pb_shared p0) c pub ns1 ns2 ns3 = Ok (baseline, hs) →
  baseline ≤ u64_max ∧
  ∃ k last, consume_all (hs.*1 ++ envelopes (serve_live baseline (drop from sent))) (consumer_new limit) = Ok k ∧
    co_phase k = PhaseLive (N.max baseline (sequence_after 0 sent)) last.
Proof.
  intros Hws Hboot Hstart [Hinv _] Hw Hreach Hpre Hsent Hconn Hserve.
  destruct (start_service_idle _ _ _ _ _ _ _ Hws Hstart) as (Hidle & Hcaps & Hb & _ & _ & Hseq0 & Heff0).
  destruct Hidle as [(Hinv0 & _) _]. pose proof (iv_ready _ _ _ _ _ Hinv0) as Hready0.
  assert (Hagree0 : agrees (stream_state false p0) (published p0)) by (split_and!; [done|done|simpl; lia]).
  assert (Heff : ps_effective_sequence (published p0) = ss_sequence (stream_state false p0)) by (simpl; lia).
  destruct (system_inv_reachable _ _ _ Hreach) as (_ & _ & Hci). unfold connection_inv in Hci. rewrite Hconn in Hci.
  destruct Hci as (g & h & Hg & Hsh & Hfrom & Hc & Hpub).
  destruct (serve_handshake_Ok _ _ _ _ _ _ _ _ Hserve) as [Hbase _].
  pose proof (iv_history _ _ _ _ _ Hinv) as Hh.
  set (params := service_params p0) in *. set (start := stream_state false p0) in *.
  set (frames := sh_frames (pb_shared p)) in *.
  assert (Hstart0 : ss_sequence start = 0) by exact Hseq0. rewrite <- Hstart0 in Hc |- *.
  assert (Hhf : h `prefix_of` frames) by by etrans.
  destruct Hhf as [rest Hrest]. rewrite Hrest in Hh.
  destruct (join_point params start (published p0) g h rest _ _ pub from Heff Hh Hg Hpub Hfrom)
    as (j & Hj & Hfj & Hsj & Hseqj).
  rewrite <- Hc, <- Hbase in Hseqj. rewrite <- Hrest in Hh.
  assert (Hjf : j `prefix_of` frames) by (etrans; [exact Hj|]; by exists rest).
  destruct Hjf as [jrest Hjrest]. rewrite Hjrest in Hh.
  assert (Hsentf : sent `prefix_of` j ++ jrest) by by rewrite <- Hjrest.
  destruct (stream_after_join _ _ _ _ _ _ _ _ Hh Hsentf) as (s1 & s2 & Hhj & Hstream & Hs2).
  destruct (history_ready _ _ _ _ _ _ Hready0 Hagree0 Hhj) as [Hr1 Ha1]. rewrite Hsj in Hr1, Ha1.
  destruct (history_state _ _ _ _ _ _ Hhj) as [_ Hs1].
  assert (Hmax : baseline ≤ u64_max).
  { destruct (history_prefix _ _ _ _ _ _ _ Hh) as (s1' & Hj1 & Hle). destruct (history_state _ _ _ _ _ _ Hj1) as [_ E1].
    apply stream_sequence in Hle. simpl in Hle.
    pose proof (iv_sequence _ _ _ _ _ Hinv). pose proof (iv_sequence_tick _ _ _ _ _ Hinv).
    unfold within in Hw. lia. }
  split; [done|]. assert (Hhs : handshake params hs.*1 (relaxed s1)).
  { eapply serve_handshake_wf; try done; [|by rewrite Hs1]. by rewrite <- Hb in Hboot. }
  destruct (stream_relax _ _ _ _ Hstream) as (s3 & Hs3 & Eseq).
  destruct (consume_handshake _ _ _ limit Hhs) as (k0 & Hk0 & Hl0).
  destruct (consume_stream _ _ _ _ _ Hl0 Hs3) as (k & Hk & Hl).
  rewrite <- Hseqj. rewrite (serve_live_after params start (published p0) (j ++ jrest) j jrest _ _ _ _ Hh eq_refl Hsentf Hfj).
  exists k, (ss_snapshot_required s3). rewrite consume_all_app, Hk0. split; [exact Hk|].
  rewrite (ln_phase _ _ _ Hl), Eseq. by rewrite Hs2.
Qed.

(** C4: Whatever way a new connection's subscription and two loads interleave with the frames
    being published, a consumer that is served accepts everything it is sent: the handshake,
    then exactly the frames past its baseline, none missing and none repeated. *)
Theorem served_consumer_accepts `{Env} `{!ProstLaws} cfg boot chain genesis started ws p0 fuel passes o p y
    from c pub ns1 ns2 ns3 baseline hs limit :
  watch_set_wf ws → len boot = 16 →
  start_service cfg boot chain genesis started ws = Ok p0 →
  Forall (pass_ok (service_params p0)) passes → run_publisher fuel passes p0 = (o, p) → within p →
  rtc system_step (mkSystem (published p0) 0 [] Between Connecting) y →
  stored y `prefix_of` sh_frames (pb_shared p) → sy_connection y = StateLoaded from c pub →
  serve_handshake (pb_shared p0) c pub ns1 ns2 ns3 = Ok (baseline, hs) →
  ∃ k last, consume_all (hs.*1 ++ envelopes (serve_live baseline (drop from (sy_sent y))))
      (consumer_new limit) = Ok k ∧
    co_phase k = PhaseLive (N.max baseline (sequence_after 0 (sy_sent y))) last.
Proof.
  intros Hws Hboot Hstart Hpasses Hrun Hw Hreach Hpre Hconn Hserve.
  destruct (run_publisher_reaches _ _ _ _ _ _ _ _ _ _ _ Hws Hstart Hpasses Hrun Hw) as [Hf _].
  eapply (served_accepts _ _ _ _ _ _ _ _ _ (sy_sent y)); try done. etrans; [|exact Hpre].
  unfold stored. destruct (sy_stage y); [done|by apply prefix_app_r..].
Qed.

(** A consumer subscribes before the first frame of [sample_run], reads its baseline while that
    frame is being committed, and receives the second one live. *)
Definition sample_frames : list PublishedFrame := Eval vm_compute in sh_frames (pb_shared sample_run.2).
Definition sample_frame1 : PublishedFrame := default (mkPublishedFrame 0 (sample_envelope 0) (published sample_publisher) []) (head sample_frames).
Definition sample_frame2 : PublishedFrame := default sample_frame1 (sample_frames !! 1%nat).
Definition sample_system : System :=
  mkSystem (pf_state sample_frame2) 2 [sample_frame1; sample_frame2] Between
    (StateLoaded 0 1 (pf_state sample_frame1)).

Lemma sample_reachable :
  rtc system_step (mkSystem (published sample_publisher) 0 [] Between Connecting) sample_system.
Proof.
  eapply rtc_l; [apply subscribe|]. eapply rtc_l; [apply (store_state _ _ _ _ sample_frame1)|].
  eapply rtc_l; [apply store_sequence|]. eapply rtc_l; [apply load_sequence|].
  eapply rtc_l; [apply load_state|]. eapply rtc_l; [apply send_frame|].
  eapply rtc_l; [apply (store_state _ _ _ _ sample_frame2)|]. eapply rtc_l; [apply store_sequence|].
  eapply rtc_l; [apply send_frame|]. apply rtc_refl.
Qed.

Definition sample_served : N * list (wire.Envelope * bytes) :=
  Eval vm_compute in
    match @serve_handshake sample_env (pb_shared sample_publisher) 1 (pf_state sample_frame1) 7 8 9 with
    | Ok r => r | _ => (0, []) end.

Lemma served_consumer_accepts_witness :
  ∃ k last, consume_all (sample_served.2.*1 ++ envelopes (serve_live 1 (drop 0 (sy_sent sample_system))))
      (consumer_new 8) = Ok k ∧ co_phase k = PhaseLive 2 last.
Proof.
  apply (@served_consumer_accepts sample_env sample_laws sample_stream sample_boot 1 0 0 sample_watch_set
    sample_publisher 3 sample_passes sample_run.1 sample_run.2 sample_system 0 1 (pf_state sample_frame1)
    7 8 9 1 sample_served.2 8 sample_watch_wf).
  - reflexivity.
  - exact sample_started.
  - exact sample_passes_ok.
  - vm_compute. reflexivity.
  - vm_compute. discriminate.
  - exact sample_reachable.
  - exists (drop 2 sample_frames). vm_compute. reflexivity.
  - reflexivity.
  - vm_compute. reflexivity.
Defined.
