(* ===== verification/Live.v ===== *)
(** * The live part of a connection (src/src/publisher.rs: serve_consumer, write_frame)

    The frames go through a bounded broadcast ring.  A connection reads its
    own position; when the ring has overwritten it, it is told how much it
    missed and ends.  A write that fails or times out ends it too. *)

From S2P Require Import Prelude Bytes Config Watch Feed Wire Client Consumer Stream Projection Cache CacheInv Publisher Sample PublisherInv Service Server.
From stdpp Require Import list.
Local Open Scope N_scope.

Inductive ConnectionEnd := ShutDown | Lagged (skipped : N) | Closed | WriteFailed.

(** A connection in its loop: what the publisher has sent, the next index it will receive, and the
    frames it has written to the socket. *)
Record Live := mkLive {
  lv_sent : list PublishedFrame;
  lv_open : bool;
  lv_next : nat;
  lv_written : list PublishedFrame;
  lv_end : option ConnectionEnd;
}.
#[export] Instance eta_Live : Eta Live := λ l, mkLive (lv_sent l) (lv_open l) (lv_next l) (lv_written l) (lv_end l).

Inductive LiveAction :=
| Send (frame : PublishedFrame)
| SenderDropped
| Recv (write_ok : bool)
| ShutdownChanged.

Inductive Received := GotFrame (frame : PublishedFrame) | RecvLagged (skipped : N) | RecvClosed | RecvPending.

(** The receiving half of the broadcast channel: what [frames.recv()] gives at a position, for the
    frames sent so far and whether the sender still exists. *)
Class Broadcast := broadcast_recv : list PublishedFrame → bool → nat → Received.

(** What is documented of a channel that retains [capacity] frames: a received frame is the one at
    the receiver's position, and it is there until it has been overwritten. *)
Class BroadcastLaws `{Broadcast} (capacity : nat) : Prop := {
  recv_frame : ∀ sent opened next frame, broadcast_recv sent opened next = GotFrame frame → sent !! next = Some frame;
  recv_retained : ∀ sent opened next frame, sent !! next = Some frame → (length sent - next ≤ capacity)%nat →
    broadcast_recv sent opened next = GotFrame frame;
}.

Section live.
Context `{Broadcast}.

(** One step: the publisher sends, or the loop of [serve_consumer] takes one branch. *)
Definition live_step (baseline : N) (a : LiveAction) (l : Live) : option Live :=
  match a with
  | Send frame => if lv_open l then Some (l <| lv_sent ::= λ s, s ++ [frame] |>) else None
  | SenderDropped => Some (l <| lv_open := false |>)
  | ShutdownChanged =>
      match lv_end l with None => Some (l <| lv_end := Some ShutDown |>) | Some _ => None end
  | Recv write_ok =>
      match lv_end l with
      | Some _ => None
      | None =>
          match broadcast_recv (lv_sent l) (lv_open l) (lv_next l) with
          | RecvPending => None
          | RecvLagged skipped => Some (l <| lv_end := Some (Lagged skipped) |>)
          | RecvClosed => Some (l <| lv_end := Some Closed |>)
          | GotFrame frame =>
              let l := l <| lv_next ::= S |> in
              Some (if baseline <? pf_sequence frame
                    then if write_ok : bool then l <| lv_written ::= λ w, w ++ [frame] |>
                         else l <| lv_end := Some WriteFailed |>
                    else l)
          end
      end
  end.

Fixpoint live_run (baseline : N) (actions : list LiveAction) (l : Live) : option Live :=
  match actions with
  | [] => Some l
  | a :: actions => l ← live_step baseline a l; live_run baseline actions l
  end.

(** The connection when its handshake has been written: [from] frames had been sent when it
    subscribed, [sent] have been sent by now. *)
Definition live_start (from : nat) (sent : list PublishedFrame) : Live := mkLive sent true from [] None.

(** ** Lemmas *)

Context (capacity : nat) `{!BroadcastLaws capacity}.

(** What has been taken from the ring since the subscription. *)
Definition taken (from : nat) (l : Live) : list PublishedFrame := drop from (take (lv_next l) (lv_sent l)).

Record live_ok (from : nat) (baseline : N) (l : Live) : Prop := {
  lo_from : (from ≤ lv_next l ≤ length (lv_sent l))%nat;
  lo_written : match lv_end l with
    | Some WriteFailed => ∃ frame, serve_live baseline (taken from l) = lv_written l ++ [frame]
    | _ => serve_live baseline (taken from l) = lv_written l
    end;
}.

Lemma taken_next from l frame :
  (from ≤ lv_next l)%nat → lv_sent l !! lv_next l = Some frame →
  drop from (take (S (lv_next l)) (lv_sent l)) = taken from l ++ [frame].
Proof.
  intros Hf Hl. rewrite (take_S_r _ _ _ Hl). unfold taken. rewrite drop_app_le; [done|].
  rewrite length_take. apply lookup_lt_Some in Hl. lia.
Qed.

Lemma live_step_ok from baseline a l l' :
  live_ok from baseline l → live_step baseline a l = Some l' → live_ok from baseline l'.
Proof.
  intros [Hf Hw]. destruct a as [frame| |ok|]; simpl.
  - destruct (lv_open l); [|done]. intros [= <-]. split; simpl; [rewrite length_app; lia|].
    unfold taken in *. simpl. by rewrite take_app_le by lia.
  - intros [= <-]. by split.
  - destruct (lv_end l) eqn:Ee; [done|]. destruct (broadcast_recv _ _ _) as [frame|skipped| |] eqn:Er;
      [|intros [= <-]; by split|intros [= <-]; by split|done].
    apply recv_frame in Er as El. pose proof (taken_next from l frame (proj1 Hf) El) as Ht. apply lookup_lt_Some in El as Hlt.
    intros [= <-]. split; [destruct (_ <? _), ok; simpl; lia|].
    destruct (N.ltb_spec baseline (pf_sequence frame)) as [Hb|Hb]; [destruct ok|]; simpl; rewrite ?Ee;
      unfold taken at 1; simpl; rewrite Ht; unfold serve_live in *; rewrite filter_app, Hw.
    + by rewrite filter_cons_True.
    + exists frame. by rewrite filter_cons_True.
    + rewrite filter_cons_False by lia. by rewrite app_nil_r.
  - destruct (lv_end l) eqn:Ee; [done|]. intros [= <-]. by split.
Qed.

Lemma live_run_ok from baseline actions l l' :
  live_ok from baseline l → live_run baseline actions l = Some l' → live_ok from baseline l'.
Proof.
  revert l; induction actions as [|a actions IH]; intros l Hok; simpl; [by intros [= <-]|].
  destruct (live_step baseline a l) as [l1|] eqn:E; [|done]. simpl. apply IH. by eapply live_step_ok.
Qed.

(** What is written is an initial part of what is due. *)
Lemma live_prefix baseline from sent actions l :
  (from ≤ length sent)%nat → live_run baseline actions (live_start from sent) = Some l →
  live_ok from baseline l ∧ lv_written l `prefix_of` serve_live baseline (drop from (lv_sent l)) ∧
  (lv_end l = None → lv_next l = length (lv_sent l) → lv_written l = serve_live baseline (drop from (lv_sent l))).
Proof.
  intros Hfrom Hrun.
  assert (Hok : live_ok from baseline l).
  { eapply live_run_ok; [|exact Hrun]. split; simpl; [lia|]. unfold taken. simpl.
    rewrite drop_ge; [done|]. rewrite length_take. lia. }
  pose proof Hok as [Hf Hw].
  assert (Hpre : serve_live baseline (taken from l) `prefix_of` serve_live baseline (drop from (lv_sent l))).
  { unfold taken, serve_live. rewrite <- (take_drop (lv_next l) (lv_sent l)) at 2.
    rewrite drop_app_le by (rewrite length_take; lia). rewrite filter_app. by apply prefix_app_r. }
  split_and!; [done| |].
  - destruct (lv_end l) as [[]|]; try by rewrite <- Hw.
    destruct Hw as [frame Hw]. etrans; [|exact Hpre]. rewrite Hw. by apply prefix_app_r.
  - intros He Hn. rewrite He in Hw. rewrite <- Hw. unfold taken. by rewrite Hn, take_ge.
Qed.

(** A connection that has ended writes nothing more. *)
Lemma live_run_ended baseline actions : ∀ l l',
  live_run baseline actions l = Some l' → lv_end l ≠ None → lv_end l' = lv_end l ∧ lv_written l' = lv_written l.
Proof.
  induction actions as [|a actions IH]; intros l l'; simpl; [by intros [= <-]|].
  destruct (live_step baseline a l) as [l1|] eqn:E; [|done]. simpl. intros Hrun Hend.
  assert (H1 : lv_end l1 = lv_end l ∧ lv_written l1 = lv_written l).
  { destruct a; simpl in E; repeat case_match; by simplify_eq/=. }
  destruct H1 as [E1 E2]. rewrite <- E1, <- E2. apply IH; [done|congruence].
Qed.

Lemma live_run_split baseline before a after l l' :
  live_run baseline (before ++ a :: after) l = Some l' →
  ∃ l1 l2, live_run baseline before l = Some l1 ∧ live_step baseline a l1 = Some l2 ∧ live_run baseline after l2 = Some l'.
Proof.
  revert l; induction before as [|b before IH]; intros l; simpl.
  - destruct (live_step baseline a l) as [l2|] eqn:E; [|done]. eauto.
  - destruct (live_step baseline b l) as [l1|]; [|done]. apply IH.
Qed.

(** C24: A slow consumer loses its connection, never a frame in the middle: whatever the pace of the
    publisher, the size of the ring and the fate of the writes, what a connection has written is at
    every moment an initial part of the frames due to it since its subscription, in order and
    without a hole.  As long as it keeps up, every frame due is written.  The first position found
    overwritten, the first failed write of a frame that is due and the end of the publisher each end
    the connection, with what had been written before; and a connection that has ended never writes
    again. *)
Theorem connection_contiguous baseline from sent actions l :
  (from ≤ length sent)%nat → live_run baseline actions (live_start from sent) = Some l →
  lv_written l `prefix_of` serve_live baseline (drop from (lv_sent l)) ∧
  (lv_end l = None → lv_next l = length (lv_sent l) →
     lv_written l = serve_live baseline (drop from (lv_sent l))) ∧
  (lv_end l = None → (length (lv_sent l) - lv_next l ≤ capacity)%nat → (lv_next l < length (lv_sent l))%nat →
     ∃ l', live_step baseline (Recv true) l = Some l' ∧ lv_end l' = None ∧ lv_next l' = S (lv_next l)) ∧
  (∀ before write_ok after l1, actions = before ++ Recv write_ok :: after →
     live_run baseline before (live_start from sent) = Some l1 →
     match broadcast_recv (lv_sent l1) (lv_open l1) (lv_next l1) with
     | RecvLagged skipped => lv_end l = Some (Lagged skipped) ∧ lv_written l = lv_written l1
     | RecvClosed => lv_end l = Some Closed ∧ lv_written l = lv_written l1
     | GotFrame frame => baseline < pf_sequence frame → write_ok = false →
         lv_end l = Some WriteFailed ∧ lv_written l = lv_written l1
     | RecvPending => False
     end) ∧
  (lv_end l ≠ None → ∀ more l', live_run baseline more l = Some l' → lv_end l' = lv_end l ∧ lv_written l' = lv_written l).
Proof.
  intros Hfrom Hrun. destruct (live_prefix _ _ _ _ _ Hfrom Hrun) as (_ & Hpre & Hall). split_and!; [done|done| | |].
  - intros He Hc Hn. simpl. rewrite He. apply lookup_lt_is_Some in Hn as [frame Hl].
    rewrite (recv_retained _ _ _ _ Hl Hc). eexists. split; [done|]. by destruct (_ <? _); simpl; rewrite ?He.
  - intros before write_ok after l1 -> Hbefore.
    destruct (live_run_split _ _ _ _ _ _ Hrun) as (l1' & l2 & Hb & Hstep & Hafter).
    assert (l1' = l1) as -> by congruence. simpl in Hstep. destruct (lv_end l1); [done|].
    destruct (broadcast_recv _ _ _) as [frame|skipped| |]; [|injection Hstep as <-; by apply (live_run_ended _ _ _ _ Hafter)..|done].
    intros Hdue ->. destruct (N.ltb_spec baseline (pf_sequence frame)); [|lia].
    injection Hstep as <-. by apply (live_run_ended _ _ _ _ Hafter).
  - intros He more l' Hmore. by apply (live_run_ended _ _ _ _ Hmore).
Qed.

End live.

(** A ring of two. *)
Definition sample_ring : Broadcast := λ sent opened next,
  if decide (2 < length sent - next)%nat then RecvLagged (N.of_nat (length sent - next - 2))
  else match sent !! next with
       | Some frame => GotFrame frame
       | None => if opened then RecvPending else RecvClosed
       end.

Lemma sample_ring_laws : @BroadcastLaws sample_ring 2.
Proof.
  split; unfold broadcast_recv, sample_ring; intros sent opened next frame.
  - case_decide; [done|]. destruct (sent !! next); [by intros [= ->]|by destruct opened].
  - intros Hl Hc. by rewrite decide_False, Hl by lia.
Qed.

(** Two frames are read in time; a burst of three then ends the connection. *)
Definition sample_pace : list LiveAction :=
  [Send sample_frame1; Send sample_frame2; Recv true; Recv true; Send sample_frame1; Send sample_frame2;
   Send sample_frame1; Recv true].

Lemma connection_contiguous_witness :
  ∃ l, @live_run sample_ring 0 sample_pace (live_start 0 []) = Some l ∧ lv_end l = Some (Lagged 1) ∧
    lv_written l `prefix_of` serve_live 0 (drop 0 (lv_sent l)).
Proof.
  eexists. split; [vm_compute; reflexivity|]. split; [reflexivity|].
  refine (proj1 (@connection_contiguous sample_ring 2 sample_ring_laws 0 0 [] sample_pace _ _ _));
    [reflexivity|vm_compute; reflexivity].
Defined.
