(* ===== verification/System.v ===== *)
(** * The whole node

    The publisher fed by the real snapshot source and the real engine wrapper:
    the hypotheses left are about Reth (what its provider reports, what its
    bundles contain), the chain, and the operator's files. *)

From S2P Require Import Prelude Bytes Config Watch Reload Feed Wire Client Consumer Stream Projection Reth Cache CacheInv Publisher Sample PublisherInv Service Fidelity Loop.
From stdpp Require Import list.
Local Open Scope N_scope.

Section node.
Context `{RethWorld} `{!Prost} `{!HashIter} `{!ProstLaws}.

(** The instant at which the publisher's [t]-th interaction with the world starts, its clock and
    its shutdown channel. *)
Context (start : nat → nat) (clock : nat → N) (shutdown : nat → N → bool).

Definition returned {A} (r : outcome Error A * nat) : A + Error :=
  match r.1 with Ok a => inl a | Err e => inr e | Diverge => inr ProviderError end.

(** The trait implementation of [RethSnapshotSource]. *)
Definition reth_source : SnapshotSource :=
  {| Projection.load_latest := λ t ws, returned (Reth.load_latest ws (start t));
     Projection.load_at := λ t ws h, returned (Reth.load_at ws h (start t)) |}.

Definition node : Env :=
  {| env_source := reth_source; env_prost := _; env_iter := _; env_clock := clock; env_shutdown := shutdown |}.
#[local] Existing Instance node.

Context (storage_at : B256 → Address → U256 → U256) (Hwords : ∀ h a s, storage_at h a s < 2 ^ 256) (Hworld : world_ok).

(** The states the provider opens report the chain's storage; an absent slot is zero. *)
Context (Hreports : ∀ t h state, state_by_block_hash t h = inl state →
  ∀ u a s v, state u a s = inl v → default 0 v = storage_at h a s).

Lemma loaded_values ws h pj : loaded_at ws h pj → values_true storage_at (ws_keys (pj_watch_set pj)) pj.
Proof.
  intros Hpj. destruct (la_values _ _ _ Hpj) as (t & state & Hst & Hv). unfold values_true, true_values.
  rewrite (la_hash _ _ _ Hpj), (la_watch_set _ _ _ Hpj). apply Hv. by apply (Hreports t).
Qed.

Lemma returned_inl {A} (r : outcome Error A * nat) a : returned r = inl a → r.1 = Ok a.
Proof. unfold returned. destruct r as [[] ?]; simpl; congruence. Qed.

Lemma reth_provider_true : provider_true storage_at.
Proof.
  split.
  - intros t ws s [h Hpj]%returned_inl%(load_latest_loaded Hworld).
    split; [by eapply loaded_values|apply (la_bitmap _ _ _ Hpj)].
  - intros t ws h pj Hpj%returned_inl%load_at_loaded.
    split; [by eapply loaded_values|apply (la_bitmap _ _ _ Hpj)].
Qed.

(** A callback of the engine: the producer holds one of the watch sets that have been active, and an
    executed block comes with its own bundle. *)
Definition call_true (sets : list WatchSet) (c : N * WatchSet * EngineCall) : Prop :=
  c.1.2 ∈ sets ∧
  match c.2 with
  | OnExecuted b | ValidateBlock _ (inl b) | OnInsertedExecutedBlock (inl b) =>
      reflects storage_at c.1.2 (eb_block b) (eb_state b)
  | _ => True
  end.

(** Where the channels' messages come from: the engine wrapper and the reload task. *)
Definition sent_from (cfg : StreamConfig) (calls : list (N * WatchSet * EngineCall)) (a : LoopAction) : Prop :=
  match a with
  | SendData event => TrySend event ∈ engine_trace (publish_executed cfg) calls
  | SendControl (ActivateConfig ws) => from_config cfg ws
  | _ => True
  end.

Lemma elem_of_send t event event' : TrySend event ∈ send t event' ↔ event = event'.
Proof. unfold send. rewrite !elem_of_cons, elem_of_nil. naive_solver. Qed.

(** The events of a callback, one kind of callback at a time. *)
Lemma engine_call_event executed t ws call event :
  TrySend event ∈ engine_call executed t ws call →
  match event with
  | Executed _ g block changes => executed = true ∧ g = ws_generation ws ∧
      ∃ b, call = OnExecuted b ∧ block = eb_block b ∧ changes = extract_changes ws (eb_state b)
  | ValidatedFallback _ g block changes => g = ws_generation ws ∧
      ∃ b, ((∃ h, call = ValidateBlock h (inl b)) ∨ call = OnInsertedExecutedBlock (inl b)) ∧
        block = eb_block b ∧ changes = extract_changes ws (eb_state b)
  | Rejected _ _ _ reason => reason ≠ EmptyString
  | _ => True
  end.
Proof.
  intros Hin%list_elem_of_In. destruct call as [b|h [b|[|[]]]|[b|]| | |], executed; simpl in Hin;
    repeat (destruct Hin as [Hin|Hin]); try done; simplify_eq/=; eauto 12.
Qed.

Lemma calls_sends_ok cfg calls boot a :
  sent_from cfg calls a →
  sends_ok (event_ok {| sp_boot_id := boot; sp_capabilities := advertised_capabilities (publish_executed cfg) |}) a.
Proof.
  unfold sent_from, sends_ok. destruct a as [| | | | |[ws]|event|]; try done; [intros (c & Hv & _ & ->)|].
  - apply validate_ok in Hv as []. by apply compile_wf.
  - intros ([[t ws] call] & Hin & _)%list_elem_of_bind. apply engine_call_event in Hin.
    destruct event; try done. destruct Hin as (E & _). simpl. by rewrite E.
Qed.

Lemma dictionaries_bounded sets : Forall watch_set_wf sets → chain_bounded storage_at (dictionary_of sets).
Proof.
  intros Hall. split; [done|]. intros g. unfold dictionary_of. destruct (list_find _ _) as [[i ws]|] eqn:E; [|done].
  apply list_find_Some in E as (Hi & _ & _). rewrite Forall_lookup in Hall. by apply (wsw_u32 _ (Hall _ _ Hi)).
Qed.

Lemma calls_sends_true cfg sets calls a :
  Forall watch_set_wf sets → NoDup (ws_generation <$> sets) →
  Forall (call_true sets) calls → sent_from cfg calls a → sends_ok (data_true storage_at (dictionary_of sets)) a.
Proof.
  intros Hwfs Hnd Hcalls. unfold sent_from, sends_ok. rewrite Forall_forall in Hcalls.
  destruct a as [| | | | |[ws]|event|]; try done.
  intros ([[t ws] call] & Hin & Hc)%list_elem_of_bind. apply engine_call_event in Hin.
  destruct (Hcalls _ Hc) as [Hset Hr]. simpl in Hin, Hset, Hr. pose proof (dictionary_of_unique _ _ Hnd Hset) as Hk.
  assert (Hwf : watch_set_wf ws) by (rewrite Forall_forall in Hwfs; by apply Hwfs).
  apply (engine_input_true storage_at (dictionary_of sets) (dictionaries_bounded _ Hwfs) (Data event)).
  destruct event; try done.
  - destruct Hin as (_ & -> & b & -> & -> & ->). unfold engine_true; eauto 10.
  - destruct Hin as (-> & b & [[h ->]| ->] & -> & ->); unfold engine_true; eauto 10.
Qed.

(** The watch sets that have been active at the end of a run. *)
Definition active_sets (spin : N) (ws : WatchSet) (actions : list LoopAction) (p0 : Publisher) : list WatchSet :=
  ws :: activations spin actions (loop_start p0).

(** The invariants of the protocol and of the values, at every moment. *)
Lemma node_reaches spin cfg boot chain genesis started ws p0 calls actions l :
  from_config cfg ws → start_service cfg boot chain genesis started ws = Ok p0 →
  let sets := active_sets spin ws actions p0 in
  Forall (call_true sets) calls → Forall (sent_from cfg calls) actions →
  loop_run spin actions (loop_start p0) = Some l → within (after_call l) →
  watch_set_wf ws ∧
  service_params p0 = {| sp_boot_id := boot; sp_capabilities := advertised_capabilities (publish_executed cfg) |} ∧
  loop_ok (event_ok (service_params p0)) (Loop.between (service_params p0) (stream_state false p0) (published p0))
    (recovering_from (service_params p0) (stream_state false p0) (published p0)) l ∧
  faulted (service_params p0) (stream_state false p0) (published p0) (lo_publisher l) ∧
  NoDup (ws_generation <$> sets) ∧ ws_keys ws = dictionary_of sets (ws_generation ws) ∧
  honest storage_at (dictionary_of sets) (lo_publisher l).
Proof.
  intros (c & Hv & _ & E) Hstart sets Hcalls Hsent Hrun Hw.
  assert (Hws : watch_set_wf ws). { rewrite E. apply validate_ok in Hv as []. by apply compile_wf. }
  destruct (start_service_idle _ _ _ _ _ _ _ Hws Hstart) as (_ & _ & Hboot & _ & Hadv & _).
  assert (Hparams : service_params p0 =
    {| sp_boot_id := boot; sp_capabilities := advertised_capabilities (publish_executed cfg) |}).
  { unfold service_params. by rewrite Hboot, Hadv. }
  assert (Hok : Forall (sends_ok (event_ok (service_params p0))) actions).
  { rewrite Hparams. eapply Forall_impl; [exact Hsent|]. apply calls_sends_ok. }
  pose proof (protocol_reachable spin _ _ _ _ _ _ _ _ _ Hws Hstart Hok Hrun) as Hl.
  destruct (started_dictionaries spin _ _ _ _ _ _ _ _ _ Hws Hstart Hok Hrun (within_after_call _ Hw)) as [Hwfs Hnd].
  assert (Hk : ws_keys ws = dictionary_of sets (ws_generation ws)) by (symmetry; apply dictionary_of_unique; [done|by left]).
  split_and!; [done|done|done|exact (protocol_faulted _ _ _ _ Hl (within_after_call _ Hw))|done|done|].
  eapply (loop_values_true storage_at (dictionary_of sets)); [by apply dictionaries_bounded|by apply reth_provider_true|
    exact Hk|exact Hstart| | |exact Hrun].
  - eapply Forall_impl; [exact Hsent|]. intros a. by apply calls_sends_true.
  - apply activations_known, Forall_forall. intros ws' Hin. symmetry. apply dictionary_of_unique; [done|by right].
Qed.

(** The stream, and that the thread is not stuck. *)
Lemma node_stream spin cfg boot chain genesis started ws p0 calls actions l :
  from_config cfg ws → start_service cfg boot chain genesis started ws = Ok p0 →
  Forall (call_true (active_sets spin ws actions p0)) calls → Forall (sent_from cfg calls) actions →
  loop_run spin actions (loop_start p0) = Some l → within (after_call l) →
  stream {| sp_boot_id := boot; sp_capabilities := advertised_capabilities (publish_executed cfg) |}
    (mkStreamState 0 false (ws_generation ws) (ws_len ws)) (envelopes (sh_frames (pb_shared (lo_publisher l))))
    (stream_state (ps_recovering (published (lo_publisher l))) (lo_publisher l)) ∧
  (lo_pc l = Exited ∨ asleep l ∨ ∃ c, is_Some (thread_step spin c l)).
Proof.
  intros Hfrom Hstart Hcalls Hsent Hrun Hw.
  destruct (node_reaches _ _ _ _ _ _ _ _ _ _ _ Hfrom Hstart Hcalls Hsent Hrun Hw)
    as (Hws & Hparams & Hl & [Hinv _] & _ & _ & _).
  destruct (start_service_idle _ _ _ _ _ _ _ Hws Hstart) as (_ & Hcaps & _ & _ & _ & Hseq & _).
  destruct (start_service_dictionary _ _ _ _ _ _ _ Hstart) as [Hg Hlen]. split.
  - apply (iv_history _ _ _ _ _), history_stream in Hinv. rewrite Hparams in Hinv.
    unfold stream_state in Hinv at 1. by rewrite Hseq, Hg, Hlen in Hinv.
  - by eapply thread_progress.
Qed.

(** C2: The node as a whole. With Reth's provider behind the snapshot source, and the engine
    wrapper's callbacks and the reload task filling the channels, at every moment of every
    interleaving the publisher thread has broadcast a stream of the protocol; every generation has
    had one dictionary, whatever requests were refused on the way; every frame broadcast, whatever was
    executed, reorganised, dropped, recovered or reloaded, carries exactly the storage of the block it
    names at the keys of its generation's dictionary; and the thread has exited, sleeps with nothing
    to do, or can go on. *)
Theorem node_stream_true spin cfg boot chain genesis started ws p0 calls actions l :
  from_config cfg ws → start_service cfg boot chain genesis started ws = Ok p0 →
  let sets := active_sets spin ws actions p0 in
  Forall (call_true sets) calls → Forall (sent_from cfg calls) actions →
  loop_run spin actions (loop_start p0) = Some l → within (after_call l) →
  stream {| sp_boot_id := boot; sp_capabilities := advertised_capabilities (publish_executed cfg) |}
    (mkStreamState 0 false (ws_generation ws) (ws_len ws)) (envelopes (sh_frames (pb_shared (lo_publisher l))))
    (stream_state (ps_recovering (published (lo_publisher l))) (lo_publisher l)) ∧
  NoDup (ws_generation <$> sets) ∧
  Forall (frame_true storage_at (dictionary_of sets) (sh_max_frame_bytes (pb_shared (lo_publisher l))))
    (sh_frames (pb_shared (lo_publisher l))) ∧
  (lo_pc l = Exited ∨ asleep l ∨ ∃ c, is_Some (thread_step spin c l)).
Proof.
  intros Hfrom Hstart sets Hcalls Hsent Hrun Hw.
  destruct (node_reaches _ _ _ _ _ _ _ _ _ _ _ Hfrom Hstart Hcalls Hsent Hrun Hw) as (_ & _ & _ & _ & Hnd & _ & Hhonest).
  destruct (node_stream _ _ _ _ _ _ _ _ _ _ _ Hfrom Hstart Hcalls Hsent Hrun Hw) as [Hstream Hgo].
  split_and!; [exact Hstream|done|apply Hhonest|exact Hgo].
Qed.
End node.

(** ** The sample world as a node *)

Definition node_world : RethWorld := {|
  sealed_header_by_hash := λ _ h,
    if h =? 50 then inl (Some {| hd_number := 5; hd_parent_hash := 40; hd_timestamp := 60 |})
    else if h =? 60 then inl (Some {| hd_number := 6; hd_parent_hash := 50; hd_timestamp := 72 |})
    else inl None;
  state_by_block_hash := λ _ h, inl (λ _ a s, inl (Some (sample_storage h a s)));
  chain_info := λ _, inl {| best_number := 5; best_hash := 50 |};
  safe_block_num_hash := λ _, inl None;
  finalized_block_num_hash := λ _, inl None;
  rw_trace := λ _, [];
  rw_clock := λ _, 10 |}.

Definition executed_60 : ExecutedBlock := {| eb_block := sample_block 6 60 50; eb_state := sample_write |}.
Definition executed_61 : ExecutedBlock := {| eb_block := sample_block 6 61 50; eb_state := {| bundle_state := ∅ |} |}.
Definition node_calls : list (N * WatchSet * EngineCall) :=
  [(20, sample_watch_set, OnExecuted executed_60); (21, sample_watch_set, ValidateBlock 60 (inl executed_60));
   (22, sample_watch_set, OnExecuted executed_61); (23, sample_watch_set, ValidateBlock 61 (inr (BlockError true)));
   (24, sample_watch_set, OnForkchoiceApplied (sample_forkchoice 60))].

Definition sample_node : Env :=
  @node node_world sample_prost in_key_order (λ t, t) (λ tick, 100 + N.of_nat tick) (λ _ _, false).

Lemma node_world_ok : @world_ok node_world.
Proof. split; [by exists []|intros t; vm_compute; discriminate]. Qed.

Lemma node_calls_true sets : Forall (call_true sample_storage (sample_watch_set :: sets)) node_calls.
Proof.
  pose proof sample_reflects as [H60 H61]. assert (Hin : sample_watch_set ∈ sample_watch_set :: sets) by by left.
  unfold node_calls. repeat (apply Forall_cons; split; [by split|]). by apply Forall_nil.
Qed.

(** The operator drops a key from the file. *)
Definition reload_set : WatchSet := compile 2 (take 2 sample_watch).

(** The callbacks' events arrive one by one, each handled before the next; a reload follows, the queue
    overflows, and the thread is told to stop. *)
Definition node_actions : list LoopAction :=
  (sample_passes ≫= λ pass, match lp_event pass with
     | Some (Data event) => MaintenanceTick :: SendData event :: replicate 7 step0
     | _ => [] end) ++
  SendControl (ActivateConfig reload_set) :: replicate 6 step0 ++
  [step0; Step (mkChoice 2 0 ArmData); step0; step0; SendShutdown; step0; step0; step0; step0; Step (mkChoice 0 0 ArmShutdown)].

Definition node_loop : Loop :=
  Eval vm_compute in default (loop_start sample_publisher) (@loop_run sample_node 0 node_actions (loop_start sample_publisher)).

Lemma node_actions_sent : Forall (@sent_from in_key_order sample_stream node_calls) node_actions.
Proof.
  assert (Hreload : from_config sample_stream reload_set).
  { exists {| Config.stream := sample_stream; Config.watch := take 2 sample_watch |}. split_and!; vm_compute; reflexivity. }
  repeat (apply Forall_cons; split; [first [exact I|exact Hreload|unfold sent_from; apply list_elem_of_In; vm_compute;
    repeat (first [left; reflexivity|right])]|]). by apply Forall_nil.
Qed.

Lemma sample_from_config : from_config sample_stream sample_watch_set.
Proof. exists {| Config.stream := sample_stream; Config.watch := sample_watch |}. split_and!; vm_compute; reflexivity. Qed.

(** The thread has seen the signal, after the events, the reload, the overflow and the recovery. *)
Lemma node_stream_true_witness :
  let sets := [sample_watch_set; reload_set] in
  lo_pc node_loop = Exited ∧ length (sh_frames (pb_shared (lo_publisher node_loop))) = 11%nat ∧
  stream {| sp_boot_id := sample_boot; sp_capabilities := advertised_capabilities true |} (mkStreamState 0 false 1 3)
    (envelopes (sh_frames (pb_shared (lo_publisher node_loop)))) (stream_state false (lo_publisher node_loop)) ∧
  Forall (@frame_true sample_node sample_storage (dictionary_of sets) 4096) (sh_frames (pb_shared (lo_publisher node_loop))).
Proof.
  split; [reflexivity|]. split; [reflexivity|].
  pose proof (@node_stream_true node_world sample_prost in_key_order sample_laws (λ t, t) (λ tick, 100 + N.of_nat tick)
    (λ _ _, false) sample_storage (proj1 sample_chain_bounded) node_world_ok
    ltac:(intros t h state [= <-] u a s v [= <-]; reflexivity)
    0 sample_stream sample_boot 1 0 0 sample_watch_set sample_publisher node_calls node_actions node_loop
    sample_from_config ltac:(vm_compute; reflexivity) (node_calls_true _) node_actions_sent
    ltac:(vm_compute; reflexivity) ltac:(vm_compute; discriminate)) as (Hstream & _ & Htrue & _).
  assert (E : @active_sets node_world sample_prost in_key_order (λ t, t) (λ tick, 100 + N.of_nat tick) (λ _ _, false) 0 sample_watch_set node_actions sample_publisher = [sample_watch_set; reload_set])
    by (vm_compute; reflexivity).
  split; [exact Hstream|]. rewrite <- E. exact Htrue.
Defined.
