(* ===== verification/Reconfig.v ===== *)
(** * The reload task beside the publisher thread

    [Reload] lets the publisher answer a request as it likes, and [Loop] takes
    requests from anywhere.  Here the two run side by side over the one control
    channel: the task sees the thread's queue, its end and the producer's watch
    set, and the thread's own [activate] answers.  The pair is shown to be a run
    of each, so that what was proved of either holds of both, and the dictionaries
    that consumers are sent are exactly the sets the task compiled. *)

From S2P Require Import Prelude Bytes Config Watch Reload Feed Wire Client Consumer Stream Projection Reth Cache CacheInv Metrics Publisher Sample PublisherInv Service Fidelity Loop MetricsInv System.
From stdpp Require Import list.
Local Open Scope N_scope.

Record Node := mkNode {
  nd_task : Reload;
  nd_loop : Loop;
}.

Definition exited (l : Loop) : bool := match lo_pc l with Exited => true | _ => false end.

(** The watch sets requested by control events. *)
Definition asked_for (events : list PublisherEvent) : list WatchSet :=
  omap (λ e, match e with Control (ActivateConfig ws) => Some ws | Data _ => None end) events.

(** The requests the thread has not answered: in its hand and in its channel. *)
Definition in_flight (l : Loop) : list WatchSet :=
  if exited l then [] else asked_for (hand_of (lo_pc l) ++ (Control <$> ch_queue (lo_control l))).

#[local] Arguments exited : simpl never.
#[local] Arguments in_flight : simpl never.

(** The task's state with what it shares with the thread read off the thread. *)
Definition with_thread (control : option WatchSet) (l : Loop) (r : Reload) : Reload :=
  r <| rd_control := control |> <| rd_connected := negb (exited l) |> <| rd_active := pb_active (lo_publisher l) |>.

(** What the task sees: the control channel holds what the thread has not yet received. *)
Definition seen (n : Node) : Reload :=
  with_thread (if exited (nd_loop n) then None else head (asked_for (Control <$> ch_queue (lo_control (nd_loop n))))) (nd_loop n) (nd_task n).

(** The pair as a state of [Reload], where a request is on its way until it is answered. *)
Definition modelled (n : Node) : Reload := with_thread (head (in_flight (nd_loop n))) (nd_loop n) (nd_task n).

Section reconfig.
Context `{Env} `{!ProstLaws} (spin : N).
Context {IoError TomlError : Type} (toml_from_str : string → outcome TomlError Config) (config_path : string).
Context (cfg : StreamConfig).
Notation reload_step := (@Reload.reload_step IoError TomlError toml_from_str config_path cfg).
Notation reload_run := (@Reload.reload_run IoError TomlError toml_from_str config_path cfg).
Notation ReloadAction := (@Reload.ReloadAction IoError).

Inductive NodeAction :=
| TaskAct (a : ReloadAction)
| ThreadAct (a : LoopAction).

(** What the thread's next step sends on the completion channel of the request it handles. *)
Definition answer (a : LoopAction) (l : Loop) : option bool :=
  match a, lo_pc l with
  | Step _, Dispatch (Control event) =>
      match (handle_control event (lo_publisher l)).1 with Ok activated => Some activated | _ => None end
  | _, _ => None
  end.

(** One step of either.  A request the task queues goes into the thread's channel; the thread's
    answer goes into the task's completion channel, and the log remembers what was installed. *)
Definition node_step (a : NodeAction) (n : Node) : option Node :=
  match a with
  | TaskAct (PublisherTakes _) | TaskAct PublisherStops | ThreadAct (SendControl _) => None
  | TaskAct a =>
      r ← reload_step a (seen n);
      Some (mkNode r (match rd_control (seen n), rd_control r with
                      | None, Some ws => (nd_loop n) <| lo_control ::= try_send_one (ActivateConfig ws) |>
                      | _, _ => nd_loop n
                      end))
  | ThreadAct a =>
      l ← loop_step spin a (nd_loop n);
      Some (mkNode
        match answer a (nd_loop n) with
        | Some activated => (nd_task n) <| rd_completion := Some activated |>
            <| rd_activated ::= λ sets, sets ++ option_list (activation a (nd_loop n)) |>
        | None => nd_task n
        end l)
  end.

Fixpoint node_run (actions : list NodeAction) (n : Node) : option Node :=
  match actions with
  | [] => Some n
  | a :: actions => n ← node_step a n; node_run actions n
  end.

(** ** One side at a time *)

(** The task's own steps do not depend on a request on its way, except for asking. *)
Lemma reload_step_blind a r r' control :
  (match a with Request | PublisherTakes _ | PublisherStops => False | _ => True end) →
  reload_step a r = Some r' →
  reload_step a (r <| rd_control := control |>) = Some (r' <| rd_control := control |>) ∧
  rd_control r' = rd_control r ∧ rd_connected r' = rd_connected r ∧ rd_active r' = rd_active r ∧
  rd_activated r' = rd_activated r.
Proof.
  intros Ha. destruct a; try done; simpl; repeat case_match; intros; simplify_eq/=; by split_and!.
Qed.

Lemma call_quiet {A} (m : P A) reason resume l l' :
  Quiet m → call m reason resume l = Some l' → quiet (lo_publisher l) (lo_publisher l').
Proof.
  intros Hm. specialize (Hm (lo_publisher l)). unfold call.
  destruct (m (lo_publisher l)) as [[] p]; intros; simplify_eq/=; done.
Qed.

(** [handle_control] always answers: with the outcome of [activate]. *)
Lemma handle_control_answers ws p :
  ∃ b p', handle_control (ActivateConfig ws) p = (Ok b, p') ∧
    if b : bool then activate ws p = (Ok (), p') else p' = p <| pb_tick ::= S |> ∧ ∀ q, activate ws p ≠ (Ok (), q).
Proof.
  cbn [handle_control]. unfold catch. cbv [mbind M_bind mret M_ret]. pose proof (activate_outcome ws p) as Ho.
  destruct (activate ws p) as [[[]|e|] p'] eqn:E; [| |done].
  - by exists true, p'.
  - by exists false, p'.
Qed.

(** A step of the thread that answers no request. *)
Lemma loop_step_quiet a l l' :
  loop_step spin a l = Some l' → answer a l = None → quiet (lo_publisher l) (lo_publisher l').
Proof.
  destruct a as [c| | | | | | |]; simpl; [|by intros [= <-]..]. intros Hstep Ha. unfold thread_step in Hstep.
  destruct (lo_pc l) eqn:Epc; repeat case_match; simplify_eq/=; try done;
    try (eapply call_quiet in Hstep; [exact Hstep|first [apply quiet_maintain|apply quiet_handle]]).
  all: try match goal with E : attempt _ _ _ = _ |- _ => pose proof (quiet_attempt reason gap_announced (lo_publisher l)) as Hq;
    by rewrite E in Hq end.
  all: match goal with e : ControlEvent |- _ => destruct e as [ws];
    destruct (handle_control_answers ws (lo_publisher l)) as (b & p' & E & _); by rewrite E in * end.
Qed.

(** Receiving moves an event from its channel to the hand. *)
Lemma receive_hand {A} (f : A → PublisherEvent) (c : Channel A) empty :
  hand_of empty = [] →
  receive f (try_recv c).1 empty = Exited ∨
  hand_of (receive f (try_recv c).1 empty) ++ (f <$> ch_queue (try_recv c).2) = f <$> ch_queue c.
Proof.
  intros He. pose proof (try_recv_spec c) as Hs. destruct (try_recv c) as [[a| |] c']; simpl in *.
  - destruct Hs as [-> _]. by right.
  - destruct Hs as [-> ->]. right. by rewrite He.
  - by left.
Qed.

Lemma receive_data_hand (c : Channel FeedEvent) empty :
  hand_of empty = [] → asked_for (hand_of (receive Data (try_recv c).1 empty)) = [].
Proof. intros He. destruct (try_recv c) as [[]]; simpl; [done|by rewrite He|done]. Qed.

Lemma call_hand {A} (m : P A) reason resume l l' :
  call m reason resume l = Some l' → hand_of (lo_pc l') = hand_of (resume_pc resume) ∧ lo_control l' = lo_control l.
Proof.
  unfold call. destruct (m (lo_publisher l)) as [[]]; intros; simplify_eq/=; split; try done.
  by destruct resume as [[]| |].
Qed.

(** It keeps the requests on their way, unless the thread has gone. *)
Lemma thread_step_in_flight c l l' :
  thread_step spin c l = Some l' → answer (Step c) l = None →
  lo_pc l' = Exited ∨
  asked_for (hand_of (lo_pc l') ++ (Control <$> ch_queue (lo_control l'))) =
    asked_for (hand_of (lo_pc l) ++ (Control <$> ch_queue (lo_control l))).
Proof.
  intros Hstep Ha. unfold thread_step in Hstep. rewrite requested_signalled in Hstep.
  pose proof (λ empty, receive_hand Control (lo_control l) empty) as Hc.
  pose proof (λ empty, receive_data_hand (lo_data l) empty) as Hd.
  destruct (try_recv (lo_control l)) as [rc control]. destruct (try_recv (lo_data l)) as [rd data].
  cbn [fst snd] in *.
  assert (Hcontrol : ∀ empty, hand_of empty = [] → let pc := receive Control rc empty in
    pc = Exited ∨ asked_for (hand_of pc ++ (Control <$> ch_queue control)) = asked_for (Control <$> ch_queue (lo_control l))).
  { intros empty He. destruct (Hc empty He) as [?|E]; [by left|right; by rewrite E]. }
  assert (Hdata : ∀ empty, hand_of empty = [] → let pc := receive Data rd empty in
    asked_for (hand_of pc ++ (Control <$> ch_queue (lo_control l))) = asked_for (Control <$> ch_queue (lo_control l))).
  { intros empty He. simpl. unfold asked_for in *. by rewrite omap_app, Hd. }
  clear Hc Hd. destruct (lo_pc l) eqn:Epc; try done;
    try (injection Hstep as <-; simpl; first [by apply Hcontrol|right; by apply Hdata]).
  all: try (repeat case_match; simplify_eq/=; by auto).
  - destruct (lo_tick l); [|injection Hstep as <-; by right]. apply call_hand in Hstep as [-> ->]. by right.
  - destruct (cc_arm c); try (repeat case_match; simplify_eq/=; by auto).
    destruct (lo_tick l); [|done]. apply call_hand in Hstep as [-> ->]. by right.
  - unfold answer in Ha. rewrite Epc in Ha. destruct event as [event|[ws]].
    + apply call_hand in Hstep as [-> ->]. by right.
    + destruct (handle_control_answers ws (lo_publisher l)) as (b & p' & E & _). by rewrite E in Ha.
  - destruct (attempt _ _ _) as [[[[] a]|e|] p]; [..|done|done]; injection Hstep as <-; right; simpl; by destruct resume as [[]| |].
Qed.

Lemma loop_step_in_flight a l l' :
  loop_step spin a l = Some l' → answer a l = None → (∀ event, a ≠ SendControl event) →
  exited l' = true ∨ exited l' = exited l ∧ in_flight l' = in_flight l.
Proof.
  intros Hl Ha Hne.
  destruct a as [c| | | | |event| |]; try (injection Hl as <-; by right). 2: by destruct (Hne event).
  assert (Ex : exited l = false) by (revert Hl; unfold exited; simpl; unfold thread_step; by destruct (lo_pc l)).
  destruct (exited l') eqn:Ex'; [by left|right]. split; [done|]. unfold in_flight. rewrite Ex, Ex'.
  destruct (thread_step_in_flight _ _ _ Hl Ha) as [E|E]; [|exact E]. unfold exited in Ex'. by rewrite E in Ex'.
Qed.

(** ** The pair is a run of [Reload] *)

(** The task's invariant, one request at a time, and the generations of the producer's set and of
    the stream in step. *)
Record node_ok (first : WatchSet) (n : Node) : Prop := {
  no_task : reload_ok cfg first (modelled n);
  no_one : (length (in_flight (nd_loop n)) ≤ 1)%nat;
  no_generation : ws_generation (pb_active (lo_publisher (nd_loop n))) = active_generation (lo_publisher (nd_loop n));
}.

Lemma asked_for_none (events : list ControlEvent) : asked_for (Control <$> events) = [] → events = [].
Proof. by destruct events as [|[ws] events]. Qed.

(** A task that asks finds nothing on its way. *)
Lemma requesting_alone first n ws d :
  node_ok first n → rd_pc (nd_task n) = Requesting ws d →
  requested cfg (modelled n) ws ∧ in_flight (nd_loop n) = [] ∧ seen n = modelled n ∧
  (exited (nd_loop n) = false → ch_queue (lo_control (nd_loop n)) = [] ∧ asked_for (hand_of (lo_pc (nd_loop n))) = []).
Proof.
  intros [[Hpc _ _ _] _ _] Ep. unfold pc_ok in Hpc. simpl in Hpc. rewrite Ep in Hpc.
  destruct Hpc as (Hc & _ & Hr & _). split; [done|].
  assert (Hnone : in_flight (nd_loop n) = []) by by destruct (in_flight (nd_loop n)).
  split; [done|]. unfold seen, modelled. rewrite Hnone. unfold in_flight in Hnone.
  destruct (exited (nd_loop n)); [done|]. unfold asked_for in Hnone. rewrite omap_app in Hnone.
  apply app_nil in Hnone as [Hh Hq]. pose proof (asked_for_none _ Hq) as Hq'. split; [|done]. by rewrite Hq'.
Qed.

(** What a step of the task does to the thread: nothing, or it puts a request into its channel. *)
Definition requests (n n' : Node) : Prop :=
  nd_loop n' = nd_loop n ∨
  ∃ ws, from_config cfg ws ∧ loop_step spin (SendControl (ActivateConfig ws)) (nd_loop n) = Some (nd_loop n').

Lemma task_step_requests a n n' :
  (∀ ws, pc_set (rd_pc (nd_task n)) = Some ws → from_config cfg ws) → node_step (TaskAct a) n = Some n' →
  requests n n' ∧ reload_step a (seen n) = Some (nd_task n').
Proof.
  intros Hset Hstep.
  assert (Hr : ∃ r, reload_step a (seen n) = Some r ∧ n' = mkNode r (match rd_control (seen n), rd_control r with
    | None, Some ws => (nd_loop n) <| lo_control ::= try_send_one (ActivateConfig ws) |> | _, _ => nd_loop n end)).
  { destruct a; try done; apply bind_Some in Hstep as (r & Hr & [= <-]); eauto. }
  destruct Hr as (r & Hr & ->). split; [|exact Hr]. unfold requests. cbn [nd_loop].
  destruct (rd_control (seen n)) as [ws0|] eqn:E0; [by left|]. destruct (rd_control r) as [ws|] eqn:E1; [|by left].
  right. exists ws. split; [|done]. apply Hset.
  assert (Hcase : a = Request ∨ match a with Request | PublisherTakes _ | PublisherStops => False | _ => True end)
    by (destruct a; auto; done).
  destruct Hcase as [->|Ha]; [|by destruct (reload_step_blind a _ _ None Ha Hr) as (_ & Hc & _); rewrite Hc, E0 in E1].
  simpl in Hr. destruct (rd_pc (nd_task n)); try done. unfold request_activation in Hr. rewrite E0 in Hr.
  destruct (rd_connected _); simplify_eq/=; congruence.
Qed.

Lemma request_sim first n n' :
  node_ok first n → node_step (TaskAct Request) n = Some n' →
  reload_step Request (modelled n) = Some (modelled n') ∧ (length (in_flight (nd_loop n')) ≤ 1)%nat ∧ requests n n'.
Proof.
  intros Hok. destruct (rd_pc (nd_task n)) as [| | |ws d|ws d|ws d|] eqn:Ep; try by simpl; rewrite Ep.
  destruct (requesting_alone _ _ _ _ Hok Ep) as ([Hfrom _] & Hnone & Hseen & Hchannel).
  unfold node_step. rewrite Hseen. unfold modelled, with_thread. rewrite Hnone. simpl. rewrite Ep.
  unfold request_activation. simpl. destruct (exited (nd_loop n)) eqn:Ex; simpl.
  - intros [= <-]. unfold modelled, with_thread. simpl. rewrite Ex, Hnone. split_and!; [done|simpl; lia|by left].
  - intros [= <-]. destruct (Hchannel eq_refl) as [Hq Hh].
    assert (Hx : exited ((nd_loop n) <| lo_control ::= try_send_one (ActivateConfig ws) |>) = false) by exact Ex.
    assert (Hl : in_flight ((nd_loop n) <| lo_control ::= try_send_one (ActivateConfig ws) |>) = [ws]).
    { unfold in_flight. rewrite Hx. simpl. unfold try_send_one, asked_for in *. by rewrite Hq, omap_app, Hh. }
    simpl in Hx, Hl. unfold modelled, with_thread. simpl. rewrite Hx, Hl. split_and!; [done|simpl; lia|right; by exists ws].
Qed.

Lemma task_step_sim first a n n' :
  node_ok first n → node_step (TaskAct a) n = Some n' →
  reload_step a (modelled n) = Some (modelled n') ∧ (length (in_flight (nd_loop n')) ≤ 1)%nat ∧ requests n n'.
Proof.
  intros Hok Hstep.
  assert (Hcase : a = Request ∨ match a with Request | PublisherTakes _ | PublisherStops => False | _ => True end)
    by (destruct a; auto; done).
  destruct Hcase as [->|Ha]; [by eapply request_sim|].
  assert (Hr : ∃ r, reload_step a (seen n) = Some r ∧ n' = mkNode r (match rd_control (seen n), rd_control r with
    | None, Some ws => (nd_loop n) <| lo_control ::= try_send_one (ActivateConfig ws) |> | _, _ => nd_loop n end)).
  { destruct a; try done; apply bind_Some in Hstep as (r & Hr & [= <-]); eauto. }
  destruct Hr as (r & Hr & ->).
  destruct (reload_step_blind a _ _ (head (in_flight (nd_loop n))) Ha Hr) as (Hm & Hc & Hx & Hact & _).
  assert (El : match rd_control (seen n), rd_control r with
    | None, Some ws => (nd_loop n) <| lo_control ::= try_send_one (ActivateConfig ws) |> | _, _ => nd_loop n end = nd_loop n).
  { rewrite Hc. by destruct (rd_control (seen n)). }
  rewrite El. split_and!; [|apply (no_one _ _ Hok)|by left].
  etrans; [exact Hm|]. unfold modelled, with_thread. simpl. f_equal. destruct r. simpl in *. by subst.
Qed.

(** The thread answers the request in its hand: it installs the set if it is newer, and says so. *)
Lemma answer_step a l l' b :
  loop_step spin a l = Some l' → answer a l = Some b →
  ∃ ws, lo_pc l = Dispatch (Control (ActivateConfig ws)) ∧ lo_pc l' = Loop.Top ∧ lo_control l' = lo_control l ∧
    let newer := b && (active_generation (lo_publisher l) <? ws_generation ws) in
    activation a l = (if newer then Some ws else None) ∧
    pb_active (lo_publisher l') = (if newer then ws else pb_active (lo_publisher l)) ∧
    active_generation (lo_publisher l') = (if newer then ws_generation ws else active_generation (lo_publisher l)).
Proof.
  destruct a as [c| | | | | | |]; try done. simpl. unfold answer, thread_step, activation.
  destruct (lo_pc l) as [| | | | | | | | | | |[|[ws]]| | |]; try done. unfold call. simpl lo_publisher.
  destruct (handle_control_answers ws (lo_publisher l)) as (b' & p' & -> & Hb). simpl.
  intros [= <-] [= ->]. exists ws. do 3 (split; [done|]). rewrite N.ltb_antisym. destruct b; simpl.
  - rewrite Hb. apply activate_installs in Hb. destruct (_ <=? _); simpl; [by subst|by destruct Hb].
  - destruct Hb as [-> Hb]. split_and!; [|done..].
    destruct (activate ws (lo_publisher l)) as [[[]|e|] q]; [by destruct (Hb q)|done..].
Qed.

Lemma answer_sim first a n n' b :
  node_ok first n → answer a (nd_loop n) = Some b → node_step (ThreadAct a) n = Some n' →
  reload_step (PublisherTakes b) (modelled n) = Some (modelled n') ∧ (length (in_flight (nd_loop n')) ≤ 1)%nat ∧
  ws_generation (pb_active (lo_publisher (nd_loop n'))) = active_generation (lo_publisher (nd_loop n')).
Proof.
  intros [_ Hone Hgen] Ha Hstep.
  assert (Hl : ∃ l, loop_step spin a (nd_loop n) = Some l ∧ n' = mkNode ((nd_task n) <| rd_completion := Some b |>
    <| rd_activated ::= λ sets, sets ++ option_list (activation a (nd_loop n)) |>) l).
  { destruct a; try done. unfold node_step in Hstep. rewrite Ha in Hstep. apply bind_Some in Hstep as (l & Hl & [= <-]). eauto. }
  destruct Hl as (l & Hl & ->).
  destruct (answer_step _ _ _ _ Hl Ha) as (ws & Epc & Epc' & Ec & Eact & Epb & Eg). simpl nd_loop in *.
  assert (Ex : exited (nd_loop n) = false) by (unfold exited; by rewrite Epc).
  assert (Ex' : exited l = false) by (unfold exited; by rewrite Epc').
  assert (Hf : in_flight (nd_loop n) = ws :: asked_for (Control <$> ch_queue (lo_control (nd_loop n))))
    by (unfold in_flight; by rewrite Ex, Epc).
  assert (Hq : ch_queue (lo_control (nd_loop n)) = []).
  { rewrite Hf in Hone. cbn [length] in Hone. apply asked_for_none, nil_length_inv. lia. }
  rewrite Hq in Hf. cbn in Hf.
  assert (Hf' : in_flight l = []) by (unfold in_flight; by rewrite Ex', Epc', Ec, Hq).
  rewrite Hf'. split_and!; [|simpl; lia|rewrite Epb, Eg; by destruct (_ && _)].
  unfold modelled, with_thread. simpl. rewrite Ex, Ex', Hf, Hf', Epb, Eact. simpl. unfold publisher_takes. simpl.
  rewrite Hgen, <- N.ltb_antisym. destruct (_ && _); simpl; [done|by rewrite app_nil_r].
Qed.

Lemma thread_step_sim first a n n' :
  node_ok first n → node_step (ThreadAct a) n = Some n' →
  ∃ acts, reload_run acts (modelled n) = Some (modelled n') ∧ (length (in_flight (nd_loop n')) ≤ 1)%nat ∧
    ws_generation (pb_active (lo_publisher (nd_loop n'))) = active_generation (lo_publisher (nd_loop n')).
Proof.
  intros Hok Hstep. destruct (answer a (nd_loop n)) as [b|] eqn:Ha.
  { destruct (answer_sim _ _ _ _ _ Hok Ha Hstep) as (Hs & ? & ?). exists [PublisherTakes b]. split_and!; [|done..].
    change (reload_run [PublisherTakes b] (modelled n)) with (reload_step (PublisherTakes b) (modelled n) ≫= reload_run []).
    by rewrite Hs. }
  assert (Hl : ∃ l, loop_step spin a (nd_loop n) = Some l ∧ n' = mkNode (nd_task n) l ∧ ∀ event, a ≠ SendControl event).
  { destruct a; try done; unfold node_step in Hstep; rewrite Ha in Hstep; apply bind_Some in Hstep as (l & Hl & [= <-]); eauto. }
  destruct Hl as (l & Hl & -> & Hne). simpl. destruct Hok as [_ Hone Hgen].
  destruct (loop_step_quiet _ _ _ Hl Ha) as (_ & Eg & Epb). rewrite Eg, Epb.
  destruct (loop_step_in_flight _ _ _ Hl Ha Hne) as [Ex|[Ex Ef]].
  - assert (Hf : in_flight l = []) by (unfold in_flight; by rewrite Ex).
    exists (if exited (nd_loop n) then [] else [PublisherStops]). rewrite Hf. split_and!; [|simpl; lia|done].
    unfold modelled, with_thread. cbn [nd_loop nd_task]. rewrite Ex, Hf, Epb. destruct (exited (nd_loop n)) eqn:Ex0; [|done].
    unfold in_flight. by rewrite Ex0.
  - exists []. rewrite Ef. split_and!; [|done..]. unfold modelled, with_thread. cbn [nd_loop nd_task]. by rewrite Ex, Ef, Epb.
Qed.

(** ** Runs *)

(** The thread's steps are steps of [Loop], and the log is that of its activations. *)
Lemma thread_step_run a n n' :
  node_step (ThreadAct a) n = Some n' →
  loop_step spin a (nd_loop n) = Some (nd_loop n') ∧
  rd_activated (nd_task n') = rd_activated (nd_task n) ++ option_list (activation a (nd_loop n)).
Proof.
  intros Hstep. destruct (answer a (nd_loop n)) as [b|] eqn:Ha.
  - destruct a; try done; unfold node_step in Hstep; rewrite Ha in Hstep; by apply bind_Some in Hstep as (l & Hl & [= <-]).
  - assert (Hact : activation a (nd_loop n) = None).
    { unfold activation, answer in *. destruct a; try done. destruct (lo_pc (nd_loop n)) as [| | | | | | | | | | |[|[ws]]| | |]; try done.
      destruct (handle_control_answers ws (lo_publisher (nd_loop n))) as (b & p' & E & _). by rewrite E in Ha. }
    rewrite Hact, app_nil_r.
    destruct a; try done; unfold node_step in Hstep; rewrite Ha in Hstep; by apply bind_Some in Hstep as (l & Hl & [= <-]).
Qed.

Lemma reload_step_activated a r r' :
  (match a with PublisherTakes _ | PublisherStops => False | _ => True end) →
  reload_step a r = Some r' → rd_activated r' = rd_activated r.
Proof.
  intros Ha. destruct a; try done; simpl; unfold request_activation; repeat case_match; intros; by simplify_eq/=.
Qed.

Lemma task_step_run a n n' : node_step (TaskAct a) n = Some n' → rd_activated (nd_task n') = rd_activated (nd_task n).
Proof.
  intros Hstep. assert (Hr : reload_step a (seen n) = Some (nd_task n') ∧
    match a with PublisherTakes _ | PublisherStops => False | _ => True end).
  { destruct a; try done; by apply bind_Some in Hstep as (r & Hr & [= <-]). }
  destruct Hr as [Hr Ha]. exact (reload_step_activated _ _ _ Ha Hr).
Qed.

Lemma node_step_activated a n n' :
  node_step a n = Some n' → rd_activated (nd_task n) `prefix_of` rd_activated (nd_task n').
Proof.
  destruct a as [a|a].
  - by intros ->%task_step_run.
  - intros [_ ->]%thread_step_run. by apply prefix_app_r.
Qed.

Lemma node_run_activated actions : ∀ n n',
  node_run actions n = Some n' → rd_activated (nd_task n) `prefix_of` rd_activated (nd_task n').
Proof.
  induction actions as [|a actions IH]; intros n n'; simpl; [by intros [= <-]|].
  destruct (node_step a n) as [n1|] eqn:E; [|done]. simpl. intros Hrun. etrans; [by eapply node_step_activated|by apply IH].
Qed.

(** What the environment puts into the thread's data queue. *)
Definition fed_by (calls : list (N * WatchSet * EngineCall)) (a : NodeAction) : Prop :=
  match a with ThreadAct a => sent_from cfg calls a | TaskAct _ => True end.

Lemma node_step_sim first calls a n n' :
  ws_generation first + len (rd_activated (nd_task n')) < u64_max →
  node_ok first n → fed_by calls a → node_step a n = Some n' →
  node_ok first n' ∧ (∃ acts, reload_run acts (modelled n) = Some (modelled n')) ∧
  ∃ las, loop_run spin las (nd_loop n) = Some (nd_loop n') ∧ Forall (sent_from cfg calls) las ∧
    rd_activated (nd_task n') = rd_activated (nd_task n) ++ activations spin las (nd_loop n).
Proof.
  intros Hmax Hok Hfed Hstep.
  assert (Hsim : ∃ acts, reload_run acts (modelled n) = Some (modelled n') ∧ (length (in_flight (nd_loop n')) ≤ 1)%nat ∧
    ws_generation (pb_active (lo_publisher (nd_loop n'))) = active_generation (lo_publisher (nd_loop n')) ∧
    ∃ las, loop_run spin las (nd_loop n) = Some (nd_loop n') ∧ Forall (sent_from cfg calls) las ∧
      rd_activated (nd_task n') = rd_activated (nd_task n) ++ activations spin las (nd_loop n)).
  { destruct a as [a|a].
    - destruct (task_step_sim _ _ _ _ Hok Hstep) as (Hs & Hone & Hreq). exists [a]. pose proof (no_generation _ _ Hok) as Hg.
      split; [|split; [done|]].
      { change (reload_run [a] (modelled n)) with (reload_step a (modelled n) ≫= reload_run []). by rewrite Hs. }
      apply task_step_run in Hstep as ->. destruct Hreq as [->|(ws & Hfrom & Hl)].
      + split; [done|]. exists []. simpl. by rewrite app_nil_r.
      + split; [injection Hl as <-; exact Hg|]. exists [SendControl (ActivateConfig ws)]. cbn [loop_run]. rewrite Hl.
        split_and!; [done|by apply Forall_singleton|]. cbn [activations]. rewrite Hl. simpl. by rewrite app_nil_r.
    - destruct (thread_step_sim _ _ _ _ Hok Hstep) as (acts & Hs & Hone & Hg). exists acts. split_and!; [done..|].
      destruct (thread_step_run _ _ _ Hstep) as [Hl Hact]. exists [a]. cbn [loop_run activations]. rewrite Hl.
      split_and!; [done|by apply Forall_singleton|]. by rewrite app_nil_r. }
  destruct Hsim as (acts & Hs & Hone & Hg & Hlas). split; [|by split; [exists acts|]].
  split; [|done..]. eapply reload_run_ok; [exact Hmax|apply (no_task _ _ Hok)|exact Hs].
Qed.

Lemma activations_app las las' : ∀ l l',
  loop_run spin las l = Some l' → activations spin (las ++ las') l = activations spin las l ++ activations spin las' l'.
Proof.
  induction las as [|a las IH]; intros l l'; simpl; [by intros [= <-]|].
  destruct (loop_step spin a l) as [l1|]; [|done]. simpl. intros Hrun. by rewrite (IH _ _ Hrun), app_assoc.
Qed.

Lemma node_run_sim first calls actions : ∀ n n',
  ws_generation first + len (rd_activated (nd_task n')) < u64_max →
  node_ok first n → Forall (fed_by calls) actions → node_run actions n = Some n' →
  node_ok first n' ∧ (∃ acts, reload_run acts (modelled n) = Some (modelled n')) ∧
  ∃ las, loop_run spin las (nd_loop n) = Some (nd_loop n') ∧ Forall (sent_from cfg calls) las ∧
    rd_activated (nd_task n') = rd_activated (nd_task n) ++ activations spin las (nd_loop n).
Proof.
  induction actions as [|a actions IH]; intros n n' Hmax Hok Hfed; simpl.
  { intros [= <-]. split_and!; [done|by exists []|]. exists []. simpl. by rewrite app_nil_r. }
  apply Forall_cons in Hfed as [Ha Hfed]. destruct (node_step a n) as [n1|] eqn:E; [|done]. simpl. intros Hrun.
  assert (Hmax1 : ws_generation first + len (rd_activated (nd_task n1)) < u64_max).
  { apply node_run_activated, prefix_length in Hrun. unfold len in *. lia. }
  destruct (node_step_sim _ _ _ _ _ Hmax1 Hok Ha E) as (Hok1 & [acts1 H1] & las1 & L1 & S1 & A1).
  destruct (IH _ _ Hmax Hok1 Hfed Hrun) as (Hok' & [acts2 H2] & las2 & L2 & S2 & A2). split_and!; [done|..].
  - exists (acts1 ++ acts2). rewrite reload_run_app, H1. exact H2.
  - exists (las1 ++ las2). split_and!; [by rewrite loop_run_app, L1|by apply Forall_app|].
    by rewrite A2, A1, (activations_app _ _ _ _ L1), app_assoc.
Qed.

(** The service as it is started. *)
Lemma node_start_ok boot chain genesis started ws p0 :
  ws_generation ws < u64_max → start_service cfg boot chain genesis started ws = Ok p0 →
  node_ok ws (mkNode (reloader ws) (loop_start p0)) ∧ modelled (mkNode (reloader ws) (loop_start p0)) = reloader ws.
Proof.
  intros Hmax Hstart. destruct (start_service_dictionary _ _ _ _ _ _ _ Hstart) as [Hg _].
  assert (Hpb : pb_active p0 = ws) by by apply start_service_fresh in Hstart as (loaded & _ & ->).
  assert (Hm : modelled (mkNode (reloader ws) (loop_start p0)) = reloader ws) by (cbv [modelled with_thread]; simpl; by rewrite Hpb).
  split; [|done]. split; [rewrite Hm; by apply reloader_ok|simpl; lia|simpl; by rewrite Hpb, Hg].
Qed.
End reconfig.

(** ** The whole node with its reload task *)

Section reconfigured.
Context `{RethWorld} `{!Prost} `{!HashIter} `{!ProstLaws}.
Context (start : nat → nat) (clock : nat → N) (shutdown : nat → N → bool).
#[local] Instance reconfigured_env : Env := node start clock shutdown.
Context (storage_at : B256 → Address → U256 → U256) (Hwords : ∀ h a s, storage_at h a s < 2 ^ 256) (Hworld : world_ok).
Context (Hreports : ∀ t h state, state_by_block_hash t h = inl state →
  ∀ u a s v, state u a s = inl v → default 0 v = storage_at h a s).
Context {IoError TomlError : Type} (toml_from_str : string → outcome TomlError Config) (config_path : string).

(** C3: Reloads, end to end. Let the reload task and the publisher thread run side by side over the
    control channel, in any interleaving with each other, the engine, the file system and the signals,
    the thread's own [activate] answering the requests. Then the task behaves as [Reload] says, a
    request never finds the channel full, the sets the task saw activated are consecutive generations
    compiled from valid files, the producer holds the last of them and the stream is at its
    generation; and every frame broadcast carries the storage of its block at the keys of exactly
    those sets. *)
Theorem reloads_reach_consumers spin cfg boot chain genesis started ws p0 calls actions n :
  from_config cfg ws → start_service cfg boot chain genesis started ws = Ok p0 →
  node_run spin toml_from_str config_path cfg actions (mkNode (reloader ws) (loop_start p0)) = Some n →
  let l := nd_loop n in let p := lo_publisher l in let sets := ws :: rd_activated (nd_task n) in
  Forall (call_true storage_at sets) calls → Forall (fed_by (IoError := IoError) cfg calls) actions →
  within (after_call l) → ws_generation ws + len (rd_activated (nd_task n)) < u64_max →
  (∃ acts, Reload.reload_run (IoError := IoError) toml_from_str config_path cfg acts (reloader ws) = Some (modelled n)) ∧
  (∀ ws' d, rd_pc (nd_task n) = Requesting ws' d → exited l = false → ch_queue (lo_control l) = []) ∧
  (∀ i ws', sets !! i = Some ws' → ws_generation ws' = ws_generation ws + N.of_nat i ∧ from_config cfg ws') ∧
  last sets = Some (pb_active p) ∧ active_generation p = ws_generation (pb_active p) ∧
  stream {| sp_boot_id := boot; sp_capabilities := advertised_capabilities (publish_executed cfg) |}
    (mkStreamState 0 false (ws_generation ws) (ws_len ws)) (envelopes (sh_frames (pb_shared p)))
    (stream_state (ps_recovering (published p)) p) ∧
  Forall (frame_true storage_at (dictionary_of sets) (sh_max_frame_bytes (pb_shared p))) (sh_frames (pb_shared p)).
Proof.
  intros Hfrom Hstart Hrun l p sets Hcalls Hfed Hw Hmax.
  destruct (node_start_ok cfg boot chain genesis started ws p0 ltac:(lia) Hstart) as [Hok0 Hm0].
  destruct (node_run_sim spin toml_from_str config_path cfg ws calls actions _ _ Hmax Hok0 Hfed Hrun)
    as (Hok & [acts Hacts] & las & Hlas & Hsent & Hactivated). rewrite Hm0 in Hacts. simpl in Hactivated.
  assert (Hsets : sets = active_sets start clock shutdown spin ws las p0) by (unfold sets; by rewrite Hactivated).
  rewrite Hsets in Hcalls.
  destruct (node_stream start clock shutdown storage_at Hwords Hworld Hreports _ _ _ _ _ _ _ _ _ _ _
    Hfrom Hstart Hcalls Hsent Hlas Hw) as [Hstream _].
  destruct (node_reaches start clock shutdown storage_at Hwords Hworld Hreports _ _ _ _ _ _ _ _ _ _ _
    Hfrom Hstart Hcalls Hsent Hlas Hw) as (_ & _ & _ & _ & _ & _ & [Hframes _ _]).
  pose proof Hok as [[_ Ha _ Hall] _ Hg]. split_and!; [by exists acts| | | |done|exact Hstream|by rewrite Hsets].
  - intros ws' d Ep Ex. by destruct (requesting_alone _ _ _ _ _ Hok Ep) as (_ & _ & _ & Hq); apply Hq.
  - intros [|i] ws' Hi; [injection Hi as <-; split; [lia|done]|]. destruct (Hall i ws' Hi) as [-> ?]. split; [lia|done].
  - unfold sets, p, l. rewrite last_cons. simpl in Ha. rewrite Ha. by destruct (last _).
Qed.
End reconfigured.

(** The sample node: the file changes while the events arrive, the task asks for the shorter set, the
    thread activates it, then recovers from an overflow and is told to stop. *)
Definition short_toml (contents : string) : outcome () Config :=
  if bool_decide (contents = "short"%string)
  then Ok {| Config.stream := sample_stream; Config.watch := take 2 sample_watch |} else Err ().
Definition reconfig_actions : list (@NodeAction ()) :=
  (ThreadAct <$> (sample_passes ≫= λ pass, match lp_event pass with
     | Some (Data event) => MaintenanceTick :: SendData event :: replicate 7 step0
     | _ => [] end)) ++
  [TaskAct (SetUp true); TaskAct FileChanged; TaskAct Wake; TaskAct (LoadFile (sample_file "broken")); TaskAct Sighup; TaskAct Wake;
   TaskAct (LoadFile (sample_file "short")); TaskAct Request] ++ (ThreadAct <$> replicate 6 step0) ++ [TaskAct Complete] ++
  (ThreadAct <$> [step0; Step (mkChoice 2 0 ArmData); step0; step0; SendShutdown; step0; step0; step0; step0;
   Step (mkChoice 0 0 ArmShutdown)]).
Definition reconfig_start : Node := mkNode (reloader sample_watch_set) (loop_start sample_publisher).
Definition reconfig_node : Node := Eval vm_compute in default reconfig_start
  (@node_run sample_node 0 () () short_toml "statefeed.toml" sample_stream reconfig_actions reconfig_start).

Lemma reconfig_fed : Forall (@fed_by sample_node () sample_stream node_calls) reconfig_actions.
Proof.
  repeat (apply Forall_cons; split; [first [exact I|unfold fed_by, sent_from; apply list_elem_of_In; vm_compute;
    repeat (first [left; reflexivity|right])]|]). by apply Forall_nil.
Qed.

(** One set activated, eleven frames, the thread gone. *)
Lemma reloads_reach_consumers_witness :
  let l := nd_loop reconfig_node in
  rd_activated (nd_task reconfig_node) = [reload_set] ∧ lo_pc l = Exited ∧
  length (sh_frames (pb_shared (lo_publisher l))) = 11%nat ∧
  pb_active (lo_publisher l) = reload_set ∧ active_generation (lo_publisher l) = 2 ∧
  Forall (@frame_true sample_node sample_storage (dictionary_of [sample_watch_set; reload_set]) 4096)
    (sh_frames (pb_shared (lo_publisher l))).
Proof.
  assert (E : rd_activated (nd_task reconfig_node) = [reload_set]) by (vm_compute; reflexivity).
  pose proof (@reloads_reach_consumers node_world sample_prost in_key_order sample_laws (λ t, t) (λ tick, 100 + N.of_nat tick)
    (λ _ _, false) sample_storage (proj1 sample_chain_bounded) node_world_ok
    ltac:(intros t h state [= <-] u a s v [= <-]; reflexivity) () () short_toml "statefeed.toml"
    0 sample_stream sample_boot 1 0 0 sample_watch_set sample_publisher node_calls reconfig_actions reconfig_node
    sample_from_config ltac:(vm_compute; reflexivity) ltac:(vm_compute; reflexivity) (node_calls_true _) reconfig_fed
    ltac:(vm_compute; discriminate) ltac:(vm_compute; reflexivity)) as (_ & _ & _ & _ & Hg & _ & Htrue).
  rewrite E in Htrue. split; [exact E|]. do 3 (split; [reflexivity|]). split; [rewrite Hg; reflexivity|exact Htrue].
Defined.
