(* ===== verification/Lifecycle.v ===== *)
(** * The life of the process (src/src/main.rs: run_node; src/src/publisher.rs: start_service, ServiceHandle)

    From the command line to a running service and back: what [run_node] sets
    up and in which order it gives up, what [start_service] leaves behind when
    it fails, and what [ServiceHandle::shutdown] waits for.  Reth's launch is a
    parameter; the tasks are the models of the other files: the reload task and
    the publisher thread of [Reconfig], the accept loop and the guard of
    [Socket]. *)

From S2P Require Import Prelude Bytes Config Watch Reload Socket Feed Queue Wire Client Consumer Stream Projection Cache CacheInv Publisher Sample PublisherInv Service Fidelity Loop Reconfig.
From stdpp Require Import list.
Local Open Scope N_scope.

(** ** The service and its handle *)

(** Where a call of [ServiceHandle::shutdown] stands. *)
Inductive HandlePc := NotCalled | SendWatch | SendPublisher | AwaitServer | AwaitReload | JoinPublisher | Returned.

(** The reload task and the publisher thread, the server task with its cleanup guard, and the watch
    channel that tells the tasks to stop. *)
Record Service := mkService {
  sv_node : Node;
  sv_server : ServerLoop;
  sv_cleanup : SocketCleanup;
  sv_path : Path;
  sv_shutdown : bool;
  sv_handle : HandlePc;
}.
#[export] Instance eta_Service : Eta Service := λ r,
  mkService (sv_node r) (sv_server r) (sv_cleanup r) (sv_path r) (sv_shutdown r) (sv_handle r).

Abbreviation sv_loop s := (nd_loop (sv_node s)).
Abbreviation sv_reload s := (nd_task (sv_node s)).

Inductive ServiceError := StartFailed (e : Error) | SocketFailed (e : BindError) | SpawnFailed.

(** [start_service]: the checks and the first snapshot, then the socket, then the thread and the
    tasks.  When the thread cannot be spawned the cleanup guard is dropped on the way out. *)
Definition start_service_tasks `{Env} (ft : Faults) (spawn_fails : bool) (s : StreamConfig) (boot_id : bytes) (chain_id : N)
    (genesis_hash : B256) (started_at : N) (ws : WatchSet) (path : Path) : outcome ServiceError Service * Path :=
  match start_service s boot_id chain_id genesis_hash started_at ws with
  | Err e => (Err (StartFailed e), path)
  | Diverge => (Diverge, path)
  | Ok p =>
      match bind_socket ft (socket_mode s) path with
      | (Err e, path) => (Err (SocketFailed e), path)
      | (Diverge, path) => (Diverge, path)
      | (Ok cleanup, path) =>
          if spawn_fails then (Err SpawnFailed, unwind ft cleanup path)
          else (Ok (mkService (mkNode (reloader ws) (loop_start p)) (run_server (max_consumers s)) cleanup path false NotCalled), path)
      end
  end.

(** What another process may do to the path: remove the entry or put a new one there. *)
Definition replace_entry (entry : option FileType) (p : Path) : Path :=
  match entry with
  | None => mkPath None (pa_next_inode p)
  | Some ty => mkPath (Some (mkMetadata ty 0 (pa_next_inode p) 0)) (pa_next_inode p + 1)
  end.

(** The next operation of [ServiceHandle::shutdown]; an await waits for its task to end. *)
Definition handle_step (s : Service) : option Service :=
  match sv_handle s with
  | NotCalled | Returned => None
  | SendWatch => Some (s <| sv_shutdown := true |> <| sv_handle := SendPublisher |>)
  | SendPublisher =>
      Some (s <| sv_node ::= λ n, mkNode (nd_task n) ((nd_loop n) <| lo_shutdown ::= try_send_one () |>) |> <| sv_handle := AwaitServer |>)
  | AwaitServer => if sl_running (sv_server s) then None else Some (s <| sv_handle := AwaitReload |>)
  | AwaitReload =>
      match rd_pc (sv_reload s) with Reload.Returned => Some (s <| sv_handle := JoinPublisher |>) | _ => None end
  | JoinPublisher =>
      match lo_pc (sv_loop s) with Exited => Some (s <| sv_handle := Returned |>) | _ => None end
  end.

Section service.
Context `{Env} `{!ProstLaws} (spin : N).
Context {IoError TomlError : Type} (toml_from_str : string → outcome TomlError Config) (config_path : string).
Context (cfg : StreamConfig).
Notation node_step := (@Reconfig.node_step _ spin IoError TomlError toml_from_str config_path cfg).

Inductive ServiceAction :=
| PublisherAct (a : LoopAction)
| ReloadAct (a : @ReloadAction IoError)
| ServerAct (a : ServerAction)
| ServerStops (metadata_fault remove_fault : option ErrorKind)
| CallShutdown
| HandleAct
| OtherProcess (entry : option FileType).

(** One step of the service.  Only the handle sends the thread its signal; the reload task and the
    server stop when the watch channel says so, and the server then ends its consumers and drops its
    guard and its listener. *)
Definition service_step (a : ServiceAction) (s : Service) : option Service :=
  match a with
  | PublisherAct SendShutdown | PublisherAct DropHandle => None
  | PublisherAct a => n ← node_step (ThreadAct a) (sv_node s); Some (s <| sv_node := n |>)
  | ReloadAct a =>
      match a, sv_shutdown s with
      | ShutDown, false => None
      | _, _ => n ← node_step (TaskAct a) (sv_node s); Some (s <| sv_node := n |>)
      end
  | ServerAct ServerShutDown => None
  | ServerAct a => server ← server_step a (sv_server s); Some (s <| sv_server := server |>)
  | ServerStops mf rf =>
      if sv_shutdown s
      then server ← server_step ServerShutDown (sv_server s);
           Some (s <| sv_server := server |> <| sv_path ::= drop_socket mf rf (sv_cleanup s) |>)
      else None
  | CallShutdown =>
      match sv_handle s with NotCalled => Some (s <| sv_handle := SendWatch |>) | _ => None end
  | HandleAct => handle_step s
  | OtherProcess entry => Some (s <| sv_path ::= replace_entry entry |>)
  end.

Fixpoint service_run (actions : list ServiceAction) (s : Service) : option Service :=
  match actions with
  | [] => Some s
  | a :: actions => s ← service_step a s; service_run actions s
  end.

(** ** Invariant of the service *)

(** Whether the path still names the socket of this service. *)
Definition owned (c : SocketCleanup) (p : Path) : Prop :=
  ∃ m, pa_entry p = Some m ∧ md_ino m = sc_inode c.

(** The server's guard removes the socket without a fault. *)
Definition clean (a : ServiceAction) : Prop :=
  match a with ServerStops mf rf => mf = None ∧ rf = None | _ => True end.

Definition rank_of (pc : HandlePc) : nat :=
  match pc with NotCalled => 0 | SendWatch => 1 | SendPublisher => 2 | AwaitServer => 3 | AwaitReload => 4
  | JoinPublisher => 5 | Returned => 6 end.

Definition stopped (l : Loop) : Prop := lo_pc l = Exited ∨ signalled l.

(** What a handle that has got this far has seen; [places] is the number of consumers allowed. *)
Record service_ok (places : N) (s : Service) : Prop := {
  sk_server : server_ok places (sv_server s);
  sk_set : ∀ ws, pc_set (rd_pc (sv_reload s)) = Some ws → from_config cfg ws;
  sk_inode : sc_inode (sv_cleanup s) < pa_next_inode (sv_path s);
  sk_entry : ∀ m, pa_entry (sv_path s) = Some m → md_ino m = sc_inode (sv_cleanup s) →
    is_socket m = true ∧ md_dev m = sc_device (sv_cleanup s);
  sk_watch : (2 ≤ rank_of (sv_handle s))%nat → sv_shutdown s = true;
  sk_signal : (3 ≤ rank_of (sv_handle s))%nat → stopped (sv_loop s);
  sk_joined : (4 ≤ rank_of (sv_handle s))%nat → sl_running (sv_server s) = false;
  sk_reload : (5 ≤ rank_of (sv_handle s))%nat → rd_pc (sv_reload s) = Reload.Returned;
  sk_thread : (6 ≤ rank_of (sv_handle s))%nat → lo_pc (sv_loop s) = Exited;
}.

(** The server has removed its socket. *)
Definition path_left (s : Service) : Prop := sl_running (sv_server s) = false → ¬ owned (sv_cleanup s) (sv_path s).

Lemma loop_step_stopped a l l' : stopped l → loop_step spin a l = Some l' → stopped l'.
Proof.
  intros Hs Hstep. assert (Hrun : loop_run spin [a] l = Some l') by (simpl; by rewrite Hstep).
  by destruct (loop_run_winding spin [a] l l' Hs Hrun) as [? _].
Qed.

Lemma loop_step_exited a l l' : lo_pc l = Exited → loop_step spin a l = Some l' → lo_pc l' = Exited.
Proof.
  intros Epc. destruct a; simpl; [unfold thread_step; by rewrite Epc|..]; by intros [= <-].
Qed.

(** Dropping guard and listener never touches an entry that is not the service's, names nothing new,
    and without a fault of its own takes the socket away. *)
Lemma cleanup_drop_foreign mf rf c p : ¬ owned c p → cleanup_drop mf rf c p = p.
Proof.
  intros Hno. unfold cleanup_drop, symlink_metadata. destruct mf; [done|]. destruct (pa_entry p) as [m|] eqn:Em; [|done].
  destruct (N.eqb_spec (md_ino m) (sc_inode c)) as [Ei|Ei]; [destruct Hno; by exists m|]. by rewrite andb_false_r.
Qed.
Lemma drop_socket_foreign mf rf c p : ¬ owned c p → drop_socket mf rf c p = p.
Proof.
  intros Hno. unfold drop_socket. rewrite cleanup_drop_foreign by done. unfold close_listener.
  destruct (pa_entry p) as [m|] eqn:Em; [|done].
  destruct (N.eqb_spec (md_ino m) (sc_inode c)) as [Ei|Ei]; [destruct Hno; by exists m|]. by rewrite andb_false_r.
Qed.
Lemma drop_socket_next mf rf c p : pa_next_inode (drop_socket mf rf c p) = pa_next_inode p.
Proof.
  unfold drop_socket, close_listener. assert (E : pa_next_inode (cleanup_drop mf rf c p) = pa_next_inode p).
  { unfold cleanup_drop. by repeat case_match. }
  by repeat case_match.
Qed.
Lemma drop_socket_entry mf rf c p m :
  pa_entry (drop_socket mf rf c p) = Some m → is_socket m = true ∧ md_dev m = sc_device c ∨ pa_entry p = Some m.
Proof.
  assert (Hc : ∀ m, pa_entry (cleanup_drop mf rf c p) = Some m → pa_entry p = Some m).
  { intros m'. unfold cleanup_drop. repeat case_match; done. }
  unfold drop_socket, close_listener. destruct (pa_entry (cleanup_drop mf rf c p)) as [m1|] eqn:E; [|by rewrite E].
  destruct (is_socket m1 && (md_dev m1 =? sc_device c) && (md_ino m1 =? sc_inode c)) eqn:Eb; [|rewrite E; intros [= <-]; auto].
  rewrite !andb_true_iff, !N.eqb_eq in Eb. destruct Eb as [[_ Ed] _]. intros [= <-]. by left.
Qed.
Lemma drop_socket_clean c p :
  (∀ m, pa_entry p = Some m → md_ino m = sc_inode c → is_socket m = true ∧ md_dev m = sc_device c) →
  ¬ owned c (drop_socket None None c p).
Proof.
  intros Hown. assert (Hno : ¬ owned c (cleanup_drop None None c p)).
  { unfold cleanup_drop, symlink_metadata, owned. destruct (pa_entry p) as [m|] eqn:Em; simpl.
    - destruct (N.eqb_spec (md_ino m) (sc_inode c)) as [Ei|Ei].
      + destruct (Hown m eq_refl Ei) as [-> ->]. rewrite N.eqb_refl. simpl. by intros (? & ? & _).
      + rewrite andb_false_r. intros (m' & Em' & Ei'). rewrite Em in Em'. by simplify_eq.
    - rewrite Em. by intros (? & ? & _). }
  unfold drop_socket, close_listener. destruct (pa_entry (cleanup_drop None None c p)) as [m|] eqn:Em; [|done].
  destruct (N.eqb_spec (md_ino m) (sc_inode c)); [destruct Hno; by exists m|]. by rewrite andb_false_r.
Qed.

(** ** Steps *)

Lemma publisher_act_inv a s s' :
  service_step (PublisherAct a) s = Some s' →
  ∃ n, s' = s <| sv_node := n |> ∧ loop_step spin a (sv_loop s) = Some (nd_loop n) ∧
    rd_pc (nd_task n) = rd_pc (sv_reload s).
Proof.
  intros Hstep. assert (Hn : ∃ n, node_step (ThreadAct a) (sv_node s) = Some n ∧ s' = s <| sv_node := n |>).
  { destruct a; try done; apply bind_Some in Hstep as (n & Hn & [= <-]); eauto. }
  destruct Hn as (n & Hn & ->). exists n. split_and!; [done|by apply thread_step_run in Hn as [? _]|].
  destruct (answer a (sv_loop s)) eqn:Ea;
    destruct a; try done; unfold Reconfig.node_step in Hn; rewrite Ea in Hn; by apply bind_Some in Hn as (l & _ & [= <-]).
Qed.

Lemma reload_act_inv a s s' :
  service_step (ReloadAct a) s = Some s' →
  ∃ n, s' = s <| sv_node := n |> ∧ node_step (TaskAct a) (sv_node s) = Some n ∧ (a = ShutDown → sv_shutdown s = true).
Proof.
  unfold service_step. intros Hstep.
  assert (Hn : ∃ n, node_step (TaskAct a) (sv_node s) = Some n ∧ s' = s <| sv_node := n |> ∧ (a = ShutDown → sv_shutdown s = true)).
  { destruct a; destruct (sv_shutdown s); try done; apply bind_Some in Hstep as (n & Hn & [= <-]); by exists n. }
  destruct Hn as (n & ? & ? & ?). eauto.
Qed.

Lemma server_act_inv a s s' :
  service_step (ServerAct a) s = Some s' →
  ∃ server, s' = s <| sv_server := server |> ∧ server_step a (sv_server s) = Some server ∧
    sl_running (sv_server s) = true ∧ sl_running server = true.
Proof.
  intros Hstep. assert (Hn : ∃ server, server_step a (sv_server s) = Some server ∧ s' = s <| sv_server := server |> ∧ a ≠ ServerShutDown).
  { destruct a; try done; apply bind_Some in Hstep as (l & Hl & [= <-]); eauto. }
  destruct Hn as (server & Hs & -> & Hne). exists server. split; [done|]. split; [done|].
  unfold server_step in Hs. destruct (sl_running (sv_server s)) eqn:Er; [|done]. simpl in Hs. split; [done|].
  repeat case_match; simplify_eq/=; done.
Qed.

Lemma server_stops_inv mf rf s s' :
  service_step (ServerStops mf rf) s = Some s' →
  ∃ server, s' = s <| sv_server := server |> <| sv_path ::= drop_socket mf rf (sv_cleanup s) |> ∧
    server_step ServerShutDown (sv_server s) = Some server ∧ sl_running (sv_server s) = true ∧ sl_running server = false.
Proof.
  unfold service_step. destruct (sv_shutdown s); [|done]. intros (server & Hs & [= <-])%bind_Some. exists server.
  split; [done|]. split; [done|]. unfold server_step in Hs. destruct (sl_running (sv_server s)); [|done]. by simplify_eq/=.
Qed.

(** What the task does to the thread, to its set and to its end. *)
Lemma task_step_ok a n n' :
  (∀ ws, pc_set (rd_pc (nd_task n)) = Some ws → from_config cfg ws) → node_step (TaskAct a) n = Some n' →
  requests spin cfg n n' ∧ (∀ ws, pc_set (rd_pc (nd_task n')) = Some ws → from_config cfg ws) ∧
  (rd_pc (nd_task n) = Reload.Returned → rd_pc (nd_task n') = Reload.Returned).
Proof.
  intros Hset Hstep. destruct (task_step_requests _ _ _ _ _ _ _ Hset Hstep) as [Hreq Hr]. split; [done|]. split.
  - by eapply reload_step_set; [|exact Hr].
  - intros Ep. destruct a; simpl in Hr; rewrite ?Ep in Hr; simplify_eq/=; try done.
    all: unfold Reconfig.node_step in Hstep; done.
Qed.

Lemma requests_loop n n' : requests spin cfg n n' → ∃ las, loop_run spin las (nd_loop n) = Some (nd_loop n') ∧
  Forall (λ a, ∃ ws, from_config cfg ws ∧ a = SendControl (ActivateConfig ws)) las.
Proof.
  intros [E|(ws & Hws & Hl)]; [exists []; simpl; by rewrite E|]. exists [SendControl (ActivateConfig ws)]. cbn [loop_run].
  rewrite Hl. split; [done|]. apply Forall_singleton. eauto.
Qed.

Lemma loop_run_kept las : ∀ l l', loop_run spin las l = Some l' →
  (stopped l → stopped l') ∧ (lo_pc l = Exited → lo_pc l' = Exited).
Proof.
  induction las as [|a las IH]; intros l l'; simpl; [by intros [= <-]|].
  destruct (loop_step spin a l) as [l1|] eqn:E; [|done]. simpl. intros [H1 H2]%IH.
  split; intros ?; [eapply H1, loop_step_stopped|eapply H2, loop_step_exited]; done.
Qed.

Lemma service_step_ok places a s s' :
  service_ok places s → service_step a s = Some s' → service_ok places s'.
Proof.
  intros Hok Hstep. destruct Hok. destruct a as [la|ra|sa|mf rf| | |entry].
  - apply publisher_act_inv in Hstep as (n & -> & Hl & Ep).
    split; simpl; rewrite ?Ep; try done; intros Hr; eauto using loop_step_stopped, loop_step_exited.
  - apply reload_act_inv in Hstep as (n & -> & Hn & _). destruct (task_step_ok _ _ _ sk_set0 Hn) as (Hreq & Hset & Hret).
    apply requests_loop in Hreq as (las & Hl & _). destruct (loop_run_kept _ _ _ Hl) as [H1 H2].
    split; simpl; try done; auto.
  - apply server_act_inv in Hstep as (server & -> & Hs & Hr & Hr'). split; simpl; try done; [by eapply server_step_ok|].
    intros Hk. specialize (sk_joined0 Hk). congruence.
  - apply server_stops_inv in Hstep as (server & -> & Hs & Hr & Hr').
    split; simpl; try done; [by eapply server_step_ok|by rewrite drop_socket_next|].
    intros m [?|Em]%drop_socket_entry Ei; [done|]. eauto.
  - simpl in Hstep. destruct (sv_handle s) eqn:Eh; try done. injection Hstep as <-. split; simpl; try done; lia.
  - simpl in Hstep. unfold handle_step in Hstep. destruct (sv_handle s) eqn:Eh; try done; simpl in *.
    + injection Hstep as <-. split; simpl; try done; lia.
    + injection Hstep as <-. split; simpl; try done; try lia; [intros _; apply sk_watch0; lia|].
      intros _. right. apply recv_ready_sent.
    + destruct (sl_running (sv_server s)) eqn:Er; [done|]. injection Hstep as <-.
      split; simpl; try done; try lia; intros _; auto with lia.
    + destruct (rd_pc (sv_reload s)) eqn:Er; try done. injection Hstep as <-.
      split; simpl; rewrite ?Er; try done; try lia; intros _; auto with lia.
    + destruct (lo_pc (sv_loop s)) eqn:Epc; try done. injection Hstep as <-.
      split; simpl; try done; try lia; intros _; auto with lia.
  - injection Hstep as <-. destruct entry as [ty|]; split; simpl; try done; [lia|]. intros m [= <-] E. simpl in E. lia.
Qed.

(** A step that changes the path: the guard of the server, or another process. *)
Lemma service_step_path a s s' :
  service_step a s = Some s' → sv_cleanup s' = sv_cleanup s ∧
  match a with
  | ServerStops mf rf => sv_path s' = drop_socket mf rf (sv_cleanup s) (sv_path s) ∧ sl_running (sv_server s') = false
  | OtherProcess entry => sv_path s' = replace_entry entry (sv_path s) ∧ sv_server s' = sv_server s
  | _ => sv_path s' = sv_path s ∧ sl_running (sv_server s') = sl_running (sv_server s)
  end.
Proof.
  intros Hstep. destruct a as [la|ra|sa|mf rf| | |entry].
  - by apply publisher_act_inv in Hstep as (n & -> & _).
  - by apply reload_act_inv in Hstep as (n & -> & _).
  - apply server_act_inv in Hstep as (server & -> & _ & Hr & Hr'). simpl. by rewrite Hr, Hr'.
  - by apply server_stops_inv in Hstep as (server & -> & _ & _ & Hr').
  - simpl in Hstep. destruct (sv_handle s); by simplify_eq/=.
  - simpl in Hstep. unfold handle_step in Hstep. repeat case_match; by simplify_eq/=.
  - by injection Hstep as <-.
Qed.

Lemma service_step_left places a s s' :
  service_ok places s → path_left s → clean a → service_step a s = Some s' → path_left s'.
Proof.
  intros Hok Hleft Ha Hstep. destruct (service_step_path _ _ _ Hstep) as [Hc Hp]. unfold path_left in *. rewrite Hc.
  destruct a as [la|ra|sa|mf rf| | |entry]; try (destruct Hp as [-> ->]; done).
  - destruct Ha as [-> ->]. destruct Hp as [-> _]. intros _. apply drop_socket_clean, Hok.
  - destruct Hp as [-> ->]. intros Hr (m & Em & Ei). apply (sk_inode _) in Hok.
    destruct entry as [ty|]; simpl in Em; simplify_eq. simpl in Ei. lia.
Qed.

Lemma service_run_ok places actions : ∀ s s',
  service_ok places s → service_run actions s = Some s' →
  service_ok places s' ∧ (Forall clean actions → path_left s → path_left s').
Proof.
  induction actions as [|a actions IH]; intros s s' Hok; simpl; [by intros [= <-]|].
  destruct (service_step a s) as [s1|] eqn:E; [|done]. simpl. intros Hrun.
  pose proof (service_step_ok _ _ _ _ Hok E) as Hok1. destruct (IH _ _ Hok1 Hrun) as [Hok' Hleft]. split; [done|].
  intros [Ha Has]%Forall_cons Hl. apply Hleft; [done|]. exact (service_step_left _ _ _ _ Hok Hl Ha E).
Qed.

(** Engine messages put into the thread's data queue. *)
Definition service_sends_ok (ok : PublisherEvent → Prop) (a : ServiceAction) : Prop :=
  match a with PublisherAct (SendData event) => ok (Data event) | _ => True end.

(** The thread inside the service is a thread of [Loop], and the requests it gets are the task's. *)
Lemma service_step_loop places ok a s s' :
  service_ok places s → (∀ ws, from_config cfg ws → ok (Control (ActivateConfig ws))) → service_sends_ok ok a →
  service_step a s = Some s' →
  ∃ las, loop_run spin las (sv_loop s) = Some (sv_loop s') ∧ Forall (sends_ok ok) las.
Proof.
  intros Hok Hcontrol Ha Hstep. destruct a as [la|ra|sa|mf rf| | |entry].
  - assert (Hsend : sends_ok ok la) by (destruct la; try done; by simpl in Hstep).
    apply publisher_act_inv in Hstep as (n & -> & Hl & _). exists [la]. simpl. rewrite Hl. split; [done|]. by apply Forall_singleton.
  - apply reload_act_inv in Hstep as (n & -> & Hn & _). destruct (task_step_ok _ _ _ (sk_set _ _ Hok) Hn) as (Hreq & _).
    apply requests_loop in Hreq as (las & Hl & Hlas). exists las. split; [done|].
    eapply Forall_impl; [exact Hlas|]. intros ? (ws & Hws & ->). by apply Hcontrol.
  - apply server_act_inv in Hstep as (server & -> & _). by exists [].
  - apply server_stops_inv in Hstep as (server & -> & _). by exists [].
  - simpl in Hstep. destruct (sv_handle s); simplify_eq/=. by exists [].
  - simpl in Hstep. unfold handle_step in Hstep. destruct (sv_handle s) eqn:Eh; try done.
    2: { injection Hstep as <-. exists [SendShutdown]. split; [done|]. by apply Forall_singleton. }
    all: repeat case_match; simplify_eq/=; by exists [].
  - injection Hstep as <-. by exists [].
Qed.

Lemma service_run_loop places ok actions : ∀ s s',
  service_ok places s → (∀ ws, from_config cfg ws → ok (Control (ActivateConfig ws))) →
  Forall (service_sends_ok ok) actions → service_run actions s = Some s' →
  ∃ las, loop_run spin las (sv_loop s) = Some (sv_loop s') ∧ Forall (sends_ok ok) las.
Proof.
  induction actions as [|a actions IH]; intros s s' Hok Hcontrol Ha; simpl; [intros [= <-]; by exists []|].
  apply Forall_cons in Ha as [Ha Has]. destruct (service_step a s) as [s1|] eqn:E; [|done]. simpl. intros Hrun.
  pose proof (service_step_ok _ _ _ _ Hok E) as Hok1.
  destruct (service_step_loop _ _ _ _ _ Hok Hcontrol Ha E) as (las1 & H1 & F1).
  destruct (IH _ _ Hok1 Hcontrol Has Hrun) as (las2 & H2 & F2).
  exists (las1 ++ las2). split; [by rewrite loop_run_app, H1|by apply Forall_app].
Qed.

(** A task that has been told to stop is never further than two of its own steps from its end. *)
Lemma task_returns s :
  sv_shutdown s = true →
  ∃ acts s', (length acts ≤ 2)%nat ∧ service_run (ReloadAct <$> acts) s = Some s' ∧ rd_pc (sv_reload s') = Reload.Returned.
Proof.
  intros Hsh. destruct s as [[task loop] server c path sh h]. simpl in Hsh. subst sh.
  destruct (rd_pc task) eqn:Ep.
  all: try (exists [ShutDown]; eexists; split; [simpl; lia|]; simpl; rewrite Ep; simpl; split; [reflexivity|done]).
  - exists [SetUp true; ShutDown]. eexists. split; [simpl; lia|]. simpl. rewrite Ep. simpl. split; [reflexivity|done].
  - destruct (request_activation ws (seen (mkNode task loop))) as [[] r] eqn:E.
    3: exists [Request]. 1,2: exists [Request; ShutDown].
    all: eexists; split; [simpl; lia|]; unfold fmap; cbn [list_fmap map service_run service_step sv_shutdown sv_node Reconfig.node_step reload_step].
    all: change (rd_pc (seen (mkNode task loop))) with (rd_pc task); rewrite Ep, E; simpl; split; [reflexivity|done].
  - exists []. eexists. split; [simpl; lia|]. split; [reflexivity|exact Ep].
Qed.
End service.

(** What the task asks for may be handed to the thread. *)
Lemma from_config_event_ok params cfg ws : from_config cfg ws → event_ok params (Control (ActivateConfig ws)).
Proof. intros (c & Hv & _ & ->). apply validate_ok in Hv as []. by apply compile_wf. Qed.

(** The service as [start_service] leaves it. *)
Definition started_service (s : StreamConfig) (ws : WatchSet) (p : Publisher) (c : SocketCleanup) (path : Path) : Service :=
  mkService (mkNode (reloader ws) (loop_start p)) (run_server (max_consumers s)) c path false NotCalled.

Lemma started_service_ok cfg ws p c path mode :
  pa_entry path = Some (mkMetadata (SocketFile None) (sc_device c) (sc_inode c) mode) → sc_inode c < pa_next_inode path →
  service_ok cfg (max_consumers cfg) (started_service cfg ws p c path) ∧ path_left (started_service cfg ws p c path).
Proof.
  intros He Hi. split; [|done]. split; simpl; try done; try lia.
  - apply run_server_ok.
  - intros m Hm _. rewrite He in Hm. by simplify_eq.
Qed.

(** What [bind_socket] makes of the path when it fails: nothing happens to it before the stale socket
    has been removed; the bound socket stays only if it cannot be inspected, or if its guard cannot
    remove it, and then nobody listens on it. *)
Definition socket_left (ft : Faults) (e : BindError) (path path' : Path) : Prop :=
  let dead := dead_socket (ft_device ft) (pa_next_inode path) (ft_initial_mode ft) in
  match e with
  | BindFailed _ => replaceable path = true ∧ pa_entry path' = None
  | SetPermissions _ => replaceable path = true ∧ pa_entry path' = if drop_faults ft then Some dead else None
  | InspectBound _ => replaceable path = true ∧ pa_entry path' = Some dead
  | _ => path' = path
  end.

(** What [start_service] leaves behind, and which step failed. *)
Lemma start_service_tasks_spec `{Env} ft spawn_fails s boot chain genesis started ws path :
  let started_with p := start_service s boot chain genesis started ws = Ok p in
  match start_service_tasks ft spawn_fails s boot chain genesis started ws path with
  | (Ok sv, path') => ∃ p c, started_with p ∧ bind_socket ft (socket_mode s) path = (Ok c, path') ∧ spawn_fails = false ∧
      sv = started_service s ws p c path' ∧ replaceable path = true ∧
      pa_entry path' = Some (mkMetadata (SocketFile None) (sc_device c) (sc_inode c) (socket_mode s)) ∧
      sc_inode c < pa_next_inode path'
  | (Err (StartFailed e), path') => start_service s boot chain genesis started ws = Err e ∧ path' = path
  | (Err (SocketFailed e), path') => ∃ p, started_with p ∧ bind_socket ft (socket_mode s) path = (Err e, path') ∧
      socket_left ft e path path'
  | (Err SpawnFailed, path') => ∃ p c path1, started_with p ∧ bind_socket ft (socket_mode s) path = (Ok c, path1) ∧
      spawn_fails = true ∧ replaceable path = true ∧ path' = unwind ft c path1 ∧
      pa_entry path' = if drop_faults ft then Some (dead_socket (sc_device c) (sc_inode c) (socket_mode s)) else None
  | (Diverge, path') => path' = path
  end.
Proof.
  cbv zeta. unfold start_service_tasks. destruct (start_service _ _ _ _ _ _) as [p|e|]; [|done|done].
  pose proof (bind_socket_spec ft (socket_mode s) path) as Hb.
  destruct (bind_socket ft (socket_mode s) path) as [[c|e|] path'] eqn:E; [|exists p; split_and!; [done..|by destruct e]|done].
  destruct Hb as (Hr & He & Hi & _). destruct spawn_fails; [|by exists p, c; split_and!].
  exists p, c, path'. split_and!; try done. by apply unwind_bound.
Qed.

(** ** The process *)

(** What the engine wrapper is built from ([StatefeedEngineValidatorBuilder::new]). *)
Record EngineHooks := mkEngineHooks {
  eh_watch_set : WatchSet;
  eh_queue : Queue;
  eh_publish_executed : bool;
}.

Inductive NodeError (IoError TomlError LaunchError : Type) :=
| ConfigRequired
| ConfigFailed (e : ConfigError IoError TomlError)
| LaunchFailed (e : LaunchError)
| ServiceFailed (e : ServiceError).
Arguments ConfigRequired {IoError TomlError LaunchError}.
Arguments ConfigFailed {IoError TomlError LaunchError} e.
Arguments LaunchFailed {IoError TomlError LaunchError} e.
Arguments ServiceFailed {IoError TomlError LaunchError} e.

Section run_node.
Context `{Env} {IoError TomlError LaunchError : Type}.
Context (read_to_string : string → outcome IoError string) (toml_from_str : string → outcome TomlError Config).
(** The chain the node is configured for, and launching it with the wrapper in place. *)
Context (chain_id : N) (genesis_hash : B256) (launch : EngineHooks → outcome LaunchError ()).
Context (ft : Faults) (spawn_fails : bool) (boot_id : bytes) (started_at : N).

(** What the wrapper and the publisher are given: the first watch set and the queue. *)
Definition engine_hooks (config : Config) : EngineHooks :=
  mkEngineHooks (compile 1 (watch config)) (channel (queue_capacity (Config.stream config)))
    (publish_executed (Config.stream config)).

(** [run_node] up to the wait for the node's exit. *)
Definition run_node (statefeed_config : option string) (path : Path)
    : outcome (NodeError IoError TomlError LaunchError) (EngineHooks * Service) * Path :=
  match statefeed_config with
  | None => (Err ConfigRequired, path)
  | Some config_path =>
      match load read_to_string toml_from_str config_path with
      | Err e => (Err (ConfigFailed e), path)
      | Diverge => (Diverge, path)
      | Ok config =>
          let hooks := engine_hooks config in
          match launch hooks with
          | Err e => (Err (LaunchFailed e), path)
          | Diverge => (Diverge, path)
          | Ok _ =>
              match start_service_tasks ft spawn_fails (Config.stream config) boot_id chain_id genesis_hash started_at
                      (eh_watch_set hooks) path with
              | (Err e, path) => (Err (ServiceFailed e), path)
              | (Diverge, path) => (Diverge, path)
              | (Ok service, path) => (Ok (hooks, service), path)
              end
          end
      end
  end.

(** How far a run got: the file named on the command line was loaded, the node launched with the hooks
    built from it, the service's checks passed. *)
Definition configured (args : option string) (config : Config) : Prop :=
  ∃ config_path, args = Some config_path ∧ load read_to_string toml_from_str config_path = Ok config.
Definition launched (args : option string) (config : Config) : Prop :=
  configured args config ∧ launch (engine_hooks config) = Ok ().
Definition checked (args : option string) (config : Config) (p : Publisher) : Prop :=
  launched args config ∧
  start_service (Config.stream config) boot_id chain_id genesis_hash started_at (compile 1 (watch config)) = Ok p.
End run_node.

(** ** Theorems *)

(** C12: [run_node] gives up in one order and gets everything right or leaves nothing behind.  An error
    tells how far it got: no configuration path; a file that does not load or validate, with that
    error; a node that does not launch, with a valid file; a service check or first snapshot that
    fails, in a launched node; and only after all of these succeeded the socket, and only after the
    socket the publisher thread.  Until the socket is bound the path is as it was, or free where a
    stale socket was; after that it is free again, unless the bound socket could not be inspected or
    the cleanup guard's own calls failed, and then what stays is a socket nobody listens on, which the
    next start may replace.  On success the wrapper and the publisher were given one and
    the same watch set, of generation one and compiled from the file, the same executed-block flag and
    a queue of the configured capacity, the publisher is the one [start_service] checked, and the path
    names a fresh socket with the configured mode. *)
Theorem run_node_spec `{Env} {IoError TomlError LaunchError} (read_to_string : string → outcome IoError string)
    (toml_from_str : string → outcome TomlError Config) chain genesis (launch : EngineHooks → outcome LaunchError ())
    ft spawn_fails boot started args path :
  let configured := configured read_to_string toml_from_str args in
  let launched := launched read_to_string toml_from_str launch args in
  let checked := checked read_to_string toml_from_str chain genesis launch boot started args in
  match run_node read_to_string toml_from_str chain genesis launch ft spawn_fails boot started args path with
  | (Err ConfigRequired, path') => args = None ∧ path' = path
  | (Err (ConfigFailed e), path') =>
      path' = path ∧ ∃ config_path, args = Some config_path ∧ load read_to_string toml_from_str config_path = Err e
  | (Err (LaunchFailed e), path') => path' = path ∧ ∃ config, configured config ∧ launch (engine_hooks config) = Err e
  | (Err (ServiceFailed (StartFailed e)), path') => path' = path ∧ ∃ config, launched config ∧
      start_service (Config.stream config) boot chain genesis started (compile 1 (watch config)) = Err e
  | (Err (ServiceFailed (SocketFailed e)), path') => ∃ config p, checked config p ∧
      bind_socket ft (socket_mode (Config.stream config)) path = (Err e, path') ∧ socket_left ft e path path'
  | (Err (ServiceFailed SpawnFailed), path') => ∃ config p c path1, checked config p ∧
      bind_socket ft (socket_mode (Config.stream config)) path = (Ok c, path1) ∧ spawn_fails = true ∧
      replaceable path = true ∧ path' = unwind ft c path1 ∧
      pa_entry path' = if drop_faults ft
        then Some (dead_socket (sc_device c) (sc_inode c) (socket_mode (Config.stream config))) else None
  | (Ok (hooks, sv), path') => ∃ config p c, checked config p ∧
      bind_socket ft (socket_mode (Config.stream config)) path = (Ok c, path') ∧ spawn_fails = false ∧
      hooks = mkEngineHooks (compile 1 (watch config)) (channel (queue_capacity (Config.stream config)))
        (publish_executed (Config.stream config)) ∧
      from_config (Config.stream config) (eh_watch_set hooks) ∧ watch_set_wf (eh_watch_set hooks) ∧
      2 ≤ q_capacity (eh_queue hooks) ∧ 0 < max_consumers (Config.stream config) ∧
      sv = started_service (Config.stream config) (eh_watch_set hooks) p c path' ∧ replaceable path = true ∧
      service_ok (Config.stream config) (max_consumers (Config.stream config)) sv ∧
      pa_entry path' = Some (mkMetadata (SocketFile None) (sc_device c) (sc_inode c) (socket_mode (Config.stream config)))
  | (Diverge, path') => path' = path
  end.
Proof.
  cbv zeta. unfold run_node, checked, launched, configured. destruct args as [config_path|]; [|done].
  destruct (load _ _ config_path) as [config|e|] eqn:Hload; [|by eauto|done]. cbv zeta.
  destruct (launch (engine_hooks config)) as [[]|e|] eqn:Hlaunch; [|by eauto 10|done].
  pose proof (start_service_tasks_spec ft spawn_fails (Config.stream config) boot chain genesis started
    (eh_watch_set (engine_hooks config)) path) as Hs. cbv zeta in Hs.
  destruct (start_service_tasks _ _ _ _ _ _ _ _ _) as [[sv|[e|e|]|] path']; [| | | |done].
  - destruct Hs as (p & c & Hstart & Hb & Hsp & Hsv & Hr & He & Hi). apply load_valid in Hload as Hv.
    pose proof Hv as Hv'. apply validate_ok in Hv' as Hok. destruct Hok.
    exists config, p, c. split_and!; try done; [by eauto|by exists config|by apply compile_wf|by apply so_queue|by apply so_consumers|].
    rewrite Hsv. by eapply started_service_ok.
  - destruct Hs as [Hs ->]. split; [done|]. exists config. eauto 10.
  - destruct Hs as (p & Hp & Hs). exists config, p. split; [|done]. eauto 10.
  - destruct Hs as (p & c & path1 & Hp & Hs). exists config, p, c, path1. split; [|done]. eauto 10.
Qed.

(** C11: [ServiceHandle::shutdown] waits for everything and for nothing that does not come.  When it
    has returned, the publisher thread has exited, the reload task has returned, the server has left
    its loop with no consumer behind, every permit is back and the gauge of connected consumers is
    zero; and unless the guard's own calls failed the path no longer names the service's socket.  Until
    then what it waits for is on its way: the tasks have been told to stop, the server can stop at
    once whatever its guard meets, the reload task is at most two of its own steps from its end
    wherever it stands, and the thread has its signal and is never blocked.  All the while free
    permits and consumers that hold one add up to the configured number, the gauge counts the
    consumers being served, and no step of the service touches an entry at the path that another
    process has put there. *)
Theorem shutdown_complete `{Env} `{!ProstLaws} {IoError TomlError} spin (toml_from_str : string → outcome TomlError Config)
    config_path ft cfg boot chain genesis started ws path s0 path0 (actions : list (@ServiceAction IoError)) s :
  let step := service_step (IoError := IoError) spin toml_from_str config_path cfg in
  let run := service_run (IoError := IoError) spin toml_from_str config_path cfg in
  watch_set_wf ws →
  start_service_tasks ft false cfg boot chain genesis started ws path = (Ok s0, path0) →
  Forall (service_sends_ok (event_ok (service_params (lo_publisher (sv_loop s0))))) actions →
  run actions s0 = Some s → within (after_call (sv_loop s)) →
  sl_permits (sv_server s) + N.of_nat (count holds_permit (sl_consumers (sv_server s))) = max_consumers cfg ∧
  sl_connected (sv_server s) = N.of_nat (count is_serving (sl_consumers (sv_server s))) ∧
  (∀ a s', step a s = Some s' → ¬ owned (sv_cleanup s) (sv_path s) →
     match a with OtherProcess _ => True | _ => sv_path s' = sv_path s end) ∧
  match sv_handle s with
  | NotCalled => True
  | SendWatch | SendPublisher => is_Some (handle_step s)
  | AwaitServer => if sl_running (sv_server s) then ∀ mf rf, is_Some (step (ServerStops mf rf) s) else is_Some (handle_step s)
  | AwaitReload => sv_shutdown s = true ∧ sl_running (sv_server s) = false ∧
      ∃ acts s', (length acts ≤ 2)%nat ∧ run (ReloadAct <$> acts) s = Some s' ∧ rd_pc (sv_reload s') = Reload.Returned
  | JoinPublisher => lo_pc (sv_loop s) ≠ Exited → signalled (sv_loop s) ∧ ∃ c, is_Some (thread_step spin c (sv_loop s))
  | Returned => lo_pc (sv_loop s) = Exited ∧ rd_pc (sv_reload s) = Reload.Returned ∧
      sl_running (sv_server s) = false ∧ sl_consumers (sv_server s) = ∅ ∧
      sl_permits (sv_server s) = max_consumers cfg ∧ sl_connected (sv_server s) = 0 ∧
      (Forall clean actions → ¬ owned (sv_cleanup s) (sv_path s))
  end.
Proof.
  intros step run Hws Hstart Hsends Hrun Hw.
  pose proof (start_service_tasks_spec ft false cfg boot chain genesis started ws path) as Hs. cbv zeta in Hs.
  rewrite Hstart in Hs. destruct Hs as (p & c & Hp & _ & _ & Hs0 & _ & He & Hi).
  destruct (started_service_ok cfg ws p c path0 _ He Hi) as [Hok0 Hleft0]. rewrite <- Hs0 in Hok0, Hleft0.
  destruct (service_run_ok spin _ _ cfg _ actions s0 s Hok0 Hrun) as [Hok Hleft].
  assert (El : sv_loop s0 = loop_start p) by by rewrite Hs0. rewrite El in Hsends. simpl in Hsends.
  destruct (service_run_loop spin _ _ cfg _ _ actions s0 s Hok0 ltac:(apply from_config_event_ok) Hsends Hrun) as (las & Hlas & Hlok).
  rewrite El in Hlas. destruct (start_service_idle _ _ _ _ _ _ _ Hws Hp) as (_ & Hcaps & _).
  pose proof (protocol_reachable spin _ _ _ _ _ _ _ _ _ Hws Hp Hlok Hlas) as Hl.
  pose proof (thread_progress spin _ _ _ _ Hcaps Hl Hw) as Hprog.
  pose proof Hok as [[Hpermits Hconnected Hended] _ _ _ Hwatch Hsignal Hjoined Hreload Hthread].
  split; [done|]. split; [done|]. split.
  { intros a s' Hstep Hno. destruct (service_step_path _ _ _ _ _ _ _ Hstep) as [_ Hpath].
    destruct a; try apply Hpath; [|done]. destruct Hpath as [-> _]. by apply drop_socket_foreign. }
  destruct (sv_handle s) eqn:Eh; simpl in *; auto.
  - unfold handle_step. rewrite Eh. eauto.
  - unfold handle_step. rewrite Eh. eauto.
  - destruct (sl_running (sv_server s)) eqn:Er; [|unfold handle_step; rewrite Eh, Er; eauto].
    intros mf rf. unfold step, service_step, server_step. rewrite (Hwatch ltac:(lia)), Er. simpl. eauto.
  - split_and!; [apply Hwatch; lia|apply Hjoined; lia|]. apply task_returns, Hwatch. lia.
  - intros Hne. destruct (Hsignal ltac:(lia)) as [?|Hsig]; [done|]. split; [done|].
    destruct Hprog as [?|[(_ & Hsl & _)|?]]; [done| |done]. unfold signalled in Hsig. congruence.
  - pose proof (Hjoined ltac:(lia)) as Hr. rewrite (Hended Hr), count_empty in *.
    split_and!; [apply Hthread; lia|apply Hreload; lia|done|done|lia|done|]. intros Hclean. by apply Hleft.
Qed.

(** ** Witnesses *)

Definition no_faults : Faults :=
  {| ft_create_dir_all := None; ft_symlink_metadata := false; ft_remove_file := None; ft_bind := None;
     ft_bound_metadata := None; ft_set_permissions := None; ft_drop_metadata := None; ft_drop_remove := None; ft_device := 3; ft_initial_mode := 493 |}.

(** A stale socket is at the path. *)
Definition stale_path : Path := mkPath (Some (mkMetadata (SocketFile (Some ConnectionRefused)) 3 7 432)) 8.

Definition sample_node_start : outcome ServiceError Service * Path :=
  @start_service_tasks sample_env no_faults false sample_stream sample_boot 1 0 0 sample_watch_set stale_path.
Definition sample_service : Service :=
  Eval vm_compute in match sample_node_start.1 with
    | Ok s => s
    | _ => started_service sample_stream sample_watch_set sample_publisher {| sc_device := 0; sc_inode := 0 |} stale_path
    end.

(** A consumer connects, an event is handled and the reload task wakes up; then the handle shuts
    everything down. *)
Definition sample_life : list (@ServiceAction ()) :=
  [ServerAct (Accept 1); ReloadAct (SetUp true); ServerAct (Serve 1); PublisherAct (SendData (Validated 21 1 60))] ++
  replicate 7 (PublisherAct step0) ++ [ReloadAct FileChanged; ReloadAct Wake; CallShutdown; HandleAct; HandleAct;
  ServerStops None None; HandleAct; ReloadAct ShutDown; HandleAct; PublisherAct step0; HandleAct].
Definition sample_ended : Service :=
  Eval vm_compute in default sample_service
    (@service_run sample_env 0 () () short_toml "statefeed.toml" sample_stream sample_life sample_service).

Lemma shutdown_complete_witness :
  sv_handle sample_ended = Returned ∧ lo_pc (sv_loop sample_ended) = Exited ∧ pa_entry (sv_path sample_ended) = None ∧
  sl_permits (sv_server sample_ended) = max_consumers sample_stream ∧ ¬ owned (sv_cleanup sample_ended) (sv_path sample_ended).
Proof.
  split; [reflexivity|]. split; [reflexivity|]. split; [reflexivity|].
  destruct (@shutdown_complete sample_env sample_laws () () 0 short_toml "statefeed.toml" no_faults sample_stream sample_boot 1 0 0
    sample_watch_set stale_path sample_service (sv_path sample_service) sample_life sample_ended
    sample_watch_wf ltac:(vm_compute; reflexivity) ltac:(repeat constructor)
    ltac:(vm_compute; reflexivity) ltac:(vm_compute; discriminate)) as (_ & _ & _ & _ & _ & _ & _ & Hpermits & _ & Howned).
  split; [exact Hpermits|apply Howned; repeat constructor].
Defined.

(** A valid file, a node that launches and a stale socket: the process comes up and owns the path. *)
Example sample_process :
  match @run_node sample_env () () () (λ _, Ok EmptyString)
          (λ _, Ok {| Config.stream := sample_stream; Config.watch := sample_watch |}) 1 0 (λ _, Ok ()) no_faults false
          sample_boot 0 (Some "statefeed.toml"%string) stale_path with
  | (Ok (hooks, sv), path) => eh_watch_set hooks = sample_watch_set ∧ sv = sample_service ∧ path = sv_path sample_service
  | _ => False
  end.
Proof. vm_compute. split_and!; reflexivity. Qed.
