(* ===== verification/Delivery.v ===== *)
(** * From the engine to the consumer's bytes

    The whole path: the engine's callbacks and the operator's files at one end,
    at the other the bytes a consumer reads from its socket, decodes and
    checks.  Every part of the program on the way is the one modelled in the
    other files; the codec, the provider and the broadcast ring are behind
    their interfaces. *)

From S2P Require Import Prelude Bytes Config Watch Reload Feed Wire Protobuf Client Consumer Stream Projection Reth Cache CacheInv Publisher Sample PublisherInv Service Codec Fidelity Loop Typed Server Live System.
From stdpp Require Import list.
Local Open Scope N_scope.

(** Frames as they follow each other on the socket. *)
Definition stream_bytes (hs : list (wire.Envelope * bytes)) (frames : list PublishedFrame) : bytes :=
  concat hs.*2 ++ concat (pf_bytes <$> frames).

(** ** What the types of Reth say *)

Definition typed_num_hash (b : BlockNumHash) : Prop := bn_number b ≤ u64_max.

(** Block numbers and timestamps are 64 bits wide. *)
Record world_typed `{RethWorld} : Prop := {
  wt_header : ∀ t h header, sealed_header_by_hash t h = inl (Some header) →
    hd_number header ≤ u64_max ∧ hd_timestamp header ≤ u64_max;
  wt_info : ∀ t info, chain_info t = inl info → best_number info ≤ u64_max;
  wt_safe : ∀ t o, safe_block_num_hash t = inl o → on_option typed_num_hash o;
  wt_finalized : ∀ t o, finalized_block_num_hash t = inl o → on_option typed_num_hash o;
  wt_views : ∀ t v, UpdateTracker (Some v) ∈ rw_trace t → typed_applied v;
}.

Definition call_typed (c : N * WatchSet * EngineCall) : Prop :=
  match c.2 with
  | OnExecuted b | ValidateBlock _ (inl b) | OnInsertedExecutedBlock (inl b) => typed_meta (eb_block b)
  | OnForkchoiceApplied f => on_option typed_num_hash (ap_safe f) ∧ on_option typed_num_hash (ap_finalized f)
  | _ => True
  end.

(** A reload's file holds Unicode strings. *)
Definition request_typed (a : LoopAction) : Prop :=
  match a with SendControl (ActivateConfig ws) => text_set ws | _ => True end.

Lemma utf8_invalid : utf8 "block_validation_failed".
Proof. eexists. vm_compute. reflexivity. Qed.

Lemma typed_checkpoint_of o : on_option typed_num_hash o → on_option typed_mark (checkpoint <$> o).
Proof. by destruct o. Qed.

Lemma loaded_typed `{RethWorld} ws h pj : world_typed → loaded_at ws h pj → typed_meta (pj_block pj).
Proof. intros Ht Hpj. destruct (la_header _ _ _ Hpj) as (t & header & Hh & ->). by apply (wt_header Ht _ _ _ Hh). Qed.

Lemma view_typed `{RethWorld} t v :
  world_typed → mjoin (last (updates (rw_trace t))) = Some v → typed_applied v.
Proof.
  intros Ht Hl. apply (wt_views Ht t). destruct (last (updates (rw_trace t))) as [o|] eqn:E; [|done].
  simpl in Hl. subst o. apply last_Some in E as [l E]. assert (Hin : Some v ∈ updates (rw_trace t)) by (rewrite E; set_solver).
  apply list_elem_of_bind in Hin as (e & He & Hin). destruct e; simpl in He; set_solver.
Qed.

Lemma anchored_typed `{RethWorld} ws t0 t1 s :
  world_typed → anchored ws t0 t1 s → typed_meta (pj_block (cs_projection s)) ∧ typed_forkchoice (cs_forkchoice s).
Proof.
  intros Ht (begin & a & _ & [_ Hpj _ _ _ Hv]). pose proof (loaded_typed _ _ _ Ht Hpj) as Hm.
  split; [done|]. destruct (mjoin _) as [v|] eqn:Ev.
  - destruct Hv as [_ ->]. apply typed_resolve; [by eapply view_typed|apply Hm].
  - destruct Hv as (info & info' & safe & final & Hi & _ & _ & Hs & _ & Hf & _ & _ & ->).
    split_and!; [by apply (wt_info Ht _ _ Hi)|by apply typed_checkpoint_of, (wt_safe Ht _ _ Hs)|
      by apply typed_checkpoint_of, (wt_finalized Ht _ _ Hf)].
Qed.

Section delivery.
Context `{RethWorld} `{!Prost} `{!HashIter} `{!ProstLaws} `{!ProstInverse} `{Broadcast} (capacity : nat) `{!BroadcastLaws capacity}.
Context (start : nat → nat) (clock : nat → N) (shutdown : nat → N → bool).
Context (storage_at : B256 → Address → U256 → U256) (Hwords : ∀ h a s, storage_at h a s < 2 ^ 256) (Hworld : world_ok).
Context (Htypes : world_typed).
Context (Hreports : ∀ t h state, state_by_block_hash t h = inl state →
  ∀ u a s v, state u a s = inl v → default 0 v = storage_at h a s).

#[local] Instance delivery_env : Env := node start clock shutdown.

Lemma reth_source_typed : typed_source.
Proof.
  split.
  - intros t ws s E%returned_inl. destruct (load_latest_post Hworld ws (start t)) as (_ & _ & Hs).
    eapply anchored_typed; [done|by apply Hs].
  - intros t ws h pj E%returned_inl%load_at_loaded. by eapply loaded_typed.
Qed.

(** What fills the channels has the types of the source. *)
Lemma calls_typed cfg calls a :
  Forall call_typed calls → request_typed a → sent_from cfg calls a → sends_ok typed_input a.
Proof.
  intros Hcalls Hreq. unfold sent_from, sends_ok. rewrite Forall_forall in Hcalls.
  destruct a as [| | | | |[ws]|event|]; try done.
  - intros (c & Hv & _ & E). apply text_set_typed; [|exact Hreq]. rewrite E. apply validate_ok in Hv as []. by apply compile_wf.
  - intros ([[t ws] call] & Hin & Hc)%list_elem_of_bind. specialize (Hcalls _ Hc). unfold call_typed in Hcalls. simpl in Hcalls, Hin.
    apply list_elem_of_In in Hin. destruct call as [b|h [b|[|[]]]|[b|]| | |f], (publish_executed cfg); simpl in Hin;
      repeat (destruct Hin as [Hin|Hin]); try done; simplify_eq/=; try done.
    all: first [exact utf8_invalid|split; apply typed_checkpoint_of; apply Hcalls].
Qed.

(** The handshake has the types of the wire when the state it is built from has. *)
Lemma handshake_typed sh c pub ns1 ns2 ns3 baseline hs :
  typed_state pub → baseline ≤ u64_max → sh_chain_id sh ≤ u64_max → sh_capabilities sh ≤ u64_max →
  serve_handshake sh c pub ns1 ns2 ns3 = Ok (baseline, hs) → Forall typed_envelope hs.*1.
Proof.
  intros [Hpj Hf] Hb Hchain Hcaps Hs. destruct (serve_handshake_Ok _ _ _ _ _ _ _ _ Hs) as (_ & v & Ev & _ & _ & E & _).
  cbv zeta in E. rewrite E. rewrite Ev in Hf.
  repeat (apply Forall_cons; split); try (by apply Forall_nil); (apply typed_make_envelope; [done|apply Hpj|lia|]).
  - split_and!; [eexists; vm_compute; reflexivity|done|done].
  - by apply typed_config, Hpj.
  - by apply typed_snapshot.
Qed.

(** A client reads back what [encode_frame] wrote. *)
Lemma read_encoded limit max (fs : list (wire.Envelope * bytes)) :
  limit ≤ max → Forall (λ f, encode_frame f.1 limit = Ok f.2) fs → Forall typed_envelope fs.*1 →
  read_all max (concat fs.*2) = (Ok fs.*1, []).
Proof.
  intros Hmax Henc Htyped. apply (frames_round_trip limit); [done|].
  rewrite Forall_fmap in Htyped. rewrite Forall2_fmap. apply Forall_Forall2_diag, Forall_forall. intros f Hf.
  rewrite Forall_forall in Henc, Htyped. pose proof (Henc f Hf) as He. split; [done|]. apply decode_encode; [by apply Htyped|].
  apply encode_frame_Ok in He as (_ & He & _). unfold u32_max, u64_max in *. lia.
Qed.

(** The handshake's contents are true when the state it was built from is. *)
Lemma handshake_true keys_of sh c pub ns1 ns2 ns3 baseline hs :
  projection_true storage_at keys_of (ps_canonical pub) → serve_handshake sh c pub ns1 ns2 ns3 = Ok (baseline, hs) →
  Forall (envelope_true storage_at keys_of) hs.*1.
Proof.
  intros Hp Hs. destruct (serve_handshake_Ok _ _ _ _ _ _ _ _ Hs) as (_ & v & _ & _ & _ & E & _). cbv zeta in E. rewrite E.
  repeat (apply Forall_cons; split); try by apply Forall_nil.
  - by intros event [= <-].
  - intros event [= <-]. exists (pj_watch_set (ps_canonical pub)). split; [|done]. apply Hp.
  - intros event [= <-]. exists (pj_block (ps_canonical pub)). split; [done|]. simpl.
    rewrite <- (pt_keys _ _ _ Hp). apply Hp.
Qed.

Lemma consume_all_prefix es es' k0 k :
  es `prefix_of` es' → consume_all es' k0 = Ok k → ∃ k', consume_all es k0 = Ok k'.
Proof. intros [rest ->]. rewrite consume_all_app. destruct (consume_all es k0); [eauto|done|done]. Qed.

Definition frame_pair (f : PublishedFrame) : wire.Envelope * bytes := (pf_envelope f, pf_bytes f).

Lemma stream_bytes_pairs hs frames : stream_bytes hs frames = concat (hs ++ (frame_pair <$> frames)).*2.
Proof. unfold stream_bytes. rewrite fmap_app, concat_app, <- list_fmap_compose. done. Qed.

Lemma envelopes_pairs (hs : list (wire.Envelope * bytes)) frames :
  hs.*1 ++ envelopes frames = (hs ++ (frame_pair <$> frames)).*1.
Proof. rewrite fmap_app, <- list_fmap_compose. done. Qed.

Lemma envelopes_prefix fs fs' : fs `prefix_of` fs' → envelopes fs `prefix_of` envelopes fs'.
Proof. intros [rest ->]. exists (envelopes rest). apply fmap_app. Qed.

(** What a connection writes has been broadcast. *)
Lemma written_broadcast baseline from sent pace v frames f :
  (from ≤ length sent)%nat → live_run baseline pace (live_start from sent) = Some v →
  lv_sent v `prefix_of` frames → f ∈ lv_written v → f ∈ frames.
Proof.
  intros Hfrom Hlive [rest ->] Hin. destruct (live_prefix capacity _ _ _ _ _ Hfrom Hlive) as (_ & [k Hk] & _).
  assert (Hd : f ∈ serve_live baseline (drop from (lv_sent v))) by (rewrite Hk; set_solver).
  apply list_elem_of_filter in Hd as [_ Hd]. rewrite <- (take_drop from (lv_sent v)). set_solver.
Qed.

End delivery.

(** ** The sample node with the protobuf encoding *)

Definition coded_node : Env :=
  @node node_world protobuf in_key_order (λ t, t) (λ tick, 100 + N.of_nat tick) (λ _ _, false).

Definition coded_loop : Loop :=
  Eval vm_compute in default (loop_start coded_publisher) (@loop_run coded_node 0 node_actions (loop_start coded_publisher)).

Definition coded_frames : list PublishedFrame := sh_frames (pb_shared (lo_publisher coded_loop)).
Definition coded_frame (i : nat) : PublishedFrame :=
  default (mkPublishedFrame 0 (sample_envelope 0) (published coded_publisher) []) (coded_frames !! i).

(** A consumer subscribes before the first frame and reads its baseline while that frame is being
    committed; the second and third frames reach it live. *)
Definition coded_system : System :=
  mkSystem (pf_state (coded_frame 1)) 2 [coded_frame 0; coded_frame 1] Between (StateLoaded 0 1 (pf_state (coded_frame 0))).

Lemma coded_reachable :
  rtc system_step (mkSystem (published coded_publisher) 0 [] Between Connecting) coded_system.
Proof.
  eapply rtc_l; [apply subscribe|]. eapply rtc_l; [apply (store_state _ _ _ _ (coded_frame 0))|].
  eapply rtc_l; [apply store_sequence|]. eapply rtc_l; [apply load_sequence|].
  eapply rtc_l; [apply load_state|]. eapply rtc_l; [apply send_frame|].
  eapply rtc_l; [apply (store_state _ _ _ _ (coded_frame 1))|]. eapply rtc_l; [apply store_sequence|].
  eapply rtc_l; [apply send_frame|]. apply rtc_refl.
Qed.

Definition coded_handshake : list (wire.Envelope * bytes) :=
  Eval vm_compute in
    match @serve_handshake coded_node (pb_shared coded_publisher) 1 (pf_state (coded_frame 0)) 7 8 9 with
    | Ok r => r.2 | _ => [] end.

Definition coded_pace : list LiveAction := [Recv true; Send (coded_frame 2); Recv true; Recv true].
Definition coded_live : Live :=
  Eval vm_compute in default (live_start 0 []) (@live_run sample_ring 1 coded_pace (live_start 0 (sy_sent coded_system))).

Lemma coded_world_typed : @world_typed node_world.
Proof.
  split; simpl; try done.
  - intros t h header. destruct (h =? 50); [by intros [= <-]|]. destruct (h =? 60); [by intros [= <-]|done].
  - by intros t info [= <-].
  - by intros t o [= <-].
  - by intros t o [= <-].
  - intros t v []%not_elem_of_nil.
Qed.

(** What the sample operator and engine send. *)
Lemma coded_inputs_typed :
  text_set sample_watch_set ∧ Forall call_typed node_calls ∧ Forall request_typed node_actions.
Proof.
  split_and!; [split; [done|repeat constructor]| |].
  { repeat (apply Forall_cons; split; [first [exact I|done|vm_compute; repeat split; discriminate]|]).
    by apply Forall_nil. }
  assert (Hr : text_set reload_set) by (split; [done|repeat constructor]).
  repeat (apply Forall_cons; split; [first [exact I|exact Hr]|]). by apply Forall_nil.
Qed.

