(* ===== verification/Anomalies.v ===== *)
(** * Two behaviours of the candidate cache worth knowing

    When the eviction of a projection is reported as a failure although it
    succeeded, which costs consumers a gap and a snapshot; and what a rejection
    tells consumers of the subtree the publisher drops with the rejected block.
    Each is characterised exactly, and runs of the service from its start show
    that ordinary inputs reach it. *)

From S2P Require Import Prelude Bytes Config Watch Feed Wire Client Consumer Stream Projection Cache CacheInv Publisher Sample PublisherInv Service Server Recovery.
From stdpp Require Import list.
Local Open Scope N_scope.

(** ** A false alarm *)

(** The eviction of one projection: its metadata stays, untracked. *)
Definition evicted (oldest : B256) (rest : list (N * B256)) (c : Cache) : Cache :=
  match candidates c !! oldest with
  | Some candidate =>
      c <| projection_order := rest |>
        <| candidates ::= insert oldest (candidate <| ce_projection := None |> <| ce_tracked := false |>) |>
        <| projection_count ::= λ n, n - 1 |>
  | None => c <| projection_order := rest |>
  end.

(** Stale entries at the front of the queue are dropped and counted. *)
Lemma trim_skips_stale fuel inserted retired rest stale : ∀ examined c,
  projection_order c = stale ++ rest → Forall (λ entry, is_current_projection c entry = false) stale →
  cache_limit c < projection_count c →
  trim_projection_loop (length stale + fuel) inserted examined retired c =
    trim_projection_loop fuel inserted (examined + len stale) retired (c <| projection_order := rest |>).
Proof.
  induction stale as [|[i h] stale IH]; intros examined c Hq Hs Hlt.
  - simpl in *. unfold len. simpl. rewrite N.add_0_r, <- Hq. by destruct c.
  - apply Forall_cons in Hs as [Hi Hs]. simpl length. cbn [Nat.add trim_projection_loop]. cbv [mbind M_bind gets modify id].
    rewrite (proj2 (N.ltb_lt _ _) Hlt), Hq. cbn [negb app]. rewrite Hi. cbn [negb].
    rewrite (IH (examined + 1) (c <| projection_order := stale ++ rest |>)); [|done|done|done].
    replace (examined + 1 + len stale) with (examined + len ((i, h) :: stale)) by (unfold len; simpl; lia). done.
Qed.

(** The oldest projection that is current is evicted, and then its turn is judged. *)
Lemma trim_evict_step fuel inserted examined retired i oldest rest c :
  projection_order c = (i, oldest) :: rest → is_current_projection c (i, oldest) = true →
  oldest ≠ canonical_hash c → cache_limit c < projection_count c →
  trim_projection_loop (S fuel) inserted examined retired c =
    if saturating_add (len rest) 1 <? examined + 1 then (Err (CannotEvict inserted), evicted oldest rest c)
    else trim_projection_loop fuel inserted (examined + 1)
           (if is_tracked c oldest then retired ++ [oldest] else retired) (evicted oldest rest c).
Proof.
  intros Hq Hi Hne Hlt. cbn [trim_projection_loop]. cbv [mbind M_bind gets modify id mret M_ret throw].
  rewrite (proj2 (N.ltb_lt _ _) Hlt), Hq. cbn [negb]. rewrite Hi, (proj2 (N.eqb_neq _ _) Hne). cbn [negb].
  unfold is_current_projection in Hi. unfold evicted, is_tracked. cbn [snd] in Hi.
  destruct (candidates c !! oldest) as [e|]; [|done]. cbv beta iota. destruct (ce_tracked e); by destruct (_ <? _).
Qed.

(** One eviction too many is asked for: it is done, and then judged by the entries looked at. *)
Lemma trim_evicts_one fuel inserted examined stale i oldest rest c :
  projection_order c = stale ++ (i, oldest) :: rest →
  Forall (λ entry, is_current_projection c entry = false) stale →
  is_current_projection c (i, oldest) = true → oldest ≠ canonical_hash c →
  projection_count c = cache_limit c + 1 → len (projection_order c) < u64_max → (length stale + 2 ≤ fuel)%nat →
  let c' := evicted oldest rest c in
  projection_count c' = cache_limit c' ∧
  trim_projection_loop fuel inserted examined [] c =
    (if len rest <? examined + len stale then Err (CannotEvict inserted)
     else Ok (if is_tracked c oldest then [oldest] else []), c').
Proof.
  intros Hq Hs Hi Hne Hcount Hlen Hfuel c'.
  assert (Hlens : len (projection_order c) = len stale + 1 + len rest) by (rewrite Hq; unfold len; rewrite length_app; simpl; lia).
  assert (Hc : projection_count c' = cache_limit c').
  { unfold c', evicted. unfold is_current_projection in Hi. cbn [snd] in Hi. destruct (candidates c !! oldest); [simpl; lia|done]. }
  split; [done|]. replace fuel with (length stale + S (S (fuel - length stale - 2)))%nat by lia.
  rewrite (trim_skips_stale _ _ _ _ _ _ _ Hq Hs) by lia.
  set (c1 := c <| projection_order := (i, oldest) :: rest |>).
  rewrite (trim_evict_step _ inserted (examined + len stale) [] i oldest rest c1) by (done || (simpl; lia)).
  change (evicted oldest rest c1) with c'. change (is_tracked c1 oldest) with (is_tracked c oldest).
  unfold saturating_add. rewrite N.min_l by lia.
  destruct (N.ltb_spec (len rest + 1) (examined + len stale + 1)), (N.ltb_spec (len rest) (examined + len stale)); try lia; [done|].
  cbn [trim_projection_loop]. cbv [mbind M_bind gets id mret M_ret]. rewrite Hc, N.ltb_irrefl. done.
Qed.

(** The canonical head at the front is moved to the back. *)
Lemma trim_rotates_head fuel inserted j l c :
  projection_order c = (j, canonical_hash c) :: l → is_current_projection c (j, canonical_hash c) = true →
  cache_limit c < projection_count c →
  trim_projection_loop (S fuel) inserted 0 [] c =
    trim_projection_loop fuel inserted 1 [] (c <| projection_order := l ++ [(j, canonical_hash c)] |>).
Proof.
  intros Hq Hi Hlt. cbn [trim_projection_loop]. cbv [mbind M_bind gets modify id mret M_ret throw].
  rewrite (proj2 (N.ltb_lt _ _) Hlt), Hq. cbn [negb]. rewrite Hi, N.eqb_refl. cbn [negb].
  rewrite (proj2 (N.ltb_ge _ _)); [done|]. unfold saturating_add, len, u64_max. simpl. rewrite length_app. simpl. lia.
Qed.

(** The queue: the canonical head in front or not, stale entries, the oldest projection, the rest. *)
Record queued (c : Cache) (head stale : list (N * B256)) (i : N) (oldest : B256) (rest : list (N * B256)) : Prop := {
  qd_order : projection_order c = head ++ stale ++ (i, oldest) :: rest;
  qd_head : head = [] ∨ ∃ j, head = [(j, canonical_hash c)] ∧ is_current_projection c (j, canonical_hash c) = true;
  qd_stale : Forall (λ entry, is_current_projection c entry = false) stale;
  qd_oldest : is_current_projection c (i, oldest) = true;
  qd_not_head : oldest ≠ canonical_hash c;
}.

Lemma trim_queued inserted head stale i oldest rest c :
  queued c head stale i oldest rest → projection_count c = cache_limit c + 1 → len (projection_order c) < u64_max →
  let c' := evicted oldest (rest ++ head) c in
  projection_count c' = cache_limit c' ∧
  trim_projection_loop (trim_projection_fuel c) inserted 0 [] c =
    (if len rest <? len stale then Err (CannotEvict inserted) else Ok (if is_tracked c oldest then [oldest] else []), c').
Proof.
  intros [Hq Hhead Hs Hi Hne] Hcount Hlen c'.
  assert (Hfuel : trim_projection_fuel c = S (length stale + 2 * length head + length stale + 2 * length rest + 5)).
  { unfold trim_projection_fuel. rewrite Hq, !length_app. simpl. lia. }
  destruct Hhead as [->|(j & -> & Hj)].
  - unfold c'. rewrite app_nil_r. apply (trim_evicts_one _ inserted 0 stale i oldest rest c); try done. simpl in *. lia.
  - rewrite Hfuel, (trim_rotates_head _ inserted j (stale ++ (i, oldest) :: rest)) by (done || lia).
    set (c1 := c <| projection_order := _ |>).
    destruct (trim_evicts_one (length stale + 2 * 1 + length stale + 2 * length rest + 5) inserted 1 stale i oldest
      (rest ++ [(j, canonical_hash c)]) c1) as [Hc Ht]; try done; [simpl; by rewrite <- app_assoc| |lia|].
    { unfold c1. simpl. unfold len in *. rewrite Hq in Hlen. rewrite !length_app in *. simpl in *. lia. }
    change (evicted oldest (rest ++ [(j, canonical_hash c)]) c1) with c' in *. split; [exact Hc|].
    change (length [(j, canonical_hash c)]) with 1%nat. rewrite Ht.
    change (is_tracked c1 oldest) with (is_tracked c oldest).
    assert (Hl : len (rest ++ [(j, canonical_hash c)]) = len rest + 1) by (unfold len; rewrite length_app; simpl; lia).
    rewrite Hl. destruct (N.ltb_spec (len rest + 1) (1 + len stale)), (N.ltb_spec (len rest) (len stale)); (done || lia).
Qed.


(** ** A silent removal *)

(** A consumer's tracker is consistent whatever it has accepted. *)
Lemma tracker_wf_insert hash parent t t' : tracker_wf t → tracker_insert hash parent t = Ok t' → tracker_wf t'.
Proof. intros Hwf E. destruct (tracker_insert_total hash parent t Hwf) as (t1 & E1 & ? & _). congruence. Qed.
Lemma tracker_wf_tree root t t' : tracker_wf t → tracker_remove_tree root t = Ok t' → tracker_wf t'.
Proof. intros Hwf E. destruct (tracker_remove_tree_total root t Hwf) as (t1 & E1 & ?). congruence. Qed.
Lemma tracker_wf_retire hashes : ∀ t t', tracker_wf t → retire_all hashes t = Ok t' → tracker_wf t'.
Proof.
  induction hashes as [|h hashes IH]; intros t t' Hwf; cbn [retire_all]; [by intros [= <-]|].
  destruct (ensure _ _); [|done|done]. apply IH. by apply remove_exact_wf.
Qed.

(** Peels the checks off a successful run of the consumer. *)
Ltac peel :=
  repeat match goal with
  | H : mbind _ ?o = Ok _ |- _ => let E := fresh "E" in destruct o eqn:E; [cbn [mbind outcome_bind] in H|done|done]
  end.

Lemma consume_event_tracker g event k k' :
  tracker_wf (co_candidates k) → consume_event g event k = Ok k' → tracker_wf (co_candidates k').
Proof.
  intros Hwf. assert (Hclear : tracker_wf (tracker_clear (co_candidates k))) by apply tracker_new_wf.
  destruct event; cbn [consume_event]; cbv zeta; intros Hk; peel; simplify_eq/=; try done.
  all: repeat case_match; peel; simplify_eq/=; try done; eauto using tracker_wf_insert, tracker_wf_tree, tracker_wf_retire.
Qed.

Lemma consume_tracker envelope k k' :
  tracker_wf (co_candidates k) → consume envelope k = Ok k' →
  tracker_wf (co_candidates k') ∧
  ∃ event k1, wire.event envelope = Some event ∧ co_candidates k1 = co_candidates k ∧
    consume_event (wire.config_generation envelope) event k1 = Ok k'.
Proof.
  intros Hwf. unfold consume. intros Hk. peel.
  match goal with H : ok_or (wire.event envelope) _ = Ok ?x |- _ =>
    destruct (wire.event envelope) as [event|] eqn:Eev; simpl in H; [|done]; injection H as <- end.
  match goal with H : consume_event _ _ ?k2 = Ok _ |- _ => assert (Ek : co_candidates k2 = co_candidates k) end.
  { simpl. destruct (co_boot_id k); peel; by simplify_eq/=. }
  split; [eapply consume_event_tracker; [|exact Hk]; by rewrite Ek|]. eauto.
Qed.

Lemma consume_all_tracker envelopes : ∀ k k',
  tracker_wf (co_candidates k) → consume_all envelopes k = Ok k' → tracker_wf (co_candidates k').
Proof.
  induction envelopes as [|e envelopes IH]; intros k k' Hwf; cbn [consume_all]; [by intros [= <-]|].
  intros Hk. peel. eapply IH; [|exact Hk]. by eapply consume_tracker.
Qed.

(** What the tracker keeps of a rejection. *)
Lemma consume_rejected envelope rejection k k' :
  tracker_wf (co_candidates k) → wire.event envelope = Some (wire.EvBlockRejected rejection) → consume envelope k = Ok k' →
  ∀ h, is_Some (ct_parents (co_candidates k) !! h) →
    is_Some (ct_parents (co_candidates k') !! h) ↔ ¬ descends (co_candidates k) (wire.rj_block_hash rejection) h.
Proof.
  intros Hwf He Hk h Hh. destruct (consume_tracker _ _ _ Hwf Hk) as (_ & event & k1 & Ev & Ek & Hc).
  rewrite He in Ev. injection Ev as <-. cbn [consume_event] in Hc. peel. injection Hc as <-. simpl.
  destruct (tracker_remove_tree_spec (wire.rj_block_hash rejection) (co_candidates k) Hwf) as (t & Et & _ & Hgone & Hkept).
  assert (Ht : a2 = t) by congruence. rewrite Ht. split.
  - intros [x Hx] Hd. by rewrite (Hgone h Hd) in Hx.
  - intros Hd. by rewrite (Hkept h Hd).
Qed.

(** [rejected] sends one frame and drops the subtree. *)
Lemma rejected_sends `{Env} g root reason p :
  wp (rejected g root reason) (λ o p', o = Ok true →
    sent p p' [Some (wire.EvBlockRejected {| wire.rj_block_hash := to_vec root; wire.rj_reason := reason |})] ∧
    remove_candidate_tree root true (pb_cache p) = (Ok (), pb_cache p')) p.
Proof.
  unfold rejected. wp_step. destruct (_ <? _); [done|]. destruct (_ <? _); [done|]. wp_step. cbv zeta.
  destruct (negb _); [done|]. apply wp_bind. eapply wp_mono; [apply publish_inner_sends|].
  intros [seq|e|] p1 (Ec & Hp1); [|done|done]. destruct Hp1 as [Hs _]. cbv beta. unfold remove_tree.
  apply wp_bind, wp_bind. wp_step. apply wp_bind. unfold wp at 1, on_cache. rewrite Ec.
  destruct (remove_candidate_tree root true (pb_cache p)) as [[[]|e|] c']; [|done|done]. cbn [fst snd].
  destruct (root =? _); wp_steps; (split; [exact Hs|done]).
Qed.

(** C40: A rejection removes the whole subtree from the publisher's cache but announces only its root:
    one frame, whatever hangs below.  A consumer that still holds one of the removed blocks forgets it
    on reading that frame exactly when its own tracker links the block to the root.  So a block whose
    intermediate ancestors the consumer was told to forget, because their projections had been
    evicted, stays with the consumer as a live candidate although the publisher has dropped it. *)
Theorem rejection_leaves_orphan `{Env} generation root reason p p' new limit history k k' d :
  let c := pb_cache p in
  cache_ok c → queues_bounded c → index_sound c → root ≠ canonical_hash c →
  rejected generation root reason p = (Ok true, p') → sh_frames (pb_shared p') = sh_frames (pb_shared p) ++ new →
  consume_all history (consumer_new limit) = Ok k → consume_all (pf_envelope <$> new) k = Ok k' →
  below c root d → is_Some (ct_parents (co_candidates k) !! to_vec d) →
  block_meta (pb_cache p') d = None ∧
  (∃ frame, new = [frame] ∧ wire.event (pf_envelope frame) =
     Some (wire.EvBlockRejected {| wire.rj_block_hash := to_vec root; wire.rj_reason := reason |})) ∧
  (is_Some (ct_parents (co_candidates k') !! to_vec d) ↔ ¬ descends (co_candidates k) (to_vec root) (to_vec d)).
Proof.
  intros c Hok Hq Hix Hne Hrej Hnew Hk Hk' Hd Hheld.
  pose proof (rejected_sends generation root reason p) as Hs. unfold wp in Hs. rewrite Hrej in Hs.
  destruct (Hs eq_refl) as [(new' & Hnew' & Hev) Hrm].
  assert (new' = new) as -> by (cbn [fst snd] in *; rewrite Hnew in Hnew'; by apply app_inv_head in Hnew').
  assert (Hone : ∃ frame, new = [frame] ∧ wire.event (pf_envelope frame) =
    Some (wire.EvBlockRejected {| wire.rj_block_hash := to_vec root; wire.rj_reason := reason |})).
  { destruct new as [|frame [|]]; try done. injection Hev as Hev. eauto. }
  split_and!; [|exact Hone|].
  - destruct (wp_total_inv _ _ _ _ (remove_candidate_tree_wp root true c Hok Hq Hix Hne))
      as [([] & c' & E & Hc')|(? & ? & _ & [])]. unfold c in *. rewrite Hrm in E. injection E as ->. by apply Hc'.
  - destruct Hone as (frame & -> & Hf). cbn [fmap list_fmap consume_all] in Hk'.
    assert (Hwf : tracker_wf (co_candidates k)) by (eapply consume_all_tracker; [|exact Hk]; apply tracker_new_wf).
    destruct (consume (pf_envelope frame) k) as [k1| |] eqn:Ec; [|done|done]. cbn [mbind outcome_bind] in Hk'. injection Hk' as <-.
    exact (consume_rejected _ _ _ _ Hwf Hf Ec _ Hheld).
Qed.

(** ** Runs *)

(** Siblings of the head: executed, then some of them rejected. *)
Definition executed (n parent number : N) : LoopPass :=
  data_pass (Executed (100 + n) 1 (sample_block number n parent) []).
Definition invalid (n : N) : LoopPass := data_pass (Rejected (100 + n) 1 n "block_validation_failed").

Definition siblings : list LoopPass :=
  [executed 61 50 6; invalid 61; executed 62 50 6; invalid 62; executed 63 50 6].

(** The publisher after two rejected siblings and a third that is a candidate. *)
Definition crowded : Publisher := Eval vm_compute in
  (@run_publisher sample_env 3 siblings sample_publisher).2.

(** Executing a fourth makes the thread recover: the candidate was published, the retirement of the
    evicted one was not. *)
Example eviction_false_alarm_run :
  event_names (@run_publisher sample_env 3 (siblings ++ [executed 64 50 6]) sample_publisher).2 =
    Some <$> ["state"; "rejected"; "state"; "rejected"; "state"; "state"; "gap"; "snapshot"]%string.
Proof. vm_compute. reflexivity. Qed.

(** The fourth block is in the cache, which is one over its limit. *)
Definition overfull : Publisher := Eval vm_compute in
  crowded <| pb_cache ::= insert_candidate_entry 200 1000 (sample_projection 64 50 6 (replicate 96 0) [0]) CandidateExecuted true 4 |>.


(** Room for eight records and two projections. *)
Definition roomy_stream : StreamConfig := {|
  publish_executed := true; socket := "/run/statefeed.sock"; socket_mode := 432; queue_capacity := 4;
  candidate_cache_blocks := 2; candidate_metadata_entries := 8; candidate_retention := 1000;
  retirement_work_budget := 4; consumer_buffer := 4; max_consumers := 1; max_frame_bytes := 4096;
  publisher_cpu := None; publisher_spin_us := 0 |}.
Definition roomy : Publisher := Eval vm_compute in
  started (@start_service sample_env roomy_stream sample_boot 1 0 0 sample_watch_set).

(** A chain of three candidates on the head; the projections of the first two are evicted. *)
Definition chain_executed : list LoopPass := [executed 61 50 6; executed 62 61 7; executed 63 62 8].
Definition chained : Publisher := Eval vm_compute in (@run_publisher sample_env 3 chain_executed roomy).2.

(** A consumer connected from the start. *)
Definition handshake : list wire.Envelope := Eval vm_compute in
  match @serve_handshake sample_env (pb_shared roomy) 0 (published roomy) 1 2 3 with
  | Ok (_, frames) => fst <$> frames
  | _ => []
  end.
Definition history : list wire.Envelope := handshake ++ (pf_envelope <$> sh_frames (pb_shared chained)).
Definition watching : Consumer := Eval vm_compute in
  match consume_all history (consumer_new 16) with Ok k => k | _ => consumer_new 0 end.

(** The first block of the chain turns out invalid. *)
Definition after_rejection : Publisher := Eval vm_compute in (@rejected sample_env 1 61 "block_validation_failed" chained).2.
Definition rejection_frames : list PublishedFrame :=
  Eval vm_compute in drop (length (sh_frames (pb_shared chained))) (sh_frames (pb_shared after_rejection)).
Definition told : Consumer := Eval vm_compute in
  match consume_all (pf_envelope <$> rejection_frames) watching with Ok k => k | _ => consumer_new 0 end.

Lemma chained_ok : cache_ok (pb_cache chained) ∧ queues_bounded (pb_cache chained).
Proof.
  destruct (@run_publisher_reaches sample_env sample_laws roomy_stream sample_boot 1 0 0 sample_watch_set roomy 3 chain_executed
    (Ok true) chained) as (_ & Hidle & _).
  - apply sample_watch_wf.
  - vm_compute. reflexivity.
  - repeat constructor.
  - vm_compute. reflexivity.
  - vm_compute. discriminate.
  - destruct (Hidle eq_refl) as ((Hinv & _) & _). split; [exact (iv_cache _ _ _ _ _ Hinv)|exact (iv_queues _ _ _ _ _ Hinv)].
Qed.

Lemma chained_index : index_sound (pb_cache chained).
Proof.
  intros p h. unfold kids.
  assert (children_by_parent (pb_cache chained) = {[ 50 := [61]; 61 := [62]; 62 := [63] ]}) as -> by (vm_compute; reflexivity).
  destruct (decide (p = 50)) as [->|]; [intros ->%list_elem_of_singleton; vm_compute; reflexivity|].
  destruct (decide (p = 61)) as [->|]; [intros ->%list_elem_of_singleton; vm_compute; reflexivity|].
  destruct (decide (p = 62)) as [->|]; [intros ->%list_elem_of_singleton; vm_compute; reflexivity|].
  rewrite !lookup_insert_ne, lookup_singleton_ne by done. by intros ?%not_elem_of_nil.
Qed.

(** Block 63 descends from the rejected block 61 and is gone from the publisher; the consumer, which
    was told to forget 61 and 62, still holds it. *)
Lemma rejection_leaves_orphan_witness :
  block_meta (pb_cache after_rejection) 63 = None ∧
  (is_Some (ct_parents (co_candidates told) !! to_vec 63) ↔ ¬ descends (co_candidates watching) (to_vec 61) (to_vec 63)) ∧
  is_Some (ct_parents (co_candidates told) !! to_vec 63).
Proof.
  destruct (@rejection_leaves_orphan sample_env 1 61 "block_validation_failed" chained after_rejection rejection_frames 16 history
    watching told 63 (proj1 chained_ok) (proj2 chained_ok) chained_index) as (H1 & _ & H3).
  - vm_compute. discriminate.
  - vm_compute. reflexivity.
  - vm_compute. reflexivity.
  - vm_compute. reflexivity.
  - vm_compute. reflexivity.
  - eapply rtc_l; [vm_compute; left|]. apply rtc_once. vm_compute. left.
  - eexists. vm_compute. reflexivity.
  - split; [exact H1|]. split; [exact H3|]. eexists. vm_compute. reflexivity.
Defined.
